(* ===== verification/_CoqProject ===== *)
-Q . S2P
Prelude.v
Wire.v
BigInt.v
Keys.v
Ident.v
Order.v
Stable.v
Tx.v
Merkle.v
Block.v
Params.v
Payloads.v
Values.v
Auth.v
Commit.v
Cache.v
Accounts.v
Records.v
Mempool.v
Voting.v
Events.v
TxApp.v
TxFacts.v
TxSamples.v
Admission.v
Finalize.v
FinalizeFacts.v
Consensus.v
Certificates.v
Processor.v
Proposal.v
ProcessorFacts.v
ProposalFacts.v
ProcessorSamples.v
Store.v
StoreFacts.v
StoreSamples.v
Node.v
NodeFacts.v
NodeSamples.v
SqlValues.v
SqlArrays.v
SqlFacts.v
Roles.v
RolesFacts.v
Interp.v
InterpSound.v
InterpFacts.v
InterpCache.v
InterpSamples.v
Grants.v
GrantsFacts.v
