(* ===== verification/Prelude.v ===== *)
(** * Verification of kwil-db

    kwil-db is a database replicated by consensus.  Clients sign transactions;
    a node admits them to its mempool; the leader of the validators proposes
    blocks of them; the validators execute a proposal on PostgreSQL, vote for the
    hash of the resulting state, and commit the block when more than half of
    them agree.  This library models that path, from the bytes of a transaction
    to the commit and the restart after a crash, and the interpreter that runs
    the actions of users, and proves what makes them correct.  Where the code
    does something else than it means to, a theorem says exactly what it does.

    ** Conventions

    A Go function is a Rocq function of the same name.  Integers are [Z] with
    their wrap-around written out ([u64], [i64], [swrap]); a [[]byte] is a list of
    bytes, with [None] for nil where the code tells them apart; a map is a [gmap],
    and where the code ranges over a map every order of its keys is considered.
    A fallible function returns a [result], and a method that changes its
    receiver is an [action W A], which returns a value or an error and the state
    that the early return leaves; a panic is the error [ErrPanic], caught where
    the code recovers.  A method that holds its mutex is one transition.
    Message texts are kept without their arguments; sentinels are compared by
    [errors_is] as [errors.Is] does.

    Code that is not in the repository is a class or an argument, with the
    documented behaviour that a proof needs as laws, and instantiated with
    concrete functions in the witnesses: hashes and signatures ([Crypto],
    section arguments), the key-value database ([Badger]), the LRU map ([Cache]),
    Unicode case folding ([Strings]), decimals ([Decimals], [DecimalArith]),
    runtime facts about slices, UUIDs and floating point ([GoRuntime]), the JSON
    form of parameters ([ParamsCodec]).  PostgreSQL statements do not fail for
    reasons of infrastructure.

    ** Files and sources

    Prelude: bytes, integers of fixed width, errors, the monad of actions with
    its rules and tactics ([acts], [act]), lists and maps.

    Encodings.  Wire, BigInt: src/core/types/transaction.go and
    src/core/utils/rw.go.  Keys: src/core/crypto/keys.go, keytype.go.  Ident:
    identifiers of src/core/types/types.go.  Order, Stable: byte order, and the
    stable sort of Go's standard library.  Tx: transaction.go.  Merkle, Block:
    block.go.  Params: params.go.  Payloads, Values: payloads.go and
    data_types.go.  Commit: commit.go and src/node/types/consensus.go.  Records:
    stored records.  Auth: src/core/crypto/auth and src/extensions/auth.

    Stores.  Cache; Accounts: src/node/accounts.  Mempool: src/node/mempool.
    Voting, Events: src/node/voting and src/extensions/resolutions.  Store,
    StoreFacts, StoreSamples: src/node/store with the store in memory as its
    specification.

    Execution.  TxApp, TxFacts, TxSamples: the routes of src/node/txapp.
    Admission: its mempool.go.  Finalize, FinalizeFacts: the end of a block.
    Processor, Proposal, ProcessorFacts, ProposalFacts, ProcessorSamples:
    src/node/block_processor.  The database is a view of the writer transaction
    beside the committed tables.

    Consensus.  Consensus: src/node/consensus with its event loop and, as steps
    beside the loop, the worker that catches a leader up; it uses the
    block processor, the block store and the node's files through the classes
    [BlockProcessor], [BlockStore] and [NodeFiles].  Certificates: its safety.
    Node, NodeFacts, NodeSamples: the classes instantiated with Processor and
    Store as src/app/node/build.go puts them together, with crashes.

    The engine.  SqlValues, SqlArrays, SqlFacts: the values and operators of
    src/node/engine/interpreter/values.go and the array functions of
    interpreter.go, over a heap of backing arrays, because Go slices and array
    values are shared.  Interp: context.go, planner.go and [call] of
    interpreter.go: contexts, scopes, expressions, statements, calls, queries
    with cache and savepoints; the loop over the rows of an action runs inside
    of that action, as the callbacks of the code do.  What is behind a query, the
    planner, the SQL generator and PostgreSQL, is the class [Database].
    InterpSound, InterpFacts, InterpCache, InterpSamples: its theorems and whole
    programs.  Roles, RolesFacts: roles.go, the access controller in memory and its
    tables.  Grants, GrantsFacts: the statements of planner.go on roles and
    namespaces, [execute] of interpreter.go, and restarts.

    ** What is shown

    Consensus: every committed block follows its predecessor and carries a
    certificate of the validators in force for the hash it is recorded with, two
    certificates share a signer, a majority leads to a commit that others verify,
    and the network halts only when no majority is possible (Certificates).
    The engine does not compare a fetched block with the hash it comes with, so
    that this hash is the block's own is an assumption on the blocks of peers.

    Commit and restart: a commit of the composed node is durable, and every
    crash between its writes leaves a node that starts (NodeFacts); a rollback
    restores the block processor, a commit survives a crash, and the app hash
    does not depend on the order of maps (ProcessorFacts); the account cache and
    the memory of the interpreter are not restored by a rollback, and a record that
    the cache keeps loses money (Accounts); the block store simulates the one in
    memory and survives a restart (StoreFacts).

    Transactions: a failed transaction is charged and changes nothing else, no
    nonce is used twice in a block, votes are the sender's (TxFacts); admitted transactions
    reach their routes with consecutive nonces (Admission); the end of a block
    settles exactly the resolutions that are due, and one that stops every later
    block (FinalizeFacts); a proposal keeps order and size (ProposalFacts); the
    account store refines a ledger (Accounts); vote tables stay consistent and
    thresholds select exactly the approved resolutions (Voting); the mempool
    stays consistent (Mempool).

    Encodings: round trips of every codec, block hashes commit to blocks, the
    Merkle computation is the reference one, size functions and their errors.

    The engine: types of variables, parameters and results hold in every
    execution, on errors too (InterpSound); programs without recursion end, range
    loops run once per number except up to the largest integer, access is what
    the modifiers say, a nested query is all or nothing (InterpFacts); casts,
    elements and arithmetic (SqlFacts); the first context that runs a statement
    decides the plan of all while the statement stays in the cache (InterpCache);
    access is decided by the tables and survives restarts, a transfer of ownership
    leaves one owner, and one statement has different results after a restart
    (GrantsFacts).

    ** Bounds and fuel

    Loops that are not structural get a number of steps that the proofs show to
    suffice: the length of the list for the Merkle levels and for the merges of
    the stable sort, the number of blocks for the replay.  The interpreter is tied
    by a number of steps ([run]): its soundness holds for every number, the
    outcome does not depend on it ([outcome_of_call]), and
    [(rank + 1) * (D + 1)] suffice for programs without recursion
    ([nonrecursive_ends]).  The doubling of array capacities gets more steps than
    [maxArrayLen] has doublings.

    ** Not modelled

    The parser is generated code.  The logical planner and the SQL generator
    (src/node/engine/planner, pg_generate) only matter through the SQL they
    produce, whose meaning is PostgreSQL's; they are the operation [compile].
    Statements that change tables, actions and extensions, and ad hoc SQL, are
    text for the database apart from a cache of the catalogue; so the clearing of
    the statement cache after them is not modelled.  The PostgreSQL
    layer (src/node/pg), the peer-to-peer node, state sync and snapshots are I/O
    around the modelled parts; the consensus engine sees them as events.
    Network migrations, the ERC-20 bridge and the event listeners are clients of
    the engine and of other chains.  RPC services, clients, command line and
    configuration do not change the replicated state by themselves. *)

From Stdlib Require Import Strings.Byte Strings.String.
From Stdlib Require Export ZArith Lia.
From stdpp Require Export base tactics list gmap strings countable option numbers.
Abbreviation byte := Init.Byte.byte.

#[global] Open Scope Z_scope.

(** ** Bytes, strings and slices *)

(** A Go [byte] is the inductive type of the 256 bytes. *)
Abbreviation bytes := (list byte).

#[export] Instance byte_eq_decision : EqDecision byte := Byte.byte_eq_dec.

#[export] Instance byte_countable : Countable byte.
Proof.
  refine (inj_countable Byte.to_N Byte.of_N _).
  apply Byte.of_to_N.
Defined.

(** A Go [[]byte] distinguishes nil from empty: [None] is nil. *)
Abbreviation slice := (option (list byte)).

Definition Z_of_byte (b : byte) : Z := Z.of_N (Byte.to_N b).

Definition byte_of_Z (z : Z) : byte :=
  match Byte.of_N (Z.to_N (z mod 256)) with
  | Some b => b
  | None => Byte.x00
  end.

(** The bytes of an ASCII literal of the source. *)
Definition str (s : string) : bytes := String.list_byte_of_string s.

(** [len] of a Go slice or string. *)
Definition zlen {A} (l : list A) : Z := Z.of_nat (length l).

Definition slice_bytes (s : slice) : bytes := default [] s.

Definition slice_len (s : slice) : Z := zlen (slice_bytes s).

Lemma Z_of_byte_range b : 0 <= Z_of_byte b < 256.
Proof.
  unfold Z_of_byte. pose proof (Byte.to_N_bounded b). lia.
Qed.

Lemma Z_of_byte_of_Z z : Z_of_byte (byte_of_Z z) = z mod 256.
Proof.
  unfold Z_of_byte, byte_of_Z.
  pose proof (Z.mod_pos_bound z 256 ltac:(lia)).
  destruct (Byte.of_N (Z.to_N (z mod 256))) as [b|] eqn:E.
  - apply Byte.to_of_N in E. rewrite E. lia.
  - apply Byte.of_N_None_iff in E. lia.
Qed.

Lemma byte_of_Z_of_byte b : byte_of_Z (Z_of_byte b) = b.
Proof.
  unfold byte_of_Z. rewrite Z.mod_small by apply Z_of_byte_range.
  unfold Z_of_byte. rewrite N2Z.id, Byte.of_to_N. reflexivity.
Qed.

Lemma byte_of_Z_mod z : byte_of_Z (z mod 256) = byte_of_Z z.
Proof. unfold byte_of_Z. rewrite Zmod_mod. reflexivity. Qed.

#[export] Instance Z_of_byte_inj : Inj (=) (=) Z_of_byte.
Proof.
  intros a b H. rewrite <- (byte_of_Z_of_byte a), H. apply byte_of_Z_of_byte.
Qed.

Lemma zlen_nonneg {A} (l : list A) : 0 <= zlen l.
Proof. unfold zlen. lia. Qed.

Lemma zlen_nil {A} : zlen (@nil A) = 0.
Proof. reflexivity. Qed.

Lemma zlen_cons {A} (x : A) l : zlen (x :: l) = 1 + zlen l.
Proof. unfold zlen. cbn [length]. lia. Qed.

Lemma zlen_app {A} (l k : list A) : zlen (l ++ k) = zlen l + zlen k.
Proof. unfold zlen. rewrite length_app. lia. Qed.

Lemma zlen_map {A B} (f : A -> B) l : zlen (map f l) = zlen l.
Proof. unfold zlen. rewrite length_map. reflexivity. Qed.

(** Every length in sight is nonnegative. *)
Ltac zlens :=
  repeat match goal with
  | |- context [zlen ?l] =>
      lazymatch goal with
      | _ : 0 <= zlen l |- _ => fail
      | _ => pose proof (zlen_nonneg l)
      end
  | _ : context [zlen ?l] |- _ =>
      lazymatch goal with
      | _ : 0 <= zlen l |- _ => fail
      | _ => pose proof (zlen_nonneg l)
      end
  end.

Lemma zlen_0_inv {A} (l : list A) : zlen l = 0 -> l = [].
Proof. destruct l; unfold zlen; cbn; [done|lia]. Qed.

(** ** Machine integers *)

(** Conversion to an unsigned or signed integer of [w] bits. *)
Definition uwrap (w : Z) (z : Z) : Z := z mod 2 ^ w.

Definition swrap (w : Z) (z : Z) : Z :=
  (z + 2 ^ (w - 1)) mod 2 ^ w - 2 ^ (w - 1).

Abbreviation u8 := (uwrap 8).
Abbreviation u16 := (uwrap 16).
Abbreviation u32 := (uwrap 32).
Abbreviation u64 := (uwrap 64).
Abbreviation i32 := (swrap 32).
Abbreviation i64 := (swrap 64).

Definition is_uint (w z : Z) : Prop := 0 <= z < 2 ^ w.
Definition is_sint (w z : Z) : Prop := - 2 ^ (w - 1) <= z < 2 ^ (w - 1).

Lemma uwrap_small w z : is_uint w z -> uwrap w z = z.
Proof. intros H. apply Z.mod_small, H. Qed.

Lemma swrap_small w z : 0 < w -> is_sint w z -> swrap w z = z.
Proof.
  unfold swrap, is_sint. intros Hw H.
  assert (2 ^ w = 2 * 2 ^ (w - 1)) as E.
  { rewrite <- Z.pow_succ_r by lia. f_equal. lia. }
  rewrite Z.mod_small; lia.
Qed.

Lemma swrap_uwrap w z : 0 < w -> swrap w (uwrap w z) = swrap w z.
Proof.
  intros Hw. unfold swrap, uwrap. f_equal.
  rewrite Zplus_mod_idemp_l. reflexivity.
Qed.

Lemma uwrap_uwrap_add w x y : uwrap w (uwrap w x + y) = uwrap w (x + y).
Proof. unfold uwrap. apply Zplus_mod_idemp_l. Qed.

Lemma uwrap_swrap w z : 0 < w -> uwrap w (swrap w z) = uwrap w z.
Proof.
  intros Hw. unfold swrap, uwrap. rewrite Zminus_mod, Z.mod_mod by lia. rewrite <- Zminus_mod. f_equal. lia.
Qed.

Lemma uwrap_swrap_add w x y : 0 < w -> uwrap w (swrap w x + y) = uwrap w (x + y).
Proof. intros Hw. by rewrite <- uwrap_uwrap_add, uwrap_swrap, uwrap_uwrap_add. Qed.

Lemma uwrap_range w z : 0 <= w -> is_uint w (uwrap w z).
Proof. intros. apply Z.mod_pos_bound. apply Z.pow_pos_nonneg; lia. Qed.

Lemma swrap_range w z : 0 < w -> is_sint w (swrap w z).
Proof.
  intros Hw. unfold is_sint, swrap.
  assert (2 ^ w = 2 * 2 ^ (w - 1)) as E.
  { rewrite <- Z.pow_succ_r by lia. f_equal. lia. }
  pose proof (Z.pow_pos_nonneg 2 (w - 1) ltac:(lia) ltac:(lia)).
  pose proof (Z.mod_pos_bound (z + 2 ^ (w - 1)) (2 ^ w) ltac:(lia)). lia.
Qed.

(** Goals on literal widths: unfold the predicates and compute the powers. *)
Ltac ints :=
  unfold is_uint, is_sint, uwrap, swrap in *;
  change (8 * Z.of_nat 1) with 8 in *;
  change (8 * Z.of_nat 2) with 16 in *;
  change (8 * Z.of_nat 4) with 32 in *;
  change (8 * Z.of_nat 8) with 64 in *;
  change (2 ^ 8) with 256 in *;
  change (2 ^ 16) with 65536 in *;
  change (2 ^ 32) with 4294967296 in *;
  change (2 ^ 64) with 18446744073709551616 in *;
  change (2 ^ (32 - 1)) with 2147483648 in *;
  change (2 ^ 63) with 9223372036854775808 in *;
  change (2 ^ (64 - 1)) with 9223372036854775808 in *;
  try lia.

(** A closed range fact, by computation. *)
Ltac const_range := solve [vm_compute; split; congruence].

(** ** Errors and results *)

(** Error values.  A sentinel is compared by [errors.Is]; a message carries
    the fixed text of the [errors.New] or [fmt.Errorf] call, without its
    formatted arguments; [ErrWrap] is [fmt.Errorf] with [%w]; [ErrPanic] is a
    panic, which unwinds instead of returning. *)
Inductive error :=
  | ErrSentinel (name : string)
  | ErrMsg (msg : string)
  | ErrPanic (msg : string)
  | ErrWrap (msg : string) (inner : error).

#[export] Instance error_eq_decision : EqDecision error.
Proof. solve_decision. Defined.

(** [errors.Is]. *)
Fixpoint errors_is (e target : error) : bool :=
  bool_decide (e = target) ||
  match e with
  | ErrWrap _ e' => errors_is e' target
  | _ => false
  end.

Definition ErrEOF : error := ErrSentinel "EOF".
Definition ErrUnexpectedEOF : error := ErrSentinel "unexpected EOF".

(** A fallible computation: a value or an error. *)
Inductive result (A : Type) :=
  | Ok (a : A)
  | Err (e : error).
Arguments Ok {A} a.
Arguments Err {A} e.

#[export] Instance result_ret : MRet result := fun A a => Ok a.
#[export] Instance result_bind : MBind result := fun A B k m =>
  match m with Ok a => k a | Err e => Err e end.
#[export] Instance result_fmap : FMap result := fun A B f m =>
  match m with Ok a => Ok (f a) | Err e => Err e end.

#[export] Instance result_eq_decision {A} `{EqDecision A} :
  EqDecision (result A).
Proof. solve_decision. Defined.

#[export] Instance Ok_inj {A} : Inj (=) (=) (@Ok A).
Proof. congruence. Qed.

Definition is_ok {A} (r : result A) : bool :=
  match r with Ok _ => true | Err _ => false end.

(** [if err != nil { return fmt.Errorf("msg: %w", err) }] *)
Definition wrap_err {A} (msg : string) (r : result A) : result A :=
  match r with Ok a => Ok a | Err e => Err (ErrWrap msg e) end.

Lemma result_bind_Ok {A B} (m : result A) (k : A -> result B) b :
  m ≫= k = Ok b <-> exists a, m = Ok a /\ k a = Ok b.
Proof.
  destruct m as [a|e]; cbn; split.
  - eauto.
  - by intros (a' & [= ->] & ?).
  - done.
  - by intros (a' & ? & ?).
Qed.

Lemma wrap_err_Ok {A} msg (m : result A) a : wrap_err msg m = Ok a <-> m = Ok a.
Proof. by destruct m. Qed.

(** ** Stateful operations *)

(** A method that mutates a state and may fail; the state after a failure is
    the one the early return leaves. *)
Definition action (W A : Type) : Type := W -> result A * W.

#[export] Instance action_ret W : MRet (action W) := fun A a w => (Ok a, w).
#[export] Instance action_bind W : MBind (action W) := fun A B k m w =>
  match m w with
  | (Ok a, w') => k a w'
  | (Err e, w') => (Err e, w')
  end.

Definition afail {W A} (e : error) : action W A := fun w => (Err e, w).
Definition alift {W A} (r : result A) : action W A := fun w => (r, w).

(** Continue on the error as a value: [if err != nil { ... }]. *)
Definition atry {W A} (m : action W A) : action W (result A) :=
  fun w => let '(r, w') := m w in (Ok r, w').

Lemma action_bind_Ok {W A B} (m : action W A) (k : A -> action W B) w a w' :
  m w = (Ok a, w') -> (m ≫= k) w = k a w'.
Proof. intros E. unfold mbind, action_bind. by rewrite E. Qed.

Lemma action_bind_inv {W A B} (m : action W A) (k : A -> action W B) w b w' :
  (m ≫= k) w = (Ok b, w') -> exists a w1, m w = (Ok a, w1) /\ k a w1 = (Ok b, w').
Proof. unfold mbind, action_bind. destruct (m w) as [[a|e] w1]; [|done]. intros E. by exists a, w1. Qed.

Lemma action_bind_Err {W A B} (m : action W A) (k : A -> action W B) w e w' :
  m w = (Err e, w') -> (m ≫= k) w = (Err e, w').
Proof. intros E. unfold mbind, action_bind. by rewrite E. Qed.

Lemma action_run_Ok {W A} (m : action W A) w a :
  fst (m w) = Ok a -> m w = (Ok a, snd (m w)).
Proof. intros E. rewrite (surjective_pairing (m w)) at 1. by rewrite E. Qed.

(** Reading and updating the state, and a conditional step. *)
Definition gets {W A} (f : W -> A) : action W A := fun w => (Ok (f w), w).
Definition modify {W} (f : W -> W) : action W unit := fun w => (Ok tt, f w).
Definition awhen {W} (b : bool) (m : action W unit) : action W unit :=
  if b then m else mret tt.

(** A panic, also below the wrapping of the frames it crosses. *)
Fixpoint is_panic (e : error) : bool :=
  match e with
  | ErrPanic _ => true
  | ErrWrap _ e' => is_panic e'
  | _ => false
  end.

(** [if err := m(); err != nil { log; return }]: the error is logged and
    dropped, a panic goes on. *)
Definition alog {W} (m : action W unit) : action W unit := fun w =>
  match m w with
  | (Ok _, w') => (Ok tt, w')
  | (Err e, w') => if is_panic e then (Err e, w') else (Ok tt, w')
  end.

(** A call whose error is a value; a panic goes on. *)
Definition acatch {W A} (m : action W A) : action W (result A) := fun w =>
  match m w with
  | (Err e, w') => if is_panic e then (Err e, w') else (Ok (Err e), w')
  | (Ok a, w') => (Ok (Ok a), w')
  end.

(** [if err != nil { return fmt.Errorf(msg, err) }] after a call. *)
Definition awrap {W A} (msg : string) (m : action W A) : action W A := fun w =>
  let '(r, w') := m w in (wrap_err msg r, w').

(** What holds of the result and of the state after a run. *)
Definition wp {W A} (m : action W A) (Q : result A -> W -> Prop) (w : W) : Prop :=
  Q (fst (m w)) (snd (m w)).

Section wp.
Context {W : Type}.

Lemma wp_mono {A} (m : action W A) (Q Q' : result A -> W -> Prop) w :
  wp m Q w -> (forall r w', Q r w' -> Q' r w') -> wp m Q' w.
Proof. unfold wp. auto. Qed.

Lemma wp_and {A} (m : action W A) (Q Q' : result A -> W -> Prop) w :
  wp m Q w -> wp m Q' w -> wp m (fun r w' => Q r w' /\ Q' r w') w.
Proof. by split. Qed.

Lemma wp_bind {A B} (m : action W A) (k : A -> action W B) Q w :
  wp m (fun r w' => match r with Ok a => wp (k a) Q w' | Err e => Q (Err e) w' end) w ->
  wp (m ≫= k) Q w.
Proof. unfold wp, mbind, action_bind. by destruct (m w) as [[a|e] w']. Qed.

Lemma wp_bind_inv {A B} (m : action W A) (k : A -> action W B) Q w :
  wp (m ≫= k) Q w ->
  wp m (fun r w' => match r with Ok a => wp (k a) Q w' | Err e => Q (Err e) w' end) w.
Proof. unfold wp, mbind, action_bind. by destruct (m w) as [[a|e] w']. Qed.

Lemma wp_ret {A} (a : A) Q (w : W) : Q (Ok a) w -> wp (mret a) Q w.
Proof. done. Qed.

Lemma wp_fail {A} e (Q : result A -> W -> Prop) (w : W) : Q (Err e) w -> wp (afail e) Q w.
Proof. done. Qed.

Lemma wp_lift {A} (r : result A) Q (w : W) : Q r w -> wp (alift r) Q w.
Proof. done. Qed.

Lemma wp_gets {A} (f : W -> A) Q w : Q (Ok (f w)) w -> wp (gets f) Q w.
Proof. done. Qed.

Lemma wp_modify (f : W -> W) Q w : Q (Ok tt) (f w) -> wp (modify f) Q w.
Proof. done. Qed.

Lemma wp_when b (m : action W unit) Q w :
  (b = true -> wp m Q w) -> (b = false -> Q (Ok tt) w) -> wp (awhen b m) Q w.
Proof. destruct b; intros H1 H2; [by apply H1|by apply H2]. Qed.

Lemma wp_try {A} (m : action W A) Q w :
  wp m (fun r w' => Q (Ok r) w') w -> wp (atry m) Q w.
Proof. unfold wp, atry. by destruct (m w). Qed.

Lemma wp_log (m : action W unit) Q w :
  wp m (fun r w' => match r with
                    | Ok _ => Q (Ok tt) w'
                    | Err e => if is_panic e then Q (Err e) w' else Q (Ok tt) w'
                    end) w -> wp (alog m) Q w.
Proof. unfold wp, alog. destruct (m w) as [[a|e] w']; [done|]. cbn. by destruct (is_panic e). Qed.
End wp.

(** ** Actions and preorders *)

Section acts.
Context {S : Type} (R : relation S) `{HR : !PreOrder R}.

Definition acts {A} (m : action S A) : Prop := forall st, R st (snd (m st)).

Lemma acts_ret {A} (a : A) : acts (mret a).
Proof using HR. intros st. cbn. reflexivity. Qed.

Lemma acts_fail {A} e : acts (afail e : action S A).
Proof using HR. intros st. cbn. reflexivity. Qed.

Lemma acts_lift {A} (r : result A) : acts (alift r).
Proof using HR. intros st. cbn. reflexivity. Qed.

Lemma acts_gets {A} (f : S -> A) : acts (gets f).
Proof using HR. intros st. cbn. reflexivity. Qed.

Lemma acts_fun {A} (f : S -> result A) : acts (fun st => (f st, st)).
Proof using HR. intros st. cbn. reflexivity. Qed.

Lemma acts_modify f : (forall st, R st (f st)) -> acts (modify f).
Proof. done. Qed.

Lemma acts_bind {A B} (m : action S A) (k : A -> action S B) :
  acts m -> (forall a, acts (k a)) -> acts (m ≫= k).
Proof using HR.
  intros Hm Hk st. unfold mbind, action_bind. specialize (Hm st).
  destruct (m st) as [[a|e] st']; [|done]. etransitivity; [done|apply Hk].
Qed.

Lemma acts_catch {A} (m : action S A) : acts m -> acts (acatch m).
Proof.
  intros Hm st. unfold acatch. specialize (Hm st). destruct (m st) as [[a|e] st']; [done|].
  by destruct (is_panic e).
Qed.

Lemma acts_try {A} (m : action S A) : acts m -> acts (atry m).
Proof. intros Hm st. unfold atry. specialize (Hm st). by destruct (m st). Qed.

Lemma acts_wrap {A} msg (m : action S A) : acts m -> acts (awrap msg m).
Proof. intros Hm st. unfold awrap. specialize (Hm st). by destruct (m st). Qed.
End acts.

Create HintDb acts.

Ltac act :=
  repeat first
    [ solve [auto with acts]
    | (apply acts_ret || apply acts_fail || apply acts_lift || apply acts_gets || apply acts_fun); apply _
    | apply acts_bind; [apply _| |intros]
    | apply acts_catch
    | apply acts_try
    | apply acts_wrap
    | match goal with |- acts _ (if ?b then _ else _) => destruct b end
    | match goal with |- acts _ (match ?x with _ => _ end) => destruct x end ].

(** ** Generic list and map facts *)

Fixpoint sum_list_Z (l : list Z) : Z :=
  match l with
  | [] => 0
  | x :: l' => x + sum_list_Z l'
  end.

Lemma sum_list_Z_app l k : sum_list_Z (l ++ k) = sum_list_Z l + sum_list_Z k.
Proof. induction l; cbn [app sum_list_Z]; lia. Qed.

Lemma sum_list_Z_perm l k : l ≡ₚ k -> sum_list_Z l = sum_list_Z k.
Proof. induction 1; cbn [sum_list_Z]; lia. Qed.

#[export] Instance sum_list_Z_proper : Proper ((≡ₚ) ==> (=)) sum_list_Z.
Proof. intros l k. apply sum_list_Z_perm. Qed.

Lemma list_filter_all {A} (P : A -> Prop) `{forall x, Decision (P x)} (l : list A) :
  Forall P l -> filter P l = l.
Proof.
  induction 1 as [|x l Hx Hl IH]; [done|]. rewrite filter_cons_True by done. by rewrite IH.
Qed.

Lemma foldl_rev {A B} (f : B -> A -> B) (b : B) (l : list A) :
  foldl f b (rev l) = foldr (fun a b => f b a) b l.
Proof. induction l as [|a l IH]; [done|]. cbn [rev foldr]. by rewrite foldl_snoc, IH. Qed.

(** Sum of a measure over the entries of a finite map. *)
Definition map_sum {K A} `{Countable K} (f : A -> Z) (m : gmap K A) : Z :=
  sum_list_Z (map (fun kv => f kv.2) (map_to_list m)).

Section map_sum.
Context {K A : Type} `{Countable K} (f : A -> Z).
Implicit Types m : gmap K A.

Lemma map_sum_empty : map_sum f (∅ : gmap K A) = 0.
Proof. unfold map_sum. by rewrite map_to_list_empty. Qed.

Lemma map_sum_insert m k a :
  m !! k = None -> map_sum f (<[k := a]> m) = f a + map_sum f m.
Proof.
  intros Hm. unfold map_sum.
  by rewrite (sum_list_Z_perm _ _ (Permutation_map _ (map_to_list_insert m k a Hm))).
Qed.

Lemma map_sum_delete m k a :
  m !! k = Some a -> map_sum f m = f a + map_sum f (delete k m).
Proof.
  intros Hm. rewrite <- (insert_delete_id m k a) at 1 by done.
  apply map_sum_insert, lookup_delete_eq.
Qed.

Lemma map_sum_update m k a b :
  m !! k = Some a -> map_sum f (<[k := b]> m) = map_sum f m - f a + f b.
Proof.
  intros Hm. rewrite <- insert_delete_eq, map_sum_insert by apply lookup_delete_eq.
  rewrite (map_sum_delete m k a Hm). lia.
Qed.

Lemma map_sum_nonneg m :
  (forall k a, m !! k = Some a -> 0 <= f a) -> 0 <= map_sum f m.
Proof.
  induction m as [|k a m Hm IH] using map_ind; intros Hpos.
  - by rewrite map_sum_empty.
  - rewrite map_sum_insert by done.
    pose proof (Hpos k a (lookup_insert_eq _ _ _)).
    enough (0 <= map_sum f m) by lia. apply IH. intros k' a' Hk'.
    apply (Hpos k'). rewrite lookup_insert_ne; congruence.
Qed.
End map_sum.

(** Case analysis on the conditionals of a definition. *)
Ltac case_bool :=
  match goal with
  | |- context [if ?b then _ else _] =>
      match type of b with bool => destruct b eqn:? end
  | |- context [bool_decide ?P] => destruct (decide P)
  end.
