(* ===== verification/Wire.v ===== *)
(** * Wire primitives

    The byte-level encodings shared by every codec of the node: the fixed
    width integers and varints of Go's [encoding/binary], the reader
    semantics of [io.ReadFull], [bytes.Reader] and [CountingReader]
    (src/core/utils/rw.go), and the length-prefixed strings, slices and big
    integers of src/core/types/transaction.go.

    A writer is the list of bytes it appends, since every writer the codecs
    are used with ([bytes.Buffer], [hash.Hash]) accepts all writes.  A reader
    is a function from the unread input to a value and the rest.  [decodes]
    relates a reader to an encoding under any trailing input, and the
    [wire] hint database composes such facts along a reader's binds. *)

From S2P Require Import Prelude.
From Stdlib Require Import Strings.Byte.

(** ** Readers *)

Definition reader (A : Type) : Type := bytes -> result (A * bytes).

#[export] Instance reader_ret : MRet reader := fun A a bs => Ok (a, bs).
#[export] Instance reader_bind : MBind reader := fun A B k m bs =>
  match m bs with
  | Ok (a, rest) => k a rest
  | Err e => Err e
  end.

Definition rfail {A} (e : error) : reader A := fun _ => Err e.

(** [if err != nil { return fmt.Errorf("msg: %w", err) }] around a read. *)
Definition rwrap {A} (msg : string) (r : reader A) : reader A :=
  fun bs => wrap_err msg (r bs).

(** A value computed outside of the reader, which may fail. *)
Definition rlift {A} (r : result A) : reader A :=
  fun bs => match r with Ok a => Ok (a, bs) | Err e => Err e end.

(** Whether the concrete reader has a [Len] method ([bytes.Reader],
    [bytes.Buffer]) or not ([CountingReader]). *)
Inductive rkind := HasLen | Stream.

(** [io.ReadFull] into a buffer of [n] bytes. *)
Definition ReadFull (n : nat) : reader bytes := fun bs =>
  if (n <=? length bs)%nat then Ok (take n bs, drop n bs)
  else Err (if bs is [] then ErrEOF else ErrUnexpectedEOF).

(** [ReadByte] of the three readers, and a [Read] into a one byte buffer. *)
Definition ReadByte : reader byte := fun bs =>
  match bs with
  | [] => Err ErrEOF
  | b :: rest => Ok (b, rest)
  end.

(** [io.CopyN(buf, r, n)] with an [int64] count: a negative count copies
    nothing and does not fail. *)
Definition CopyN (n : Z) : reader bytes := fun bs =>
  if n <? 0 then Ok ([], bs)
  else if n <=? zlen bs then Ok (take (Z.to_nat n) bs, drop (Z.to_nat n) bs)
  else Err ErrEOF.

(** [r.Len()] at the current position. *)
Definition rlen : reader Z := fun bs => Ok (zlen bs, bs).

(** ** Integers of fixed width *)

Fixpoint le_bytes (n : nat) (z : Z) : bytes :=
  match n with
  | O => []
  | S n' => byte_of_Z z :: le_bytes n' (z / 256)
  end.

Fixpoint le_value (bs : bytes) : Z :=
  match bs with
  | [] => 0
  | b :: bs' => Z_of_byte b + 256 * le_value bs'
  end.

Definition be_bytes (n : nat) (z : Z) : bytes := rev (le_bytes n z).
Definition be_value (bs : bytes) : Z := le_value (rev bs).

(** [binary.Read] of an unsigned integer, little endian. *)
Definition read_le (n : nat) : reader Z :=
  bs ← ReadFull n; mret (le_value bs).

Definition read_be (n : nat) : reader Z :=
  bs ← ReadFull n; mret (be_value bs).

(** [binary.Read] of a signed integer of [n] bytes. *)
Definition read_sle (n : nat) : reader Z :=
  z ← read_le n; mret (swrap (8 * Z.of_nat n) z).

Definition read_sbe (n : nat) : reader Z :=
  z ← read_be n; mret (swrap (8 * Z.of_nat n) z).

(** [binary.Write] and [binary.Read] of a [bool]. *)
Definition bool_byte (b : bool) : bytes := [if b then x01 else x00].
Definition read_bool : reader bool :=
  b ← ReadByte; mret (negb (bool_decide (b = x00))).

(** ** Varints *)

(** [binary.MaxVarintLen64]. *)
Definition MaxVarintLen64 : nat := 10.

(** [binary.AppendUvarint(nil, x)]; ten rounds are enough for a [uint64]. *)
Fixpoint put_uvarint (fuel : nat) (x : Z) : bytes :=
  match fuel with
  | O => []
  | S fuel' =>
      if x <? 128 then [byte_of_Z x]
      else byte_of_Z (Z.lor (x mod 256) 128) :: put_uvarint fuel' (Z.shiftr x 7)
  end.

Definition AppendUvarint (x : Z) : bytes := put_uvarint MaxVarintLen64 x.

Definition errOverflow : error :=
  ErrSentinel "binary: varint overflows a 64-bit integer".

(** [binary.ReadUvarint]: round [i] of the loop with accumulator [x]. *)
Fixpoint read_uvarint (fuel : nat) (i : nat) (x : Z) (bs : bytes)
  : result (Z * bytes) :=
  match fuel with
  | O => Err errOverflow
  | S fuel' =>
      match bs with
      | [] => Err (if (0 <? i)%nat then ErrUnexpectedEOF else ErrEOF)
      | b :: rest =>
          let z := Z_of_byte b in
          if z <? 128 then
            if (i =? MaxVarintLen64 - 1)%nat && (1 <? z) then Err errOverflow
            else Ok (Z.lor x (u64 (Z.shiftl z (7 * Z.of_nat i))), rest)
          else read_uvarint fuel' (S i)
                 (Z.lor x (u64 (Z.shiftl (Z.land z 127) (7 * Z.of_nat i)))) rest
      end
  end.

Definition ReadUvarint : reader Z := read_uvarint MaxVarintLen64 0 0.

(** The zigzag conversion of [binary.AppendVarint]. *)
Definition zigzag (x : Z) : Z :=
  let ux := u64 (Z.shiftl (u64 x) 1) in
  if x <? 0 then u64 (Z.lnot ux) else ux.

Definition unzigzag (ux : Z) : Z :=
  let x := i64 (Z.shiftr ux 1) in
  if Z.odd ux then Z.lnot x else x.

Definition AppendVarint (x : Z) : bytes := AppendUvarint (zigzag x).

Definition ReadVarint : reader Z :=
  ux ← ReadUvarint; mret (unzigzag ux).

(** ** Lengths of varints *)

Fixpoint uvarintLen_loop (fuel : nat) (x : Z) : Z :=
  match fuel with
  | O => 1
  | S fuel' =>
      if 128 <=? x then 1 + uvarintLen_loop fuel' (Z.shiftr x 7) else 1
  end.

Definition uvarintLen (x : Z) : Z := uvarintLen_loop 9 x.

Definition varintLen (x : Z) : Z :=
  let ux := u64 (Z.shiftl (u64 x) 1) in
  uvarintLen (if x <? 0 then u64 (Z.lnot ux) else ux).

(** ** Slices and strings *)

Definition NilIfEmpty (b : slice) : slice :=
  if slice_len b =? 0 then None else b.

Definition EmptyIfNil (b : slice) : slice :=
  match b with None => Some [] | _ => b end.

Definition WriteCompactBytes (data : slice) : bytes :=
  match data with
  | None => AppendVarint (-1)
  | Some d => AppendVarint (i64 (zlen d)) ++ d
  end.

Definition MaxUint32 : Z := 4294967295.

Definition WriteBytes (data : slice) : bytes :=
  match data with
  | None => le_bytes 4 MaxUint32
  | Some d => le_bytes 4 (u32 (zlen d)) ++ d
  end.

Definition WriteCompactString (s : bytes) : bytes :=
  AppendUvarint (u64 (zlen s)) ++ s.

(** [[]byte(s)] of a string is never nil. *)
Definition WriteString (s : bytes) : bytes := WriteBytes (Some s).

Definition safeReadBytes (k : rkind) (length : Z) : reader bytes :=
  match k with
  | HasLen =>
      rLen ← rlen;
      if length >? rLen
      then rfail (ErrMsg "encoded length is longer than data length")
      else ReadFull (Z.to_nat length)
  | Stream => rwrap "failed to read signature data" (CopyN (i64 length))
  end.

Definition ReadCompactBytes (k : rkind) : reader slice :=
  length ← ReadVarint;
  if length =? -1 then mret None
  else if length =? 0 then mret (Some [])
  else if length <? 0 then rfail (ErrMsg "encoded length is negative")
  else d ← safeReadBytes k (u64 length); mret (Some d).

Definition ReadBytes (k : rkind) : reader slice :=
  length ← read_le 4;
  if length =? 0 then mret (Some [])
  else if length =? MaxUint32 then mret None
  else d ← safeReadBytes k length; mret (Some d).

Definition ReadString (k : rkind) : reader bytes :=
  bts ← ReadBytes k; mret (slice_bytes bts).

Definition ReadCompactString (k : rkind) : reader bytes :=
  length ← ReadUvarint;
  if length =? 0 then mret []
  else safeReadBytes k length.

(** ** Composing round trips *)

(** [decodes rd bs v]: reading [bs] followed by anything gives [v] and leaves
    what follows. *)
Definition decodes {A} (rd : reader A) (bs : bytes) (v : A) : Prop :=
  forall rest, rd (bs ++ rest) = Ok (v, rest).

Create HintDb wire discriminated.

Lemma decodes_ret {A} (v : A) : decodes (mret v) [] v.
Proof. by intros rest. Qed.

Lemma decodes_bind {A B} (m : reader A) (k : A -> reader B) b1 b2 x y :
  decodes m b1 x -> decodes (k x) b2 y -> decodes (m ≫= k) (b1 ++ b2) y.
Proof.
  intros H1 H2 rest. rewrite <- app_assoc.
  unfold mbind, reader_bind. by rewrite H1, H2.
Qed.

(** The last read of a codec: the encoding has no trailing part. *)
Lemma decodes_bind_ret {A B} (m : reader A) (k : A -> reader B) b1 x y :
  decodes m b1 x -> decodes (k x) [] y -> decodes (m ≫= k) b1 y.
Proof. rewrite <- (app_nil_r b1) at 2. apply decodes_bind. Qed.

(** A step that reads nothing. *)
Lemma decodes_bind_nil {A B} (m : reader A) (k : A -> reader B) b x y :
  decodes m [] x -> decodes (k x) b y -> decodes (m ≫= k) b y.
Proof. apply (decodes_bind m k []). Qed.

Lemma decodes_rlift {A} (r : result A) a : r = Ok a -> decodes (rlift r) [] a.
Proof. by intros -> rest. Qed.

Lemma decodes_rwrap {A} msg (m : reader A) bs v :
  decodes m bs v -> decodes (rwrap msg m) bs v.
Proof. intros H rest. unfold rwrap. by rewrite H. Qed.

(** A guard on the number of unread bytes, which the encoding passes. *)
Lemma decodes_len_guard {A} (f : Z -> bool) e (k : reader A) b v :
  (forall n, zlen b <= n -> f n = false) -> decodes k b v ->
  decodes (rLen ← rlen; if f rLen then rfail e else k) b v.
Proof.
  intros Hf Hk rest. unfold mbind, reader_bind, rlen. rewrite Hf; [apply Hk|].
  rewrite zlen_app. zlens. lia.
Qed.

Lemma decodes_full {A} (rd : reader A) bs v : decodes rd bs v -> rd bs = Ok (v, []).
Proof. intros H. rewrite <- (app_nil_r bs). apply H. Qed.

Lemma decodes_eq {A} (rd : reader A) bs v v' :
  decodes rd bs v -> v = v' -> decodes rd bs v'.
Proof. by intros ? <-. Qed.

(** A decoder whose round trip holds determines the value: equal encodings of
    decodable values come from equal values. *)
Lemma decodes_inj {A} (rd : reader A) b1 b2 v1 v2 r1 r2 :
  decodes rd b1 v1 -> decodes rd b2 v2 -> b1 ++ r1 = b2 ++ r2 ->
  v1 = v2 /\ r1 = r2.
Proof. intros H1 H2 E. specialize (H1 r1). rewrite E, H2 in H1. by simplify_eq. Qed.

#[export] Hint Resolve decodes_ret decodes_rwrap : wire.

(** Walk along the binds of a reader, closing each read with the database. *)
Ltac decode_step :=
  first
    [ eapply decodes_bind; [solve [eauto 4 with wire]|]; cbv beta
    | eapply decodes_bind_ret; [solve [eauto 4 with wire]|]; cbv beta
    | solve [eauto 4 with wire] ].
Ltac decode_chain := repeat decode_step.

(** ** Fixed width *)

Lemma length_le_bytes n z : length (le_bytes n z) = n.
Proof. revert z. induction n; intros z; cbn; auto. Qed.

Lemma zlen_le_bytes n z : zlen (le_bytes n z) = Z.of_nat n.
Proof. unfold zlen. by rewrite length_le_bytes. Qed.

Lemma le_value_bytes n z : le_value (le_bytes n z) = z mod 2 ^ (8 * Z.of_nat n).
Proof.
  revert z. induction n as [|n IH]; intros z.
  - cbn. by rewrite Z.mod_1_r.
  - cbn [le_bytes le_value]. rewrite IH, Z_of_byte_of_Z.
    replace (8 * Z.of_nat (S n)) with (8 + 8 * Z.of_nat n) by lia.
    rewrite Z.pow_add_r by lia. change (2 ^ 8) with 256.
    rewrite (Z.rem_mul_r z 256 (2 ^ (8 * Z.of_nat n))); [done|lia|].
    apply Z.pow_pos_nonneg; lia.
Qed.

Lemma le_bytes_inj n z z' :
  0 <= z < 2 ^ (8 * Z.of_nat n) -> 0 <= z' < 2 ^ (8 * Z.of_nat n) -> le_bytes n z = le_bytes n z' -> z = z'.
Proof.
  intros Hz Hz' E%(f_equal le_value). rewrite !le_value_bytes, !Z.mod_small in E by done. done.
Qed.

Lemma le_value_range bs : 0 <= le_value bs < 2 ^ (8 * zlen bs).
Proof.
  induction bs as [|b bs IH]; [by vm_compute|].
  rewrite zlen_cons. cbn [le_value]. pose proof (Z_of_byte_range b).
  replace (8 * (1 + zlen bs)) with (8 + 8 * zlen bs) by lia.
  pose proof (zlen_nonneg bs). rewrite Z.pow_add_r by lia. change (2 ^ 8) with 256. lia.
Qed.

Lemma be_value_bytes n z : be_value (be_bytes n z) = z mod 2 ^ (8 * Z.of_nat n).
Proof. unfold be_value, be_bytes. by rewrite rev_involutive, le_value_bytes. Qed.

Lemma length_be_bytes n z : length (be_bytes n z) = n.
Proof. unfold be_bytes. by rewrite length_rev, length_le_bytes. Qed.

Lemma decodes_ReadFull n bs : length bs = n -> decodes (ReadFull n) bs bs.
Proof.
  intros <- rest. unfold ReadFull.
  rewrite (proj2 (Nat.leb_le _ _)) by (rewrite length_app; lia).
  by rewrite take_app_length, drop_app_length.
Qed.

Lemma decodes_ReadByte b : decodes ReadByte [b] b.
Proof. by intros rest. Qed.

Lemma decodes_read_le n z :
  is_uint (8 * Z.of_nat n) z -> decodes (read_le n) (le_bytes n z) z.
Proof.
  intros Hz. eapply decodes_bind_ret.
  - apply decodes_ReadFull, length_le_bytes.
  - rewrite le_value_bytes, Z.mod_small by apply Hz. apply decodes_ret.
Qed.

Lemma decodes_read_be n z :
  is_uint (8 * Z.of_nat n) z -> decodes (read_be n) (be_bytes n z) z.
Proof.
  intros Hz. eapply decodes_bind_ret.
  - apply decodes_ReadFull, length_be_bytes.
  - rewrite be_value_bytes, Z.mod_small by apply Hz. apply decodes_ret.
Qed.

Lemma le_bytes_mod n z : le_bytes n (z mod 2 ^ (8 * Z.of_nat n)) = le_bytes n z.
Proof.
  revert z. induction n as [|n IH]; intros z; [done|].
  cbn [le_bytes].
  replace (8 * Z.of_nat (S n)) with (8 + 8 * Z.of_nat n) by lia.
  rewrite Z.pow_add_r by lia. change (2 ^ 8) with 256.
  set (M := 2 ^ (8 * Z.of_nat n)) in *.
  assert (0 < M) by (apply Z.pow_pos_nonneg; lia).
  rewrite (Z.rem_mul_r z 256 M) by lia. f_equal.
  - rewrite <- byte_of_Z_mod, (Z.mul_comm 256), Z_mod_plus_full, Zmod_mod. apply byte_of_Z_mod.
  - pose proof (Z.mod_pos_bound z 256 ltac:(lia)). rewrite (Z.mul_comm 256), Z.div_add, (Z.div_small (z mod 256)) by lia.
    rewrite Z.add_0_l. apply IH.
Qed.

(** A signed integer is written as its two's complement. *)
Lemma decodes_read_sle n z :
  (0 < n)%nat -> is_sint (8 * Z.of_nat n) z -> decodes (read_sle n) (le_bytes n z) z.
Proof.
  intros Hn Hz. rewrite <- le_bytes_mod. eapply decodes_bind_ret.
  - apply decodes_read_le. apply (uwrap_range (8 * Z.of_nat n)). lia.
  - change (z mod 2 ^ (8 * Z.of_nat n)) with (uwrap (8 * Z.of_nat n) z).
    rewrite swrap_uwrap, swrap_small by (done || lia). apply decodes_ret.
Qed.

Lemma decodes_read_sbe n z :
  (0 < n)%nat -> is_sint (8 * Z.of_nat n) z -> decodes (read_sbe n) (be_bytes n z) z.
Proof.
  intros Hn Hz. unfold be_bytes. rewrite <- le_bytes_mod. fold (be_bytes n (z mod 2 ^ (8 * Z.of_nat n))).
  eapply decodes_bind_ret.
  - apply decodes_read_be. apply (uwrap_range (8 * Z.of_nat n)). lia.
  - change (z mod 2 ^ (8 * Z.of_nat n)) with (uwrap (8 * Z.of_nat n) z).
    rewrite swrap_uwrap, swrap_small by (done || lia). apply decodes_ret.
Qed.

Lemma decodes_read_bool b : decodes read_bool (bool_byte b) b.
Proof. by destruct b. Qed.

#[export] Hint Resolve decodes_ReadByte decodes_read_bool : wire.
#[export] Hint Resolve decodes_read_le decodes_read_be decodes_ReadFull : wire.

(** ** Varints *)

Lemma lor_shiftl_add x z s :
  0 <= s -> 0 <= x < 2 ^ s -> Z.lor x (Z.shiftl z s) = x + z * 2 ^ s.
Proof.
  intros Hs Hx. rewrite <- Z.shiftl_mul_pow2 by lia.
  symmetry. apply Z.add_nocarry_lor. apply Z.bits_inj'. intros n Hn.
  rewrite Z.land_spec, Z.bits_0, andb_false_iff.
  destruct (Z.lt_ge_cases n s) as [Hlt|Hge].
  - right. by apply Z.shiftl_spec_low.
  - left. destruct (decide (x = 0)) as [->|]; [apply Z.bits_0|].
    apply Z.bits_above_log2; [lia|].
    enough (Z.log2 x < s) by lia. apply Z.log2_lt_pow2; lia.
Qed.

Lemma land_127 z : Z.land z 127 = z mod 128.
Proof. apply (Z.land_ones z 7). lia. Qed.

Lemma lor_128_mod z : Z.lor (z mod 256) 128 = z mod 128 + 128.
Proof.
  pose proof (Z.mod_pos_bound z 256 ltac:(lia)) as Hb.
  replace (z mod 128) with ((z mod 256) mod 128)
    by (Z.div_mod_to_equations; lia).
  set (y := z mod 256) in *. clearbody y.
  assert (forall n, (n < 256)%nat ->
    Z.lor (Z.of_nat n) 128 = Z.of_nat n mod 128 + 128) as Hall.
  { intros n Hn. do 256 (destruct n as [|n]; [reflexivity|]). lia. }
  rewrite <- (Z2Nat.id y) by lia. apply Hall. lia.
Qed.

Lemma shiftr_7 x : Z.shiftr x 7 = x / 128.
Proof. by rewrite Z.shiftr_div_pow2. Qed.

(** The continuation byte of round [i], as the decoder sees it. *)
Lemma cont_byte x :
  Z_of_byte (byte_of_Z (Z.lor (x mod 256) 128)) = x mod 128 + 128.
Proof.
  rewrite Z_of_byte_of_Z, lor_128_mod.
  pose proof (Z.mod_pos_bound x 128 ltac:(lia)). apply Z.mod_small. lia.
Qed.

Lemma put_uvarint_S fuel x :
  put_uvarint (S fuel) x =
    if x <? 128 then [byte_of_Z x]
    else byte_of_Z (Z.lor (x mod 256) 128) :: put_uvarint fuel (Z.shiftr x 7).
Proof. reflexivity. Qed.

Lemma read_uvarint_S fuel i x b rest :
  read_uvarint (S fuel) i x (b :: rest) =
    let z := Z_of_byte b in
    if z <? 128 then
      if (i =? MaxVarintLen64 - 1)%nat && (1 <? z) then Err errOverflow
      else Ok (Z.lor x (u64 (Z.shiftl z (7 * Z.of_nat i))), rest)
    else read_uvarint fuel (S i)
           (Z.lor x (u64 (Z.shiftl (Z.land z 127) (7 * Z.of_nat i)))) rest.
Proof. reflexivity. Qed.

Lemma accumulate x z i :
  0 <= x < 2 ^ (7 * Z.of_nat i) -> 0 <= z -> z * 2 ^ (7 * Z.of_nat i) < 2 ^ 64 ->
  Z.lor x (u64 (Z.shiftl z (7 * Z.of_nat i))) = x + z * 2 ^ (7 * Z.of_nat i).
Proof.
  intros Hx Hz Hlt. rewrite uwrap_small.
  - apply lor_shiftl_add; lia.
  - rewrite Z.shiftl_mul_pow2 by lia. split; [|done].
    apply Z.mul_nonneg_nonneg; lia.
Qed.

Lemma read_uvarint_put fuel i x y rest :
  (fuel + i = 9)%nat -> 0 <= x < 2 ^ (7 * Z.of_nat i) ->
  0 <= y -> y * 2 ^ (7 * Z.of_nat i) < 2 ^ 64 ->
  read_uvarint (S fuel) i x (put_uvarint (S fuel) y ++ rest) =
    Ok (x + y * 2 ^ (7 * Z.of_nat i), rest).
Proof.
  revert i x y. induction fuel as [|fuel IH]; intros i x y Hi Hx Hy Hy64;
    rewrite put_uvarint_S.
  - assert (i = 9%nat) as -> by lia.
    assert (y < 2) by (change (2 ^ (7 * Z.of_nat 9)) with 9223372036854775808 in Hy64; ints).
    rewrite (proj2 (Z.ltb_lt y 128)) by lia.
    cbn [app]. rewrite read_uvarint_S, Z_of_byte_of_Z, Z.mod_small by lia.
    cbv zeta. rewrite (proj2 (Z.ltb_lt y 128)), (proj2 (Z.ltb_ge 1 y)), andb_false_r by lia.
    by rewrite accumulate by lia.
  - destruct (Z.ltb_spec y 128) as [E|E]; cbn [app]; rewrite read_uvarint_S; cbv zeta.
    + rewrite Z_of_byte_of_Z, Z.mod_small, (proj2 (Z.ltb_lt y 128)) by lia.
      rewrite (proj2 (Nat.eqb_neq i _)) by (unfold MaxVarintLen64; lia).
      by rewrite andb_false_l, accumulate by lia.
    + rewrite cont_byte, shiftr_7, land_127.
      pose proof (Z.mod_pos_bound y 128 ltac:(lia)) as Hm.
      rewrite (proj2 (Z.ltb_ge _ 128)) by lia.
      rewrite Zplus_mod, Z_mod_same_full, Z.add_0_r, !Zmod_mod.
      assert (y = 128 * (y / 128) + y mod 128) as Ey by (apply Z.div_mod; lia).
      set (P := 2 ^ (7 * Z.of_nat i)) in *.
      assert (2 ^ (7 * Z.of_nat (S i)) = 128 * P) as EP.
      { replace (7 * Z.of_nat (S i)) with (7 + 7 * Z.of_nat i) by lia.
        by rewrite Z.pow_add_r by lia. }
      rewrite accumulate by (fold P; nia). fold P.
      rewrite IH; rewrite ?EP; [|nia..].
      do 2 f_equal. nia.
Qed.

Lemma decodes_ReadUvarint x : is_uint 64 x -> decodes ReadUvarint (AppendUvarint x) x.
Proof.
  intros [Hx Hlt] rest. unfold ReadUvarint, AppendUvarint, MaxVarintLen64.
  rewrite read_uvarint_put; cbn [Z.of_nat]; rewrite ?Z.mul_0_r, ?Z.pow_0_r; try lia.
  do 2 f_equal. lia.
Qed.

Lemma zigzag_nonneg x : 0 <= x < 2 ^ 63 -> zigzag x = 2 * x.
Proof.
  intros Hx. unfold zigzag.
  rewrite (proj2 (Z.ltb_ge x 0)), Z.shiftl_mul_pow2 by lia.
  rewrite !uwrap_small; ints. rewrite Z.mod_small; lia.
Qed.

Lemma zigzag_neg x : - 2 ^ 63 <= x < 0 -> zigzag x = - 2 * x - 1.
Proof.
  intros Hx. unfold zigzag.
  rewrite (proj2 (Z.ltb_lt x 0)), Z.shiftl_mul_pow2 by lia.
  unfold Z.lnot. ints. Z.div_mod_to_equations. lia.
Qed.

Lemma zigzag_range x : is_sint 64 x -> is_uint 64 (zigzag x).
Proof.
  intros Hx. destruct (Z.lt_ge_cases x 0).
  - rewrite zigzag_neg; ints.
  - rewrite zigzag_nonneg; ints.
Qed.

Lemma unzigzag_zigzag x : is_sint 64 x -> unzigzag (zigzag x) = x.
Proof.
  intros Hx. unfold unzigzag. rewrite Z.shiftr_div_pow2 by lia. change (2 ^ 1) with 2.
  destruct (Z.lt_ge_cases x 0).
  - rewrite zigzag_neg by ints.
    replace (Z.odd (-2 * x - 1)) with true.
    2:{ symmetry. rewrite Z.odd_spec. exists (- x - 1). lia. }
    replace ((-2 * x - 1) / 2) with (- x - 1) by (Z.div_mod_to_equations; lia).
    rewrite swrap_small by ints. unfold Z.lnot. lia.
  - rewrite zigzag_nonneg by ints. rewrite Z.odd_mul. cbn [Z.odd andb].
    replace (2 * x / 2) with x by (Z.div_mod_to_equations; lia).
    by rewrite swrap_small by ints.
Qed.

Lemma decodes_ReadVarint x : is_sint 64 x -> decodes ReadVarint (AppendVarint x) x.
Proof.
  intros Hx. eapply decodes_bind_ret.
  - by apply decodes_ReadUvarint, zigzag_range.
  - rewrite unzigzag_zigzag by done. apply decodes_ret.
Qed.

#[export] Hint Resolve decodes_ReadUvarint decodes_ReadVarint : wire.

Lemma put_uvarint_length fuel x :
  0 <= x < 2 ^ (7 * Z.of_nat (S fuel)) ->
  zlen (put_uvarint (S fuel) x) = uvarintLen_loop fuel x.
Proof.
  revert x. induction fuel as [|fuel IH]; intros x Hx; rewrite put_uvarint_S.
  - change (2 ^ (7 * Z.of_nat 1)) with 128 in Hx.
    by rewrite (proj2 (Z.ltb_lt x 128)) by lia.
  - cbn [uvarintLen_loop]. rewrite Z.leb_antisym.
    destruct (Z.ltb_spec x 128) as [|Hge]; cbn [negb]; [done|].
    rewrite zlen_cons, shiftr_7, IH; [done|].
    replace (7 * Z.of_nat (S (S fuel))) with (7 + 7 * Z.of_nat (S fuel)) in Hx by lia.
    rewrite Z.pow_add_r in Hx by lia. change (2 ^ 7) with 128 in Hx.
    split; [apply Z.div_pos; lia|]. apply Z.div_lt_upper_bound; lia.
Qed.

(** [uvarintLen] and [varintLen] are the lengths of the encodings, as their
    comments state. *)
Lemma uvarintLen_correct x : is_uint 64 x -> uvarintLen x = zlen (AppendUvarint x).
Proof.
  intros Hx. symmetry. apply put_uvarint_length.
  change (2 ^ (7 * Z.of_nat 10)) with (64 * 2 ^ 64). ints.
Qed.

Lemma varintLen_correct x : is_sint 64 x -> varintLen x = zlen (AppendVarint x).
Proof. intros Hx. apply uvarintLen_correct, zigzag_range, Hx. Qed.

(** ** Slices and strings *)

(** The length of anything held in memory is an [int]. *)
Definition fits (s : bytes) : Prop := zlen s < 2 ^ 63.

Definition slice_fits (s : slice) : Prop := fits (slice_bytes s).

Lemma fits_sint s : fits s -> is_sint 64 (zlen s).
Proof. unfold fits. pose proof (zlen_nonneg s). ints. Qed.

Lemma fits_uint s : fits s -> is_uint 64 (zlen s).
Proof. intros H%fits_sint. pose proof (zlen_nonneg s). ints. Qed.

Lemma zlen_WriteCompactBytes d :
  fits d -> zlen (WriteCompactBytes (Some d)) = varintLen (zlen d) + zlen d.
Proof.
  intros Hd%fits_sint. cbn [WriteCompactBytes].
  by rewrite swrap_small, zlen_app, varintLen_correct by done.
Qed.

Lemma zlen_WriteCompactBytes_ge d : zlen d <= zlen (WriteCompactBytes (Some d)).
Proof. cbn [WriteCompactBytes]. rewrite zlen_app. zlens. lia. Qed.

Lemma zlen_WriteCompactString s :
  fits s -> zlen (WriteCompactString s) = uvarintLen (zlen s) + zlen s.
Proof.
  intros Hd%fits_uint. unfold WriteCompactString.
  by rewrite uwrap_small, zlen_app, uvarintLen_correct by done.
Qed.

Lemma zlen_WriteCompactString_ge s : zlen s <= zlen (WriteCompactString s).
Proof. unfold WriteCompactString. rewrite zlen_app. zlens. lia. Qed.

Lemma decodes_CopyN d : decodes (CopyN (zlen d)) d d.
Proof.
  intros rest. unfold CopyN. pose proof (zlen_nonneg d). pose proof (zlen_nonneg rest).
  rewrite (proj2 (Z.ltb_ge _ 0)), (proj2 (Z.leb_le _ _)) by (rewrite ?zlen_app; lia).
  unfold zlen. rewrite Nat2Z.id. by rewrite take_app_length, drop_app_length.
Qed.

Lemma decodes_safeReadBytes k d : fits d -> decodes (safeReadBytes k (zlen d)) d d.
Proof.
  intros Hd. destruct k; cbn [safeReadBytes].
  - intros rest. unfold mbind, reader_bind, rlen. rewrite zlen_app.
    pose proof (zlen_nonneg rest).
    rewrite Z.gtb_ltb, (proj2 (Z.ltb_ge _ _)) by lia.
    apply decodes_ReadFull. unfold zlen. lia.
  - rewrite swrap_small by (done || by apply fits_sint).
    apply decodes_rwrap, decodes_CopyN.
Qed.

Lemma decodes_ReadCompactBytes k s :
  slice_fits s -> decodes (ReadCompactBytes k) (WriteCompactBytes s) s.
Proof.
  intros Hs. destruct s as [d|]; cbn [WriteCompactBytes].
  - pose proof (fits_sint d Hs) as Hi. pose proof (zlen_nonneg d).
    rewrite swrap_small by done.
    eapply decodes_bind; [by apply decodes_ReadVarint|]. cbv beta.
    rewrite (proj2 (Z.eqb_neq _ (-1))) by lia.
    destruct (Z.eqb_spec (zlen d) 0) as [->%zlen_0_inv|Hnz]; [apply decodes_ret|].
    rewrite (proj2 (Z.ltb_ge _ 0)) by lia.
    rewrite uwrap_small by by apply fits_uint.
    eapply decodes_bind_ret; [by apply decodes_safeReadBytes|apply decodes_ret].
  - eapply decodes_bind_ret; [apply decodes_ReadVarint; ints|apply decodes_ret].
Qed.

Lemma decodes_ReadCompactString k s :
  fits s -> decodes (ReadCompactString k) (WriteCompactString s) s.
Proof.
  intros Hs. unfold WriteCompactString. rewrite uwrap_small by by apply fits_uint.
  eapply decodes_bind; [by apply decodes_ReadUvarint, fits_uint|]. cbv beta.
  destruct (Z.eqb_spec (zlen s) 0) as [->%zlen_0_inv|Hnz]; [apply decodes_ret|].
  by apply decodes_safeReadBytes.
Qed.

(** The 32-bit length prefix reserves [MaxUint32] for nil. *)
Definition slice_fits32 (s : slice) : Prop := slice_len s < MaxUint32.

Lemma decodes_ReadBytes k s :
  slice_fits32 s -> decodes (ReadBytes k) (WriteBytes s) s.
Proof.
  intros Hs. destruct s as [d|]; cbn [WriteBytes].
  - change (zlen d < 4294967295) in Hs.
    pose proof (zlen_nonneg d). rewrite uwrap_small by ints.
    eapply decodes_bind; [apply decodes_read_le; ints|]. cbv beta.
    destruct (Z.eqb_spec (zlen d) 0) as [->%zlen_0_inv|Hnz]; [apply decodes_ret|].
    rewrite (proj2 (Z.eqb_neq _ MaxUint32)) by (unfold MaxUint32; lia).
    eapply decodes_bind_ret; [apply decodes_safeReadBytes|apply decodes_ret].
    unfold fits. ints.
  - eapply decodes_bind_ret; [apply decodes_read_le; unfold MaxUint32; ints|].
    apply decodes_ret.
Qed.

Lemma decodes_ReadString k s :
  zlen s < MaxUint32 -> decodes (ReadString k) (WriteString s) s.
Proof.
  intros Hs. eapply decodes_bind_ret; [exact (decodes_ReadBytes k (Some s) Hs)|].
  apply decodes_ret.
Qed.

#[export] Hint Resolve decodes_ReadCompactBytes decodes_ReadCompactString : wire.
#[export] Hint Resolve decodes_ReadBytes decodes_ReadString : wire.

(** ** Lists *)

(** [for i := range l { l[i] = read }] with [n] elements. *)
Fixpoint read_n {A} (n : nat) (rd : reader A) : reader (list A) :=
  match n with
  | O => mret []
  | S n' => a ← rd; l ← read_n n' rd; mret (a :: l)
  end.

Lemma decodes_read_n {A} (rd : reader A) (enc : A -> bytes) l :
  Forall (fun a => decodes rd (enc a) a) l ->
  decodes (read_n (length l) rd) (concat (map enc l)) l.
Proof.
  induction 1 as [|a l Ha _ IH]; [apply decodes_ret|]. cbn [length read_n map concat].
  eapply decodes_bind; [exact Ha|]. eapply decodes_bind_ret; [exact IH|apply decodes_ret].
Qed.
