(* ===== verification/BigInt.v ===== *)
(** * Big integers on the wire

    Go's [big.Int] is [Z]; a nil [*big.Int] is [None].  [String] and
    [SetString(_, 10)] are given through the decimal digits of the standard
    library, and [WriteBigInt] / [ReadBigInt] of
    src/core/types/transaction.go on top of them. *)

From S2P Require Import Prelude.
From S2P Require Import Wire.
From Stdlib Require Import Strings.Byte Numbers.DecimalN.

(** The ASCII digits of a decimal number, most significant first. *)
Fixpoint print_uint (d : Decimal.uint) : bytes :=
  match d with
  | Decimal.Nil => []
  | Decimal.D0 d => x30 :: print_uint d
  | Decimal.D1 d => x31 :: print_uint d
  | Decimal.D2 d => x32 :: print_uint d
  | Decimal.D3 d => x33 :: print_uint d
  | Decimal.D4 d => x34 :: print_uint d
  | Decimal.D5 d => x35 :: print_uint d
  | Decimal.D6 d => x36 :: print_uint d
  | Decimal.D7 d => x37 :: print_uint d
  | Decimal.D8 d => x38 :: print_uint d
  | Decimal.D9 d => x39 :: print_uint d
  end.

Definition digit_of (b : byte) : option (Decimal.uint -> Decimal.uint) :=
  match b with
  | x30 => Some Decimal.D0 | x31 => Some Decimal.D1 | x32 => Some Decimal.D2
  | x33 => Some Decimal.D3 | x34 => Some Decimal.D4 | x35 => Some Decimal.D5
  | x36 => Some Decimal.D6 | x37 => Some Decimal.D7 | x38 => Some Decimal.D8
  | x39 => Some Decimal.D9 | _ => None
  end.

Fixpoint parse_uint (s : bytes) : option Decimal.uint :=
  match s with
  | [] => Some Decimal.Nil
  | b :: s' =>
      match digit_of b, parse_uint s' with
      | Some f, Some d => Some (f d)
      | _, _ => None
      end
  end.

(** [strconv] and [fmt] of an unsigned integer ([%d]). *)
Definition dec_string (n : N) : bytes := print_uint (N.to_uint n).

(** [String] of a [big.Int]. *)
Definition big_String (z : Z) : bytes :=
  if z <? 0 then x2d :: dec_string (Z.to_N (- z)) else dec_string (Z.to_N z).

Definition parse_digits (s : bytes) : option Z :=
  match s, parse_uint s with
  | _ :: _, Some d => Some (Z.of_N (N.of_uint d))
  | _, _ => None
  end.

(** [new(big.Int).SetString(s, 10)]: an optional sign and at least one digit. *)
Definition big_SetString (s : bytes) : option Z :=
  match s with
  | x2d :: s' => Z.opp <$> parse_digits s'
  | x2b :: s' => parse_digits s'
  | _ => parse_digits s
  end.

Definition WriteBigInt (b : option Z) : bytes :=
  match b with
  | None => [x00]
  | Some z => x01 :: WriteCompactString (big_String z)
  end.

Definition ReadBigInt (k : rkind) : reader (option Z) :=
  nilByte ← ReadByte;
  match nilByte with
  | x00 => mret None
  | x01 =>
      intStr ← ReadCompactString k;
      match big_SetString intStr with
      | None => rfail (ErrMsg "bad big int string")
      | Some b =>
          if bool_decide (big_String b = intStr) then mret (Some b)
          else rfail (ErrMsg "non-canonical big int encoding")
      end
  | _ => rfail (ErrMsg "invalid nil int byte")
  end.

(** ** Decimal strings *)

Definition is_digit (b : byte) : Prop := is_Some (digit_of b).

Lemma print_uint_digits d : Forall is_digit (print_uint d).
Proof. induction d; cbn; constructor; try done; eexists; reflexivity. Qed.

Lemma parse_print d : parse_uint (print_uint d) = Some d.
Proof. induction d; cbn; try done; by rewrite IHd. Qed.

Lemma dec_string_digits n : Forall is_digit (dec_string n).
Proof. apply print_uint_digits. Qed.

Lemma to_uint_nonnil n : N.to_uint n <> Decimal.Nil.
Proof.
  destruct n as [|p]; [done|]. intros E.
  pose proof (Unsigned.of_to (N.pos p)) as H. rewrite E in H. done.
Qed.

Lemma dec_string_nonnil n : dec_string n <> [].
Proof.
  unfold dec_string. pose proof (to_uint_nonnil n). by destruct (N.to_uint n).
Qed.

Lemma parse_digits_dec n : parse_digits (dec_string n) = Some (Z.of_N n).
Proof.
  unfold parse_digits. pose proof (dec_string_nonnil n) as Hn.
  destruct (dec_string n) as [|b s] eqn:E; [done|]. rewrite <- E.
  unfold dec_string. by rewrite parse_print, Unsigned.of_to.
Qed.

Lemma dec_string_inj n m : dec_string n = dec_string m -> n = m.
Proof.
  intros E. pose proof (parse_digits_dec n) as H.
  rewrite E, parse_digits_dec in H. simplify_eq. lia.
Qed.

Lemma SetString_digits s :
  Forall is_digit s -> big_SetString s = parse_digits s.
Proof.
  destruct 1 as [|b s [f Hb] _]; [done|].
  unfold big_SetString. by destruct b.
Qed.

Lemma SetString_String z : big_SetString (big_String z) = Some z.
Proof.
  unfold big_String. destruct (Z.ltb_spec z 0).
  - cbn [big_SetString]. rewrite parse_digits_dec. cbn. f_equal. lia.
  - rewrite SetString_digits, parse_digits_dec by apply dec_string_digits. f_equal. lia.
Qed.

Lemma big_String_inj z z' : big_String z = big_String z' -> z = z'.
Proof.
  intros E. pose proof (SetString_String z) as H. rewrite E, SetString_String in H.
  by simplify_eq.
Qed.

(** The decimal representation of a number held in memory. *)
Definition bigint_fits (b : option Z) : Prop :=
  match b with Some z => fits (big_String z) | None => True end.

Lemma decodes_ReadBigInt k b :
  bigint_fits b -> decodes (ReadBigInt k) (WriteBigInt b) b.
Proof.
  intros Hb. destruct b as [z|]; cbn [WriteBigInt bigint_fits] in *.
  - apply (decodes_bind _ _ [x01] _ x01); [apply decodes_ReadByte|].
    cbv beta iota. eapply decodes_bind_ret; [by apply decodes_ReadCompactString|].
    cbv beta. rewrite SetString_String, bool_decide_eq_true_2 by done. apply decodes_ret.
  - apply (decodes_bind_ret _ _ [x00] x00); [apply decodes_ReadByte|apply decodes_ret].
Qed.

#[export] Hint Resolve decodes_ReadBigInt : wire.

(** Every accepted non-nil integer is the canonical string of its value. *)
Lemma ReadBigInt_canonical k bs z rest :
  ReadBigInt k bs = Ok (Some z, rest) ->
  exists bs', bs = x01 :: bs' /\ ReadCompactString k bs' = Ok (big_String z, rest).
Proof.
  unfold ReadBigInt, mbind, reader_bind. destruct bs as [|b bs']; [done|]. cbn [ReadByte].
  destruct b; try done. intros H. exists bs'. split; [done|].
  destruct (ReadCompactString k bs') as [[s r]|e]; [|done].
  destruct (big_SetString s) as [w|]; [|done].
  case_bool_decide as E; [|done]. unfold mret, reader_ret in H. by simplify_eq.
Qed.
