(* ===== verification/Keys.v ===== *)
(** * Key types and public keys

    The registry of key definitions (src/core/crypto/keys.go), the wire form
    of key types (src/core/crypto/keytype.go) and of public keys.  The curve
    library's [ParsePubKey] is a parameter: it maps the accepted encodings of
    a secp256k1 point to its compressed form. *)

From S2P Require Import Prelude.
From S2P Require Import Wire.
From Stdlib Require Import Strings.Byte.

(** A key type is its name. *)
Abbreviation KeyType := (list byte) (only parsing).

Definition KeyTypeSecp256k1 : KeyType := str "secp256k1".
Definition KeyTypeEd25519 : KeyType := str "ed25519".

Definition keyIDSecp256k1 : Z := 0.
Definition keyIDEd25519 : Z := 1.

(** What the node uses of a [PublicKey]: its type and its raw bytes. *)
Record PublicKey := mkPublicKey { pk_Type : KeyType; pk_Bytes : bytes }.

#[export] Instance PublicKey_eq_decision : EqDecision PublicKey.
Proof. solve_decision. Defined.

(** [keyEquals]. *)
Definition pk_Equals (a b : PublicKey) : bool := bool_decide (a = b).

(** The [KeyDefinition] interface. *)
Record KeyDefinition := mkKeyDefinition {
  kd_Type : KeyType;
  kd_EncodeFlag : Z;
  kd_UnmarshalPublicKey : bytes -> result PublicKey
}.

Definition UnmarshalEd25519PublicKey (data : bytes) : result PublicKey :=
  if negb (zlen data =? 32)
  then Err (ErrMsg "expect ed25519 public key data size to be 32")
  else Ok (mkPublicKey KeyTypeEd25519 data).

Definition Ed25519Definition : KeyDefinition :=
  mkKeyDefinition KeyTypeEd25519 keyIDEd25519 UnmarshalEd25519PublicKey.

(** The two package variables of keys.go. *)
Record registry := mkRegistry {
  keyTypes : gmap KeyType KeyDefinition;
  encodingIDs : gmap Z KeyType
}.

Definition ReservedKeyIDs : Z := 65536.

Section native.
(** [secp256k1.ParsePubKey] followed by the compressed serialization. *)
Variable ParsePubKey : bytes -> result bytes.

Definition UnmarshalSecp256k1PublicKey (data : bytes) : result PublicKey :=
  key ← ParsePubKey data; mret (mkPublicKey KeyTypeSecp256k1 key).

Definition Secp256k1Definition : KeyDefinition :=
  mkKeyDefinition KeyTypeSecp256k1 keyIDSecp256k1 UnmarshalSecp256k1PublicKey.

(** The registry at start-up. *)
Definition native_registry : registry :=
  mkRegistry
    {[ KeyTypeSecp256k1 := Secp256k1Definition; KeyTypeEd25519 := Ed25519Definition ]}
    {[ kd_EncodeFlag Secp256k1Definition := KeyTypeSecp256k1;
       kd_EncodeFlag Ed25519Definition := KeyTypeEd25519 ]}.
End native.

Definition RegisterKeyType (reg : registry) (kd : KeyDefinition) : result registry :=
  let kt := kd_Type kd in
  let encID := kd_EncodeFlag kd in
  if encID <=? ReservedKeyIDs then Err (ErrMsg "key type is a reserved ID")
  else if existsb (fun b => bool_decide (b = x20)) kt
  then Err (ErrMsg "key type string contains spaces")
  else match keyTypes reg !! kt with
  | Some _ => Err (ErrMsg "key type already registered")
  | None =>
      match encodingIDs reg !! encID with
      | Some _ => Err (ErrMsg "key encoding prefix already registered with keyType")
      | None => Ok (mkRegistry (<[kt := kd]> (keyTypes reg))
                               (<[encID := kt]> (encodingIDs reg)))
      end
  end.

Definition KeyTypeDefinition (reg : registry) (kt : KeyType) : option KeyDefinition :=
  keyTypes reg !! kt.

Definition ParseKeyType (reg : registry) (s : bytes) : result KeyType :=
  match KeyTypeDefinition reg s with
  | Some kd => Ok (kd_Type kd)
  | None => Err (ErrMsg "unknown key type")
  end.

Definition ParseKeyTypeID (reg : registry) (id : Z) : result KeyType :=
  match encodingIDs reg !! id with
  | Some kt => Ok kt
  | None => Err (ErrMsg "unknown key type ID")
  end.

Definition UnmarshalPublicKey (reg : registry) (b : bytes) (kt : KeyType) : result PublicKey :=
  match keyTypes reg !! kt with
  | Some kd => kd_UnmarshalPublicKey kd b
  | None => Err (ErrMsg "unknown key type")
  end.

(** [WriteTo] of a key type. *)
Definition KeyType_WriteTo (reg : registry) (kt : KeyType) : result bytes :=
  match KeyTypeDefinition reg kt with
  | Some kd => Ok (le_bytes 4 (kd_EncodeFlag kd))
  | None => Err (ErrMsg "invalid key type")
  end.

Definition KeyType_ReadFrom (reg : registry) : reader KeyType :=
  ktInt ← read_le 4;
  match encodingIDs reg !! ktInt with
  | Some keyType => mret keyType
  | None => rfail (ErrMsg "invalid key type encoding flag")
  end.

Definition WireEncodeKeyType (reg : registry) (kt : KeyType) : result bytes :=
  match keyTypes reg !! kt with
  | Some kd => Ok (le_bytes 4 (kd_EncodeFlag kd))
  | None => Err (ErrPanic "unknown key type")
  end.

Definition WireDecodeKeyType (reg : registry) (b : bytes) : result (KeyType * bytes) :=
  if (length b <? 4)%nat then Err (ErrMsg "invalid key type encoding")
  else match encodingIDs reg !! le_value (take 4 b) with
  | Some kt => Ok (kt, drop 4 b)
  | None => Err (ErrMsg "unknown key type encoding")
  end.

Definition WireEncodeKey (reg : registry) (key : PublicKey) : result bytes :=
  match keyTypes reg !! pk_Type key with
  | Some kd => Ok (le_bytes 4 (kd_EncodeFlag kd) ++ pk_Bytes key)
  | None => Err (ErrPanic "unknown key type")
  end.

Definition WireDecodePubKey (reg : registry) (b : bytes) : result PublicKey :=
  '(kt, b) ← WireDecodeKeyType reg b;
  UnmarshalPublicKey reg b kt.

(** ** The registry invariant *)

(** The two maps are inverse to each other, and flags are [uint32]. *)
Definition reg_ok (reg : registry) : Prop :=
  (forall kt kd, keyTypes reg !! kt = Some kd ->
     kd_Type kd = kt /\ is_uint 32 (kd_EncodeFlag kd) /\
     encodingIDs reg !! kd_EncodeFlag kd = Some kt) /\
  (forall id kt, encodingIDs reg !! id = Some kt ->
     exists kd, keyTypes reg !! kt = Some kd /\ kd_EncodeFlag kd = id).

Lemma native_registry_ok parse : reg_ok (native_registry parse).
Proof.
  split; intros k v; cbn [native_registry keyTypes encodingIDs].
  - rewrite lookup_insert_Some, lookup_singleton_Some.
    intros [[<- <-]|[_ [<- <-]]]; split_and!; try done; by ints.
  - rewrite lookup_insert_Some, lookup_singleton_Some.
    intros [[<- <-]|[_ [<- <-]]]; eexists; (split; [|reflexivity]); reflexivity.
Qed.

(** A registered key definition keeps the registry consistent. *)
Lemma RegisterKeyType_ok reg kd reg' :
  reg_ok reg -> is_uint 32 (kd_EncodeFlag kd) ->
  RegisterKeyType reg kd = Ok reg' ->
  reg_ok reg' /\ keyTypes reg' !! kd_Type kd = Some kd /\
  (forall kt kd', keyTypes reg !! kt = Some kd' -> keyTypes reg' !! kt = Some kd').
Proof.
  intros [Ht Hi] Hu. unfold RegisterKeyType.
  destruct (_ <=? _); [done|]. destruct (existsb _ _); [done|].
  destruct (keyTypes reg !! _) eqn:Ekt; [done|].
  destruct (encodingIDs reg !! _) eqn:Eid; [done|]. intros [= <-].
  cbn [keyTypes encodingIDs]. split_and!.
  - split; intros k v; cbn [keyTypes encodingIDs]; rewrite lookup_insert_Some.
    + intros [[<- <-]|[Hne Hk]]; [split_and!; try done; apply lookup_insert_eq|].
      destruct (Ht k v Hk) as (? & ? & He). split_and!; try done.
      rewrite lookup_insert_ne; [done|]. intros E. congruence.
    + intros [[<- <-]|[Hne Hk]]; [exists kd; by rewrite lookup_insert_eq|].
      destruct (Hi k v Hk) as (kd' & Hk' & He). exists kd'.
      rewrite lookup_insert_ne; [done|]. intros E. congruence.
  - apply lookup_insert_eq.
  - intros kt kd' Hk. rewrite lookup_insert_ne; [done|]. congruence.
Qed.

Section roundtrip.
Context (reg : registry) (Hreg : reg_ok reg).

Lemma flag_inj kt1 kt2 kd1 kd2 :
  keyTypes reg !! kt1 = Some kd1 -> keyTypes reg !! kt2 = Some kd2 ->
  kd_EncodeFlag kd1 = kd_EncodeFlag kd2 -> kt1 = kt2.
Proof.
  destruct Hreg as [Ht _]. intros H1 H2 E.
  destruct (Ht _ _ H1) as (_ & _ & E1), (Ht _ _ H2) as (_ & _ & E2). congruence.
Qed.

Lemma decodes_KeyType kt bs :
  KeyType_WriteTo reg kt = Ok bs -> decodes (KeyType_ReadFrom reg) bs kt.
Proof.
  unfold KeyType_WriteTo, KeyTypeDefinition. destruct (keyTypes reg !! kt) as [kd|] eqn:E; [|done].
  intros <-%(inj Ok). destruct (proj1 Hreg _ _ E) as (_ & Hu & Hid).
  eapply decodes_bind_ret; [by apply decodes_read_le|]. cbv beta. rewrite Hid.
  apply decodes_ret.
Qed.

Lemma WireDecodeKeyType_app kt kd b :
  keyTypes reg !! kt = Some kd ->
  WireDecodeKeyType reg (le_bytes 4 (kd_EncodeFlag kd) ++ b) = Ok (kt, b).
Proof.
  intros E. destruct (proj1 Hreg _ _ E) as (_ & Hu & Hid). unfold WireDecodeKeyType.
  rewrite length_app, length_le_bytes.
  rewrite take_app_length', drop_app_length' by (by rewrite length_le_bytes).
  rewrite le_value_bytes, Z.mod_small, Hid by apply Hu. done.
Qed.

(** A public key whose bytes its own definition accepts survives the wire. *)
Lemma WireDecode_encode key bs :
  UnmarshalPublicKey reg (pk_Bytes key) (pk_Type key) = Ok key ->
  WireEncodeKey reg key = Ok bs -> WireDecodePubKey reg bs = Ok key.
Proof.
  intros Hu. unfold WireEncodeKey. destruct (keyTypes reg !! _) as [kd|] eqn:E; [|done].
  intros <-%(inj Ok). unfold WireDecodePubKey. by rewrite (WireDecodeKeyType_app _ _ _ E).
Qed.
End roundtrip.

(** The start-up registry with a curve library that accepts every encoding and
    keeps it, for concrete evaluations. *)
Definition test_registry : registry := native_registry (fun b => Ok b).

Lemma test_registry_ok : reg_ok test_registry.
Proof. apply native_registry_ok. Qed.
