(* ===== verification/Ident.v ===== *)
(** * Identities: accounts, validators and votable events

    [AccountID], [Validator] and [VotableEvent] of src/core/types/types.go
    with their binary codecs.  [crypto/uuid.NewSHA1] is a parameter of the
    event identifier. *)

From S2P Require Import Prelude.
From S2P Require Import Wire.
From S2P Require Import Keys.
From Stdlib Require Import Strings.Byte.

(** ** Hexadecimal ([%x], [hex.EncodeToString]) *)

Definition hex_digit (n : Z) : byte :=
  if n <? 10 then byte_of_Z (48 + n) else byte_of_Z (87 + n).

Fixpoint hex_encode (bs : bytes) : bytes :=
  match bs with
  | [] => []
  | b :: bs' => hex_digit (Z_of_byte b / 16) :: hex_digit (Z_of_byte b mod 16)
                :: hex_encode bs'
  end.

(** [hex.DecodeString]. *)
Definition hex_value (b : byte) : option Z :=
  let z := Z_of_byte b in
  if (48 <=? z) && (z <=? 57) then Some (z - 48)
  else if (97 <=? z) && (z <=? 102) then Some (z - 87)
  else if (65 <=? z) && (z <=? 70) then Some (z - 55)
  else None.

Fixpoint hex_decode (s : bytes) : result bytes :=
  match s with
  | [] => Ok []
  | [a] =>
      match hex_value a with
      | Some _ => Err (ErrSentinel "encoding/hex: odd length hex string")
      | None => Err (ErrMsg "encoding/hex: invalid byte")
      end
  | a :: b :: s' =>
      match hex_value a, hex_value b with
      | Some x, Some y => bs ← hex_decode s'; mret (byte_of_Z (16 * x + y) :: bs)
      | _, _ => Err (ErrMsg "encoding/hex: invalid byte")
      end
  end.

(** [EncodePubKeyAndType] of config.go: "%s#%s". *)
Definition EncodePubKeyAndType (pubKey : bytes) (pubKeyType : KeyType) : bytes :=
  hex_encode pubKey ++ x23 :: pubKeyType.

(** ** AccountID *)

Record AccountID := mkAccountID { Identifier : slice; acct_KeyType : KeyType }.

#[export] Instance AccountID_eq_decision : EqDecision AccountID.
Proof. solve_decision. Defined.

(** [Equals]: [bytes.Equal] does not tell nil from empty; a nil pointer equals
    nothing. *)
Definition AccountID_Equals (a other : option AccountID) : bool :=
  match a, other with
  | Some a, Some b =>
      bool_decide (slice_bytes (Identifier a) = slice_bytes (Identifier b)) &&
      bool_decide (acct_KeyType a = acct_KeyType b)
  | _, _ => false
  end.

(** [PrettyString]: "%x#%s". *)
Definition PrettyString (a : AccountID) : bytes :=
  hex_encode (slice_bytes (Identifier a)) ++ x23 :: acct_KeyType a.

Definition AccountIDVersion : Z := 0.

Definition AccountID_MarshalBinary (reg : registry) (id : AccountID) : result bytes :=
  let buf := le_bytes 2 AccountIDVersion ++ WriteBytes (Identifier id) in
  match KeyTypeDefinition reg (acct_KeyType id) with
  | None => Err (ErrMsg "invalid key type")
  | Some kd => Ok (buf ++ le_bytes 4 (kd_EncodeFlag kd))
  end.

(** [Bytes] drops the error: nil when marshalling fails. *)
Definition AccountID_Bytes (reg : registry) (id : AccountID) : slice :=
  match AccountID_MarshalBinary reg id with Ok b => Some b | Err _ => None end.

Definition AccountID_read (reg : registry) : reader AccountID :=
  version ← rwrap "failed to read version" (read_le 2);
  if negb (version =? AccountIDVersion) then rfail (ErrMsg "invalid version")
  else
    ident ← rwrap "failed to read account identifier" (ReadBytes HasLen);
    keyEncoding ← rwrap "failed to read key type" (read_le 4);
    kt ← rwrap "failed to parse key type" (rlift (ParseKeyTypeID reg keyEncoding));
    mret (mkAccountID ident kt).

(** [UnmarshalBinary] ignores trailing bytes. *)
Definition AccountID_UnmarshalBinary (reg : registry) (b : slice) : result AccountID :=
  '(id, _) ← AccountID_read reg (slice_bytes b); mret id.

(** ** Validator *)

Record Validator := mkValidator { val_ID : AccountID; Power : Z }.

#[export] Instance Validator_eq_decision : EqDecision Validator.
Proof. solve_decision. Defined.

Definition ValidatorVersion : Z := 0.

Definition Validator_MarshalBinary (reg : registry) (v : Validator) : result bytes :=
  acctBts ← wrap_err "failed to marshal account ID" (AccountID_MarshalBinary reg (val_ID v));
  mret (le_bytes 2 ValidatorVersion ++ WriteBytes (Some acctBts) ++ le_bytes 8 (Power v)).

Definition Validator_read (reg : registry) : reader Validator :=
  version ← rwrap "failed to read version" (read_le 2);
  if negb (version =? ValidatorVersion) then rfail (ErrMsg "invalid version")
  else
    acctBts ← rwrap "failed to read account ID" (ReadBytes HasLen);
    id ← rwrap "failed to unmarshal account ID" (rlift (AccountID_UnmarshalBinary reg acctBts));
    power ← rwrap "failed to read power" (read_sle 8);
    mret (mkValidator id power).

Definition Validator_UnmarshalBinary (reg : registry) (b : slice) : result Validator :=
  '(v, _) ← Validator_read reg (slice_bytes b); mret v.

(** ** VotableEvent *)

Record VotableEvent := mkVotableEvent { ev_Type : bytes; ev_Body : slice }.

Definition veVersion : Z := 0.

Definition VotableEvent_MarshalBinary (e : VotableEvent) : bytes :=
  be_bytes 2 veVersion ++ WriteString (ev_Type e) ++ WriteBytes (ev_Body e).

Definition VotableEvent_read : reader VotableEvent :=
  version ← read_be 2;
  if negb (version =? veVersion) then rfail (ErrMsg "invalid version")
  else
    eType ← ReadString HasLen;
    eBody ← ReadBytes HasLen;
    mret (mkVotableEvent eType eBody).

Definition VotableEvent_UnmarshalBinary (b : slice) : result VotableEvent :=
  '(e, _) ← VotableEvent_read (slice_bytes b); mret e.

(** [VotableEventID]: a version 5 UUID of the type followed by the body, with
    [uuid] the namespaced SHA-1 construction. *)
Definition VotableEventID {UUID} (uuid : bytes -> UUID) (ty : bytes) (body : slice) : UUID :=
  uuid (ty ++ slice_bytes body).

(** ** Round trips *)

Section roundtrip.
Context (reg : registry) (Hreg : reg_ok reg).

Lemma decodes_AccountID id bs :
  slice_fits32 (Identifier id) -> AccountID_MarshalBinary reg id = Ok bs ->
  decodes (AccountID_read reg) bs id.
Proof.
  intros Hf. unfold AccountID_MarshalBinary, KeyTypeDefinition.
  destruct (keyTypes reg !! _) as [kd|] eqn:E; [|done]. intros <-%(inj Ok).
  destruct (proj1 Hreg _ _ E) as (_ & Hu & Hid). rewrite <- app_assoc.
  eapply decodes_bind; [apply decodes_rwrap, decodes_read_le; const_range|].
  cbv beta. change (negb (AccountIDVersion =? AccountIDVersion)) with false. cbv iota.
  eapply decodes_bind; [by apply decodes_rwrap, decodes_ReadBytes|].
  eapply decodes_bind_ret; [by apply decodes_rwrap, decodes_read_le|].
  eapply decodes_bind_nil.
  - apply decodes_rwrap, decodes_rlift. unfold ParseKeyTypeID. by rewrite Hid.
  - destruct id. apply decodes_ret.
Qed.

Lemma AccountID_Unmarshal_Marshal id bs :
  slice_fits32 (Identifier id) -> AccountID_MarshalBinary reg id = Ok bs ->
  AccountID_UnmarshalBinary reg (Some bs) = Ok id.
Proof.
  intros Hf Hm. unfold AccountID_UnmarshalBinary.
  change (slice_bytes (Some bs)) with bs.
  by rewrite (decodes_full _ _ _ (decodes_AccountID id bs Hf Hm)).
Qed.

Lemma AccountID_MarshalBinary_length id bs :
  AccountID_MarshalBinary reg id = Ok bs -> zlen bs = 10 + slice_len (Identifier id).
Proof.
  unfold AccountID_MarshalBinary. destruct (KeyTypeDefinition _ _); [|done].
  intros <-%(inj Ok). rewrite !zlen_app, !zlen_le_bytes.
  destruct (Identifier id) as [d|]; cbn [WriteBytes].
  - rewrite zlen_app, zlen_le_bytes.
    change (slice_len (Some d)) with (zlen d). lia.
  - by rewrite zlen_le_bytes.
Qed.

Lemma decodes_Validator v bs :
  slice_len (Identifier (val_ID v)) < MaxUint32 - 10 -> is_sint 64 (Power v) ->
  Validator_MarshalBinary reg v = Ok bs -> decodes (Validator_read reg) bs v.
Proof.
  intros Hf Hp. unfold Validator_MarshalBinary.
  destruct (AccountID_MarshalBinary reg (val_ID v)) as [acct|] eqn:E; [|done].
  cbn [wrap_err mbind result_bind mret]. intros <-%(inj Ok).
  pose proof (AccountID_MarshalBinary_length _ _ E) as Hlen.
  eapply decodes_bind; [apply decodes_rwrap, decodes_read_le; const_range|].
  cbv beta. change (negb (ValidatorVersion =? ValidatorVersion)) with false. cbv iota.
  eapply decodes_bind.
  { apply decodes_rwrap, decodes_ReadBytes. unfold slice_fits32.
    change (slice_len (Some acct)) with (zlen acct). lia. }
  eapply decodes_bind_nil.
  { apply decodes_rwrap, decodes_rlift, (AccountID_Unmarshal_Marshal (val_ID v)); [|exact E].
    unfold slice_fits32. lia. }
  eapply decodes_bind_ret; [apply decodes_rwrap, decodes_read_sle; [lia|exact Hp]|].
  destruct v. apply decodes_ret.
Qed.
End roundtrip.

Lemma decodes_VotableEvent e :
  zlen (ev_Type e) < MaxUint32 -> slice_fits32 (ev_Body e) ->
  decodes VotableEvent_read (VotableEvent_MarshalBinary e) e.
Proof.
  intros Ht Hb. eapply decodes_bind; [apply decodes_read_be; const_range|].
  cbv beta. change (negb (veVersion =? veVersion)) with false. cbv iota.
  eapply decodes_bind; [by apply decodes_ReadString|].
  eapply decodes_bind_ret; [by apply decodes_ReadBytes|].
  destruct e. apply decodes_ret.
Qed.

(** ** Hexadecimal strings *)


Lemma hex_digit_inj n m :
  0 <= n < 16 -> 0 <= m < 16 -> hex_digit n = hex_digit m -> n = m.
Proof.
  intros Hn Hm E. apply (f_equal Z_of_byte) in E. revert E. unfold hex_digit.
  destruct (Z.ltb_spec n 10), (Z.ltb_spec m 10); rewrite !Z_of_byte_of_Z, !Z.mod_small; lia.
Qed.

Lemma nibbles b : 0 <= Z_of_byte b / 16 < 16 /\ 0 <= Z_of_byte b mod 16 < 16.
Proof.
  pose proof (Z_of_byte_range b). split; [|apply Z.mod_pos_bound; lia].
  split; [apply Z.div_pos; lia|apply Z.div_lt_upper_bound; lia].
Qed.

#[export] Instance hex_encode_inj : Inj (=) (=) hex_encode.
Proof.
  intros l. induction l as [|b l IH]; intros [|b' l'] E; try done.
  cbn [hex_encode] in E. injection E as E1 E2 E3. f_equal; [|by apply IH].
  destruct (nibbles b), (nibbles b'). apply hex_digit_inj in E1, E2; [|done..].
  apply Z_of_byte_inj.
  rewrite (Z.div_mod (Z_of_byte b) 16), (Z.div_mod (Z_of_byte b') 16) by lia. lia.
Qed.

(** A fact about the sixteen digits. *)
Lemma hex_digit_all (P : Z -> byte -> bool) :
  forallb (fun n => P n (hex_digit n)) (seqZ 0 16) = true ->
  forall n, 0 <= n < 16 -> P n (hex_digit n) = true.
Proof. rewrite forallb_forall. intros HP n Hn. apply HP, list_elem_of_In, elem_of_seqZ. lia. Qed.

Lemma hex_decode_encode bs : hex_decode (hex_encode bs) = Ok bs.
Proof.
  induction bs as [|b bs IH]; [done|]. cbn [hex_encode hex_decode].
  assert (forall n, 0 <= n < 16 -> hex_value (hex_digit n) = Some n) as Hv.
  { intros n Hn. pose proof (hex_digit_all (fun n d => bool_decide (hex_value d = Some n)) eq_refl n Hn) as E.
    by apply bool_decide_eq_true in E. }
  destruct (nibbles b) as [H1 H2]. rewrite !Hv, IH by done. cbn.
  by rewrite <- Z.div_mod, byte_of_Z_of_byte by lia.
Qed.

(** Hexadecimal digits are printable characters other than '#'. *)
Lemma hex_digit_range n : 0 <= n < 16 -> 48 <= Z_of_byte (hex_digit n).
Proof.
  intros Hn. unfold hex_digit.
  destruct (Z.ltb_spec n 10); rewrite Z_of_byte_of_Z, Z.mod_small; lia.
Qed.

Lemma hex_encode_above l b : b ∈ hex_encode l -> 48 <= Z_of_byte b.
Proof.
  induction l as [|c l IH]; cbn [hex_encode]; [by intros ?%not_elem_of_nil|].
  destruct (nibbles c). rewrite !elem_of_cons.
  intros [->|[->|?]]; [by apply hex_digit_range..|auto].
Qed.

Lemma length_hex_encode l : length (hex_encode l) = (2 * length l)%nat.
Proof. induction l; cbn [hex_encode length]; lia. Qed.
