(* ===== verification/Order.v ===== *)
(** * Byte-wise order

    The order of Go strings ([slices.Sort], [sort.Strings]), of [bytes.Compare]
    and of BYTEA columns, and the sorted list of a set of keys. *)

From S2P Require Import Prelude.
From Stdlib Require Import Strings.Byte.
From stdpp Require Export sorting.

#[local] Open Scope Z_scope.

Fixpoint bytes_leb (a b : bytes) : bool :=
  match a, b with
  | [], _ => true
  | _ :: _, [] => false
  | x :: a', y :: b' =>
      if Z_of_byte x <? Z_of_byte y then true
      else if Z_of_byte y <? Z_of_byte x then false
      else bytes_leb a' b'
  end.

Definition bytes_le (a b : bytes) : Prop := bytes_leb a b = true.

#[export] Instance bytes_le_dec a b : Decision (bytes_le a b).
Proof. unfold bytes_le. apply _. Defined.

Lemma bytes_leb_cons x a y b :
  bytes_le (x :: a) (y :: b) <->
  Z_of_byte x < Z_of_byte y \/ x = y /\ bytes_le a b.
Proof.
  unfold bytes_le. cbn [bytes_leb].
  destruct (Z.ltb_spec (Z_of_byte x) (Z_of_byte y)); [by split; [left|]|].
  destruct (Z.ltb_spec (Z_of_byte y) (Z_of_byte x)).
  - split; [done|]. intros [|[-> _]]; lia.
  - assert (x = y) as -> by (apply (inj Z_of_byte); lia). split; [by right|]. by intros [?|[_ ?]]; [lia|].
Qed.

#[export] Instance bytes_le_total : Total bytes_le.
Proof.
  intros a. induction a as [|x a IH]; intros [|y b]; [by left..|by right|].
  rewrite !bytes_leb_cons. destruct (Z.lt_trichotomy (Z_of_byte x) (Z_of_byte y)) as [?|[->%(inj Z_of_byte)|?]].
  - by left; left.
  - destruct (IH b); [left|right]; by right.
  - by right; left.
Qed.

#[export] Instance bytes_le_trans : Transitive bytes_le.
Proof.
  intros a. induction a as [|x a IH]; intros [|y b] [|z c]; try done.
  rewrite !bytes_leb_cons. intros [?|[-> ?]] [?|[-> ?]]; [left; lia|by left..|right; eauto].
Qed.

#[export] Instance bytes_le_antisymm : AntiSymm (=) bytes_le.
Proof.
  intros a. induction a as [|x a IH]; intros [|y b]; try done.
  rewrite !bytes_leb_cons. intros [?|[-> ?]] [?|[? ?]]; try lia; [by subst; lia|].
  f_equal. by apply IH.
Qed.

(** The keys of a set in order ([ORDER BY id], [sort.Strings]). *)
Definition sorted_ids (s : gset (list byte)) : list bytes := merge_sort bytes_le (elements s).

Lemma elem_of_sorted_ids s x : x ∈ sorted_ids s <-> x ∈ s.
Proof. unfold sorted_ids. by rewrite merge_sort_Permutation, elem_of_elements. Qed.

Lemma NoDup_sorted_ids s : NoDup (sorted_ids s).
Proof. unfold sorted_ids. rewrite merge_sort_Permutation. apply NoDup_elements. Qed.

Lemma length_sorted_ids s : length (sorted_ids s) = size s.
Proof. unfold sorted_ids. by rewrite merge_sort_Permutation. Qed.
