(* ===== verification/Stable.v ===== *)
(** * Stable sorting

    [sort.Stable] of the Go standard library on a [sort.Interface], which
    src/node/block_processor/transactions.go calls with its own [Less] and
    [Swap]: insertion sort on blocks of twenty, then in-place merging with
    rotations.  The collection is any state with the two methods; indices are
    natural numbers, and fuel bounds the loops that are not structural by the
    length of the range they work on.  The lemma says what the call does to a
    collection that is already in order. *)

From S2P Require Import Prelude.

#[local] Open Scope nat_scope.

Section stable.
Context {S : Type} (Less : S -> nat -> nat -> bool) (Swap : nat -> nat -> S -> S).

(** [for j := i; j > a && data.Less(j, j-1); j--] *)
Fixpoint sift (a j : nat) (s : S) : S :=
  match j with
  | O => s
  | Datatypes.S j' => if (a <? j) && Less s j j' then sift a j' (Swap j j' s) else s
  end.

Definition insertionSort (a b : nat) (s : S) : S :=
  foldl (fun s i => sift a i s) s (seq (a + 1) (b - (a + 1))).

Definition swapRange (a b n : nat) (s : S) : S :=
  foldl (fun s i => Swap (a + i) (b + i) s) s (seq 0 n).

Fixpoint rotate_loop (fuel m i j : nat) (s : S) : S :=
  match fuel with
  | O => s
  | Datatypes.S fuel' =>
      if i =? j then swapRange (m - i) m i s
      else if j <? i then rotate_loop fuel' m (i - j) j (swapRange (m - i) m j s)
      else rotate_loop fuel' m i (j - i) (swapRange (m - i) (m + j - i) i s)
  end.

Definition rotate (a m b : nat) (s : S) : S := rotate_loop (b - a) m (m - a) (b - m) s.

(** The binary searches: the least [i] in the range at which [up] fails. *)
Fixpoint search (fuel : nat) (up : nat -> bool) (i j : nat) : nat :=
  match fuel with
  | O => i
  | Datatypes.S fuel' =>
      if i <? j then
        let h := (i + j) / 2 in
        if up h then search fuel' up (h + 1) j else search fuel' up i h
      else i
  end.

Fixpoint symMerge (fuel : nat) (a m b : nat) (s : S) : S :=
  match fuel with
  | O => s
  | Datatypes.S fuel' =>
      if m - a =? 1 then
        let i := search (b - m) (fun h => Less s h a) m b in
        foldl (fun s k => Swap k (k + 1) s) s (seq a (i - 1 - a))
      else if b - m =? 1 then
        let i := search (m - a) (fun h => negb (Less s m h)) a m in
        foldl (fun s k => Swap k (k - 1) s) s (rev (seq (i + 1) (m - i)))
      else
        let mid := (a + b) / 2 in
        let n := mid + m in
        let '(start, r) := if mid <? m then (n - b, mid) else (a, m) in
        let p := n - 1 in
        let start := search (b - a) (fun c => negb (Less s (p - c) c)) start r in
        let en := n - start in
        let s := if (start <? m) && (m <? en) then rotate start m en s else s in
        let s := if (a <? start) && (start <? mid) then symMerge fuel' a start mid s else s in
        if (mid <? en) && (en <? b) then symMerge fuel' mid en b s else s
  end.

(** The loops of [stable]: the blocks, and one round of merging. *)
Fixpoint sort_blocks (fuel blockSize n a : nat) (s : S) : S :=
  match fuel with
  | O => s
  | Datatypes.S fuel' =>
      if a + blockSize <=? n
      then sort_blocks fuel' blockSize n (a + blockSize) (insertionSort a (a + blockSize) s)
      else insertionSort a n s
  end.

Fixpoint merge_round (fuel blockSize n a : nat) (s : S) : S :=
  match fuel with
  | O => s
  | Datatypes.S fuel' =>
      if a + 2 * blockSize <=? n
      then merge_round fuel' blockSize n (a + 2 * blockSize)
             (symMerge n a (a + blockSize) (a + 2 * blockSize) s)
      else if a + blockSize <? n then symMerge n a (a + blockSize) n s
      else s
  end.

Fixpoint merge_rounds (fuel blockSize n : nat) (s : S) : S :=
  match fuel with
  | O => s
  | Datatypes.S fuel' =>
      if blockSize <? n
      then merge_rounds fuel' (2 * blockSize) n (merge_round (n + 1) blockSize n 0 s)
      else s
  end.

Definition Stable (n : nat) (s : S) : S :=
  merge_rounds n 20 n (sort_blocks (n + 1) 20 n 0 s).
End stable.

(** ** Collections in order *)

Section ordered.
Context {S : Type} (Less : S -> nat -> nat -> bool) (Swap : nat -> nat -> S -> S).
Context (n : nat) (s : S).
Hypothesis ordered : forall i j, j < i < n -> Less s i j = false.

Lemma sift_ordered a j : j < n -> sift Less Swap a j s = s.
Proof. intros Hj. destruct j; cbn; [done|]. rewrite ordered by lia. by rewrite andb_false_r. Qed.

Lemma insertionSort_ordered a b : b <= n -> insertionSort Less Swap a b s = s.
Proof.
  intros Hb. unfold insertionSort.
  assert (Forall (fun i => i < n) (seq (a + 1) (b - (a + 1)))) as H.
  { apply list.Forall_forall. intros i Hi%elem_of_seq. lia. }
  induction H as [|i l Hi _ IH]; cbn; [done|]. by rewrite sift_ordered.
Qed.

Lemma search_all fuel up i j :
  i <= j -> j - i <= fuel -> (forall h, i <= h < j -> up h = true) -> search fuel up i j = j.
Proof.
  revert i. induction fuel as [|fuel IH]; intros i Hij Hf Hup; cbn [search]; [lia|].
  destruct (Nat.ltb_spec i j); [|lia].
  pose proof (Nat.div_mod_eq (i + j) 2). pose proof (Nat.mod_upper_bound (i + j) 2 ltac:(lia)).
  rewrite Hup by lia. apply IH; [lia..|]. intros h Hh. apply Hup. lia.
Qed.

Lemma search_none fuel up i j :
  (forall h, i <= h < j -> up h = false) -> search fuel up i j = i.
Proof.
  revert j. induction fuel as [|fuel IH]; intros j Hup; cbn [search]; [done|].
  destruct (Nat.ltb_spec i j); [|done].
  pose proof (Nat.div_mod_eq (i + j) 2). pose proof (Nat.mod_upper_bound (i + j) 2 ltac:(lia)).
  rewrite Hup by lia. apply IH. intros h Hh. apply Hup. lia.
Qed.

Lemma symMerge_ordered fuel a m b :
  a < m < b -> b <= n -> symMerge Less Swap fuel a m b s = s.
Proof.
  revert a m b. induction fuel as [|fuel IH]; intros a m b Hm Hb; cbn [symMerge]; [done|].
  destruct (Nat.eqb_spec (m - a) 1).
  { rewrite search_none by (intros; apply ordered; lia). by replace (m - 1 - a) with 0 by lia. }
  destruct (Nat.eqb_spec (b - m) 1).
  { rewrite search_all by (try (intros; rewrite ordered); by (lia || done)). by rewrite Nat.sub_diag. }
  cbv zeta. set (mid := (a + b) / 2).
  assert (a < mid < b) as Hmid.
  { pose proof (Nat.div_mod_eq (a + b) 2). pose proof (Nat.mod_upper_bound (a + b) 2 ltac:(lia)).
    subst mid. lia. }
  pose proof (Nat.div_mod_eq (a + b) 2) as E2. pose proof (Nat.mod_upper_bound (a + b) 2 ltac:(lia)) as U2.
  fold mid in E2. destruct (Nat.ltb_spec mid m); cbv beta iota.
  - rewrite (search_all (b - a) _ (mid + m - b) mid); [|lia..|intros c Hc; rewrite ordered; [done|lia]].
    replace (mid + m - mid) with m by lia. rewrite !Nat.ltb_irrefl, andb_false_r. cbn [andb].
    rewrite andb_false_r. destruct ((mid <? m) && (m <? b)); [apply IH; lia|done].
  - rewrite (search_all (b - a) _ a m); [|lia..|intros c Hc; rewrite ordered; [done|lia]].
    replace (mid + m - m) with mid by lia. rewrite !Nat.ltb_irrefl. cbn [andb].
    destruct (Nat.ltb_spec a m), (Nat.ltb_spec m mid); cbn [andb]; [apply IH; lia|done..].
Qed.

(** A collection in order is left as it is. *)
Lemma Stable_ordered : Stable Less Swap n s = s.
Proof.
  unfold Stable.
  assert (forall fuel a, sort_blocks Less Swap fuel 20 n a s = s) as ->.
  { induction fuel as [|fuel IH]; intros a; cbn [sort_blocks]; [done|].
    destruct (Nat.leb_spec (a + 20) n); rewrite insertionSort_ordered by lia; [apply IH|done]. }
  assert (forall k fuel a, 0 < k -> merge_round Less Swap fuel k n a s = s) as Hround.
  { intros k fuel. induction fuel as [|fuel IH]; intros a Hk; cbn [merge_round]; [done|].
    destruct (Nat.leb_spec (a + 2 * k) n); [rewrite symMerge_ordered by lia; by apply IH|].
    destruct (Nat.ltb_spec (a + k) n); [|done]. by rewrite symMerge_ordered by lia. }
  assert (forall fuel k, 0 < k -> merge_rounds Less Swap fuel k n s = s) as H; [|by apply H; lia].
  induction fuel as [|fuel IH]; intros k Hk; cbn [merge_rounds]; [done|].
  destruct (k <? n); [|done]. rewrite Hround by done. apply IH. lia.
Qed.
End ordered.
