(* ===== verification/Tx.v ===== *)
(** * Transactions

    [auth.Signature] (src/core/crypto/auth/signer.go), [TransactionBody] and
    [Transaction] (src/core/types/transaction.go): binary serialization,
    the size computations used for block and mempool limits, and the message
    that is signed.  The 32-byte hash [HashBytes] is a parameter of the
    signed message. *)

From S2P Require Import Prelude.
From S2P Require Import Wire.
From S2P Require Import BigInt.
From S2P Require Import Keys.
From S2P Require Import Ident.
From Stdlib Require Import Strings.Byte.

(** ** Signatures *)

Record Signature := mkSignature { sig_Data : slice; sig_Type : bytes }.

Definition serializedLen (x : Z) : Z := x + zlen (AppendUvarint (u64 x)).

Definition Signature_SerializeSize (s : Signature) : Z :=
  serializedLen (slice_len (sig_Data s)) + serializedLen (zlen (sig_Type s)).

Definition Signature_Bytes (s : Signature) : bytes :=
  AppendUvarint (u64 (slice_len (sig_Data s))) ++ slice_bytes (sig_Data s) ++
  AppendUvarint (u64 (zlen (sig_Type s))) ++ sig_Type s.

(** [ReadFrom] into the receiver [s]: an empty field leaves the receiver's. *)
Definition Signature_ReadFrom (k : rkind) (s : Signature) : reader Signature :=
  sigLen ← rwrap "failed to read signature length" ReadUvarint;
  data ← (if 0 <? sigLen then
            match k with
            | HasLen =>
                rl ← rlen;
                if sigLen >? rl then rfail (ErrMsg "impossibly long signature length")
                else d ← rwrap "failed to read signature data" (ReadFull (Z.to_nat sigLen));
                     mret (Some d)
            | Stream =>
                d ← rwrap "failed to read signature data" (CopyN (i64 sigLen));
                mret (Some d)
            end
          else mret (sig_Data s));
  typeLen ← rwrap "failed to read signature type length" ReadUvarint;
  ty ← (if 0 <? typeLen then
          rl ← rlen;
          if (match k with HasLen => true | Stream => false end) && (typeLen >? rl)
          then rfail (ErrMsg "impossibly long sig type length")
          else if 2 ^ 63 <=? typeLen then rfail (ErrPanic "makeslice: len out of range")
          else rwrap "failed to read signature type" (ReadFull (Z.to_nat typeLen))
        else mret (sig_Type s));
  mret (mkSignature data ty).

Definition zero_Signature : Signature := mkSignature None [].

Definition Signature_UnmarshalBinary (s : Signature) (data : slice) : result Signature :=
  '(s', rest) ← Signature_ReadFrom HasLen s (slice_bytes data);
  if negb (zlen (slice_bytes data) =? zlen (slice_bytes data) - zlen rest)
  then Err (ErrMsg "extra signature data")
  else if negb (zlen rest =? 0) then Err (ErrMsg "extra signature data (reader)")
  else mret s'.

(** ** Transaction body *)

Record TransactionBody := mkBody {
  Description : bytes;
  Payload : slice;
  PayloadType : bytes;
  Fee : option Z;
  Nonce : Z;
  ChainID : bytes
}.

Definition Body_Bytes (tb : TransactionBody) : bytes :=
  WriteCompactString (Description tb) ++
  WriteCompactBytes (EmptyIfNil (Payload tb)) ++
  WriteCompactString (PayloadType tb) ++
  WriteBigInt (Fee tb) ++
  le_bytes 8 (Nonce tb) ++
  WriteCompactString (ChainID tb).

Definition totalLen (l : Z) : Z := l + uvarintLen (u64 l).

Definition Body_SerializeSize (tb : TransactionBody) : Z :=
  totalLen (zlen (Description tb)) +
  totalLen (slice_len (Payload tb)) +
  totalLen (zlen (PayloadType tb)) +
  zlen (WriteBigInt (Fee tb)) +
  8 +
  totalLen (zlen (ChainID tb)).

(** [ReadFrom] wraps its argument in a [CountingReader]. *)
Definition Body_ReadFrom : reader TransactionBody :=
  desc ← rwrap "failed to read transaction body description" (ReadCompactString Stream);
  payload ← rwrap "failed to read transaction body payload" (ReadCompactBytes Stream);
  payloadType ← rwrap "failed to read transaction body payload type" (ReadCompactString Stream);
  b ← rwrap "failed to read transaction body fee" (ReadBigInt Stream);
  nonce ← rwrap "failed to read transaction body nonce" (read_le 8);
  chainID ← rwrap "failed to read transaction body chain ID" (ReadCompactString Stream);
  mret (mkBody desc payload payloadType b nonce chainID).

Definition Body_UnmarshalBinary (strict : bool) (data : slice) : result TransactionBody :=
  '(tb, rest) ← Body_ReadFrom (slice_bytes data);
  if negb strict then mret tb
  else if negb (zlen (slice_bytes data) - zlen rest =? zlen (slice_bytes data))
  then Err (ErrMsg "extra tx body data")
  else if negb (zlen rest =? 0) then Err (ErrMsg "extra tx body data (buf)")
  else mret tb.

(** ** Transaction *)

Record Transaction := mkTransaction {
  tx_Signature : option Signature;
  tx_Body : option TransactionBody;
  Serialization : bytes;
  Sender : slice
}.

Definition zero_Transaction : Transaction := mkTransaction None None [] None.

Definition txVersion : Z := 0.

(** [serialize], which is also [MarshalBinary] and [Bytes]. *)
Definition serialize (t : Transaction) : bytes :=
  le_bytes 2 txVersion ++
  WriteCompactBytes (EmptyIfNil (Signature_Bytes <$> tx_Signature t)) ++
  WriteCompactBytes (EmptyIfNil (Body_Bytes <$> tx_Body t)) ++
  WriteCompactString (Serialization t) ++
  WriteCompactBytes (EmptyIfNil (Sender t)).

(** [deserialize] into the receiver [t]. *)
Definition deserialize (t : Transaction) : reader Transaction :=
  ver ← rwrap "failed to read transaction version" (read_le 2);
  if negb (ver =? txVersion) then rfail (ErrMsg "unsupported transaction version")
  else
    sigBytes ← rwrap "failed to read transaction signature" (ReadCompactBytes Stream);
    sig ← (if negb (slice_len sigBytes =? 0) then
             s ← rwrap "failed to unmarshal transaction signature"
                   (rlift (Signature_UnmarshalBinary zero_Signature sigBytes));
             mret (Some s)
           else mret (tx_Signature t));
    bodyBytes ← rwrap "failed to read transaction body" (ReadCompactBytes Stream);
    body ← (if negb (slice_len bodyBytes =? 0) then
              b ← rwrap "failed to unmarshal transaction body"
                    (rlift (Body_UnmarshalBinary true bodyBytes));
              mret (Some b)
            else mret None);
    serType ← rwrap "failed to read transaction serialization type" (ReadCompactString Stream);
    senderBytes ← rwrap "failed to read transaction sender" (ReadCompactBytes Stream);
    mret (mkTransaction sig body serType senderBytes).

Definition Tx_UnmarshalBinary (strict : bool) (t : Transaction) (data : bytes)
  : result Transaction :=
  '(t', rest) ← deserialize t data;
  if negb strict then mret t'
  else if negb (zlen data - zlen rest =? zlen data) then Err (ErrMsg "failed to read all")
  else if negb (zlen rest =? 0) then Err (ErrMsg "extra transaction data")
  else mret t'.

Definition Tx_SerializeSize (t : Transaction) : Z :=
  let sigSize := from_option Signature_SerializeSize 0 (tx_Signature t) in
  let bodySize := from_option Body_SerializeSize 0 (tx_Body t) in
  2 + totalLen sigSize + totalLen bodySize +
  totalLen (zlen (Serialization t)) + totalLen (slice_len (Sender t)).

(** ** The signed message *)

Definition MsgDescriptionMaxLength : Z := 200.
Definition SignedMsgConcat : bytes := str "concat".
Definition SignedMsgDirect : bytes := str "direct".

(** [String] of a possibly nil [big.Int] pointer. *)
Definition fee_String (fee : option Z) : bytes :=
  match fee with Some z => big_String z | None => str "<nil>" end.

Definition NL : byte := x0a.

(** [fmt.Sprintf(txMsgToSignTmplV0, ...)]. *)
Definition txMsgToSignTmplV0 (desc ty digest fee nonce chainID : bytes) : bytes :=
  desc ++ [NL; NL] ++ str "PayloadType: " ++ ty ++ [NL] ++
  str "PayloadDigest: " ++ digest ++ [NL] ++
  str "Fee: " ++ fee ++ [NL] ++
  str "Nonce: " ++ nonce ++ [NL; NL] ++
  str "Kwil Chain ID: " ++ chainID ++ [NL].

Section message.
(** [HashBytes]: the 32-byte hash of src/core/types/hash.go, SHA-256. *)
Variable HashBytes : bytes -> bytes.

Definition Body_SerializeMsg (t : TransactionBody) (mst : bytes) : result bytes :=
  if MsgDescriptionMaxLength <? zlen (Description t)
  then Err (ErrMsg "description is too long")
  else if bool_decide (mst = SignedMsgDirect) then Ok (HashBytes (Body_Bytes t))
  else if bool_decide (mst = SignedMsgConcat) then
    let payloadDigest := take 20 (HashBytes (slice_bytes (Payload t))) in
    Ok (txMsgToSignTmplV0 (Description t) (PayloadType t) (hex_encode payloadDigest)
          (fee_String (Fee t)) (dec_string (Z.to_N (Nonce t))) (ChainID t))
  else Err (ErrMsg "invalid serialization type").

Definition Tx_SerializeMsg (t : Transaction) : result bytes :=
  match tx_Body t with
  | Some b => Body_SerializeMsg b (Serialization t)
  | None => Err (ErrPanic "nil pointer dereference")
  end.

(** [Hash]: the transaction identifier. *)
Definition Tx_Hash (t : Transaction) : bytes := HashBytes (serialize t).
End message.

(** ** Round trips *)

(** What decoding gives back: the encodings do not keep an empty slice and a
    nil slice apart. *)
Definition norm_Signature (s : Signature) : Signature :=
  mkSignature (NilIfEmpty (sig_Data s)) (sig_Type s).

Definition norm_Body (tb : TransactionBody) : TransactionBody :=
  mkBody (Description tb) (EmptyIfNil (Payload tb)) (PayloadType tb) (Fee tb)
    (Nonce tb) (ChainID tb).

Definition norm_Tx (t : Transaction) : Transaction :=
  mkTransaction (norm_Signature <$> tx_Signature t) (norm_Body <$> tx_Body t)
    (Serialization t) (EmptyIfNil (Sender t)).

Lemma EmptyIfNil_Some b : EmptyIfNil b = Some (slice_bytes b).
Proof. by destruct b. Qed.

Lemma decodes_Signature s :
  fits (Signature_Bytes s) ->
  decodes (Signature_ReadFrom HasLen zero_Signature) (Signature_Bytes s) (norm_Signature s).
Proof.
  intros Hfit. destruct s as [data ty]. unfold Signature_Bytes in *. cbn [sig_Data sig_Type] in *.
  unfold slice_len in *. set (d := slice_bytes data) in *.
  unfold fits in Hfit. rewrite !zlen_app in Hfit.
  assert (fits d) as Hd by (unfold fits; zlens; lia).
  assert (fits ty) as Ht by (unfold fits; zlens; lia).
  rewrite !uwrap_small by (by apply fits_uint).
  eapply decodes_bind; [apply decodes_rwrap, decodes_ReadUvarint; by apply fits_uint|].
  eapply (decodes_bind _ _ d _ (NilIfEmpty data)).
  { unfold NilIfEmpty, slice_len. fold d. pose proof (zlen_nonneg d).
    destruct (Z.ltb_spec 0 (zlen d)) as [Hlt|Hge].
    - rewrite (proj2 (Z.eqb_neq _ 0)) by lia. intros rest.
      unfold mbind, reader_bind, rlen. rewrite zlen_app. pose proof (zlen_nonneg rest).
      rewrite Z.gtb_ltb, (proj2 (Z.ltb_ge _ _)) by lia. unfold rwrap.
      rewrite decodes_ReadFull by (unfold zlen; lia). cbn [wrap_err].
      destruct data; [done|]. change (0 < 0) in Hlt. lia.
    - assert (zlen d = 0) as E by lia. rewrite E. rewrite (zlen_0_inv d E).
      apply decodes_ret. }
  eapply decodes_bind; [apply decodes_rwrap, decodes_ReadUvarint; by apply fits_uint|].
  eapply decodes_bind_ret; [|apply decodes_ret].
  pose proof (zlen_nonneg ty).
  destruct (Z.ltb_spec 0 (zlen ty)) as [Hlt|Hge].
  - intros rest. unfold mbind, reader_bind, rlen. rewrite zlen_app. pose proof (zlen_nonneg rest).
    rewrite Z.gtb_ltb, (proj2 (Z.ltb_ge _ _)) by lia. cbn [andb].
    rewrite (proj2 (Z.leb_gt _ _)) by exact Ht. unfold rwrap.
    by rewrite decodes_ReadFull by (unfold zlen; lia).
  - rewrite (zlen_0_inv ty) by lia. apply decodes_ret.
Qed.

Lemma Signature_Unmarshal_Bytes s :
  fits (Signature_Bytes s) ->
  Signature_UnmarshalBinary zero_Signature (Some (Signature_Bytes s)) = Ok (norm_Signature s).
Proof.
  intros Hf. unfold Signature_UnmarshalBinary.
  change (slice_bytes (Some ?b)) with b.
  rewrite (decodes_full _ _ _ (decodes_Signature s Hf)).
  cbn [mbind result_bind]. by rewrite zlen_nil, Z.sub_0_r, Z.eqb_refl.
Qed.

(** The parts of an encoding that is held in memory are held in memory. *)
Ltac part_fits H :=
  unfold fits in *; rewrite ?zlen_app in H;
  repeat match type of H with
  | context [zlen (WriteCompactString ?s)] =>
      lazymatch goal with
      | _ : zlen s <= zlen (WriteCompactString s) |- _ => fail
      | _ => pose proof (zlen_WriteCompactString_ge s)
      end
  | context [zlen (WriteCompactBytes (Some ?s))] =>
      lazymatch goal with
      | _ : zlen s <= zlen (WriteCompactBytes (Some s)) |- _ => fail
      | _ => pose proof (zlen_WriteCompactBytes_ge s)
      end
  end; zlens; lia.

Lemma decodes_Body tb :
  fits (Body_Bytes tb) -> is_uint 64 (Nonce tb) ->
  decodes Body_ReadFrom (Body_Bytes tb) (norm_Body tb).
Proof.
  intros Hfit Hn. destruct tb as [desc payload ty fee nonce chain].
  unfold Body_Bytes in *. cbn [Description Payload PayloadType Fee Nonce ChainID] in *.
  rewrite EmptyIfNil_Some in *.
  assert (bigint_fits fee) as Hfee.
  { destruct fee as [z|]; [|done]. cbn [bigint_fits WriteBigInt] in *.
    unfold fits in *. rewrite !zlen_app, zlen_cons in Hfit.
    pose proof (zlen_WriteCompactString_ge (big_String z)). zlens. lia. }
  eapply decodes_bind; [apply decodes_rwrap, decodes_ReadCompactString; part_fits Hfit|].
  eapply decodes_bind; [apply decodes_rwrap, decodes_ReadCompactBytes;
                        unfold slice_fits; change (slice_bytes (Some ?b)) with b; part_fits Hfit|].
  eapply decodes_bind; [apply decodes_rwrap, decodes_ReadCompactString; part_fits Hfit|].
  eapply decodes_bind; [by apply decodes_rwrap, decodes_ReadBigInt|].
  eapply decodes_bind; [apply decodes_rwrap, decodes_read_le; exact Hn|].
  eapply decodes_bind_ret; [apply decodes_rwrap, decodes_ReadCompactString; part_fits Hfit|].
  unfold norm_Body. cbn. rewrite EmptyIfNil_Some. apply decodes_ret.
Qed.

Lemma Body_Unmarshal_Bytes strict tb :
  fits (Body_Bytes tb) -> is_uint 64 (Nonce tb) ->
  Body_UnmarshalBinary strict (Some (Body_Bytes tb)) = Ok (norm_Body tb).
Proof.
  intros Hf Hn. unfold Body_UnmarshalBinary.
  change (slice_bytes (Some ?b)) with b.
  rewrite (decodes_full _ _ _ (decodes_Body tb Hf Hn)).
  cbn [mbind result_bind]. rewrite zlen_nil, Z.sub_0_r, Z.eqb_refl. by destruct strict.
Qed.

Lemma put_uvarint_nonnil fuel x : put_uvarint (S fuel) x <> [].
Proof. rewrite put_uvarint_S. by destruct (x <? 128). Qed.

Lemma zlen_AppendUvarint_pos x : 0 < zlen (AppendUvarint x).
Proof.
  unfold AppendUvarint, MaxVarintLen64. pose proof (put_uvarint_nonnil 9 x).
  destruct (put_uvarint 10 x); [done|]. rewrite zlen_cons. zlens. lia.
Qed.

Lemma Signature_Bytes_pos s : 0 < zlen (Signature_Bytes s).
Proof.
  unfold Signature_Bytes. rewrite zlen_app.
  pose proof (zlen_AppendUvarint_pos (u64 (slice_len (sig_Data s)))). zlens. lia.
Qed.

Lemma Body_Bytes_pos tb : 0 < zlen (Body_Bytes tb).
Proof.
  unfold Body_Bytes, WriteCompactString. rewrite !zlen_app.
  pose proof (zlen_AppendUvarint_pos (u64 (zlen (Description tb)))). zlens. lia.
Qed.

(** A transaction that fits in memory, with a [uint64] nonce. *)
Definition tx_ok (t : Transaction) : Prop :=
  fits (serialize t) /\
  forall b, tx_Body t = Some b -> is_uint 64 (Nonce b).

(** The optional, non-empty, length-prefixed parts of a transaction. *)
Lemma decodes_part {A} (enc : A -> bytes) (dec : slice -> result A) (norm : A -> A)
    msg1 msg2 (o : option A) :
  (forall a, o = Some a ->
     fits (enc a) /\ 0 < zlen (enc a) /\ dec (Some (enc a)) = Ok (norm a)) ->
  forall (dflt : option A), dflt = None ->
  decodes (bs ← rwrap msg1 (ReadCompactBytes Stream);
           (if negb (slice_len bs =? 0) then
              a ← rwrap msg2 (rlift (dec bs)); mret (Some a)
            else mret dflt) : reader (option A))
    (WriteCompactBytes (EmptyIfNil (enc <$> o))) (norm <$> o).
Proof.
  intros Ho dflt ->. destruct o as [a|]; cbn [fmap option_fmap option_map EmptyIfNil].
  - destruct (Ho a eq_refl) as (Hf & Hp & Hd).
    eapply decodes_bind_ret; [by apply decodes_rwrap, decodes_ReadCompactBytes|].
    cbv beta. change (slice_len (Some (enc a))) with (zlen (enc a)).
    rewrite (proj2 (Z.eqb_neq _ 0)) by lia. cbn [negb].
    eapply decodes_bind_nil; [by apply decodes_rwrap, decodes_rlift|apply decodes_ret].
  - eapply decodes_bind_ret; [apply decodes_rwrap, decodes_ReadCompactBytes; by vm_compute|].
    apply decodes_ret.
Qed.

(** The binds of [deserialize] with the reads of a part grouped. *)
Lemma reader_bind_assoc {A B C} (m : reader A) (f : A -> reader B) (g : B -> reader C) bs :
  (m ≫= (fun a => f a ≫= g)) bs = ((m ≫= f) ≫= g) bs.
Proof. unfold mbind, reader_bind. by destruct (m bs) as [[a r]|]. Qed.

Lemma decodes_assoc {A B C} (m : reader A) (f : A -> reader B) (g : B -> reader C) b v :
  decodes ((m ≫= f) ≫= g) b v -> decodes (m ≫= (fun a => f a ≫= g)) b v.
Proof. intros H rest. rewrite reader_bind_assoc. apply H. Qed.

Lemma decodes_Tx t t0 :
  tx_ok t -> tx_Signature t0 = None ->
  decodes (deserialize t0) (serialize t) (norm_Tx t).
Proof.
  intros [Hfit Hnonce] H0. destruct t as [sig body ser sender].
  unfold serialize in *. cbn [tx_Signature tx_Body Serialization Sender] in *.
  rewrite (EmptyIfNil_Some sender) in *.
  eapply decodes_bind; [apply decodes_rwrap, decodes_read_le; const_range|].
  cbv beta. change (negb (txVersion =? txVersion)) with false. cbv iota.
  apply decodes_assoc. eapply decodes_bind.
  { apply (decodes_part Signature_Bytes (Signature_UnmarshalBinary zero_Signature) norm_Signature);
      [|exact H0].
    intros s ->. cbn [fmap option_fmap option_map EmptyIfNil] in Hfit.
    assert (fits (Signature_Bytes s)) as Hs by part_fits Hfit.
    split_and!; [done|apply Signature_Bytes_pos|by apply Signature_Unmarshal_Bytes]. }
  apply decodes_assoc. eapply decodes_bind.
  { apply (decodes_part Body_Bytes (Body_UnmarshalBinary true) norm_Body); [|done].
    intros b ->. cbn [fmap option_fmap option_map EmptyIfNil] in Hfit.
    assert (fits (Body_Bytes b)) as Hb by part_fits Hfit.
    split_and!; [done|apply Body_Bytes_pos|apply Body_Unmarshal_Bytes; auto]. }
  eapply decodes_bind; [apply decodes_rwrap, decodes_ReadCompactString; part_fits Hfit|].
  eapply decodes_bind_ret; [apply decodes_rwrap, decodes_ReadCompactBytes;
                        unfold slice_fits; change (slice_bytes (Some ?b)) with b; part_fits Hfit|].
  unfold norm_Tx. cbn. rewrite EmptyIfNil_Some. apply decodes_ret.
Qed.

Lemma slice_bytes_NilIfEmpty b : slice_bytes (NilIfEmpty b) = slice_bytes b.
Proof. by destruct b as [[|]|]. Qed.

Lemma EmptyIfNil_idemp b : EmptyIfNil (EmptyIfNil b) = EmptyIfNil b.
Proof. by destruct b. Qed.

Lemma Signature_Bytes_norm s : Signature_Bytes (norm_Signature s) = Signature_Bytes s.
Proof.
  unfold Signature_Bytes, norm_Signature, slice_len. cbn [sig_Data sig_Type].
  by rewrite slice_bytes_NilIfEmpty.
Qed.

Lemma Body_Bytes_norm tb : Body_Bytes (norm_Body tb) = Body_Bytes tb.
Proof.
  unfold Body_Bytes, norm_Body.
  cbn [Description Payload PayloadType Fee Nonce ChainID].
  by rewrite EmptyIfNil_idemp.
Qed.

Lemma serialize_norm t : serialize (norm_Tx t) = serialize t.
Proof.
  unfold serialize, norm_Tx. cbn [tx_Signature tx_Body Serialization Sender].
  rewrite EmptyIfNil_idemp.
  by destruct (tx_Signature t), (tx_Body t); cbn [fmap option_fmap option_map];
    rewrite ?Signature_Bytes_norm, ?Body_Bytes_norm.
Qed.

(** A transaction that is serialized and decoded again, into a fresh
    receiver and in strict or lenient mode, is the same transaction up to the
    empty/nil distinction of its slices, and its serialization (so its hash)
    is unchanged; in strict mode any trailing byte is refused. *)
Theorem tx_roundtrip strict t :
  tx_ok t ->
  Tx_UnmarshalBinary strict zero_Transaction (serialize t) = Ok (norm_Tx t) /\
  serialize (norm_Tx t) = serialize t /\
  forall b extra,
    Tx_UnmarshalBinary true zero_Transaction (serialize t ++ b :: extra) =
      Err (ErrMsg "failed to read all").
Proof.
  intros Ht. pose proof (decodes_Tx t zero_Transaction Ht eq_refl) as D.
  split_and!; [|apply serialize_norm|]; unfold Tx_UnmarshalBinary.
  - rewrite (decodes_full _ _ _ D). cbn [mbind result_bind].
    rewrite zlen_nil, Z.sub_0_r, Z.eqb_refl. by destruct strict.
  - intros b extra. rewrite D. cbn [mbind result_bind negb].
    rewrite (proj2 (Z.eqb_neq _ _)); [done|]. rewrite zlen_cons. zlens. lia.
Qed.

Definition sample_tx : Transaction :=
  mkTransaction (Some (mkSignature (Some [x01; x02]) (str "ed25519")))
    (Some (mkBody (str "pay") None (str "transfer") (Some (-12)) 7 (str "kwil-test")))
    SignedMsgDirect (Some [xaa; xbb]).

Lemma tx_roundtrip_witness :
  Tx_UnmarshalBinary true zero_Transaction (serialize sample_tx) = Ok (norm_Tx sample_tx).
Proof.
  refine (proj1 (tx_roundtrip true sample_tx _)). split.
  - vm_compute. reflexivity.
  - intros b [= <-]. const_range.
Defined.

(** ** Sizes *)

Lemma uvarintLen_loop_mono f x y :
  0 <= x <= y -> uvarintLen_loop f x <= uvarintLen_loop f y.
Proof.
  revert x y. induction f as [|f IH]; intros x y Hxy; cbn [uvarintLen_loop]; [lia|].
  rewrite !shiftr_7.
  assert (uvarintLen_loop f (x / 128) <= uvarintLen_loop f (y / 128)).
  { apply IH. split; [apply Z.div_pos|apply Z.div_le_mono]; lia. }
  assert (1 <= uvarintLen_loop f (y / 128)).
  { clear. generalize (y / 128). induction f as [|f IH]; intros z; cbn [uvarintLen_loop]; [lia|].
    destruct (_ <=? _); [specialize (IH (Z.shiftr z 7))|]; lia. }
  destruct (Z.leb_spec 128 x), (Z.leb_spec 128 y); lia.
Qed.

Lemma uvarintLen_loop_fuel f x : uvarintLen_loop f x <= uvarintLen_loop (S f) x.
Proof.
  revert x. induction f as [|f IH]; intros x.
  - cbn [uvarintLen_loop]. destruct (_ <=? _); lia.
  - change (uvarintLen_loop (S (S f)) x) with
      (if 128 <=? x then 1 + uvarintLen_loop (S f) (Z.shiftr x 7) else 1).
    change (uvarintLen_loop (S f) x) with
      (if 128 <=? x then 1 + uvarintLen_loop f (Z.shiftr x 7) else 1) at 1.
    specialize (IH (Z.shiftr x 7)). destruct (_ <=? _); lia.
Qed.

(** One more byte holds seven more bits. *)
Lemma uvarintLen_next x y :
  0 <= x -> x <= y <= 128 * x + 127 -> uvarintLen x <= uvarintLen y <= uvarintLen x + 1.
Proof.
  intros Hx Hy. unfold uvarintLen. split; [apply uvarintLen_loop_mono; lia|].
  change (uvarintLen_loop 9 y) with
    (if 128 <=? y then 1 + uvarintLen_loop 8 (Z.shiftr y 7) else 1).
  rewrite shiftr_7.
  pose proof (uvarintLen_loop_fuel 8 x).
  assert (uvarintLen_loop 8 (y / 128) <= uvarintLen_loop 8 x).
  { apply uvarintLen_loop_mono. split; [apply Z.div_pos; lia|].
    enough (y / 128 < x + 1) by lia. apply Z.div_lt_upper_bound; lia. }
  pose proof (uvarintLen_loop_mono 9 0 x ltac:(lia)).
  change (uvarintLen_loop 9 0) with 1 in *.
  destruct (Z.leb_spec 128 y); lia.
Qed.

Lemma varintLen_double l : 0 <= l < 2 ^ 63 -> varintLen l = uvarintLen (2 * l).
Proof. intros Hl. pose proof (zigzag_nonneg l Hl) as E. unfold zigzag in E. unfold varintLen. by rewrite E. Qed.

(** The signed length prefix of the data and the unsigned one of the size
    computation. *)
Lemma prefix_gap l : 0 <= l < 2 ^ 63 -> uvarintLen l <= varintLen l <= uvarintLen l + 1.
Proof. intros Hl. rewrite varintLen_double by done. apply uvarintLen_next; lia. Qed.

Lemma uvarintLen_small x : x < 128 -> uvarintLen x = 1.
Proof.
  intros H. unfold uvarintLen. cbn [uvarintLen_loop].
  by rewrite (proj2 (Z.leb_gt _ _)) by lia.
Qed.

Lemma varintLen_small x : 0 <= x < 64 -> varintLen x = 1.
Proof. intros H. rewrite varintLen_double by ints. apply uvarintLen_small. lia. Qed.

Lemma varintLen_64 x : 64 <= x < 128 -> varintLen x = 2.
Proof.
  intros H. rewrite varintLen_double by ints. unfold uvarintLen. cbn [uvarintLen_loop].
  rewrite (proj2 (Z.leb_le _ _)), shiftr_7 by lia.
  replace (2 * x / 128) with 1 by (Z.div_mod_to_equations; lia). done.
Qed.

Lemma totalLen_fits l : 0 <= l < 2 ^ 63 -> totalLen l = l + uvarintLen l.
Proof. intros H. unfold totalLen. rewrite uwrap_small; [done|ints]. Qed.

Lemma totalLen_nonneg l : 0 <= l -> 0 <= totalLen l.
Proof.
  intros Hl. unfold totalLen.
  pose proof (uvarintLen_loop_mono 9 0 (u64 l)
    ltac:(split; [lia|apply (uwrap_range 64 l); lia])) as Hm.
  change (uvarintLen_loop 9 0) with 1 in Hm. unfold uvarintLen. lia.
Qed.

Lemma zlen_str_total s : fits s -> zlen (WriteCompactString s) = totalLen (zlen s).
Proof.
  intros H. rewrite zlen_WriteCompactString by done. zlens.
  rewrite totalLen_fits by done. lia.
Qed.

Lemma Signature_SerializeSize_exact s :
  Signature_SerializeSize s = zlen (Signature_Bytes s).
Proof.
  unfold Signature_SerializeSize, Signature_Bytes, serializedLen, slice_len.
  rewrite !zlen_app. lia.
Qed.

Lemma Body_SerializeSize_gap tb :
  fits (Body_Bytes tb) ->
  zlen (Body_Bytes tb) =
    Body_SerializeSize tb + (varintLen (slice_len (Payload tb)) - uvarintLen (slice_len (Payload tb))).
Proof.
  intros Hfit. destruct tb as [desc payload ty fee nonce chain].
  unfold Body_Bytes, Body_SerializeSize in *.
  cbn [Description Payload PayloadType Fee Nonce ChainID] in *.
  rewrite EmptyIfNil_Some in *. unfold slice_len. set (p := slice_bytes payload) in *.
  assert (fits desc) by part_fits Hfit. assert (fits p) by part_fits Hfit.
  assert (fits ty) by part_fits Hfit. assert (fits chain) by part_fits Hfit.
  rewrite !zlen_app, !zlen_str_total, zlen_WriteCompactBytes, zlen_le_bytes by done.
  rewrite (totalLen_fits (zlen p)) by (split; [apply zlen_nonneg|done]). lia.
Qed.

(** The size of each length-prefixed part against its written form. *)
Lemma part_gap d sz :
  fits d -> 0 <= sz <= zlen d -> zlen d <= 2 * sz + 1 ->
  totalLen sz <= sz + (zlen (WriteCompactBytes (Some d)) - zlen d) <= totalLen sz + 1.
Proof.
  intros Hd Hsz H2. rewrite zlen_WriteCompactBytes by done.
  rewrite totalLen_fits by (unfold fits in Hd; lia).
  rewrite varintLen_double by (split; [lia|exact Hd]).
  pose proof (uvarintLen_next sz (2 * zlen d) ltac:(lia) ltac:(lia)). lia.
Qed.

Lemma Body_SerializeSize_bounds tb :
  fits (Body_Bytes tb) ->
  Body_SerializeSize tb <= zlen (Body_Bytes tb) <= Body_SerializeSize tb + 1 /\
  8 <= Body_SerializeSize tb.
Proof.
  intros Hf. pose proof (Body_SerializeSize_gap tb Hf).
  assert (0 <= slice_len (Payload tb) < 2 ^ 63) as Hp.
  { split; [apply zlen_nonneg|]. unfold Body_Bytes in Hf. rewrite EmptyIfNil_Some in Hf.
    change (fits (slice_bytes (Payload tb))). part_fits Hf. }
  pose proof (prefix_gap _ Hp). split; [lia|].
  unfold Body_SerializeSize. pose proof (zlen_nonneg (WriteBigInt (Fee tb))).
  pose proof (totalLen_nonneg _ (zlen_nonneg (Description tb))).
  pose proof (totalLen_nonneg _ (proj1 Hp)).
  pose proof (totalLen_nonneg _ (zlen_nonneg (PayloadType tb))).
  pose proof (totalLen_nonneg _ (zlen_nonneg (ChainID tb))). lia.
Qed.

(** The written parts of a transaction that fits in memory. *)
Definition sig_part (t : Transaction) : bytes := from_option Signature_Bytes [] (tx_Signature t).
Definition body_part (t : Transaction) : bytes := from_option Body_Bytes [] (tx_Body t).

Lemma serialize_parts t :
  serialize t =
    le_bytes 2 txVersion ++ WriteCompactBytes (Some (sig_part t)) ++
    WriteCompactBytes (Some (body_part t)) ++ WriteCompactString (Serialization t) ++
    WriteCompactBytes (Some (slice_bytes (Sender t))).
Proof.
  unfold serialize, sig_part, body_part. rewrite (EmptyIfNil_Some (Sender t)).
  by destruct (tx_Signature t), (tx_Body t).
Qed.

Lemma serialize_parts_fit t :
  fits (serialize t) ->
  fits (sig_part t) /\ fits (body_part t) /\ fits (Serialization t) /\
  fits (slice_bytes (Sender t)).
Proof. rewrite serialize_parts. intros H. split_and!; part_fits H. Qed.

Lemma sig_part_size t :
  from_option Signature_SerializeSize 0 (tx_Signature t) = zlen (sig_part t).
Proof.
  unfold sig_part. destruct (tx_Signature t); [|done]. apply Signature_SerializeSize_exact.
Qed.

Lemma body_part_size t :
  fits (body_part t) ->
  let sz := from_option Body_SerializeSize 0 (tx_Body t) in
  0 <= sz <= zlen (body_part t) /\ zlen (body_part t) <= sz + 1 /\
  zlen (body_part t) <= 2 * sz + 1.
Proof.
  unfold body_part. destruct (tx_Body t) as [b|]; cbn [from_option].
  - intros Hf. pose proof (Body_SerializeSize_bounds b Hf). lia.
  - intros _. change (zlen []) with 0. lia.
Qed.

Lemma tx_size_split t :
  fits (serialize t) ->
  zlen (serialize t) - Tx_SerializeSize t =
    (varintLen (zlen (sig_part t)) - uvarintLen (zlen (sig_part t))) +
    (zlen (WriteCompactBytes (Some (body_part t))) -
       totalLen (from_option Body_SerializeSize 0 (tx_Body t))) +
    (varintLen (slice_len (Sender t)) - uvarintLen (slice_len (Sender t))).
Proof.
  intros Hfit. destruct (serialize_parts_fit t Hfit) as (Hs & Hb & Hr & Hn).
  unfold Tx_SerializeSize. rewrite sig_part_size, serialize_parts, !zlen_app, zlen_le_bytes.
  rewrite (zlen_WriteCompactBytes (sig_part t)), zlen_str_total by done.
  rewrite (zlen_WriteCompactBytes (slice_bytes (Sender t))) by done.
  rewrite (totalLen_fits (zlen (sig_part t))) by (split; [apply zlen_nonneg|done]).
  unfold slice_len. rewrite (totalLen_fits (zlen (slice_bytes (Sender t))))
    by (split; [apply zlen_nonneg|done]). lia.
Qed.

Lemma tx_size_bounds t :
  fits (serialize t) ->
  0 <= Tx_SerializeSize t <= zlen (serialize t) /\
  zlen (serialize t) <= Tx_SerializeSize t + 4.
Proof.
  intros Hfit. pose proof (tx_size_split t Hfit) as E.
  destruct (serialize_parts_fit t Hfit) as (Hs & Hb & Hr & Hn).
  destruct (body_part_size t Hb) as (H1 & H2 & H3).
  pose proof (part_gap _ _ Hb H1 H3) as Hgap.
  pose proof (prefix_gap _ (conj (zlen_nonneg (sig_part t)) Hs)).
  pose proof (prefix_gap _ (conj (zlen_nonneg (slice_bytes (Sender t))) Hn)).
  fold (slice_len (Sender t)) in *. split_and!; [|lia..].
  unfold Tx_SerializeSize. rewrite sig_part_size.
  pose proof (totalLen_nonneg _ (zlen_nonneg (sig_part t))).
  pose proof (totalLen_nonneg _ (proj1 H1)).
  pose proof (totalLen_nonneg _ (zlen_nonneg (Serialization t))).
  pose proof (totalLen_nonneg _ (zlen_nonneg (slice_bytes (Sender t)))).
  unfold slice_len. lia.
Qed.

(** [SerializeSize] never over-reports and is at most four bytes short of
    the serialized length; it is exact when the signature, the body, the
    payload and the sender are shorter than 64 bytes. *)
Theorem tx_SerializeSize_bounds t :
  tx_ok t ->
  Tx_SerializeSize t <= zlen (serialize t) <= Tx_SerializeSize t + 4 /\
  (zlen (sig_part t) < 64 -> zlen (body_part t) < 64 -> slice_len (Sender t) < 64 ->
   zlen (serialize t) = Tx_SerializeSize t).
Proof.
  intros [Hfit _]. pose proof (tx_size_bounds t Hfit) as B.
  pose proof (tx_size_split t Hfit) as E.
  destruct (serialize_parts_fit t Hfit) as (Hs & Hb & Hr & Hn).
  destruct (body_part_size t Hb) as (H1 & _).
  split; [lia|]. intros Ls Lb Ln.
  rewrite (varintLen_small (zlen (sig_part t))), (uvarintLen_small (zlen (sig_part t))) in E
    by (zlens; lia).
  rewrite (varintLen_small (slice_len _)), (uvarintLen_small (slice_len _)) in E
    by (pose proof (zlen_nonneg (slice_bytes (Sender t))); unfold slice_len in *; lia).
  rewrite zlen_WriteCompactBytes, varintLen_small in E by (done || zlens; lia).
  rewrite totalLen_fits, uvarintLen_small in E by (ints).
  (* the payload is part of the body, so shorter than 64 bytes as well *)
  enough (from_option Body_SerializeSize 0 (tx_Body t) = zlen (body_part t)) by lia.
  clear - Hb Lb. unfold body_part in *. destruct (tx_Body t) as [b|]; [|done].
  cbn [from_option] in *. rewrite (Body_SerializeSize_gap b Hb).
  assert (slice_len (Payload b) <= zlen (Body_Bytes b)).
  { unfold Body_Bytes. rewrite EmptyIfNil_Some, !zlen_app. unfold slice_len.
    pose proof (zlen_WriteCompactBytes_ge (slice_bytes (Payload b))). zlens. lia. }
  pose proof (zlen_nonneg (slice_bytes (Payload b))).
  rewrite varintLen_small, uvarintLen_small by (unfold slice_len in *; lia). lia.
Qed.

Lemma tx_SerializeSize_bounds_witness :
  zlen (serialize sample_tx) = Tx_SerializeSize sample_tx.
Proof.
  refine (proj2 (tx_SerializeSize_bounds sample_tx _) _ _ _).
  - split; [by vm_compute|]. intros b [= <-]. const_range.
  - by vm_compute.
  - by vm_compute.
  - by vm_compute.
Defined.

(** A transaction whose encoded signature takes 64 to 127 bytes (a 65-byte
    secp256k1 signature with its type name does) is strictly longer than
    [SerializeSize] reports: the signature is written with a signed varint
    length prefix and counted with an unsigned one. *)
Theorem tx_SerializeSize_short t :
  tx_ok t -> 64 <= zlen (sig_part t) < 128 ->
  Tx_SerializeSize t < zlen (serialize t).
Proof.
  intros [Hfit _] Hl. pose proof (tx_size_split t Hfit) as E.
  destruct (serialize_parts_fit t Hfit) as (Hs & Hb & Hr & Hn).
  destruct (body_part_size t Hb) as (H1 & H2 & H3).
  pose proof (part_gap _ _ Hb H1 H3).
  pose proof (prefix_gap _ (conj (zlen_nonneg (slice_bytes (Sender t))) Hn)).
  fold (slice_len (Sender t)) in *.
  rewrite varintLen_64, (uvarintLen_small (zlen (sig_part t))) in E by lia. lia.
Qed.

(** A signed transaction as a secp256k1 wallet produces it. *)
Definition signed_tx : Transaction :=
  mkTransaction (Some (mkSignature (Some (repeat x07 65)) (str "secp256k1_ep")))
    (Some (mkBody [] (Some [x01]) (str "transfer") (Some 0) 1 (str "kwil")))
    SignedMsgConcat (Some (repeat x02 20)).

Lemma tx_SerializeSize_short_witness :
  Tx_SerializeSize signed_tx < zlen (serialize signed_tx).
Proof.
  apply tx_SerializeSize_short.
  - split; [by vm_compute|]. intros b [= <-]. const_range.
  - by vm_compute.
Defined.

(** ** The signed message *)

(** The text after the last newline of a message is determined. *)
Lemma last_line_inj a b x y :
  NL ∉ x -> NL ∉ y -> a ++ NL :: x = b ++ NL :: y -> a = b /\ x = y.
Proof.
  intros Hx Hy [(k & -> & E)|(k & -> & E)]%app_eq_inv;
    (destruct k as [|c k]; [rewrite app_nil_r; cbn in E; by simplify_eq|]);
    cbn in E; injection E as <- ->; exfalso; [apply Hy|apply Hx]; set_solver.
Qed.

(** A text without a line break, decidably. *)
Definition one_line (s : bytes) : bool := forallb (fun b => negb (bool_decide (b = NL))) s.

Lemma one_line_not_elem s : one_line s = true -> NL ∉ s.
Proof.
  unfold one_line. rewrite forallb_forall. intros H Hin%list_elem_of_In.
  apply H in Hin. by rewrite bool_decide_eq_true_2 in Hin.
Qed.

Lemma one_line_app s s' : one_line (s ++ s') = one_line s && one_line s'.
Proof. apply forallb_app. Qed.

Lemma one_line_hex l : one_line (hex_encode l) = true.
Proof.
  apply forallb_forall. intros b Hb%list_elem_of_In%hex_encode_above.
  rewrite bool_decide_eq_false_2; [done|]. intros ->. by vm_compute in Hb.
Qed.

Lemma one_line_dec n : one_line (dec_string n) = true.
Proof.
  apply forallb_forall. intros b Hb.
  pose proof (dec_string_digits n) as Hd. rewrite Forall_forall in Hd.
  destruct (Hd b Hb) as [f Hf]. by destruct b.
Qed.

Lemma one_line_fee f : one_line (fee_String f) = true.
Proof.
  destruct f as [z|]; [|done]. cbn [fee_String]. unfold big_String.
  destruct (z <? 0); [|apply one_line_dec]. apply one_line_dec.
Qed.

Lemma fee_String_inj f g : fee_String f = fee_String g -> f = g.
Proof.
  assert (forall z, big_String z <> str "<nil>") as Hn.
  { intros z E. pose proof (SetString_String z) as H. rewrite E in H. by vm_compute in H. }
  destruct f as [z|], g as [w|]; cbn [fee_String]; intros E; try done.
  - by apply big_String_inj in E as ->.
  - by apply Hn in E.
  - symmetry in E. by apply Hn in E.
Qed.

(** The template as a sequence of lines. *)
Lemma txMsg_lines desc ty digest fee nonce chain :
  txMsgToSignTmplV0 desc ty digest fee nonce chain =
    ((((((((desc ++ NL :: []) ++ NL :: (str "PayloadType: " ++ ty)) ++
       NL :: (str "PayloadDigest: " ++ digest)) ++
       NL :: (str "Fee: " ++ fee)) ++
       NL :: (str "Nonce: " ++ nonce)) ++
       NL :: []) ++
       NL :: (str "Kwil Chain ID: " ++ chain)) ++ NL :: []).
Proof. unfold txMsgToSignTmplV0. by rewrite <- !app_assoc. Qed.

Lemma txMsg_inj d d' t t' h h' f f' n n' c c' :
  one_line t = true -> one_line t' = true -> one_line h = true -> one_line h' = true ->
  one_line f = true -> one_line f' = true -> one_line n = true -> one_line n' = true ->
  one_line c = true -> one_line c' = true ->
  txMsgToSignTmplV0 d t h f n c = txMsgToSignTmplV0 d' t' h' f' n' c' ->
  d = d' /\ t = t' /\ h = h' /\ f = f' /\ n = n' /\ c = c'.
Proof.
  intros ??????????. rewrite !txMsg_lines. intros E.
  repeat (apply last_line_inj in E as [E ?];
    [|apply one_line_not_elem; rewrite ?one_line_app; by apply andb_true_intro || done ..]).
  split_and!; try done; by eapply (app_inv_head (str _)).
Qed.

Section signed.
Variable HashBytes : bytes -> bytes.

(** With the human-readable serialization, one signed message authorizes
    one transaction body: two bodies with the same message, whose payload
    types and chain IDs hold no line break, agree on the description, the
    payload type, the payload digest, the fee, the nonce and the chain ID. *)
Theorem concat_message_injective b1 b2 msg :
  is_uint 64 (Nonce b1) -> is_uint 64 (Nonce b2) ->
  one_line (PayloadType b1) = true -> one_line (PayloadType b2) = true ->
  one_line (ChainID b1) = true -> one_line (ChainID b2) = true ->
  Body_SerializeMsg HashBytes b1 SignedMsgConcat = Ok msg ->
  Body_SerializeMsg HashBytes b2 SignedMsgConcat = Ok msg ->
  Description b1 = Description b2 /\ PayloadType b1 = PayloadType b2 /\
  take 20 (HashBytes (slice_bytes (Payload b1))) =
    take 20 (HashBytes (slice_bytes (Payload b2))) /\
  Fee b1 = Fee b2 /\ Nonce b1 = Nonce b2 /\ ChainID b1 = ChainID b2.
Proof.
  intros Hn1 Hn2 Ht1 Ht2 Hc1 Hc2. unfold Body_SerializeMsg.
  destruct (_ <? _); [done|]. destruct (_ <? _); [done|].
  change (bool_decide (SignedMsgConcat = SignedMsgDirect)) with false.
  change (bool_decide (SignedMsgConcat = SignedMsgConcat)) with true.
  cbv iota zeta. intros <-%(inj Ok) E%(inj Ok).
  apply txMsg_inj in E as (E1 & E2 & E3 & E4 & E5 & E6);
    rewrite ?one_line_hex, ?one_line_fee, ?one_line_dec by done; try done.
  apply (inj hex_encode) in E3. apply fee_String_inj in E4. apply dec_string_inj in E5.
  split_and!; try done. unfold is_uint in *. lia.
Qed.
End signed.

Definition pay_body (payload : slice) : TransactionBody :=
  mkBody (str "pay") payload (str "transfer") (Some 1) 2 (str "kwil-test").

(** With a constant hash, two payloads share a message; everything else agrees. *)
Lemma concat_message_injective_witness :
  let H := fun _ : bytes => repeat x00 32 in
  let b1 := pay_body None in
  let b2 := pay_body (Some [x01]) in
  Description b1 = Description b2 /\ PayloadType b1 = PayloadType b2 /\
  take 20 (H (slice_bytes (Payload b1))) = take 20 (H (slice_bytes (Payload b2))) /\
  Fee b1 = Fee b2 /\ Nonce b1 = Nonce b2 /\ ChainID b1 = ChainID b2.
Proof.
  intros H b1 b2.
  refine (concat_message_injective H b1 b2 _ _ _ _ _ _ _
            (eq_refl (Body_SerializeMsg H b1 SignedMsgConcat)) _).
  all: try const_range; by vm_compute.
Defined.
