(* ===== verification/Merkle.v ===== *)
(** * Merkle roots

    [CalcMerkleRoot] of src/core/types/block.go: the in-place algorithm that
    overwrites the left half of the leaves at each level, duplicating the last
    node of an odd level.  It is shown to be the pairwise reference
    computation, to commit to the leaves of a list of known length, and to
    identify an odd list with the one that repeats its last leaf. *)

From S2P Require Import Prelude.
From Stdlib Require Import Strings.Byte.

(** [Hash] is a [32]byte array. *)
Definition HashLen : nat := 32.
Definition zero_Hash : bytes := repeat x00 HashLen.
Definition hash_wf (h : bytes) : Prop := length h = HashLen.

Section merkle.
(** [HashBytes], SHA-256. *)
Variable HashBytes : bytes -> bytes.

(** [leaves[i] = HashBytes(leaves[2i] ++ leaves[2i+1])] *)
Definition merkle_step (leaves : list bytes) (i : nat) : list bytes :=
  let left := nth (i * 2) leaves zero_Hash in
  let right := nth (i * 2 + 1) leaves zero_Hash in
  <[i := HashBytes (left ++ right)]> leaves.

(** One iteration of the outer loop. *)
Definition merkle_level (leaves : list bytes) : list bytes :=
  let leaves :=
    if Nat.odd (length leaves)
    then leaves ++ [nth (length leaves - 1) leaves zero_Hash]
    else leaves in
  take (length leaves / 2) (foldl merkle_step leaves (seq 0 (length leaves / 2))).

(** [for len(leaves) > 1]; every iteration shortens the list. *)
Fixpoint merkle_loop (fuel : nat) (leaves : list bytes) : list bytes :=
  match fuel with
  | O => leaves
  | S fuel' =>
      if (1 <? length leaves)%nat then merkle_loop fuel' (merkle_level leaves)
      else leaves
  end.

Definition CalcMerkleRoot (leaves : list bytes) : bytes :=
  match leaves with
  | [] => zero_Hash
  | [h] => h
  | _ => nth 0 (merkle_loop (length leaves) leaves) zero_Hash
  end.

(** ** The reference computation *)

(** The parents of a level; the last node of an odd level is paired with
    itself. *)
Fixpoint pair_up (l : list bytes) : list bytes :=
  match l with
  | a :: b :: rest => HashBytes (a ++ b) :: pair_up rest
  | [a] => [HashBytes (a ++ a)]
  | [] => []
  end.

(** A root computed level by level. *)
Inductive merkle_root : list bytes -> bytes -> Prop :=
  | root_leaf h : merkle_root [h] h
  | root_level l h : (1 < length l)%nat -> merkle_root (pair_up l) h -> merkle_root l h.

(** Induction two elements at a time. *)
Lemma pair_ind (P : list bytes -> Prop) :
  P [] -> (forall a, P [a]) -> (forall a b l, P l -> P (a :: b :: l)) -> forall l, P l.
Proof.
  intros H0 H1 H2. fix IH 1. intros [|a [|b l]]; [done|apply H1|apply H2, IH].
Qed.

Lemma length_pair_up l : length (pair_up l) = ((length l + 1) / 2)%nat.
Proof.
  induction l as [| |a b l IH] using pair_ind; [done..|].
  cbn [pair_up length]. rewrite IH.
  replace (S (S (length l)) + 1)%nat with (1 * 2 + (length l + 1))%nat by lia.
  rewrite Nat.div_add_l by lia. lia.
Qed.

Lemma length_pair_up_lt l : (1 < length l)%nat -> (length (pair_up l) < length l)%nat.
Proof. intros H. rewrite length_pair_up. apply Nat.Div0.div_lt_upper_bound. lia. Qed.

(** The inner loop has replaced the first [k] entries and left the rest. *)
Lemma merkle_steps_spec l k :
  (2 * k <= length l)%nat ->
  foldl merkle_step l (seq 0 k) = take k (pair_up l) ++ drop k l.
Proof.
  induction k as [|k IH]; intros Hk; [by rewrite take_0|].
  rewrite seq_S, foldl_snoc, IH by lia. unfold merkle_step.
  assert (length (take k (pair_up l)) = k) as Hlen.
  { rewrite length_take, length_pair_up.
    assert (k <= (length l + 1) / 2)%nat by (apply Nat.div_le_lower_bound; lia). lia. }
  assert (forall j, (k <= j)%nat ->
    nth j (take k (pair_up l) ++ drop k l) zero_Hash = nth j l zero_Hash) as Hnth.
  { intros j Hj. rewrite app_nth2, Hlen by lia. rewrite nth_skipn. f_equal. lia. }
  rewrite !Hnth by lia.
  assert (pair_up l !! k = Some (HashBytes (nth (k * 2) l zero_Hash ++ nth (k * 2 + 1) l zero_Hash))) as Hp.
  { clear - Hk. revert k Hk. induction l as [| |a b l IH] using pair_ind; intros k Hk;
      cbn [length] in Hk; [lia..|].
    destruct k as [|k]; [done|]. cbn [pair_up lookup list_lookup].
    change ((S k * 2)%nat) with (S (S (k * 2))). cbn [nth Nat.add]. apply IH. lia. }
  cbn [Nat.add]. rewrite (take_S_r _ _ _ Hp), <- app_assoc. cbn [app].
  rewrite insert_app_r_alt, Hlen, Nat.sub_diag by lia. f_equal.
  destruct (drop k l) as [|x r] eqn:E.
  - apply (f_equal length) in E. rewrite length_drop in E. cbn in E. lia.
  - cbn. f_equal. change r with (drop 1 (x :: r)). rewrite <- E, drop_drop. f_equal. lia.
Qed.

Lemma pair_up_dup_last l :
  Nat.odd (length l) = true ->
  pair_up (l ++ [nth (length l - 1) l zero_Hash]) = pair_up l.
Proof.
  induction l as [| |a b l IH] using pair_ind; intros Hodd; [done..|].
  cbn [length] in Hodd. rewrite Nat.odd_succ_succ in Hodd.
  assert (nth (length (a :: b :: l) - 1) (a :: b :: l) zero_Hash =
          nth (length l - 1) l zero_Hash) as ->.
  { destruct l as [|c l]; [done|]. cbn [length]. rewrite !Nat.sub_succ, !Nat.sub_0_r. done. }
  change (HashBytes (a ++ b) :: pair_up (l ++ [nth (length l - 1) l zero_Hash]) =
          HashBytes (a ++ b) :: pair_up l).
  by rewrite IH.
Qed.

Lemma merkle_level_even l :
  Nat.odd (length l) = false ->
  take (length l / 2) (foldl merkle_step l (seq 0 (length l / 2))) = pair_up l.
Proof.
  intros Heven. rewrite <- Nat.negb_even in Heven. apply negb_false_iff, Nat.even_spec in Heven.
  destruct Heven as [m Hm].
  assert (length l / 2 = m)%nat as E by (rewrite Hm, Nat.mul_comm; apply Nat.div_mul; lia).
  rewrite E, merkle_steps_spec by lia.
  assert (length (pair_up l) = m) as Hlen.
  { rewrite length_pair_up, Hm. replace (2 * m + 1)%nat with (m * 2 + 1)%nat by lia.
    rewrite Nat.div_add_l by lia. cbn. lia. }
  rewrite (take_ge (pair_up l)) by lia. apply take_app_length'. lia.
Qed.

(** One level of the in-place algorithm is one level of the reference. *)
Lemma merkle_level_pair_up l : merkle_level l = pair_up l.
Proof.
  unfold merkle_level. destruct (Nat.odd (length l)) eqn:E.
  - rewrite merkle_level_even; [by apply pair_up_dup_last|].
    rewrite length_app. cbn [length]. rewrite Nat.add_1_r, Nat.odd_succ, <- Nat.negb_odd, E. done.
  - by apply merkle_level_even.
Qed.

Lemma merkle_loop_root fuel l :
  l <> [] -> (length l <= fuel)%nat ->
  exists h, merkle_loop fuel l = [h] /\ merkle_root l h.
Proof.
  revert l. induction fuel as [|fuel IH]; intros l Hl Hf.
  { destruct l; [done|cbn in Hf; lia]. }
  cbn [merkle_loop]. destruct (Nat.ltb_spec 1 (length l)) as [H1|H1].
  - rewrite merkle_level_pair_up. destruct (IH (pair_up l)) as (h & E & R).
    + by destruct l as [|a [|b l]].
    + pose proof (length_pair_up_lt l H1). lia.
    + exists h. split; [done|]. by constructor.
  - destruct l as [|h [|]]; [done| |cbn in H1; lia]. exists h. split; [done|constructor].
Qed.

Lemma CalcMerkleRoot_root l : l <> [] -> merkle_root l (CalcMerkleRoot l).
Proof.
  intros Hl. destruct l as [|a [|b l]]; [done|constructor|].
  destruct (merkle_loop_root (length (a :: b :: l)) (a :: b :: l)) as (h & E & R); [done..|].
  unfold CalcMerkleRoot. by rewrite E.
Qed.

Lemma merkle_root_det l h h' : merkle_root l h -> merkle_root l h' -> h = h'.
Proof.
  intros R. revert h'. induction R as [h|l h Hl R IH]; intros h' R'; inversion R'; subst;
    cbn in *; try lia; auto.
Qed.

(** ** Commitment *)

(** Two different inputs with one hash. *)
Definition collision : Prop := exists x y, x <> y /\ HashBytes x = HashBytes y.

Lemma hash_inj_or_collision x y : HashBytes x = HashBytes y -> x = y \/ collision.
Proof. intros E. destruct (decide (x = y)); [by left|right; by exists x, y]. Qed.

Lemma pair_up_inj l l' :
  length l = length l' -> Forall hash_wf l -> Forall hash_wf l' ->
  pair_up l = pair_up l' -> l = l' \/ collision.
Proof.
  revert l'. induction l as [|a|a b l IH] using pair_ind; intros l' Hlen Hl Hl' E.
  - destruct l'; [by left|done].
  - destruct l' as [|a' [|]]; [done| |done]. injection E as E.
    apply hash_inj_or_collision in E as [E|]; [left|by right].
    apply Forall_cons_1 in Hl as [Ha _], Hl' as [Ha' _].
    apply app_inj_1 in E as [-> _]; [done|]. unfold hash_wf in *. congruence.
  - destruct l' as [|a' [|b' l']]; [done..|]. cbn [pair_up] in E. injection E as E1 E2.
    apply Forall_cons_1 in Hl as [Ha Hl], Hl' as [Ha' Hl'].
    apply Forall_cons_1 in Hl as [Hb Hl], Hl' as [Hb' Hl'].
    apply hash_inj_or_collision in E1 as [E1|]; [|by right].
    destruct (IH l') as [->|]; [cbn in Hlen; lia|done..| |by right].
    left. apply app_inj_1 in E1 as [-> ->]; [done|]. unfold hash_wf in *. congruence.
Qed.

Lemma pair_up_wf l :
  (forall x, hash_wf (HashBytes x)) -> Forall hash_wf (pair_up l).
Proof.
  intros HH. induction l as [| |a b l IH] using pair_ind; cbn [pair_up]; auto.
Qed.

Lemma merkle_root_binding l l' h :
  (forall x, hash_wf (HashBytes x)) ->
  length l = length l' -> Forall hash_wf l -> Forall hash_wf l' ->
  merkle_root l h -> merkle_root l' h -> l = l' \/ collision.
Proof.
  intros HH Hlen Hl Hl' R. revert l' Hlen Hl'.
  induction R as [h|l h H1 R IH]; intros l' Hlen Hl' R'.
  - inversion R'; subst; [by left|]. cbn in *. lia.
  - inversion R' as [|l2 h2 H2 R2]; subst; [cbn in *; lia|].
    destruct (IH ltac:(by apply pair_up_wf) (pair_up l')) as [E|]; [| | |by apply pair_up_inj|by right].
    + rewrite !length_pair_up. congruence.
    + by apply pair_up_wf.
    + done.
Qed.
End merkle.

(** The in-place computation of [CalcMerkleRoot] is the level-by-level
    reference: it produces the root of every non-empty list of leaves, and
    that root is unique. *)
Theorem CalcMerkleRoot_correct H l h :
  l <> [] -> merkle_root H l h <-> CalcMerkleRoot H l = h.
Proof.
  intros Hl. pose proof (CalcMerkleRoot_root H l Hl) as R.
  split; [intros R'; by eapply merkle_root_det|by intros <-].
Qed.

Lemma CalcMerkleRoot_correct_witness :
  let H := fun b => take 32 (rev b) in
  let l := [repeat x01 32; repeat x02 32; repeat x03 32] in
  merkle_root H l (CalcMerkleRoot H l) <-> CalcMerkleRoot H l = CalcMerkleRoot H l.
Proof. intros H l. apply (CalcMerkleRoot_correct H l). done. Defined.

(** The root commits to the leaves: two lists of the same length with the same
    root are equal, or a collision of the hash function is at hand.  (The block
    header commits to the length with [NumTxns].) *)
Lemma merkle_commitment H l l' :
  (forall x, hash_wf (H x)) -> length l = length l' ->
  Forall hash_wf l -> Forall hash_wf l' ->
  CalcMerkleRoot H l = CalcMerkleRoot H l' -> l = l' \/ collision H.
Proof.
  intros HH Hlen Hl Hl' E. destruct (decide (l = [])) as [->|Hne].
  { destruct l'; [by left|done]. }
  assert (l' <> []) as Hne' by (intros ->; by destruct l).
  eapply merkle_root_binding; eauto.
  - by apply CalcMerkleRoot_root.
  - rewrite E. by apply CalcMerkleRoot_root.
Qed.

(** A 32-byte checksum: the first 32 bytes, zero-padded. *)
Definition toy_hash (b : bytes) : bytes := take 32 (b ++ zero_Hash).

Lemma toy_hash_wf x : hash_wf (toy_hash x).
Proof.
  unfold hash_wf, toy_hash, zero_Hash. rewrite length_take, length_app, repeat_length.
  unfold HashLen. lia.
Qed.

(** The root alone does not commit to the length: repeating the last of an
    odd number (more than one) of leaves leaves the root unchanged. *)
Theorem merkle_duplicate_last H l x :
  (1 < length l)%nat -> Nat.odd (length l) = true -> l !! (length l - 1)%nat = Some x ->
  CalcMerkleRoot H (l ++ [x]) = CalcMerkleRoot H l.
Proof.
  intros H1 Hodd Hlast.
  assert (nth (length l - 1) l zero_Hash = x) as Hx.
  { by apply nth_lookup_Some. }
  apply (merkle_root_det H (l ++ [x])).
  - apply CalcMerkleRoot_root. by destruct l.
  - constructor; [rewrite length_app; lia|]. rewrite <- Hx, pair_up_dup_last by done.
    assert (l <> []) as Hne by (intros ->; done).
    pose proof (CalcMerkleRoot_root H l Hne) as R. inversion R as [|? ? ? R']; subst; [|done].
    cbn in H1. lia.
Qed.

Lemma merkle_duplicate_last_witness :
  let l := [repeat x01 32; repeat x02 32; repeat x03 32] in
  CalcMerkleRoot toy_hash (l ++ [repeat x03 32]) = CalcMerkleRoot toy_hash l.
Proof.
  intros l. apply (merkle_duplicate_last toy_hash l (repeat x03 32)).
  - cbn. lia.
  - reflexivity.
  - reflexivity.
Defined.
