(* ===== verification/Block.v ===== *)
(** * Blocks

    [BlockHeader] and [Block] of src/core/types/block.go: header and block
    codecs, the size computation, the extraction of one raw transaction, and
    the block hash.  Parameters: the key registry (component Keys) and the
    hash function.  A [time.Time] is its number of nanoseconds since the
    epoch. *)

From S2P Require Import Prelude.
From S2P Require Import Wire.
From S2P Require Import Keys.
From S2P Require Import Tx.
From S2P Require Import Merkle.
From Stdlib Require Import Strings.Byte.

Definition BlockVersion : Z := 0.

Definition ErrNotFound : error := ErrSentinel "not found".

Record BlockHeader := mkHeader {
  bh_Version : Z;
  bh_Height : Z;
  NumTxns : Z;
  PrevHash : bytes;
  PrevAppHash : bytes;
  Timestamp : Z;
  MerkleRoot : bytes;
  ValidatorSetHash : bytes;
  NetworkParamsHash : bytes;
  NewLeader : option PublicKey
}.

Record Block := mkBlock {
  Header : BlockHeader;
  Txns : list Transaction;
  blk_Signature : slice
}.

(** [t.UnixMilli()] and [time.UnixMilli(ms)]. *)
Definition UnixMilli (t : Z) : Z := t / 1000000.
Definition ofUnixMilli (ms : Z) : Z := ms * 1000000.

(** [t.Truncate(time.Millisecond)]. *)
Definition truncate_ms (t : Z) : Z := t - t mod 1000000.

Section block.
Variable HashBytes : bytes -> bytes.
Variable reg : registry.

Definition NewBlock (height : Z) (prevHash appHash valSetHash paramsHash : bytes)
    (stamp : Z) (txns : list Transaction) : Block :=
  let txHashes := map (Tx_Hash HashBytes) txns in
  mkBlock
    (mkHeader BlockVersion height (u32 (zlen txns)) prevHash appHash (truncate_ms stamp)
       (CalcMerkleRoot HashBytes txHashes) valSetHash paramsHash None)
    txns None.

(** The [CalcMerkleRoot] method. *)
Definition Block_CalcMerkleRoot (b : Block) : bytes :=
  CalcMerkleRoot HashBytes (map (Tx_Hash HashBytes) (Txns b)).

(** ** Header codec *)

Definition writeBlockHeader (bh : BlockHeader) : result bytes :=
  leader ← (match NewLeader bh with
            | Some key => enc ← WireEncodeKey reg key;
                          mret (x01 :: WriteCompactBytes (Some enc))
            | None => mret [x00]
            end);
  mret (le_bytes 2 (bh_Version bh) ++ le_bytes 8 (bh_Height bh) ++ le_bytes 4 (NumTxns bh) ++
        PrevHash bh ++ PrevAppHash bh ++ ValidatorSetHash bh ++ NetworkParamsHash bh ++
        le_bytes 8 (u64 (UnixMilli (Timestamp bh))) ++ MerkleRoot bh ++ leader).

Definition DecodeBlockHeader (k : rkind) : reader BlockHeader :=
  version ← rwrap "failed to read version" (read_le 2);
  height ← rwrap "failed to read height" (read_sle 8);
  numTxns ← rwrap "failed to read number of transactions" (read_le 4);
  prevHash ← rwrap "failed to read previous block hash" (ReadFull HashLen);
  prevAppHash ← rwrap "failed to read previous block hash" (ReadFull HashLen);
  valHash ← rwrap "failed to read validator hash" (ReadFull HashLen);
  paramsHash ← rwrap "failed to read network params hash" (ReadFull HashLen);
  timeStamp ← rwrap "failed to read number of transactions" (read_le 8);
  merkleRoot ← rwrap "failed to read merkel root" (ReadFull HashLen);
  leaderUpdate ← rwrap "failed to read leader update flag" read_bool;
  newLeader ← ((if leaderUpdate : bool then
                  keyBts ← rwrap "failed to read leader update key" (ReadCompactBytes k);
                  key ← rwrap "failed to decode leader update key"
                          (rlift (WireDecodePubKey reg (slice_bytes keyBts)));
                  mret (Some key)
                else mret None) : reader (option PublicKey));
  mret (mkHeader version height numTxns prevHash prevAppHash (ofUnixMilli (i64 timeStamp))
          merkleRoot valHash paramsHash newLeader).

(** The header hash, which is the block hash; hashing is the hash of all the
    bytes written. *)
Definition Header_Hash (bh : BlockHeader) : result bytes :=
  HashBytes <$> writeBlockHeader bh.

Definition Block_Hash (b : Block) : result bytes := Header_Hash (Header b).

(** ** Block codec *)

Definition encode_txn (tx : Transaction) : bytes :=
  let rawTx := serialize tx in
  AppendUvarint (u64 (zlen rawTx)) ++ rawTx.

Definition encode_txns (txs : list Transaction) : bytes := concat (map encode_txn txs).

Definition EncodeBlock (b : Block) : result bytes :=
  headerBytes ← writeBlockHeader (Header b);
  mret (headerBytes ++ AppendUvarint (u64 (slice_len (blk_Signature b))) ++
        slice_bytes (blk_Signature b) ++ encode_txns (Txns b)).

Definition smallestTxSize : Z := 6.

Definition DecodeBlock_txn : reader Transaction :=
  txLen ← rwrap "failed to read tx length" ReadUvarint;
  rLen ← rlen;
  if txLen >? rLen then rfail (ErrMsg "invalid transaction length")
  else if txLen =? 0 then rfail (ErrMsg "invalid empty transaction")
  else
    rawTx ← rwrap "failed to read tx data" (ReadFull (Z.to_nat txLen));
    rwrap "invalid transaction" (rlift (Tx_UnmarshalBinary false zero_Transaction rawTx)).

Fixpoint DecodeBlock_txns (n : nat) : reader (list Transaction) :=
  match n with
  | O => mret []
  | S n' => tx ← DecodeBlock_txn; txs ← DecodeBlock_txns n'; mret (tx :: txs)
  end.

Definition DecodeBlock_reader : reader Block :=
  hdr ← DecodeBlockHeader HasLen;
  sigLen ← rwrap "failed to read signature length" ReadUvarint;
  rLen ← rlen;
  if sigLen >? rLen then rfail (ErrMsg "invalid signature length")
  else
    sig ← rwrap "failed to read signature" (ReadFull (Z.to_nat sigLen));
    rLen ← rlen;
    if rLen <? NumTxns hdr * smallestTxSize
    then rfail (ErrMsg "invalid number of transactions")
    else
      txns ← DecodeBlock_txns (Z.to_nat (NumTxns hdr));
      mret (mkBlock hdr txns (Some sig)).

(** Bytes after the last transaction are ignored. *)
Definition DecodeBlock (rawBlk : bytes) : result Block :=
  '(b, _) ← DecodeBlock_reader rawBlk; mret b.

(** [r.Seek(n, io.SeekCurrent)] with [n] nonnegative: seeking past the end
    succeeds and leaves nothing to read. *)
Definition Seek (n : Z) : reader unit := fun bs => Ok (tt, drop (Z.to_nat n) bs).

(** The loop of [GetRawBlockTx]: [n] transactions are left, [idx] counts down
    to the wanted one. *)
Fixpoint GetRawBlockTx_loop (total : Z) (n : nat) (idx : Z) : reader bytes :=
  match n with
  | O => rfail ErrNotFound
  | S n' =>
      txLen ← rwrap "failed to read tx length" ReadUvarint;
      if txLen >? total then rfail (ErrMsg "invalid transaction length")
      else if txLen =? 0 then rfail (ErrMsg "invalid empty transaction idx")
      else if idx =? 0 then rwrap "failed to read tx data" (ReadFull (Z.to_nat txLen))
      else _ ← Seek txLen; GetRawBlockTx_loop total n' (idx - 1)
  end.

Definition GetRawBlockTx_reader (total idx : Z) : reader bytes :=
  hdr ← DecodeBlockHeader HasLen;
  sigLen ← rwrap "failed to read signature length" ReadUvarint;
  if sigLen >? total then rfail (ErrMsg "invalid signature length")
  else _ ← Seek sigLen;
       GetRawBlockTx_loop total (Z.to_nat (NumTxns hdr)) idx.

Definition GetRawBlockTx (rawBlk : bytes) (idx : Z) : result bytes :=
  '(tx, _) ← GetRawBlockTx_reader (zlen rawBlk) idx rawBlk; mret tx.

(** ** Sizes *)

Definition Block_TxnsSize (b : Block) : Z :=
  sum_list_Z (map Tx_SerializeSize (Txns b)).

(** [Size]: the total and the transactions' part. *)
Definition Block_Size (b : Block) : result (Z * Z) :=
  hdr ← writeBlockHeader (Header b);
  let sigLen := slice_len (blk_Signature b) in
  mret (zlen hdr + uvarintLen (u64 sigLen) + sigLen +
          sum_list_Z (map (fun tx => let txSz := Tx_SerializeSize tx in
                                     zlen (AppendUvarint (u64 txSz)) + txSz) (Txns b)),
        sum_list_Z (map Tx_SerializeSize (Txns b))).
End block.

(** ** Round trips *)

Section roundtrip.
Context (reg : registry) (Hreg : reg_ok reg).

(** A header with fields of their Go types, a registered leader key that its
    own definition accepts, and a time within the range of [UnixMilli]. *)
Record header_ok (bh : BlockHeader) : Prop := mkHeaderOk {
  ho_version : is_uint 16 (bh_Version bh);
  ho_height : is_sint 64 (bh_Height bh);
  ho_num : is_uint 32 (NumTxns bh);
  ho_prev : hash_wf (PrevHash bh);
  ho_app : hash_wf (PrevAppHash bh);
  ho_vals : hash_wf (ValidatorSetHash bh);
  ho_params : hash_wf (NetworkParamsHash bh);
  ho_merkle : hash_wf (MerkleRoot bh);
  ho_time : is_sint 64 (UnixMilli (Timestamp bh));
  ho_leader : forall key, NewLeader bh = Some key ->
    UnmarshalPublicKey reg (pk_Bytes key) (pk_Type key) = Ok key /\
    zlen (pk_Bytes key) < 2 ^ 62
}.

(** Only milliseconds survive. *)
Definition norm_Header (bh : BlockHeader) : BlockHeader :=
  mkHeader (bh_Version bh) (bh_Height bh) (NumTxns bh) (PrevHash bh) (PrevAppHash bh)
    (ofUnixMilli (UnixMilli (Timestamp bh))) (MerkleRoot bh) (ValidatorSetHash bh)
    (NetworkParamsHash bh) (NewLeader bh).

Lemma truncate_ms_norm t : truncate_ms t = ofUnixMilli (UnixMilli t).
Proof. unfold truncate_ms, ofUnixMilli, UnixMilli. Z.div_mod_to_equations. lia. Qed.

Lemma decodes_leader k (o : option PublicKey) bs :
  (forall key, o = Some key ->
    UnmarshalPublicKey reg (pk_Bytes key) (pk_Type key) = Ok key /\
    zlen (pk_Bytes key) < 2 ^ 62) ->
  match o with
  | Some key => enc ← WireEncodeKey reg key; mret (x01 :: WriteCompactBytes (Some enc))
  | None => mret [x00]
  end = Ok bs ->
  decodes (leaderUpdate ← rwrap "failed to read leader update flag" read_bool;
           (if leaderUpdate : bool then
                  keyBts ← rwrap "failed to read leader update key" (ReadCompactBytes k);
                  key ← rwrap "failed to decode leader update key"
                          (rlift (WireDecodePubKey reg (slice_bytes keyBts)));
                  mret (Some key)
                else mret None) : reader (option PublicKey)) bs o.
Proof.
  intros Hk. destruct o as [key|].
  - destruct (Hk key eq_refl) as [Hu Hlen].
    destruct (WireEncodeKey reg key) as [enc|] eqn:E; [|done].
    pose proof (WireDecode_encode reg Hreg key enc Hu E) as Hd.
    cbn [mbind result_bind]. intros <-%(inj Ok).
    apply (decodes_bind _ _ [x01] _ true); [apply decodes_rwrap, (decodes_read_bool true)|].
    cbv beta iota. eapply decodes_bind_ret.
    { apply decodes_rwrap, decodes_ReadCompactBytes. change (fits enc). unfold fits.
      unfold WireEncodeKey in E. destruct (keyTypes reg !! pk_Type key); [|done].
      apply (inj Ok) in E as <-. rewrite zlen_app, zlen_le_bytes.
      change (2 ^ 62) with 4611686018427387904 in Hlen. ints. }
    cbv beta. eapply decodes_bind_nil; [by apply decodes_rwrap, decodes_rlift|apply decodes_ret].
  - intros <-%(inj Ok).
    apply (decodes_bind_ret _ _ [x00] false); [apply decodes_rwrap, (decodes_read_bool false)|].
    apply decodes_ret.
Qed.

Lemma decodes_Header k bh bs :
  header_ok bh -> writeBlockHeader reg bh = Ok bs ->
  decodes (DecodeBlockHeader reg k) bs (norm_Header bh).
Proof.
  intros [] Hw. unfold writeBlockHeader in Hw.
  apply result_bind_Ok in Hw as (leader & Hleader & <-%(inj Ok)).
  eapply decodes_bind; [by apply decodes_rwrap, decodes_read_le|].
  eapply decodes_bind; [apply decodes_rwrap, decodes_read_sle; [lia|done]|].
  eapply decodes_bind; [by apply decodes_rwrap, decodes_read_le|].
  do 4 (eapply decodes_bind; [by apply decodes_rwrap, decodes_ReadFull|]).
  eapply decodes_bind; [apply decodes_rwrap, decodes_read_le, (uwrap_range 64); lia|].
  eapply decodes_bind; [by apply decodes_rwrap, decodes_ReadFull|].
  apply decodes_assoc. eapply decodes_bind_ret.
  { apply decodes_leader; [|exact Hleader]. done. }
  cbv beta. rewrite swrap_uwrap, swrap_small by (done || lia). apply decodes_ret.
Qed.

(** ** Transactions of a block *)

Lemma serialize_min t : smallestTxSize <= zlen (serialize t).
Proof.
  rewrite serialize_parts, !zlen_app, zlen_le_bytes. cbn [WriteCompactBytes].
  unfold WriteCompactString, AppendVarint, smallestTxSize. rewrite !zlen_app.
  pose proof (zlen_AppendUvarint_pos (zigzag (i64 (zlen (sig_part t))))).
  pose proof (zlen_AppendUvarint_pos (zigzag (i64 (zlen (body_part t))))).
  pose proof (zlen_AppendUvarint_pos (u64 (zlen (Serialization t)))).
  pose proof (zlen_AppendUvarint_pos (zigzag (i64 (zlen (slice_bytes (Sender t)))))).
  zlens. lia.
Qed.

Lemma decodes_txn t : tx_ok t -> decodes DecodeBlock_txn (encode_txn t) (norm_Tx t).
Proof.
  intros Ht. pose proof Ht as [Hf _]. unfold encode_txn. cbv zeta.
  rewrite uwrap_small by (by apply fits_uint).
  eapply decodes_bind; [apply decodes_rwrap, decodes_ReadUvarint; by apply fits_uint|].
  cbv beta. pose proof (serialize_min t) as Hmin. unfold smallestTxSize in Hmin.
  apply (decodes_len_guard (fun n => zlen (serialize t) >? n)).
  { intros n Hn. rewrite Z.gtb_ltb. apply Z.ltb_ge. lia. }
  rewrite (proj2 (Z.eqb_neq _ 0)) by lia.
  eapply decodes_bind_ret; [apply decodes_rwrap, decodes_ReadFull; unfold zlen; lia|].
  apply decodes_rwrap, decodes_rlift. unfold Tx_UnmarshalBinary.
  by rewrite (decodes_full _ _ _ (decodes_Tx t zero_Transaction Ht eq_refl)).
Qed.

Lemma decodes_txns txs :
  Forall tx_ok txs ->
  decodes (DecodeBlock_txns (length txs)) (encode_txns txs) (map norm_Tx txs).
Proof.
  induction 1 as [|t txs Ht Htxs IH]; [apply decodes_ret|].
  unfold encode_txns. cbn [map concat length DecodeBlock_txns].
  eapply decodes_bind; [by apply decodes_txn|].
  eapply decodes_bind_ret; [apply IH|apply decodes_ret].
Qed.

Lemma encode_txns_min txs : zlen txs * smallestTxSize <= zlen (encode_txns txs).
Proof.
  unfold encode_txns, smallestTxSize. induction txs as [|t txs IH]; [done|].
  cbn [map concat]. rewrite zlen_cons, zlen_app. unfold encode_txn at 1. rewrite zlen_app.
  pose proof (serialize_min t) as H. unfold smallestTxSize in H. zlens. lia.
Qed.

(** A block as the node produces it: valid header and transactions, the
    header counting them, and the signature in memory. *)
Record block_ok (b : Block) : Prop := mkBlockOk {
  bo_header : header_ok (Header b);
  bo_num : NumTxns (Header b) = zlen (Txns b);
  bo_txns : Forall tx_ok (Txns b);
  bo_sig : slice_fits (blk_Signature b)
}.

Definition norm_Block (b : Block) : Block :=
  mkBlock (norm_Header (Header b)) (map norm_Tx (Txns b)) (EmptyIfNil (blk_Signature b)).

Lemma decodes_Block b bs :
  block_ok b -> EncodeBlock reg b = Ok bs ->
  decodes (DecodeBlock_reader reg) bs (norm_Block b).
Proof.
  intros [Hh Hnum Htx Hsig] He. unfold EncodeBlock in He.
  apply result_bind_Ok in He as (hdr & Hhdr & <-%(inj Ok)).
  destruct b as [bh txns sig]. cbn [Header Txns blk_Signature] in *.
  unfold slice_fits, slice_len in *. set (s := slice_bytes sig) in *.
  rewrite uwrap_small by (by apply fits_uint).
  eapply decodes_bind; [by apply decodes_Header|].
  eapply decodes_bind; [apply decodes_rwrap, decodes_ReadUvarint; by apply fits_uint|].
  cbv beta. pose proof (encode_txns_min txns) as Hmin.
  apply (decodes_len_guard (fun n => zlen s >? n)).
  { intros n. rewrite Z.gtb_ltb, Z.ltb_ge, zlen_app. zlens. lia. }
  eapply decodes_bind; [apply decodes_rwrap, decodes_ReadFull; unfold zlen; lia|].
  cbv beta. change (NumTxns (norm_Header bh)) with (NumTxns bh). rewrite Hnum.
  apply (decodes_len_guard (fun n => n <? zlen txns * smallestTxSize)).
  { intros n. rewrite Z.ltb_ge. lia. }
  unfold zlen at 1. rewrite Nat2Z.id.
  eapply decodes_bind_ret; [by apply decodes_txns|].
  unfold norm_Block. cbn. rewrite EmptyIfNil_Some. apply decodes_ret.
Qed.
End roundtrip.

(** ** Extracting one transaction *)

Lemma Seek_app n (a b : bytes) : n = zlen a -> Seek n (a ++ b) = Ok (tt, b).
Proof. intros ->. unfold Seek, zlen. by rewrite Nat2Z.id, drop_app_length. Qed.

Lemma GetRawBlockTx_loop_spec total txs idx :
  Forall tx_ok txs -> zlen (encode_txns txs) <= total -> (0 <= idx) ->
  match txs !! Z.to_nat idx with
  | Some t => exists rest, GetRawBlockTx_loop total (length txs) idx (encode_txns txs) = Ok (serialize t, rest)
  | None => GetRawBlockTx_loop total (length txs) idx (encode_txns txs) = Err ErrNotFound
  end.
Proof.
  intros Htx. revert idx. induction Htx as [|t txs Ht Htx IH]; intros idx Htot Hidx; [done|].
  unfold encode_txns in *. cbn [map concat length GetRawBlockTx_loop] in *.
  pose proof Ht as [Hf _]. pose proof (serialize_min t) as Hmin. unfold smallestTxSize in Hmin.
  unfold encode_txn in *. cbv zeta in *. rewrite uwrap_small in * by (by apply fits_uint).
  rewrite <- app_assoc. rewrite !zlen_app in Htot.
  unfold mbind at 1 3, reader_bind at 1 3.
  rewrite (decodes_rwrap _ _ _ _ (decodes_ReadUvarint _ (fits_uint _ Hf))). 
  rewrite Z.gtb_ltb, (proj2 (Z.ltb_ge _ _)), (proj2 (Z.eqb_neq (zlen (serialize t)) 0)) by (zlens; lia).
  destruct (Z.eqb_spec idx 0) as [->|Hne].
  - exists (concat (map encode_txn txs)).
    rewrite (decodes_rwrap _ _ _ _ (decodes_ReadFull (Z.to_nat (zlen (serialize t))) (serialize t)
      ltac:(unfold zlen; lia))).
    done.
  - replace (Z.to_nat idx) with (S (Z.to_nat (idx - 1))) by lia. cbn [lookup list_lookup].
    unfold mbind, reader_bind. rewrite Seek_app by done. apply IH; zlens; lia.
Qed.

Section theorems.
Context (reg : registry) (Hreg : reg_ok reg).

Lemma EncodeBlock_inv b raw :
  EncodeBlock reg b = Ok raw ->
  exists hdr, writeBlockHeader reg (Header b) = Ok hdr /\
    raw = hdr ++ AppendUvarint (u64 (slice_len (blk_Signature b))) ++
          slice_bytes (blk_Signature b) ++ encode_txns (Txns b).
Proof. intros (hdr & ? & <-%(inj Ok))%result_bind_Ok. by exists hdr. Qed.

Lemma GetRawBlockTx_spec b raw idx :
  block_ok reg b -> EncodeBlock reg b = Ok raw -> 0 <= idx ->
  GetRawBlockTx reg raw idx =
    match Txns b !! Z.to_nat idx with
    | Some t => Ok (serialize t)
    | None => Err ErrNotFound
    end.
Proof.
  intros [Hh Hnum Htx Hsig] He Hidx. destruct (EncodeBlock_inv _ _ He) as (hdr & Hw & Eraw).
  unfold GetRawBlockTx. unfold slice_len, slice_fits in *. set (s := slice_bytes (blk_Signature b)) in *.
  rewrite uwrap_small in Eraw by (by apply fits_uint).
  assert (zlen s + zlen (encode_txns (Txns b)) <= zlen raw) as Hraw.
  { rewrite Eraw, !zlen_app. zlens. lia. }
  pose proof (decodes_Header reg Hreg HasLen _ _ Hh Hw) as DH.
  pose proof (decodes_rwrap "failed to read signature length" _ _ _ (decodes_ReadUvarint _ (fits_uint _ Hsig))) as DS.
  set (total := zlen raw) in *. rewrite Eraw. unfold GetRawBlockTx_reader.
  unfold mbind at 2, reader_bind at 1. rewrite DH.
  unfold mbind at 2, reader_bind at 1. rewrite DS.
  rewrite Z.gtb_ltb, (proj2 (Z.ltb_ge _ _)) by (zlens; lia).
  unfold mbind at 2, reader_bind at 1. rewrite Seek_app by done.
  change (NumTxns (norm_Header (Header b))) with (NumTxns (Header b)). rewrite Hnum.
  unfold zlen at 1. rewrite Nat2Z.id.
  pose proof (GetRawBlockTx_loop_spec total (Txns b) idx Htx ltac:(zlens; lia) Hidx) as L.
  destruct (Txns b !! Z.to_nat idx); [destruct L as (rest & ->)|rewrite L]; done.
Qed.

(** The size counted for a transaction of a block against its encoding. *)
Lemma txn_size t :
  tx_ok t ->
  Tx_SerializeSize t <= zlen (serialize t) /\
  zlen (AppendUvarint (u64 (Tx_SerializeSize t))) + zlen (serialize t) <= zlen (encode_txn t).
Proof.
  intros [Hf Hn]. destruct (tx_size_bounds t Hf) as [Hle _]. split; [lia|].
  unfold encode_txn. cbv zeta. rewrite zlen_app. unfold fits in Hf.
  rewrite !uwrap_small by (zlens; ints).
  rewrite <- !uvarintLen_correct by (zlens; ints).
  pose proof (uvarintLen_loop_mono 9 (Tx_SerializeSize t) (zlen (serialize t)) ltac:(lia)).
  unfold uvarintLen. lia.
Qed.
End theorems.

(** ** What the block hash commits to *)

Section commitment.
Context (H : bytes -> bytes) (reg : registry) (Hreg : reg_ok reg).

Lemma header_hash_inj h1 h2 x :
  header_ok reg h1 -> header_ok reg h2 ->
  Header_Hash H reg h1 = Ok x -> Header_Hash H reg h2 = Ok x ->
  norm_Header h1 = norm_Header h2 \/ collision H.
Proof.
  intros H1 H2. unfold Header_Hash.
  destruct (writeBlockHeader reg h1) as [b1|] eqn:E1; [|done].
  destruct (writeBlockHeader reg h2) as [b2|] eqn:E2; [|done].
  intros <-%(inj Ok) E%(inj Ok).
  destruct (hash_inj_or_collision H _ _ E) as [Eb|]; [left|by right].
  pose proof (decodes_Header reg Hreg HasLen _ _ H1 E1) as D1.
  pose proof (decodes_Header reg Hreg HasLen _ _ H2 E2) as D2.
  symmetry. eapply (decodes_inj _ _ _ _ _ [] [] D2 D1). by rewrite Eb.
Qed.

Lemma tx_hashes_inj txs txs' :
  Forall tx_ok txs -> Forall tx_ok txs' ->
  map (Tx_Hash H) txs = map (Tx_Hash H) txs' ->
  map norm_Tx txs = map norm_Tx txs' \/ collision H.
Proof.
  intros Ht. revert txs'. induction Ht as [|t txs Hok Ht IH]; intros [|t' txs'] Ht' E; try done.
  { by left. }
  apply Forall_cons_1 in Ht' as [Hok' Ht']. cbn [map] in *. injection E as E1 E2.
  destruct (hash_inj_or_collision H _ _ E1) as [Es|]; [|by right].
  destruct (IH txs' Ht' E2) as [->|]; [left|by right]. f_equal.
  eapply (decodes_inj _ _ _ _ _ [] []
    (decodes_Tx t zero_Transaction Hok eq_refl) (decodes_Tx t' zero_Transaction Hok' eq_refl)).
  by rewrite Es.
Qed.
End commitment.

(** Encoding then decoding a block gives the block back (slices up to
    empty/nil, the timestamp to the millisecond), whatever bytes follow it. *)
Theorem block_roundtrip reg b raw extra :
  reg_ok reg -> block_ok reg b -> EncodeBlock reg b = Ok raw ->
  DecodeBlock reg (raw ++ extra) = Ok (norm_Block b).
Proof.
  intros Hreg Hb He. unfold DecodeBlock. by rewrite (decodes_Block reg Hreg b raw Hb He).
Qed.

(** [GetRawBlockTx] of an encoded block returns the serialization of the
    transaction with that index, and [ErrNotFound] past the last one. *)
Theorem GetRawBlockTx_correct reg b raw idx :
  reg_ok reg -> block_ok reg b -> EncodeBlock reg b = Ok raw -> 0 <= idx ->
  GetRawBlockTx reg raw idx =
    match Txns b !! Z.to_nat idx with
    | Some t => Ok (serialize t)
    | None => Err ErrNotFound
    end.
Proof. intros Hreg. by apply GetRawBlockTx_spec. Qed.


(** [Block.Size] never exceeds the length of the encoded block, and is
    strictly below it as soon as one transaction is longer than its own
    [SerializeSize]. *)
Theorem block_Size_le reg b raw sz txsz :
  block_ok reg b -> EncodeBlock reg b = Ok raw -> Block_Size reg b = Ok (sz, txsz) ->
  txsz = Block_TxnsSize b /\ sz <= zlen raw /\
  (Exists (fun t => Tx_SerializeSize t < zlen (serialize t)) (Txns b) -> sz < zlen raw).
Proof.
  intros [Hh Hn Ht Hs] He Hsz. destruct (EncodeBlock_inv _ _ _ He) as (hdr & Hw & ->).
  unfold Block_Size in Hsz. rewrite Hw in Hsz. cbn [mbind result_bind] in Hsz.
  apply (inj Ok) in Hsz as [= <- <-]. split; [done|].
  rewrite !zlen_app. unfold slice_fits, slice_len in *.
  rewrite <- uvarintLen_correct by (apply uwrap_range; lia).
  set (f := fun tx => _).
  enough (sum_list_Z (map f (Txns b)) <= zlen (encode_txns (Txns b)) /\
          (Exists (fun t => Tx_SerializeSize t < zlen (serialize t)) (Txns b) ->
           sum_list_Z (map f (Txns b)) < zlen (encode_txns (Txns b)))) as [Hle Hlt].
  { split; [lia|]. intros Hex%Hlt. lia. }
  unfold encode_txns. clear -Ht. induction Ht as [|t txs Hok Ht [IH1 IH2]].
  { split; [done|]. by intros Hex%Exists_nil. }
  cbn [map concat sum_list_Z]. rewrite zlen_app.
  change (f t) with (zlen (AppendUvarint (u64 (Tx_SerializeSize t))) + Tx_SerializeSize t).
  destruct (txn_size t Hok) as [H1 H2]. split; [lia|].
  rewrite Exists_cons. intros [Hlt|Hlt%IH2]; lia.
Qed.

(** ** A concrete block *)

Definition test_key : PublicKey := mkPublicKey KeyTypeEd25519 (repeat x05 32).

Definition set_leader (b : Block) (key : PublicKey) : Block :=
  let h := Header b in
  mkBlock (mkHeader (bh_Version h) (bh_Height h) (NumTxns h) (PrevHash h) (PrevAppHash h)
             (Timestamp h) (MerkleRoot h) (ValidatorSetHash h) (NetworkParamsHash h) (Some key))
    (Txns b) (blk_Signature b).

Definition test_block : Block :=
  set_leader (NewBlock toy_hash 5 zero_Hash zero_Hash zero_Hash zero_Hash 1700000000123456789
                [sample_tx; signed_tx; sample_tx]) test_key.

Lemma sample_tx_ok : tx_ok sample_tx.
Proof. split; [by vm_compute|]. intros b [= <-]. const_range. Qed.

Lemma signed_tx_ok : tx_ok signed_tx.
Proof. split; [by vm_compute|]. intros b [= <-]. const_range. Qed.

Lemma test_block_ok : block_ok test_registry test_block.
Proof.
  constructor.
  - constructor.
    1-3, 9: const_range.
    1-5: by vm_compute.
    intros key E. assert (key = test_key) as -> by (cbn in E; congruence).
    split; vm_compute; reflexivity.
  - reflexivity.
  - apply Forall_forall. intros t [<-|[<-|[<-|[]]]];
      [apply sample_tx_ok|apply signed_tx_ok|apply sample_tx_ok].
  - by vm_compute.
Qed.

Definition test_raw : bytes :=
  match EncodeBlock test_registry test_block with Ok raw => raw | Err _ => [] end.

Lemma test_raw_ok : EncodeBlock test_registry test_block = Ok test_raw.
Proof. vm_compute. reflexivity. Qed.

Lemma block_roundtrip_witness :
  DecodeBlock test_registry (test_raw ++ [x00]) = Ok (norm_Block test_block).
Proof.
  exact (block_roundtrip test_registry test_block test_raw [x00]
           (native_registry_ok _) test_block_ok test_raw_ok).
Defined.

Lemma GetRawBlockTx_correct_witness :
  GetRawBlockTx test_registry test_raw 1 = Ok (serialize signed_tx).
Proof.
  exact (GetRawBlockTx_correct test_registry test_block test_raw 1
           (native_registry_ok _) test_block_ok test_raw_ok ltac:(lia)).
Defined.


Lemma block_Size_le_witness :
  exists sz txsz, Block_Size test_registry test_block = Ok (sz, txsz) /\ sz < zlen test_raw.
Proof.
  pose (s := match Block_Size test_registry test_block with Ok p => p | Err _ => (0, 0) end).
  exists (fst s), (snd s). split; [vm_compute; reflexivity|].
  refine (proj2 (proj2 (block_Size_le test_registry test_block test_raw (fst s) (snd s)
            test_block_ok test_raw_ok _)) _); [vm_compute; reflexivity|].
  apply Exists_cons_tl, Exists_cons_hd. vm_compute. reflexivity.
Defined.
