(* ===== verification/Params.v ===== *)
(** * Network parameters

    [NetworkParameters] and [ParamUpdates] of src/core/types/params.go: the
    update map and its binary codec, merging, comparison and the hash that
    block headers carry.  The values of the update map have the Go type [any]:
    [param_value] lists the types the code asserts, and [PVOther] stands for
    any other one. *)

From S2P Require Import Prelude.
From S2P Require Import Wire.
From S2P Require Import Keys.
From S2P Require Import Order.
From Stdlib Require Import Strings.Byte.

#[local] Open Scope Z_scope.

(** The names that [setParamNames] takes from the struct tags. *)
Definition ParamNameLeader : bytes := str "leader".
Definition ParamNameMaxBlockSize : bytes := str "max_block_size".
Definition ParamNameJoinExpiry : bytes := str "join_expiry".
Definition ParamNameDisabledGasCosts : bytes := str "disabled_gas_costs".
Definition ParamNameMaxVotesPerTx : bytes := str "max_votes_per_tx".
Definition ParamNameMigrationStatus : bytes := str "migration_status".

Record NetworkParameters := mkParams {
  np_Leader : option PublicKey;
  MaxBlockSize : Z;
  JoinExpiry : Z;
  DisabledGasCosts : bool;
  MaxVotesPerTx : Z;
  MigrationStatus : bytes
}.

#[export] Instance NetworkParameters_eq_decision : EqDecision NetworkParameters.
Proof. solve_decision. Defined.

Definition zero_params : NetworkParameters := mkParams None 0 0 false 0 [].

Inductive param_value :=
  | PVKey (key : option PublicKey)
  | PVInt64 (i : Z)
  | PVDuration (d : Z)
  | PVBool (b : bool)
  | PVStatus (s : bytes)
  | PVOther.

#[export] Instance param_value_eq_decision : EqDecision param_value.
Proof. solve_decision. Defined.

Abbreviation ParamUpdates := (gmap (list byte) param_value).

(** ** Merging *)

(** The body of the loop of [MergeUpdates]; a failed type assertion panics, and
    the deferred function turns the panic into an error. *)
Definition merge_one (kv : bytes * param_value) : action NetworkParameters unit := fun np =>
  let '(name, update) := kv in
  if bool_decide (name = ParamNameLeader) then
    match update with
    | PVKey key => (Ok tt, mkParams key (MaxBlockSize np) (JoinExpiry np)
                             (DisabledGasCosts np) (MaxVotesPerTx np) (MigrationStatus np))
    | _ => (Err (ErrMsg "invalid type for leader"), np)
    end
  else if bool_decide (name = ParamNameMaxBlockSize) then
    match update with
    | PVInt64 i => (Ok tt, mkParams (np_Leader np) i (JoinExpiry np)
                             (DisabledGasCosts np) (MaxVotesPerTx np) (MigrationStatus np))
    | _ => (Err (ErrMsg "invalid update"), np)
    end
  else if bool_decide (name = ParamNameJoinExpiry) then
    match update with
    | PVDuration d => (Ok tt, mkParams (np_Leader np) (MaxBlockSize np) d
                                (DisabledGasCosts np) (MaxVotesPerTx np) (MigrationStatus np))
    | _ => (Err (ErrMsg "invalid update"), np)
    end
  else if bool_decide (name = ParamNameDisabledGasCosts) then
    match update with
    | PVBool b => (Ok tt, mkParams (np_Leader np) (MaxBlockSize np) (JoinExpiry np)
                            b (MaxVotesPerTx np) (MigrationStatus np))
    | _ => (Err (ErrMsg "invalid update"), np)
    end
  else if bool_decide (name = ParamNameMaxVotesPerTx) then
    match update with
    | PVInt64 i => (Ok tt, mkParams (np_Leader np) (MaxBlockSize np) (JoinExpiry np)
                             (DisabledGasCosts np) i (MigrationStatus np))
    | _ => (Err (ErrMsg "invalid update"), np)
    end
  else if bool_decide (name = ParamNameMigrationStatus) then
    match update with
    | PVStatus s => (Ok tt, mkParams (np_Leader np) (MaxBlockSize np) (JoinExpiry np)
                              (DisabledGasCosts np) (MaxVotesPerTx np) s)
    | _ => (Err (ErrMsg "invalid update"), np)
    end
  else (Err (ErrMsg "unknown field"), np).

(** [MergeUpdates] ranges over the map: [order] lists it in any order.  Updates
    before an invalid one stay applied. *)
Fixpoint MergeUpdates (order : list (bytes * param_value)) : action NetworkParameters unit :=
  match order with
  | [] => mret tt
  | kv :: order' => _ ← merge_one kv; MergeUpdates order'
  end.

Definition ValidateUpdates (order : list (bytes * param_value)) : result unit :=
  fst (MergeUpdates order zero_params).

(** [Merge]: the entries of [other] replace those of [pu]. *)
Definition ParamUpdates_Merge (pu other : ParamUpdates) : ParamUpdates := other ∪ pu.

Definition same_leader (a b : option PublicKey) : bool :=
  match a, b with
  | None, None => true
  | Some k, Some k' => pk_Equals k k'
  | _, _ => false
  end.

Definition Params_Equals (np other : NetworkParameters) : bool :=
  same_leader (np_Leader np) (np_Leader other) &&
  (MaxBlockSize np =? MaxBlockSize other) && (JoinExpiry np =? JoinExpiry other) &&
  Bool.eqb (DisabledGasCosts np) (DisabledGasCosts other) &&
  (MaxVotesPerTx np =? MaxVotesPerTx other) &&
  bool_decide (MigrationStatus np = MigrationStatus other).

(** [Equals] ignores the errors of the two merges. *)
Definition ParamUpdates_Equals (o1 o2 : list (bytes * param_value)) : bool :=
  if negb (zlen o1 =? zlen o2) then false
  else if (zlen o1 =? 0) && (zlen o2 =? 0) then true
  else Params_Equals (snd (MergeUpdates o1 zero_params)) (snd (MergeUpdates o2 zero_params)).

(** ** Sanity checks and hash *)

Definition SanityChecks (np : NetworkParameters) : result unit :=
  match np_Leader np with
  | None => Err (ErrMsg "leader should not be empty")
  | Some key =>
      if zlen (pk_Bytes key) =? 0 then Err (ErrMsg "leader should not be empty")
      else if MaxVotesPerTx np =? 0 then Err (ErrMsg "max votes per tx should be greater than 0")
      else if JoinExpiry np =? 0 then Err (ErrMsg "join expiry should be greater than 0")
      else if MaxBlockSize np =? 0 then Err (ErrMsg "max bytes should be greater than 0")
      else Ok tt
  end.

(** The bytes that [Hash] feeds to the hasher. *)
Definition params_preimage (np : NetworkParameters) : bytes :=
  (match np_Leader np with None => [x00] | Some key => pk_Bytes key end) ++
  le_bytes 8 (MaxBlockSize np) ++ le_bytes 8 (JoinExpiry np) ++
  bool_byte (DisabledGasCosts np) ++ le_bytes 8 (MaxVotesPerTx np) ++ MigrationStatus np.

Definition Params_Hash (HashBytes : bytes -> bytes) (np : NetworkParameters) : bytes :=
  HashBytes (params_preimage np).

(** ** Binary codec *)

Section codec.
Context (reg : registry).

Definition marshal_value (key : bytes) (value : param_value) : result bytes :=
  if bool_decide (key = ParamNameLeader) then
    match value with
    | PVKey (Some pk) => bts ← WireEncodeKey reg pk; mret (le_bytes 2 (u16 (zlen bts)) ++ bts)
    | PVKey None => Err (ErrPanic "nil public key")
    | _ => Err (ErrMsg "invalid type")
    end
  else if bool_decide (key = ParamNameDisabledGasCosts) then
    match value with
    | PVBool b => mret (bool_byte b)
    | _ => Err (ErrMsg "invalid type")
    end
  else if bool_decide (key = ParamNameJoinExpiry) then
    match value with
    | PVDuration d => mret (le_bytes 8 d)
    | _ => Err (ErrMsg "invalid type")
    end
  else if bool_decide (key = ParamNameMaxBlockSize) || bool_decide (key = ParamNameMaxVotesPerTx) then
    match value with
    | PVInt64 i => mret (le_bytes 8 i)
    | _ => Err (ErrMsg "invalid type")
    end
  else if bool_decide (key = ParamNameMigrationStatus) then
    match value with
    | PVStatus s => mret (le_bytes 2 (u16 (zlen s)) ++ s)
    | _ => Err (ErrMsg "invalid type")
    end
  else Err (ErrMsg "unknown parameter name").

Fixpoint marshal_updates (pu : ParamUpdates) (keys : list bytes) : result bytes :=
  match keys with
  | [] => mret []
  | key :: keys' =>
      value ← (match pu !! key with Some v => marshal_value key v | None => Err (ErrMsg "invalid type") end);
      rest ← marshal_updates pu keys';
      mret (le_bytes 2 (u16 (zlen key)) ++ key ++ value ++ rest)
  end.

Definition ParamUpdates_MarshalBinary (pu : ParamUpdates) : result bytes :=
  body ← marshal_updates pu (sorted_ids (dom pu));
  mret (le_bytes 2 0 ++ le_bytes 2 (u16 (Z.of_nat (size pu))) ++ body).

(** [buf.Read(make([]byte, n))] of a [bytes.Reader]: end of file when nothing
    is left, even for [n = 0], and otherwise a short read pads with zeros. *)
Definition Reader_Read (n : nat) : reader bytes := fun bs =>
  match bs with
  | [] => Err ErrEOF
  | _ => Ok (take n bs ++ replicate (n - length bs) x00, drop n bs)
  end.

Definition read_value (paramName : bytes) : reader param_value :=
  if bool_decide (paramName = ParamNameLeader) then
    length ← read_le 2;
    val ← Reader_Read (Z.to_nat length);
    pubkey ← rlift (WireDecodePubKey reg val);
    mret (PVKey (Some pubkey))
  else if bool_decide (paramName = ParamNameJoinExpiry) then
    d ← read_sle 8; mret (PVDuration d)
  else if bool_decide (paramName = ParamNameMaxBlockSize) || bool_decide (paramName = ParamNameMaxVotesPerTx) then
    i ← read_sle 8; mret (PVInt64 i)
  else if bool_decide (paramName = ParamNameDisabledGasCosts) then
    b ← read_le 1; mret (PVBool (b =? 1))
  else if bool_decide (paramName = ParamNameMigrationStatus) then
    length ← read_le 2;
    val ← Reader_Read (Z.to_nat length);
    mret (PVStatus val)
  else rfail (ErrMsg "unknown parameter name").

Fixpoint read_updates (n : nat) (updates : ParamUpdates) : reader ParamUpdates :=
  match n with
  | O => mret updates
  | S n' =>
      nameLen ← read_le 2;
      paramName ← Reader_Read (Z.to_nat nameLen);
      value ← read_value paramName;
      read_updates n' (<[paramName := value]> updates)
  end.

Definition ParamUpdates_read : reader ParamUpdates :=
  version ← read_le 2;
  if negb (version =? 0) then rfail (ErrMsg "unsupported version")
  else numUpdates ← read_le 2; read_updates (Z.to_nat numUpdates) ∅.

Definition ParamUpdates_UnmarshalBinary (data : slice) : result ParamUpdates :=
  '(pu, _) ← ParamUpdates_read (slice_bytes data); mret pu.
End codec.

(** ** Round trip *)

Definition param_names : list bytes :=
  [ParamNameLeader; ParamNameMaxBlockSize; ParamNameJoinExpiry; ParamNameDisabledGasCosts;
   ParamNameMaxVotesPerTx; ParamNameMigrationStatus].

(** A value of the type of its parameter, in range; the leader is a key its own
    definition accepts. *)
Inductive value_ok (reg : registry) : bytes -> param_value -> Prop :=
  | ok_leader pk : is_Some (keyTypes reg !! pk_Type pk) ->
      UnmarshalPublicKey reg (pk_Bytes pk) (pk_Type pk) = Ok pk -> zlen (pk_Bytes pk) < 65000 ->
      value_ok reg ParamNameLeader (PVKey (Some pk))
  | ok_block_size i : is_sint 64 i -> value_ok reg ParamNameMaxBlockSize (PVInt64 i)
  | ok_expiry d : is_sint 64 d -> value_ok reg ParamNameJoinExpiry (PVDuration d)
  | ok_gas b : value_ok reg ParamNameDisabledGasCosts (PVBool b)
  | ok_votes i : is_sint 64 i -> value_ok reg ParamNameMaxVotesPerTx (PVInt64 i)
  | ok_status s : s <> [] -> zlen s < 65000 -> value_ok reg ParamNameMigrationStatus (PVStatus s).

Definition updates_ok (reg : registry) (pu : ParamUpdates) : Prop :=
  forall k v, pu !! k = Some v -> value_ok reg k v.

#[local] Arguments le_bytes : simpl never.

Section roundtrip.
Context (reg : registry) (Hreg : reg_ok reg).

Lemma decodes_Reader_Read n bs :
  length bs = n -> bs <> [] -> decodes (Reader_Read n) bs bs.
Proof.
  intros <- Hne rest. destruct bs as [|b bs]; [done|]. unfold Reader_Read. cbn [app].
  change (b :: bs ++ rest) with ((b :: bs) ++ rest).
  rewrite take_app_length, drop_app_length, length_app.
  replace (length (b :: bs) - (length (b :: bs) + length rest))%nat with 0%nat by lia.
  cbn [replicate]. by rewrite app_nil_r.
Qed.

(** A length prefix and the bytes. *)
Lemma decodes_prefixed {A} (k : bytes -> reader A) s v :
  s <> [] -> zlen s < 65536 -> (forall rest, k s rest = Ok (v, rest)) ->
  decodes (length ← read_le 2; val ← Reader_Read (Z.to_nat length); k val)
    (le_bytes 2 (u16 (zlen s)) ++ s) v.
Proof.
  intros Hne Hs Hk. pose proof (zlen_nonneg s).
  rewrite uwrap_small by (ints; lia).
  eapply decodes_bind; [apply decodes_read_le; ints; lia|]. cbv beta.
  eapply decodes_bind_ret; [apply decodes_Reader_Read; [unfold zlen; lia|done]|].
  intros rest. apply Hk.
Qed.

Lemma value_ok_name k v : value_ok reg k v -> k ∈ param_names /\ k <> [] /\ zlen k < 100.
Proof.
  assert (Forall (fun k => k <> [] /\ zlen k < 100) param_names) as H.
  { repeat constructor; vm_compute; congruence. }
  intros Hv. assert (k ∈ param_names) as Hin by (destruct Hv; unfold param_names; set_solver).
  split; [done|]. by apply (proj1 (list.Forall_forall _ _) H).
Qed.

Lemma marshal_value_ok k v :
  value_ok reg k v -> exists bs, marshal_value reg k v = Ok bs /\ decodes (read_value reg k) bs v.
Proof.
  intros [pk [kd E] Hu Hlen|i Hi|d Hd|b|i Hi|s Hne Hs]; unfold marshal_value, read_value; cbn.
  - destruct (WireEncodeKey reg pk) as [bts|] eqn:Ew.
    2: { unfold WireEncodeKey in Ew. by rewrite E in Ew. }
    pose proof (WireDecode_encode reg Hreg pk bts Hu Ew) as Hd.
    assert (bts <> [] /\ zlen bts < 65536) as [Hne Hb].
    { unfold WireEncodeKey in Ew. rewrite E in Ew. apply (inj Ok) in Ew as <-.
      rewrite zlen_app, zlen_le_bytes. split; [done|lia]. }
    eexists. split; [done|].
    apply (decodes_prefixed (fun val => pubkey ← rlift (WireDecodePubKey reg val); mret (PVKey (Some pubkey))));
      [done..|]. intros rest. unfold rlift. by rewrite Hd.
  - eexists. split; [done|].
    eapply decodes_bind_ret; [apply decodes_read_sle; [lia|exact Hi]|apply decodes_ret].
  - eexists. split; [done|].
    eapply decodes_bind_ret; [apply decodes_read_sle; [lia|exact Hd]|apply decodes_ret].
  - eexists. split; [done|]. by destruct b; intros rest.
  - eexists. split; [done|].
    eapply decodes_bind_ret; [apply decodes_read_sle; [lia|exact Hi]|apply decodes_ret].
  - eexists. split; [done|].
    apply (decodes_prefixed (fun val => mret (PVStatus val))); [done|lia|done].
Qed.

(** What the decoding loop accumulates. *)
Definition add_update (pu : ParamUpdates) (m : ParamUpdates) (k : bytes) : ParamUpdates :=
  match pu !! k with Some v => <[k := v]> m | None => m end.

Lemma marshal_updates_ok pu keys acc :
  updates_ok reg pu -> (forall k, k ∈ keys -> is_Some (pu !! k)) ->
  exists bs, marshal_updates reg pu keys = Ok bs /\
    decodes (read_updates reg (length keys) acc) bs (foldl (add_update pu) acc keys).
Proof.
  intros Hok. revert acc. induction keys as [|k keys IH]; intros acc Hin.
  { exists []. split; [done|apply decodes_ret]. }
  destruct (Hin k ltac:(constructor)) as [v Hv].
  destruct (marshal_value_ok k v (Hok k v Hv)) as (vb & Evb & Dvb).
  destruct (value_ok_name k v (Hok k v Hv)) as (_ & Hne & Hlen).
  destruct (IH (<[k := v]> acc)) as (rest & Erest & Drest); [intros; apply Hin; by constructor|].
  cbn [marshal_updates length read_updates foldl]. unfold add_update at 2. rewrite Hv, Evb.
  cbn [mbind result_bind]. rewrite Erest. eexists. split; [done|].
  pose proof (zlen_nonneg k). rewrite uwrap_small by (ints; lia).
  eapply decodes_bind; [apply decodes_read_le; ints; lia|]. cbv beta.
  eapply decodes_bind; [apply decodes_Reader_Read; [unfold zlen; lia|done]|]. cbv beta.
  eapply decodes_bind; [exact Dvb|exact Drest].
Qed.

Lemma foldl_add_update pu keys acc k :
  (forall k, k ∈ keys -> is_Some (pu !! k)) ->
  foldl (add_update pu) acc keys !! k = if decide (k ∈ keys) then pu !! k else acc !! k.
Proof.
  revert acc. induction keys as [|k' keys IH]; intros acc Hin; [by rewrite decide_False by apply not_elem_of_nil|].
  cbn [foldl]. rewrite IH by (intros; apply Hin; by constructor).
  destruct (Hin k' ltac:(constructor)) as [v Hv]. unfold add_update. rewrite Hv.
  destruct (decide (k ∈ keys)) as [Hk|Hk].
  - by rewrite decide_True by (by constructor).
  - destruct (decide (k = k')) as [->|Hne].
    + by rewrite lookup_insert_eq, decide_True by constructor.
    + rewrite lookup_insert_ne by done. rewrite decide_False; [done|].
      by rewrite elem_of_cons; intros [?|?].
Qed.

Lemma updates_size pu : updates_ok reg pu -> (size pu <= 6)%nat.
Proof.
  intros Hok. rewrite <- size_dom.
  etrans; [apply (subseteq_size (dom pu) (list_to_set param_names : gset (list byte)))|].
  - intros k [v Hv]%elem_of_dom. rewrite elem_of_list_to_set.
    by destruct (value_ok_name k v (Hok k v Hv)).
  - apply Nat.leb_le. by vm_compute.
Qed.

Lemma decodes_ParamUpdates pu :
  updates_ok reg pu -> exists bs, ParamUpdates_MarshalBinary reg pu = Ok bs /\
    decodes (ParamUpdates_read reg) bs pu.
Proof.
  intros Hok. unfold ParamUpdates_MarshalBinary.
  assert (forall k, k ∈ sorted_ids (dom pu) -> is_Some (pu !! k)) as Hin.
  { intros k. by rewrite elem_of_sorted_ids, elem_of_dom. }
  destruct (marshal_updates_ok pu (sorted_ids (dom pu)) ∅ Hok Hin) as (bs & E & D).
  pose proof (updates_size pu Hok) as Hsz. rewrite E. cbn [mbind result_bind].
  eexists. split; [done|]. unfold ParamUpdates_read.
  eapply decodes_bind; [apply decodes_read_le; const_range|]. cbv beta.
  change (negb (0 =? 0)) with false. cbv iota.
  rewrite uwrap_small by (ints; lia).
  eapply decodes_bind; [apply decodes_read_le; ints; lia|]. cbv beta. rewrite Nat2Z.id.
  rewrite length_sorted_ids, size_dom in D.
  replace pu with (foldl (add_update pu) ∅ (sorted_ids (dom pu))) at 2; [exact D|].
  apply map_eq. intros k. rewrite foldl_add_update by done.
  destruct (decide (k ∈ sorted_ids (dom pu))) as [Hk|Hk]; [done|].
  rewrite elem_of_sorted_ids, not_elem_of_dom in Hk. by rewrite Hk.
Qed.
End roundtrip.

(** ** Merging is updating the map of fields *)

(** [ToMap]. *)
Definition ToMap (np : NetworkParameters) : ParamUpdates :=
  <[ParamNameLeader := PVKey (np_Leader np)]>
  (<[ParamNameMaxBlockSize := PVInt64 (MaxBlockSize np)]>
  (<[ParamNameJoinExpiry := PVDuration (JoinExpiry np)]>
  (<[ParamNameDisabledGasCosts := PVBool (DisabledGasCosts np)]>
  (<[ParamNameMaxVotesPerTx := PVInt64 (MaxVotesPerTx np)]>
  (<[ParamNameMigrationStatus := PVStatus (MigrationStatus np)]> ∅))))).

(** A value has the type of its parameter. *)
Definition typed_value (k : bytes) (v : param_value) : bool :=
  match v with
  | PVKey _ => bool_decide (k = ParamNameLeader)
  | PVInt64 _ => bool_decide (k = ParamNameMaxBlockSize) || bool_decide (k = ParamNameMaxVotesPerTx)
  | PVDuration _ => bool_decide (k = ParamNameJoinExpiry)
  | PVBool _ => bool_decide (k = ParamNameDisabledGasCosts)
  | PVStatus _ => bool_decide (k = ParamNameMigrationStatus)
  | PVOther => false
  end.

Lemma names_distinct : NoDup param_names.
Proof. apply (bool_decide_unpack _). by vm_compute. Qed.

(** The pairwise inequalities of the names. *)
Ltac names :=
  pose proof names_distinct as Hnames; unfold param_names in Hnames;
  repeat (apply list.NoDup_cons in Hnames as [?Hname Hnames]);
  repeat match goal with
  | H : _ ∉ _ :: _ |- _ => apply not_elem_of_cons in H as [? H]
  end.

#[export] Instance ToMap_inj : Inj (=) (=) ToMap.
Proof.
  intros np np' E.
  assert (forall k, ToMap np !! k = ToMap np' !! k) as H by (intros; by rewrite E).
  assert (forall f : NetworkParameters -> param_value, forall k,
    ToMap np !! k = Some (f np) -> ToMap np' !! k = Some (f np') -> f np = f np') as Hf.
  { intros f k E1 E2. specialize (H k). congruence. }
  pose proof (Hf (fun np => PVKey (np_Leader np)) ParamNameLeader) as K1.
  pose proof (Hf (fun np => PVInt64 (MaxBlockSize np)) ParamNameMaxBlockSize) as K2.
  pose proof (Hf (fun np => PVDuration (JoinExpiry np)) ParamNameJoinExpiry) as K3.
  pose proof (Hf (fun np => PVBool (DisabledGasCosts np)) ParamNameDisabledGasCosts) as K4.
  pose proof (Hf (fun np => PVInt64 (MaxVotesPerTx np)) ParamNameMaxVotesPerTx) as K5.
  pose proof (Hf (fun np => PVStatus (MigrationStatus np)) ParamNameMigrationStatus) as K6.
  clear H Hf E. names. unfold ToMap in *. rewrite !lookup_insert in *.
  repeat (case_decide; try congruence).
  specialize (K1 eq_refl eq_refl). specialize (K2 eq_refl eq_refl). specialize (K3 eq_refl eq_refl).
  specialize (K4 eq_refl eq_refl). specialize (K5 eq_refl eq_refl). specialize (K6 eq_refl eq_refl).
  destruct np, np'; cbn in K1, K2, K3, K4, K5, K6; congruence.
Qed.

(** Updating one entry of the map of fields. *)
Ltac to_map :=
  apply map_eq; intros j; unfold ToMap; cbn [np_Leader MaxBlockSize JoinExpiry DisabledGasCosts
    MaxVotesPerTx MigrationStatus];
  rewrite !lookup_insert;
  repeat (case_decide; subst; try reflexivity; try congruence).

Lemma merge_one_typed k v np :
  if typed_value k v
  then exists np', merge_one (k, v) np = (Ok tt, np') /\ ToMap np' = <[k := v]> (ToMap np)
  else exists e, merge_one (k, v) np = (Err e, np).
Proof.
  names. unfold merge_one, typed_value.
  destruct v; repeat (case_bool_decide; subst; try congruence); cbn [orb];
    eexists; try reflexivity; split; try reflexivity; to_map.
Qed.

Lemma MergeUpdates_typed order np :
  NoDup order.*1 -> Forall (fun kv => typed_value kv.1 kv.2 = true) order ->
  exists np', MergeUpdates order np = (Ok tt, np') /\ ToMap np' = list_to_map order ∪ ToMap np.
Proof.
  intros Hnd Ht. revert np Hnd.
  induction Ht as [|[k v] order Hkv Ht IH]; intros np Hnd; cbn [MergeUpdates].
  { exists np. split; [done|]. cbn. by rewrite map_empty_union. }
  cbn [fmap list_fmap fst] in Hnd. apply list.NoDup_cons in Hnd as [Hk Hnd].
  pose proof (merge_one_typed k v np) as Hm. cbn in Hkv. rewrite Hkv in Hm.
  destruct Hm as (np1 & E1 & M1). rewrite (action_bind_Ok _ _ _ _ _ E1).
  destruct (IH np1 Hnd) as (np' & E' & M'). exists np'. split; [done|].
  rewrite M', M1, list_to_map_cons, <- insert_union_l. symmetry.
  apply insert_union_r. by apply not_elem_of_list_to_map_1.
Qed.

Lemma MergeUpdates_untyped order np :
  Exists (fun kv => typed_value kv.1 kv.2 = false) order ->
  exists e np', MergeUpdates order np = (Err e, np').
Proof.
  intros He. revert np. induction order as [|[k v] order IH]; intros np; [by apply List.Exists_nil in He|].
  cbn [MergeUpdates]. pose proof (merge_one_typed k v np) as Hm.
  destruct (typed_value k v) eqn:E.
  - destruct Hm as (np1 & E1 & _). rewrite (action_bind_Ok _ _ _ _ _ E1). apply IH.
    apply List.Exists_cons in He as [Hf|?]; [cbn in Hf; congruence|done].
  - destruct Hm as (e & E1). exists e, np. unfold mbind, action_bind. by rewrite E1.
Qed.

Definition typed_updates (pu : ParamUpdates) : Prop :=
  forall k v, pu !! k = Some v -> typed_value k v = true.

Lemma order_typed pu order :
  order ≡ₚ map_to_list pu -> typed_updates pu <-> Forall (fun kv => typed_value kv.1 kv.2 = true) order.
Proof.
  intros Hp. rewrite Hp, list.Forall_forall. split.
  - intros Ht [k v] Hin. by apply Ht, elem_of_map_to_list.
  - intros H k v Hkv. by apply (H (k, v)), elem_of_map_to_list.
Qed.

Lemma order_map pu order :
  order ≡ₚ map_to_list pu -> NoDup order.*1 /\ (list_to_map order : ParamUpdates) = pu.
Proof.
  intros Hp. assert (NoDup order.*1) as Hnd by (rewrite Hp; apply NoDup_fst_map_to_list).
  split; [done|]. rewrite (list_to_map_proper order (map_to_list pu)) by done. apply list_to_map_to_list.
Qed.

Lemma ValidateUpdates_spec pu order :
  order ≡ₚ map_to_list pu -> ValidateUpdates order = Ok tt <-> typed_updates pu.
Proof.
  intros Hp. destruct (order_map pu order Hp) as [Hnd Hm].
  rewrite (order_typed pu order Hp). unfold ValidateUpdates. split.
  - intros E. destruct (decide (Forall (fun kv => typed_value kv.1 kv.2 = true) order)) as [|Hn]; [done|].
    apply not_Forall_Exists in Hn; [|apply _].
    destruct (MergeUpdates_untyped order zero_params) as (e & np' & E'); [|by rewrite E' in E].
    eapply list.Exists_impl; [exact Hn|]. intros kv ?. by apply not_true_iff_false.
  - intros Ht. by destruct (MergeUpdates_typed order zero_params Hnd Ht) as (np' & -> & _).
Qed.

(** Merging parameter updates: [ValidateUpdates] accepts exactly the updates
    whose names are known and whose values have the type of their parameter,
    and then [MergeUpdates], in any order of the map, sets exactly the named
    parameters to the new values and keeps the others. *)
Theorem MergeUpdates_correct pu order np :
  order ≡ₚ map_to_list pu ->
  (ValidateUpdates order = Ok tt <-> typed_updates pu) /\
  (typed_updates pu -> exists np', MergeUpdates order np = (Ok tt, np') /\ ToMap np' = pu ∪ ToMap np).
Proof.
  intros Hp. split; [by apply ValidateUpdates_spec|]. intros Ht.
  destruct (order_map pu order Hp) as [Hnd Hm]. apply (order_typed pu order Hp) in Ht.
  destruct (MergeUpdates_typed order np Hnd Ht) as (np' & E & M). exists np'.
  by rewrite M, Hm.
Qed.

Lemma Params_Equals_spec np np' : Params_Equals np np' = true <-> np = np'.
Proof.
  unfold Params_Equals, same_leader, pk_Equals. split.
  - rewrite !andb_true_iff, !Z.eqb_eq, bool_decide_eq_true, eqb_true_iff.
    intros [[[[[Hl ?] ?] ?] ?] ?]. destruct np as [[k|]], np' as [[k'|]]; cbn in *; try done.
    + apply bool_decide_eq_true in Hl. congruence.
    + congruence.
  - intros <-. rewrite !Z.eqb_refl, eqb_reflx, bool_decide_eq_true_2 by done.
    destruct (np_Leader np); [|done]. by rewrite bool_decide_eq_true_2 by done.
Qed.

(** [ParamUpdates.Equals] on valid updates compares the number of updates
    and the parameters that result from applying them to zero parameters, not
    the maps: an update of one parameter to its zero value equals an update of
    another parameter to its zero value. *)
Theorem ParamUpdates_Equals_spec pu pu' o o' :
  o ≡ₚ map_to_list pu -> o' ≡ₚ map_to_list pu' -> typed_updates pu -> typed_updates pu' ->
  ParamUpdates_Equals o o' = true <->
  size pu = size pu' /\ pu ∪ ToMap zero_params = pu' ∪ ToMap zero_params.
Proof.
  intros Hp Hp' Ht Ht'. destruct (order_map _ _ Hp) as [Hnd Hm], (order_map _ _ Hp') as [Hnd' Hm'].
  apply (order_typed _ _ Hp) in Ht. apply (order_typed _ _ Hp') in Ht'.
  destruct (MergeUpdates_typed o zero_params Hnd Ht) as (np & E & M).
  destruct (MergeUpdates_typed o' zero_params Hnd' Ht') as (np' & E' & M').
  assert (zlen o = Z.of_nat (size pu) /\ zlen o' = Z.of_nat (size pu')) as [L L'].
  { unfold zlen. by rewrite Hp, Hp', !length_map_to_list. }
  unfold ParamUpdates_Equals. rewrite L, L', E, E'. cbn [snd].
  rewrite Hm in M. rewrite Hm' in M'.
  destruct (Z.eqb_spec (Z.of_nat (size pu)) (Z.of_nat (size pu'))) as [Hs|Hs]; cbn [negb].
  - apply Nat2Z.inj in Hs. destruct (_ && _) eqn:Hz.
    + apply andb_true_iff in Hz as [Hz%Z.eqb_eq Hz'%Z.eqb_eq]. split; [|done]. intros _. split; [done|].
      rewrite (map_size_empty_inv pu), (map_size_empty_inv pu') by lia. done.
    + rewrite Params_Equals_spec, <- M, <- M'. split; [by intros ->|]. by intros [_ ?%(inj ToMap)].
  - split; [done|]. intros [? _]. lia.
Qed.

(** The encoding of an update to the empty migration status. *)
Definition empty_status_bytes : bytes :=
  le_bytes 2 0 ++ le_bytes 2 1 ++ le_bytes 2 16 ++ ParamNameMigrationStatus ++ le_bytes 2 0.

(** Parameter updates round trip: valid updates with a nonempty migration
    status marshal, and the bytes unmarshal to the same map; an empty migration
    status marshals to bytes that do not unmarshal. *)
Theorem ParamUpdates_roundtrip reg pu :
  reg_ok reg -> updates_ok reg pu ->
  (exists bs, ParamUpdates_MarshalBinary reg pu = Ok bs /\
     ParamUpdates_UnmarshalBinary reg (Some bs) = Ok pu) /\
  ParamUpdates_MarshalBinary reg {[ParamNameMigrationStatus := PVStatus []]} = Ok empty_status_bytes /\
  ParamUpdates_UnmarshalBinary reg (Some empty_status_bytes) = Err ErrEOF.
Proof.
  intros Hreg Hok. split.
  - destruct (decodes_ParamUpdates reg Hreg pu Hok) as (bs & E & D). exists bs. split; [done|].
    unfold ParamUpdates_UnmarshalBinary. change (slice_bytes (Some bs)) with bs.
    by rewrite (decodes_full _ _ _ D).
  - split; vm_compute; reflexivity.
Qed.

(** ** Examples *)

Definition ex_updates : ParamUpdates :=
  {[ParamNameMaxBlockSize := PVInt64 6000; ParamNameMigrationStatus := PVStatus (str "done")]}.
Definition zero_block_size : ParamUpdates := {[ParamNameMaxBlockSize := PVInt64 0]}.
Definition zero_max_votes : ParamUpdates := {[ParamNameMaxVotesPerTx := PVInt64 0]}.

Lemma ex_updates_ok : updates_ok test_registry ex_updates.
Proof.
  intros k v. unfold ex_updates.
  intros [[<- <-]|[_ [<- <-]%lookup_singleton_Some]]%lookup_insert_Some.
  - constructor. const_range.
  - constructor; [discriminate|by vm_compute].
Qed.

Lemma ex_updates_typed : typed_updates ex_updates.
Proof.
  intros k v. unfold ex_updates.
  by intros [[<- <-]|[_ [<- <-]%lookup_singleton_Some]]%lookup_insert_Some; vm_compute.
Qed.

Lemma MergeUpdates_correct_witness :
  exists np', MergeUpdates (map_to_list ex_updates) zero_params = (Ok tt, np') /\
    ToMap np' = ex_updates ∪ ToMap zero_params.
Proof.
  apply (MergeUpdates_correct ex_updates (map_to_list ex_updates) zero_params); [reflexivity|].
  apply ex_updates_typed.
Defined.

Lemma ParamUpdates_Equals_spec_witness :
  ParamUpdates_Equals (map_to_list zero_block_size) (map_to_list zero_max_votes) = true /\
  zero_block_size <> zero_max_votes.
Proof.
  split.
  - apply (ParamUpdates_Equals_spec zero_block_size zero_max_votes); [reflexivity..| | |].
    + intros k v. unfold zero_block_size. by intros [<- <-]%lookup_singleton_Some; vm_compute.
    + intros k v. unfold zero_max_votes. by intros [<- <-]%lookup_singleton_Some; vm_compute.
    + split; [by vm_compute|]. apply (bool_decide_unpack _). by vm_compute.
  - apply (bool_decide_unpack _). by vm_compute.
Defined.

Lemma ParamUpdates_roundtrip_witness :
  exists bs, ParamUpdates_MarshalBinary test_registry ex_updates = Ok bs /\
    ParamUpdates_UnmarshalBinary test_registry (Some bs) = Ok ex_updates.
Proof.
  exact (proj1 (ParamUpdates_roundtrip test_registry ex_updates test_registry_ok ex_updates_ok)).
Defined.
