(* ===== verification/Payloads.v ===== *)
(** * Transaction payloads

    The payload types of src/core/types/payloads.go with their binary codecs
    and [UnmarshalPayload], and the [DataType] codec of
    src/core/types/data_types.go.  A payload's pointers ([To],
    [ResolutionID], [Value]) are options where the code tests them. *)

From S2P Require Import Prelude.
From S2P Require Import Wire.
From S2P Require Import BigInt.
From S2P Require Import Keys.
From S2P Require Import Ident.
From S2P Require Import Tx.
From Stdlib Require Import Strings.Byte.

#[local] Open Scope Z_scope.

Definition PayloadTypeRawStatement : bytes := str "raw_statement".
Definition PayloadTypeExecute : bytes := str "execute".
Definition PayloadTypeTransfer : bytes := str "transfer".
Definition PayloadTypeValidatorJoin : bytes := str "validator_join".
Definition PayloadTypeValidatorLeave : bytes := str "validator_leave".
Definition PayloadTypeValidatorRemove : bytes := str "validator_remove".
Definition PayloadTypeValidatorApprove : bytes := str "validator_approve".
Definition PayloadTypeValidatorVoteIDs : bytes := str "validator_vote_ids".
Definition PayloadTypeValidatorVoteBodies : bytes := str "validator_vote_bodies".
Definition PayloadTypeCreateResolution : bytes := str "create_resolution".
Definition PayloadTypeApproveResolution : bytes := str "approve_resolution".
Definition PayloadTypeDeleteResolution : bytes := str "delete_resolution".

Definition ErrUnknownPayloadType : error := ErrSentinel "unknown payload type".

(** All payloads start with a version 0 of two bytes. *)
Definition read_version (e : error) : reader unit :=
  version ← read_le 2; if negb (version =? 0) then rfail e else mret tt.

(** ** Data types and encoded values *)

Record DataType := mkDataType { dt_Name : bytes; IsArray : bool; Metadata : Z * Z }.

Definition DataType_SerializeSize (c : DataType) : Z := 2 + 4 + zlen (dt_Name c) + 1 + 4.

Definition DataType_MarshalBinary (c : DataType) : bytes :=
  be_bytes 2 0 ++ be_bytes 4 (u32 (zlen (dt_Name c))) ++ dt_Name c ++ bool_byte (IsArray c) ++
  be_bytes 2 (Metadata c).1 ++ be_bytes 2 (Metadata c).2.

(** [UnmarshalBinary] of a zero [DataType]. *)
Definition DataType_UnmarshalBinary (data : bytes) : result DataType :=
  if zlen data <? 6 then Err (ErrMsg "invalid data length")
  else if negb (be_value (take 2 data) =? 0) then Err (ErrMsg "invalid tuple data, unknown version")
  else
    let nameLen := be_value (take 4 (drop 2 data)) in
    if zlen data <? 6 + nameLen + 1 + 2 * 2 then Err (ErrMsg "invalid data length")
    else
      let rest := drop 6 data in
      let name := take (Z.to_nat nameLen) rest in
      let rest := drop (Z.to_nat nameLen) rest in
      match rest with
      | [] => Err (ErrPanic "index out of range")
      | flag :: rest =>
          isArray ← (match flag with
                     | x00 => Ok false
                     | x01 => Ok true
                     | _ => Err (ErrMsg "invalid data length")
                     end);
          let c := mkDataType name isArray (be_value (take 2 rest), be_value (take 2 (drop 2 rest))) in
          if negb (6 + nameLen + 1 + 2 + 2 =? DataType_SerializeSize c)
          then Err (ErrMsg "invalid data length")
          else Ok c
      end.

Record EncodedValue := mkEncodedValue { ev_DataType : DataType; ev_Data : list slice }.

Definition EncodedValue_MarshalBinary (e : EncodedValue) : bytes :=
  le_bytes 2 0 ++ WriteBytes (Some (DataType_MarshalBinary (ev_DataType e))) ++
  le_bytes 2 (u16 (zlen (ev_Data e))) ++ concat (map WriteBytes (ev_Data e)).

Definition EncodedValue_read : reader EncodedValue :=
  _ ← read_version (ErrMsg "unknown version");
  typeBytes ← ReadBytes HasLen;
  ty ← rlift (DataType_UnmarshalBinary (slice_bytes typeBytes));
  dataLen ← read_le 2;
  data ← read_n (Z.to_nat dataLen) (ReadBytes HasLen);
  mret (mkEncodedValue ty data).

Definition EncodedValue_UnmarshalBinary (b : slice) : result EncodedValue :=
  '(e, _) ← EncodedValue_read (slice_bytes b); mret e.

(** An encoded value inside a payload. *)
Definition write_value (e : EncodedValue) : bytes := WriteBytes (Some (EncodedValue_MarshalBinary e)).

Definition read_value : reader EncodedValue :=
  encValBts ← ReadBytes HasLen; rlift (EncodedValue_UnmarshalBinary encValBts).

(** ** Statements and actions *)

Record NamedValue := mkNamedValue { nv_Name : bytes; nv_Value : EncodedValue }.
Record RawStatement := mkRawStatement { Statement : bytes; Parameters : list NamedValue }.

Definition write_named (p : NamedValue) : bytes := WriteString (nv_Name p) ++ write_value (nv_Value p).

Definition read_named : reader NamedValue :=
  name ← ReadString HasLen; v ← read_value; mret (mkNamedValue name v).

Definition RawStatement_MarshalBinary (r : RawStatement) : bytes :=
  le_bytes 2 0 ++ WriteString (Statement r) ++ le_bytes 2 (u16 (zlen (Parameters r))) ++
  concat (map write_named (Parameters r)).

Definition RawStatement_read : reader RawStatement :=
  _ ← read_version (ErrMsg "unsupported version");
  statement ← ReadString HasLen;
  numParams ← read_le 2;
  params ← read_n (Z.to_nat numParams) read_named;
  mret (mkRawStatement statement params).

Record ActionExecution := mkActionExecution {
  ae_Namespace : bytes; ae_Action : bytes; ae_Arguments : list (list EncodedValue) }.

Definition write_call (args : list EncodedValue) : bytes :=
  le_bytes 2 (u16 (zlen args)) ++ concat (map write_value args).

Definition read_call : reader (list EncodedValue) :=
  numArgs ← read_le 2; read_n (Z.to_nat numArgs) read_value.

Definition ActionExecution_MarshalBinary (a : ActionExecution) : bytes :=
  le_bytes 2 0 ++ WriteString (ae_Namespace a) ++ WriteString (ae_Action a) ++
  le_bytes 2 (u16 (zlen (ae_Arguments a))) ++ concat (map write_call (ae_Arguments a)).

Definition ActionExecution_read : reader ActionExecution :=
  _ ← read_version (ErrMsg "unsupported version");
  namespace ← ReadString HasLen;
  action ← ReadString HasLen;
  numCalls ← read_le 2;
  args ← read_n (Z.to_nat numCalls) read_call;
  mret (mkActionExecution namespace action args).

Record ActionCall := mkActionCall {
  ac_Namespace : bytes; ac_Action : bytes; ac_Arguments : list EncodedValue }.

Definition ActionCall_MarshalBinary (a : ActionCall) : bytes :=
  le_bytes 2 0 ++ WriteString (ac_Namespace a) ++ WriteString (ac_Action a) ++ write_call (ac_Arguments a).

Definition ActionCall_read : reader ActionCall :=
  _ ← read_version (ErrMsg "unsupported version");
  namespace ← ReadString HasLen;
  action ← ReadString HasLen;
  args ← read_call;
  mret (mkActionCall namespace action args).

Definition ActionCall_UnmarshalBinary (b : bytes) : result ActionCall :=
  '(a, _) ← ActionCall_read b; mret a.

(** ** Transfers and validators *)

Record Transfer := mkTransfer { tr_To : option AccountID; tr_Amount : option Z }.

Definition Transfer_MarshalBinary (reg : registry) (v : Transfer) : result bytes :=
  match tr_To v with
  | None => Err (ErrMsg "missing To field in transfer")
  | Some to =>
      toBts ← AccountID_MarshalBinary reg to;
      mret (le_bytes 2 0 ++ WriteBytes (Some toBts) ++ WriteBigInt (tr_Amount v))
  end.

Definition Transfer_read (reg : registry) : reader Transfer :=
  _ ← read_version (ErrMsg "unsupported transfer payload version");
  toBts ← ReadBytes HasLen;
  to ← rlift (AccountID_UnmarshalBinary reg toBts);
  amount ← ReadBigInt HasLen;
  mret (mkTransfer (Some to) amount).

Definition ValidatorJoin_MarshalBinary (power : Z) : bytes := le_bytes 2 0 ++ le_bytes 8 power.

Definition ValidatorJoin_UnmarshalBinary (b : bytes) : result Z :=
  if zlen b <? 2 + 8 then Err (ErrMsg "invalid length")
  else if negb (le_value (take 2 b) =? 0) then Err (ErrMsg "invalid version")
  else Ok (le_value (take 8 (drop 2 b))).

(** [ValidatorApprove] and [ValidatorRemove] have the same encoding; an unknown
    key type writes nothing. *)
Record ValidatorKey := mkValidatorKey { vk_Key : slice; vk_KeyType : KeyType }.

Definition ValidatorKey_MarshalBinary (reg : registry) (v : ValidatorKey) : bytes :=
  le_bytes 2 0 ++ WriteBytes (vk_Key v) ++
  (match KeyType_WriteTo reg (vk_KeyType v) with Ok b => b | Err _ => [] end).

Definition ValidatorKey_read (reg : registry) : reader ValidatorKey :=
  _ ← read_version (ErrMsg "invalid validator remove payload version");
  val ← ReadBytes HasLen;
  keyType ← KeyType_ReadFrom reg;
  mret (mkValidatorKey val keyType).

Definition ValidatorLeave_MarshalBinary : bytes := le_bytes 2 0.

Definition ValidatorLeave_UnmarshalBinary (b : bytes) : result unit :=
  if negb (zlen b =? 2) then Err (ErrMsg "invalid validator leave payload")
  else if negb (le_value b =? 0) then Err (ErrMsg "invalid validator leave payload version")
  else Ok tt.

(** ** Votes and resolutions *)

Definition UUID_UnmarshalBinary (b : slice) : result bytes :=
  if negb (slice_len b =? 16) then Err (ErrMsg "invalid UUID length") else Ok (slice_bytes b).

Definition ValidatorVoteIDs_MarshalBinary (ids : list bytes) : bytes :=
  le_bytes 2 0 ++ le_bytes 4 (u32 (zlen ids)) ++ concat (map (fun id => WriteBytes (Some id)) ids).

Definition ValidatorVoteIDs_read : reader (list bytes) :=
  _ ← read_version (ErrMsg "unknown version");
  length ← read_le 4;
  read_n (Z.to_nat length) (idBts ← ReadBytes HasLen; rlift (UUID_UnmarshalBinary idBts)).

Definition ValidatorVoteIDs_UnmarshalBinary (b : bytes) : result (list bytes) :=
  '(ids, _) ← ValidatorVoteIDs_read b; mret ids.

Definition ValidatorVoteBodies_MarshalBinary (events : list VotableEvent) : bytes :=
  le_bytes 2 0 ++ le_bytes 4 (u32 (zlen events)) ++
  concat (map (fun e => WriteBytes (Some (VotableEvent_MarshalBinary e))) events).

Definition ValidatorVoteBodies_read : reader (list VotableEvent) :=
  _ ← read_version (ErrMsg "unknown version");
  numEvents ← read_le 4;
  rLen ← rlen;
  if numEvents >? Z.min 500000 rLen then rfail (ErrMsg "invalid event count")
  else read_n (Z.to_nat numEvents)
         (evtBts ← ReadBytes HasLen; rlift (VotableEvent_UnmarshalBinary evtBts)).

Definition ValidatorVoteBodies_UnmarshalBinary (b : bytes) : result (list VotableEvent) :=
  '(evs, _) ← ValidatorVoteBodies_read b; mret evs.

Definition CreateResolution_MarshalBinary (e : VotableEvent) : bytes :=
  le_bytes 2 0 ++ VotableEvent_MarshalBinary e.

(** The version check of [CreateResolution], [ApproveResolution] and
    [DeleteResolution]; the rest of the payload. *)
Definition after_version (bts : bytes) : result bytes :=
  if zlen bts <=? 2 then Err (ErrMsg "invalid payload")
  else if negb (le_value (take 2 bts) =? 0) then Err (ErrMsg "unknown version")
  else Ok (drop 2 bts).

Definition CreateResolution_UnmarshalBinary (bts : bytes) : result VotableEvent :=
  rest ← after_version bts; VotableEvent_UnmarshalBinary (Some rest).

Definition ResolutionID_MarshalBinary (id : slice) : result bytes :=
  match id with
  | None => Err (ErrMsg "resolution ID is nil")
  | Some id => Ok (le_bytes 2 0 ++ id)
  end.

Definition ResolutionID_UnmarshalBinary (bts : bytes) : result bytes :=
  rest ← after_version bts; UUID_UnmarshalBinary (Some rest).

(** ** Payloads by type *)

Inductive Payload :=
  | PRawStatement (r : RawStatement)
  | PExecute (a : ActionExecution)
  | PTransfer (t : Transfer)
  | PValidatorJoin (power : Z)
  | PValidatorLeave
  | PValidatorRemove (v : ValidatorKey)
  | PValidatorApprove (v : ValidatorKey)
  | PValidatorVoteIDs (ids : list bytes)
  | PValidatorVoteBodies (events : list VotableEvent)
  | PCreateResolution (e : VotableEvent)
  | PApproveResolution (id : slice)
  | PDeleteResolution (id : slice).

(** The [Type] methods. *)
Definition Payload_Type (p : Payload) : bytes :=
  match p with
  | PRawStatement _ => PayloadTypeRawStatement
  | PExecute _ => PayloadTypeExecute
  | PTransfer _ => PayloadTypeTransfer
  | PValidatorJoin _ => PayloadTypeValidatorJoin
  | PValidatorLeave => PayloadTypeValidatorLeave
  | PValidatorRemove _ => PayloadTypeValidatorRemove
  | PValidatorApprove _ => PayloadTypeValidatorApprove
  | PValidatorVoteIDs _ => PayloadTypeValidatorVoteIDs
  | PValidatorVoteBodies _ => PayloadTypeValidatorVoteBodies
  | PCreateResolution _ => PayloadTypeCreateResolution
  | PApproveResolution _ => PayloadTypeApproveResolution
  | PDeleteResolution _ => PayloadTypeDeleteResolution
  end.

Definition Payload_MarshalBinary (reg : registry) (p : Payload) : result bytes :=
  match p with
  | PRawStatement r => Ok (RawStatement_MarshalBinary r)
  | PExecute a => Ok (ActionExecution_MarshalBinary a)
  | PTransfer t => Transfer_MarshalBinary reg t
  | PValidatorJoin power => Ok (ValidatorJoin_MarshalBinary power)
  | PValidatorLeave => Ok ValidatorLeave_MarshalBinary
  | PValidatorRemove v | PValidatorApprove v => Ok (ValidatorKey_MarshalBinary reg v)
  | PValidatorVoteIDs ids => Ok (ValidatorVoteIDs_MarshalBinary ids)
  | PValidatorVoteBodies events => Ok (ValidatorVoteBodies_MarshalBinary events)
  | PCreateResolution e => Ok (CreateResolution_MarshalBinary e)
  | PApproveResolution id | PDeleteResolution id => ResolutionID_MarshalBinary id
  end.

(** Unmarshalling ignores what a reader leaves. *)
Definition run_reader {A} (rd : reader A) (b : bytes) : result A := '(a, _) ← rd b; mret a.

(** [UnmarshalPayload], the entries of [payloadConcreteTypes]. *)
Definition UnmarshalPayload (reg : registry) (payloadType : bytes) (payload : bytes) : result Payload :=
  if bool_decide (payloadType = PayloadTypeRawStatement) then
    PRawStatement <$> run_reader RawStatement_read payload
  else if bool_decide (payloadType = PayloadTypeExecute) then
    PExecute <$> run_reader ActionExecution_read payload
  else if bool_decide (payloadType = PayloadTypeValidatorJoin) then
    PValidatorJoin <$> ValidatorJoin_UnmarshalBinary payload
  else if bool_decide (payloadType = PayloadTypeValidatorApprove) then
    PValidatorApprove <$> run_reader (ValidatorKey_read reg) payload
  else if bool_decide (payloadType = PayloadTypeValidatorRemove) then
    PValidatorRemove <$> run_reader (ValidatorKey_read reg) payload
  else if bool_decide (payloadType = PayloadTypeValidatorLeave) then
    (fun _ => PValidatorLeave) <$> ValidatorLeave_UnmarshalBinary payload
  else if bool_decide (payloadType = PayloadTypeTransfer) then
    PTransfer <$> run_reader (Transfer_read reg) payload
  else if bool_decide (payloadType = PayloadTypeValidatorVoteIDs) then
    PValidatorVoteIDs <$> ValidatorVoteIDs_UnmarshalBinary payload
  else if bool_decide (payloadType = PayloadTypeValidatorVoteBodies) then
    PValidatorVoteBodies <$> ValidatorVoteBodies_UnmarshalBinary payload
  else if bool_decide (payloadType = PayloadTypeCreateResolution) then
    PCreateResolution <$> CreateResolution_UnmarshalBinary payload
  else if bool_decide (payloadType = PayloadTypeApproveResolution) then
    (fun id => PApproveResolution (Some id)) <$> ResolutionID_UnmarshalBinary payload
  else Err ErrUnknownPayloadType.

(** ** Round trips *)

Record dt_ok (c : DataType) : Prop := mkDtOk {
  do_name : zlen (dt_Name c) < 4294960000;
  do_meta1 : is_uint 16 (Metadata c).1;
  do_meta2 : is_uint 16 (Metadata c).2
}.

Record ev_ok (e : EncodedValue) : Prop := mkEvOk {
  eo_type : dt_ok (ev_DataType e);
  eo_count : zlen (ev_Data e) < 65536;
  eo_data : Forall slice_fits32 (ev_Data e);
  eo_size : zlen (EncodedValue_MarshalBinary e) < MaxUint32
}.

Lemma zlen_be_bytes n z : zlen (be_bytes n z) = Z.of_nat n.
Proof. unfold zlen. by rewrite length_be_bytes. Qed.

Lemma DataType_Unmarshal_Marshal c :
  dt_ok c -> DataType_UnmarshalBinary (DataType_MarshalBinary c) = Ok c.
Proof.
  intros [Hn H1 H2]. unfold DataType_UnmarshalBinary, DataType_MarshalBinary.
  pose proof (zlen_nonneg (dt_Name c)) as Hpos.
  rewrite (uwrap_small 32) by (ints; lia).
  rewrite (take_app_length' (be_bytes 2 0)), (drop_app_length' (be_bytes 2 0)) by (by rewrite length_be_bytes).
  rewrite be_value_bytes. change (negb (0 mod _ =? 0)) with false. cbv iota.
  rewrite (take_app_length' (be_bytes 4 _)) by (by rewrite length_be_bytes).
  rewrite be_value_bytes, (Z.mod_small (zlen _)) by (ints; lia). cbv zeta.
  rewrite !zlen_app, !zlen_be_bytes. change (zlen (bool_byte (IsArray c))) with 1.
  rewrite (proj2 (Z.ltb_ge _ 6)), (proj2 (Z.ltb_ge _ _)) by lia.
  rewrite (app_assoc (be_bytes 2 0)), drop_app_length' by (by rewrite length_app, !length_be_bytes).
  replace (Z.to_nat (zlen (dt_Name c))) with (length (dt_Name c)) by (unfold zlen; lia).
  rewrite take_app_length, drop_app_length. cbn [bool_byte app].
  unfold mbind at 1, result_bind at 1.
  assert ((match (if IsArray c then x01 else x00) with
           | x00 => Ok false | x01 => Ok true | _ => Err (ErrMsg "invalid data length") end)
          = Ok (IsArray c)) as -> by by destruct (IsArray c).
  rewrite take_app_length', drop_app_length' by (by rewrite length_be_bytes).
  rewrite <- (app_nil_r (be_bytes 2 (Metadata c).2)), take_app_length' by (by rewrite length_be_bytes).
  rewrite !be_value_bytes, !Z.mod_small by (apply H1 || apply H2).
  assert ((6 + zlen (dt_Name c) + 1 + 2 + 2 =? DataType_SerializeSize
    (mkDataType (dt_Name c) (IsArray c) ((Metadata c).1, (Metadata c).2))) = true) as ->
    by (apply Z.eqb_eq; unfold DataType_SerializeSize; cbn; lia).
  by destruct c as [? ? []].
Qed.

Lemma decodes_version e : decodes (read_version e) (le_bytes 2 0) tt.
Proof.
  eapply decodes_bind_ret; [apply decodes_read_le; const_range|]. apply decodes_ret.
Qed.

Lemma decodes_list {A} (rd : reader A) (enc : A -> bytes) l w :
  (w = 2%nat \/ w = 4%nat) -> zlen l < 2 ^ (8 * Z.of_nat w) ->
  Forall (fun a => decodes rd (enc a) a) l ->
  decodes (n ← read_le w; read_n (Z.to_nat n) rd)
    (le_bytes w (uwrap (8 * Z.of_nat w) (zlen l)) ++ concat (map enc l)) l.
Proof.
  intros Hw Hl Hall. pose proof (zlen_nonneg l).
  rewrite uwrap_small by (split; lia).
  eapply decodes_bind; [apply decodes_read_le; split; lia|]. cbv beta.
  unfold zlen. rewrite Nat2Z.id. by apply decodes_read_n.
Qed.

Lemma decodes_EncodedValue e : ev_ok e -> decodes EncodedValue_read (EncodedValue_MarshalBinary e) e.
Proof.
  intros [Hty Hc Hd Hs]. unfold EncodedValue_read, EncodedValue_MarshalBinary.
  eapply decodes_bind; [apply decodes_version|]. cbv beta.
  eapply decodes_bind.
  { apply decodes_ReadBytes. unfold slice_fits32.
    change (slice_len (Some (DataType_MarshalBinary (ev_DataType e)))) with (zlen (DataType_MarshalBinary (ev_DataType e))).
    unfold DataType_MarshalBinary. rewrite !zlen_app, !zlen_be_bytes.
    change (zlen (bool_byte _)) with 1. destruct Hty. unfold MaxUint32. lia. }
  cbv beta. eapply decodes_bind_nil; [apply decodes_rlift; by apply DataType_Unmarshal_Marshal|]. cbv beta.
  apply decodes_assoc. eapply decodes_bind_ret.
  { apply (decodes_list _ WriteBytes _ 2); [by left|done|].
    eapply list.Forall_impl; [exact Hd|]. intros s Hf. by apply decodes_ReadBytes. }
  destruct e. apply decodes_ret.
Qed.

Lemma decodes_value e : ev_ok e -> decodes read_value (write_value e) e.
Proof.
  intros Hok. pose proof Hok as [_ _ _ Hs]. unfold read_value, write_value.
  eapply decodes_bind_ret; [by apply decodes_ReadBytes|]. cbv beta.
  apply decodes_rlift. unfold EncodedValue_UnmarshalBinary.
  change (slice_bytes (Some (EncodedValue_MarshalBinary e))) with (EncodedValue_MarshalBinary e).
  by rewrite (decodes_full _ _ _ (decodes_EncodedValue e Hok)).
Qed.

Definition str_fits (s : bytes) : Prop := zlen s < MaxUint32.

Definition raw_ok (r : RawStatement) : Prop :=
  str_fits (Statement r) /\ zlen (Parameters r) < 65536 /\
  Forall (fun p => str_fits (nv_Name p) /\ ev_ok (nv_Value p)) (Parameters r).

Lemma decodes_RawStatement r : raw_ok r -> decodes RawStatement_read (RawStatement_MarshalBinary r) r.
Proof.
  intros (Hs & Hc & Hp). unfold RawStatement_read, RawStatement_MarshalBinary.
  eapply decodes_bind; [apply decodes_version|]. cbv beta.
  eapply decodes_bind; [by apply decodes_ReadString|]. cbv beta. apply decodes_assoc.
  eapply decodes_bind_ret.
  { apply (decodes_list _ write_named _ 2); [by left|done|].
    eapply list.Forall_impl; [exact Hp|]. intros p [Hn Hv]. unfold write_named.
    eapply decodes_bind; [by apply decodes_ReadString|].
    eapply decodes_bind_ret; [by apply decodes_value|]. destruct p. apply decodes_ret. }
  destruct r. apply decodes_ret.
Qed.

Definition call_ok (args : list EncodedValue) : Prop := zlen args < 65536 /\ Forall ev_ok args.

Lemma decodes_call args : call_ok args -> decodes read_call (write_call args) args.
Proof.
  intros [Hc Ha]. apply (decodes_list _ write_value _ 2); [by left|done|].
  eapply list.Forall_impl; [exact Ha|]. intros. by apply decodes_value.
Qed.

Definition action_ok (a : ActionExecution) : Prop :=
  str_fits (ae_Namespace a) /\ str_fits (ae_Action a) /\ zlen (ae_Arguments a) < 65536 /\
  Forall call_ok (ae_Arguments a).

Lemma decodes_ActionExecution a :
  action_ok a -> decodes ActionExecution_read (ActionExecution_MarshalBinary a) a.
Proof.
  intros (Hn & Ha & Hc & Hcalls). unfold ActionExecution_read, ActionExecution_MarshalBinary.
  eapply decodes_bind; [apply decodes_version|]. cbv beta.
  eapply decodes_bind; [by apply decodes_ReadString|]. cbv beta.
  eapply decodes_bind; [by apply decodes_ReadString|]. cbv beta. apply decodes_assoc.
  eapply decodes_bind_ret.
  { apply (decodes_list _ write_call _ 2); [by left|done|].
    eapply list.Forall_impl; [exact Hcalls|]. intros. by apply decodes_call. }
  destruct a. apply decodes_ret.
Qed.

Lemma decodes_ActionCall a :
  str_fits (ac_Namespace a) -> str_fits (ac_Action a) -> call_ok (ac_Arguments a) ->
  decodes ActionCall_read (ActionCall_MarshalBinary a) a.
Proof.
  intros Hn Ha Hc. unfold ActionCall_read, ActionCall_MarshalBinary.
  eapply decodes_bind; [apply decodes_version|]. cbv beta.
  eapply decodes_bind; [by apply decodes_ReadString|]. cbv beta.
  eapply decodes_bind; [by apply decodes_ReadString|]. cbv beta.
  eapply decodes_bind_ret; [by apply decodes_call|]. destruct a. apply decodes_ret.
Qed.

Section payloads.
Context (reg : registry) (Hreg : reg_ok reg).

Lemma decodes_Transfer t bs to :
  tr_To t = Some to -> slice_len (Identifier to) < MaxUint32 - 10 -> bigint_fits (tr_Amount t) ->
  Transfer_MarshalBinary reg t = Ok bs -> decodes (Transfer_read reg) bs t.
Proof.
  intros Eto Hlen Ha Hm. unfold Transfer_MarshalBinary in Hm. rewrite Eto in Hm.
  apply result_bind_Ok in Hm as (toBts & Et & <-%(inj Ok)).
  pose proof (AccountID_MarshalBinary_length reg _ _ Et) as Hl.
  eapply decodes_bind; [apply decodes_version|]. cbv beta.
  eapply decodes_bind.
  { apply decodes_ReadBytes. unfold slice_fits32.
    change (slice_len (Some toBts)) with (zlen toBts). lia. }
  cbv beta. eapply decodes_bind_nil.
  { apply decodes_rlift, (AccountID_Unmarshal_Marshal reg Hreg to); [unfold slice_fits32; lia|done]. }
  cbv beta. eapply decodes_bind_ret; [by apply decodes_ReadBigInt|].
  destruct t as [to' a]. cbn in Eto. subst. apply decodes_ret.
Qed.

Definition vkey_ok (v : ValidatorKey) : Prop :=
  slice_fits32 (vk_Key v) /\ is_Some (keyTypes reg !! vk_KeyType v).

Lemma decodes_ValidatorKey v :
  vkey_ok v -> decodes (ValidatorKey_read reg) (ValidatorKey_MarshalBinary reg v) v.
Proof.
  intros [Hk [kd Ekd]]. unfold ValidatorKey_MarshalBinary.
  destruct (KeyType_WriteTo reg (vk_KeyType v)) as [kb|] eqn:E.
  2: { unfold KeyType_WriteTo, KeyTypeDefinition in E. by rewrite Ekd in E. }
  eapply decodes_bind; [apply decodes_version|]. cbv beta.
  eapply decodes_bind; [by apply decodes_ReadBytes|]. cbv beta.
  eapply decodes_bind_ret; [by apply decodes_KeyType|]. destruct v. apply decodes_ret.
Qed.

Lemma UUID_Unmarshal id : zlen id = 16 -> UUID_UnmarshalBinary (Some id) = Ok id.
Proof.
  intros H. unfold UUID_UnmarshalBinary. change (slice_len (Some id)) with (zlen id).
  by rewrite H.
Qed.

Lemma decodes_VoteIDs ids :
  zlen ids < 4294967296 -> Forall (fun id => zlen id = 16) ids ->
  decodes ValidatorVoteIDs_read (ValidatorVoteIDs_MarshalBinary ids) ids.
Proof.
  intros Hc Hids. eapply decodes_bind; [apply decodes_version|]. cbv beta.
  apply (decodes_list _ (fun id => WriteBytes (Some id)) _ 4); [by right|done|].
  eapply list.Forall_impl; [exact Hids|]. intros id Hid. cbn beta in Hid.
  eapply decodes_bind_ret.
  { apply decodes_ReadBytes. unfold slice_fits32, MaxUint32. change (slice_len (Some id)) with (zlen id). lia. }
  cbv beta. by apply decodes_rlift, UUID_Unmarshal.
Qed.

Definition event_ok (e : VotableEvent) : Prop :=
  zlen (ev_Type e) < 1000000000 /\ slice_len (ev_Body e) < 1000000000.

Lemma VotableEvent_Unmarshal_Marshal e :
  event_ok e -> VotableEvent_UnmarshalBinary (Some (VotableEvent_MarshalBinary e)) = Ok e.
Proof.
  intros [Ht Hb]. unfold VotableEvent_UnmarshalBinary.
  change (slice_bytes (Some (VotableEvent_MarshalBinary e))) with (VotableEvent_MarshalBinary e).
  assert (decodes VotableEvent_read (VotableEvent_MarshalBinary e) e) as D.
  { apply decodes_VotableEvent; unfold slice_fits32, MaxUint32; lia. }
  by rewrite (decodes_full _ _ _ D).
Qed.

Lemma zlen_WriteBytes_le s : 4 <= zlen (WriteBytes s) <= 4 + slice_len s.
Proof.
  pose proof (zlen_nonneg (slice_bytes s)).
  destruct s as [d|]; cbn [WriteBytes]; [rewrite zlen_app|]; rewrite zlen_le_bytes; unfold slice_len in *; cbn in *; lia.
Qed.

Lemma zlen_VotableEvent e :
  event_ok e -> zlen (VotableEvent_MarshalBinary e) < MaxUint32.
Proof.
  intros [Ht Hb]. unfold VotableEvent_MarshalBinary, WriteString. rewrite !zlen_app, zlen_be_bytes.
  pose proof (zlen_WriteBytes_le (Some (ev_Type e))). pose proof (zlen_WriteBytes_le (ev_Body e)).
  change (slice_len (Some (ev_Type e))) with (zlen (ev_Type e)) in *. unfold MaxUint32. lia.
Qed.

Lemma decodes_VoteBodies evs :
  zlen evs <= 500000 -> Forall event_ok evs ->
  decodes ValidatorVoteBodies_read (ValidatorVoteBodies_MarshalBinary evs) evs.
Proof.
  intros Hc Hevs. pose proof (zlen_nonneg evs) as Hpos.
  eapply decodes_bind; [apply decodes_version|]. cbv beta.
  rewrite uwrap_small by (ints; lia).
  eapply decodes_bind; [apply decodes_read_le; ints; lia|]. cbv beta.
  assert (zlen evs <= zlen (concat (map (fun e => WriteBytes (Some (VotableEvent_MarshalBinary e))) evs))) as Hlen.
  { clear. induction evs as [|e evs IH]; [done|]. cbn [map concat]. rewrite zlen_cons, zlen_app.
    pose proof (zlen_WriteBytes_le (Some (VotableEvent_MarshalBinary e))). lia. }
  apply (decodes_len_guard (fun n => zlen evs >? Z.min 500000 n)).
  { intros n Hn. rewrite Z.gtb_ltb. apply Z.ltb_ge. lia. }
  unfold zlen at 1. rewrite Nat2Z.id. apply (decodes_read_n _ (fun e => WriteBytes (Some (VotableEvent_MarshalBinary e)))).
  eapply list.Forall_impl; [exact Hevs|]. intros e He.
  eapply decodes_bind_ret; [apply decodes_ReadBytes; by apply zlen_VotableEvent|]. cbv beta.
  by apply decodes_rlift, VotableEvent_Unmarshal_Marshal.
Qed.

Lemma after_version_ok rest : rest <> [] -> after_version (le_bytes 2 0 ++ rest) = Ok rest.
Proof.
  intros Hne. unfold after_version. rewrite zlen_app, zlen_le_bytes.
  assert (0 < zlen rest) by (destruct rest; [done|rewrite zlen_cons; zlens; lia]).
  rewrite (proj2 (Z.leb_gt _ 2)) by lia.
  rewrite take_app_length', drop_app_length' by (by rewrite length_le_bytes). done.
Qed.

(** Payloads whose parts fit their length fields. *)
Definition payload_ok (p : Payload) : Prop :=
  match p with
  | PRawStatement r => raw_ok r
  | PExecute a => action_ok a
  | PTransfer t => bigint_fits (tr_Amount t) /\
      exists to, tr_To t = Some to /\ slice_len (Identifier to) < MaxUint32 - 10
  | PValidatorJoin power => is_uint 64 power
  | PValidatorLeave => True
  | PValidatorRemove v | PValidatorApprove v => vkey_ok v
  | PValidatorVoteIDs ids => zlen ids < 4294967296 /\ Forall (fun id => zlen id = 16) ids
  | PValidatorVoteBodies evs => zlen evs <= 500000 /\ Forall event_ok evs
  | PCreateResolution e => event_ok e
  | PApproveResolution id | PDeleteResolution id => exists u, id = Some u /\ zlen u = 16
  end.

Lemma run_reader_full {A} (rd : reader A) b v : decodes rd b v -> run_reader rd b = Ok v.
Proof. intros D. unfold run_reader. by rewrite (decodes_full _ _ _ D). Qed.

Lemma ValidatorJoin_roundtrip power :
  is_uint 64 power -> ValidatorJoin_UnmarshalBinary (ValidatorJoin_MarshalBinary power) = Ok power.
Proof.
  intros Hp. unfold ValidatorJoin_UnmarshalBinary, ValidatorJoin_MarshalBinary.
  rewrite zlen_app, !zlen_le_bytes. change (Z.of_nat 2 + Z.of_nat 8 <? 2 + 8) with false. cbv iota.
  rewrite take_app_length', drop_app_length' by (by rewrite length_le_bytes).
  change (negb (le_value (le_bytes 2 0) =? 0)) with false. cbv iota.
  rewrite <- (app_nil_r (le_bytes 8 power)), take_app_length' by (by rewrite length_le_bytes).
  rewrite le_value_bytes, Z.mod_small by apply Hp. done.
Qed.

Lemma ResolutionID_roundtrip id :
  zlen id = 16 -> ResolutionID_UnmarshalBinary (le_bytes 2 0 ++ id) = Ok id.
Proof.
  intros Hid. unfold ResolutionID_UnmarshalBinary.
  rewrite after_version_ok by (intros ->; discriminate). cbn [mbind result_bind].
  by apply UUID_Unmarshal.
Qed.
End payloads.

(** Every payload that the node routes survives the wire: unmarshalling the
    marshalled bytes under the payload's own type gives the payload back; a
    delete-resolution payload, which the source registers as a valid type, is
    refused as unknown. *)
Theorem payload_roundtrip reg p bs :
  reg_ok reg -> payload_ok reg p -> Payload_MarshalBinary reg p = Ok bs ->
  UnmarshalPayload reg (Payload_Type p) bs =
    match p with PDeleteResolution _ => Err ErrUnknownPayloadType | _ => Ok p end.
Proof.
  intros Hreg Hok Hm. destruct p as [r|a|t|power| |v|v|ids|evs|e|id|id];
    cbn [Payload_MarshalBinary payload_ok Payload_Type] in *.
  - apply (inj Ok) in Hm as <-.
    change (PRawStatement <$> run_reader RawStatement_read (RawStatement_MarshalBinary r) = Ok (PRawStatement r)).
    by rewrite (run_reader_full _ _ _ (decodes_RawStatement r Hok)).
  - apply (inj Ok) in Hm as <-.
    change (PExecute <$> run_reader ActionExecution_read (ActionExecution_MarshalBinary a) = Ok (PExecute a)).
    by rewrite (run_reader_full _ _ _ (decodes_ActionExecution a Hok)).
  - destruct Hok as (Ha & to & Eto & Hlen).
    change (PTransfer <$> run_reader (Transfer_read reg) bs = Ok (PTransfer t)).
    by rewrite (run_reader_full _ _ _ (decodes_Transfer reg Hreg t bs to Eto Hlen Ha Hm)).
  - apply (inj Ok) in Hm as <-.
    change (PValidatorJoin <$> ValidatorJoin_UnmarshalBinary (ValidatorJoin_MarshalBinary power) = Ok (PValidatorJoin power)).
    by rewrite ValidatorJoin_roundtrip.
  - apply (inj Ok) in Hm as <-. reflexivity.
  - apply (inj Ok) in Hm as <-.
    change (PValidatorRemove <$> run_reader (ValidatorKey_read reg) (ValidatorKey_MarshalBinary reg v) = Ok (PValidatorRemove v)).
    by rewrite (run_reader_full _ _ _ (decodes_ValidatorKey reg Hreg v Hok)).
  - apply (inj Ok) in Hm as <-.
    change (PValidatorApprove <$> run_reader (ValidatorKey_read reg) (ValidatorKey_MarshalBinary reg v) = Ok (PValidatorApprove v)).
    by rewrite (run_reader_full _ _ _ (decodes_ValidatorKey reg Hreg v Hok)).
  - apply (inj Ok) in Hm as <-. destruct Hok as [Hc Hids].
    change (PValidatorVoteIDs <$> run_reader ValidatorVoteIDs_read (ValidatorVoteIDs_MarshalBinary ids) = Ok (PValidatorVoteIDs ids)).
    by rewrite (run_reader_full _ _ _ (decodes_VoteIDs ids Hc Hids)).
  - apply (inj Ok) in Hm as <-. destruct Hok as [Hc Hevs].
    change (PValidatorVoteBodies <$> run_reader ValidatorVoteBodies_read (ValidatorVoteBodies_MarshalBinary evs) = Ok (PValidatorVoteBodies evs)).
    by rewrite (run_reader_full _ _ _ (decodes_VoteBodies evs Hc Hevs)).
  - apply (inj Ok) in Hm as <-.
    change (PCreateResolution <$> CreateResolution_UnmarshalBinary (CreateResolution_MarshalBinary e) = Ok (PCreateResolution e)).
    unfold CreateResolution_UnmarshalBinary, CreateResolution_MarshalBinary.
    rewrite after_version_ok by done. cbn [mbind result_bind].
    by rewrite VotableEvent_Unmarshal_Marshal.
  - destruct Hok as (u & -> & Hu). apply (inj Ok) in Hm as <-.
    change ((fun id => PApproveResolution (Some id)) <$> ResolutionID_UnmarshalBinary (le_bytes 2 0 ++ u) = Ok (PApproveResolution (Some u))).
    by rewrite ResolutionID_roundtrip.
  - reflexivity.
Qed.

(** ** Examples *)

Definition ex_value : EncodedValue :=
  mkEncodedValue (mkDataType (str "text") false (0, 0)) [Some (str "hi"); None].
Definition ex_payload : Payload :=
  PExecute (mkActionExecution (str "main") (str "act") [[ex_value]; []]).

Lemma ex_value_ok : ev_ok ex_value.
Proof.
  constructor.
  - constructor; [by vm_compute|const_range|const_range].
  - by vm_compute.
  - by repeat constructor.
  - by vm_compute.
Qed.

Lemma payload_roundtrip_witness :
  UnmarshalPayload test_registry PayloadTypeExecute
    (ActionExecution_MarshalBinary (mkActionExecution (str "main") (str "act") [[ex_value]; []]))
  = Ok ex_payload.
Proof.
  apply (payload_roundtrip test_registry ex_payload); [apply test_registry_ok| |reflexivity].
  split_and!; [by vm_compute..|].
  constructor; [split; [by vm_compute|]; constructor; [apply ex_value_ok|constructor]|].
  constructor; [|constructor]. split; [by vm_compute|constructor].
Defined.
