(* ===== verification/Values.v ===== *)
(** * Data types and encoded values

    The data types of src/core/types/data_types.go (aliases, [Clean],
    comparison, printing and [ParseDataType]) and the values of
    src/core/types/payloads.go: [EncodeValue], [Decode] and
    [ValidatePayloadEncoding].  The Unicode functions of package strings and
    the decimal numbers of src/core/types/decimal.go, which wrap a third-party
    library, are classes. *)

From S2P Require Import Prelude.
From S2P Require Import Wire.
From S2P Require Import BigInt.
From S2P Require Import Keys.
From S2P Require Import Payloads.
From Stdlib Require Import Strings.Byte.

#[local] Open Scope Z_scope.

(** ** Package strings *)

Definition lower_byte (b : byte) : byte :=
  let z := Z_of_byte b in
  if (65 <=? z) && (z <=? 90) then byte_of_Z (z + 32) else b.

Definition is_ascii (b : byte) : bool := Z_of_byte b <? 128.

Definition is_space (b : byte) : bool :=
  match b with x20 | x09 | x0a | x0b | x0c | x0d => true | _ => false end.

(** [strings.ToLower], [strings.EqualFold] and [strings.TrimSpace] follow the
    Unicode tables; on ASCII strings they are the functions above. *)
Class Strings := {
  ToLower : bytes -> bytes;
  EqualFold : bytes -> bytes -> bool;
  TrimSpace : bytes -> bytes;
  ToLower_ascii : forall s, forallb is_ascii s = true -> ToLower s = map lower_byte s;
  EqualFold_ascii : forall s t, forallb is_ascii s = true -> forallb is_ascii t = true ->
    EqualFold s t = bool_decide (map lower_byte s = map lower_byte t);
  TrimSpace_ascii : forall s, forallb is_ascii s = true -> forallb (fun b => negb (is_space b)) s = true ->
    TrimSpace s = s
}.

(** ** Data types *)

Definition textStr : bytes := str "text".
Definition intStr : bytes := str "int8".
Definition int4Str : bytes := str "int4".
Definition boolStr : bytes := str "bool".
Definition byteaStr : bytes := str "bytea".
Definition uuidStr : bytes := str "uuid".
Definition NumericStr : bytes := str "numeric".
Definition nullStr : bytes := str "null".

Definition typeAlias : gmap (list byte) (list byte) :=
  list_to_map
    [(str "string", textStr); (str "text", textStr); (str "int", intStr); (str "integer", intStr);
     (str "bigint", intStr); (str "int8", intStr); (str "int4", int4Str); (str "smallint", int4Str);
     (str "bool", boolStr); (str "boolean", boolStr); (str "blob", byteaStr); (str "bytea", byteaStr);
     (str "uuid", uuidStr); (str "decimal", NumericStr); (str "numeric", NumericStr)].

Definition maxPrecision : Z := 1000.

Definition scalar_type (name : bytes) : DataType := mkDataType name false (0, 0).
Definition IntType : DataType := scalar_type intStr.
Definition TextType : DataType := scalar_type textStr.
Definition BoolType : DataType := scalar_type boolStr.
Definition ByteaType : DataType := scalar_type byteaStr.
Definition UUIDType : DataType := scalar_type uuidStr.
Definition NullType : DataType := scalar_type nullStr.

Definition ArrayType (t : DataType) : result DataType :=
  if IsArray t then Err (ErrPanic "cannot create an array of an array")
  else Ok (mkDataType (dt_Name t) true (Metadata t)).

Definition CheckDecimalPrecisionAndScale (precision scale : Z) : result unit :=
  if precision <? 1 then Err (ErrMsg "precision must be at least 1")
  else if precision >? maxPrecision then Err (ErrMsg "precision too large")
  else if scale >? precision then Err (ErrMsg "scale must be less than or equal to precision")
  else Ok tt.

Definition NewNumericType (precision scale : Z) : result DataType :=
  _ ← CheckDecimalPrecisionAndScale precision scale;
  mret (mkDataType NumericStr false (precision, scale)).

Definition HasMetadata (c : DataType) : bool := negb (bool_decide (Metadata c = (0, 0))).

Definition DataType_String (c : DataType) : bytes :=
  let aliased := default (str "[!invalid!]" ++ dt_Name c) (typeAlias !! dt_Name c) in
  let scalar :=
    if bool_decide (aliased = NumericStr)
    then aliased ++ str "(" ++ big_String (Metadata c).1 ++ str "," ++ big_String (Metadata c).2 ++ str ")"
    else aliased in
  if IsArray c then scalar ++ str "[]" else scalar.

Definition IsNumeric (c : DataType) : bool :=
  negb (IsArray c) &&
  (bool_decide (dt_Name c = intStr) || bool_decide (dt_Name c = int4Str) ||
   bool_decide (dt_Name c = NumericStr) || bool_decide (dt_Name c = nullStr)).

Section types.
Context `{Strings}.

Definition PGScalar (c : DataType) : result bytes :=
  let name := ToLower (dt_Name c) in
  if bool_decide (name = intStr) then Ok (str "INT8")
  else if bool_decide (name = int4Str) then Ok (str "INT4")
  else if bool_decide (name = textStr) then Ok (str "TEXT")
  else if bool_decide (name = boolStr) then Ok (str "BOOL")
  else if bool_decide (name = byteaStr) then Ok (str "BYTEA")
  else if bool_decide (name = uuidStr) then Ok (str "UUID")
  else if bool_decide (name = NumericStr) then
    if negb (HasMetadata c) then Err (ErrMsg "numeric type requires metadata")
    else Ok (str "NUMERIC(" ++ big_String (Metadata c).1 ++ str "," ++ big_String (Metadata c).2 ++ str ")")
  else if bool_decide (name = nullStr) then Err (ErrMsg "cannot have null column type")
  else Err (ErrMsg "unknown column type").

Definition PGString (c : DataType) : result bytes :=
  scalar ← PGScalar c;
  mret (if IsArray c then scalar ++ str "[]" else scalar).

(** [Clean] mutates the name; the result is the cleaned type. *)
Definition Clean (c : DataType) : result DataType :=
  match typeAlias !! ToLower (dt_Name c) with
  | None => Err (ErrMsg "unknown type")
  | Some referencedType =>
      _ ← (if bool_decide (referencedType ∈ [intStr; int4Str; textStr; boolStr; byteaStr; uuidStr]) then
             if HasMetadata c then Err (ErrMsg "type cannot have metadata") else Ok tt
           else if bool_decide (referencedType = NumericStr) then
             if negb (HasMetadata c) then Err (ErrMsg "type requires metadata")
             else CheckDecimalPrecisionAndScale (Metadata c).1 (Metadata c).2
           else if bool_decide (referencedType = nullStr) then
             if IsArray c then Err (ErrMsg "type cannot be an array")
             else if HasMetadata c then Err (ErrMsg "type cannot have metadata")
             else Ok tt
           else Err (ErrMsg "unknown type"));
      mret (mkDataType referencedType (IsArray c) (Metadata c))
  end.

Definition EqualsStrict (c other : DataType) : bool :=
  if negb (Bool.eqb (IsArray c) (IsArray other)) then false
  else if negb ((Metadata c).1 =? (Metadata other).1) || negb ((Metadata c).2 =? (Metadata other).2)
  then false
  else EqualFold (dt_Name c) (dt_Name other).

Definition DataType_Equals (c other : DataType) : bool :=
  let is_null d := bool_decide (dt_Name d = nullStr) in
  if (is_null c && negb (IsArray c)) || (is_null other && negb (IsArray other)) then true
  else if (is_null c && IsArray c) && IsArray other then true
  else if (is_null other && IsArray other) && IsArray c then true
  else EqualsStrict c other.

(** The regular expression [^([a-z0-9]+)(\(([\d, ]+)\))?(\[\])?$]: the base
    type, the metadata and whether the brackets follow. *)
Definition is_type_char (b : byte) : bool :=
  let z := Z_of_byte b in ((97 <=? z) && (z <=? 122)) || ((48 <=? z) && (z <=? 57)).
Definition is_meta_char (b : byte) : bool :=
  let z := Z_of_byte b in ((48 <=? z) && (z <=? 57)) || bool_decide (b = x2c) || bool_decide (b = x20).

Fixpoint span (p : byte -> bool) (s : bytes) : bytes * bytes :=
  match s with
  | [] => ([], [])
  | b :: s' => if p b then let '(u, v) := span p s' in (b :: u, v) else ([], s)
  end.

Definition match_brackets (s : bytes) : option bool :=
  if bool_decide (s = []) then Some false
  else if bool_decide (s = str "[]") then Some true
  else None.

Definition match_type (s : bytes) : option (bytes * bytes * bool) :=
  let '(base, rest) := span is_type_char s in
  match base, rest with
  | [], _ => None
  | _, x28 :: rest' =>
      let '(meta, rest'') := span is_meta_char rest' in
      match meta, rest'' with
      | _ :: _, x29 :: rest3 => (fun a => (base, meta, a)) <$> match_brackets rest3
      | _, _ => None
      end
  | _, _ => (fun a => (base, [], a)) <$> match_brackets rest
  end.

(** [strings.Split(s, ",")]. *)
Fixpoint split_commas (s : bytes) : list bytes :=
  match s with
  | [] => [[]]
  | b :: s' =>
      match split_commas s' with
      | [] => []
      | part :: parts => if bool_decide (b = x2c) then [] :: part :: parts else (b :: part) :: parts
      end
  end.

(** [strconv.Atoi]. *)
Definition Atoi (s : bytes) : option Z :=
  match big_SetString s with
  | Some z => if bool_decide (is_sint 64 z) then Some z else None
  | None => None
  end.

Definition parse_metadata (part : bytes) : result Z :=
  match Atoi (TrimSpace part) with
  | None => Err (ErrMsg "invalid metadata value")
  | Some num => if num >? maxPrecision then Err (ErrMsg "precision must be less than") else Ok (u16 num)
  end.

Definition ParseDataType (s : bytes) : result DataType :=
  let s := TrimSpace (ToLower s) in
  if bool_decide (s = []) then Err (ErrMsg "empty data type")
  else match match_type s with
  | None => Err (ErrMsg "invalid data type format")
  | Some (baseType, rawMetadata, isArray) =>
      match typeAlias !! baseType with
      | None => Err (ErrMsg "unknown data type")
      | Some baseName =>
          metadata ← (if bool_decide (rawMetadata = []) then Ok (0, 0)
                      else if negb (bool_decide (baseName = NumericStr))
                      then Err (ErrMsg "metadata is only allowed for numeric type")
                      else match split_commas rawMetadata with
                      | [p; s] => p ← parse_metadata p; s ← parse_metadata s; mret (p, s)
                      | _ => Err (ErrMsg "invalid metadata format")
                      end);
          Clean (mkDataType baseName isArray metadata)
      end
  end.
End types.

#[export] Instance is_sint_dec w z : Decision (is_sint w z).
Proof. unfold is_sint. apply _. Defined.

(** ** Values *)

(** [Decimal] of decimal.go. *)
Class Decimals := {
  Decimal : Type;
  Decimal_eq_decision :: EqDecision Decimal;
  Precision : Decimal -> Z;
  Scale : Decimal -> Z;
  Decimal_String : Decimal -> bytes;
  ParseDecimalExplicit : bytes -> Z -> Z -> result Decimal
}.

Section values.
Context `{Decimals}.

(** What a decoded pointer points to. *)
Inductive scalar :=
  | SText (s : bytes)
  | SInt (z : Z)
  | SBytea (b : bytes)
  | SUUID (u : bytes)
  | SBool (b : bool)
  | SNumeric (d : Decimal).

(** The element types of the typed slices. *)
Inductive kind := KText | KInt | KBytea | KUUID | KBool | KNumeric.

Definition kind_of (s : scalar) : kind :=
  match s with
  | SText _ => KText | SInt _ => KInt | SBytea _ => KBytea
  | SUUID _ => KUUID | SBool _ => KBool | SNumeric _ => KNumeric
  end.

(** A decoded [any]: nil, a pointer, a [[]*T], or a [[]any] of nils. *)
Inductive value :=
  | VNull
  | VScalar (s : scalar)
  | VArray (k : kind) (l : list (option scalar))
  | VNulls (n : nat).

Definition encodeNull : bytes := [x00].
Definition encodeNotNull (v : bytes) : bytes := x01 :: v.

(** [decodeNullable]; [None] is null. *)
Definition decodeNullable (v : bytes) : result (option bytes) :=
  match v with
  | [] => Err (ErrMsg "encoded value is empty")
  | x00 :: rest => if negb (zlen v =? 1) then Err (ErrMsg "null byte must be only byte") else Ok None
  | x01 :: rest => Ok (Some rest)
  | _ => Err (ErrMsg "expected 0 or 1 for first byte")
  end.

Definition decodeScalar (data : bytes) (typename : bytes) (metadata : Z * Z) : result (option scalar) :=
  d ← decodeNullable data;
  match d with
  | None => mret None
  | Some data =>
      if bool_decide (typename = textStr) then mret (Some (SText data))
      else if bool_decide (typename = intStr) then
        if negb (zlen data =? 8) then Err (ErrMsg "int must be 8 bytes")
        else mret (Some (SInt (i64 (be_value data))))
      else if bool_decide (typename = byteaStr) then mret (Some (SBytea data))
      else if bool_decide (typename = uuidStr) then
        if negb (zlen data =? 16) then Err (ErrMsg "uuid must be 16 bytes")
        else mret (Some (SUUID data))
      else if bool_decide (typename = boolStr) then
        if negb (zlen data =? 1) then Err (ErrMsg "bool must be 1 byte")
        else mret (Some (SBool (bool_decide (data = [x01]))))
      else if bool_decide (typename = nullStr) then mret None
      else if bool_decide (typename = NumericStr) then
        dec ← ParseDecimalExplicit data metadata.1 metadata.2; mret (Some (SNumeric dec))
      else Err (ErrMsg "cannot decode type")
  end.

#[export] Instance kind_eq_decision : EqDecision kind.
Proof. solve_decision. Defined.

(** [decodeAnyArr[T]]: the type assertion to [*T] panics when it fails. *)
Fixpoint decodeAnyArr (k : kind) (v : list slice) (typename : bytes) (metadata : Z * Z)
  : result (list (option scalar)) :=
  match v with
  | [] => Ok []
  | elem :: v' =>
      dec ← decodeScalar (slice_bytes elem) typename metadata;
      _ ← (match dec with
           | None => Ok tt
           | Some s => if bool_decide (kind_of s = k) then Ok tt else Err (ErrPanic "expected type")
           end);
      rest ← decodeAnyArr k v' typename metadata;
      mret (dec :: rest)
  end.

(** The slice type that [Decode] chooses for an array of a type. *)
Definition array_kind (typeName : bytes) : option kind :=
  if bool_decide (typeName = textStr) then Some KText
  else if bool_decide (typeName = intStr) then Some KInt
  else if bool_decide (typeName = byteaStr) then Some KBytea
  else if bool_decide (typeName = uuidStr) then Some KUUID
  else if bool_decide (typeName = boolStr) then Some KBool
  else if bool_decide (typeName = NumericStr) then Some KNumeric
  else None.

Definition Decode (e : EncodedValue) : result value :=
  let ty := ev_DataType e in
  if bool_decide (dt_Name ty = nullStr) then
    if IsArray ty then Ok (VNulls (length (ev_Data e)))
    else match ev_Data e with
    | [d] =>
        match slice_bytes d with
        | [] | [x00] => Ok VNull
        | [_] => Err (ErrMsg "expected zero first byte for type 'null'")
        | _ => Err (ErrMsg "expected nil data for type 'null'")
        end
    | [] => Ok VNull
    | _ => Err (ErrMsg "expected nil data for type 'null'")
    end
  else match typeAlias !! dt_Name ty with
  | None => Err (ErrMsg "unknown type")
  | Some typeName =>
      if IsArray ty then
        match array_kind typeName with
        | None => Err (ErrMsg "unknown type")
        | Some k => VArray k <$> decodeAnyArr k (ev_Data e) typeName (Metadata ty)
        end
      else match ev_Data e with
      | [d] => v ← decodeScalar (slice_bytes d) typeName (Metadata ty);
               mret (match v with Some s => VScalar s | None => VNull end)
      | _ => Err (ErrMsg "expected 1 element")
      end
  end.

(** The arguments of [EncodeValue]: a value that is not a pointer or a slice of
    elements, behind at most one pointer.  Every integer type but uint8 is
    [GInt], a uint64 by its value; [GOther] stands for the types that are not
    encoded. *)
Inductive base :=
  | GString (s : bytes)
  | GInt (z : Z)
  | GBytes (b : slice)
  | GUUID (u : bytes)
  | GBool (b : bool)
  | GDecimal (d : Decimal)
  | GOther.

Inductive elem :=
  | ENil
  | EVal (b : base)
  | EPtr (b : option base).

Inductive goval :=
  | GElem (e : elem)
  | GSlice (l : option (list elem))
  | GPtrSlice (l : option (option (list elem))).

Definition encode_base (b : base) : result (bytes * DataType) :=
  match b with
  | GString s => Ok (encodeNotNull s, TextType)
  | GInt z => if bool_decide (is_sint 64 z) then Ok (encodeNotNull (be_bytes 8 (u64 z)), IntType)
              else Err (ErrMsg "value out of range")
  | GBytes None => Ok (encodeNull, NullType)
  | GBytes (Some b) => Ok (encodeNotNull b, ByteaType)
  | GUUID u => Ok (encodeNotNull u, UUIDType)
  | GBool b => Ok (encodeNotNull [if b then x01 else x00], BoolType)
  | GDecimal d =>
      decTyp ← NewNumericType (Precision d) (Scale d);
      mret (encodeNotNull (Decimal_String d), decTyp)
  | GOther => Err (ErrMsg "cannot encode type")
  end.

Definition encodeScalar (v : elem) : result (bytes * DataType) :=
  match v with
  | ENil | EPtr None => Ok (encodeNull, NullType)
  | EVal b | EPtr (Some b) => encode_base b
  end.

Definition null_value : EncodedValue := mkEncodedValue NullType [].

Context `{Strings}.

(** The loop over the elements of a slice: the encodings and the type. *)
Fixpoint encode_elems (l : list elem) (firstDt : option DataType)
  : result (list slice * option DataType) :=
  match l with
  | [] => Ok ([], firstDt)
  | v :: l' =>
      '(enc, t) ← encodeScalar v;
      dt ← (match firstDt with
            | None => Ok t
            | Some f =>
                if EqualsStrict f NullType then Ok t
                else if negb (DataType_Equals f t) then Err (ErrMsg "mismatched types in array")
                else Ok f
            end);
      '(encs, final) ← encode_elems l' (Some dt);
      mret (Some enc :: encs, final)
  end.

Definition encode_slice (l : option (list elem)) : result EncodedValue :=
  match l with
  | None => Ok null_value
  | Some l =>
      '(encoded, firstDt) ← encode_elems l None;
      match firstDt with
      | None => Err (ErrMsg "no elements in array")
      | Some t =>
          let t := if bool_decide (dt_Name t = []) then NullType
                   else mkDataType (dt_Name t) true (Metadata t) in
          mret (mkEncodedValue t encoded)
      end
  end.

Definition EncodeValue (v : goval) : result EncodedValue :=
  match v with
  | GElem ENil | GElem (EVal (GBytes None)) | GElem (EPtr None) | GPtrSlice None => Ok null_value
  | GElem e => '(enc, t) ← encodeScalar e; mret (mkEncodedValue t [Some enc])
  | GSlice l | GPtrSlice (Some l) => encode_slice l
  end.

(** [ValidatePayloadEncoding]. *)
Fixpoint decode_all (l : list EncodedValue) : result unit :=
  match l with
  | [] => Ok tt
  | e :: l' => _ ← Decode e; decode_all l'
  end.

Definition ValidatePayloadEncoding (reg : registry) (payloadType payload : bytes) : result unit :=
  match UnmarshalPayload reg payloadType payload with
  | Err e => if errors_is e ErrUnknownPayloadType then Ok tt else Err e
  | Ok (PExecute body) => decode_all (concat (ae_Arguments body))
  | Ok (PRawStatement body) => decode_all (map nv_Value (Parameters body))
  | Ok _ => Ok tt
  end.
End values.

(** ** Typing *)

Section typing.
Context `{Decimals}.

(** The decoded values of a data type. *)
Definition scalar_of_type (name : bytes) (s : scalar) : Prop :=
  array_kind name = Some (kind_of s) /\
  match s with
  | SInt z => is_sint 64 z
  | SUUID u => zlen u = 16
  | _ => True
  end.

Definition value_of_type (ty : DataType) (v : value) : Prop :=
  match v with
  | VNull => IsArray ty = false
  | VNulls _ => dt_Name ty = nullStr /\ IsArray ty = true
  | VScalar s =>
      IsArray ty = false /\ exists name, typeAlias !! dt_Name ty = Some name /\ scalar_of_type name s
  | VArray k l =>
      IsArray ty = true /\ exists name, typeAlias !! dt_Name ty = Some name /\ array_kind name = Some k /\
      forall s, Some s ∈ l -> scalar_of_type name s
  end.

Lemma decodeScalar_type data name meta s :
  decodeScalar data name meta = Ok (Some s) -> scalar_of_type name s.
Proof.
  unfold decodeScalar. intros (d & _ & E)%result_bind_Ok. destruct d as [d|]; [|by apply (inj Ok) in E].
  revert E. unfold scalar_of_type, array_kind.
  repeat (case_bool_decide; [|]); intros E; try done.
  - apply (inj Ok) in E. by simplify_eq.
  - destruct (zlen d =? 8); [|done]. apply (inj Ok) in E. simplify_eq. split; [done|]. by apply swrap_range.
  - apply (inj Ok) in E. by simplify_eq.
  - destruct (Z.eqb_spec (zlen d) 16); [|done]. apply (inj Ok) in E. by simplify_eq.
  - destruct (zlen d =? 1); [|done]. apply (inj Ok) in E. by simplify_eq.
  - destruct (zlen d =? 1); [|done]. apply (inj Ok) in E. by simplify_eq.
  - apply result_bind_Ok in E as (dec & _ & E). apply (inj Ok) in E. by simplify_eq.
Qed.

Lemma decodeAnyArr_type k v name meta l :
  decodeAnyArr k v name meta = Ok l -> forall s, Some s ∈ l -> scalar_of_type name s.
Proof.
  revert l. induction v as [|e v IH]; cbn; intros l E s Hs.
  - apply (inj Ok) in E as <-. by apply not_elem_of_nil in Hs.
  - apply result_bind_Ok in E as (dec & Ed & E). apply result_bind_Ok in E as (u & _ & E).
    apply result_bind_Ok in E as (rest & Er & E). apply (inj Ok) in E as <-.
    apply elem_of_cons in Hs as [<-|Hs]; [by eapply decodeScalar_type|by eapply IH].
Qed.

Lemma decodeScalar_no_panic data name meta e :
  (forall s p q e, ParseDecimalExplicit s p q = Err e -> is_panic e = false) ->
  decodeScalar data name meta = Err e -> is_panic e = false.
Proof.
  intros Hdec. unfold decodeScalar, decodeNullable. destruct data as [|b data]; cbn; [by intros [= <-]|].
  destruct b; cbn; try (by intros [= <-]).
  - destruct (negb _); cbn; [by intros [= <-]|done].
  - repeat (case_bool_decide; [|]); try done; try (destruct (negb _); [by intros [= <-]|done]).
    + destruct (ParseDecimalExplicit _ _ _) as [|e'] eqn:E; cbn; [done|]. intros [= <-]. by eapply Hdec.
    + by intros [= <-].
Qed.

(** No decoded scalar fails the type assertion of its array. *)
Lemma decodeAnyArr_no_panic k v name meta e :
  (forall s p q e, ParseDecimalExplicit s p q = Err e -> is_panic e = false) ->
  array_kind name = Some k -> decodeAnyArr k v name meta = Err e -> is_panic e = false.
Proof.
  intros Hdec Hk. induction v as [|d v IH]; cbn; [done|].
  destruct (decodeScalar _ _ _) as [dec|e'] eqn:Ed; cbn.
  - destruct dec as [s|]; cbn.
    + rewrite bool_decide_eq_true_2; [|apply decodeScalar_type in Ed as [E _]; congruence].
      cbn. destruct (decodeAnyArr k v name meta) as [|e'']; cbn; [done|]. intros [= <-]. by apply IH.
    + destruct (decodeAnyArr k v name meta) as [|e'']; cbn; [done|]. intros [= <-]. by apply IH.
  - intros [= <-]. by eapply decodeScalar_no_panic.
Qed.

(** Decoding is typed: a decoded value belongs to the data type it was
    encoded with (the elements of an array to the slice type chosen for the
    array), and no input makes the type assertions of the decoder panic. *)
Theorem Decode_typed e :
  (forall s p q e, ParseDecimalExplicit s p q = Err e -> is_panic e = false) ->
  match Decode e with
  | Ok v => value_of_type (ev_DataType e) v
  | Err err => is_panic err = false
  end.
Proof.
  intros Hdec. unfold Decode. case_bool_decide as Hn.
  - destruct (IsArray (ev_DataType e)) eqn:Ha; [by split|].
    destruct (ev_Data e) as [|d [|]]; [done| |done].
    by destruct (slice_bytes d) as [|[] []].
  - destruct (typeAlias !! dt_Name (ev_DataType e)) as [name|] eqn:Hname; [|done].
    destruct (IsArray (ev_DataType e)) eqn:Ha.
    + destruct (array_kind name) as [k|] eqn:Hk; [|done].
      destruct (decodeAnyArr k (ev_Data e) name _) as [l|err] eqn:E; cbn.
      * split; [done|]. exists name. split_and!; [done..|]. by eapply decodeAnyArr_type.
      * by eapply decodeAnyArr_no_panic.
    + destruct (ev_Data e) as [|d [|]]; [done| |done].
      destruct (decodeScalar _ _ _) as [[s|]|err] eqn:E; cbn.
      * split; [done|]. exists name. split; [done|]. by eapply decodeScalar_type.
      * done.
      * by eapply decodeScalar_no_panic.
Qed.
End typing.

(** ** Round trips *)

Section roundtrip.
Context `{HS : Strings, HD : Decimals}.

Definition decoded_base (b : base) : option scalar :=
  match b with
  | GString s => Some (SText s)
  | GInt z => Some (SInt z)
  | GBytes b => SBytea <$> b
  | GUUID u => Some (SUUID u)
  | GBool b => Some (SBool b)
  | GDecimal d => Some (SNumeric d)
  | GOther => None
  end.

Definition decoded_elem (v : elem) : option scalar :=
  match v with
  | ENil | EPtr None => None
  | EVal b | EPtr (Some b) => decoded_base b
  end.

(** The value that an argument denotes: an array of nulls has no type. *)
Definition decoded (v : goval) : value :=
  match v with
  | GElem e => match decoded_elem e with Some s => VScalar s | None => VNull end
  | GSlice None | GPtrSlice None | GPtrSlice (Some None) => VNull
  | GSlice (Some l) | GPtrSlice (Some (Some l)) =>
      match omap decoded_elem l with
      | [] => VNulls (length l)
      | s :: _ => VArray (kind_of s) (map decoded_elem l)
      end
  end.

(** Identifiers have 16 bytes, and the decimals of the value survive printing. *)
Definition base_ok (b : base) : Prop :=
  match b with
  | GUUID u => zlen u = 16
  | GDecimal d => ParseDecimalExplicit (Decimal_String d) (Precision d) (Scale d) = Ok d
  | _ => True
  end.

Definition elem_ok (v : elem) : Prop :=
  match v with EVal b | EPtr (Some b) => base_ok b | _ => True end.

Definition goval_ok (v : goval) : Prop :=
  match v with
  | GElem e => elem_ok e
  | GSlice (Some l) | GPtrSlice (Some (Some l)) => Forall elem_ok l
  | _ => True
  end.

(** The types of encoded values. *)
Definition encodable (t : DataType) : Prop :=
  IsArray t = false /\ dt_Name t ∈ [textStr; intStr; boolStr; byteaStr; uuidStr; NumericStr].

Lemma encodable_name t :
  encodable t -> typeAlias !! dt_Name t = Some (dt_Name t) /\ dt_Name t <> nullStr /\ dt_Name t <> [].
Proof.
  intros [_ Hn]. set (n := dt_Name t) in *. clearbody n.
  repeat (apply elem_of_cons in Hn as [->|Hn]; [by split_and!; vm_compute|]).
  by apply not_elem_of_nil in Hn.
Qed.

Lemma encodable_ascii t : encodable t -> forallb is_ascii (dt_Name t) = true.
Proof.
  intros [_ Hn]. set (n := dt_Name t) in *. clearbody n.
  repeat (apply elem_of_cons in Hn as [->|Hn]; [by vm_compute|]). by apply not_elem_of_nil in Hn.
Qed.

Lemma encodable_lower t : encodable t -> map lower_byte (dt_Name t) = dt_Name t.
Proof.
  intros [_ Hn]. set (n := dt_Name t) in *. clearbody n.
  repeat (apply elem_of_cons in Hn as [->|Hn]; [by vm_compute|]). by apply not_elem_of_nil in Hn.
Qed.

Lemma encodable_strict t t' : encodable t -> encodable t' -> EqualsStrict t t' = true -> t = t'.
Proof.
  intros Ht Ht'. unfold EqualsStrict.
  rewrite EqualFold_ascii, !encodable_lower by (done || by apply encodable_ascii).
  destruct Ht as [Ha _], Ht' as [Ha' _]. rewrite Ha, Ha'. cbn [Bool.eqb negb].
  destruct (Z.eqb_spec (Metadata t).1 (Metadata t').1); cbn [negb orb]; [|done].
  destruct (Z.eqb_spec (Metadata t).2 (Metadata t').2); cbn [negb]; [|done].
  intros E%bool_decide_eq_true. destruct t as [? ? []], t' as [? ? []]; cbn in *. by subst.
Qed.

Lemma encodable_not_null t : encodable t -> EqualsStrict t NullType = false.
Proof.
  intros Ht. unfold EqualsStrict.
  rewrite EqualFold_ascii by (done || by apply encodable_ascii).
  rewrite encodable_lower by done. destruct (encodable_name t Ht) as (_ & Hn & _).
  rewrite bool_decide_eq_false_2; [by repeat case_match|]. by change (map lower_byte _) with nullStr.
Qed.

Lemma NullType_strict : EqualsStrict NullType NullType = true.
Proof. unfold EqualsStrict. rewrite EqualFold_ascii by done. by vm_compute. Qed.

Lemma i64_u64 z : is_sint 64 z -> i64 (u64 z) = z.
Proof. intros Hz. by rewrite swrap_uwrap, swrap_small. Qed.

Lemma encodeScalar_decodes v enc t :
  elem_ok v -> encodeScalar v = Ok (enc, t) ->
  (t = NullType /\ enc = encodeNull /\ decoded_elem v = None) \/
  (encodable t /\ exists s, decoded_elem v = Some s /\ array_kind (dt_Name t) = Some (kind_of s) /\
     decodeScalar enc (dt_Name t) (Metadata t) = Ok (Some s)).
Proof.
  assert (forall b, base_ok b -> encode_base b = Ok (enc, t) ->
    (t = NullType /\ enc = encodeNull /\ decoded_base b = None) \/
    (encodable t /\ exists s, decoded_base b = Some s /\ array_kind (dt_Name t) = Some (kind_of s) /\
       decodeScalar enc (dt_Name t) (Metadata t) = Ok (Some s))) as Hb.
  { intros b Hok E. destruct b as [s|z|[b|]|u|b|d|]; cbn [encode_base] in E; simplify_eq.
    - right. split; [split; [done|by apply (bool_decide_unpack _); vm_compute]|]. by exists (SText s).
    - case_bool_decide as Hz; simplify_eq. right.
      split; [split; [done|by apply (bool_decide_unpack _); vm_compute]|]. exists (SInt z). split_and!; [done..|].
      cbn [dt_Name IntType scalar_type]. unfold decodeScalar, encodeNotNull, decodeNullable. cbn [mbind result_bind].
      rewrite (bool_decide_eq_false_2 (intStr = textStr)), bool_decide_eq_true_2 by done.
      unfold zlen. rewrite length_be_bytes. cbn [Z.of_nat Z.eqb negb].
      rewrite be_value_bytes. change (u64 z mod 2 ^ (8 * Z.of_nat 8)) with (u64 (u64 z)).
      by rewrite (uwrap_small 64 (u64 z)), i64_u64 by (done || by apply uwrap_range).
    - right. split; [split; [done|by apply (bool_decide_unpack _); vm_compute]|]. by exists (SBytea b).
    - by left.
    - right. split; [split; [done|by apply (bool_decide_unpack _); vm_compute]|]. exists (SUUID u). split_and!; [done..|].
      cbn [dt_Name UUIDType scalar_type]. unfold decodeScalar, encodeNotNull, decodeNullable. cbn [mbind result_bind].
      rewrite !bool_decide_eq_false_2, bool_decide_eq_true_2 by done. cbn in Hok. by rewrite Hok.
    - right. split; [split; [done|by apply (bool_decide_unpack _); vm_compute]|]. exists (SBool b). by destruct b.
    - apply result_bind_Ok in E as (dt & Edt & E). apply (inj Ok) in E. simplify_eq.
      unfold NewNumericType in Edt. apply result_bind_Ok in Edt as (_ & _ & E). apply (inj Ok) in E as <-. right.
      split; [split; [done|by apply (bool_decide_unpack _); vm_compute]|]. exists (SNumeric d). split_and!; [done..|].
      cbn [dt_Name Metadata]. unfold decodeScalar, encodeNotNull, decodeNullable. cbn [mbind result_bind].
      rewrite !bool_decide_eq_false_2, bool_decide_eq_true_2 by done. cbn [fst snd] in *. by rewrite Hok. }
  intros Hok E. destruct v as [|b|[b|]]; cbn [encodeScalar elem_ok decoded_elem] in *; [left|by apply Hb..|left]; by simplify_eq.
Qed.

Lemma decodeScalar_null name meta : decodeScalar encodeNull name meta = Ok None.
Proof. done. Qed.

(** [encs] decode at the type [dt] to the elements [l]. *)
Definition decode_at (dt : DataType) (encs : list slice) (l : list elem) : Prop :=
  forall k, array_kind (dt_Name dt) = Some k ->
    decodeAnyArr k encs (dt_Name dt) (Metadata dt) = Ok (map decoded_elem l).

Lemma decode_at_cons dt encs l enc v :
  decodeScalar enc (dt_Name dt) (Metadata dt) = Ok (decoded_elem v) ->
  decode_at dt encs l -> decode_at dt (Some enc :: encs) (v :: l).
Proof.
  intros Ev Hl k Hk. cbn [decodeAnyArr map]. change (slice_bytes (Some enc)) with enc. rewrite Ev. cbn [mbind result_bind].
  destruct (decoded_elem v) as [s|] eqn:Es.
  - apply decodeScalar_type in Ev as [Ek _]. rewrite bool_decide_eq_true_2 by congruence.
    cbn [mbind result_bind]. by rewrite (Hl k Hk).
  - cbn [mbind result_bind]. by rewrite (Hl k Hk).
Qed.

Lemma encode_elems_typed l dt encs final :
  Forall elem_ok l -> encodable dt -> encode_elems l (Some dt) = Ok (encs, final) ->
  final = Some dt /\ decode_at dt encs l.
Proof.
  intros Hl Hdt. revert encs final. induction Hl as [|v l Hv Hl IH]; cbn [encode_elems]; intros encs final E.
  - apply (inj Ok) in E. by simplify_eq.
  - apply result_bind_Ok in E as ([enc t] & Ev & E). rewrite (encodable_not_null dt) in E by done.
    destruct (DataType_Equals dt t) eqn:Heq; cbn [negb mbind result_bind] in E; [|done].
    apply result_bind_Ok in E as ([encs' final'] & El & E). apply (inj Ok) in E. simplify_eq.
    destruct (IH _ _ El) as [-> Hd]. split; [done|]. apply decode_at_cons; [|done].
    apply encodeScalar_decodes in Ev as [(-> & -> & ->)|(Ht & s & -> & _ & Ed)]; [done| |done].
    assert (dt = t) as ->; [|done]. apply encodable_strict; [done..|].
    unfold DataType_Equals in Heq.
    rewrite (bool_decide_eq_false_2 (dt_Name dt = nullStr)), (bool_decide_eq_false_2 (dt_Name t = nullStr)) in Heq
      by (by apply encodable_name). done.
Qed.

Lemma encode_elems_null l encs final :
  Forall elem_ok l -> encode_elems l (Some NullType) = Ok (encs, final) ->
  (final = Some NullType /\ length encs = length l /\ omap decoded_elem l = []) \/
  (exists dt s rest, final = Some dt /\ encodable dt /\ decode_at dt encs l /\
     omap decoded_elem l = s :: rest /\ array_kind (dt_Name dt) = Some (kind_of s)).
Proof.
  intros Hl. revert encs final. induction Hl as [|v l Hv Hl IH]; cbn [encode_elems]; intros encs final E.
  - apply (inj Ok) in E. simplify_eq. by left.
  - apply result_bind_Ok in E as ([enc t] & Ev & E). rewrite NullType_strict in E. cbn [mbind result_bind] in E.
    apply result_bind_Ok in E as ([encs' final'] & El & E). apply (inj Ok) in E. simplify_eq.
    apply encodeScalar_decodes in Ev as [(-> & -> & Hn)|(Ht & s & Hs & Hk & Ed)]; [| |done]; cbn [omap list_omap].
    + destruct (IH _ _ El) as [(-> & Hlen & Hnone)|(dt & s & rest & -> & Hdt & Hd & Ho & Hk)]; rewrite Hn.
      * left. cbn [length]. by rewrite Hlen.
      * right. exists dt, s, rest. split_and!; [done..| |done|done]. apply decode_at_cons; [by rewrite Hn|done].
    + apply encode_elems_typed in El as [-> Hd]; [|done..]. right. rewrite Hs.
      exists t, s, (omap decoded_elem l). split_and!; [done..| |done|done].
      apply decode_at_cons; [by rewrite Hs|done].
Qed.

(** A first element of an untyped slice is a first element after a null. *)
Lemma encode_elems_start v l :
  encode_elems (v :: l) None = encode_elems (v :: l) (Some NullType).
Proof. cbn [encode_elems]. by rewrite NullType_strict. Qed.

Lemma encode_slice_decodes l e :
  Forall elem_ok l -> encode_slice (Some l) = Ok e -> Decode e = Ok (decoded (GSlice (Some l))).
Proof.
  intros Hl E. cbn [encode_slice] in E. apply result_bind_Ok in E as ([encs final] & El & E).
  destruct l as [|v l]; [apply (inj Ok) in El; by simplify_eq|]. rewrite encode_elems_start in El.
  destruct (encode_elems_null _ _ _ Hl El) as [(-> & Hlen & Hnone)|(dt & s & rest & -> & Hdt & Hd & Ho & Hk)];
    cbn [decoded].
  - apply (inj Ok) in E as <-. rewrite Hnone. unfold Decode. cbn [ev_DataType dt_Name IsArray ev_Data].
    rewrite bool_decide_eq_true_2 by done. by rewrite Hlen.
  - rewrite Ho. destruct (encodable_name dt Hdt) as (Ha & Hn & He).
    rewrite bool_decide_eq_false_2 in E by done. apply (inj Ok) in E as <-.
    unfold Decode. cbn [ev_DataType dt_Name IsArray ev_Data Metadata].
    by rewrite bool_decide_eq_false_2, Ha, Hk, (Hd _ Hk) by done.
Qed.

(** Values survive their encoding: what [EncodeValue] produces for a scalar,
    a pointer or a slice decodes to the value it was given (a nil as null, a
    slice of nils as an array of nulls without a type). *)
Theorem EncodeValue_roundtrip v e :
  goval_ok v -> EncodeValue v = Ok e -> Decode e = Ok (decoded v).
Proof.
  intros Hv E. destruct v as [v|[l|]|[[l|]|]]; cbn [EncodeValue goval_ok] in *;
    [|by apply encode_slice_decodes|by cbn in E; simplify_eq|by apply encode_slice_decodes|by cbn in E; simplify_eq|by simplify_eq].
  assert (e = null_value /\ decoded_elem v = None \/
          exists enc t, encodeScalar v = Ok (enc, t) /\ e = mkEncodedValue t [Some enc]) as [[-> Hn]|(enc & t & Ev & ->)].
  { destruct v as [|[| |[]| | | |]|[[| |[]| | | |]|]]; try (left; by simplify_eq); right;
      apply result_bind_Ok in E as ([enc t] & Ev & E); apply (inj Ok) in E as <-; eauto. }
  { cbn [decoded]. by rewrite Hn. }
  cbn [decoded]. apply encodeScalar_decodes in Ev as [(-> & -> & ->)|(Ht & s & -> & Hk & Ed)]; [done| |done].
  destruct (encodable_name t Ht) as (Ha & Hn & _). destruct Ht as [Har _].
  unfold Decode. cbn [ev_DataType ev_Data]. change (slice_bytes (Some enc)) with enc.
  by rewrite bool_decide_eq_false_2, Ha, Har, Ed by done.
Qed.
End roundtrip.

Section parse.
Context `{HS : Strings}.

(** Bytes that the string functions leave alone. *)
Definition plain (b : byte) : bool :=
  is_ascii b && negb (is_space b) && bool_decide (lower_byte b = b).

Lemma plain_id s : forallb plain s = true -> TrimSpace (ToLower s) = s.
Proof.
  intros Hs. assert (forallb is_ascii s = true) as Ha.
  { rewrite forallb_forall in Hs |- *. intros b Hb. apply Hs in Hb. unfold plain in Hb.
    by apply andb_prop in Hb as [[? ?]%andb_prop _]. }
  assert (map lower_byte s = s) as Hl.
  { rewrite <- (map_id s) at 2. apply map_ext_in. intros b Hb. rewrite forallb_forall in Hs.
    apply Hs, andb_prop in Hb as [_ Hb]. by apply bool_decide_eq_true in Hb. }
  rewrite ToLower_ascii, Hl by done. apply TrimSpace_ascii; [done|].
  rewrite forallb_forall in Hs |- *. intros b Hb. apply Hs in Hb. unfold plain in Hb.
  by apply andb_prop in Hb as [[? ?]%andb_prop _].
Qed.

Lemma digits_plain s : Forall is_digit s -> forallb plain s = true /\ forallb is_meta_char s = true.
Proof.
  induction 1 as [|b s [f Hb] _ IH]; [done|]. cbn [forallb]. destruct IH as [-> ->].
  by destruct b; try done; vm_compute.
Qed.

Lemma nat_string z : 0 <= z -> Forall is_digit (big_String z) /\ big_String z <> [].
Proof.
  intros Hz. unfold big_String. destruct (Z.ltb_spec z 0); [lia|].
  split; [apply dec_string_digits|apply dec_string_nonnil].
Qed.

Lemma span_app p u b v : forallb p u = true -> p b = false -> span p (u ++ b :: v) = (u, b :: v).
Proof.
  intros Hu Hb. induction u as [|a u IH]; cbn [app span].
  - by rewrite Hb.
  - cbn [forallb] in Hu. apply andb_prop in Hu as [-> Hu]. by rewrite IH.
Qed.

Lemma split_comma_digits p s :
  Forall is_digit p -> Forall is_digit s -> split_commas (p ++ x2c :: s) = [p; s].
Proof.
  assert (forall u, Forall is_digit u -> split_commas u = [u]) as Hd.
  { induction 1 as [|b u [f Hb] _ IH]; [done|]. cbn [split_commas]. rewrite IH.
    rewrite bool_decide_eq_false_2; [done|]. by intros ->. }
  intros Hp Hs. induction Hp as [|b p [f Hb] _ IH]; cbn [app split_commas].
  - by rewrite Hd.
  - rewrite IH, bool_decide_eq_false_2; [done|]. by intros ->.
Qed.

Lemma parse_metadata_String z : 0 <= z <= maxPrecision -> parse_metadata (big_String z) = Ok z.
Proof.
  intros Hz. destruct (nat_string z) as [Hd _]; [lia|]. unfold parse_metadata.
  rewrite TrimSpace_ascii.
  - unfold Atoi. rewrite SetString_String, bool_decide_eq_true_2 by (unfold maxPrecision in *; ints).
    destruct (Z.gtb_spec z maxPrecision); [lia|]. rewrite uwrap_small by (unfold maxPrecision in *; ints). done.
  - clear Hz. induction Hd as [|b s [f Hb] _ IH]; [done|]. cbn [forallb]. rewrite IH. by destruct b.
  - clear Hz. induction Hd as [|b s [f Hb] _ IH]; [done|]. cbn [forallb]. rewrite IH. by destruct b.
Qed.

Definition type_names : list bytes :=
  [intStr; int4Str; textStr; boolStr; byteaStr; uuidStr; NumericStr].

Lemma typeAlias_range x n : typeAlias !! x = Some n -> n ∈ type_names.
Proof.
  revert x n. change (map_Forall (fun _ n => n ∈ type_names) typeAlias).
  apply (bool_decide_unpack _). by vm_compute.
Qed.

Lemma type_names_plain n :
  n ∈ type_names -> forallb plain n = true /\ typeAlias !! n = Some n.
Proof.
  intros Hn. repeat (apply elem_of_cons in Hn as [->|Hn]; [by vm_compute|]).
  by apply not_elem_of_nil in Hn.
Qed.

Lemma Clean_again c c' : Clean c = Ok c' -> Clean c' = Ok c' /\ dt_Name c' ∈ type_names /\ Metadata c' = Metadata c.
Proof.
  destruct c as [nm a m]. unfold Clean at 1. cbn [dt_Name IsArray Metadata].
  destruct (typeAlias !! ToLower nm) as [n|] eqn:Hn; [|done].
  intros (u & Hok & E)%result_bind_Ok. apply (inj Ok) in E as <-.
  pose proof (typeAlias_range _ _ Hn) as Hin. destruct (type_names_plain n Hin) as [Hp Ha].
  split; [|done]. unfold Clean. cbn [dt_Name].
  rewrite ToLower_ascii.
  - assert (map lower_byte n = n) as ->.
    2: { rewrite Ha. cbn [IsArray Metadata]. unfold HasMetadata in *. cbn [Metadata] in *. by rewrite Hok. }
    clear -Hp. induction n as [|b n IH]; [done|]. cbn [forallb map] in *. apply andb_prop in Hp as [Hb Hp].
    rewrite IH by done. apply andb_prop in Hb as [_ Hb]. apply bool_decide_eq_true in Hb. by rewrite Hb.
  - clear -Hp. induction n as [|b n IH]; [done|]. cbn [forallb] in *. apply andb_prop in Hp as [Hb Hp].
    rewrite IH by done. by apply andb_prop in Hb as [[-> _]%andb_prop _].
Qed.

(** The printed form of a cleaned type, and how the expression matches it. *)
Lemma match_String c c' :
  is_uint 16 (Metadata c).1 -> is_uint 16 (Metadata c).2 -> Clean c = Ok c' ->
  forallb plain (DataType_String c') = true /\
  exists meta, match_type (DataType_String c') = Some (dt_Name c', meta, IsArray c') /\
    (dt_Name c' = NumericStr /\ meta = big_String (Metadata c').1 ++ x2c :: big_String (Metadata c').2 /\
       0 <= (Metadata c').1 <= maxPrecision /\ 0 <= (Metadata c').2 <= maxPrecision \/
     dt_Name c' <> NumericStr /\ meta = [] /\ Metadata c' = (0, 0)).
Proof.
  intros Hu1 Hu2 E. destruct (Clean_again _ _ E) as (E' & Hin & Hmeta). rewrite <- Hmeta in Hu1, Hu2. clear E Hmeta c.
  destruct (type_names_plain _ Hin) as [Hp Ha].
  unfold Clean in E'. unfold DataType_String.
  destruct c' as [n a [p q]]. cbn [dt_Name IsArray Metadata fst snd] in *. rewrite Ha. cbn [default from_option]. unfold id.
  destruct (typeAlias !! ToLower n) as [n'|] eqn:Hn'; [|done].
  apply result_bind_Ok in E' as (u & Hok & E). apply (inj Ok) in E. injection E as ->.
  destruct (decide (n = NumericStr)) as [Hnum|Hnum].
  - subst n. rewrite bool_decide_eq_true_2 by done. rewrite bool_decide_eq_false_2 in Hok.
    2: { intros Hin'. by repeat (apply elem_of_cons in Hin' as [?|Hin']; [done|]); apply not_elem_of_nil in Hin'. }
    rewrite bool_decide_eq_true_2 in Hok by done.
    destruct (negb (HasMetadata _)); [done|]. unfold CheckDecimalPrecisionAndScale in Hok.
    destruct (Z.ltb_spec p 1), (Z.gtb_spec p maxPrecision), (Z.gtb_spec q p); try done.
    assert (0 <= p <= maxPrecision /\ 0 <= q <= maxPrecision) as [Hpr Hqr] by ints.
    destruct (nat_string p) as [Hdp Hnp], (nat_string q) as [Hdq _]; [lia..|].
    destruct (digits_plain _ Hdp) as [Hpp Hmp], (digits_plain _ Hdq) as [Hpq Hmq].
    split.
    { destruct a; rewrite !forallb_app, Hpp, Hpq; by vm_compute. }
    exists (big_String p ++ x2c :: big_String q). split; [|left; done].
    assert (forall t, match_type (NumericStr ++ x28 :: (big_String p ++ x2c :: big_String q) ++ x29 :: t) =
      (fun a => (NumericStr, big_String p ++ x2c :: big_String q, a)) <$> match_brackets t) as Hm.
    { intros t. unfold match_type. rewrite span_app by (by vm_compute). cbn [NumericStr str String.list_byte_of_string].
      rewrite span_app; [|by rewrite forallb_app, Hmp; cbn [forallb]; rewrite Hmq|done].
      by destruct (big_String p). }
    specialize (Hm (if a then str "[]" else [])).
    replace (if a then (NumericStr ++ str "(" ++ big_String p ++ str "," ++ big_String q ++ str ")") ++ str "[]"
             else NumericStr ++ str "(" ++ big_String p ++ str "," ++ big_String q ++ str ")")
      with (NumericStr ++ x28 :: (big_String p ++ x2c :: big_String q) ++ x29 :: (if a then str "[]" else [])).
    { rewrite Hm. by destruct a. }
    by destruct a; rewrite <- ?app_assoc; cbn; rewrite <- ?app_assoc.
  - assert (n ∈ [intStr; int4Str; textStr; boolStr; byteaStr; uuidStr]) as Hin'.
    { change type_names with ([intStr; int4Str; textStr; boolStr; byteaStr; uuidStr] ++ [NumericStr]) in Hin.
      by apply elem_of_app in Hin as [?|?%list_elem_of_singleton]. }
    rewrite bool_decide_eq_false_2 by done. rewrite bool_decide_eq_true_2 in Hok by done.
    unfold HasMetadata in Hok. cbn [Metadata] in Hok.
    case_bool_decide as Hm; cbn [negb] in Hok; [|done]. simplify_eq.
    split; [destruct a; by rewrite ?forallb_app, Hp|]. exists []. split; [|by right].
    unfold match_type. clear -Hin'. destruct a;
      repeat (apply elem_of_cons in Hin' as [->|Hin']; [by vm_compute|]); by apply not_elem_of_nil in Hin'.
Qed.

(** Data types survive printing: a type that [Clean] accepts prints to a
    string that [ParseDataType] reads back as the same type. *)
Theorem ParseDataType_String c c' :
  is_uint 16 (Metadata c).1 -> is_uint 16 (Metadata c).2 ->
  Clean c = Ok c' -> ParseDataType (DataType_String c') = Ok c'.
Proof.
  intros Hu1 Hu2 E. destruct (match_String c c' Hu1 Hu2 E) as (Hp & meta & Hm & Hmeta).
  destruct (Clean_again _ _ E) as (E' & Hin & _). destruct (type_names_plain _ Hin) as [_ Ha].
  unfold ParseDataType. rewrite plain_id by done. rewrite bool_decide_eq_false_2 by (intros Hnil; by rewrite Hnil in Hm).
  rewrite Hm, Ha. destruct c' as [n a [p q]]. cbn [dt_Name IsArray Metadata fst snd] in *.
  destruct Hmeta as [(-> & -> & Hp' & Hq')|(Hn & -> & [= -> ->])].
  - destruct (nat_string p) as [Hdp Hnp], (nat_string q) as [Hdq _]; [lia..|].
    rewrite bool_decide_eq_false_2 by (by destruct (big_String p)).
    rewrite bool_decide_eq_true_2 by done. cbn [negb].
    rewrite split_comma_digits, !parse_metadata_String by done. exact E'.
  - by rewrite bool_decide_eq_true_2.
Qed.
End parse.

(** ** Concrete inputs *)

Module Samples.
#[local] Instance ascii_strings : Strings := {
  ToLower := map lower_byte;
  EqualFold s t := bool_decide (map lower_byte s = map lower_byte t);
  TrimSpace s := s;
  ToLower_ascii _ _ := eq_refl;
  EqualFold_ascii _ _ _ _ := eq_refl;
  TrimSpace_ascii _ _ _ := eq_refl
}.

(** Integers with a precision and a scale. *)
#[local] Instance integer_decimals : Decimals := {
  Decimal := Z * (Z * Z);
  Precision d := d.2.1;
  Scale d := d.2.2;
  Decimal_String d := big_String d.1;
  ParseDecimalExplicit s p q :=
    match big_SetString s with Some z => Ok (z, (p, q)) | None => Err (ErrMsg "invalid decimal") end
}.

Definition price : Decimal := (-250, (5, 2)).

Lemma Decode_typed_witness :
  value_of_type (mkDataType NumericStr false (5, 2)) (VScalar (SNumeric price)).
Proof.
  refine (Decode_typed (mkEncodedValue (mkDataType NumericStr false (5, 2)) [Some (encodeNotNull (str "-250"))]) _).
  intros s p q e. cbn. by destruct (big_SetString s); intros [=<-].
Defined.

(** A slice that starts with a nil pointer. *)
Definition prices : goval := GSlice (Some [EPtr None; EVal (GDecimal price)]).

Lemma EncodeValue_roundtrip_witness :
  exists e, EncodeValue prices = Ok e /\ dt_Name (ev_DataType e) = NumericStr /\
    Decode e = Ok (VArray KNumeric [None; Some (SNumeric price)]).
Proof.
  eexists. split; [reflexivity|]. split; [reflexivity|].
  refine (EncodeValue_roundtrip prices _ _ _); [|reflexivity].
  repeat constructor.
Defined.

Lemma ParseDataType_String_witness :
  ParseDataType (str "numeric(5,2)[]") = Ok (mkDataType NumericStr true (5, 2)).
Proof.
  refine (ParseDataType_String (mkDataType (str "Decimal") true (5, 2)) (mkDataType NumericStr true (5, 2)) _ _ _).
  - by apply (bool_decide_unpack _); vm_compute.
  - by apply (bool_decide_unpack _); vm_compute.
  - by vm_compute.
Defined.
End Samples.
