(* ===== verification/Auth.v ===== *)
(** * Authenticators

    The authenticators of src/core/crypto/auth (plain ed25519, Ethereum
    personal sign, plain secp256k1) and of
    src/extensions/auth/ed25519_sha256.go, the registry of
    src/extensions/auth/auth.go that names them, and the contexts of
    src/common/context.go that are passed along with a request.  The hash
    functions and the curve operations of the imported packages are the class
    [Crypto]. *)

From S2P Require Import Prelude.
From S2P Require Import Wire.
From S2P Require Import BigInt.
From S2P Require Import Keys.
From S2P Require Import Ident.
From S2P Require Import Tx.
From S2P Require Import Params.
From S2P Require Import Values.
From Stdlib Require Import Strings.Byte.

#[local] Open Scope Z_scope.

(** ** Contexts *)

(** [NetworkUpdates] is a map that may be nil. *)
Record ChainContext := mkChainContext {
  cc_ChainID : bytes;
  NetworkParameters_ : NetworkParameters;
  NetworkUpdates : option ParamUpdates;
  MigrationParams : option (Z * Z)
}.

(** The chain context that a block context points to is shared and mutable: it
    is part of the state of the application, not of this record. *)
Record BlockContext := mkBlockContext {
  bc_Height : Z;
  bc_Hash : bytes;
  bc_Timestamp : Z;
  bc_Proposer : option PublicKey
}.

Record TxContext := mkTxContext {
  tc_Block : BlockContext;
  TxID : bytes;
  Signer : slice;
  Caller : bytes;
  tc_Authenticator : bytes
}.

Record VerifyContext := mkVerifyContext {
  vc_Chain : ChainContext;
  vc_Block : BlockContext;
  vc_Namespace : bytes;
  vc_Action : bytes
}.

(** ** The interface *)

(** [auth.Authenticator]; an authenticator that also implements
    [ContextAuthenticator] has [VerifyWithContext]. *)
Record Authenticator := mkAuthenticator {
  authn_Verify : bytes -> bytes -> bytes -> result unit;
  authn_Identifier : bytes -> result bytes;
  authn_KeyType : KeyType;
  VerifyWithContext : option (VerifyContext -> bytes -> bytes -> bytes -> result unit)
}.

Definition ErrInvalidSignature : error := ErrSentinel "invalid signature".
Definition ErrAuthenticatorExists : error := ErrSentinel "authenticator already exists".
Definition ErrAuthenticatorNotFound : error := ErrSentinel "authenticator not found".
Definition ErrNonCanonicalAuthType : error := ErrSentinel "authenticator type is not the registered name".

(** ** The authenticators of the repository *)

(** Hashes and curve operations; public keys are compressed bytes. *)
Class Crypto := {
  sha256 : bytes -> bytes;
  keccak256 : bytes -> bytes;
  ed25519_Verify : bytes -> bytes -> bytes -> bool;
  ParsePubKey : bytes -> result bytes;
  ecdsa_Verify : bytes -> bytes -> Z -> Z -> bool;
  RecoverCompact : bytes -> bytes -> result bytes;
  SerializeUncompressed : bytes -> bytes
}.

Section authenticators.
Context `{Crypto}.

Definition Ed25519Auth : bytes := str "ed25519".
Definition EthPersonalSignAuth : bytes := str "secp256k1_ep".
Definition Secp256k1Auth : bytes := str "secp256k1".
Definition Ed25519Sha256Auth : bytes := str "ed25519_nr".

Definition Ed25519_Identifier (publicKey : bytes) : result bytes :=
  if negb (zlen publicKey =? 32) then Err (ErrMsg "invalid ed25519 public key size")
  else Ok (hex_encode publicKey).

Definition verified (valid : bool) : result unit :=
  if negb valid then Err ErrInvalidSignature else Ok tt.

Definition Ed25519_Verify (publicKey msg signature : bytes) : result unit :=
  pubkey ← UnmarshalEd25519PublicKey publicKey;
  if negb (zlen signature =? 64) then Err (ErrMsg "invalid signature length")
  else verified (ed25519_Verify (pk_Bytes pubkey) msg signature).

Definition Ed25519Authenticator : Authenticator :=
  mkAuthenticator Ed25519_Verify Ed25519_Identifier KeyTypeEd25519 None.

Definition Ed25519Sha256_Verify (publicKey msg signature : bytes) : result unit :=
  pubkey ← UnmarshalEd25519PublicKey publicKey;
  if negb (zlen signature =? 64) then Err (ErrMsg "invalid signature length")
  else verified (ed25519_Verify (pk_Bytes pubkey) (sha256 msg) signature).

Definition Ed22519Sha256Authenticator : Authenticator :=
  mkAuthenticator Ed25519Sha256_Verify Ed25519_Identifier KeyTypeEd25519 None.

(** The order of the curve's group. *)
Definition secp256k1_N : Z :=
  115792089237316195423570985008687907852837564279074904382605163141518161494337.

(** [Secp256k1PublicKey.VerifyRaw]: the recovery id is not looked at. *)
Definition VerifyRaw (pubkey data rawSig : bytes) : result bool :=
  if negb (zlen rawSig =? 65) then Err (ErrMsg "invalid signature length")
  else
    let rawSig := take 64 rawSig in
    let r := be_value (take 32 rawSig) in
    let s := be_value (drop 32 rawSig) in
    if secp256k1_N <=? r then Err (ErrMsg "r value overflow")
    else if secp256k1_N <=? s then Err (ErrMsg "s value overflow")
    else Ok (ecdsa_Verify pubkey data r s).

Definition Secp256k1_Identifier (publicKey : bytes) : result bytes :=
  pub ← UnmarshalSecp256k1PublicKey ParsePubKey publicKey;
  mret (hex_encode (pk_Bytes pub)).

Definition Secp256k1_Verify (publicKey msg signature : bytes) : result unit :=
  let hash := sha256 msg in
  pubkey ← UnmarshalSecp256k1PublicKey ParsePubKey publicKey;
  valid ← VerifyRaw (pk_Bytes pubkey) hash signature;
  verified valid.

Definition Secp25k1Authenticator : Authenticator :=
  mkAuthenticator Secp256k1_Verify Secp256k1_Identifier KeyTypeSecp256k1 None.

(** The checksum of EIP-55 on the digits [ds] from position [j] on. *)
Fixpoint eip55_digits (hash : bytes) (j : nat) (ds : bytes) : bytes :=
  match ds with
  | [] => []
  | b :: ds' =>
      let h := Z_of_byte (nth (j / 2) hash x00) in
      let hashByte := if Nat.even j then Z.shiftr h 4 else Z.land h 15 in
      (if (57 <? Z_of_byte b) && (7 <? hashByte) then byte_of_Z (Z_of_byte b - 32) else b)
      :: eip55_digits hash (S j) ds'
  end.

Definition eip55ChecksumAddr (addr : bytes) : bytes :=
  let buf := hex_encode addr in
  str "0x" ++ eip55_digits (keccak256 buf) 0 buf.

Definition Eth_Identifier (ident : bytes) : result bytes :=
  if negb (zlen ident =? 20) then Err (ErrMsg "invalid eth address")
  else Ok (eip55ChecksumAddr ident).

Definition textHash (data : bytes) : bytes :=
  keccak256 (x19 :: str "Ethereum Signed Message:" ++ x0a :: big_String (zlen data) ++ data).

Definition RecoverSecp256k1KeyFromSigHash (hash sig : bytes) : result bytes :=
  if negb (zlen sig =? 65) then Err (ErrMsg "invalid signature")
  else RecoverCompact (byte_of_Z (Z_of_byte (nth 64 sig x00) + 27) :: take 64 sig) hash.

Definition EthereumAddressFromPubKey (pubKey : bytes) : bytes :=
  let fullHash := keccak256 (drop 1 (SerializeUncompressed pubKey)) in
  drop (length fullHash - 20) fullHash.

Definition Eth_Verify (identity msg signature : bytes) : result unit :=
  if negb (zlen signature =? 65) then Err (ErrMsg "invalid signature length")
  else
    let v := Z_of_byte (nth 64 signature x00) in
    let signature :=
      if (v =? 27) || (v =? 28) then take 64 signature ++ [byte_of_Z (v - 27)] else signature in
    pubkey ← RecoverSecp256k1KeyFromSigHash (textHash msg) signature;
    if bool_decide (EthereumAddressFromPubKey pubkey = identity) then Ok tt
    else Err (ErrMsg "invalid signature: unexpected address").

Definition EthSecp256k1Authenticator : Authenticator :=
  mkAuthenticator Eth_Verify Eth_Identifier KeyTypeSecp256k1 None.
End authenticators.

(** ** The registry *)

Inductive ModOperation := ModRemove | ModUpdate | ModAdd.

Abbreviation authenticators := (gmap (list byte) Authenticator).

Section registry.
Context `{Strings}.

Definition RegisterAuthenticator (op : ModOperation) (name : bytes) (auth : Authenticator)
    (regs : authenticators) : result authenticators :=
  let name := ToLower name in
  match regs !! name with
  | Some _ =>
      match op with
      | ModAdd => Err (ErrWrap "" ErrAuthenticatorExists)
      | ModRemove => Ok (delete name regs)
      | ModUpdate => Ok (<[name := auth]> regs)
      end
  | None =>
      match op with
      | ModRemove | ModUpdate => Err (ErrMsg "resolution does not exist to modify")
      | ModAdd => Ok (<[name := auth]> regs)
      end
  end.

(** The registrations of the init functions; the last one is behind the build
    tag [auth_ed25519_sha256]. *)
Definition native_authenticators `{Crypto} (ed25519_sha256 : bool) : result authenticators :=
  regs ← RegisterAuthenticator ModAdd Ed25519Auth Ed25519Authenticator ∅;
  regs ← RegisterAuthenticator ModAdd EthPersonalSignAuth EthSecp256k1Authenticator regs;
  regs ← RegisterAuthenticator ModAdd Secp256k1Auth Secp25k1Authenticator regs;
  if ed25519_sha256
  then RegisterAuthenticator ModAdd Ed25519Sha256Auth Ed22519Sha256Authenticator regs
  else Ok regs.

Context (regs : authenticators).

Definition GetAuthenticator (name : bytes) : result Authenticator :=
  match regs !! ToLower name with
  | None => Err (ErrWrap "" ErrAuthenticatorNotFound)
  | Some auth => Ok auth
  end.

Definition IsAuthTypeValid (authType : bytes) : bool :=
  bool_decide (is_Some (regs !! authType)).

Definition RegisteredAuthType (name : bytes) : result bytes :=
  let key := ToLower name in
  match regs !! key with
  | None => Err (ErrWrap "" ErrAuthenticatorNotFound)
  | Some _ => Ok key
  end.

Definition ValidateCanonicalAuthType (authType : bytes) : result unit :=
  if IsAuthTypeValid authType then Ok tt
  else _ ← RegisteredAuthType authType; Err (ErrWrap "" ErrNonCanonicalAuthType).

Definition GetIdentifier (authType sender : bytes) : result bytes :=
  match GetAuthenticator authType with
  | Err _ => Err (ErrMsg "authenticator not found")
  | Ok authn => authn_Identifier authn sender
  end.

Definition GetAuthenticatorKeyType (authType : bytes) : result KeyType :=
  match GetAuthenticator authType with
  | Err _ => Err (ErrMsg "authenticator not found")
  | Ok authn => Ok (authn_KeyType authn)
  end.

Definition RequiresContext (authType : bytes) : result bool :=
  authn ← GetAuthenticator authType;
  mret (match VerifyWithContext authn with Some _ => true | None => false end).

Definition VerifySignature (sender msg : bytes) (sig : option Signature) : result unit :=
  match sig with
  | None => Err (ErrMsg "transaction signature is required")
  | Some sig =>
      authn ← GetAuthenticator (sig_Type sig);
      authn_Verify authn sender msg (slice_bytes (sig_Data sig))
  end.

Definition VerifySignatureWithContext (ctx : VerifyContext) (sender msg : bytes)
    (sig : option Signature) : result unit :=
  match sig with
  | None => Err (ErrMsg "transaction signature is required")
  | Some sig =>
      authn ← GetAuthenticator (sig_Type sig);
      match VerifyWithContext authn with
      | Some verify => verify ctx sender msg (slice_bytes (sig_Data sig))
      | None => authn_Verify authn sender msg (slice_bytes (sig_Data sig))
      end
  end.
End registry.

(** ** Identifiers *)

Section identifiers.
Context `{HK : Crypto}.

Lemma eip55_digits_lower hash j bs : map lower_byte (eip55_digits hash j (hex_encode bs)) = hex_encode bs.
Proof.
  revert j. induction bs as [|b bs IH]; intros j; [done|].
  cbn [hex_encode eip55_digits map]. rewrite IH.
  assert (forall n (up : bool), 0 <= n < 16 ->
    lower_byte (if (57 <? Z_of_byte (hex_digit n)) && up
                then byte_of_Z (Z_of_byte (hex_digit n) - 32) else hex_digit n) = hex_digit n) as Hd.
  { intros n up Hn. pose proof (hex_digit_all (fun n d => bool_decide
      (lower_byte (if (57 <? Z_of_byte d) && up then byte_of_Z (Z_of_byte d - 32) else d) = d))
      ltac:(by destruct up; vm_compute) n Hn) as E. by apply bool_decide_eq_true in E. }
  destruct (nibbles b). by rewrite !Hd.
Qed.

(** Addresses survive their checksummed form. *)
Lemma eip55_inj a b : eip55ChecksumAddr a = eip55ChecksumAddr b -> a = b.
Proof.
  unfold eip55ChecksumAddr. intros E%(inj (app (str "0x"))). apply (f_equal (map lower_byte)) in E.
  rewrite !eip55_digits_lower in E. by apply (inj hex_encode) in E.
Qed.

(** Two senders of one authenticator of the repository that have the same
    identifier have the same key bytes, once a plain secp256k1 key is given in
    compressed form. *)
Theorem identifiers_distinct (a b s : bytes) authn :
  authn ∈ [Ed25519Authenticator; EthSecp256k1Authenticator; Secp25k1Authenticator; Ed22519Sha256Authenticator] ->
  (authn = Secp25k1Authenticator -> ParsePubKey a = Ok a /\ ParsePubKey b = Ok b) ->
  authn_Identifier authn a = Ok s -> authn_Identifier authn b = Ok s -> a = b.
Proof.
  assert (Ed25519_Identifier a = Ok s -> Ed25519_Identifier b = Ok s -> a = b) as Hed.
  { unfold Ed25519_Identifier. destruct (negb _); [done|]. intros <-%(inj Ok). destruct (negb _); [done|].
    intros E%(inj Ok). by apply (inj hex_encode). }
  intros Hin Hc. repeat apply elem_of_cons in Hin as [->|Hin]; [..|by apply not_elem_of_nil in Hin];
    cbn [authn_Identifier Ed25519Authenticator EthSecp256k1Authenticator Secp25k1Authenticator
         Ed22519Sha256Authenticator]; [done| | |done].
  - unfold Eth_Identifier. destruct (negb _); [done|]. intros <-%(inj Ok). destruct (negb _); [done|].
    intros E%(inj Ok). by apply eip55_inj.
  - destruct Hc as [Ha Hb]; [done|]. unfold Secp256k1_Identifier, UnmarshalSecp256k1PublicKey.
    rewrite Ha, Hb. cbn. intros <-%(inj Ok) E%(inj Ok). by apply (inj hex_encode).
Qed.
End identifiers.

(** ** Canonical signature types *)

Section canonical.
Context `{HS : Strings}.

(** Registered names are lower-case ASCII strings. *)
Definition canonical (regs : authenticators) : Prop :=
  forall name a, regs !! name = Some a -> forallb is_ascii name = true /\ map lower_byte name = name.

Lemma lower_byte_twice b : lower_byte (lower_byte b) = lower_byte b.
Proof. by destruct b. Qed.

Lemma lower_byte_ascii b : is_ascii b = true -> is_ascii (lower_byte b) = true.
Proof. by destruct b. Qed.

Lemma canonical_lower name : forallb is_ascii name = true ->
  forallb is_ascii (ToLower name) = true /\ map lower_byte (ToLower name) = ToLower name.
Proof.
  intros Ha. rewrite ToLower_ascii by done. split.
  - induction name as [|b name IH]; [done|]. cbn [forallb map] in *. apply andb_prop in Ha as [Hb Ha].
    by rewrite lower_byte_ascii, IH.
  - rewrite map_map. apply map_ext, lower_byte_twice.
Qed.

Lemma RegisterAuthenticator_canonical op name authn regs regs' :
  forallb is_ascii name = true -> canonical regs ->
  RegisterAuthenticator op name authn regs = Ok regs' -> canonical regs'.
Proof.
  intros Ha Hc. unfold RegisterAuthenticator.
  assert (canonical (<[ToLower name := authn]> regs)) as Hi.
  { intros n a [[<- _]|[_ E]]%lookup_insert_Some; [by apply canonical_lower|by eapply Hc]. }
  destruct (regs !! ToLower name), op; try done; intros <-%(inj Ok); try done.
  intros n b [_ E]%lookup_delete_Some. by eapply Hc.
Qed.

Lemma native_canonical `{HK : Crypto} ext regs : native_authenticators ext = Ok regs -> canonical regs.
Proof.
  unfold native_authenticators. intros (r1 & E1 & (r2 & E2 & (r3 & E3 & E)%result_bind_Ok)%result_bind_Ok)%result_bind_Ok.
  apply RegisterAuthenticator_canonical in E1; [|done|by intros ? ? ?%lookup_empty_Some].
  apply RegisterAuthenticator_canonical in E2; [|done..].
  apply RegisterAuthenticator_canonical in E3; [|done..].
  destruct ext; [by apply RegisterAuthenticator_canonical in E|by apply (inj Ok) in E as <-].
Qed.

(** The authenticators of the repository use the two native key types. *)
Lemma native_key_types `{HK : Crypto} ext regs name a :
  native_authenticators ext = Ok regs -> regs !! name = Some a ->
  authn_KeyType a = KeyTypeSecp256k1 \/ authn_KeyType a = KeyTypeEd25519.
Proof.
  set (P := fun (_ : bytes) a => authn_KeyType a = KeyTypeSecp256k1 \/ authn_KeyType a = KeyTypeEd25519).
  enough (native_authenticators ext = Ok regs -> map_Forall P regs) as H by (intros E; exact (H E name a)).
  assert (forall nm au rs rs', P nm au -> map_Forall P rs -> RegisterAuthenticator ModAdd nm au rs = Ok rs' ->
    map_Forall P rs') as Hstep.
  { intros nm au rs rs' Ha Hrs. unfold RegisterAuthenticator. destruct (rs !! _); [done|].
    intros <-%(inj Ok). by apply map_Forall_insert_2. }
  intros (r1 & E1 & (r2 & E2 & (r3 & E3 & E)%result_bind_Ok)%result_bind_Ok)%result_bind_Ok.
  apply Hstep in E1; [|by right|apply map_Forall_empty]. apply Hstep in E2; [|by left|done].
  apply Hstep in E3; [|by left|done].
  destruct ext; [by apply Hstep in E; [|right|]|by apply (inj Ok) in E as <-].
Qed.

(** The signature type of an authenticator has one accepted spelling: a type
    that [ValidateCanonicalAuthType] accepts is the registered name that the
    case-insensitive lookups resolve it to, and any other spelling of a
    registered name is refused as not canonical. *)
Theorem one_auth_type regs t :
  canonical regs -> forallb is_ascii t = true ->
  ValidateCanonicalAuthType regs t =
    match RegisteredAuthType regs t with
    | Ok name => if bool_decide (name = t) then Ok tt else Err (ErrWrap "" ErrNonCanonicalAuthType)
    | Err e => Err e
    end.
Proof.
  intros Hc Ha. unfold ValidateCanonicalAuthType, IsAuthTypeValid, RegisteredAuthType.
  case_bool_decide as Hv.
  - destruct Hv as [a E]. destruct (Hc _ _ E) as [_ Hl].
    rewrite ToLower_ascii, Hl, E by done. by rewrite bool_decide_eq_true_2.
  - destruct (regs !! ToLower t) as [a|] eqn:E; [|done]. cbn.
    rewrite bool_decide_eq_false_2; [done|]. intros Et. rewrite Et in E. by destruct Hv.
Qed.
End canonical.

(** ** Signatures *)

Section malleable.
Context `{HS : Strings} `{HK : Crypto}.

(** The signature with another recovery id. *)
Definition with_recovery (sig : bytes) (v : byte) : bytes := take 64 sig ++ [v].

Lemma with_recovery_length sig v : zlen sig = 65 -> zlen (with_recovery sig v) = 65.
Proof. unfold zlen, with_recovery. rewrite length_app, length_take. cbn [length]. lia. Qed.

Lemma with_recovery_take sig v : zlen sig = 65 -> take 64 (with_recovery sig v) = take 64 sig.
Proof.
  unfold zlen, with_recovery. intros Hl. rewrite take_app_le by (rewrite length_take; lia).
  by rewrite take_take.
Qed.

Lemma with_recovery_last sig v : zlen sig = 65 -> nth 64 (with_recovery sig v) x00 = v.
Proof.
  unfold zlen, with_recovery. intros Hl. assert (length (take 64 sig) = 64)%nat as Ht by (rewrite length_take; lia).
  rewrite app_nth2; rewrite Ht; [done|lia].
Qed.

(** Plain secp256k1 signatures: the recovery id is ignored. *)
Lemma Secp256k1_Verify_recovery pub msg sig v :
  zlen sig = 65 -> Secp256k1_Verify pub msg (with_recovery sig v) = Secp256k1_Verify pub msg sig.
Proof.
  intros Hl. unfold Secp256k1_Verify. destruct (UnmarshalSecp256k1PublicKey _ _); [|done].
  cbn [mbind result_bind]. unfold VerifyRaw. by rewrite with_recovery_length, Hl, with_recovery_take.
Qed.

(** Personal signatures: a recovery id of 0 or 1 may be written 27 or 28. *)
Lemma Eth_Verify_recovery id msg sig v :
  zlen sig = 65 -> v = x00 \/ v = x01 ->
  Eth_Verify id msg (with_recovery sig (byte_of_Z (Z_of_byte v + 27))) = Eth_Verify id msg (with_recovery sig v).
Proof.
  intros Hl Hv. unfold Eth_Verify. rewrite !with_recovery_length, !with_recovery_last, !with_recovery_take by done.
  by destruct Hv as [-> | ->].
Qed.

(** The transaction with another signature of the same type. *)
Definition resigned (t : Transaction) (sg : Signature) (data : bytes) : Transaction :=
  mkTransaction (Some (mkSignature (Some data) (sig_Type sg))) (tx_Body t) (Serialization t) (Sender t).

Lemma WriteCompactBytes_inj_app a b u v :
  zlen a = zlen b -> WriteCompactBytes (Some a) ++ u = WriteCompactBytes (Some b) ++ v -> a = b.
Proof.
  intros Hl. cbn [WriteCompactBytes]. rewrite Hl, <- !app_assoc. intros E%(inj (app _)).
  apply app_inj_1 in E; [by destruct E|]. unfold zlen in Hl. lia.
Qed.

Lemma resigned_differs t sg a b :
  zlen a = zlen b -> a <> b -> serialize (resigned t sg a) <> serialize (resigned t sg b).
Proof.
  intros Hl Hne E. apply Hne. unfold serialize, resigned in E. cbn [tx_Signature tx_Body Serialization Sender] in E.
  apply (inj (app _)) in E. cbn [fmap option_fmap option_map] in E.
  assert (forall d, zlen (Signature_Bytes (mkSignature (Some d) (sig_Type sg))) =
                    zlen (AppendUvarint (u64 (zlen d))) + zlen d +
                    zlen (AppendUvarint (u64 (zlen (sig_Type sg))) ++ sig_Type sg)) as Hs.
  { intros d. unfold Signature_Bytes. rewrite !zlen_app. cbn [sig_Data sig_Type].
    change (slice_bytes (Some d)) with d. change (slice_len (Some d)) with (zlen d). lia. }
  cbn [EmptyIfNil] in E.
  apply WriteCompactBytes_inj_app in E; [|by rewrite !Hs, Hl].
  unfold Signature_Bytes in E. cbn [sig_Data sig_Type] in E.
  change (slice_len (Some a)) with (zlen a) in E. change (slice_len (Some b)) with (zlen b) in E.
  rewrite Hl in E. apply (inj (app _)) in E. apply app_inj_1 in E; [by destruct E|]. unfold zlen in Hl.
  change (length a = length b). lia.
Qed.

(** The bytes of a signature are not canonical, although its type is: for a
    secp256k1 or personal signature with recovery id 0 or 1, the transaction
    with that id written another way has the same body, sender and
    verification result and different bytes, hence another hash. *)
Theorem signature_malleable regs t sg sig (v : byte) :
  regs !! ToLower (sig_Type sg) ∈ [Some Secp25k1Authenticator; Some EthSecp256k1Authenticator] ->
  zlen sig = 65 -> v = x00 \/ v = x01 ->
  let t1 := resigned t sg (with_recovery sig v) in
  let t2 := resigned t sg (with_recovery sig (byte_of_Z (Z_of_byte v + 27))) in
  (forall msg, VerifySignature regs (slice_bytes (Sender t2)) msg (tx_Signature t2) =
               VerifySignature regs (slice_bytes (Sender t1)) msg (tx_Signature t1)) /\
  tx_Body t2 = tx_Body t1 /\ Sender t2 = Sender t1 /\ serialize t2 <> serialize t1.
Proof.
  intros Hreg Hl Hv t1 t2. split; [|split; [done|split; [done|]]].
  - intros msg. unfold VerifySignature, GetAuthenticator. cbn [tx_Signature t1 t2 resigned sig_Type Sender sig_Data].
    change (slice_bytes (Some ?x)) with x.
    repeat apply elem_of_cons in Hreg as [->|Hreg]; [..|by apply not_elem_of_nil in Hreg]; cbn [mbind result_bind].
    + cbn [authn_Verify Secp25k1Authenticator]. by rewrite !Secp256k1_Verify_recovery.
    + cbn [authn_Verify EthSecp256k1Authenticator]. by apply Eth_Verify_recovery.
  - apply resigned_differs; [by rewrite !with_recovery_length|].
    intros [_ E]%app_inj_1; [|done]. by destruct Hv as [-> | ->].
Qed.
End malleable.

(** ** Concrete inputs *)

Module Samples.
#[local] Existing Instance Values.Samples.ascii_strings.

(** Stand-ins for the imported packages: keys recover from the first bytes of a
    signature, and the hashes are the identity. *)
#[local] Instance toy_crypto : Crypto := {
  sha256 m := m;
  keccak256 m := m;
  ed25519_Verify _ _ _ := true;
  ParsePubKey b := Ok b;
  ecdsa_Verify _ _ _ _ := true;
  RecoverCompact sig _ := Ok (take 33 sig);
  SerializeUncompressed k := x04 :: k
}.

Definition native : authenticators :=
  match native_authenticators false with Ok regs => regs | Err _ => ∅ end.

Definition eth_sig : Signature := mkSignature (Some (repeat x07 65)) EthPersonalSignAuth.

Lemma signature_malleable_witness :
  serialize (resigned sample_tx eth_sig (with_recovery (repeat x07 65) x1c)) <>
  serialize (resigned sample_tx eth_sig (with_recovery (repeat x07 65) x01)).
Proof.
  refine (proj2 (proj2 (proj2 (signature_malleable native sample_tx eth_sig (repeat x07 65) x01 _ _ _)))).
  - apply elem_of_cons. right. apply elem_of_cons. left. by vm_compute.
  - by vm_compute.
  - by right.
Defined.

Lemma one_auth_type_witness :
  ValidateCanonicalAuthType native (str "Secp256k1_EP") = Err (ErrWrap "" ErrNonCanonicalAuthType).
Proof.
  refine (one_auth_type native (str "Secp256k1_EP") _ _); [|by vm_compute].
  by apply (native_canonical false).
Defined.
End Samples.
