(* ===== verification/Commit.v ===== *)
(** * Votes and commit information

    [VoteInfo], [CommitInfo] and [SignVote] of src/core/types/commit.go and the
    messages [AckRes], [ConsensusReset] and [DiscoveryResponse] of
    src/node/types/consensus.go, with their binary codecs.  Signing and
    verification of the signature libraries are parameters. *)

From S2P Require Import Prelude.
From S2P Require Import Wire.
From S2P Require Import Keys.
From S2P Require Import Ident.
From S2P Require Import Tx.
From S2P Require Import Merkle.
From S2P Require Import Block.
From S2P Require Import Params.
From Stdlib Require Import Strings.Byte.

#[local] Open Scope Z_scope.

(** ** Data *)

(** [Signature] of commit.go. *)
Record VoteSig := mkVoteSig { vs_PubKeyType : KeyType; vs_PubKey : slice; vs_Data : slice }.

(** [AckStatus], a Go int. *)
Definition AckReject : Z := 0.
Definition AckAgree : Z := 1.
Definition AckForked : Z := 2.

Record VoteInfo := mkVoteInfo {
  AckStatus : Z;
  vi_AppHash : option (list byte);
  vi_Signature : VoteSig
}.

Record CommitInfo := mkCommitInfo {
  ci_AppHash : bytes;
  Votes : list VoteInfo;
  ci_ParamUpdates : ParamUpdates;
  ValidatorUpdates : list Validator
}.

Record PrivateKey := mkPrivateKey {
  sk_Type : KeyType;
  sk_Public : PublicKey;
  sk_Sign : bytes -> result bytes
}.

#[export] Instance VoteSig_eq_decision : EqDecision VoteSig.
Proof. solve_decision. Defined.
#[export] Instance VoteInfo_eq_decision : EqDecision VoteInfo.
Proof. solve_decision. Defined.

Section commit.
Context (reg : registry).
(** The [Verify] method of a public key. *)
Context (PubKey_Verify : PublicKey -> bytes -> bytes -> result bool).

(** ** Signatures *)

Definition VoteSig_WriteTo (s : VoteSig) : result bytes :=
  kt ← KeyType_WriteTo reg (vs_PubKeyType s);
  mret (kt ++ WriteCompactBytes (vs_PubKey s) ++ WriteCompactBytes (vs_Data s)).

(** [Bytes] drops the error; nothing is written before the key type. *)
Definition VoteSig_Bytes (s : VoteSig) : bytes :=
  match VoteSig_WriteTo s with Ok b => b | Err _ => [] end.

Definition VoteSig_ReadFrom : reader VoteSig :=
  kt ← rwrap "failed to read public key type" (KeyType_ReadFrom reg);
  pubKey ← rwrap "failed to read public key" (ReadCompactBytes Stream);
  sig ← rwrap "failed to read signature" (ReadCompactBytes Stream);
  mret (mkVoteSig kt pubKey sig).

(** ** Votes *)

Definition VoteInfo_MarshalBinary (v : VoteInfo) : result bytes :=
  sig ← wrap_err "failed to write signature" (VoteSig_WriteTo (vi_Signature v));
  if AckStatus v =? AckForked then
    match vi_AppHash v with
    | None => Err (ErrMsg "missing app hash for diverged vote")
    | Some h => mret (sig ++ le_bytes 4 (AckStatus v) ++ h)
    end
  else mret (sig ++ le_bytes 4 (AckStatus v)).

Definition VoteInfo_read : reader VoteInfo :=
  sig ← rwrap "failed to read signature" VoteSig_ReadFrom;
  status ← rwrap "failed to read ack status" (read_sle 4);
  if status =? AckForked then
    h ← rwrap "failed to read app hash" (ReadFull HashLen);
    mret (mkVoteInfo status (Some h) sig)
  else mret (mkVoteInfo status None sig).

Definition VoteInfo_UnmarshalBinary (data : slice) : result VoteInfo :=
  '(v, _) ← VoteInfo_read (slice_bytes data); mret v.

(** The bytes a vote signs. *)
Definition vote_message (blkID : bytes) (ack : bool) (appHash : bytes) : bytes :=
  blkID ++ bool_byte ack ++ (if ack then appHash else []).

Definition VoteInfo_Verify (v : VoteInfo) (blkID appHash : bytes) : result unit :=
  let sig := vi_Signature v in
  pubKey ← wrap_err "failed to unmarshal public key"
             (UnmarshalPublicKey reg (slice_bytes (vs_PubKey sig)) (vs_PubKeyType sig));
  msg ← (if AckStatus v =? AckForked then
           match vi_AppHash v with
           | None => Err (ErrMsg "missing app hash for diverged vote")
           | Some h => mret (blkID ++ bool_byte true ++ h)
           end
         else if AckStatus v =? AckAgree then mret (blkID ++ bool_byte true ++ appHash)
         else if AckStatus v =? AckReject then mret (blkID ++ bool_byte false)
         else mret blkID);
  valid ← wrap_err "failed to verify signature" (PubKey_Verify pubKey msg (slice_bytes (vs_Data sig)));
  if valid : bool then mret tt else Err (ErrMsg "invalid voteInfo signature").

Definition SignVote (blkID : bytes) (ack : bool) (appHash : option (list byte))
    (privKey : PrivateKey) : result VoteSig :=
  buf ← (if ack then
           match appHash with
           | None => Err (ErrMsg "missing app hash for ack vote")
           | Some h => mret (blkID ++ bool_byte ack ++ h)
           end
         else mret (blkID ++ bool_byte ack));
  sig ← wrap_err "failed to sign vote" (sk_Sign privKey buf);
  mret (mkVoteSig (sk_Type privKey) (Some (pk_Bytes (sk_Public privKey))) (Some sig)).

(** ** Commit information *)

Fixpoint write_all {A} (marshal : A -> result bytes) (l : list A) : result bytes :=
  match l with
  | [] => mret []
  | a :: l' => b ← marshal a; rest ← write_all marshal l';
               mret (WriteCompactBytes (Some b) ++ rest)
  end.

Definition CommitInfo_MarshalBinary (ci : CommitInfo) : result bytes :=
  votes ← write_all VoteInfo_MarshalBinary (Votes ci);
  puBts ← wrap_err "failed to marshal param updates" (ParamUpdates_MarshalBinary reg (ci_ParamUpdates ci));
  vals ← write_all (Validator_MarshalBinary reg) (ValidatorUpdates ci);
  mret (ci_AppHash ci ++ AppendUvarint (u64 (zlen (Votes ci))) ++ votes ++
        WriteCompactBytes (Some puBts) ++
        AppendUvarint (u64 (zlen (ValidatorUpdates ci))) ++ vals).

Definition CommitInfo_read : reader CommitInfo :=
  appHash ← rwrap "failed to read app hash" (ReadFull HashLen);
  voteCount ← rwrap "failed to read vote count" ReadUvarint;
  rLen ← rlen;
  if voteCount >? rLen then rfail (ErrMsg "vote count exceeds remaining data length")
  else
    votes ← read_n (Z.to_nat voteCount)
              (voteBytes ← rwrap "failed to read vote" (ReadCompactBytes HasLen);
               rwrap "failed to unmarshal vote" (rlift (VoteInfo_UnmarshalBinary voteBytes)));
    puBts ← rwrap "failed to read param updates" (ReadCompactBytes HasLen);
    pu ← rwrap "failed to unmarshal param updates" (rlift (ParamUpdates_UnmarshalBinary reg puBts));
    valCount ← rwrap "failed to read validator update count" ReadUvarint;
    rLen ← rlen;
    if valCount >? rLen then rfail (ErrMsg "validator update count exceeds remaining data length")
    else
      vals ← read_n (Z.to_nat valCount)
               (valBts ← rwrap "failed to read validator" (ReadCompactBytes HasLen);
                rwrap "failed to unmarshal validator" (rlift (Validator_UnmarshalBinary reg valBts)));
      mret (mkCommitInfo appHash votes pu vals).

Definition CommitInfo_UnmarshalBinary (data : bytes) : result CommitInfo :=
  '(ci, _) ← CommitInfo_read data; mret ci.
End commit.

(** ** Responses to proposals *)

Definition NackStatusInvalidBlock : bytes := str "invalid_block".
Definition NackStatusOutOfSync : bytes := str "out_of_sync".
Definition NackStatusUnknown : bytes := str "unknown".

Record OutOfSyncProof := mkProof { op_Header : BlockHeader; op_Signature : slice }.

Record AckRes := mkAckRes {
  ACK : bool;
  NackStatus : option (list byte);
  ar_Height : Z;
  BlkHash : bytes;
  ar_AppHash : option (list byte);
  ar_Proof : option OutOfSyncProof;
  ar_Signature : option VoteSig
}.

Definition AckRes_Valid (ar : AckRes) : result unit :=
  if ACK ar && (match ar_AppHash ar with None => true | Some _ => false end)
  then Err (ErrMsg "app hash is required for ACK")
  else if negb (ACK ar) && (match ar_AppHash ar with Some _ => true | None => false end)
  then Err (ErrMsg "app hash is not allowed for nACK")
  else if negb (ACK ar) && (match NackStatus ar with None => true | Some _ => false end)
  then Err (ErrMsg "nack status is required for nACK")
  else if negb (ACK ar) && bool_decide (NackStatus ar = Some NackStatusOutOfSync) &&
          (match ar_Proof ar with None => true | Some _ => false end)
  then Err (ErrMsg "proof is required for out of sync nack")
  else match ar_Signature ar with
  | None => Err (ErrMsg "signature is required in the AckRes")
  | Some _ => Ok tt
  end.

Definition AckRes_OutOfSync (ar : AckRes) : option OutOfSyncProof :=
  if ACK ar then None
  else if bool_decide (NackStatus ar = Some NackStatusOutOfSync) then ar_Proof ar
  else None.

(** [buf.Read(p)] of a [bytes.Buffer] with [len(p) = n]. *)
Definition Buffer_Read (n : nat) : reader bytes := fun bs =>
  match bs, n with
  | [], S _ => Err ErrEOF
  | _, _ => Ok (take n bs ++ replicate (n - length bs) x00, drop n bs)
  end.

Section ackres.
Context (reg : registry).

Definition AckRes_MarshalBinary (ar : AckRes) : result bytes :=
  _ ← AckRes_Valid ar;
  body ← (if ACK ar then mret (default [] (ar_AppHash ar))
          else
            let status := default [] (NackStatus ar) in
            if bool_decide (status = NackStatusOutOfSync) then
              match ar_Proof ar with
              | None => Err (ErrPanic "nil pointer dereference")
              | Some p =>
                  hdr ← writeBlockHeader reg (op_Header p);
                  mret (WriteCompactString status ++ WriteCompactBytes (Some hdr) ++
                        WriteCompactBytes (op_Signature p))
              end
            else mret (WriteCompactString status));
  match ar_Signature ar with
  | None => Err (ErrPanic "nil pointer dereference")
  | Some sig =>
      mret (bool_byte (ACK ar) ++ le_bytes 8 (u64 (ar_Height ar)) ++ BlkHash ar ++ body ++
            WriteCompactBytes (Some (VoteSig_Bytes reg sig)))
  end.

Definition AckRes_read_status : reader (bytes * option OutOfSyncProof) :=
  ns ← rwrap "failed to read nack status in AckRes" (ReadCompactString HasLen);
  if bool_decide (ns = NackStatusOutOfSync) then
    headerBts ← rwrap "failed to read header in AckRes" (ReadCompactBytes HasLen);
    header ← rwrap "failed to decode header in AckRes"
               (rlift ('(h, _) ← DecodeBlockHeader reg HasLen (slice_bytes headerBts); mret h));
    sigBts ← rwrap "failed to read signature in AckRes" (ReadCompactBytes HasLen);
    mret (ns, Some (mkProof header sigBts))
  else mret (ns, None).

Definition AckRes_read : reader AckRes :=
  ack ← rwrap "failed to read ACK" read_bool;
  height ← rwrap "failed to read height in AckRes" (read_le 8);
  blkHash ← rwrap "failed to read block hash in AckRes" (Buffer_Read HashLen);
  '(appHash, status, proof) ←
    ((if ack : bool then
       h ← rwrap "failed to read app hash in AckRes" (Buffer_Read HashLen);
       mret (Some h, None, None)
     else
       '(ns, p) ← AckRes_read_status; mret (None, Some ns, p))
     : reader (option (list byte) * option (list byte) * option OutOfSyncProof));
  sigBts ← rwrap "failed to read signature in AckRes" (ReadCompactBytes HasLen);
  sig ← rwrap "failed to decode signature in AckRes"
          (rlift ('(s, _) ← VoteSig_ReadFrom reg (slice_bytes sigBts); mret s));
  mret (mkAckRes ack status (i64 height) blkHash appHash proof (Some sig)).

(** [UnmarshalBinary] of a zero [AckRes]. *)
Definition AckRes_UnmarshalBinary (data : bytes) : result AckRes :=
  '(ar, _) ← AckRes_read data; mret ar.
End ackres.

(** ** Reset and discovery messages *)

Record ConsensusReset := mkReset { ToHeight : Z; TxIDs : list bytes }.

Definition ConsensusReset_Bytes (cr : ConsensusReset) : bytes :=
  le_bytes 8 (u64 (ToHeight cr)) ++ le_bytes 8 (u64 (zlen (TxIDs cr))) ++ concat (TxIDs cr).

Fixpoint split_hashes (n : nat) (payload : bytes) : list bytes :=
  match n with
  | O => []
  | S n' => take HashLen payload :: split_hashes n' (drop HashLen payload)
  end.

Definition ConsensusReset_UnmarshalBinary (data : bytes) : result ConsensusReset :=
  if (zlen data <? 16) || negb ((zlen data - 16) mod 32 =? 0)
  then Err (ErrMsg "invalid ConsensusReset data")
  else
    let n := (zlen data - 16) / 32 in
    if negb (le_value (take 8 (drop 8 data)) =? n)
    then Err (ErrMsg "invalid ConsensusReset tx count")
    else Ok (mkReset (i64 (le_value (take 8 data))) (split_hashes (Z.to_nat n) (drop 16 data))).

Definition DiscoveryResponse_Bytes (bestHeight : Z) : bytes := le_bytes 8 (u64 bestHeight).

Definition DiscoveryResponse_UnmarshalBinary (data : bytes) : result Z :=
  if negb (zlen data =? 8) then Err (ErrMsg "invalid DiscoveryMsg data")
  else Ok (i64 (le_value data)).

(** ** Round trips *)

Section roundtrip.
Context (reg : registry) (Hreg : reg_ok reg).

Lemma slice_fits_le (s : slice) (bs : bytes) :
  zlen (slice_bytes s) <= zlen bs -> fits bs -> slice_fits s.
Proof. unfold slice_fits, fits. lia. Qed.

Lemma zlen_WriteCompact_le s : zlen (slice_bytes s) <= zlen (WriteCompactBytes s).
Proof.
  destruct s as [d|]; [apply zlen_WriteCompactBytes_ge|]. cbn [slice_bytes default].
  apply zlen_nonneg.
Qed.

Lemma decodes_VoteSig s bs :
  VoteSig_WriteTo reg s = Ok bs -> fits bs -> decodes (VoteSig_ReadFrom reg) bs s.
Proof.
  unfold VoteSig_WriteTo. intros (kt & Ekt & <-%(inj Ok))%result_bind_Ok Hf.
  pose proof (zlen_WriteCompact_le (vs_PubKey s)). pose proof (zlen_WriteCompact_le (vs_Data s)).
  assert (slice_fits (vs_PubKey s) /\ slice_fits (vs_Data s)) as [F1 F2].
  { split; (eapply slice_fits_le; [|exact Hf]); rewrite !zlen_app; zlens; lia. }
  eapply decodes_bind; [by apply decodes_rwrap, decodes_KeyType|].
  eapply decodes_bind; [by apply decodes_rwrap, decodes_ReadCompactBytes|].
  eapply decodes_bind_ret; [by apply decodes_rwrap, decodes_ReadCompactBytes|].
  destruct s. apply decodes_ret.
Qed.

(** Only a forked vote carries its app hash. *)
Definition norm_vote (v : VoteInfo) : VoteInfo :=
  if AckStatus v =? AckForked then v else mkVoteInfo (AckStatus v) None (vi_Signature v).

Definition vote_ok (v : VoteInfo) : Prop :=
  is_sint 32 (AckStatus v) /\ forall h, vi_AppHash v = Some h -> hash_wf h.

Lemma VoteInfo_Unmarshal_Marshal v bs :
  vote_ok v -> VoteInfo_MarshalBinary reg v = Ok bs -> fits bs ->
  VoteInfo_UnmarshalBinary reg (Some bs) = Ok (norm_vote v).
Proof.
  intros [Hst Hh] Hm Hf. unfold VoteInfo_UnmarshalBinary. change (slice_bytes (Some bs)) with bs.
  enough (decodes (VoteInfo_read reg) bs (norm_vote v)) as D by by rewrite (decodes_full _ _ _ D).
  unfold VoteInfo_MarshalBinary in Hm.
  apply result_bind_Ok in Hm as (sig & Hs%wrap_err_Ok & Hm). unfold VoteInfo_read, norm_vote.
  assert (fits sig -> decodes (VoteSig_ReadFrom reg) sig (vi_Signature v)) as Ds
    by by apply decodes_VoteSig.
  destruct (AckStatus v =? AckForked) eqn:Ef.
  - destruct (vi_AppHash v) as [h|] eqn:Eh; [|done]. apply (inj Ok) in Hm as <-.
    eapply decodes_bind; [apply decodes_rwrap, Ds; unfold fits in *; rewrite zlen_app in Hf; zlens; lia|].
    eapply decodes_bind; [apply decodes_rwrap, decodes_read_sle; [lia|exact Hst]|]. cbv beta.
    rewrite Ef. eapply decodes_bind_ret; [by apply decodes_rwrap, decodes_ReadFull, Hh|].
    destruct v; cbn in *; subst. apply decodes_ret.
  - apply (inj Ok) in Hm as <-.
    eapply decodes_bind; [apply decodes_rwrap, Ds; unfold fits in *; rewrite zlen_app in Hf; zlens; lia|].
    eapply decodes_bind_ret; [apply decodes_rwrap, decodes_read_sle; [lia|exact Hst]|]. cbv beta.
    rewrite Ef. apply decodes_ret.
Qed.

(** ** Lists of encoded items *)

Lemma zlen_write_all {A} (marshal : A -> result bytes) l bs :
  write_all marshal l = Ok bs -> zlen l <= zlen bs /\
  forall a b, a ∈ l -> marshal a = Ok b -> zlen b <= zlen bs.
Proof.
  revert bs. induction l as [|a l IH]; intros bs; cbn [write_all].
  { intros <-%(inj Ok). split; [done|]. by intros a b ?%not_elem_of_nil. }
  intros (b & Eb & (rest & Er & <-%(inj Ok))%result_bind_Ok)%result_bind_Ok.
  destruct (IH _ Er) as [H1 H2]. rewrite zlen_cons, zlen_app.
  pose proof (zlen_WriteCompactBytes_ge b) as Hb.
  assert (1 <= zlen (WriteCompactBytes (Some b))).
  { cbn [WriteCompactBytes]. rewrite zlen_app. unfold AppendVarint.
    pose proof (zlen_AppendUvarint_pos (zigzag (i64 (zlen b)))). zlens. lia. }
  split; [zlens; lia|]. intros a' b' [->|Hin]%elem_of_cons Hm.
  - assert (b' = b) as -> by congruence. zlens. lia.
  - specialize (H2 _ _ Hin Hm). zlens. lia.
Qed.

Lemma decodes_read_all {A} m1 m2 (marshal : A -> result bytes) (unm : slice -> result A)
    (norm : A -> A) l bs :
  write_all marshal l = Ok bs -> fits bs ->
  (forall a b, a ∈ l -> marshal a = Ok b -> fits b -> unm (Some b) = Ok (norm a)) ->
  decodes (read_n (length l) (vb ← rwrap m1 (ReadCompactBytes HasLen); rwrap m2 (rlift (unm vb))))
    bs (map norm l).
Proof.
  revert bs. induction l as [|a l IH]; intros bs; cbn [write_all length read_n map].
  { intros <-%(inj Ok) _ _. apply decodes_ret. }
  intros (b & Eb & (rest & Er & <-%(inj Ok))%result_bind_Ok)%result_bind_Ok Hf Hu.
  pose proof (zlen_WriteCompactBytes_ge b).
  assert (fits b /\ fits rest) as [Fb Fr] by (unfold fits in *; rewrite zlen_app in Hf; zlens; lia).
  eapply decodes_bind.
  { eapply decodes_bind_ret; [by apply decodes_rwrap, decodes_ReadCompactBytes|]. cbv beta.
    apply decodes_rwrap, decodes_rlift, Hu; [constructor|done..]. }
  eapply decodes_bind_ret; [apply IH; [done..|]|apply decodes_ret].
  intros a' b' Hin. apply Hu. by constructor.
Qed.

Lemma decodes_count {A} (k : nat -> reader A) e err n b v :
  0 <= n -> n <= zlen b -> fits b -> decodes (k (Z.to_nat n)) b v ->
  decodes (count ← rwrap e ReadUvarint; rLen ← rlen;
           if count >? rLen then rfail err
           else k (Z.to_nat count)) (AppendUvarint (u64 n) ++ b) v.
Proof.
  intros Hn Hle Hf Hk. unfold fits in Hf. rewrite uwrap_small by (ints; lia).
  eapply decodes_bind; [apply decodes_rwrap, decodes_ReadUvarint; ints; lia|]. cbv beta.
  apply (decodes_len_guard (fun len => n >? len)); [|done].
  intros m Hm. rewrite Z.gtb_ltb. apply Z.ltb_ge. lia.
Qed.

(** ** Commit information *)

Definition val_fits (v : Validator) : Prop :=
  slice_len (Identifier (val_ID v)) < MaxUint32 - 10 /\ is_sint 64 (Power v).

Record commit_ok (ci : CommitInfo) : Prop := mkCommitOk {
  co_app : hash_wf (ci_AppHash ci);
  co_votes : Forall vote_ok (Votes ci);
  co_updates : updates_ok reg (ci_ParamUpdates ci);
  co_vals : Forall val_fits (ValidatorUpdates ci)
}.

Definition norm_commit (ci : CommitInfo) : CommitInfo :=
  mkCommitInfo (ci_AppHash ci) (map norm_vote (Votes ci)) (ci_ParamUpdates ci) (ValidatorUpdates ci).

Lemma Validator_Unmarshal_Marshal v bs :
  val_fits v -> Validator_MarshalBinary reg v = Ok bs ->
  Validator_UnmarshalBinary reg (Some bs) = Ok v.
Proof.
  intros [H1 H2] Hm. unfold Validator_UnmarshalBinary. change (slice_bytes (Some bs)) with bs.
  by rewrite (decodes_full _ _ _ (decodes_Validator reg Hreg v bs H1 H2 Hm)).
Qed.

Lemma ParamUpdates_Unmarshal_Marshal pu bs :
  updates_ok reg pu -> ParamUpdates_MarshalBinary reg pu = Ok bs ->
  ParamUpdates_UnmarshalBinary reg (Some bs) = Ok pu.
Proof.
  intros Hok E. destruct (decodes_ParamUpdates reg Hreg pu Hok) as (bs' & E' & D).
  assert (bs' = bs) as -> by congruence. unfold ParamUpdates_UnmarshalBinary.
  change (slice_bytes (Some bs)) with bs. by rewrite (decodes_full _ _ _ D).
Qed.

Lemma decodes_CommitInfo ci bs :
  commit_ok ci -> CommitInfo_MarshalBinary reg ci = Ok bs -> fits bs ->
  decodes (CommitInfo_read reg) bs (norm_commit ci).
Proof.
  intros [Happ Hvotes Hpu Hvals] Hm Hf. unfold CommitInfo_MarshalBinary in Hm.
  apply result_bind_Ok in Hm as (votes & Ev & Hm).
  apply result_bind_Ok in Hm as (puBts & Ep%wrap_err_Ok & Hm).
  apply result_bind_Ok in Hm as (vals & Ea & <-%(inj Ok)).
  destruct (zlen_write_all _ _ _ Ev) as [Lv _], (zlen_write_all _ _ _ Ea) as [La _].
  pose proof (zlen_WriteCompactBytes_ge puBts).
  assert (fits votes /\ fits puBts /\ fits vals /\
    fits (votes ++ WriteCompactBytes (Some puBts) ++
          AppendUvarint (u64 (zlen (ValidatorUpdates ci))) ++ vals)) as (Fv & Fp & Fa & Ft).
  { unfold fits in *. rewrite !zlen_app in Hf. rewrite !zlen_app. zlens. lia. }
  eapply decodes_bind; [by apply decodes_rwrap, decodes_ReadFull|]. cbv beta.
  eapply (decodes_count (fun n => votes ← read_n n _; _)); [apply zlen_nonneg|..|exact Ft|].
  { rewrite zlen_app. zlens. lia. }
  cbv beta. unfold zlen at 1. rewrite Nat2Z.id.
  eapply decodes_bind.
  { eapply (decodes_read_all _ _ (VoteInfo_MarshalBinary reg) _ norm_vote); [done..|].
    intros a b Hin. apply VoteInfo_Unmarshal_Marshal. by eapply list.Forall_forall. }
  eapply decodes_bind; [by apply decodes_rwrap, decodes_ReadCompactBytes|]. cbv beta.
  eapply decodes_bind_nil; [apply decodes_rwrap, decodes_rlift; by apply ParamUpdates_Unmarshal_Marshal|].
  cbv beta. eapply (decodes_count (fun n => vals ← read_n n _; _)); [apply zlen_nonneg|done..|].
  cbv beta. unfold zlen at 1. rewrite Nat2Z.id.
  eapply decodes_bind_ret.
  { eapply (decodes_read_all _ _ (Validator_MarshalBinary reg) _ id); [done..|].
    intros a b Hin Hb _. apply Validator_Unmarshal_Marshal; [by eapply list.Forall_forall|done]. }
  unfold norm_commit. rewrite map_id. apply decodes_ret.
Qed.

(** ** Responses *)

Lemma decodes_Buffer_Read n bs : length bs = n -> decodes (Buffer_Read n) bs bs.
Proof.
  intros <- rest. unfold Buffer_Read.
  assert (take (length bs) (bs ++ rest) ++ replicate (length bs - length (bs ++ rest)) x00 = bs) as E.
  { rewrite take_app_length, length_app.
    replace (length bs - (length bs + length rest))%nat with 0%nat by lia. apply app_nil_r. }
  rewrite E, drop_app_length. by destruct bs; [destruct rest|].
Qed.

Record ack_ok (ar : AckRes) : Prop := mkAckOk {
  ak_height : is_sint 64 (ar_Height ar);
  ak_hash : hash_wf (BlkHash ar);
  ak_app : forall h, ar_AppHash ar = Some h -> hash_wf h;
  ak_proof : forall p, ar_Proof ar = Some p -> header_ok reg (op_Header p);
  ak_sig : forall s, ar_Signature ar = Some s -> is_Some (keyTypes reg !! vs_PubKeyType s)
}.

(** The fields that the response carries: an ACK has no status and only an
    out-of-sync nACK a proof, whose header keeps milliseconds. *)
Definition norm_ack (ar : AckRes) : AckRes :=
  if ACK ar then mkAckRes true None (ar_Height ar) (BlkHash ar) (ar_AppHash ar) None (ar_Signature ar)
  else mkAckRes false (NackStatus ar) (ar_Height ar) (BlkHash ar) None
         ((fun p => mkProof (norm_Header (op_Header p)) (op_Signature p)) <$> AckRes_OutOfSync ar)
         (ar_Signature ar).

Lemma decodes_status ns body p :
  fits (WriteCompactString ns ++ body) ->
  (if bool_decide (ns = NackStatusOutOfSync) then
     exists q hdr, p = Some (mkProof (norm_Header (op_Header q)) (op_Signature q)) /\
       header_ok reg (op_Header q) /\ writeBlockHeader reg (op_Header q) = Ok hdr /\
       body = WriteCompactBytes (Some hdr) ++ WriteCompactBytes (op_Signature q)
   else p = None /\ body = []) ->
  decodes (AckRes_read_status reg) (WriteCompactString ns ++ body) (ns, p).
Proof.
  intros Hf H. pose proof (zlen_WriteCompactString_ge ns).
  assert (fits ns /\ fits body) as [Fn Fb] by (unfold fits in *; rewrite zlen_app in Hf; zlens; lia).
  eapply decodes_bind; [by apply decodes_rwrap, decodes_ReadCompactString|]. cbv beta.
  destruct (bool_decide _).
  - destruct H as (q & hdr & -> & Hok & Ew & ->).
    pose proof (zlen_WriteCompactBytes_ge hdr). pose proof (zlen_WriteCompact_le (op_Signature q)).
    assert (fits hdr /\ slice_fits (op_Signature q)) as [Fh Fs]
      by (unfold slice_fits, fits in *; rewrite zlen_app in Fb; zlens; lia).
    eapply decodes_bind; [by apply decodes_rwrap, decodes_ReadCompactBytes|]. cbv beta.
    eapply decodes_bind_nil.
    { apply decodes_rwrap, decodes_rlift. change (slice_bytes (Some hdr)) with hdr.
      by rewrite (decodes_full _ _ _ (decodes_Header reg Hreg HasLen _ _ Hok Ew)). }
    cbv beta. eapply decodes_bind_ret; [by apply decodes_rwrap, decodes_ReadCompactBytes|].
    apply decodes_ret.
  - destruct H as [-> ->]. apply decodes_ret.
Qed.

Lemma decodes_ack_tail ack status height blkHash appHash proof sig :
  is_sint 64 height -> is_Some (keyTypes reg !! vs_PubKeyType sig) -> fits (VoteSig_Bytes reg sig) ->
  decodes (sigBts ← rwrap "failed to read signature in AckRes" (ReadCompactBytes HasLen);
           sig ← rwrap "failed to decode signature in AckRes"
                   (rlift ('(s, _) ← VoteSig_ReadFrom reg (slice_bytes sigBts); mret s));
           mret (mkAckRes ack status (i64 (u64 height)) blkHash appHash proof (Some sig)))
    (WriteCompactBytes (Some (VoteSig_Bytes reg sig)))
    (mkAckRes ack status height blkHash appHash proof (Some sig)).
Proof.
  intros Hh [kd Ekd] Hf.
  destruct (VoteSig_WriteTo reg sig) as [sb|] eqn:Es.
  2: { unfold VoteSig_WriteTo, KeyType_WriteTo, KeyTypeDefinition in Es. by rewrite Ekd in Es. }
  unfold VoteSig_Bytes in *. rewrite Es in *.
  eapply decodes_bind_ret; [by apply decodes_rwrap, decodes_ReadCompactBytes|]. cbv beta.
  eapply decodes_bind_nil.
  { apply decodes_rwrap, decodes_rlift. change (slice_bytes (Some sb)) with sb.
    by rewrite (decodes_full _ _ _ (decodes_VoteSig sig sb Es Hf)). }
  cbv beta. rewrite swrap_uwrap, swrap_small by (done || lia). apply decodes_ret.
Qed.

Lemma decodes_AckRes ar bs :
  ack_ok ar -> AckRes_MarshalBinary reg ar = Ok bs -> fits bs ->
  decodes (AckRes_read reg) bs (norm_ack ar).
Proof.
  intros [Hh Hb Ha Hp Hs] Hm Hf. unfold AckRes_MarshalBinary in Hm.
  apply result_bind_Ok in Hm as ([] & Hv & Hm). apply result_bind_Ok in Hm as (body & Ebody & Hm).
  destruct (ar_Signature ar) as [sig|] eqn:Esig; [|done]. apply (inj Ok) in Hm as <-.
  pose proof (zlen_WriteCompactBytes_ge (VoteSig_Bytes reg sig)).
  assert (fits (VoteSig_Bytes reg sig) /\ fits body) as [Fs Fbody]
    by (unfold fits in *; rewrite !zlen_app in Hf; zlens; lia).
  pose proof (decodes_ack_tail (ACK ar)) as Htail. specialize (Hs sig eq_refl).
  unfold AckRes_read, norm_ack, AckRes_OutOfSync. rewrite Esig.
  eapply decodes_bind; [apply decodes_rwrap, decodes_read_bool|]. cbv beta.
  eapply decodes_bind; [apply decodes_rwrap, decodes_read_le, (uwrap_range 64); lia|]. cbv beta.
  eapply decodes_bind; [by apply decodes_rwrap, decodes_Buffer_Read|]. cbv beta.
  unfold AckRes_Valid in Hv. destruct (ACK ar).
  - apply (inj Ok) in Ebody as <-. destruct (ar_AppHash ar) as [h|]; [|done].
    apply (decodes_bind _ _ _ _ (Some h, None, None)); [|by apply Htail].
    eapply decodes_bind_ret; [by apply decodes_rwrap, decodes_Buffer_Read, Ha|apply decodes_ret].
  - destruct (ar_AppHash ar); [done|]. destruct (NackStatus ar) as [ns|] eqn:Ens; [|done].
    cbn [andb negb default] in *.
    assert (bool_decide (Some ns = Some NackStatusOutOfSync) = bool_decide (ns = NackStatusOutOfSync)) as Eb.
    { apply bool_decide_ext. split; congruence. }
    rewrite Eb in *. eapply (decodes_bind _ _ _ _ (None, Some ns, _)); [|by apply Htail].
    assert (exists tail, body = WriteCompactString ns ++ tail /\
      (if bool_decide (ns = NackStatusOutOfSync) then exists q hdr, ar_Proof ar = Some q /\
         writeBlockHeader reg (op_Header q) = Ok hdr /\
         tail = WriteCompactBytes (Some hdr) ++ WriteCompactBytes (op_Signature q)
       else tail = [])) as (tail & -> & Ht).
    { change (default [] (Some ns)) with ns in Ebody. destruct (bool_decide _).
      - destruct (ar_Proof ar) as [q|]; [|done].
        apply result_bind_Ok in Ebody as (hdr & Ew & <-%(inj Ok)). by eauto 10.
      - apply (inj Ok) in Ebody as <-. exists []. by rewrite app_nil_r. }
    apply (decodes_bind_ret _ _ _ (ns, (fun p => mkProof (norm_Header (op_Header p)) (op_Signature p)) <$>
      (if bool_decide (ns = NackStatusOutOfSync) then ar_Proof ar else None))).
    { apply decodes_status; [exact Fbody|]. destruct (bool_decide _).
      - destruct Ht as (q & hdr & Eq & Ew & ->). rewrite Eq. exists q, hdr.
        split_and!; [reflexivity|by apply Hp|done|done].
      - by subst. }
    apply decodes_ret.
Qed.
End roundtrip.

Lemma split_hashes_concat l rest :
  Forall hash_wf l -> split_hashes (length l) (concat l ++ rest) = l.
Proof.
  induction 1 as [|h l Hh _ IH]; [done|]. cbn [length split_hashes concat]. rewrite <- app_assoc.
  rewrite take_app_length', drop_app_length' by done. by rewrite IH.
Qed.

Lemma zlen_concat_hashes l : Forall hash_wf l -> zlen (concat l) = 32 * zlen l.
Proof.
  induction 1 as [|h l Hh _ IH]; [done|]. cbn [concat]. rewrite zlen_app, zlen_cons, IH.
  unfold hash_wf in Hh. unfold zlen at 1. rewrite Hh. unfold HashLen. lia.
Qed.

Lemma ConsensusReset_Unmarshal_Bytes cr :
  is_sint 64 (ToHeight cr) -> Forall hash_wf (TxIDs cr) -> zlen (TxIDs cr) < 2 ^ 50 ->
  ConsensusReset_UnmarshalBinary (ConsensusReset_Bytes cr) = Ok cr.
Proof.
  intros Hh Hids Hn. unfold ConsensusReset_UnmarshalBinary, ConsensusReset_Bytes.
  pose proof (zlen_concat_hashes _ Hids) as Hc. pose proof (zlen_nonneg (TxIDs cr)) as Hpos.
  change (2 ^ 50) with 1125899906842624 in Hn.
  rewrite !zlen_app, !zlen_le_bytes, Hc.
  replace (Z.of_nat 8 + (Z.of_nat 8 + 32 * zlen (TxIDs cr)) - 16) with (zlen (TxIDs cr) * 32) by lia.
  rewrite Z_mod_mult, Z_div_mult, (proj2 (Z.ltb_ge _ 16)) by lia.
  change (negb (0 =? 0)) with false. cbn [orb].
  rewrite drop_app_length', take_app_length' by (by rewrite length_le_bytes).
  rewrite take_app_length' by (by rewrite length_le_bytes).
  rewrite !le_value_bytes. change (8 * Z.of_nat 8) with 64.
  rewrite (Z.mod_small (u64 (ToHeight cr))), (Z.mod_small (u64 (zlen (TxIDs cr)))) by (apply (uwrap_range 64); lia).
  rewrite (uwrap_small 64 (zlen (TxIDs cr))) by (ints; lia). rewrite Z.eqb_refl. cbn [negb].
  rewrite swrap_uwrap, swrap_small by (done || lia).
  rewrite app_assoc, drop_app_length' by (by rewrite length_app, !length_le_bytes).
  unfold zlen. rewrite Nat2Z.id, <- (app_nil_r (concat (TxIDs cr))), split_hashes_concat by done.
  by destruct cr.
Qed.

(** Commit information survives the wire: what a node decodes from an
    encoded [CommitInfo] is the app hash, the votes in order with their
    statuses and signatures, the parameter updates and the validator updates
    (the app hash inside a vote only for forked votes). *)
Theorem CommitInfo_roundtrip reg ci bs :
  reg_ok reg -> commit_ok reg ci -> CommitInfo_MarshalBinary reg ci = Ok bs -> fits bs ->
  CommitInfo_UnmarshalBinary reg bs = Ok (norm_commit ci).
Proof.
  intros Hreg Hok Hm Hf. unfold CommitInfo_UnmarshalBinary.
  by rewrite (decodes_full _ _ _ (decodes_CommitInfo reg Hreg ci bs Hok Hm Hf)).
Qed.

(** The messages of the consensus engine survive the wire: responses to
    proposals (with the out-of-sync proof), reset messages and discovery
    responses decode to what was encoded. *)
Theorem consensus_messages_roundtrip reg ar bs cr best :
  reg_ok reg -> ack_ok reg ar -> AckRes_MarshalBinary reg ar = Ok bs -> fits bs ->
  is_sint 64 (ToHeight cr) -> Forall hash_wf (TxIDs cr) -> zlen (TxIDs cr) < 2 ^ 50 ->
  is_sint 64 best ->
  AckRes_UnmarshalBinary reg bs = Ok (norm_ack ar) /\
  ConsensusReset_UnmarshalBinary (ConsensusReset_Bytes cr) = Ok cr /\
  DiscoveryResponse_UnmarshalBinary (DiscoveryResponse_Bytes best) = Ok best.
Proof.
  intros Hreg Hok Hm Hf H1 H2 H3 Hb. split_and!.
  - unfold AckRes_UnmarshalBinary.
    by rewrite (decodes_full _ _ _ (decodes_AckRes reg Hreg ar bs Hok Hm Hf)).
  - by apply ConsensusReset_Unmarshal_Bytes.
  - unfold DiscoveryResponse_UnmarshalBinary, DiscoveryResponse_Bytes.
    rewrite zlen_le_bytes. change (negb (Z.of_nat 8 =? 8)) with false. cbv iota.
    rewrite le_value_bytes, Z.mod_small by (apply (uwrap_range 64); lia).
    by rewrite swrap_uwrap, swrap_small by (done || lia).
Qed.

(** ** Signed votes *)

Lemma vote_message_inj blk blk' ack ack' app app' :
  hash_wf blk -> hash_wf blk' ->
  vote_message blk ack app = vote_message blk' ack' app' ->
  blk = blk' /\ ack = ack' /\ (ack = true -> app = app').
Proof.
  intros Hb Hb' E. unfold vote_message in E.
  apply app_inj_1 in E as [-> E]; [|unfold hash_wf in *; congruence]. split; [done|].
  destruct ack, ack'; cbn in E; simplify_eq; by split.
Qed.

(** The bytes that [SignVote] signs, and their verification. *)
Lemma SignVote_signs sk blk ack app sig :
  SignVote blk ack (Some app) sk = Ok sig ->
  exists s, sk_Sign sk (vote_message blk ack app) = Ok s /\
    sig = mkVoteSig (sk_Type sk) (Some (pk_Bytes (sk_Public sk))) (Some s).
Proof.
  unfold SignVote.
  intros (buf & Ebuf & (s & Es%wrap_err_Ok & <-%(inj Ok))%result_bind_Ok)%result_bind_Ok.
  assert (buf = vote_message blk ack app) as ->; [|by exists s].
  unfold vote_message. destruct ack; apply (inj Ok) in Ebuf as <-; [done|]. by rewrite app_nil_r.
Qed.

Lemma SignVote_Verify reg Verify sk blk ack app sig h :
  UnmarshalPublicKey reg (pk_Bytes (sk_Public sk)) (sk_Type sk) = Ok (sk_Public sk) ->
  (forall msg s, sk_Sign sk msg = Ok s -> Verify (sk_Public sk) msg s = Ok true) ->
  SignVote blk ack (Some app) sk = Ok sig ->
  VoteInfo_Verify reg Verify (mkVoteInfo (if ack then AckAgree else AckReject) h sig) blk app = Ok tt.
Proof.
  intros Hkey Hverify (s & Es & ->)%SignVote_signs.
  unfold VoteInfo_Verify. cbn [vi_Signature vs_PubKey vs_PubKeyType vs_Data AckStatus].
  change (slice_bytes (Some (pk_Bytes (sk_Public sk)))) with (pk_Bytes (sk_Public sk)).
  rewrite Hkey. cbn. apply Hverify in Es. unfold vote_message in Es.
  destruct ack; cbn in *; [by rewrite Es|]. change (bool_byte false) with [x00]. by rewrite Es.
Qed.

(** A vote that [SignVote] signs verifies as a vote for that block and app
    hash, and the signed bytes are the bytes of no other vote and of no block
    signature: a vote for another block, the opposite answer or another app
    hash signs different bytes. *)
Theorem SignVote_verifies reg Verify sk blk ack app sig :
  UnmarshalPublicKey reg (pk_Bytes (sk_Public sk)) (sk_Type sk) = Ok (sk_Public sk) ->
  (forall msg s, sk_Sign sk msg = Ok s -> Verify (sk_Public sk) msg s = Ok true) ->
  hash_wf blk -> SignVote blk ack (Some app) sk = Ok sig ->
  VoteInfo_Verify reg Verify (mkVoteInfo (if ack then AckAgree else AckReject) None sig) blk app = Ok tt /\
  (exists s, sk_Sign sk (vote_message blk ack app) = Ok s /\ vs_Data sig = Some s) /\
  (forall blk' ack' app', hash_wf blk' -> vote_message blk' ack' app' = vote_message blk ack app ->
     blk' = blk /\ ack' = ack /\ (ack = true -> app' = app)) /\
  (forall h, hash_wf h -> h <> vote_message blk ack app).
Proof.
  intros Hkey Hverify Hblk Hsig. split_and!.
  - by apply (SignVote_Verify _ _ sk).
  - apply SignVote_signs in Hsig as (s & Es & ->). eauto.
  - intros blk' ack' app' Hb' E. destruct (vote_message_inj _ _ _ _ _ _ Hb' Hblk E) as (? & -> & ?). auto.
  - intros h Hh E. apply (f_equal length) in E. unfold vote_message, hash_wf in *.
    rewrite length_app, length_app, Hh, Hblk in E. change (length (bool_byte ack)) with 1%nat in E. lia.
Qed.

(** ** Examples *)

Definition ex_hash (b : byte) : bytes := replicate 32 b.
Definition ex_key : PublicKey := mkPublicKey KeyTypeEd25519 (ex_hash x05).
(** A key pair whose signatures are the signed bytes. *)
Definition ex_private : PrivateKey := mkPrivateKey KeyTypeEd25519 ex_key (fun m => Ok m).
Definition ex_verify (pk : PublicKey) (msg sig : bytes) : result bool := Ok (bool_decide (sig = msg)).
Definition ex_sig : VoteSig := mkVoteSig KeyTypeEd25519 (Some (ex_hash x05)) (Some [x01; x02]).
Definition ex_vote : VoteInfo := mkVoteInfo AckForked (Some (ex_hash x07)) ex_sig.
Definition ex_commit : CommitInfo :=
  mkCommitInfo (ex_hash x06) [ex_vote] ex_updates
    [mkValidator (mkAccountID (Some (ex_hash x05)) KeyTypeEd25519) 3].
Definition ex_ack : AckRes := mkAckRes true None 12 (ex_hash x01) (Some (ex_hash x02)) None (Some ex_sig).
Definition ex_reset : ConsensusReset := mkReset 7 [ex_hash x03].

Definition ok_bytes (r : result bytes) : bytes := match r with Ok b => b | Err _ => [] end.

Lemma CommitInfo_roundtrip_witness :
  CommitInfo_UnmarshalBinary test_registry (ok_bytes (CommitInfo_MarshalBinary test_registry ex_commit))
  = Ok ex_commit.
Proof.
  apply (CommitInfo_roundtrip test_registry ex_commit).
  - apply test_registry_ok.
  - constructor; cbn.
    + reflexivity.
    + constructor; [|constructor]. split; [const_range|]. by intros h [= <-].
    + apply ex_updates_ok.
    + constructor; [|constructor]. split; [by vm_compute|const_range].
  - vm_compute. reflexivity.
  - by vm_compute.
Defined.

Lemma consensus_messages_roundtrip_witness :
  AckRes_UnmarshalBinary test_registry (ok_bytes (AckRes_MarshalBinary test_registry ex_ack)) = Ok ex_ack /\
  ConsensusReset_UnmarshalBinary (ConsensusReset_Bytes ex_reset) = Ok ex_reset /\
  DiscoveryResponse_UnmarshalBinary (DiscoveryResponse_Bytes 9) = Ok 9.
Proof.
  apply (consensus_messages_roundtrip test_registry ex_ack).
  - apply test_registry_ok.
  - constructor; cbn.
    + const_range.
    + reflexivity.
    + by intros h [= <-].
    + discriminate.
    + intros s [= <-]. by eexists.
  - vm_compute. reflexivity.
  - by vm_compute.
  - const_range.
  - constructor; [reflexivity|constructor].
  - by vm_compute.
  - const_range.
Defined.

Lemma SignVote_verifies_witness :
  exists sig, SignVote (ex_hash x01) true (Some (ex_hash x02)) ex_private = Ok sig /\
    VoteInfo_Verify test_registry ex_verify (mkVoteInfo AckAgree None sig) (ex_hash x01) (ex_hash x02) = Ok tt.
Proof.
  eexists. split; [reflexivity|].
  refine (proj1 (SignVote_verifies test_registry ex_verify ex_private (ex_hash x01) true (ex_hash x02)
    _ _ _ _ _)).
  - reflexivity.
  - intros msg s [= <-]. unfold ex_verify. by rewrite bool_decide_eq_true_2.
  - reflexivity.
  - reflexivity.
Defined.
