(* ===== verification/Cache.v ===== *)
(** * Bounded caches

    The interface the account store and the statement cache of the interpreter
    use of the LRU map library: a lookup
    returns a value that was stored under the key, or nothing (it may have been
    evicted), and does not change what later lookups return; the entry just
    stored is present.  Two instances show that the interface is met: an
    unbounded map, and a least-recently-used list of fixed capacity. *)

From S2P Require Import Prelude.

(** Operations and laws of [lru.Map[K, V]]. *)
Class Cache (K V C : Type) := mkCache {
  c_empty : C;
  c_get : C -> K -> option V * C;
  c_put : C -> K -> V -> C;
  c_get_empty : forall k, fst (c_get c_empty k) = None;
  c_get_pure : forall c k k', fst (c_get (snd (c_get c k)) k') = fst (c_get c k');
  c_put_eq : forall c k v, fst (c_get (c_put c k v) k) = Some v;
  c_put_ne : forall c k v k' w,
    k <> k' -> fst (c_get (c_put c k v) k') = Some w -> fst (c_get c k') = Some w
}.

(** The value a lookup returns. *)
Definition c_peek {K V C} `{Cache K V C} (c : C) (k : K) : option V := fst (c_get c k).

Section laws.
Context {K V C : Type} `{Cache K V C} `{EqDecision K}.
Implicit Types c : C.

Lemma c_peek_put c k v k' w :
  c_peek (c_put c k v) k' = Some w ->
  (k = k' /\ v = w) \/ (k <> k' /\ c_peek c k' = Some w).
Proof.
  intros E. destruct (decide (k = k')) as [<-|Hne].
  - left. split; [done|]. unfold c_peek in E. rewrite c_put_eq in E. congruence.
  - right. split; [done|]. by eapply c_put_ne.
Qed.

(** Storing a sequence of entries: a present value comes from the last entry
    for its key, or was there before. *)
Lemma c_peek_puts l c k w :
  NoDup (l.*1) ->
  c_peek (foldl (fun c kv => c_put c kv.1 kv.2) c l) k = Some w ->
  (k, w) ∈ l \/ ((k ∉ l.*1) /\ c_peek c k = Some w).
Proof.
  revert c. induction l as [|[k1 v1] l IH]; intros c Hnd E; cbn [foldl fmap list_fmap] in *.
  { right. split; [by apply not_elem_of_nil|done]. }
  apply list.NoDup_cons in Hnd as [Hnin Hnd]. destruct (IH _ Hnd E) as [Hin|[Hnot Hpeek]].
  { left. by apply elem_of_cons; right. }
  cbn in Hpeek. apply c_peek_put in Hpeek as [[-> ->]|[Hne Hpeek]].
  - left. by apply elem_of_cons; left.
  - right. split; [|done]. by rewrite not_elem_of_cons.
Qed.
End laws.

(** ** Instances *)

(** An unbounded map. *)
#[export] Instance gmap_cache {K V} `{Countable K} : Cache K V (gmap K V).
Proof.
  refine (mkCache K V (gmap K V) ∅ (fun c k => (c !! k, c)) (fun c k v => <[k := v]> c) _ _ _ _).
  - intros k. apply lookup_empty.
  - done.
  - intros c k v. apply lookup_insert_eq.
  - intros c k v k' w Hne. cbn. by rewrite lookup_insert_ne.
Defined.

Section lru.
Context {K V : Type} `{EqDecision K}.

(** Most recently used first. *)
Fixpoint assoc (l : list (K * V)) (k : K) : option V :=
  match l with
  | [] => None
  | (k', v) :: l' => if decide (k' = k) then Some v else assoc l' k
  end.

Definition remove_key (k : K) (l : list (K * V)) : list (K * V) :=
  filter (fun kv => kv.1 <> k) l.

Definition lru_get (l : list (K * V)) (k : K) : option V * list (K * V) :=
  match assoc l k with
  | Some v => (Some v, (k, v) :: remove_key k l)
  | None => (None, l)
  end.

Definition lru_put (cap : nat) (l : list (K * V)) (k : K) (v : V) : list (K * V) :=
  take (S cap) ((k, v) :: remove_key k l).

Lemma assoc_remove_ne k k' l : k <> k' -> assoc (remove_key k l) k' = assoc l k'.
Proof.
  intros Hne. unfold remove_key. induction l as [|[k1 v1] l IH]; [done|].
  rewrite filter_cons. cbn [fst assoc]. destruct (decide (k1 <> k)).
  - cbn [assoc]. by rewrite IH.
  - destruct (decide (k1 = k')); [|done]. exfalso. naive_solver.
Qed.

Lemma assoc_take n l k w : assoc (take n l) k = Some w -> assoc l k = Some w.
Proof.
  revert l. induction n as [|n IH]; intros [|[k1 v1] l]; cbn; try done.
  destruct (decide (k1 = k)); auto.
Qed.

Lemma lru_get_assoc l k : fst (lru_get l k) = assoc l k.
Proof. unfold lru_get. by destruct (assoc l k). Qed.

Lemma lru_get_pure l k k' : fst (lru_get (snd (lru_get l k)) k') = fst (lru_get l k').
Proof.
  rewrite !lru_get_assoc. unfold lru_get. destruct (assoc l k) as [v|] eqn:E; [|done].
  cbn [snd assoc]. destruct (decide (k = k')) as [<-|Hne]; [done|]. by apply assoc_remove_ne.
Qed.

Lemma lru_put_eq cap l k v : fst (lru_get (lru_put cap l k v) k) = Some v.
Proof.
  rewrite lru_get_assoc. unfold lru_put. cbn [take assoc]. by rewrite decide_True.
Qed.

Lemma lru_put_ne cap l k v k' w :
  k <> k' -> fst (lru_get (lru_put cap l k v) k') = Some w -> fst (lru_get l k') = Some w.
Proof.
  intros Hne. rewrite !lru_get_assoc. unfold lru_put. intros E%assoc_take.
  cbn [assoc] in E. rewrite decide_False, assoc_remove_ne in E by done. done.
Qed.

(** A cache of [S cap] entries. *)
Definition lru_cache (cap : nat) : Cache K V (list (K * V)) :=
  mkCache K V _ [] lru_get (lru_put cap) (fun _ => eq_refl) lru_get_pure
    (lru_put_eq cap) (lru_put_ne cap).
End lru.
