(* ===== verification/Accounts.v ===== *)
(** * The account store

    [Accounts] of src/node/accounts/accounts.go over the table of
    src/node/accounts/sql.go.  The state holds the account table as the
    consensus transaction sees it, the committed table, the LRU cache of
    records, the updates of the current block and the recorded spends.  A
    statement of the table does not fail for infrastructure reasons; constraint
    violations are errors.

    The abstract specification is a ledger from account keys to balances and
    nonces; [refines] relates the cached store to it, and every operation is
    shown to implement its ledger counterpart. *)

From S2P Require Import Prelude.
From S2P Require Import Wire.
From S2P Require Import BigInt.
From S2P Require Import Keys.
From S2P Require Import Ident.
From S2P Require Import Cache.
From Stdlib Require Import Strings.Byte.

Definition ErrInsufficientFunds : error := ErrSentinel "insufficient funds".
Definition ErrConvertToBigInt : error := ErrSentinel "could not convert to big int".
Definition ErrInvalidNonce : error := ErrSentinel "invalid nonce".
Definition ErrAccountNotFound : error := ErrSentinel "account not found".
Definition ErrNegativeBalance : error := ErrSentinel "negative balance not permitted".
Definition ErrNegativeTransfer : error := ErrSentinel "negative transfer not permitted".
Definition ErrNegativeSpend : error := ErrSentinel "negative spend not permitted".

Definition errInsufficientFunds : error :=
  ErrWrap "account tried to use more than its balance" ErrInsufficientFunds.

Record Account := mkAccount { acc_ID : AccountID; Balance : Z; acc_Nonce : Z }.

Record Spend := mkSpend { sp_Account : AccountID; sp_Amount : option Z; sp_Nonce : Z }.

(** ** The accounts table *)

(** Rows of [kwild_accts.accounts]: the balance is TEXT, the nonce BIGINT; the
    primary key is the identifier and the numeric key type. *)
Record row := mkRow { row_balance : bytes; row_nonce : Z }.

Abbreviation table := (gmap (list byte * Z) row).

Definition int4_max : Z := 2147483647.

(** The primary key of the statement arguments: a nil identifier is NULL, and
    the key type is an INT4. *)
Definition sql_key (acctID : slice) (acctType : Z) : result (option (bytes * Z)) :=
  if int4_max <? acctType then Err (ErrMsg "value out of range for int4")
  else Ok ((fun i => (i, acctType)) <$> acctID).

(** [UPDATE ... WHERE identifier = $3 AND id_type = $4]: no matching row is
    not an error. *)
Definition sql_updateAccount (t : table) (acctID : slice) (acctType amount nonce : Z)
  : result table :=
  k ← sql_key acctID acctType;
  mret (match k with
        | Some key =>
            match t !! key with
            | Some _ => <[key := mkRow (big_String amount) nonce]> t
            | None => t
            end
        | None => t
        end).

(** [INSERT INTO ...]: NOT NULL and primary key constraints. *)
Definition sql_createAccount (t : table) (acctID : slice) (acctType amt nonce : Z)
  : result table :=
  k ← sql_key acctID acctType;
  match k with
  | Some key =>
      match t !! key with
      | Some _ => Err (ErrMsg "duplicate key value violates unique constraint")
      | None => Ok (<[key := mkRow (big_String amt) nonce]> t)
      end
  | None => Err (ErrMsg "null value in column identifier")
  end.

Definition sql_getAccount (reg : registry) (t : table) (account : AccountID) : result Account :=
  match KeyTypeDefinition reg (acct_KeyType account) with
  | None => Err (ErrMsg "invalid key type")
  | Some kd =>
      k ← sql_key (Identifier account) (kd_EncodeFlag kd);
      match k ≫= (fun key => t !! key) with
      | None => Err ErrAccountNotFound
      | Some r =>
          match big_SetString (row_balance r) with
          | None => Err ErrConvertToBigInt
          | Some balance => Ok (mkAccount account balance (row_nonce r))
          end
      end
  end.

Definition sql_numAccounts (t : table) : Z := Z.of_nat (size t).

(** [string(account.Identifier) + "#" + account.KeyType.String()] *)
Definition acctMapKey (account : AccountID) : bytes :=
  slice_bytes (Identifier account) ++ x23 :: acct_KeyType account.

(** ** The store *)

Section store.
Context {C : Type} `{Cache (list byte) Account C}.
Context (reg : registry).

Record Accounts := mkAccounts {
  records : C;
  updates : gmap (list byte) Account;
  spends : list Spend;
  (** the table in the consensus transaction, and as last committed *)
  tx_table : table;
  db_table : table
}.

Definition set_records (a : Accounts) (r : C) : Accounts :=
  mkAccounts r (updates a) (spends a) (tx_table a) (db_table a).
Definition set_update (a : Accounts) (k : bytes) (v : Account) : Accounts :=
  mkAccounts (records a) (<[k := v]> (updates a)) (spends a) (tx_table a) (db_table a).
Definition set_spends (a : Accounts) (s : list Spend) : Accounts :=
  mkAccounts (records a) (updates a) s (tx_table a) (db_table a).
Definition set_table (a : Accounts) (t : table) : Accounts :=
  mkAccounts (records a) (updates a) (spends a) t (db_table a).

(** Which table an [sql.Executor] reads: the consensus transaction or a read
    transaction on the committed state. *)
Inductive executor := ConsensusTx | ReadTx.

Definition exec_table (ex : executor) (a : Accounts) : table :=
  match ex with ConsensusTx => tx_table a | ReadTx => db_table a end.

Definition InitializeAccountStore : Accounts := mkAccounts c_empty ∅ [] ∅ ∅.

(** The method [getAccount]. *)
Definition getAccount (ex : executor) (account : AccountID) (uncommitted : bool)
  : action Accounts Account := fun a =>
  let mapKey := acctMapKey account in
  match (if uncommitted then updates a !! mapKey else None) with
  | Some acct => (Ok (mkAccount account (Balance acct) (acc_Nonce acct)), a)
  | None =>
      let '(hit, recs) := c_get (records a) mapKey in
      let a := set_records a recs in
      match hit with
      | Some acct => (Ok (mkAccount account (Balance acct) (acc_Nonce acct)), a)
      | None =>
          match sql_getAccount reg (exec_table ex a) account with
          | Err e => (Err e, a)
          | Ok acct =>
              (Ok acct,
               set_records a (c_put (records a) mapKey
                                (mkAccount account (Balance acct) (acc_Nonce acct))))
          end
      end
  end.

Definition GetAccount (ex : executor) (account : AccountID) : action Accounts Account := fun a =>
  match getAccount ex account false a with
  | (Err e, a') =>
      if bool_decide (e = ErrAccountNotFound) then (Ok (mkAccount account 0 0), a')
      else (Err e, a')
  | r => r
  end.

(** The methods [createAccount] and [updateAccount]. *)
Definition createAccount (account : AccountID) (amt nonce : Z) : action Accounts unit := fun a =>
  match KeyTypeDefinition reg (acct_KeyType account) with
  | None => (Err (ErrMsg "invalid key type"), a)
  | Some kd =>
      match sql_createAccount (tx_table a) (Identifier account) (kd_EncodeFlag kd) amt nonce with
      | Err e => (Err e, a)
      | Ok t => (Ok tt, set_update (set_table a t) (acctMapKey account)
                          (mkAccount account amt nonce))
      end
  end.

Definition updateAccount (account : AccountID) (amount nonce : Z) : action Accounts unit := fun a =>
  match KeyTypeDefinition reg (acct_KeyType account) with
  | None => (Err (ErrMsg "invalid key type"), a)
  | Some kd =>
      match sql_updateAccount (tx_table a) (Identifier account) (kd_EncodeFlag kd) amount nonce with
      | Err e => (Err e, a)
      | Ok t => (Ok tt, set_update (set_table a t) (acctMapKey account)
                          (mkAccount account amount nonce))
      end
  end.

Definition Credit (account : AccountID) (amt : option Z) : action Accounts unit :=
  match amt with
  | None => afail ErrConvertToBigInt
  | Some amt =>
      r ← atry (getAccount ConsensusTx account true);
      match r with
      | Err err =>
          if errors_is err ErrAccountNotFound then
            if amt <? 0 then afail ErrNegativeBalance
            else createAccount account amt 0
          else afail err
      | Ok acct =>
          let newBal := Balance acct + amt in
          if newBal <? 0 then afail ErrNegativeBalance
          else updateAccount account newBal (acc_Nonce acct)
      end
  end.

Definition recordSpend (account : AccountID) (amount nonce : Z) : action Accounts unit := fun a =>
  (Ok tt, set_spends a (spends a ++ [mkSpend account (Some amount) (u64 nonce)])).

(** The method [Spend]. *)
Definition Spend_ (account : AccountID) (amount : option Z) (nonce : Z) : action Accounts unit :=
  match amount with
  | None => afail ErrNegativeSpend
  | Some amount =>
      if amount <? 0 then afail ErrNegativeSpend
      else
        r ← atry (getAccount ConsensusTx account true);
        match r with
        | Err err =>
            if errors_is err ErrAccountNotFound && (amount =? 0) && (nonce =? 1)
            then createAccount account amount nonce
            else afail err
        | Ok acct =>
            if negb (i64 (acc_Nonce acct + 1) =? nonce)
            then afail (ErrWrap "expected nonce" ErrInvalidNonce)
            else
              let newBal := Balance acct - amount in
              if newBal <? 0 then afail errInsufficientFunds
              else _ ← recordSpend account amount nonce;
                   updateAccount account newBal nonce
        end
  end.

Definition GetBlockSpends (a : Accounts) : list Spend := spends a.

Definition ApplySpend (account : AccountID) (amount : option Z) (nonce : Z) : action Accounts unit :=
  match amount with
  | None => afail ErrNegativeSpend
  | Some amount =>
      if amount <? 0 then afail ErrNegativeSpend
      else
        acct ← getAccount ConsensusTx account true;
        let newBal := Balance acct - amount in
        updateAccount account (if newBal <? 0 then 0 else newBal) (acc_Nonce acct)
  end.

(** [tx := db.BeginTx(); defer tx.Rollback(); ...; tx.Commit()]: a nested
    transaction of the table, undone when the body fails; the in-memory maps
    are not. *)
Definition nested_tx {A} (body : action Accounts A) : action Accounts A := fun a =>
  match body a with
  | (Err e, a') => (Err e, set_table a' (tx_table a))
  | r => r
  end.

Definition Transfer_body (from to : AccountID) (amt : Z) : action Accounts unit :=
  account ← getAccount ConsensusTx from true;
  let newFromBal := Balance account - amt in
  if newFromBal <? 0 then afail errInsufficientFunds
  else
    r ← atry (getAccount ConsensusTx to true);
    _ ← (match r with
         | Err err =>
             if errors_is err ErrAccountNotFound then createAccount to amt 0 else afail err
         | Ok receiver => updateAccount to (Balance receiver + amt) (acc_Nonce receiver)
         end);
    updateAccount from newFromBal (acc_Nonce account).

Definition Transfer (from to : AccountID) (amt : option Z) : action Accounts unit :=
  match amt with
  | None => afail ErrNegativeTransfer
  | Some amt =>
      if amt <? 0 then afail ErrNegativeTransfer
      else nested_tx (Transfer_body from to amt)
  end.

(** [Commit] copies the updates into the records in map iteration order,
    which is any order: [order] lists the updates. *)
Definition Commit (order : list (bytes * Account)) (a : Accounts) : Accounts :=
  mkAccounts (foldl (fun c kv => c_put c kv.1 kv.2) (records a) order) ∅ []
    (tx_table a) (db_table a).

Definition Updates (order : list (bytes * Account)) : list Account := order.*2.

Definition Rollback (a : Accounts) : Accounts :=
  mkAccounts (records a) ∅ [] (tx_table a) (db_table a).

(** The consensus transaction is committed or rolled back around the calls
    above (src/node/block_processor). *)
Definition commit_block (order : list (bytes * Account)) (a : Accounts) : Accounts :=
  Commit order (mkAccounts (records a) (updates a) (spends a) (tx_table a) (tx_table a)).

Definition rollback_block (a : Accounts) : Accounts :=
  Rollback (set_table a (db_table a)).
End store.

Arguments Accounts C : clear implicits.

(** ** The abstract ledger *)

Abbreviation ledger := (gmap (list byte * Z) (Z * Z)).

Definition ledger_credit (L : ledger) (k : bytes * Z) (amt : Z) : result ledger :=
  match L !! k with
  | None => if amt <? 0 then Err ErrNegativeBalance else Ok (<[k := (amt, 0)]> L)
  | Some (b, n) =>
      if b + amt <? 0 then Err ErrNegativeBalance else Ok (<[k := (b + amt, n)]> L)
  end.

Definition ledger_spend (L : ledger) (k : bytes * Z) (amt nonce : Z) : result ledger :=
  if amt <? 0 then Err ErrNegativeSpend
  else match L !! k with
  | None =>
      if (amt =? 0) && (nonce =? 1) then Ok (<[k := (0, 1)]> L) else Err ErrAccountNotFound
  | Some (b, n) =>
      if negb (i64 (n + 1) =? nonce) then Err (ErrWrap "expected nonce" ErrInvalidNonce)
      else if b - amt <? 0 then Err errInsufficientFunds
      else Ok (<[k := (b - amt, nonce)]> L)
  end.

Definition ledger_apply_spend (L : ledger) (k : bytes * Z) (amt : Z) : result ledger :=
  if amt <? 0 then Err ErrNegativeSpend
  else match L !! k with
  | None => Err ErrAccountNotFound
  | Some (b, n) => Ok (<[k := (Z.max 0 (b - amt), n)]> L)
  end.

(** The receiver is credited first and the sender debited last, from balances
    read before either. *)
Definition ledger_transfer (L : ledger) (from to : bytes * Z) (amt : Z) : result ledger :=
  if amt <? 0 then Err ErrNegativeTransfer
  else match L !! from with
  | None => Err ErrAccountNotFound
  | Some (b, n) =>
      if b - amt <? 0 then Err errInsufficientFunds
      else
        let L' := match L !! to with
                  | None => <[to := (amt, 0)]> L
                  | Some (b', n') => <[to := (b' + amt, n')]> L
                  end in
        Ok (<[from := (b - amt, n)]> L')
  end.

(** The supply: the sum of all balances. *)
Definition supply (L : ledger) : Z := map_sum fst L.

(** No negative balance, and nonces that are [int64] values. *)
Definition ledger_ok (L : ledger) : Prop :=
  forall k b n, L !! k = Some (b, n) -> 0 <= b /\ is_sint 64 n.

(** ** Refinement *)

Definition row_of (bn : Z * Z) : row := mkRow (big_String bn.1) bn.2.

Section refinement.
Context {C : Type} `{HC : Cache (list byte) Account C}.
Context (reg : registry) (Hreg : reg_ok reg).
Implicit Types (a : Accounts C) (L : ledger).

(** The primary key of a usable account: a registered key type whose flag is
    an INT4 and whose name holds no '#'. *)
Definition ledger_key (id : AccountID) : option (bytes * Z) :=
  match Identifier id, keyTypes reg !! acct_KeyType id with
  | Some i, Some kd =>
      if (kd_EncodeFlag kd <=? int4_max) && bool_decide (x23 ∉ acct_KeyType id)
      then Some (i, kd_EncodeFlag kd) else None
  | _, _ => None
  end.

Lemma ledger_key_inv id k :
  ledger_key id = Some k ->
  exists kd, Identifier id = Some k.1 /\ keyTypes reg !! acct_KeyType id = Some kd /\
    kd_EncodeFlag kd = k.2 /\ k.2 <= int4_max /\ x23 ∉ acct_KeyType id.
Proof.
  unfold ledger_key. destruct (Identifier id) as [i|]; [|done].
  destruct (keyTypes reg !! acct_KeyType id) as [kd|] eqn:E; [|done].
  destruct (Z.leb_spec (kd_EncodeFlag kd) int4_max); [|done].
  case_bool_decide; [|done]. intros [= <-]. by exists kd.
Qed.

Lemma sql_key_ok k : k.2 <= int4_max -> sql_key (Some k.1) k.2 = Ok (Some k).
Proof.
  intros Hk. unfold sql_key. rewrite (proj2 (Z.ltb_ge _ _)) by done. by destruct k.
Qed.

(** The map key of the caches and the primary key of the table identify the
    same accounts. *)
Lemma acctMapKey_inj id id' k k' :
  ledger_key id = Some k -> ledger_key id' = Some k' ->
  acctMapKey id = acctMapKey id' <-> k = k'.
Proof.
  intros (kd & Ei & Ekd & Ef & _ & Hh)%ledger_key_inv
         (kd' & Ei' & Ekd' & Ef' & _ & Hh')%ledger_key_inv.
  unfold acctMapKey. rewrite Ei, Ei'. cbn [slice_bytes default]. split.
  - intros [(r & E1 & E2)|(r & E1 & E2)]%app_eq_inv.
    + destruct r as [|c r]; [|cbn in E2; injection E2 as <- E2; exfalso; apply Hh'; rewrite E2;
        apply elem_of_app; right; apply elem_of_cons; by left].
      cbn in E2. injection E2 as E2. rewrite app_nil_r in E1.
      destruct k, k'; cbn in *. congruence.
    + destruct r as [|c r]; [|cbn in E2; injection E2 as <- E2; exfalso; apply Hh; rewrite E2;
        apply elem_of_app; right; apply elem_of_cons; by left].
      cbn in E2. injection E2 as E2. rewrite app_nil_r in E1.
      destruct k, k'; cbn in *. congruence.
  - intros <-. f_equal. f_equal. by eapply (flag_inj reg Hreg); [done..|congruence].
Qed.

(** The store represents the ledger [L] of the current block and the committed
    ledger [L0].  Strictly, every cached record is committed; otherwise a record
    may be any value while the block has an update of the account. *)
Record agrees (strict : bool) (a : Accounts C) (L L0 : ledger) : Prop := mkAgrees {
  r_tx : tx_table a = row_of <$> L;
  r_db : db_table a = row_of <$> L0;
  r_upd : forall id k acct, ledger_key id = Some k ->
    updates a !! acctMapKey id = Some acct -> L !! k = Some (Balance acct, acc_Nonce acct);
  r_rec : forall id k acct, ledger_key id = Some k ->
    (strict = true \/ updates a !! acctMapKey id = None) ->
    c_peek (records a) (acctMapKey id) = Some acct -> L0 !! k = Some (Balance acct, acc_Nonce acct);
  r_same : forall id k, ledger_key id = Some k ->
    updates a !! acctMapKey id = None -> L !! k = L0 !! k
}.

Lemma agrees_weaken strict a L L0 : agrees strict a L L0 -> agrees false a L L0.
Proof. intros []. constructor; try done. intros id k acct Hk [?|Hu]; [done|]. apply (r_rec0 id k acct Hk). by right. Qed.

Section modes.
Context {md : bool}.
#[local] Abbreviation refines := (agrees md).

Lemma refines_init : refines InitializeAccountStore ∅ ∅.
Proof.
  constructor; cbn [tx_table db_table updates records InitializeAccountStore].
  - by rewrite fmap_empty.
  - by rewrite fmap_empty.
  - intros id k acct _. by rewrite lookup_empty.
  - intros id k acct _ _ E. unfold c_peek in E. by rewrite c_get_empty in E.
  - done.
Qed.

(** Reading a row of a table that represents a ledger. *)
Lemma sql_getAccount_spec L id k :
  ledger_key id = Some k ->
  sql_getAccount reg (row_of <$> L) id =
    match L !! k with
    | Some (b, n) => Ok (mkAccount id b n)
    | None => Err ErrAccountNotFound
    end.
Proof.
  intros (kd & Ei & Ekd & Ef & Hle & _)%ledger_key_inv.
  unfold sql_getAccount, KeyTypeDefinition. rewrite Ekd, Ei, Ef, sql_key_ok by done.
  cbn [mbind result_bind option_bind]. rewrite lookup_fmap.
  destruct (L !! k) as [[b n]|]; [|done]. cbn.
  by rewrite SetString_String.
Qed.

Lemma refines_get a L L0 key :
  refines a L L0 -> refines (set_records a (snd (c_get (records a) key))) L L0.
Proof.
  intros []. constructor; cbn; try done.
  intros id k acct Hk Hu E. apply (r_rec0 id k acct Hk Hu). unfold c_peek in *. by rewrite c_get_pure in E.
Qed.

Lemma refines_put a L L0 id k b n :
  refines a L L0 -> ledger_key id = Some k -> L0 !! k = Some (b, n) ->
  refines (set_records a (c_put (records a) (acctMapKey id) (mkAccount id b n))) L L0.
Proof.
  intros [] Hk HL. constructor; cbn; try done.
  intros id' k' acct Hk' Hu [[E <-]|[_ E]]%c_peek_put; [|by eapply r_rec0].
  apply (acctMapKey_inj id id' k k' Hk Hk') in E as <-. done.
Qed.

(** [getAccount] returns the ledger's entry, from whichever level holds it. *)
Lemma getAccount_spec a L L0 id k :
  refines a L L0 -> ledger_key id = Some k ->
  exists a', getAccount reg ConsensusTx id true a =
      (match L !! k with
       | Some (b, n) => Ok (mkAccount id b n)
       | None => Err ErrAccountNotFound
       end, a') /\ refines a' L L0 /\ spends a' = spends a.
Proof.
  intros R Hk. unfold getAccount. destruct (updates a !! acctMapKey id) as [acct|] eqn:Eu.
  { exists a. by rewrite (r_upd _ _ _ _ R id k acct Hk Eu). }
  pose proof (r_same _ _ _ _ R id k Hk Eu) as Hsame.
  destruct (c_get (records a) (acctMapKey id)) as [hit recs] eqn:Eg.
  pose proof (refines_get a L L0 (acctMapKey id) R) as R'. rewrite Eg in R'. cbn [snd] in R'.
  destruct hit as [acct|].
  - eexists. split; [|done]. f_equal.
    rewrite Hsame, (r_rec _ _ _ _ R id k acct Hk); [done|by right|]. unfold c_peek. by rewrite Eg.
  - cbn [exec_table set_records tx_table]. rewrite (r_tx _ _ _ _ R).
    rewrite (sql_getAccount_spec L id k Hk). destruct (L !! k) as [[b n]|] eqn:EL.
    + eexists. split; [reflexivity|]. split; [|done].
      apply (refines_put _ L L0 id k b n R' Hk). congruence.
    + eexists. by split.
Qed.

(** ** Writes *)

Lemma refines_update a L L0 id k b n :
  refines a L L0 -> ledger_key id = Some k ->
  refines (set_update (set_table a (row_of <$> <[k := (b, n)]> L)) (acctMapKey id)
             (mkAccount id b n)) (<[k := (b, n)]> L) L0.
Proof.
  intros [] Hk. constructor; cbn; try done.
  - intros id' k' acct Hk'. destruct (decide (k = k')) as [<-|Hne].
    + rewrite (proj2 (acctMapKey_inj id id' k k Hk Hk') eq_refl), !lookup_insert_eq.
      by intros [= <-].
    + rewrite !lookup_insert_ne; [by apply r_upd0|done|].
      by rewrite (acctMapKey_inj id id' k k' Hk Hk').
  - intros id' k' acct Hk' [Hs|Hu]; apply (r_rec0 id' k' acct Hk'); [by left|right].
    destruct (decide (k = k')) as [<-|Hne].
    + by rewrite (proj2 (acctMapKey_inj id id' k k Hk Hk') eq_refl), lookup_insert_eq in Hu.
    + rewrite lookup_insert_ne in Hu; [done|]. by rewrite (acctMapKey_inj id id' k k' Hk Hk').
  - intros id' k' Hk'. destruct (decide (k = k')) as [<-|Hne].
    + by rewrite (proj2 (acctMapKey_inj id id' k k Hk Hk') eq_refl), lookup_insert_eq.
    + rewrite !lookup_insert_ne; [by apply r_same0|done|].
      by rewrite (acctMapKey_inj id id' k k' Hk Hk').
Qed.

Lemma updateAccount_spec a L L0 id k b n :
  refines a L L0 -> ledger_key id = Some k -> is_Some (L !! k) ->
  exists a', updateAccount reg id b n a = (Ok tt, a') /\
    refines a' (<[k := (b, n)]> L) L0 /\ spends a' = spends a.
Proof.
  intros R Hk [bn HL]. pose proof (refines_update a L L0 id k b n R Hk) as R'.
  pose proof Hk as (kd & Ei & Ekd & Ef & Hle & _)%ledger_key_inv.
  unfold updateAccount, KeyTypeDefinition, sql_updateAccount.
  rewrite Ekd, Ei, Ef, sql_key_ok by done. cbn [mbind result_bind mret result_ret].
  rewrite (r_tx _ _ _ _ R), lookup_fmap, HL. cbn [fmap option_fmap option_map].
  eexists. split; [reflexivity|]. rewrite fmap_insert in R'. by split.
Qed.

Lemma createAccount_spec a L L0 id k b n :
  refines a L L0 -> ledger_key id = Some k -> L !! k = None ->
  exists a', createAccount reg id b n a = (Ok tt, a') /\
    refines a' (<[k := (b, n)]> L) L0 /\ spends a' = spends a.
Proof.
  intros R Hk HL. pose proof (refines_update a L L0 id k b n R Hk) as R'.
  pose proof Hk as (kd & Ei & Ekd & Ef & Hle & _)%ledger_key_inv.
  unfold createAccount, KeyTypeDefinition, sql_createAccount.
  rewrite Ekd, Ei, Ef, sql_key_ok by done. cbn [mbind result_bind mret result_ret].
  rewrite (r_tx _ _ _ _ R), lookup_fmap, HL. cbn [fmap option_fmap option_map].
  eexists. split; [reflexivity|]. rewrite fmap_insert in R'. by split.
Qed.

(** What an operation on the store owes to the ledger operation: the same
    outcome, and a store that represents the resulting ledger (the old one
    when it fails). *)
Definition implements_ (m : action (Accounts C) unit) (a : Accounts C) (L L0 : ledger)
    (spec : result ledger) : Prop :=
  exists a', match spec with
    | Ok L' => m a = (Ok tt, a') /\ refines a' L' L0
    | Err e => m a = (Err e, a') /\ refines a' L L0
    end.

(** Run a read of the store and rewrite the call with its outcome. *)
Ltac run_get R Hk a1 R1 :=
  let E := fresh "Eget" in
  destruct (getAccount_spec _ _ _ _ _ R Hk) as (a1 & E & R1 & _);
  unfold mbind, action_bind, atry; rewrite E; clear E.

Lemma Credit_implements a L L0 id k amt :
  refines a L L0 -> ledger_key id = Some k ->
  implements_ (Credit reg id (Some amt)) a L L0 (ledger_credit L k amt).
Proof.
  intros R Hk. unfold implements_, ledger_credit, Credit. run_get R Hk a1 R1.
  destruct (L !! k) as [[b n]|] eqn:EL; cbn [Balance acc_Nonce].
  - destruct (_ <? 0); [by exists a1|].
    destruct (updateAccount_spec a1 L L0 id k (b + amt) n R1 Hk) as (a2 & E & R2 & _); [by rewrite EL|].
    by exists a2.
  - change (errors_is ErrAccountNotFound ErrAccountNotFound) with true. cbv iota.
    destruct (amt <? 0); [by exists a1|].
    destruct (createAccount_spec a1 L L0 id k amt 0 R1 Hk EL) as (a2 & E & R2 & _). by exists a2.
Qed.

Lemma refines_spends a L L0 s : refines a L L0 -> refines (set_spends a s) L L0.
Proof. intros []. by constructor. Qed.

Lemma Spend_implements a L L0 id k amt nonce :
  refines a L L0 -> ledger_key id = Some k ->
  implements_ (Spend_ reg id (Some amt) nonce) a L L0 (ledger_spend L k amt nonce).
Proof.
  intros R Hk. unfold implements_, ledger_spend, Spend_. destruct (amt <? 0); [by exists a|].
  run_get R Hk a1 R1. destruct (L !! k) as [[b n]|] eqn:EL; cbn [Balance acc_Nonce].
  - destruct (negb _); [by exists a1|]. destruct (b - amt <? 0); [by exists a1|].
    unfold recordSpend. cbv beta iota.
    destruct (updateAccount_spec (set_spends a1 (spends a1 ++ [mkSpend id (Some amt) (u64 nonce)]))
                L L0 id k (b - amt) nonce) as (a2 & E & R2 & _);
      [by apply refines_spends|done|by rewrite EL|]. by exists a2.
  - change (errors_is ErrAccountNotFound ErrAccountNotFound) with true. cbn [andb].
    destruct (Z.eqb_spec amt 0) as [->|]; [|by exists a1].
    destruct (Z.eqb_spec nonce 1) as [->|]; cbn [andb]; [|by exists a1].
    destruct (createAccount_spec a1 L L0 id k 0 1 R1 Hk EL) as (a2 & E & R2 & _). by exists a2.
Qed.

Lemma ApplySpend_implements a L L0 id k amt nonce :
  refines a L L0 -> ledger_key id = Some k ->
  implements_ (ApplySpend reg id (Some amt) nonce) a L L0 (ledger_apply_spend L k amt).
Proof.
  intros R Hk. unfold implements_, ledger_apply_spend, ApplySpend.
  destruct (amt <? 0); [by exists a|].
  run_get R Hk a1 R1. destruct (L !! k) as [[b n]|] eqn:EL; cbn [Balance acc_Nonce]; [|by exists a1].
  replace (if b - amt <? 0 then 0 else b - amt) with (Z.max 0 (b - amt))
    by (destruct (Z.ltb_spec (b - amt) 0); lia).
  destruct (updateAccount_spec a1 L L0 id k (Z.max 0 (b - amt)) n R1 Hk) as (a2 & E & R2 & _);
    [by rewrite EL|]. by exists a2.
Qed.

Lemma refines_nested a a' L L0 :
  refines a L L0 -> refines a' L L0 -> refines (set_table a' (tx_table a)) L L0.
Proof. intros R []. constructor; cbn; try done. apply (r_tx _ _ _ _ R). Qed.

Lemma Transfer_implements a L L0 from to kf kt amt :
  refines a L L0 -> ledger_key from = Some kf -> ledger_key to = Some kt ->
  implements_ (Transfer reg from to (Some amt)) a L L0 (ledger_transfer L kf kt amt).
Proof.
  intros R Hf Ht. unfold implements_, ledger_transfer, Transfer.
  destruct (amt <? 0); [by exists a|]. unfold nested_tx, Transfer_body.
  run_get R Hf a1 R1. destruct (L !! kf) as [[b n]|] eqn:EL; cbn [Balance acc_Nonce].
  2:{ eexists. split; [reflexivity|]. by apply refines_nested. }
  destruct (_ <? 0). { eexists. split; [reflexivity|]. by apply refines_nested. }
  run_get R1 Ht a2 R2. destruct (L !! kt) as [[b' n']|] eqn:ET; cbn [Balance acc_Nonce].
  - destruct (updateAccount_spec a2 L L0 to kt (b' + amt) n' R2 Ht) as (a3 & -> & R3 & _);
      [by rewrite ET|].
    destruct (updateAccount_spec a3 _ L0 from kf (b - amt) n R3 Hf) as (a4 & -> & R4 & _).
    { destruct (decide (kt = kf)) as [->|]; [by rewrite lookup_insert_eq|].
      rewrite lookup_insert_ne, EL by done. done. }
    by exists a4.
  - change (errors_is ErrAccountNotFound ErrAccountNotFound) with true. cbv iota.
    destruct (createAccount_spec a2 L L0 to kt amt 0 R2 Ht ET) as (a3 & -> & R3 & _).
    destruct (updateAccount_spec a3 _ L0 from kf (b - amt) n R3 Hf) as (a4 & -> & R4 & _).
    { rewrite lookup_insert_ne, EL by congruence. done. }
    by exists a4.
Qed.

(** ** Block boundaries *)

Lemma commit_block_refines a L L0 order :
  refines a L L0 -> order ≡ₚ map_to_list (updates a) -> agrees true (commit_block order a) L L.
Proof.
  intros R Hord. destruct R. unfold commit_block, Commit. constructor; cbn; try done.
  intros id k acct Hk _ E. apply c_peek_puts in E as [Hin|[Hnin E]].
  - rewrite Hord in Hin. apply elem_of_map_to_list in Hin. by eapply r_upd0.
  - assert (updates a !! acctMapKey id = None) as Hu.
    { destruct (updates a !! acctMapKey id) as [u|] eqn:Eu; [|done]. exfalso. apply Hnin.
      apply list_elem_of_fmap. exists (acctMapKey id, u). split; [done|].
      rewrite Hord. by apply elem_of_map_to_list. }
    rewrite (r_same0 id k Hk) by done. apply (r_rec0 id k acct Hk); [by right|done].
  - rewrite Hord. apply NoDup_fst_map_to_list.
Qed.

End modes.

(** The account that a read returns for an entry of a ledger. *)
Definition entry (L : ledger) (k : bytes * Z) (id : AccountID) : Account :=
  match L !! k with
  | Some (b, n) => mkAccount id b n
  | None => mkAccount id 0 0
  end.

(** A read on the committed state keeps the caches coherent, and strictly it
    returns the committed ledger's entry, or an empty account. *)
Lemma GetAccount_read_spec md a L L0 id k :
  agrees md a L L0 -> ledger_key id = Some k ->
  exists acct a', GetAccount reg ReadTx id a = (Ok acct, a') /\ agrees md a' L L0 /\
    (md = true \/ updates a !! acctMapKey id = None -> acct = entry L0 k id).
Proof.
  intros R Hk. unfold GetAccount, getAccount, entry.
  destruct (c_get (records a) (acctMapKey id)) as [hit recs] eqn:Eg.
  pose proof (refines_get a L L0 (acctMapKey id) R) as R'. rewrite Eg in R'. cbn [snd] in R'.
  destruct hit as [acct|].
  - do 2 eexists. split_and!; [done|done|]. intros Hmd.
    rewrite (r_rec _ _ _ _ R id k acct Hk); [done|done|]. unfold c_peek. by rewrite Eg.
  - cbn [exec_table set_records db_table]. rewrite (r_db _ _ _ _ R).
    rewrite (sql_getAccount_spec L0 id k Hk). destruct (L0 !! k) as [[b n]|] eqn:EL.
    + do 2 eexists. split_and!; [reflexivity| |done]. by apply (refines_put _ L L0 id k b n R' Hk).
    + do 2 eexists. by split_and!.
Qed.

(** A read through the consensus transaction: the account of the cached record
    or, without one, of the table; either may be put into the cache. *)
Lemma GetAccount_tx_spec a L L0 id k :
  agrees false a L L0 -> ledger_key id = Some k ->
  exists a', GetAccount reg ConsensusTx id a =
      (Ok (match c_peek (records a) (acctMapKey id), L !! k with
           | Some acct, _ => mkAccount id (Balance acct) (acc_Nonce acct)
           | None, Some (b, n) => mkAccount id b n
           | None, None => mkAccount id 0 0
           end), a') /\ agrees false a' L L0 /\ updates a' = updates a /\ tx_table a' = tx_table a.
Proof.
  intros R Hk. unfold GetAccount, getAccount, c_peek.
  destruct (c_get (records a) (acctMapKey id)) as [hit recs] eqn:Eg.
  pose proof (refines_get a L L0 (acctMapKey id) R) as R'. rewrite Eg in R'. cbn [fst snd] in R' |- *.
  destruct hit as [acct|]; [by eexists|].
  cbn [exec_table set_records tx_table]. rewrite (r_tx _ _ _ _ R).
  rewrite (sql_getAccount_spec L id k Hk). destruct (L !! k) as [[b n]|] eqn:EL.
  2: { eexists. split; [reflexivity|]. split; [done|]. split; [done|apply (r_tx _ _ _ _ R)]. }
  eexists. split; [reflexivity|]. split; [|split; [done|apply (r_tx _ _ _ _ R)]]. destruct R'. constructor; cbn in *; try done.
  intros id' k' w Hk' [?|Hu] [[E <-]|[_ E]]%c_peek_put; try done; [|by eapply r_rec0; [|by right|]].
  apply (acctMapKey_inj id id' k k' Hk Hk') in E as <-. by rewrite <- (r_same0 id' k Hk' Hu).
Qed.

(** An account that the block has not written. *)
Lemma GetAccount_unwritten a L L0 ex id k :
  agrees false a L L0 -> ledger_key id = Some k -> updates a !! acctMapKey id = None ->
  fst (GetAccount reg ex id a) = Ok (entry L k id).
Proof.
  intros R Hk Hu. pose proof (r_same _ _ _ _ R id k Hk Hu) as Hsame. destruct ex.
  - destruct (GetAccount_tx_spec a L L0 id k R Hk) as (a' & -> & _). unfold entry. cbn [fst].
    destruct (c_peek (records a) (acctMapKey id)) as [acct|] eqn:Ep; [|by destruct (L !! k) as [[]|]].
    by rewrite Hsame, (r_rec _ _ _ _ R id k acct Hk (or_intror Hu) Ep).
  - destruct (GetAccount_read_spec false a L L0 id k R Hk) as (acct & a' & -> & _ & Ha). cbn [fst].
    rewrite Ha by (by right). unfold entry. by rewrite Hsame.
Qed.

Lemma rollback_block_refines a L L0 :
  agrees true a L L0 -> agrees true (rollback_block a) L0 L0.
Proof. intros []. constructor; cbn; try done. intros id k acct Hk _. apply (r_rec0 id k acct Hk). by left. Qed.
End refinement.

Abbreviation refines reg := (agrees reg true).
Abbreviation implements reg := (implements_ reg (md := true)).

(** ** Sequences of operations *)

Inductive acct_op :=
  | OpCredit (id : AccountID) (amt : Z)
  | OpSpend (id : AccountID) (amt nonce : Z)
  | OpApplySpend (id : AccountID) (amt nonce : Z)
  | OpTransfer (from to : AccountID) (amt : Z)
  | OpRead (ex : executor) (id : AccountID).

Section sequences.
Context {C : Type} `{HC : Cache (list byte) Account C}.
Context (reg : registry).

(** No read goes through the transaction of the block. *)
Definition committed_read (op : acct_op) : bool :=
  match op with OpRead ConsensusTx _ => false | _ => true end.

Definition run_op (op : acct_op) : action (Accounts C) unit :=
  match op with
  | OpCredit id amt => Credit reg id (Some amt)
  | OpSpend id amt nonce => Spend_ reg id (Some amt) nonce
  | OpApplySpend id amt nonce => ApplySpend reg id (Some amt) nonce
  | OpTransfer from to amt => Transfer reg from to (Some amt)
  | OpRead ex id => _ ← GetAccount reg ex id; mret tt
  end.

(** The outcomes of the operations and the final store. *)
Fixpoint run_ops (ops : list acct_op) (a : Accounts C) : list (result unit) * Accounts C :=
  match ops with
  | [] => ([], a)
  | op :: ops' =>
      let '(r, a1) := run_op op a in
      let '(rs, a2) := run_ops ops' a1 in
      (r :: rs, a2)
  end.

Definition op_ids (op : acct_op) : list AccountID :=
  match op with
  | OpCredit id _ | OpSpend id _ _ | OpApplySpend id _ _ | OpRead _ id => [id]
  | OpTransfer from to _ => [from; to]
  end.

(** All accounts of the operation are usable. *)
Definition op_ok (op : acct_op) : bool :=
  forallb (fun id => match ledger_key reg id with Some _ => true | None => false end) (op_ids op).

Definition key_of (id : AccountID) : bytes * Z := default ([], 0) (ledger_key reg id).

Definition ledger_op (op : acct_op) (L : ledger) : result ledger :=
  match op with
  | OpCredit id amt => ledger_credit L (key_of id) amt
  | OpSpend id amt nonce => ledger_spend L (key_of id) amt nonce
  | OpApplySpend id amt _ => ledger_apply_spend L (key_of id) amt
  | OpTransfer from to amt => ledger_transfer L (key_of from) (key_of to) amt
  | OpRead _ _ => Ok L
  end.

Fixpoint ledger_ops (ops : list acct_op) (L : ledger) : list (result unit) * ledger :=
  match ops with
  | [] => ([], L)
  | op :: ops' =>
      let '(r, L1) := match ledger_op op L with
                      | Ok L' => (Ok tt, L')
                      | Err e => (Err e, L)
                      end in
      let '(rs, L2) := ledger_ops ops' L1 in
      (r :: rs, L2)
  end.

Lemma key_of_ok id : (match ledger_key reg id with Some _ => true | None => false end) = true ->
  ledger_key reg id = Some (key_of id).
Proof. unfold key_of. by destruct (ledger_key reg id). Qed.

(** Strictly when no read goes through the transaction of the block. *)
Lemma run_op_implements (Hreg : reg_ok reg) md op a L L0 :
  op_ok op = true -> (md = true -> committed_read op = true) ->
  agrees reg md a L L0 -> implements_ reg (md := md) (run_op op) a L L0 (ledger_op op L).
Proof.
  unfold op_ok. intros Hok Hmd R. destruct op; cbn [op_ids forallb run_op ledger_op] in *;
    rewrite ?andb_true_r in Hok.
  - apply key_of_ok in Hok. by apply Credit_implements.
  - apply key_of_ok in Hok. by apply Spend_implements.
  - apply key_of_ok in Hok. by apply ApplySpend_implements.
  - apply andb_prop in Hok as [H1%key_of_ok H2%key_of_ok]. by apply Transfer_implements.
  - apply key_of_ok in Hok. destruct ex.
    + destruct md; [by specialize (Hmd eq_refl)|].
      destruct (GetAccount_tx_spec reg Hreg a L L0 id _ R Hok) as (a' & E & R' & _).
      exists a'. by rewrite (action_bind_Ok _ _ _ _ _ E).
    + destruct (GetAccount_read_spec reg Hreg md a L L0 id _ R Hok) as (acct & a' & E & R' & _).
      exists a'. by rewrite (action_bind_Ok _ _ _ _ _ E).
Qed.

Lemma run_ops_refines (Hreg : reg_ok reg) md ops a L L0 :
  forallb op_ok ops = true -> (md = true -> forallb committed_read ops = true) -> agrees reg md a L L0 ->
  fst (run_ops ops a) = fst (ledger_ops ops L) /\
  agrees reg md (snd (run_ops ops a)) (snd (ledger_ops ops L)) L0.
Proof.
  revert a L. induction ops as [|op ops IH]; intros a L Hok Hmd R; [done|].
  cbn [forallb] in Hok, Hmd. apply andb_prop in Hok as [Hop Hops]. cbn [run_ops ledger_ops].
  assert (md = true -> forallb committed_read ops = true) as Hmds by (intros H; by apply Hmd, andb_prop in H as []).
  destruct (run_op_implements Hreg md op a L L0 Hop) as (a1 & Himp); [|done|].
  { intros H. by apply Hmd, andb_prop in H as []. }
  destruct (ledger_op op L) as [L1|e]; destruct Himp as [-> R1].
  - destruct (IH a1 L1 Hops Hmds R1) as [E1 R2].
    destruct (run_ops ops a1), (ledger_ops ops L1); cbn in *. by subst.
  - destruct (IH a1 L Hops Hmds R1) as [E1 R2].
    destruct (run_ops ops a1), (ledger_ops ops L); cbn in *. by subst.
Qed.
End sequences.

(** ** Ledger facts *)

Lemma supply_update L k b n b' n' :
  L !! k = Some (b, n) -> supply (<[k := (b', n')]> L) = supply L - b + b'.
Proof. intros E. unfold supply. by rewrite (map_sum_update fst L k (b, n)). Qed.

Lemma supply_insert L k b n :
  L !! k = None -> supply (<[k := (b, n)]> L) = supply L + b.
Proof. intros E. unfold supply. rewrite (map_sum_insert fst L k (b, n)) by done. cbn. lia. Qed.

Definition balance_of (L : ledger) (k : bytes * Z) : Z := from_option fst 0 (L !! k).

Lemma ledger_transfer_conserves L kf kt amt L' :
  kf <> kt -> ledger_transfer L kf kt amt = Ok L' ->
  supply L' = supply L /\ balance_of L' kf = balance_of L kf - amt /\
  balance_of L' kt = balance_of L kt + amt /\
  (forall k, k <> kf -> k <> kt -> L' !! k = L !! k).
Proof.
  intros Hne. unfold ledger_transfer, balance_of. destruct (amt <? 0); [done|].
  destruct (L !! kf) as [[b n]|] eqn:Ef; [|done]. destruct (_ <? 0); [done|].
  intros <-%(inj Ok). destruct (L !! kt) as [[b' n']|] eqn:Et.
  - rewrite (supply_update _ kf b n) by by rewrite lookup_insert_ne.
    rewrite (supply_update _ kt b' n') by done.
    rewrite lookup_insert_eq, lookup_insert_ne, lookup_insert_eq by done. cbn.
    split_and!; try lia. intros k H1 H2. by rewrite !lookup_insert_ne.
  - rewrite (supply_update _ kf b n) by by rewrite lookup_insert_ne.
    rewrite supply_insert by done.
    rewrite lookup_insert_eq, lookup_insert_ne, lookup_insert_eq by done. cbn.
    split_and!; try lia. intros k H1 H2. by rewrite !lookup_insert_ne.
Qed.

Lemma ledger_ok_insert L k b n :
  ledger_ok L -> 0 <= b -> is_sint 64 n -> ledger_ok (<[k := (b, n)]> L).
Proof.
  intros HL Hb Hn k' b' n'. rewrite lookup_insert_Some.
  intros [[<- [= <- <-]]|[_ E]]; [done|by eapply HL].
Qed.

Definition op_nonce_ok (op : acct_op) : bool :=
  match op with
  | OpSpend _ _ nonce => (- 2 ^ 63 <=? nonce) && (nonce <? 2 ^ 63)
  | _ => true
  end.

Lemma ledger_transfer_ok L kf kt amt L' : ledger_ok L -> ledger_transfer L kf kt amt = Ok L' -> ledger_ok L'.
Proof.
  intros HL. assert (is_sint 64 0) by const_range. unfold ledger_transfer. destruct (Z.ltb_spec amt 0); [done|].
  destruct (L !! kf) as [[b n]|] eqn:E; [|done]. destruct (Z.ltb_spec (b - amt) 0); [done|]. intros <-%(inj Ok).
  apply HL in E as [? ?]. apply ledger_ok_insert; [|lia|done].
  destruct (L !! kt) as [[b' n']|] eqn:E'; [|by apply ledger_ok_insert].
  apply HL in E' as [? ?]. apply ledger_ok_insert; [done|lia|done].
Qed.

Lemma ledger_op_ok reg op L L' :
  op_nonce_ok op = true -> ledger_ok L -> ledger_op reg op L = Ok L' -> ledger_ok L'.
Proof.
  intros Hn HL. assert (is_sint 64 0) by const_range. assert (is_sint 64 1) by const_range.
  destruct op as [id amt|id amt nonce|id amt nonce|from to amt|ex id]; cbn [ledger_op op_nonce_ok] in *.
  - unfold ledger_credit. destruct (L !! _) as [[b n]|] eqn:E.
    + destruct (Z.ltb_spec (b + amt) 0); [done|]. intros <-%(inj Ok).
      apply HL in E as [? ?]. by apply ledger_ok_insert.
    + destruct (Z.ltb_spec amt 0); [done|]. intros <-%(inj Ok). by apply ledger_ok_insert.
  - unfold ledger_spend. destruct (amt <? 0); [done|]. destruct (L !! _) as [[b n]|] eqn:E.
    + destruct (negb _); [done|]. destruct (Z.ltb_spec (b - amt) 0); [done|].
      intros <-%(inj Ok). apply ledger_ok_insert; [done|lia|]. ints.
    + destruct ((amt =? 0) && (nonce =? 1)); [|done]. intros <-%(inj Ok). by apply ledger_ok_insert.
  - unfold ledger_apply_spend. destruct (amt <? 0); [done|].
    destruct (L !! _) as [[b n]|] eqn:E; [|done]. intros <-%(inj Ok).
    apply HL in E as [? ?]. apply ledger_ok_insert; [done|lia|done].
  - by apply ledger_transfer_ok.
  - by intros <-%(inj Ok).
Qed.

Lemma ledger_ops_ok reg ops L :
  forallb op_nonce_ok ops = true -> ledger_ok L -> ledger_ok (snd (ledger_ops reg ops L)).
Proof.
  revert L. induction ops as [|op ops IH]; intros L Hn HL; [done|].
  cbn [forallb] in Hn. apply andb_prop in Hn as [Hn1 Hn2]. cbn [ledger_ops].
  destruct (ledger_op reg op L) as [L1|e] eqn:E.
  - specialize (IH L1 Hn2 (ledger_op_ok reg op L L1 Hn1 HL E)).
    by destruct (ledger_ops reg ops L1).
  - specialize (IH L Hn2 HL). by destruct (ledger_ops reg ops L).
Qed.

(** The nonce of an account, once positive, never goes back. *)
Definition nonce_ge (L : ledger) (k : bytes * Z) (n : Z) : Prop :=
  exists b m, L !! k = Some (b, m) /\ n <= m < 2 ^ 63.

Definition op_nonneg_nonce (op : acct_op) : bool :=
  match op with
  | OpSpend _ _ nonce => (0 <=? nonce) && (nonce <? 2 ^ 63)
  | _ => true
  end.

Lemma nonce_ge_insert L k k' b' m' n :
  nonce_ge L k n ->
  (k' = k -> n <= m' < 2 ^ 63) -> nonce_ge (<[k' := (b', m')]> L) k n.
Proof.
  intros (b & m & E & H) Hk. destruct (decide (k' = k)) as [->|Hne].
  - exists b', m'. rewrite lookup_insert_eq. auto.
  - exists b, m. by rewrite lookup_insert_ne.
Qed.

Lemma i64_succ m nonce : 0 <= nonce -> - 2 ^ 63 <= m < 2 ^ 63 -> i64 (m + 1) = nonce -> nonce = m + 1.
Proof. intros. destruct (decide (m = 2 ^ 63 - 1)) as [->|]; [|rewrite swrap_small in *; ints].
  change (- 2 ^ 63 = nonce) in H1. ints. Qed.

Lemma ledger_op_nonce_ge reg op L L' k n :
  op_nonneg_nonce op = true -> 0 <= n -> nonce_ge L k n -> ledger_op reg op L = Ok L' ->
  nonce_ge L' k n.
Proof.
  intros Hop Hn0 HL. pose proof HL as (b0 & m0 & E0 & H0).
  destruct op as [id amt|id amt nonce|id amt nonce|from to amt|ex id];
    cbn [ledger_op op_nonneg_nonce] in *.
  - unfold ledger_credit. destruct (L !! key_of reg id) as [[b m]|] eqn:E.
    + destruct (_ <? 0); [done|]. intros <-%(inj Ok). apply nonce_ge_insert; [done|].
      intros <-. simplify_eq. done.
    + destruct (_ <? 0); [done|]. intros <-%(inj Ok). apply nonce_ge_insert; [done|].
      intros <-. simplify_eq.
  - unfold ledger_spend. destruct (amt <? 0); [done|].
    destruct (L !! key_of reg id) as [[b m]|] eqn:E.
    + destruct (Z.eqb_spec (i64 (m + 1)) nonce) as [En|]; [|done]. cbn [negb].
      destruct (_ <? 0); [done|]. intros <-%(inj Ok). apply nonce_ge_insert; [done|].
      intros <-. apply andb_prop in Hop as [Ha%Z.leb_le Hb%Z.ltb_lt].
      rewrite E in E0. injection E0 as -> ->. apply i64_succ in En; ints.
    + destruct ((amt =? 0) && (nonce =? 1)); [|done]. intros <-%(inj Ok). apply nonce_ge_insert; [done|].
      intros <-. simplify_eq.
  - unfold ledger_apply_spend. destruct (amt <? 0); [done|].
    destruct (L !! key_of reg id) as [[b m]|] eqn:E; [|done]. intros <-%(inj Ok).
    apply nonce_ge_insert; [done|]. intros <-. simplify_eq. done.
  - unfold ledger_transfer. destruct (amt <? 0); [done|].
    destruct (L !! key_of reg from) as [[b m]|] eqn:E; [|done].
    destruct (_ <? 0); [done|]. intros <-%(inj Ok).
    destruct (L !! key_of reg to) as [[b' m']|] eqn:E';
      (apply nonce_ge_insert; [apply nonce_ge_insert; [done|]|]); intros <-; simplify_eq; done.
  - by intros <-%(inj Ok).
Qed.

Lemma ledger_ops_nonce_ge reg ops L k n :
  forallb op_nonneg_nonce ops = true -> 0 <= n -> nonce_ge L k n ->
  nonce_ge (snd (ledger_ops reg ops L)) k n.
Proof.
  revert L. induction ops as [|op ops IH]; intros L Hops Hn HL; [done|].
  cbn [forallb] in Hops. apply andb_prop in Hops as [H1 H2]. cbn [ledger_ops].
  destruct (ledger_op reg op L) as [L1|e] eqn:E.
  - specialize (IH L1 H2 Hn (ledger_op_nonce_ge reg op L L1 k n H1 Hn HL E)).
    by destruct (ledger_ops reg ops L1).
  - specialize (IH L H2 Hn HL). by destruct (ledger_ops reg ops L).
Qed.

Section claims.
Context {C : Type} `{HC : Cache (list byte) Account C}.
Implicit Types (a : Accounts C) (L : ledger).

(** C33. The cached account store implements the plain ledger: from a store
    that represents a ledger, any sequence of credits, spends, migrated spends,
    transfers and reads (through the transaction of the block or on the committed
    state) has the outcomes of the ledger operations; a read then returns the
    ledger's entry for every account that the block has not written, and
    committing the block (with the updates in any map order) makes the result the
    committed ledger.  When no read went through the transaction of the block,
    rolling the block back restores the ledger before it. *)
Theorem accounts_refinement reg ops a L L0 :
  reg_ok reg -> forallb (op_ok reg) ops = true -> refines reg a L L0 ->
  let '(rs, a') := run_ops reg ops a in
  let '(rs', L') := ledger_ops reg ops L in
  rs = rs' /\ agrees reg false a' L' L0 /\
  (forall ex id k, ledger_key reg id = Some k -> updates a' !! acctMapKey id = None ->
     fst (GetAccount reg ex id a') = Ok (entry L' k id)) /\
  (forall order, order ≡ₚ map_to_list (updates a') ->
     refines reg (commit_block order a') L' L') /\
  (forallb committed_read ops = true ->
     refines reg a' L' L0 /\ refines reg (rollback_block a') L0 L0).
Proof.
  intros Hreg Hok R.
  destruct (run_ops_refines reg Hreg false ops a L L0 Hok) as [E R']; [done|by eapply agrees_weaken|].
  assert (forallb committed_read ops = true -> refines reg (snd (run_ops reg ops a)) (snd (ledger_ops reg ops L)) L0) as Hs
    by (intros Hc; by apply (run_ops_refines reg Hreg true)).
  destruct (run_ops reg ops a) as [rs a'], (ledger_ops reg ops L) as [rs' L']. cbn in *.
  split_and!; [done|done| | |].
  - intros ex id k Hk Hu. by eapply GetAccount_unwritten.
  - intros order Ho. by eapply commit_block_refines.
  - intros Hc. split; [by apply Hs|]. by eapply rollback_block_refines, Hs.
Qed.

(** A successful transfer between two accounts takes the amount from the
    sender, gives it to the receiver, leaves every other account as it was,
    and preserves the total supply. *)
Theorem Transfer_moves reg a a' L L0 from to kf kt amt :
  reg_ok reg -> refines reg a L L0 ->
  ledger_key reg from = Some kf -> ledger_key reg to = Some kt -> kf <> kt ->
  Transfer reg from to (Some amt) a = (Ok tt, a') ->
  exists L', refines reg a' L' L0 /\ supply L' = supply L /\
    balance_of L' kf = balance_of L kf - amt /\
    balance_of L' kt = balance_of L kt + amt /\
    (forall k, k <> kf -> k <> kt -> L' !! k = L !! k).
Proof.
  intros Hreg R Hf Ht Hne E.
  destruct (Transfer_implements reg Hreg a L L0 from to kf kt amt R Hf Ht) as (a1 & Himp).
  destruct (ledger_transfer L kf kt amt) as [L'|e] eqn:EL; destruct Himp as [E1 R1];
    rewrite E in E1; [|done]. injection E1 as <-.
  exists L'. split; [done|]. by apply ledger_transfer_conserves.
Qed.

(** A transfer from an account to itself destroys the amount: it succeeds
    and the balance and the total supply drop by it. *)
Theorem Transfer_to_self_burns reg a L L0 id k b n amt :
  reg_ok reg -> refines reg a L L0 -> ledger_key reg id = Some k ->
  L !! k = Some (b, n) -> 0 <= amt <= b ->
  exists a' L', Transfer reg id id (Some amt) a = (Ok tt, a') /\ refines reg a' L' L0 /\
    L' !! k = Some (b - amt, n) /\ supply L' = supply L - amt.
Proof.
  intros Hreg R Hk E Hamt.
  destruct (Transfer_implements reg Hreg a L L0 id id k k amt R Hk Hk) as (a1 & Himp).
  unfold ledger_transfer in Himp. rewrite (proj2 (Z.ltb_ge amt 0)) in Himp by lia.
  rewrite E, (proj2 (Z.ltb_ge (b - amt) 0)), insert_insert_eq in Himp by lia.
  destruct Himp as [E1 R1]. exists a1, (<[k := (b - amt, n)]> L). split_and!; try done.
  - apply lookup_insert_eq.
  - rewrite (supply_update L k b n) by done. lia.
Qed.

(** No balance is ever negative: from a store representing a ledger
    without negative balances, any sequence of operations leaves in the table
    only rows whose balance text is a nonnegative integer. *)
Theorem accounts_nonnegative reg ops a L L0 k r :
  reg_ok reg -> refines reg a L L0 -> ledger_ok L ->
  forallb (op_ok reg) ops = true -> forallb op_nonce_ok ops = true ->
  tx_table (snd (run_ops reg ops a)) !! k = Some r ->
  exists b, big_SetString (row_balance r) = Some b /\ 0 <= b.
Proof.
  intros Hreg R HL Hok Hn.
  destruct (run_ops_refines reg Hreg false ops a L L0 Hok) as [_ R']; [done|by eapply agrees_weaken|].
  pose proof (ledger_ops_ok reg ops L Hn HL) as HL'.
  rewrite (r_tx _ _ _ _ _ R'), lookup_fmap.
  destruct (snd (ledger_ops reg ops L) !! k) as [[b n]|] eqn:E; [|done].
  intros [= <-]. exists b. cbn [row_of row_balance fst]. rewrite SetString_String.
  by apply HL' in E as [? _].
Qed.

(** A nonce is used once: after a successful spend with a nonce, and any
    later operations, a spend from the same account with that nonce is
    refused with [ErrInvalidNonce], whatever its amount. *)
Theorem Spend_no_replay reg a L L0 id k amt nonce ops amt' a1 :
  reg_ok reg -> refines reg a L L0 -> ledger_ok L -> ledger_key reg id = Some k ->
  0 <= nonce < 2 ^ 63 -> 0 <= amt' ->
  Spend_ reg id (Some amt) nonce a = (Ok tt, a1) ->
  forallb (op_ok reg) ops = true -> forallb op_nonneg_nonce ops = true ->
  exists a3, Spend_ reg id (Some amt') nonce (snd (run_ops reg ops a1)) =
    (Err (ErrWrap "expected nonce" ErrInvalidNonce), a3).
Proof.
  intros Hreg R HL Hk Hn Hamt E Hok Hops.
  destruct (Spend_implements reg Hreg a L L0 id k amt nonce R Hk) as (a2 & Himp).
  destruct (ledger_spend L k amt nonce) as [L1|e] eqn:EL; destruct Himp as [E1 R1];
    rewrite E in E1; [injection E1 as <-|done].
  assert (nonce_ge L1 k nonce) as Hge.
  { unfold ledger_spend in EL. destruct (amt <? 0); [done|].
    destruct (L !! k) as [[b n]|].
    - destruct (negb _); [done|]. destruct (_ <? 0); [done|]. apply (inj Ok) in EL as <-.
      exists (b - amt), nonce. rewrite lookup_insert_eq. split; [done|lia].
    - destruct (Z.eqb_spec nonce 1) as [->|]; [|by rewrite andb_false_r in EL].
      destruct (_ && _); [|done]. apply (inj Ok) in EL as <-.
      exists 0, 1. by rewrite lookup_insert_eq. }
  destruct (run_ops_refines reg Hreg false ops a1 L1 L0 Hok) as [_ R2]; [done|by eapply agrees_weaken|].
  pose proof (ledger_ops_nonce_ge reg ops L1 k nonce Hops ltac:(lia) Hge) as (b & m & Em & Hm).
  destruct (Spend_implements reg Hreg _ _ L0 id k amt' nonce R2 Hk) as (a3 & Himp).
  unfold ledger_spend in Himp. rewrite (proj2 (Z.ltb_ge amt' 0)), Em in Himp by lia.
  destruct (Z.eqb_spec (i64 (m + 1)) nonce) as [En|]; cbn [negb] in Himp.
  - apply i64_succ in En; ints.
  - exists a3. apply Himp.
Qed.

(** The state after a block that created an account, read it through its own
    transaction, and was rolled back. *)
Definition rolled_back_after_read reg (a : Accounts C) (id : AccountID) (amt : Z) : Accounts C :=
  rollback_block (snd (GetAccount reg ConsensusTx id (snd (Credit reg id (Some amt) a)))).

Lemma rolled_back_state reg a L0 id k amt :
  reg_ok reg -> refines reg a L0 L0 -> ledger_key reg id = Some k -> L0 !! k = None -> 0 <= amt ->
  let a3 := rolled_back_after_read reg a id amt in
  updates a3 = ∅ /\ tx_table a3 = row_of <$> L0 /\ db_table a3 = row_of <$> L0 /\
  c_peek (records a3) (acctMapKey id) = Some (mkAccount id amt 0) /\
  (forall id' k' w, ledger_key reg id' = Some k' -> k' <> k ->
     c_peek (records a3) (acctMapKey id') = Some w -> L0 !! k' = Some (Balance w, acc_Nonce w)).
Proof.
  intros Hreg R Hk HL Hamt. unfold rolled_back_after_read.
  destruct (Credit_implements reg Hreg a L0 L0 id k amt R Hk) as (a1 & Himp).
  unfold ledger_credit in Himp. rewrite HL, (proj2 (Z.ltb_ge amt 0)) in Himp by lia.
  destruct Himp as [-> R1]. cbn [snd]. unfold GetAccount, getAccount. cbv zeta.
  destruct (c_get (records a1) (acctMapKey id)) as [hit recs] eqn:Eg.
  pose proof (refines_get reg a1 _ L0 (acctMapKey id) R1) as R2. rewrite Eg in R2. cbn [snd] in R2.
  destruct hit as [acct|].
  { assert (c_peek (records a1) (acctMapKey id) = Some acct) as Hp by (unfold c_peek; by rewrite Eg).
    apply (r_rec _ _ _ _ _ R1 id k acct Hk (or_introl eq_refl)) in Hp. congruence. }
  cbn [exec_table set_records tx_table]. rewrite (r_tx _ _ _ _ _ R1).
  rewrite (sql_getAccount_spec reg _ id k Hk), lookup_insert_eq. cbn [snd].
  unfold rollback_block, Rollback. cbn. split_and!; try done.
  - apply (r_db _ _ _ _ _ R1).
  - apply (r_db _ _ _ _ _ R1).
  - apply c_put_eq.
  - intros id' k' w Hk' Hne [[E _]|[_ E]]%c_peek_put; [|by apply (r_rec _ _ _ _ _ R2 id' k' w Hk' (or_introl eq_refl))].
    apply (acctMapKey_inj reg Hreg id id' k k' Hk Hk') in E. congruence.
Qed.

Lemma getAccount_hit reg ex id unc a acct :
  updates a !! acctMapKey id = None -> c_peek (records a) (acctMapKey id) = Some acct ->
  getAccount reg ex id unc a =
    (Ok (mkAccount id (Balance acct) (acc_Nonce acct)),
     set_records a (snd (c_get (records a) (acctMapKey id)))).
Proof.
  intros Eu Ep. unfold getAccount, c_peek in *. rewrite Eu.
  destruct (c_get (records a) (acctMapKey id)) as [hit recs]. cbn in Ep. subst hit.
  by destruct unc.
Qed.

(** The table effect of [updateAccount] on an existing and on a missing row. *)
Lemma updateAccount_table reg id k b n a :
  ledger_key reg id = Some k ->
  updateAccount reg id b n a =
    (Ok tt, set_update (set_table a
       (match tx_table a !! k with
        | Some _ => <[k := row_of (b, n)]> (tx_table a)
        | None => tx_table a
        end)) (acctMapKey id) (mkAccount id b n)).
Proof.
  intros (kd & Ei & Ekd & Ef & Hle & _)%ledger_key_inv.
  unfold updateAccount, KeyTypeDefinition, sql_updateAccount.
  rewrite Ekd, Ei, Ef, sql_key_ok by done. cbn [mbind result_bind mret result_ret].
  by destruct (tx_table a !! k).
Qed.

(** C37. A read through the consensus transaction breaks the cache: when an
    account created in a block is read with [GetAccount] on that block's
    transaction and the block is then rolled back, the cache still answers
    with the rolled back balance although the table has no such account; and
    a transfer of the next block to that account (from a cached sender)
    succeeds without creating it, so that the amount is lost from the
    table. *)
Theorem rollback_leaves_stale_record reg a L0 id k amt from kf b n amt' :
  reg_ok reg -> refines reg a L0 L0 ->
  ledger_key reg id = Some k -> L0 !! k = None -> 0 <= amt ->
  ledger_key reg from = Some kf -> L0 !! kf = Some (b, n) -> 0 <= amt' <= b ->
  let a3 := rolled_back_after_read reg a id amt in
  is_Some (c_peek (records a3) (acctMapKey from)) ->
  db_table a3 !! k = None /\
  fst (GetAccount reg ReadTx id a3) = Ok (mkAccount id amt 0) /\
  exists a4, Transfer reg from id (Some amt') a3 = (Ok tt, a4) /\
    tx_table a4 = <[kf := row_of (b - amt', n)]> (row_of <$> L0).
Proof.
  intros Hreg R Hk HL Hamt Hkf HLf Hamt' a3 [wf Hhit].
  destruct (rolled_back_state reg a L0 id k amt Hreg R Hk HL Hamt) as (Hu & Ht & Hd & Hp & Ho).
  fold a3 in Hu, Ht, Hd, Hp, Ho. clearbody a3. split_and!.
  - by rewrite Hd, lookup_fmap, HL.
  - unfold GetAccount. rewrite (getAccount_hit _ _ _ _ _ _ ltac:(by rewrite Hu) Hp). done.
  - assert (Some (Balance wf, acc_Nonce wf) = Some (b, n)) as [= Eb En].
    { rewrite <- HLf. symmetry. apply (Ho from kf); [done| |done]. congruence. }
    unfold Transfer. rewrite (proj2 (Z.ltb_ge amt' 0)) by lia. unfold nested_tx, Transfer_body.
    unfold mbind, action_bind, atry.
    rewrite (getAccount_hit _ _ _ _ _ _ ltac:(by rewrite Hu) Hhit). cbn [Balance acc_Nonce].
    rewrite Eb, En, (proj2 (Z.ltb_ge (b - amt') 0)) by lia.
    rewrite (getAccount_hit reg _ id true (set_records a3 _) (mkAccount id amt 0));
      [|by cbn; rewrite Hu|by cbn; unfold c_peek in *; rewrite c_get_pure].
    rewrite (updateAccount_table reg id k _ _ _ Hk). cbn [Balance acc_Nonce].
    rewrite (updateAccount_table reg from kf _ _ _ Hkf). cbn. eexists. split; [done|]. cbn.
    rewrite Ht, !lookup_fmap, HL. cbn. by rewrite lookup_fmap, HLf.
Qed.
End claims.

(** ** Concrete stores *)

Definition alice : AccountID := mkAccountID (Some [x01]) KeyTypeEd25519.
Definition bob : AccountID := mkAccountID (Some [x02]) KeyTypeSecp256k1.
Definition alice_key : bytes * Z := ([x01], 1).
Definition bob_key : bytes * Z := ([x02], 0).

(** A cache of two records. *)
#[local] Instance test_cache : Cache (list byte) Account (list (list byte * Account)) :=
  lru_cache 1.

Lemma implements_snd {C} `{Cache (list byte) Account C} reg m (a : Accounts C) L L0 L' :
  implements reg m a L L0 (Ok L') -> m a = (Ok tt, snd (m a)) /\ refines reg (snd (m a)) L' L0.
Proof. intros (a' & E & R). by rewrite E. Qed.

(** Bob has 50 tokens, committed and cached. *)
Definition funded : Accounts (list (list byte * Account)) :=
  commit_block [(acctMapKey bob, mkAccount bob 50 0)]
    (snd (Credit test_registry bob (Some 50) InitializeAccountStore)).

Definition funded_ledger : ledger := <[bob_key := (50, 0)]> ∅.

Lemma funded_refines : refines test_registry funded funded_ledger funded_ledger.
Proof.
  apply (commit_block_refines (md := true) test_registry _ _ ∅).
  - apply (implements_snd test_registry _ _ ∅ ∅ funded_ledger).
    apply (Credit_implements test_registry test_registry_ok _ ∅ ∅ bob bob_key 50 (refines_init _)).
    by vm_compute.
  - by vm_compute.
Qed.

Definition funded_ops : list acct_op :=
  [OpTransfer bob alice 20; OpSpend alice 5 1; OpCredit alice (-30); OpRead ReadTx bob;
   OpApplySpend bob 100 0].

Lemma accounts_refinement_witness :
  fst (run_ops test_registry funded_ops funded) =
    [Ok tt; Ok tt; Err ErrNegativeBalance; Ok tt; Ok tt] /\
  refines test_registry (rollback_block (snd (run_ops test_registry funded_ops funded)))
    funded_ledger funded_ledger.
Proof.
  pose proof (accounts_refinement test_registry funded_ops funded funded_ledger funded_ledger
    test_registry_ok ltac:(vm_compute; reflexivity) funded_refines) as H.
  destruct (run_ops test_registry funded_ops funded) as [rs a'].
  destruct (ledger_ops test_registry funded_ops funded_ledger) as [rs' L'] eqn:E.
  destruct H as (-> & _ & _ & _ & H). split; [|apply H; vm_compute; reflexivity].
  assert (rs' = fst (ledger_ops test_registry funded_ops funded_ledger)) as -> by by rewrite E.
  vm_compute. reflexivity.
Defined.

Lemma Transfer_moves_witness :
  exists L', supply L' = supply funded_ledger /\ balance_of L' alice_key = 20.
Proof.
  assert (Transfer test_registry bob alice (Some 20) funded =
          (Ok tt, snd (Transfer test_registry bob alice (Some 20) funded))) as E
    by (apply action_run_Ok; vm_compute; reflexivity).
  destruct (Transfer_moves test_registry funded _ funded_ledger funded_ledger
    bob alice bob_key alice_key 20 test_registry_ok funded_refines
    eq_refl eq_refl ltac:(discriminate) E) as (L' & _ & Hs & _ & Ht & _).
  exists L'. split; [exact Hs|]. rewrite Ht. by vm_compute.
Defined.

Lemma Transfer_to_self_burns_witness :
  exists a' L', Transfer test_registry bob bob (Some 50) funded = (Ok tt, a') /\
    supply L' = supply funded_ledger - 50.
Proof.
  destruct (Transfer_to_self_burns test_registry funded funded_ledger funded_ledger bob bob_key
    50 0 50 test_registry_ok funded_refines ltac:(by vm_compute) ltac:(by vm_compute) ltac:(lia))
    as (a' & L' & E & _ & _ & Hs).
  by exists a', L'.
Defined.

Lemma accounts_nonnegative_witness :
  exists b, big_SetString (big_String 15) = Some b /\ 0 <= b.
Proof.
  apply (accounts_nonnegative test_registry funded_ops funded funded_ledger funded_ledger
    alice_key (mkRow (big_String 15) 1) test_registry_ok funded_refines).
  - intros k b n. unfold funded_ledger. rewrite lookup_insert_Some, lookup_empty.
    intros [[<- [= <- <-]]|[_ ?]]; [split; [lia|const_range]|done].
  - by vm_compute.
  - by vm_compute.
  - by vm_compute.
Defined.

Lemma Spend_no_replay_witness :
  exists a3, Spend_ test_registry bob (Some 1) 1
    (snd (run_ops test_registry funded_ops (snd (Spend_ test_registry bob (Some 2) 1 funded)))) =
    (Err (ErrWrap "expected nonce" ErrInvalidNonce), a3).
Proof.
  refine (Spend_no_replay test_registry funded funded_ledger funded_ledger bob bob_key 2 1
    funded_ops 1 (snd (Spend_ test_registry bob (Some 2) 1 funded)) test_registry_ok
    funded_refines _ eq_refl _ _ _ _ _).
  - intros k b n. unfold funded_ledger. rewrite lookup_insert_Some, lookup_empty.
    intros [[<- [= <- <-]]|[_ ?]]; [split; [lia|const_range]|done].
  - by vm_compute.
  - lia.
  - apply action_run_Ok. vm_compute. reflexivity.
  - vm_compute. reflexivity.
  - vm_compute. reflexivity.
Defined.

Lemma rollback_leaves_stale_record_witness :
  let a3 := rolled_back_after_read test_registry funded alice 7 in
  db_table a3 !! alice_key = None /\
  fst (GetAccount test_registry ReadTx alice a3) = Ok (mkAccount alice 7 0) /\
  exists a4, Transfer test_registry bob alice (Some 30) a3 = (Ok tt, a4) /\
    tx_table a4 = <[bob_key := row_of (50 - 30, 0)]> (row_of <$> funded_ledger).
Proof.
  refine (rollback_leaves_stale_record test_registry funded funded_ledger alice alice_key 7
    bob bob_key 50 0 30 test_registry_ok funded_refines eq_refl _ _ eq_refl _ _ _).
  - reflexivity.
  - lia.
  - reflexivity.
  - lia.
  - vm_compute. by eexists.
Defined.
