(* ===== verification/Records.v ===== *)
(** * Stored and exchanged records

    The binary codecs of [Spend] (src/node/accounts/accounts.go) and
    [UpdatePowerRequest] (src/node/voting/validators.go), and the round trip of
    the records of Ident, Payloads and this file. *)

From S2P Require Import Prelude.
From S2P Require Import Wire.
From S2P Require Import BigInt.
From S2P Require Import Keys.
From S2P Require Import Ident.
From S2P Require Import Payloads.
From S2P Require Import Accounts.
From Stdlib Require Import Strings.Byte.

#[local] Open Scope Z_scope.

Definition Spend_MarshalBinary (reg : registry) (s : Spend) : result bytes :=
  idBts ← AccountID_MarshalBinary reg (sp_Account s);
  mret (le_bytes 2 0 ++ WriteBytes (Some idBts) ++ WriteBigInt (sp_Amount s) ++ le_bytes 8 (sp_Nonce s)).

Definition Spend_read (reg : registry) : reader Spend :=
  _ ← read_version (ErrMsg "invalid spend version");
  idBts ← ReadBytes HasLen;
  account ← rlift (AccountID_UnmarshalBinary reg idBts);
  amount ← ReadBigInt HasLen;
  nonce ← read_le 8;
  mret (mkSpend account amount nonce).

Definition Spend_UnmarshalBinary (reg : registry) (data : bytes) : result Spend :=
  run_reader (Spend_read reg) data.

Record UpdatePowerRequest := mkUpdatePower {
  up_PubKey : slice;
  up_PubKeyType : KeyType;
  up_Power : Z
}.

Definition UpdatePowerRequest_MarshalBinary (j : UpdatePowerRequest) : bytes :=
  le_bytes 2 0 ++ WriteCompactBytes (up_PubKey j) ++ WriteCompactString (up_PubKeyType j) ++
  le_bytes 8 (up_Power j).

Definition UpdatePowerRequest_read : reader UpdatePowerRequest :=
  _ ← read_version (ErrMsg "invalid version");
  pubKey ← ReadCompactBytes HasLen;
  pubKeyType ← ReadCompactString HasLen;
  power ← read_sle 8;
  mret (mkUpdatePower pubKey pubKeyType power).

Definition UpdatePowerRequest_UnmarshalBinary (data : bytes) : result UpdatePowerRequest :=
  run_reader UpdatePowerRequest_read data.

Lemma decodes_Spend reg s bs :
  reg_ok reg -> slice_len (Identifier (sp_Account s)) < MaxUint32 - 10 ->
  bigint_fits (sp_Amount s) -> is_uint 64 (sp_Nonce s) ->
  Spend_MarshalBinary reg s = Ok bs -> decodes (Spend_read reg) bs s.
Proof.
  intros Hreg Hlen Ha Hn (idb & Ei & <-%(inj Ok))%result_bind_Ok.
  pose proof (AccountID_MarshalBinary_length reg _ _ Ei) as Hl.
  eapply decodes_bind; [apply decodes_version|]. cbv beta.
  eapply decodes_bind.
  { apply decodes_ReadBytes. unfold slice_fits32. change (slice_len (Some idb)) with (zlen idb). lia. }
  cbv beta. eapply decodes_bind_nil.
  { apply decodes_rlift, (AccountID_Unmarshal_Marshal reg Hreg (sp_Account s)); [unfold slice_fits32; lia|done]. }
  cbv beta. eapply decodes_bind; [by apply decodes_ReadBigInt|]. cbv beta.
  eapply decodes_bind_ret; [by apply decodes_read_le|]. destruct s. apply decodes_ret.
Qed.

Lemma decodes_UpdatePower j :
  slice_fits (up_PubKey j) -> fits (up_PubKeyType j) -> is_sint 64 (up_Power j) ->
  decodes UpdatePowerRequest_read (UpdatePowerRequest_MarshalBinary j) j.
Proof.
  intros Hk Ht Hp. eapply decodes_bind; [apply decodes_version|]. cbv beta.
  eapply decodes_bind; [by apply decodes_ReadCompactBytes|]. cbv beta.
  eapply decodes_bind; [by apply decodes_ReadCompactString|]. cbv beta.
  eapply decodes_bind_ret; [apply decodes_read_sle; [lia|exact Hp]|]. destruct j. apply decodes_ret.
Qed.

(** Account identifiers, validators, events, action calls, spends and power
    updates survive their binary codecs: what marshals unmarshals to the same
    record. *)
Theorem records_roundtrip reg v vb e a s sb j :
  reg_ok reg ->
  slice_len (Identifier (val_ID v)) < MaxUint32 - 10 -> is_sint 64 (Power v) ->
  Validator_MarshalBinary reg v = Ok vb ->
  event_ok e ->
  str_fits (ac_Namespace a) -> str_fits (ac_Action a) -> call_ok (ac_Arguments a) ->
  slice_len (Identifier (sp_Account s)) < MaxUint32 - 10 -> bigint_fits (sp_Amount s) ->
  is_uint 64 (sp_Nonce s) -> Spend_MarshalBinary reg s = Ok sb ->
  slice_fits (up_PubKey j) -> fits (up_PubKeyType j) -> is_sint 64 (up_Power j) ->
  Validator_UnmarshalBinary reg (Some vb) = Ok v /\
  VotableEvent_UnmarshalBinary (Some (VotableEvent_MarshalBinary e)) = Ok e /\
  ActionCall_UnmarshalBinary (ActionCall_MarshalBinary a) = Ok a /\
  Spend_UnmarshalBinary reg sb = Ok s /\
  UpdatePowerRequest_UnmarshalBinary (UpdatePowerRequest_MarshalBinary j) = Ok j.
Proof.
  intros Hreg Hv Hp Ev He Hn Ha Hc Hs Hb Hno Es Hk Ht Hj. split_and!.
  - unfold Validator_UnmarshalBinary. change (slice_bytes (Some vb)) with vb.
    by rewrite (decodes_full _ _ _ (decodes_Validator reg Hreg v vb Hv Hp Ev)).
  - by apply VotableEvent_Unmarshal_Marshal.
  - by apply (run_reader_full ActionCall_read), decodes_ActionCall.
  - by eapply run_reader_full, decodes_Spend.
  - by apply run_reader_full, decodes_UpdatePower.
Qed.

Definition ex_validator : Validator := mkValidator (mkAccountID (Some (str "key")) KeyTypeEd25519) 4.
Definition ex_spend : Spend := mkSpend (mkAccountID (Some (str "key")) KeyTypeEd25519) (Some 12) 3.
Definition ex_call : ActionCall := mkActionCall (str "main") (str "act") [ex_value].
Definition ex_update : UpdatePowerRequest := mkUpdatePower (Some (str "key")) KeyTypeEd25519 9.
Definition marshalled (r : result bytes) : bytes := match r with Ok b => b | Err _ => [] end.

Lemma records_roundtrip_witness :
  Validator_UnmarshalBinary test_registry (Some (marshalled (Validator_MarshalBinary test_registry ex_validator)))
    = Ok ex_validator /\
  Spend_UnmarshalBinary test_registry (marshalled (Spend_MarshalBinary test_registry ex_spend)) = Ok ex_spend.
Proof.
  pose proof (records_roundtrip test_registry ex_validator
    (marshalled (Validator_MarshalBinary test_registry ex_validator))
    (mkVotableEvent (str "join") None) ex_call ex_spend
    (marshalled (Spend_MarshalBinary test_registry ex_spend)) ex_update
    test_registry_ok ltac:(by vm_compute) ltac:(const_range) ltac:(vm_compute; reflexivity)
    ltac:(split; by vm_compute) ltac:(by vm_compute) ltac:(by vm_compute)
    ltac:(split; [by vm_compute|constructor; [apply ex_value_ok|constructor]])
    ltac:(by vm_compute) ltac:(by vm_compute) ltac:(const_range) ltac:(vm_compute; reflexivity)
    ltac:(by vm_compute) ltac:(by vm_compute) ltac:(const_range)) as (H1 & _ & _ & H2 & _).
  exact (conj H1 H2).
Defined.
