(* ===== verification/Mempool.v ===== *)
(** * The mempool

    [Mempool] of src/node/mempool/mempool.go: the pool of unconfirmed
    transactions, a map by transaction hash kept in step with a queue in
    arrival order and a byte count.  Each method runs under the pool's mutex,
    so a method is one transition.  A [types.Tx] (src/node/types/transaction.go)
    carries the hash computed when it was made. *)

From S2P Require Import Prelude.
From S2P Require Import Wire.
From S2P Require Import Tx.
From Stdlib Require Import Strings.Byte.

Record NodeTx := mkNodeTx { ntx_Transaction : Transaction; ntx_hash : bytes }.

Definition NewTx (HashBytes : bytes -> bytes) (tx : Transaction) : NodeTx :=
  mkNodeTx tx (Tx_Hash HashBytes tx).

Definition ntx_size (tx : NodeTx) : Z := Tx_SerializeSize (ntx_Transaction tx).

Record sizedTx := mkSizedTx { sz_Tx : NodeTx; sz_size : Z }.

Record Mempool := mkMempool {
  txns : gmap (list byte) sizedTx;
  txQ : list NodeTx;
  fetching : gmap (list byte) bool;
  currentSize : Z;
  maxSize : Z;
  maxTxSize : Z
}.

Definition ErrTxAlreadyExists : error := ErrSentinel "transaction already exists".
Definition ErrTxTooLarge : error := ErrSentinel "transaction size limit exceeded".
Definition ErrMempoolFull : error := ErrSentinel "mempool is full".

Definition New (sz txSz : Z) : Mempool := mkMempool ∅ [] ∅ 0 sz txSz.

Definition SetMaxSize (maxBytes : Z) (mp : Mempool) : Mempool :=
  mkMempool (txns mp) (txQ mp) (fetching mp) (currentSize mp) maxBytes (maxTxSize mp).

Definition SetMaxTxSize (maxBytes : Z) (mp : Mempool) : Mempool :=
  mkMempool (txns mp) (txQ mp) (fetching mp) (currentSize mp) (maxSize mp) maxBytes.

Definition CapMaxTxSize (maxBlockSize : Z) (mp : Mempool) : Mempool :=
  mkMempool (txns mp) (txQ mp) (fetching mp) (currentSize mp) (maxSize mp)
    (Z.min (maxTxSize mp) maxBlockSize).

Definition Have (txid : bytes) (mp : Mempool) : bool :=
  match txns mp !! txid with Some _ => true | None => false end.

(** [slices.IndexFunc] *)
Fixpoint index_of (txid : bytes) (q : list NodeTx) : option nat :=
  match q with
  | [] => None
  | tx :: q' => if decide (ntx_hash tx = txid) then Some 0%nat else S <$> index_of txid q'
  end.

Definition remove (txid : bytes) (mp : Mempool) : Mempool :=
  let fetching' := delete txid (fetching mp) in
  match txns mp !! txid with
  | None => mkMempool (txns mp) (txQ mp) fetching' (currentSize mp) (maxSize mp) (maxTxSize mp)
  | Some tx =>
      mkMempool (delete txid (txns mp))
        (match index_of txid (txQ mp) with
         | Some idx => delete idx (txQ mp)
         | None => txQ mp
         end)
        fetching' (i64 (currentSize mp - sz_size tx)) (maxSize mp) (maxTxSize mp)
  end.

Definition Store (tx : NodeTx) : action Mempool unit := fun mp =>
  let txid := ntx_hash tx in
  let mp := mkMempool (txns mp) (txQ mp) (delete txid (fetching mp)) (currentSize mp)
              (maxSize mp) (maxTxSize mp) in
  match txns mp !! txid with
  | Some _ => (Err ErrTxAlreadyExists, mp)
  | None =>
      let sz := ntx_size tx in
      if sz >? maxTxSize mp then (Err ErrTxTooLarge, mp)
      else if i64 (currentSize mp + sz) >? maxSize mp then (Err ErrMempoolFull, mp)
      else (Ok tt, mkMempool (<[txid := mkSizedTx tx sz]> (txns mp)) (txQ mp ++ [tx])
                     (fetching mp) (i64 (currentSize mp + sz)) (maxSize mp) (maxTxSize mp))
  end.

(** [PreFetch]: whether to fetch; the returned function is [fetch_done]. *)
Definition PreFetch (txid : bytes) (mp : Mempool) : bool * Mempool :=
  match txns mp !! txid with
  | Some _ => (false, mp)
  | None =>
      if default false (fetching mp !! txid) then (false, mp)
      else (true, mkMempool (txns mp) (txQ mp) (<[txid := true]> (fetching mp))
                    (currentSize mp) (maxSize mp) (maxTxSize mp))
  end.

Definition fetch_done (txid : bytes) (mp : Mempool) : Mempool :=
  mkMempool (txns mp) (txQ mp) (delete txid (fetching mp)) (currentSize mp)
    (maxSize mp) (maxTxSize mp).

Definition Size (mp : Mempool) : Z * Z := (currentSize mp, zlen (txQ mp)).

Definition Get (txid : bytes) (mp : Mempool) : option NodeTx := sz_Tx <$> txns mp !! txid.

(** The body of the loop of [ReapN]. *)
Definition reap_tx (mp : Mempool) (tx : NodeTx) : Mempool :=
  match txns mp !! ntx_hash tx with
  | None => mp
  | Some szTx =>
      mkMempool (delete (ntx_hash tx) (txns mp)) (txQ mp) (fetching mp)
        (i64 (currentSize mp - sz_size szTx)) (maxSize mp) (maxTxSize mp)
  end.

Definition ReapN (n : nat) (mp : Mempool) : list NodeTx * Mempool :=
  let n := Nat.min n (length (txQ mp)) in
  let reaped := take n (txQ mp) in
  let mp := mkMempool (txns mp) (drop n (txQ mp)) (fetching mp) (currentSize mp)
              (maxSize mp) (maxTxSize mp) in
  (reaped, foldl reap_tx mp reaped).

(** The loop of [PeekN] over the first [n] transactions. *)
Fixpoint peek_loop (szLimit picked : Z) (q : list NodeTx) : list NodeTx :=
  match q with
  | [] => []
  | tx :: q' =>
      if 0 <? szLimit then
        if ntx_size tx + picked >? szLimit then []
        else tx :: peek_loop szLimit (picked + ntx_size tx) q'
      else tx :: peek_loop szLimit picked q'
  end.

(** [mp.txQ[:n]] with [n] at most the number of map entries; a negative [n] or
    a shorter queue is out of range. *)
Definition PeekN (n szLimit : Z) (mp : Mempool) : result (list NodeTx) :=
  let n := Z.min n (Z.of_nat (size (txns mp))) in
  if (0 <=? n) && (n <=? zlen (txQ mp)) then Ok (peek_loop szLimit 0 (take (Z.to_nat n) (txQ mp)))
  else Err (ErrPanic "slice bounds out of range").

Definition TxsAvailable (mp : Mempool) : bool := 0 <? zlen (txQ mp).

(** ** Recheck *)

Section recheck.
(** The check function works on a state of its own. *)
Context {S : Type} (fn : NodeTx -> action S unit).

(** The first loop: indices and hashes of the transactions to remove, from
    index [idx] on. *)
Fixpoint recheck_scan (mp : Mempool) (idx : nat) (q : list NodeTx) (s : S)
  : list (nat * bytes) * S :=
  match q with
  | [] => ([], s)
  | tx :: q' =>
      match txns mp !! ntx_hash tx with
      | None => recheck_scan mp (Datatypes.S idx) q' s
      | Some rawTx =>
          if sz_size rawTx >? maxTxSize mp then
            let '(l, s') := recheck_scan mp (Datatypes.S idx) q' s in
            ((idx, ntx_hash tx) :: l, s')
          else
            let '(r, s1) := fn tx s in
            let '(l, s') := recheck_scan mp (Datatypes.S idx) q' s1 in
            (if is_ok r then l else (idx, ntx_hash tx) :: l, s')
      end
  end.

(** The removal loop. *)
Definition recheck_remove (mp : Mempool) (itx : nat * bytes) : Mempool :=
  mkMempool (delete itx.2 (txns mp)) (delete itx.1 (txQ mp)) (fetching mp)
    (match txns mp !! itx.2 with
     | Some tx => i64 (currentSize mp - sz_size tx)
     | None => currentSize mp
     end) (maxSize mp) (maxTxSize mp).

Definition RecheckTxs (mp : Mempool) (s : S) : Mempool * S :=
  let '(toRemove, s') := recheck_scan mp 0 (txQ mp) s in
  (foldl recheck_remove mp (rev toRemove), s').
End recheck.

(** ** Invariant *)

Definition tx_entry (tx : NodeTx) : bytes * sizedTx := (ntx_hash tx, mkSizedTx tx (ntx_size tx)).

Definition total_size (q : list NodeTx) : Z := sum_list_Z (map ntx_size q).

(** Sizes are those of transactions in memory. *)
Definition ntx_ok (tx : NodeTx) : Prop := 0 <= ntx_size tx <= 2 ^ 61.

Record mp_ok (mp : Mempool) : Prop := mkMpOk {
  mp_nodup : NoDup (ntx_hash <$> txQ mp);
  mp_txns : txns mp = list_to_map (tx_entry <$> txQ mp);
  mp_size : currentSize mp = total_size (txQ mp);
  mp_txs : Forall ntx_ok (txQ mp);
  mp_limit : currentSize mp <= 2 ^ 62;
  mp_max : maxSize mp <= 2 ^ 62
}.

Lemma entry_keys q : (tx_entry <$> q).*1 = ntx_hash <$> q.
Proof. rewrite <- list_fmap_compose. done. Qed.

Lemma total_size_app q q' : total_size (q ++ q') = total_size q + total_size q'.
Proof. unfold total_size. by rewrite map_app, sum_list_Z_app. Qed.

Lemma total_size_nonneg q : Forall ntx_ok q -> 0 <= total_size q.
Proof.
  unfold total_size, ntx_ok. induction 1 as [|tx q [Htx _] _ IH]; cbn [map sum_list_Z]; lia.
Qed.

Lemma lookup_entry q tx :
  NoDup (ntx_hash <$> q) -> tx ∈ q ->
  (list_to_map (tx_entry <$> q) : gmap bytes sizedTx) !! ntx_hash tx = Some (mkSizedTx tx (ntx_size tx)).
Proof.
  intros Hnd Hin. apply elem_of_list_to_map; [by rewrite entry_keys|].
  apply list_elem_of_fmap. by exists tx.
Qed.

Lemma lookup_entry_None q h :
  h ∉ (ntx_hash <$> q) ->
  (list_to_map (tx_entry <$> q) : gmap bytes sizedTx) !! h = None.
Proof. intros H. apply not_elem_of_list_to_map. by rewrite entry_keys. Qed.

Lemma delete_middle {A} (l1 l2 : list A) x : delete (length l1) (l1 ++ x :: l2) = l1 ++ l2.
Proof. induction l1; cbn; [done|]. f_equal. done. Qed.

(** Taking one transaction out of the middle of the queue. *)
Lemma take_out mp q1 tx q2 fet :
  mp_ok mp -> txQ mp = q1 ++ tx :: q2 ->
  txns mp !! ntx_hash tx = Some (mkSizedTx tx (ntx_size tx)) /\
  mp_ok (mkMempool (delete (ntx_hash tx) (txns mp)) (q1 ++ q2) fet
           (i64 (currentSize mp - ntx_size tx)) (maxSize mp) (maxTxSize mp)).
Proof.
  intros [Hnd Htx Hsz Hok Hlim Hmax] E. rewrite E in *.
  rewrite fmap_app, fmap_cons in Hnd.
  assert (ntx_hash tx ∉ (ntx_hash <$> (q1 ++ q2))) as Hnin.
  { rewrite fmap_app. apply list.NoDup_app in Hnd as (H1 & H2 & H3).
    apply list.NoDup_cons in H3 as [H3 H4]. rewrite not_elem_of_app. split; [|done].
    intros Hin. apply (H2 _ Hin), elem_of_cons. by left. }
  assert (NoDup (ntx_hash <$> (q1 ++ q2))) as Hnd'.
  { rewrite fmap_app. rewrite Permutation_app_comm in Hnd. cbn in Hnd.
    apply list.NoDup_cons in Hnd as [_ Hnd]. by rewrite Permutation_app_comm in Hnd. }
  assert (txns mp = <[ntx_hash tx := mkSizedTx tx (ntx_size tx)]>
                      (list_to_map (tx_entry <$> (q1 ++ q2)))) as Htx'.
  { rewrite Htx. change (<[ntx_hash tx := mkSizedTx tx (ntx_size tx)]>
      (list_to_map (tx_entry <$> q1 ++ q2) : gmap bytes sizedTx)) with
      (list_to_map (tx_entry <$> (tx :: q1 ++ q2)) : gmap bytes sizedTx).
    apply list_to_map_proper.
    - rewrite entry_keys, fmap_app. done.
    - by rewrite <- Permutation_middle. }
  apply Forall_app in Hok as [Hok1 [Hok2 Hok3]%Forall_cons_1].
  pose proof (total_size_nonneg q1 Hok1). pose proof (total_size_nonneg q2 Hok3).
  rewrite total_size_app in Hsz. change (total_size (tx :: q2)) with (ntx_size tx + total_size q2) in Hsz.
  unfold ntx_ok in Hok2. split; [rewrite Htx'; apply lookup_insert_eq|].
  constructor; cbn [txns txQ fetching currentSize maxSize maxTxSize]; try done.
  - rewrite Htx', delete_insert_id; [done|]. by apply lookup_entry_None.
  - rewrite total_size_app, swrap_small; [lia|done|].
    change (2 ^ 62) with 4611686018427387904 in *. ints.
  - by apply Forall_app.
  - rewrite swrap_small; [lia|done|]. change (2 ^ 62) with 4611686018427387904 in *. ints.
Qed.

(** ** Preservation *)

Lemma index_of_Some txid q idx :
  index_of txid q = Some idx ->
  exists q1 tx q2, q = q1 ++ tx :: q2 /\ length q1 = idx /\ ntx_hash tx = txid.
Proof.
  revert idx. induction q as [|tx q IH]; intros idx; cbn [index_of]; [done|].
  destruct (decide (ntx_hash tx = txid)) as [E|E].
  - intros [= <-]. by exists [], tx, q.
  - destruct (index_of txid q) as [j|] eqn:Ej; [|done]. intros [= <-].
    destruct (IH j eq_refl) as (q1 & tx' & q2 & -> & <- & Hh). by exists (tx :: q1), tx', q2.
Qed.

Lemma index_of_None txid q : index_of txid q = None -> txid ∉ (ntx_hash <$> q).
Proof.
  induction q as [|tx q IH]; cbn [index_of fmap list_fmap]; [by intros _ ?%not_elem_of_nil|].
  destruct (decide (ntx_hash tx = txid)) as [E|E]; [done|].
  destruct (index_of txid q); [done|]. intros _. rewrite not_elem_of_cons. auto.
Qed.

Lemma Have_iff mp txid :
  mp_ok mp -> txns mp !! txid = None <-> txid ∉ (ntx_hash <$> txQ mp).
Proof.
  intros []. rewrite mp_txns0. split; [|apply lookup_entry_None].
  intros E (tx & -> & Hin)%list_elem_of_fmap. by rewrite lookup_entry in E.
Qed.

(** Dropping a transaction with a unique hash is a filter. *)
Lemma filter_hash q1 tx q2 :
  NoDup (ntx_hash <$> (q1 ++ tx :: q2)) ->
  filter (fun t => ntx_hash t <> ntx_hash tx) (q1 ++ tx :: q2) = q1 ++ q2.
Proof.
  rewrite fmap_app, fmap_cons. intros (H1 & H2 & [H3 H4]%list.NoDup_cons)%list.NoDup_app.
  rewrite list.filter_app, filter_cons_False by naive_solver. f_equal.
  - apply list_filter_all. apply list.Forall_forall. intros t Ht E.
    apply (H2 (ntx_hash t)); [apply list_elem_of_fmap; by exists t|].
    rewrite E. apply elem_of_cons. by left.
  - apply list_filter_all. apply list.Forall_forall. intros t Ht E.
    apply H3. rewrite <- E. apply list_elem_of_fmap. by exists t.
Qed.

Lemma remove_spec txid mp :
  mp_ok mp ->
  mp_ok (remove txid mp) /\
  txQ (remove txid mp) = filter (fun t => ntx_hash t <> txid) (txQ mp).
Proof.
  intros Hok. unfold remove. destruct (txns mp !! txid) as [s|] eqn:E.
  - destruct (index_of txid (txQ mp)) as [idx|] eqn:Ei.
    + apply index_of_Some in Ei as (q1 & tx & q2 & Eq & <- & <-).
      destruct (take_out mp q1 tx q2 (delete (ntx_hash tx) (fetching mp)) Hok Eq) as [E' Hok'].
      rewrite E in E'. injection E' as ->. rewrite Eq, delete_middle. split; [done|].
      cbn [txQ]. rewrite filter_hash; [done|]. rewrite <- Eq. apply Hok.
    + exfalso. apply index_of_None, Have_iff in Ei; [congruence|done].
  - split; [destruct Hok; by constructor|]. cbn [txQ]. symmetry. apply list_filter_all.
    apply list.Forall_forall. intros t Ht Et.
    apply (Have_iff mp txid Hok) in E. apply E. rewrite <- Et. apply list_elem_of_fmap. by exists t.
Qed.

Lemma Store_spec tx mp :
  mp_ok mp -> ntx_ok tx ->
  mp_ok (snd (Store tx mp)) /\
  (fst (Store tx mp) =
     if decide (ntx_hash tx ∈ (ntx_hash <$> txQ mp)) then Err ErrTxAlreadyExists
     else if decide (ntx_size tx > maxTxSize mp) then Err ErrTxTooLarge
     else if decide (currentSize mp + ntx_size tx > maxSize mp) then Err ErrMempoolFull
     else Ok tt) /\
  txQ (snd (Store tx mp)) =
    match fst (Store tx mp) with Ok _ => txQ mp ++ [tx] | Err _ => txQ mp end.
Proof.
  intros Hok Htx. pose proof (Have_iff mp (ntx_hash tx) Hok) as Hhave.
  pose proof Hok as [Hnd Hm Hsz Htxs Hlim Hmax]. unfold Store. cbn [txns currentSize maxSize maxTxSize].
  pose proof (total_size_nonneg _ Htxs). unfold ntx_ok in Htx.
  assert (is_sint 64 (currentSize mp + ntx_size tx)).
  { change (2 ^ 61) with 2305843009213693952 in *. change (2 ^ 62) with 4611686018427387904 in *. ints. }
  rewrite swrap_small by done.
  destruct (txns mp !! ntx_hash tx) as [s|] eqn:E.
  { rewrite decide_True; [by split_and!|].
    destruct (decide (ntx_hash tx ∈ ntx_hash <$> txQ mp)) as [|Hn]; [done|].
    apply Hhave in Hn. congruence. }
  rewrite decide_False by by apply Hhave. rewrite !Z.gtb_ltb.
  destruct (Z.ltb_spec (maxTxSize mp) (ntx_size tx)).
  { rewrite decide_True by lia. by split_and!. }
  rewrite decide_False by lia. destruct (Z.ltb_spec (maxSize mp) (currentSize mp + ntx_size tx)).
  { rewrite decide_True by lia. by split_and!. }
  rewrite decide_False by lia. cbn [snd fst txQ]. split_and!; [|done|done].
  assert ((ntx_hash <$> txQ mp ++ [tx]) ≡ₚ ntx_hash tx :: (ntx_hash <$> txQ mp)) as Hperm.
  { rewrite fmap_app. cbn. by rewrite Permutation_app_comm. }
  assert (NoDup (ntx_hash <$> txQ mp ++ [tx])) as Hnd'.
  { rewrite Hperm. apply list.NoDup_cons. split; [by apply Hhave|done]. }
  constructor; cbn [txns txQ currentSize maxSize]; try done; try lia.
  - rewrite Hm. symmetry. change (<[ntx_hash tx := mkSizedTx tx (ntx_size tx)]>
      (list_to_map (tx_entry <$> txQ mp) : gmap bytes sizedTx)) with
      (list_to_map (tx_entry <$> (tx :: txQ mp)) : gmap bytes sizedTx).
    apply list_to_map_proper; [by rewrite entry_keys|]. rewrite fmap_app. cbn.
    by rewrite Permutation_app_comm.
  - rewrite total_size_app, Hsz. unfold total_size at 3. cbn. lia.
  - apply Forall_app. split; [done|]. by constructor.
Qed.

Lemma reap_ok l mp rest :
  mp_ok (mkMempool (txns mp) (l ++ rest) (fetching mp) (currentSize mp) (maxSize mp) (maxTxSize mp)) ->
  txQ mp = rest ->
  mp_ok (foldl reap_tx mp l) /\ txQ (foldl reap_tx mp l) = rest.
Proof.
  revert mp. induction l as [|tx l IH]; intros mp Hok Hq; cbn [foldl].
  - cbn in Hok. rewrite <- Hq in Hok. by destruct mp.
  - destruct (take_out _ [] tx (l ++ rest) (fetching mp) Hok eq_refl) as [E Hok']. cbn [txns] in E.
    unfold reap_tx at 2 4. rewrite E. apply IH; [exact Hok'|done].
Qed.

Lemma ReapN_spec n mp :
  mp_ok mp ->
  fst (ReapN n mp) = take n (txQ mp) /\ mp_ok (snd (ReapN n mp)) /\
  txQ (snd (ReapN n mp)) = drop n (txQ mp).
Proof.
  intros Hok. unfold ReapN. cbn [fst snd].
  assert (take (Nat.min n (length (txQ mp))) (txQ mp) = take n (txQ mp)) as Et.
  { destruct (decide (n <= length (txQ mp))%nat); [by rewrite Nat.min_l|].
    rewrite Nat.min_r, firstn_all, take_ge by lia. done. }
  assert (drop (Nat.min n (length (txQ mp))) (txQ mp) = drop n (txQ mp)) as Ed.
  { destruct (decide (n <= length (txQ mp))%nat); [by rewrite Nat.min_l|].
    rewrite Nat.min_r, !drop_ge by lia. done. }
  rewrite Et, Ed. split; [done|]. apply reap_ok; [|done]. cbn. rewrite take_drop.
  by destruct mp.
Qed.

(** ** Peeking *)

Lemma peek_loop_spec lim p q :
  p <= lim \/ lim <= 0 ->
  exists rest, q = peek_loop lim p q ++ rest /\
    (0 < lim -> p + total_size (peek_loop lim p q) <= lim) /\
    (rest = [] \/ (0 < lim /\ exists tx rest', rest = tx :: rest' /\
       p + total_size (peek_loop lim p q) + ntx_size tx > lim)).
Proof.
  revert p. induction q as [|tx q IH]; intros p Hp; cbn [peek_loop].
  { exists []. split_and!; [done| |by left]. change (total_size []) with 0. lia. }
  destruct (Z.ltb_spec 0 lim) as [Hlim|Hlim].
  - rewrite Z.gtb_ltb. destruct (Z.ltb_spec lim (ntx_size tx + p)).
    + exists (tx :: q). change (total_size []) with 0. split_and!; [done|lia|].
      right. split; [done|]. exists tx, q. split; [done|lia].
    + destruct (IH (p + ntx_size tx) ltac:(lia)) as (rest & E & H1 & H2).
      exists rest. cbn [app]. rewrite <- E.
      change (total_size (tx :: ?l)) with (ntx_size tx + total_size l).
      split_and!; [done|lia|]. destruct H2 as [->|(_ & tx' & r & -> & H2)]; [by left|right].
      split; [done|]. exists tx', r. split; [done|lia].
  - destruct (IH p ltac:(lia)) as (rest & E & H1 & H2). exists rest. cbn [app]. rewrite <- E.
    split_and!; [done|lia|]. destruct H2 as [->|[? _]]; [by left|lia].
Qed.

Lemma size_txns mp : mp_ok mp -> size (txns mp) = length (txQ mp).
Proof.
  intros []. rewrite mp_txns0, map_size_list_to_map; [by rewrite length_fmap|].
  by rewrite entry_keys.
Qed.

(** ** Rechecking *)

Section recheck_proofs.
Context {S : Type} (fn : NodeTx -> action S unit).

(** The transactions to keep, checked in queue order. *)
Fixpoint recheck_ref (maxTx : Z) (q : list NodeTx) (s : S) : list NodeTx * S :=
  match q with
  | [] => ([], s)
  | tx :: q' =>
      if ntx_size tx >? maxTx then recheck_ref maxTx q' s
      else
        let '(r, s1) := fn tx s in
        let '(keep, s') := recheck_ref maxTx q' s1 in
        (if is_ok r then tx :: keep else keep, s')
  end.

Lemma recheck_remove_spec mp q1 tx q2 :
  mp_ok mp -> txQ mp = q1 ++ tx :: q2 ->
  mp_ok (recheck_remove mp (length q1, ntx_hash tx)) /\
  txQ (recheck_remove mp (length q1, ntx_hash tx)) = q1 ++ q2.
Proof.
  intros Hok E. destruct (take_out mp q1 tx q2 (fetching mp) Hok E) as [E' Hok'].
  unfold recheck_remove. cbn [fst snd]. rewrite E', E, delete_middle. done.
Qed.

(** Removing from the back, the indices of the scan stay valid. *)
Lemma recheck_loop mp0 pre suf s :
  mp_ok mp0 -> (forall tx, tx ∈ suf -> tx ∈ txQ mp0) ->
  forall mp, mp_ok mp -> txQ mp = pre ++ suf ->
  let '(toRemove, s') := recheck_scan fn mp0 (length pre) suf s in
  let mp' := foldr (fun itx m => recheck_remove m itx) mp toRemove in
  mp_ok mp' /\ (exists keep, txQ mp' = pre ++ keep /\
                 recheck_ref (maxTxSize mp0) suf s = (keep, s')).
Proof.
  intros Hok0. revert pre s. induction suf as [|tx suf IH]; intros pre s Hin mp Hok Hq;
    cbn [recheck_scan recheck_ref].
  { cbn. split; [done|]. by exists []. }
  assert (txns mp0 !! ntx_hash tx = Some (mkSizedTx tx (ntx_size tx))) as Hl.
  { destruct Hok0. rewrite mp_txns0. apply lookup_entry; [done|]. apply Hin, elem_of_cons. by left. }
  rewrite Hl. cbn [sz_size].
  assert (length (pre ++ [tx]) = Datatypes.S (length pre)) as Hlen
    by (rewrite length_app; cbn; lia).
  assert (forall s1, let '(l, s') := recheck_scan fn mp0 (Datatypes.S (length pre)) suf s1 in
    let mp1 := foldr (fun itx m => recheck_remove m itx) mp l in
    mp_ok mp1 /\ exists keep, txQ mp1 = pre ++ tx :: keep /\
      recheck_ref (maxTxSize mp0) suf s1 = (keep, s')) as IH'.
  { intros s1. rewrite <- Hlen. specialize (IH (pre ++ [tx]) s1).
    destruct (recheck_scan fn mp0 (length (pre ++ [tx])) suf s1) as [l s'].
    destruct (IH ltac:(intros t Ht; apply Hin, elem_of_cons; by right) mp Hok) as [H1 (keep & H2 & H3)];
      [by rewrite Hq, <- app_assoc|].
    split; [done|]. exists keep. rewrite H2, <- app_assoc. done. }
  destruct (ntx_size tx >? maxTxSize mp0).
  - specialize (IH' s). destruct (recheck_scan _ _ _ _ _) as [l s'].
    destruct IH' as [H1 (keep & H2 & ->)]. cbn [foldr].
    destruct (recheck_remove_spec _ pre tx keep H1 H2) as [H3 H4]. split; [done|].
    by exists keep.
  - destruct (fn tx s) as [r s1]. specialize (IH' s1).
    destruct (recheck_scan _ _ _ _ _) as [l s'].
    destruct IH' as [H1 (keep & H2 & ->)]. destruct (is_ok r); cbn [foldr].
    + split; [done|]. by exists (tx :: keep).
    + destruct (recheck_remove_spec _ pre tx keep H1 H2) as [H3 H4]. split; [done|].
      by exists keep.
Qed.

Lemma RecheckTxs_ok mp s :
  mp_ok mp ->
  mp_ok (fst (RecheckTxs fn mp s)) /\
  (txQ (fst (RecheckTxs fn mp s)), snd (RecheckTxs fn mp s)) =
    recheck_ref (maxTxSize mp) (txQ mp) s.
Proof.
  intros Hok. pose proof (recheck_loop mp [] (txQ mp) s Hok ltac:(done) mp Hok eq_refl) as H.
  unfold RecheckTxs. cbn [length] in H. destruct (recheck_scan fn mp 0 (txQ mp) s) as [l s'].
  rewrite foldl_rev. cbn in H |- *.
  destruct H as [H1 (keep & H2 & H3)]. split; [done|]. cbn in H2. by rewrite H2, H3.
Qed.
End recheck_proofs.

(** ** Reachable pools *)

Inductive mp_step : Mempool -> Mempool -> Prop :=
  | step_Store tx mp : ntx_ok tx -> mp_step mp (snd (Store tx mp))
  | step_Remove txid mp : mp_step mp (remove txid mp)
  | step_ReapN n mp : mp_step mp (snd (ReapN n mp))
  | step_RecheckTxs (S : Type) (fn : NodeTx -> action S unit) s mp :
      mp_step mp (fst (RecheckTxs fn mp s))
  | step_SetMaxSize n mp : n <= 2 ^ 62 -> mp_step mp (SetMaxSize n mp)
  | step_SetMaxTxSize n mp : mp_step mp (SetMaxTxSize n mp)
  | step_CapMaxTxSize n mp : mp_step mp (CapMaxTxSize n mp)
  | step_PreFetch txid mp : mp_step mp (snd (PreFetch txid mp))
  | step_fetch_done txid mp : mp_step mp (fetch_done txid mp).

Lemma New_ok sz txSz : sz <= 2 ^ 62 -> mp_ok (New sz txSz).
Proof. intros H. constructor; cbn; try done. constructor. Qed.

Lemma mp_step_ok mp mp' : mp_step mp mp' -> mp_ok mp -> mp_ok mp'.
Proof.
  intros Hs Hok. destruct Hs.
  - by apply Store_spec.
  - by apply remove_spec.
  - by apply ReapN_spec.
  - by apply RecheckTxs_ok.
  - destruct Hok. by constructor.
  - destruct Hok. by constructor.
  - destruct Hok. by constructor.
  - unfold PreFetch. destruct (txns mp !! txid); [done|].
    destruct (default false (fetching mp !! txid)); [done|]. destruct Hok. by constructor.
  - destruct Hok. by constructor.
Qed.

Lemma mp_reachable_ok mp mp' : rtc mp_step mp mp' -> mp_ok mp -> mp_ok mp'.
Proof. induction 1; eauto using mp_step_ok. Qed.

(** C40. In every pool reachable from an empty one of at most 2^62 bytes, whatever
    the sequence of operations: the queue holds each hash at most once, the map has exactly
    the queued transactions under their hashes, and the reported sizes are
    the sum of the transaction sizes and the length of the queue. *)
Theorem mempool_consistent sz txSz mp :
  sz <= 2 ^ 62 -> rtc mp_step (New sz txSz) mp ->
  NoDup (ntx_hash <$> txQ mp) /\
  (forall h tx, Get h mp = Some tx <-> tx ∈ txQ mp /\ ntx_hash tx = h) /\
  Size mp = (total_size (txQ mp), zlen (txQ mp)).
Proof.
  intros Hsz Hr. pose proof (mp_reachable_ok _ _ Hr (New_ok _ txSz Hsz)) as Hok.
  destruct Hok as [Hnd Hm Hs]. split_and!; [done| |unfold Size; by rewrite Hs].
  intros h tx. unfold Get. rewrite Hm. split.
  - destruct (_ !! h) as [s|] eqn:E; [|done]. intros [= <-].
    apply elem_of_list_to_map_2, list_elem_of_fmap in E as (t & [= -> ->] & Hin). done.
  - intros [Hin <-]. by rewrite lookup_entry.
Qed.

Definition sample_ntx (n : Z) : NodeTx := mkNodeTx sample_tx (le_bytes 2 n).

Lemma mempool_consistent_witness :
  let mp := remove (le_bytes 2 1) (snd (Store (sample_ntx 2) (snd (Store (sample_ntx 1) (New 1000 500))))) in
  Size mp = (total_size (txQ mp), zlen (txQ mp)).
Proof.
  intros mp. apply (mempool_consistent 1000 500 mp).
  - by vm_compute.
  - unfold mp. eapply rtc_l; [apply (step_Store (sample_ntx 1)); by vm_compute|].
    eapply rtc_l; [apply (step_Store (sample_ntx 2)); by vm_compute|].
    eapply rtc_l; [apply step_Remove|apply rtc_refl].
Defined.

(** [Store] refuses a known hash, a transaction above the size limit and
    one that would exceed the pool's limit, in that order and with their
    errors; otherwise it appends the transaction to the queue.  A pool within
    its limit stays within it. *)
Theorem mempool_Store tx mp :
  mp_ok mp -> ntx_ok tx ->
  fst (Store tx mp) =
    (if decide (ntx_hash tx ∈ (ntx_hash <$> txQ mp)) then Err ErrTxAlreadyExists
     else if decide (ntx_size tx > maxTxSize mp) then Err ErrTxTooLarge
     else if decide (currentSize mp + ntx_size tx > maxSize mp) then Err ErrMempoolFull
     else Ok tt) /\
  txQ (snd (Store tx mp)) =
    match fst (Store tx mp) with Ok _ => txQ mp ++ [tx] | Err _ => txQ mp end /\
  (currentSize mp <= maxSize mp ->
   currentSize (snd (Store tx mp)) <= maxSize (snd (Store tx mp))).
Proof.
  intros Hok Htx. destruct (Store_spec tx mp Hok Htx) as (Hok' & E & Hq). split_and!; [done..|].
  intros Hle. rewrite (mp_size _ Hok'), Hq, E.
  assert (maxSize (snd (Store tx mp)) = maxSize mp) as ->.
  { unfold Store. cbn. destruct (txns mp !! _); [done|]. destruct (_ >? _); [done|].
    by destruct (_ >? _). }
  pose proof (mp_size _ Hok) as Hs. repeat case_decide; rewrite ?total_size_app; try lia.
  unfold total_size at 2. cbn. lia.
Qed.

Lemma mempool_Store_witness :
  let mp := snd (Store (sample_ntx 1) (New 100 500)) in
  fst (Store (sample_ntx 1) mp) = Err ErrTxAlreadyExists /\
  fst (Store (sample_ntx 2) mp) = Err ErrMempoolFull.
Proof.
  intros mp.
  assert (mp_ok mp) as Hok by (apply mp_step_ok with (New 100 500);
    [apply step_Store; by vm_compute|apply New_ok; by vm_compute]).
  destruct (mempool_Store (sample_ntx 1) mp Hok ltac:(by vm_compute)) as (-> & _).
  destruct (mempool_Store (sample_ntx 2) mp Hok ltac:(by vm_compute)) as (-> & _).
  by vm_compute.
Defined.

(** [PeekN] returns the longest prefix of the queue of at most [n]
    transactions whose sizes sum to at most the limit (when there is one): it
    never fails, and it stops early only because the next transaction does
    not fit. *)
Theorem mempool_PeekN n lim mp :
  mp_ok mp -> 0 <= n ->
  exists l rest, PeekN n lim mp = Ok l /\ take (Z.to_nat n) (txQ mp) = l ++ rest /\
    (0 < lim -> total_size l <= lim) /\
    (rest = [] \/ (0 < lim /\ exists tx rest', rest = tx :: rest' /\
       total_size l + ntx_size tx > lim)).
Proof.
  intros Hok Hn. unfold PeekN. rewrite (size_txns mp Hok). fold (zlen (txQ mp)). zlens.
  rewrite (proj2 (Z.leb_le _ _)), (proj2 (Z.leb_le _ _)) by lia. cbn [andb].
  assert (take (Z.to_nat (Z.min n (zlen (txQ mp)))) (txQ mp) = take (Z.to_nat n) (txQ mp)) as ->.
  { destruct (Z.min_spec n (zlen (txQ mp))) as [[? ->]|[Hle ->]]; [done|].
    unfold zlen in *. rewrite !take_ge by lia. done. }
  destruct (peek_loop_spec lim 0 (take (Z.to_nat n) (txQ mp)) ltac:(lia)) as (rest & E & H1 & H2).
  eexists _, rest. split_and!; [reflexivity|exact E|done|exact H2].
Qed.

Lemma mempool_PeekN_witness :
  let mp := snd (Store (sample_ntx 2) (snd (Store (sample_ntx 1) (New 1000 500)))) in
  exists l, PeekN 5 100 mp = Ok l /\ total_size l <= 100.
Proof.
  intros mp.
  assert (mp_ok mp) as Hok.
  { apply (mp_reachable_ok (New 1000 500)); [|apply New_ok; by vm_compute].
    eapply rtc_l; [apply (step_Store (sample_ntx 1)); by vm_compute|].
    eapply rtc_l; [apply (step_Store (sample_ntx 2)); by vm_compute|apply rtc_refl]. }
  destruct (mempool_PeekN 5 100 mp Hok ltac:(lia)) as (l & rest & E & _ & H & _).
  exists l. split; [exact E|]. apply H. lia.
Defined.

(** [RecheckTxs] runs the check on the queued transactions in order,
    skipping those above the current size limit, and keeps exactly the ones
    that pass, in order; the pool stays consistent. *)
Theorem mempool_RecheckTxs {S} (fn : NodeTx -> action S unit) mp s :
  mp_ok mp ->
  mp_ok (fst (RecheckTxs fn mp s)) /\
  (txQ (fst (RecheckTxs fn mp s)), snd (RecheckTxs fn mp s)) =
    recheck_ref fn (maxTxSize mp) (txQ mp) s.
Proof. apply RecheckTxs_ok. Qed.

(** A check that lets every other transaction pass. *)
Definition alternate (_ : NodeTx) : action bool unit :=
  fun b => (if b then Ok tt else Err (ErrMsg "odd"), negb b).

Lemma mempool_RecheckTxs_witness :
  let mp := snd (Store (sample_ntx 3) (snd (Store (sample_ntx 2) (snd (Store (sample_ntx 1) (New 1000 500)))))) in
  ntx_hash <$> txQ (fst (RecheckTxs alternate mp true)) = [le_bytes 2 1; le_bytes 2 3].
Proof.
  intros mp.
  assert (mp_ok mp) as Hok.
  { apply (mp_reachable_ok (New 1000 500)); [|apply New_ok; by vm_compute].
    eapply rtc_l; [apply (step_Store (sample_ntx 1)); by vm_compute|].
    eapply rtc_l; [apply (step_Store (sample_ntx 2)); by vm_compute|].
    eapply rtc_l; [apply (step_Store (sample_ntx 3)); by vm_compute|apply rtc_refl]. }
  destruct (mempool_RecheckTxs alternate mp true Hok) as [_ E].
  apply (f_equal fst) in E. cbn [fst] in E. rewrite E. by vm_compute.
Defined.
