(* ===== verification/Voting.v ===== *)
(** * The vote store

    src/node/voting/voting.go and validators.go over the tables of
    src/node/voting/sql.go: voters, resolution types, resolutions, votes and
    processed identifiers, with their primary keys, foreign keys and cascades;
    the in-memory validator set with the updates of the current block; and the
    voting power a resolution needs.  [uuid] is the version 5 UUID of the
    source's [NewUUIDV5], a parameter. *)

From S2P Require Import Prelude.
From S2P Require Import Wire.
From S2P Require Import Keys.
From S2P Require Import Ident.
From S2P Require Import Order.
From Stdlib Require Import Strings.Byte.

#[local] Open Scope Z_scope.

(** ** Powers and thresholds *)

(** A [big.Rat] in lowest terms. *)
Record Rat := mkRat { Num : Z; Denom : Z }.

(** [big.Int.Div] is Euclidean division, which is [Z.div] for a positive
    divisor; a zero divisor panics. *)
Definition intDivUpFraction (val numerator divisor : Z) : Z :=
  let tempNumerator := numerator * val + (divisor - 1) in
  i64 (tempNumerator / divisor).

Definition RequiredPower (threshold : Rat) (totalPower : Z) : Z :=
  let numerator := i64 (Num threshold) in
  let denominator := i64 (Denom threshold) in
  intDivUpFraction totalPower numerator denominator.

Section voting.
Context (reg : registry).
(** [types.NewUUIDV5]. *)
Context (uuid : bytes -> bytes).

(** ** Encoded voters *)

Definition encodePubKey (pubKey : slice) (keyType : KeyType) : result bytes :=
  b ← WireEncodeKeyType reg keyType; mret (b ++ slice_bytes pubKey).

Definition DecodePubKey (b : bytes) : result (bytes * KeyType) :=
  '(keyType, b) ← WireDecodeKeyType reg b; mret (b, keyType).

(** ** Tables *)

Record voter_row := mkVoter { vr_name : bytes; vr_power : Z }.

Record resolution_row := mkResRow {
  rr_body : slice;
  rr_type : bytes;
  rr_expiration : Z;
  rr_proposer : bytes
}.

Record tables := mkTables {
  voters : gmap (list byte) voter_row;
  resolution_types : gmap (list byte) (list byte);
  resolutions : gmap (list byte) resolution_row;
  votes : gset (list byte * list byte);
  processed : gset (list byte)
}.

Definition set_voters t x := mkTables x (resolution_types t) (resolutions t) (votes t) (processed t).
Definition set_resolutions t x := mkTables (voters t) (resolution_types t) x (votes t) (processed t).
Definition set_votes t x := mkTables (voters t) (resolution_types t) (resolutions t) x (processed t).
Definition set_processed t x := mkTables (voters t) (resolution_types t) (resolutions t) (votes t) x.

(** [addVote]: foreign keys, and nothing on conflict. *)
Definition sql_addVote (t : tables) (resolutionID voterID : bytes) : result tables :=
  if decide ((resolutionID, voterID) ∈ votes t) then Ok t
  else match resolutions t !! resolutionID, voters t !! voterID with
  | Some _, Some _ => Ok (set_votes t ({[(resolutionID, voterID)]} ∪ votes t))
  | _, _ => Err (ErrMsg "insert or update on table votes violates foreign key constraint")
  end.

(** [SELECT id FROM resolution_types WHERE name = ty]; names are unique. *)
Definition type_id (t : tables) (ty : bytes) : option bytes :=
  fst <$> List.find (fun kn => bool_decide (kn.2 = ty)) (map_to_list (resolution_types t)).

(** The function [insert_resolution]. *)
Definition sql_insertResolution (t : tables) (id : bytes) (body : slice) (ty : bytes)
    (expiration : Z) (proposer : bytes) : result tables :=
  if decide (id ∈ processed t) then Err (ErrMsg "Resolution has already been processed")
  else match type_id t ty with
  | None => Err (ErrMsg "null value in column type")
  | Some tyID =>
      match resolutions t !! id with
      | Some _ => Err (ErrMsg "duplicate key value violates unique constraint")
      | None => Ok (set_resolutions t
                      (<[id := mkResRow body tyID expiration proposer]> (resolutions t)))
      end
  end.

(** [DELETE FROM resolutions WHERE id = ANY(ids)]; votes cascade. *)
Definition sql_deleteResolutions (t : tables) (ids : list bytes) : tables :=
  set_votes
    (set_resolutions t (filter (fun kr => kr.1 ∉ ids) (resolutions t)))
    (filter (fun v => v.1 ∉ ids) (votes t)).

Definition sql_deleteResolutionsByType (t : tables) (tys : list bytes) : tables :=
  sql_deleteResolutions t
    (map fst (filter (fun kr : bytes * resolution_row => rr_type kr.2 ∈ tys)
                (map_to_list (resolutions t)))).

(** [removeVoter]; votes cascade. *)
Definition sql_removeVoter (t : tables) (id : bytes) : tables :=
  set_votes (set_voters t (delete id (voters t))) (filter (fun v => v.2 <> id) (votes t)).

(** [upsertVoter]: conflicts on the identifier update the power; the name is
    unique and the power positive. *)
Definition sql_upsertVoter (t : tables) (id name : bytes) (power : Z) : result tables :=
  if power <=? 0 then Err (ErrMsg "violates check constraint on power")
  else match voters t !! id with
  | Some r => Ok (set_voters t (<[id := mkVoter (vr_name r) power]> (voters t)))
  | None =>
      if existsb (fun kr => bool_decide (vr_name kr.2 = name)) (map_to_list (voters t))
      then Err (ErrMsg "duplicate key value violates unique constraint on name")
      else Ok (set_voters t (<[id := mkVoter name power]> (voters t)))
  end.

(** [markManyProcessed]: the primary key refuses a repeated identifier. *)
Fixpoint sql_markProcessed (t : tables) (ids : list bytes) : result tables :=
  match ids with
  | [] => Ok t
  | id :: ids' =>
      if decide (id ∈ processed t) then Err (ErrMsg "duplicate key value violates unique constraint")
      else sql_markProcessed (set_processed t ({[id]} ∪ processed t)) ids'
  end.

(** ** Resolutions *)

(** [tx := db.BeginTx(); defer tx.Rollback(); ...; tx.Commit()] around one
    statement: the tables are unchanged when it fails. *)
Definition ApproveResolution (t : tables) (resolutionID : bytes) (approverPubKey : slice)
    (approverKeyType : KeyType) : result tables :=
  serializedPubKey ← encodePubKey approverPubKey approverKeyType;
  sql_addVote t resolutionID (uuid serializedPubKey).

Definition CreateResolution (t : tables) (event : VotableEvent) (expiration : Z)
    (voteBodyProposer : slice) (proposerKeyType : KeyType) : result tables :=
  proposerBts ← encodePubKey voteBodyProposer proposerKeyType;
  let id := VotableEventID uuid (ev_Type event) (ev_Body event) in
  sql_insertResolution t id (ev_Body event) (ev_Type event) expiration proposerBts.

Definition DeleteResolution (t : tables) (id : bytes) : tables := sql_deleteResolutions t [id].

Definition DeleteResolutions (t : tables) (ids : list bytes) : tables :=
  match ids with [] => t | _ => sql_deleteResolutions t ids end.

Definition MarkProcessed (t : tables) (ids : list bytes) : result tables :=
  match ids with [] => Ok t | _ => sql_markProcessed t ids end.

Definition IsProcessed (t : tables) (resolutionID : bytes) : bool :=
  bool_decide (resolutionID ∈ processed t).

Definition FilterNotProcessed (t : tables) (ids : list bytes) : list bytes :=
  filter (fun id => id ∉ processed t) ids.

Definition DeleteResolutionsByType (t : tables) (resTypes : list bytes) : tables :=
  sql_deleteResolutionsByType t (map uuid resTypes).

Definition ResolutionExists (t : tables) (id : bytes) : bool :=
  match resolutions t !! id with Some _ => true | None => false end.

(** ** Queries *)

(** A row of voters as a validator ([getValidator] and [getValidators]). *)
Definition voter_validator (r : voter_row) : result Validator :=
  '(pubkey, keyType) ← wrap_err "failed to decode pubKey from voter" (DecodePubKey (vr_name r));
  mret (mkValidator (mkAccountID (Some pubkey) keyType) (vr_power r)).

(** The function [getValidator]. *)
Definition sql_getValidator (t : tables) (pubKey : slice) (keyType : KeyType)
  : result (option Validator) :=
  pubkeyBts ← encodePubKey pubKey keyType;
  match voters t !! uuid pubkeyBts with
  | None => mret None
  | Some r =>
      if negb (bool_decide (vr_name r = pubkeyBts))
      then Err (ErrMsg "query returned a different voter")
      else v ← voter_validator r; mret (Some v)
  end.

Fixpoint mapR {A B} (f : A -> result B) (l : list A) : result (list B) :=
  match l with
  | [] => Ok []
  | a :: l' => b ← f a; bs ← mapR f l'; mret (b :: bs)
  end.

(** The function [getValidators] on the rows of the voters table, in the order
    in which the database returns them. *)
Definition sql_getValidators (rows : list voter_row) : result (list Validator) :=
  mapR voter_validator rows.

Record Resolution := mkResolution {
  res_ID : bytes;
  res_Body : slice;
  res_Type : bytes;
  res_Expiration : Z;
  res_ApprovedPower : Z;
  res_Voters : list Validator;
  res_Proposer : Validator
}.

(** Identifiers of the voters of a resolution, [ORDER BY vr.id]. *)
Definition voter_ids (t : tables) (id : bytes) : list bytes :=
  sorted_ids (set_map snd (filter (fun v => v.1 = id /\ is_Some (voters t !! v.2)) (votes t))).

Definition voter_rows (t : tables) (id : bytes) : list voter_row :=
  omap (fun vid => voters t !! vid) (voter_ids t id).

(** [SUM(vr.power)], which is NULL without voters. *)
Definition approved_power (t : tables) (id : bytes) : option Z :=
  match voter_rows t id with
  | [] => None
  | rows => Some (sum_list_Z (map vr_power rows))
  end.

(** The joined row of a resolution and its conversion by [fromRow]. *)
Definition fromRow (t : tables) (id : bytes) (r : resolution_row) (tyName : bytes)
  : result Resolution :=
  '(pubKey, keyType) ← wrap_err "failed to decode pubKey from voteBodyProposer"
                         (DecodePubKey (rr_proposer r));
  proposer ← wrap_err "failed to get proposer validator"
               (sql_getValidator t (Some pubKey) keyType);
  vs ← mapR (fun v => '(pk, kt) ← wrap_err "failed to decode pubKey from voter" (DecodePubKey (vr_name v));
                      mret (mkValidator (mkAccountID (Some pk) kt) (vr_power v)))
         (voter_rows t id);
  mret (mkResolution id (rr_body r) tyName (rr_expiration r)
          (default 0 (approved_power t id)) vs
          (mkValidator (mkAccountID (Some pubKey) keyType)
             (match proposer with Some v => Power v | None => 0 end))).

(** Identifiers of the resolutions whose type exists and that satisfy [P], in
    order. *)
Definition selected (t : tables) (P : bytes -> resolution_row -> bytes -> bool)
    (kr : bytes * resolution_row) : bool :=
  match resolution_types t !! rr_type kr.2 with
  | Some name => P kr.1 kr.2 name
  | None => false
  end.

Definition select_resolutions (t : tables) (P : bytes -> resolution_row -> bytes -> bool)
  : list bytes :=
  sorted_ids (dom (filter (fun kr => selected t P kr = true) (resolutions t))).

Definition full_info (t : tables) (id : bytes) : result Resolution :=
  match resolutions t !! id with
  | None => Err (ErrMsg "expected 1 row")
  | Some r =>
      match resolution_types t !! rr_type r with
      | None => Err (ErrMsg "expected 1 row")
      | Some name => fromRow t id r name
      end
  end.

(** [GetResolutionInfo], [GetExpired], [GetResolutionsByType]. *)
Definition GetResolutionInfo (t : tables) (id : bytes) : result Resolution := full_info t id.

Definition GetExpired (t : tables) (currentTime : Z) : result (list Resolution) :=
  wrap_err "internal bug"
    (mapR (full_info t) (select_resolutions t (fun _ r _ => rr_expiration r <=? currentTime))).

Definition GetResolutionsByType (t : tables) (resType : bytes) : result (list Resolution) :=
  wrap_err "internal bug"
    (mapR (full_info t) (select_resolutions t (fun _ _ name => bool_decide (name = resType)))).

(** [HAVING SUM(vr.power) >= $2]: a NULL sum is not selected. *)
Definition power_reached (t : tables) (thresholdPower : Z) (id : bytes) : bool :=
  match approved_power t id with
  | Some p => thresholdPower <=? p
  | None => false
  end.

Definition GetResolutionsByThresholdAndType (t : tables) (threshold : Rat) (resType : bytes)
    (totalPower : Z) : result (list Resolution) :=
  let thresholdPower := RequiredPower threshold totalPower in
  wrap_err "fromRow"
    (mapR (full_info t)
       (select_resolutions t (fun id _ name =>
          bool_decide (name = resType) && power_reached t thresholdPower id))).

Definition GetResolutionIDsByTypeAndProposer (t : tables) (resType : bytes) (proposer : slice)
    (proposerKeyType : KeyType) : result (list bytes) :=
  serializedProposer ← encodePubKey proposer proposerKeyType;
  mret (select_resolutions t (fun _ r name =>
          bool_decide (name = resType) && bool_decide (rr_proposer r = serializedProposer))).

(** ** The validator set *)

Record VoteStore := mkVoteStore {
  validatorSet : list Validator;
  valUpdates : gmap (list byte) Validator
}.

(** [bytes.Equal(v.Identifier, pubKey) && v.KeyType == keyType] *)
Definition same_validator (pubKey : slice) (keyType : KeyType) (v : Validator) : bool :=
  bool_decide (slice_bytes (Identifier (val_ID v)) = slice_bytes pubKey) &&
  bool_decide (acct_KeyType (val_ID v) = keyType).

Definition same_as (val v : Validator) : bool :=
  same_validator (Identifier (val_ID val)) (acct_KeyType (val_ID val)) v.

Fixpoint addOrUpdateValidator (val : Validator) (set : list Validator) : list Validator :=
  match set with
  | [] => [val]
  | v :: set' => if same_as val v then val :: set' else v :: addOrUpdateValidator val set'
  end.

Definition removeValidator (val : Validator) (set : list Validator) : list Validator :=
  List.filter (fun v => negb (same_as val v)) set.

(** The method [getValidator]. *)
Definition getValidator (vs : VoteStore) (pubKey : slice) (keyType : KeyType) : option Validator :=
  List.find (same_validator pubKey keyType) (validatorSet vs).

Definition SetValidatorPower (pubKey : slice) (pubKeyType : KeyType) (power : Z)
  : action (VoteStore * tables) unit := fun st =>
  let '(vs, t) := st in
  if power <? 0 then (Err (ErrMsg "cannot set a negative power"), st)
  else match encodePubKey pubKey pubKeyType with
  | Err e => (Err e, st)
  | Ok pubkeyBts =>
      let id := uuid pubkeyBts in
      match (if power =? 0 then Ok (sql_removeVoter t id) else sql_upsertVoter t id pubkeyBts power) with
      | Err e => (Err e, st)
      | Ok t' =>
          (Ok tt,
           (mkVoteStore (validatorSet vs)
              (<[pubkeyBts := mkValidator (mkAccountID pubKey pubKeyType) power]> (valUpdates vs)),
            t'))
      end
  end.

Definition GetValidatorPower (vs : VoteStore) (pubKey : slice) (keyType : KeyType) : Z :=
  match getValidator vs pubKey keyType with
  | Some val => Power val
  | None => 0
  end.

Definition GetValidators (vs : VoteStore) : list Validator := validatorSet vs.

Definition LoadValidatorSet (rows : list voter_row) (vs : VoteStore) : result VoteStore :=
  vals ← sql_getValidators rows;
  mret (mkVoteStore vals (valUpdates vs)).

Definition apply_update (set : list Validator) (val : Validator) : list Validator :=
  if Power val =? 0 then removeValidator val set else addOrUpdateValidator val set.

(** [Commit] ranges over the map of updates: [order] lists it in any order. *)
Definition Commit (order : list (bytes * Validator)) (vs : VoteStore) : VoteStore :=
  mkVoteStore (foldl apply_update (validatorSet vs) order.*2) ∅.

Definition ValidatorUpdates (vs : VoteStore) : gmap (list byte) Validator := valUpdates vs.

Definition Rollback (vs : VoteStore) : VoteStore := mkVoteStore (validatorSet vs) ∅.
End voting.

(** ** Required power *)

Lemma ceil_div n d : 0 < d -> n <= ((n + (d - 1)) / d) * d < n + d.
Proof. intros Hd. Z.div_mod_to_equations. nia. Qed.

Lemma RequiredPower_spec th total :
  0 <= Num th <= Denom th -> 0 < Denom th < 2 ^ 63 -> 0 <= total < 2 ^ 63 ->
  0 <= RequiredPower th total <= total /\
  forall p, RequiredPower th total <= p <-> Num th * total <= p * Denom th.
Proof.
  intros Hn Hd Ht. unfold RequiredPower, intDivUpFraction.
  rewrite (swrap_small 64 (Num th)), (swrap_small 64 (Denom th)) by (lia || ints).
  destruct (ceil_div (Num th * total) (Denom th) ltac:(lia)) as [H1 H2].
  set (q := (Num th * total + (Denom th - 1)) / Denom th) in *.
  assert (0 <= q <= total) as Hq by nia.
  rewrite swrap_small by (lia || ints). split; [done|]. intros p. nia.
Qed.

(** [RequiredPower] is the ceiling of the threshold fraction of the total
    power: the least power whose share reaches the threshold; for a threshold
    between 0 and 1 it is between 0 and the total power, without overflow. *)
Theorem RequiredPower_ceiling th total :
  0 <= Num th <= Denom th -> 0 < Denom th < 2 ^ 63 -> 0 <= total < 2 ^ 63 ->
  0 <= RequiredPower th total <= total /\
  forall p, RequiredPower th total <= p <-> Num th * total <= p * Denom th.
Proof. apply RequiredPower_spec. Qed.

Lemma RequiredPower_ceiling_witness :
  0 <= RequiredPower (mkRat 2 3) 10 <= 10 /\ RequiredPower (mkRat 2 3) 10 = 7.
Proof.
  split; [|by vm_compute].
  apply (RequiredPower_ceiling (mkRat 2 3) 10); cbn; lia.
Defined.

(** ** The validator set and the voters table *)

Section sync.
Context (reg : registry) (Hreg : reg_ok reg).
Context (uuid : bytes -> bytes) `{Huuid : !Inj (=) (=) uuid}.

(** The encoded name of a validator with a registered key type. *)
Definition val_name (v : Validator) : bytes :=
  match encodePubKey reg (Identifier (val_ID v)) (acct_KeyType (val_ID v)) with
  | Ok n => n
  | Err _ => []
  end.

Definition registered (kt : KeyType) : Prop := is_Some (keyTypes reg !! kt).

Lemma encodePubKey_registered pk kt :
  registered kt -> exists kd, keyTypes reg !! kt = Some kd /\
    encodePubKey reg pk kt = Ok (le_bytes 4 (kd_EncodeFlag kd) ++ slice_bytes pk).
Proof.
  intros [kd E]. exists kd. split; [done|]. unfold encodePubKey, WireEncodeKeyType. by rewrite E.
Qed.

(** Two keys with one encoding are the same key. *)
Lemma encodePubKey_inj pk pk' kt kt' n n' :
  encodePubKey reg pk kt = Ok n -> encodePubKey reg pk' kt' = Ok n' ->
  n = n' <-> slice_bytes pk = slice_bytes pk' /\ kt = kt'.
Proof.
  unfold encodePubKey, WireEncodeKeyType.
  destruct (keyTypes reg !! kt) as [kd|] eqn:E; [|done].
  destruct (keyTypes reg !! kt') as [kd'|] eqn:E'; [|done].
  intros <-%(inj Ok) <-%(inj Ok). split.
  - intros [Ef Ep]%app_inj_1; [|by rewrite !length_le_bytes]. split; [done|].
    apply (f_equal le_value) in Ef. rewrite !le_value_bytes in Ef.
    destruct (proj1 Hreg _ _ E) as (_ & Hu & _), (proj1 Hreg _ _ E') as (_ & Hu' & _).
    rewrite !Z.mod_small in Ef by (apply Hu || apply Hu'). by eapply flag_inj.
  - intros [-> ->]. congruence.
Qed.

Lemma encodePubKey_DecodePubKey pk kt n :
  encodePubKey reg pk kt = Ok n -> DecodePubKey reg n = Ok (slice_bytes pk, kt).
Proof.
  unfold encodePubKey, WireEncodeKeyType. destruct (keyTypes reg !! kt) as [kd|] eqn:E; [|done].
  intros <-%(inj Ok). unfold DecodePubKey. by rewrite (WireDecodeKeyType_app reg Hreg kt kd).
Qed.

Definition val_ok (v : Validator) : Prop := registered (acct_KeyType (val_ID v)).

Lemma val_name_encode v :
  val_ok v -> encodePubKey reg (Identifier (val_ID v)) (acct_KeyType (val_ID v)) = Ok (val_name v).
Proof.
  intros (kd & _ & E)%(encodePubKey_registered (Identifier (val_ID v))).
  unfold val_name. by rewrite E.
Qed.

Lemma same_validator_name pk kt n v :
  val_ok v -> encodePubKey reg pk kt = Ok n -> same_validator pk kt v = bool_decide (val_name v = n).
Proof.
  intros Hv En. pose proof (encodePubKey_inj _ _ _ _ _ _ (val_name_encode v Hv) En) as Hinj.
  unfold same_validator. apply eq_bool_prop_intro.
  rewrite andb_True, !bool_decide_spec. tauto.
Qed.

Lemma same_as_name val v :
  val_ok val -> val_ok v -> same_as val v = bool_decide (val_name v = val_name val).
Proof. intros Hval Hv. by apply same_validator_name, val_name_encode. Qed.

(** The powers of a validator list by name. *)
Definition val_entry (v : Validator) : bytes * Z := (val_name v, Power v).

Definition powers_of (set : list Validator) : gmap (list byte) Z := list_to_map (val_entry <$> set).

Definition set_ok (set : list Validator) : Prop :=
  NoDup (val_name <$> set) /\ Forall val_ok set.

Lemma entry_names set : (val_entry <$> set).*1 = val_name <$> set.
Proof. by rewrite <- list_fmap_compose. Qed.

Lemma addOrUpdate_names val set :
  val_ok val -> Forall val_ok set ->
  val_name <$> addOrUpdateValidator val set =
    if decide (val_name val ∈ (val_name <$> set)) then val_name <$> set
    else (val_name <$> set) ++ [val_name val].
Proof.
  intros Hval. induction 1 as [|v set Hv Hset IH]; [done|].
  cbn [addOrUpdateValidator]. rewrite same_as_name by done. case_bool_decide as E.
  - rewrite decide_True; [cbn; by rewrite E|]. cbn. rewrite E. apply elem_of_cons. by left.
  - cbn [fmap list_fmap]. rewrite IH.
    destruct (decide (val_name val ∈ val_name <$> set)) as [H1|H1],
      (decide (val_name val ∈ val_name v :: (val_name <$> set))) as [H2|H2]; try done.
    + exfalso. apply H2, elem_of_cons. by right.
    + exfalso. apply elem_of_cons in H2 as [?|?]; congruence.
Qed.

Lemma addOrUpdate_spec val set :
  val_ok val -> set_ok set ->
  set_ok (addOrUpdateValidator val set) /\
  powers_of (addOrUpdateValidator val set) = <[val_name val := Power val]> (powers_of set).
Proof.
  intros Hval [Hnd Hok]. split.
  - split.
    + rewrite addOrUpdate_names by done. case_decide as Hd; [done|].
      rewrite Permutation_app_comm. cbn. by apply list.NoDup_cons.
    + induction Hok as [|v set Hv Hset IH]; [by repeat constructor|].
      cbn [addOrUpdateValidator]. apply list.NoDup_cons in Hnd as [_ Hnd].
      destruct (same_as val v); constructor; auto.
  - induction Hok as [|v set Hv Hset IH]; [done|].
    apply list.NoDup_cons in Hnd as [Hnin Hnd]. cbn [addOrUpdateValidator].
    rewrite same_as_name by done. case_bool_decide as E; unfold powers_of in *; cbn.
    + by rewrite E, insert_insert_eq.
    + rewrite IH by done. by rewrite insert_insert_ne by done.
Qed.

Lemma removeValidator_spec val set :
  val_ok val -> set_ok set ->
  set_ok (removeValidator val set) /\
  powers_of (removeValidator val set) = delete (val_name val) (powers_of set).
Proof.
  intros Hval [Hnd Hok]. unfold removeValidator.
  revert Hnd. induction Hok as [|v set Hv Hset IH]; intros Hnd.
  { split; [split; constructor|]. cbn. unfold powers_of. cbn. by rewrite delete_empty. }
  apply list.NoDup_cons in Hnd as [Hnin Hnd].
  assert (forall n, n ∈ (val_name <$> List.filter (fun v => negb (same_as val v)) set) ->
            n ∈ (val_name <$> set)) as Hsub.
  { intros n (w & -> & Hin)%list_elem_of_fmap. apply list_elem_of_fmap. exists w. split; [done|].
    apply list_elem_of_In in Hin. apply filter_In in Hin as [Hin _]. by apply list_elem_of_In. }
  destruct (IH Hnd) as [[IH1 IH2] IH3]. cbn [List.filter].
  rewrite same_as_name by done. case_bool_decide as E; cbn [negb].
  - split; [by split|]. rewrite IH3. unfold powers_of. cbn. by rewrite E, delete_insert_eq.
  - split; [split; [|by constructor]|].
    + cbn. apply list.NoDup_cons. split; [|done]. intros Hin. by apply Hnin, Hsub.
    + unfold powers_of in *. cbn. rewrite IH3, delete_insert_ne by done. done.
Qed.

Definition update_power (P : gmap (list byte) Z) (val : Validator) : gmap (list byte) Z :=
  if Power val =? 0 then delete (val_name val) P else <[val_name val := Power val]> P.

Lemma apply_update_spec val set :
  val_ok val -> set_ok set ->
  set_ok (apply_update set val) /\
  powers_of (apply_update set val) = update_power (powers_of set) val.
Proof.
  intros Hval Hset. unfold apply_update, update_power.
  destruct (Power val =? 0); [by apply removeValidator_spec|by apply addOrUpdate_spec].
Qed.

(** The effect of a list of updates with distinct names on the powers. *)
Definition updated (vals : list Validator) (P : gmap (list byte) Z) (n : bytes) : option Z :=
  match List.find (fun v => bool_decide (val_name v = n)) vals with
  | Some v => if Power v =? 0 then None else Some (Power v)
  | None => P !! n
  end.

Lemma apply_updates_spec vals set :
  Forall val_ok vals -> NoDup (val_name <$> vals) -> set_ok set ->
  set_ok (foldl apply_update set vals) /\
  forall n, powers_of (foldl apply_update set vals) !! n = updated vals (powers_of set) n.
Proof.
  intros Hvals. revert set. induction Hvals as [|v vals Hv Hvals IH]; intros set Hnd Hset; [done|].
  apply list.NoDup_cons in Hnd as [Hnin Hnd]. cbn [foldl].
  destruct (apply_update_spec v set Hv Hset) as [Hset' Hp].
  destruct (IH _ Hnd Hset') as [H1 H2]. split; [done|]. intros n. rewrite H2, Hp.
  unfold updated. cbn [List.find]. case_bool_decide as E.
  - destruct (List.find _ vals) as [w|] eqn:Ef.
    + exfalso. apply find_some in Ef as [Hin Hw%bool_decide_eq_true]. apply Hnin.
      apply list_elem_of_fmap. exists w. split; [congruence|]. by apply list_elem_of_In.
    + unfold update_power. rewrite <- E. destruct (Power v =? 0);
        [apply lookup_delete_eq|apply lookup_insert_eq].
  - destruct (List.find _ vals); [done|]. unfold update_power.
    destruct (Power v =? 0); [by rewrite lookup_delete_ne|by rewrite lookup_insert_ne].
Qed.

(** The cached set holds the committed powers [P0], the voters table the
    current powers [P], and the updates the difference. *)
Record in_sync (vs : VoteStore) (t : tables) (P P0 : gmap (list byte) Z) : Prop := mkInSync {
  is_set : set_ok (validatorSet vs);
  is_powers : powers_of (validatorSet vs) = P0;
  is_updates : forall n v, valUpdates vs !! n = Some v -> val_ok v /\ val_name v = n;
  is_current : forall n, P !! n =
    match valUpdates vs !! n with
    | Some v => if Power v =? 0 then None else Some (Power v)
    | None => P0 !! n
    end;
  is_voters : forall n, voters t !! uuid n = mkVoter n <$> P !! n;
  is_ids : forall id r, voters t !! id = Some r -> exists n, id = uuid n
}.

Lemma SetValidatorPower_sync vs t P P0 pk kt power :
  in_sync vs t P P0 -> registered kt -> 0 <= power ->
  exists n vs' t', encodePubKey reg pk kt = Ok n /\
    SetValidatorPower reg uuid pk kt power (vs, t) = (Ok tt, (vs', t')) /\
    in_sync vs' t' (if power =? 0 then delete n P else <[n := power]> P) P0.
Proof.
  intros [Hset Hp Hu Hc Hv Hid] Hkt Hpow.
  destruct (encodePubKey_registered pk kt Hkt) as (kd & Ekd & En).
  set (n := le_bytes 4 (kd_EncodeFlag kd) ++ slice_bytes pk) in *. clearbody n.
  set (v := mkValidator (mkAccountID pk kt) power).
  assert (val_ok v /\ val_name v = n) as Hv0.
  { split; [exact Hkt|]. unfold val_name. cbn. by rewrite En. }
  assert (forall m w, <[n := v]> (valUpdates vs) !! m = Some w -> val_ok w /\ val_name w = m) as Hu'.
  { intros m w. rewrite lookup_insert_Some. intros [[<- <-]|[_ ?]]; eauto. }
  exists n. unfold SetValidatorPower. rewrite (proj2 (Z.ltb_ge power 0)), En by lia.
  destruct (Z.eqb_spec power 0) as [Hz|Hz].
  - do 2 eexists. split_and!; [done|reflexivity|]. constructor; cbn; try done.
    + intros m. destruct (decide (n = m)) as [<-|Hne].
      * by rewrite lookup_delete_eq, lookup_insert_eq, Hz.
      * by rewrite lookup_delete_ne, lookup_insert_ne by done.
    + intros m. destruct (decide (n = m)) as [<-|Hne]; [by rewrite !lookup_delete_eq|].
      rewrite !lookup_delete_ne; [apply Hv|done|]. by intros ?%(inj uuid).
    + intros id r. rewrite lookup_delete_Some. intros [_ E]. eauto.
  - unfold sql_upsertVoter. rewrite (proj2 (Z.leb_gt power 0)), Hv by lia.
    assert (forall t', (forall m, voters t' !! uuid m = mkVoter m <$> <[n := power]> P !! m) ->
      (forall id r, voters t' !! id = Some r -> exists m, id = uuid m) ->
      in_sync (mkVoteStore (validatorSet vs) (<[n := v]> (valUpdates vs))) t'
        (<[n := power]> P) P0) as Hgoal.
    { intros t' H1 H2. constructor; cbn; try done. intros m.
      destruct (decide (n = m)) as [<-|Hne].
      - rewrite !lookup_insert_eq. cbn. by rewrite (proj2 (Z.eqb_neq power 0)).
      - by rewrite !lookup_insert_ne by done. }
    assert (forall m, <[uuid n := mkVoter n power]> (voters t) !! uuid m =
              mkVoter m <$> <[n := power]> P !! m) as Hvot.
    { intros m. destruct (decide (n = m)) as [<-|Hne]; [by rewrite !lookup_insert_eq|].
      rewrite !lookup_insert_ne; [apply Hv|done|]. by intros ?%(inj uuid). }
    assert (forall id r, <[uuid n := mkVoter n power]> (voters t) !! id = Some r ->
              exists m, id = uuid m) as Hids.
    { intros id r. rewrite lookup_insert_Some. intros [[<- _]|[_ E]]; eauto. }
    destruct (P !! n) as [p|] eqn:EP; cbn [fmap option_fmap option_map vr_name].
    + do 2 eexists. split_and!; [done|reflexivity|]. by apply Hgoal.
    + destruct (existsb _ _) eqn:Ex.
      { exfalso. apply existsb_exists in Ex as ([id r] & Hin & Hn%bool_decide_eq_true). cbn in Hn.
        apply list_elem_of_In, elem_of_map_to_list in Hin.
        destruct (Hid _ _ Hin) as [m ->]. rewrite Hv in Hin.
        destruct (P !! m) as [p|] eqn:EPm; [|done]. injection Hin as <-. cbn in Hn. congruence. }
      do 2 eexists. split_and!; [done|reflexivity|]. by apply Hgoal.
Qed.

Lemma Commit_sync vs t P P0 order :
  in_sync vs t P P0 -> order ≡ₚ map_to_list (valUpdates vs) -> in_sync (Commit order vs) t P P.
Proof.
  intros [Hset Hp Hu Hc Hv Hid] Hord.
  assert (forall n v, (n, v) ∈ order -> val_ok v /\ val_name v = n) as Hin.
  { intros n v. rewrite Hord, elem_of_map_to_list. apply Hu. }
  assert (val_name <$> order.*2 = order.*1) as Hnames.
  { clear - Hin. induction order as [|[n v] order IH]; [done|]. cbn. f_equal.
    - apply (Hin n v). apply elem_of_cons. by left.
    - apply IH. intros m w Hm. apply Hin, elem_of_cons. by right. }
  destruct (apply_updates_spec (order.*2) (validatorSet vs)) as [H1 H2].
  - apply list.Forall_forall. intros v ([n w] & -> & Hm)%list_elem_of_fmap. by apply (Hin n w).
  - rewrite Hnames, Hord. apply NoDup_fst_map_to_list.
  - done.
  - constructor; cbn; try done. apply map_eq. intros n. rewrite H2, Hc, Hp. unfold updated.
    destruct (valUpdates vs !! n) as [v|] eqn:E.
    + assert ((n, v) ∈ order) as Hm by by rewrite Hord, elem_of_map_to_list.
      destruct (List.find _ _) as [w|] eqn:Ef.
      * apply find_some in Ef as [Hw%list_elem_of_In Hn%bool_decide_eq_true].
        apply list_elem_of_fmap in Hw as ([m w'] & -> & Hw).
        destruct (Hin _ _ Hw) as [_ Hm']. cbn in Hn. subst.
        rewrite Hord, elem_of_map_to_list in Hw. cbn [snd] in *.
        assert (w' = v) as -> by congruence. done.
      * exfalso. pose proof (find_none _ _ Ef v) as Hf. cbv beta in Hf.
        rewrite bool_decide_eq_true_2 in Hf by by apply (Hin n v).
        discriminate Hf. apply list_elem_of_In, list_elem_of_fmap. by exists (n, v).
    + destruct (List.find _ _) as [w|] eqn:Ef; [|done].
      apply find_some in Ef as [Hw%list_elem_of_In Hn%bool_decide_eq_true].
      apply list_elem_of_fmap in Hw as ([m w'] & -> & Hw).
      destruct (Hin _ _ Hw) as [_ Hm']. cbn in Hn. subst.
      rewrite Hord, elem_of_map_to_list in Hw. congruence.
Qed.

Lemma GetValidatorPower_sync vs t P P0 pk kt n :
  in_sync vs t P P0 -> encodePubKey reg pk kt = Ok n ->
  GetValidatorPower vs pk kt = default 0 (P0 !! n).
Proof.
  intros [[Hnd Hok] <- _ _ _ _] En. unfold GetValidatorPower, getValidator, powers_of.
  induction Hok as [|v set Hv Hset IH]; [done|].
  apply list.NoDup_cons in Hnd as [Hnin Hnd]. cbn [List.find fmap list_fmap list_to_map foldr].
  rewrite (same_validator_name pk kt n v Hv En). cbn. case_bool_decide as E.
  - by rewrite E, lookup_insert_eq.
  - rewrite lookup_insert_ne by done. by apply IH.
Qed.
End sync.

Section sync_claims.
Context (reg : registry) (uuid : bytes -> bytes).

(** The calls of one block. *)
Definition set_powers (calls : list (slice * KeyType * Z)) (st : VoteStore * tables)
  : VoteStore * tables :=
  foldl (fun st c => snd (SetValidatorPower reg uuid c.1.1 c.1.2 c.2 st)) st calls.

Lemma set_powers_sync calls vs t P P0 :
  reg_ok reg -> Inj (=) (=) uuid -> in_sync reg uuid vs t P P0 ->
  Forall (fun c => registered reg c.1.2 /\ 0 <= c.2) calls ->
  exists P', in_sync reg uuid (fst (set_powers calls (vs, t))) (snd (set_powers calls (vs, t))) P' P0.
Proof.
  intros Hreg Hinj R Hc. revert vs t P R.
  induction Hc as [|[[pk kt] p] calls [Hkt Hp] Hc IH]; intros vs t P R; [by exists P|].
  destruct (SetValidatorPower_sync reg uuid vs t P P0 pk kt p R Hkt Hp)
    as (n & vs' & t' & _ & E & R'). unfold set_powers in *. cbn [foldl fst snd] in *.
  rewrite E. cbn [snd]. by eapply IH.
Qed.

(** The power a voters table records for an encoded name. *)
Definition table_power (t : tables) (n : bytes) : Z :=
  match voters t !! uuid n with Some r => vr_power r | None => 0 end.
End sync_claims.

(** C35. The cached validator set follows the voters table: after any power
    changes of a block, committing (with the updates in any map order) makes
    [GetValidatorPower] answer the power in the table for every key, and
    rolling back makes it answer the power before the block. *)
Theorem validator_set_in_sync reg uuid vs t P0 calls order pk kt n :
  reg_ok reg -> Inj (=) (=) uuid -> in_sync reg uuid vs t P0 P0 ->
  Forall (fun c => registered reg c.1.2 /\ 0 <= c.2) calls ->
  order ≡ₚ map_to_list (valUpdates (fst (set_powers reg uuid calls (vs, t)))) ->
  encodePubKey reg pk kt = Ok n ->
  let '(vs', t') := set_powers reg uuid calls (vs, t) in
  GetValidatorPower (Commit order vs') pk kt = table_power uuid t' n /\
  GetValidatorPower (Rollback vs') pk kt = table_power uuid t n.
Proof.
  intros Hreg Hinj R Hc Hord En.
  destruct (set_powers_sync reg uuid calls vs t P0 P0 Hreg Hinj R Hc) as [P' R'].
  destruct (set_powers reg uuid calls (vs, t)) as [vs' t'] eqn:E. cbn [fst snd] in *.
  pose proof (Commit_sync reg Hreg uuid vs' t' P' P0 order R' Hord) as Rc.
  rewrite (GetValidatorPower_sync reg Hreg uuid _ _ _ _ pk kt n Rc En).
  assert (GetValidatorPower (Rollback vs') pk kt = GetValidatorPower vs' pk kt) as -> by done.
  rewrite (GetValidatorPower_sync reg Hreg uuid _ _ _ _ pk kt n R' En).
  unfold table_power. rewrite (is_voters _ _ _ _ _ _ Rc), (is_voters _ _ _ _ _ _ R).
  split; by destruct (_ !! n).
Qed.

(** ** Table invariants *)

Section tables.
Context (reg : registry) (uuid : bytes -> bytes).

(** Votes refer to resolutions and voters, powers are positive, voters are
    stored under the identifier of their encoded key, and resolutions have a
    type and a decodable proposer. *)
Record tables_ok (t : tables) : Prop := mkTablesOk {
  to_votes : forall r v, (r, v) ∈ votes t ->
    is_Some (resolutions t !! r) /\ is_Some (voters t !! v);
  to_voters : forall id r, voters t !! id = Some r ->
    0 < vr_power r /\ id = uuid (vr_name r) /\
    exists pk kt, encodePubKey reg pk kt = Ok (vr_name r);
  to_resolutions : forall id r, resolutions t !! id = Some r ->
    is_Some (resolution_types t !! rr_type r) /\
    exists pk kt, encodePubKey reg pk kt = Ok (rr_proposer r)
}.

Inductive vt_step : tables -> tables -> Prop :=
  | vt_approve t t' id pk kt : ApproveResolution reg uuid t id pk kt = Ok t' -> vt_step t t'
  | vt_create t t' ev exp pk kt : CreateResolution reg uuid t ev exp pk kt = Ok t' -> vt_step t t'
  | vt_delete t id : vt_step t (DeleteResolution t id)
  | vt_deletes t ids : vt_step t (DeleteResolutions t ids)
  | vt_delete_type t tys : vt_step t (DeleteResolutionsByType uuid t tys)
  | vt_mark t t' ids : MarkProcessed t ids = Ok t' -> vt_step t t'
  | vt_power t t' vs vs' pk kt p :
      SetValidatorPower reg uuid pk kt p (vs, t) = (Ok tt, (vs', t')) -> vt_step t t'.

Lemma sql_deleteResolutions_ok t ids : tables_ok t -> tables_ok (sql_deleteResolutions t ids).
Proof.
  intros [Hv Hp Hr]. constructor; cbn; [|done|].
  - intros r v [Hn Hin]%elem_of_filter. cbn in Hn. destruct (Hv r v Hin) as [[x Hx] ?].
    split; [|done]. exists x. by apply map_lookup_filter_Some.
  - intros id r [Hid _]%map_lookup_filter_Some. eauto.
Qed.

Lemma type_id_Some t ty id : type_id t ty = Some id -> resolution_types t !! id = Some ty.
Proof.
  unfold type_id. intros ([k n] & [Hin Heq]%find_some & ->)%fmap_Some. cbn in *.
  apply bool_decide_eq_true in Heq as <-. by apply elem_of_map_to_list, list_elem_of_In.
Qed.

Lemma sql_markProcessed_same t ids t' :
  sql_markProcessed t ids = Ok t' ->
  voters t' = voters t /\ resolutions t' = resolutions t /\ votes t' = votes t /\
  resolution_types t' = resolution_types t /\
  processed t ⊆ processed t' /\ (forall id, id ∈ ids -> id ∈ processed t').
Proof.
  revert t. induction ids as [|id ids IH]; intros t; cbn [sql_markProcessed].
  { intros <-%(inj Ok). split_and!; try done. by intros id ?%not_elem_of_nil. }
  destruct (decide (id ∈ processed t)); [done|].
  intros (H1 & H2 & H3 & H0 & H4 & H5)%IH. cbn in *. split_and!; try done.
  - etrans; [|exact H4]. apply union_subseteq_r.
  - intros id' [->|Hin]%elem_of_cons; [|auto]. apply H4, elem_of_union_l, elem_of_singleton_2; done.
Qed.

Lemma sql_addVote_ok t id vid t' : sql_addVote t id vid = Ok t' -> tables_ok t -> tables_ok t'.
Proof.
  intros E Hok. unfold sql_addVote in E. destruct (decide _); [by apply (inj Ok) in E as <-|].
  destruct (resolutions t !! id) eqn:E1; [|done].
  destruct (voters t !! vid) eqn:E2; [|done]. apply (inj Ok) in E as <-.
  destruct Hok as [Hv Hp Hr]. constructor; cbn; [|done|done].
  intros r' v' [Hin|Hin]%elem_of_union; [|by apply Hv].
  apply elem_of_singleton in Hin as [= -> ->]. by rewrite E1, E2.
Qed.

Lemma sql_insertResolution_ok t id body ty ex pr pk kt t' :
  encodePubKey reg pk kt = Ok pr -> sql_insertResolution t id body ty ex pr = Ok t' ->
  tables_ok t -> tables_ok t'.
Proof.
  intros Epr E [Hv Hp Hr]. unfold sql_insertResolution in E. destruct (decide _); [done|].
  destruct (type_id t _) as [tid|] eqn:Et; [|done].
  destruct (resolutions t !! _) eqn:E1; [done|].
  apply (inj Ok) in E as <-. constructor; cbn; [|done|].
  - intros r' v' Hin. destruct (Hv r' v' Hin) as [H1 H2]. split; [|done].
    rewrite lookup_insert_is_Some'. by right.
  - intros id' r' [[_ <-]|[_ Hl]]%lookup_insert_Some; [|eauto]. cbn.
    apply type_id_Some in Et. rewrite Et. eauto.
Qed.

Lemma set_voters_ok t id row :
  tables_ok t ->
  0 < vr_power row /\ id = uuid (vr_name row) /\
    (exists pk kt, encodePubKey reg pk kt = Ok (vr_name row)) ->
  tables_ok (set_voters t (<[id := row]> (voters t))).
Proof.
  intros [Hv Hp Hr] Hrow. constructor; cbn; [| |done].
  - intros r v Hin. destruct (Hv r v Hin). split; [done|].
    rewrite lookup_insert_is_Some'. by right.
  - intros i r [[<- <-]|[_ ?]]%lookup_insert_Some; eauto.
Qed.

Lemma sql_removeVoter_ok t id : tables_ok t -> tables_ok (sql_removeVoter t id).
Proof.
  intros [Hv Hp Hr]. constructor; cbn; [| |done].
  - intros r v [Hn Hin]%elem_of_filter. cbn in Hn. destruct (Hv r v Hin) as [H1 H2].
    split; [done|]. by rewrite lookup_delete_ne.
  - intros i r [_ ?]%lookup_delete_Some. eauto.
Qed.

Lemma sql_upsertVoter_ok t n p pk kt t' :
  encodePubKey reg pk kt = Ok n -> sql_upsertVoter t (uuid n) n p = Ok t' ->
  tables_ok t -> tables_ok t'.
Proof.
  intros En E Hok. unfold sql_upsertVoter in E. destruct (Z.leb_spec p 0); [done|].
  destruct (voters t !! uuid n) as [r|] eqn:Er.
  - apply (inj Ok) in E as <-. destruct (to_voters t Hok _ _ Er) as (_ & Hid & Hn).
    by apply set_voters_ok.
  - destruct (existsb _ _); [done|]. apply (inj Ok) in E as <-.
    apply set_voters_ok; cbn; eauto.
Qed.

Lemma vt_step_ok t t' : vt_step t t' -> tables_ok t -> tables_ok t'.
Proof.
  intros Hs Hok.
  destruct Hs as [t t' id pk kt E|t t' ev ex pk kt E|t id|t ids|t tys|t t' ids E|t t' vs vs' pk kt p E].
  - apply result_bind_Ok in E as (n & _ & E). by eapply sql_addVote_ok.
  - apply result_bind_Ok in E as (n & En & E). by eapply sql_insertResolution_ok.
  - by apply sql_deleteResolutions_ok.
  - destruct ids; [done|]. by apply sql_deleteResolutions_ok.
  - by apply sql_deleteResolutions_ok.
  - destruct ids; [by apply (inj Ok) in E as <-|].
    apply sql_markProcessed_same in E as (E1 & E2 & E3 & E4 & _). destruct Hok as [Hv Hp Hr].
    constructor; rewrite ?E1, ?E2, ?E3, ?E4; done.
  - unfold SetValidatorPower in E. destruct (Z.ltb_spec p 0); [done|].
    destruct (encodePubKey reg pk kt) as [n|] eqn:En; [|done].
    destruct (if p =? 0 then _ else _) as [t1|] eqn:E1; [|done].
    injection E as <- <-. destruct (p =? 0).
    + apply (inj Ok) in E1 as <-. by apply sql_removeVoter_ok.
    + by eapply sql_upsertVoter_ok.
Qed.

(** ** Counting votes *)

Definition total_power (t : tables) : Z := map_sum vr_power (voters t).

Lemma voter_ids_spec t id v :
  v ∈ voter_ids t id <-> (id, v) ∈ votes t /\ is_Some (voters t !! v).
Proof.
  unfold voter_ids. rewrite elem_of_sorted_ids, elem_of_map.
  split.
  - intros ([r w] & -> & [[Hr Hs] Hin]%elem_of_filter). cbn in *. by subst.
  - intros [Hin Hs]. exists (id, v). split; [done|]. by apply elem_of_filter.
Qed.

Lemma voter_ids_NoDup t id : NoDup (voter_ids t id).
Proof. apply NoDup_sorted_ids. Qed.

(** Distinct voters have at most the total power. *)
Lemma sum_distinct (m : gmap (list byte) voter_row) ids :
  NoDup ids -> (forall id r, m !! id = Some r -> 0 < vr_power r) ->
  sum_list_Z (map vr_power (omap (fun v => m !! v) ids)) <= map_sum vr_power m.
Proof.
  intros Hnd. revert m. induction Hnd as [|id ids Hnin Hnd IH]; intros m Hpos.
  { cbn. apply map_sum_nonneg. intros k r Hk. pose proof (Hpos k r Hk). lia. }
  cbn [omap list_omap]. destruct (m !! id) as [r|] eqn:E; [|by apply IH].
  cbn [map sum_list_Z]. rewrite (map_sum_delete vr_power m id r E).
  assert (omap (fun v => m !! v) ids = omap (fun v => delete id m !! v) ids) as ->.
  { apply list_omap_ext. apply Forall2_same_length_lookup_2; [done|].
    intros i x y Hx Hy. assert (x = y) as -> by congruence.
    rewrite lookup_delete_ne; [done|]. intros ->. apply Hnin.
    by apply list_elem_of_lookup_2 in Hy. }
  enough (sum_list_Z (map vr_power (omap (fun v => delete id m !! v) ids)) <=
          map_sum vr_power (delete id m)) by lia.
  apply IH. intros k r'. rewrite lookup_delete_Some. intros [_ ?]. eauto.
Qed.

Lemma approved_power_le t id p :
  tables_ok t -> approved_power t id = Some p -> 0 < p <= total_power t.
Proof.
  intros Hok. pose proof (fun id r H => proj1 (to_voters t Hok id r H)) as Hp.
  unfold approved_power, voter_rows. pose proof (sum_distinct (voters t) (voter_ids t id) (voter_ids_NoDup t id) Hp) as Hle.
  destruct (omap _ _) as [|r rows] eqn:E; [done|]. intros [= <-]. split; [|done].
  assert (Forall (fun r => 0 < vr_power r) (r :: rows)) as Hall.
  { apply list.Forall_forall. intros x Hx. rewrite <- E in Hx.
    apply list_elem_of_omap in Hx as (v & _ & Hv). eauto. }
  clear - Hall. apply Forall_cons_1 in Hall as [Hr Hall]. cbn [map sum_list_Z].
  enough (0 <= sum_list_Z (map vr_power rows)) by lia.
  induction Hall; cbn [map sum_list_Z]; lia.
Qed.
End tables.

Lemma rtc_vt_step_ok reg uuid t t' :
  rtc (vt_step reg uuid) t t' -> tables_ok reg uuid t -> tables_ok reg uuid t'.
Proof. induction 1 as [|t t1 t2 Hs _ IH]; [done|]. eauto using vt_step_ok. Qed.

Lemma vt_step_processed reg uuid t t' : vt_step reg uuid t t' -> processed t ⊆ processed t'.
Proof.
  destruct 1 as [t t' id pk kt E|t t' ev ex pk kt E|t id|t ids|t tys|t t' ids E|t t' vs vs' pk kt p E];
    try done.
  - apply result_bind_Ok in E as (n & _ & E). unfold sql_addVote in E.
    repeat case_match; try done; by apply (inj Ok) in E as <-.
  - apply result_bind_Ok in E as (n & _ & E). unfold sql_insertResolution in E.
    repeat case_match; try done; by apply (inj Ok) in E as <-.
  - by destruct ids.
  - destruct ids; [by apply (inj Ok) in E as <-|]. by apply sql_markProcessed_same in E as (_ & _ & _ & _ & ? & _).
  - unfold SetValidatorPower, sql_upsertVoter in E.
    repeat case_match; simplify_eq; done.
Qed.

Lemma rtc_processed reg uuid t t' : rtc (vt_step reg uuid) t t' -> processed t ⊆ processed t'.
Proof.
  induction 1 as [|t t1 t2 Hs _ IH]; [done|]. etrans; [by eapply vt_step_processed|done].
Qed.

Section queries.
Context (reg : registry) (Hreg : reg_ok reg).
Context (uuid : bytes -> bytes) `{Huuid : !Inj (=) (=) uuid}.
Abbreviation tables_ok := (tables_ok reg uuid).

Lemma mapR_total {A B} (f : A -> result B) (Q : A -> B -> Prop) (l : list A) :
  (forall a, a ∈ l -> exists b, f a = Ok b /\ Q a b) ->
  exists bs, mapR f l = Ok bs /\ Forall2 Q l bs.
Proof.
  induction l as [|a l IH]; intros H; [by exists []|].
  destruct (H a ltac:(constructor)) as (b & Eb & Qb).
  destruct IH as (bs & Ebs & Qbs); [intros; apply H; by constructor|].
  exists (b :: bs). cbn [mapR]. rewrite Eb. cbn. rewrite Ebs. split; [done|by constructor].
Qed.

(** The validator of a row of the voters table. *)
Definition row_of (row : voter_row) (v : Validator) : Prop :=
  encodePubKey reg (Identifier (val_ID v)) (acct_KeyType (val_ID v)) = Ok (vr_name row) /\
  Power v = vr_power row.

Lemma DecodePubKey_name pk kt n :
  encodePubKey reg pk kt = Ok n ->
  DecodePubKey reg n = Ok (slice_bytes pk, kt) /\ encodePubKey reg (Some (slice_bytes pk)) kt = Ok n.
Proof. intros E. split; [by apply encodePubKey_DecodePubKey|]. by rewrite <- E. Qed.

Lemma sql_getValidator_total t pk kt n :
  tables_ok t -> encodePubKey reg pk kt = Ok n ->
  exists v, sql_getValidator reg uuid t pk kt = Ok v.
Proof.
  intros Hok E. unfold sql_getValidator. rewrite E. cbn.
  destruct (voters t !! uuid n) as [r|] eqn:Er; [|by eexists].
  destruct (to_voters _ _ _ Hok _ _ Er) as (_ & Hid & pk' & kt' & En).
  apply (inj uuid) in Hid. subst n. rewrite bool_decide_eq_true_2 by done. cbn.
  unfold voter_validator. rewrite (encodePubKey_DecodePubKey reg Hreg _ _ _ E). by eexists.
Qed.

(** What the queries return for a stored resolution. *)
Record info_of (t : tables) (id : bytes) (R : Resolution) : Prop := mkInfo {
  io_id : res_ID R = id;
  io_row : exists r, resolutions t !! id = Some r /\
    resolution_types t !! rr_type r = Some (res_Type R) /\
    res_Body R = rr_body r /\ res_Expiration R = rr_expiration r;
  io_voters : Forall2 row_of (voter_rows t id) (res_Voters R);
  io_power : res_ApprovedPower R = sum_list_Z (map Power (res_Voters R));
  io_proposer : exists n, encodePubKey reg (Identifier (val_ID (res_Proposer R))) (acct_KeyType (val_ID (res_Proposer R))) = Ok n
}.

Lemma row_powers rows vs : Forall2 row_of rows vs -> map Power vs = map vr_power rows.
Proof. induction 1 as [|r v rows vs [_ H] _ IH]; [done|]. cbn. by rewrite H, IH. Qed.

Lemma full_info_total t id :
  tables_ok t -> is_Some (resolutions t !! id) ->
  exists R, full_info reg uuid t id = Ok R /\ info_of t id R.
Proof.
  intros Hok [r Er]. destruct (to_resolutions _ _ _ Hok _ _ Er) as ([name Ety] & pk & kt & Ep).
  unfold full_info. rewrite Er, Ety. unfold fromRow.
  destruct (DecodePubKey_name _ _ _ Ep) as [-> Ep']. cbn.
  destruct (sql_getValidator_total t _ _ _ Hok Ep') as [ov ->]. cbn.
  edestruct (mapR_total (fun v => '(pk, kt) ← wrap_err "failed to decode pubKey from voter" (DecodePubKey reg (vr_name v));
                      mret (mkValidator (mkAccountID (Some pk) kt) (vr_power v)))
    row_of (voter_rows t id)) as (vs & Evs & Hvs).
  { intros row (vid & _ & Hrow)%list_elem_of_omap.
    destruct (to_voters _ _ _ Hok _ _ Hrow) as (_ & _ & pk' & kt' & En).
    destruct (DecodePubKey_name _ _ _ En) as [-> En']. eexists. by split. }
  cbn in Evs. rewrite Evs. cbn. eexists. split; [done|]. constructor; cbn; [done|by exists r|done|..].
  - rewrite (row_powers _ _ Hvs). unfold approved_power. by destruct (voter_rows t id).
  - by exists (rr_proposer r).
Qed.

Lemma select_resolutions_spec t P id :
  id ∈ select_resolutions t P <->
  exists r name, resolutions t !! id = Some r /\ resolution_types t !! rr_type r = Some name /\
    P id r name = true.
Proof.
  unfold select_resolutions. rewrite elem_of_sorted_ids, elem_of_dom.
  split.
  - intros [r [Hr Hs]%map_lookup_filter_Some]. unfold selected in Hs. cbn in Hs.
    destruct (resolution_types t !! rr_type r) as [name|] eqn:E; [|done]. by exists r, name.
  - intros (r & name & Hr & Hty & HP). exists r. apply map_lookup_filter_Some. split; [done|].
    unfold selected. cbn. by rewrite Hty.
Qed.

Lemma select_NoDup t P : NoDup (select_resolutions t P).
Proof. apply NoDup_sorted_ids. Qed.

(** A query over stored resolutions returns each selected resolution once. *)
Lemma query_total t P :
  tables_ok t ->
  exists Rs, mapR (full_info reg uuid t) (select_resolutions t P) = Ok Rs /\
    map res_ID Rs = select_resolutions t P /\ Forall (fun R => info_of t (res_ID R) R) Rs.
Proof.
  intros Hok. destruct (mapR_total (full_info reg uuid t) (info_of t) (select_resolutions t P))
    as (Rs & E & H).
  { intros id (r & name & Hr & _)%select_resolutions_spec. apply full_info_total; [done|]. by exists r. }
  exists Rs. split; [done|]. clear E. induction H as [|id R ids Rs Hi _ [IH1 IH2]]; [done|].
  cbn [map]. rewrite IH1, (io_id _ _ _ Hi). split; [done|]. constructor; [|done].
  by rewrite (io_id _ _ _ Hi).
Qed.

(** Without votes there is no approved power. *)
Lemma approved_power_None t id :
  tables_ok t -> approved_power t id = None <-> forall v, (id, v) ∉ votes t.
Proof.
  intros Hok. unfold approved_power, voter_rows. split.
  - intros H v Hin. destruct (to_votes _ _ _ Hok _ _ Hin) as [_ [row Hrow]].
    assert (row ∈ omap (fun vid => voters t !! vid) (voter_ids t id)) as Hr.
    { apply list_elem_of_omap. exists v. split; [|done]. apply voter_ids_spec. by rewrite Hrow. }
    destruct (omap _ _); [by apply not_elem_of_nil in Hr|done].
  - intros H. destruct (voter_ids t id) as [|v vs] eqn:E; [done|].
    destruct (H v). apply (voter_ids_spec t id v). rewrite E. constructor.
Qed.
End queries.

(** C39. The tables stay consistent under every sequence of the store's
    operations: votes refer to stored resolutions and current voters (removing
    a voter or a resolution removes its votes), powers are positive, names are
    decodable, processed identifiers are never forgotten; so the approved power
    of a resolution counts each current voter at most once and is at most the
    total power. *)
Theorem vote_tables_consistent reg uuid t0 t :
  tables_ok reg uuid t0 -> rtc (vt_step reg uuid) t0 t ->
  tables_ok reg uuid t /\ processed t0 ⊆ processed t /\
  forall id p, approved_power t id = Some p -> 0 < p <= total_power t.
Proof.
  intros Hok Hr. pose proof (rtc_vt_step_ok _ _ _ _ Hr Hok) as Hok'. split; [done|].
  split; [by eapply rtc_processed|]. intros id p. by eapply approved_power_le.
Qed.

(** C36. [GetResolutionsByThresholdAndType] returns, without error, each
    resolution of the type that has a vote and whose current voters hold at
    least the threshold's share of the total power, exactly once, with its
    voters and their summed power. *)
Theorem threshold_selection reg uuid t th ty :
  reg_ok reg -> Inj (=) (=) uuid -> tables_ok reg uuid t ->
  0 <= Num th <= Denom th -> 0 < Denom th < 2 ^ 63 -> total_power t < 2 ^ 63 ->
  exists Rs, GetResolutionsByThresholdAndType reg uuid t th ty (total_power t) = Ok Rs /\
    NoDup (map res_ID Rs) /\ Forall (fun R => info_of reg t (res_ID R) R) Rs /\
    forall id, id ∈ map res_ID Rs <->
      exists r p, resolutions t !! id = Some r /\ resolution_types t !! rr_type r = Some ty /\
        approved_power t id = Some p /\ Num th * total_power t <= p * Denom th.
Proof.
  intros Hreg Hinj Hok Hn Hd Ht. unfold GetResolutionsByThresholdAndType.
  edestruct (query_total reg Hreg uuid t) as (Rs & -> & Hids & Hinfo); [done|].
  exists Rs. split; [done|]. rewrite Hids. split; [apply select_NoDup|]. split; [done|].
  assert (0 <= total_power t) as Ht0.
  { apply map_sum_nonneg. intros k r Hk. destruct (to_voters _ _ _ Hok _ _ Hk). lia. }
  assert (forall p, RequiredPower th (total_power t) <= p <-> Num th * total_power t <= p * Denom th)
    as Hreq by (apply RequiredPower_spec; lia).
  intros id. rewrite select_resolutions_spec. unfold power_reached. split.
  - intros (r & name & Hr & Hty & [->%bool_decide_eq_true Hp]%andb_true_iff).
    destruct (approved_power t id) as [p|]; [|done]. exists r, p.
    split_and!; try done. by apply Hreq, Z.leb_le.
  - intros (r & p & Hr & Hty & Hp & Hge). exists r, ty. split_and!; try done.
    rewrite bool_decide_eq_true_2 by done. rewrite Hp. cbn. by apply Z.leb_le, Hreq.
Qed.

(** A processed event stays processed: once its identifier is marked, no
    sequence of operations makes [CreateResolution] accept the event again, for
    any expiration and proposer, and [FilterNotProcessed] drops it. *)
Theorem processed_is_final reg uuid t ids t1 t2 ev :
  MarkProcessed t ids = Ok t1 -> VotableEventID uuid (ev_Type ev) (ev_Body ev) ∈ ids ->
  rtc (vt_step reg uuid) t1 t2 ->
  (forall expiration pk kt, exists e, CreateResolution reg uuid t2 ev expiration pk kt = Err e) /\
  VotableEventID uuid (ev_Type ev) (ev_Body ev) ∉ FilterNotProcessed t2 ids.
Proof.
  intros E Hin Hr. set (id := VotableEventID _ _ _) in *.
  assert (id ∈ processed t2) as Hp.
  { apply (rtc_processed _ _ _ _ Hr). destruct ids; [by apply not_elem_of_nil in Hin|].
    by apply sql_markProcessed_same in E as (_ & _ & _ & _ & _ & E); apply E. }
  split.
  - intros ex pk kt. unfold CreateResolution. destruct (encodePubKey reg pk kt); [|by eexists].
    cbn. unfold sql_insertResolution. fold id. rewrite decide_True by done. by eexists.
  - intros [Hn _]%list_elem_of_filter. done.
Qed.

(** ** Examples *)

Definition key_a : slice := Some (str "a").
Definition key_b : slice := Some (str "b").
Definition ex_event : VotableEvent := mkVotableEvent (str "join") (Some (str "x")).
Definition tables0 : tables := mkTables ∅ {[str "join" := str "join"]} ∅ ∅ ∅.
Definition ex_powers : list (slice * KeyType * Z) :=
  [(key_a, KeyTypeEd25519, 6); (key_b, KeyTypeSecp256k1, 3)].
Definition ex_set (st : VoteStore * tables) : VoteStore * tables :=
  set_powers test_registry id ex_powers st.
Definition ex_voters : tables := snd (ex_set (mkVoteStore [] ∅, tables0)).
Definition ok_tables (r : result tables) : tables := match r with Ok t => t | Err _ => tables0 end.
Definition ex_created : tables :=
  ok_tables (CreateResolution test_registry id ex_voters ex_event 100 key_b KeyTypeSecp256k1).
Definition ex_voted : tables :=
  ok_tables (ApproveResolution test_registry id ex_created (str "joinx") key_a KeyTypeEd25519).

Lemma tables0_ok : tables_ok test_registry id tables0.
Proof. by constructor. Qed.

Lemma in_sync_tables0 : in_sync test_registry id (mkVoteStore [] ∅) tables0 ∅ ∅.
Proof.
  constructor; try done. cbn. split; constructor.
Qed.

Lemma ex_powers_ok : Forall (fun c => registered test_registry c.1.2 /\ 0 <= c.2) ex_powers.
Proof.
  assert (forall kt, keyTypes test_registry !! kt = None -> kt <> KeyTypeEd25519 /\ kt <> KeyTypeSecp256k1)
    as H by (intros kt E; split; intros ->; vm_compute in E; discriminate).
  repeat constructor; cbn; try lia; apply not_eq_None_Some; intros E; by destruct (H _ E).
Qed.

Lemma vt_power_run reg uuid st pk kt p :
  fst (SetValidatorPower reg uuid pk kt p st) = Ok tt ->
  vt_step reg uuid (snd st) (snd (snd (SetValidatorPower reg uuid pk kt p st))).
Proof.
  destruct st as [vs t]. destruct (SetValidatorPower _ _ _ _ _ _) as [r [vs' t']] eqn:E.
  cbn. intros ->. by eapply vt_power.
Qed.

Lemma ok_tables_run r : match r with Ok _ => True | Err _ => False end -> r = Ok (ok_tables r).
Proof. by destruct r. Qed.

Lemma ex_voters_steps : rtc (vt_step test_registry id) tables0 ex_voters.
Proof.
  unfold ex_voters, ex_set, set_powers, ex_powers. cbn [foldl fst snd].
  eapply rtc_l; [|eapply rtc_once].
  - apply (vt_power_run test_registry id (mkVoteStore [] ∅, tables0) key_a KeyTypeEd25519 6).
    by vm_compute.
  - apply vt_power_run. by vm_compute.
Qed.

Lemma ex_voted_steps : rtc (vt_step test_registry id) tables0 ex_voted.
Proof.
  etrans; [apply ex_voters_steps|]. eapply rtc_l; [|eapply rtc_once].
  - eapply (vt_create _ _ _ ex_created). apply ok_tables_run. by vm_compute.
  - eapply vt_approve. apply ok_tables_run. by vm_compute.
Qed.

Lemma ex_voted_ok : tables_ok test_registry id ex_voted.
Proof. apply (rtc_vt_step_ok _ _ tables0); [apply ex_voted_steps|apply tables0_ok]. Qed.

Lemma validator_set_in_sync_witness :
  GetValidatorPower
    (Commit (map_to_list (valUpdates (fst (ex_set (mkVoteStore [] ∅, tables0)))))
       (fst (ex_set (mkVoteStore [] ∅, tables0)))) key_a KeyTypeEd25519 =
  table_power id ex_voters (le_bytes 4 keyIDEd25519 ++ str "a").
Proof.
  pose proof (validator_set_in_sync test_registry id (mkVoteStore [] ∅) tables0 ∅ ex_powers
    (map_to_list (valUpdates (fst (ex_set (mkVoteStore [] ∅, tables0))))) key_a KeyTypeEd25519
    (le_bytes 4 keyIDEd25519 ++ str "a") test_registry_ok _ in_sync_tables0 ex_powers_ok
    ltac:(reflexivity) ltac:(vm_compute; reflexivity)) as H.
  unfold ex_voters, ex_set in *.
  destruct (set_powers test_registry id ex_powers (mkVoteStore [] ∅, tables0)). exact (proj1 H).
Defined.

Lemma vote_tables_consistent_witness :
  tables_ok test_registry id ex_voted /\ approved_power ex_voted (str "joinx") = Some 6.
Proof.
  split; [|by vm_compute].
  exact (proj1 (vote_tables_consistent test_registry id tables0 ex_voted tables0_ok ex_voted_steps)).
Defined.

Lemma threshold_selection_witness :
  exists Rs, GetResolutionsByThresholdAndType test_registry id ex_voted (mkRat 2 3) (str "join")
    (total_power ex_voted) = Ok Rs /\ str "joinx" ∈ map res_ID Rs.
Proof.
  assert (total_power ex_voted = 9) as Ht by by vm_compute.
  destruct (threshold_selection test_registry id ex_voted (mkRat 2 3) (str "join") test_registry_ok
    _ ex_voted_ok ltac:(cbn; lia) ltac:(cbn; lia) ltac:(rewrite Ht; lia)) as (Rs & E & _ & _ & H).
  exists Rs. split; [exact E|]. apply H.
  exists (mkResRow (Some (str "x")) (str "join") 100 (le_bytes 4 keyIDSecp256k1 ++ str "b")), 6.
  rewrite Ht. split_and!; [by vm_compute..|cbn; lia].
Defined.

Lemma processed_is_final_witness :
  exists e, CreateResolution test_registry id
    (ok_tables (MarkProcessed ex_voted [str "joinx"])) ex_event 5 key_a KeyTypeEd25519 = Err e.
Proof.
  apply (processed_is_final test_registry id ex_voted [str "joinx"]
    (ok_tables (MarkProcessed ex_voted [str "joinx"])) _ ex_event).
  - apply ok_tables_run. by vm_compute.
  - by apply list_elem_of_singleton.
  - constructor.
Defined.
