(* ===== verification/Events.v ===== *)
(** * Resolution types and the event store

    The registry of src/extensions/resolutions/resolutions.go, which gives each
    type of resolution its thresholds, expiration and resolve function, and the
    event store of src/node/voting/events.go: the events a node has observed,
    the counter of those without a resolution, and the scoped key-value stores.
    Events are written through a connection of their own and deleted in the
    consensus transaction: [deleted] holds the deletions that are not committed
    yet. *)

From S2P Require Import Prelude.
From S2P Require Import Wire.
From S2P Require Import Keys.
From S2P Require Import Ident.
From S2P Require Import Order.
From S2P Require Import Values.
From S2P Require Import Auth.
From S2P Require Import Voting.
From Stdlib Require Import Strings.Byte.

#[local] Open Scope Z_scope.

(** ** Resolution types *)

(** A resolve function runs on the application state [W]. *)
Record ResolutionConfig (W : Type) := mkResolutionConfig {
  RefundThreshold : option Rat;
  ConfirmationThreshold : option Rat;
  ExpirationPeriod : Z;
  ResolveFunc : Resolution -> BlockContext -> action W unit
}.
Arguments mkResolutionConfig {W}.
Arguments RefundThreshold {W}.
Arguments ConfirmationThreshold {W}.
Arguments ExpirationPeriod {W}.
Arguments ResolveFunc {W}.

Section registry.
Context {W : Type} `{Strings}.
Implicit Types regs : gmap (list byte) (ResolutionConfig W).

(** 24 hours in nanoseconds. *)
Definition one_day : Z := 24 * 3600 * 1000000000.

Definition RegisterResolution (name : bytes) (op : ModOperation) (resolution : ResolutionConfig W) regs
  : result (gmap (list byte) (ResolutionConfig W)) :=
  let name := ToLower name in
  match regs !! name with
  | Some _ =>
      match op with
      | ModAdd => Err (ErrMsg "resolution already registered")
      | ModRemove => Ok (delete name regs)
      | ModUpdate => Ok (<[name := resolution]> regs)
      end
  | None =>
      match op with
      | ModRemove | ModUpdate => Err (ErrMsg "resolution does not exist to modify")
      | ModAdd =>
          Ok (<[name := mkResolutionConfig
                  (Some (default (mkRat 1 1) (RefundThreshold resolution)))
                  (Some (default (mkRat 2 3) (ConfirmationThreshold resolution)))
                  (if ExpirationPeriod resolution <? 1 then one_day else ExpirationPeriod resolution)
                  (ResolveFunc resolution)]> regs)
      end
  end.

Definition GetResolution regs (name : bytes) : result (ResolutionConfig W) :=
  match regs !! ToLower name with
  | None => Err (ErrMsg "resolution not found")
  | Some resolution => Ok resolution
  end.

(** [ListResolutions] followed by [slices.Sort] (in [NewTxApp]). *)
Definition sorted_resolutions regs : list bytes := sorted_ids (dom regs).
End registry.

(** ** The event store *)

Record event_row := mkEvent { er_data : bytes; er_type : bytes; er_broadcasted : bool }.

Record EventStore := mkEventStore {
  events : gmap (list byte) event_row;
  kv : gmap (list byte) (list byte);
  numEvents : Z;
  (** deletions in the consensus transaction *)
  deleted : gset (list byte)
}.

Definition es_set_events (e : EventStore) (x : gmap (list byte) event_row) : EventStore :=
  mkEventStore x (kv e) (numEvents e) (deleted e).
Definition es_set_kv (e : EventStore) (x : gmap (list byte) (list byte)) : EventStore :=
  mkEventStore (events e) x (numEvents e) (deleted e).
Definition es_set_num (e : EventStore) (x : Z) : EventStore :=
  mkEventStore (events e) (kv e) x (deleted e).
Definition es_set_deleted (e : EventStore) (x : gset (list byte)) : EventStore :=
  mkEventStore (events e) (kv e) (numEvents e) x.

(** A store opened on existing tables; the counter starts at zero. *)
Definition initializeEventStore (rows : gmap (list byte) event_row) (pairs : gmap (list byte) (list byte))
  : EventStore := mkEventStore rows pairs 0 ∅.

Section store.
Context {W : Type} `{Strings} (regs : gmap (list byte) (ResolutionConfig W)).
Context (uuid : bytes -> bytes).

(** [INSERT ... ON CONFLICT DO NOTHING]; the data column is NOT NULL. *)
Definition sql_insertEvent (rows : gmap (list byte) event_row) (id : bytes) (data : slice) (ty : bytes)
  : result (gmap (list byte) event_row) :=
  match data with
  | None => Err (ErrMsg "null value in column data")
  | Some d =>
      Ok (match rows !! id with
          | Some _ => rows
          | None => <[id := mkEvent d ty false]> rows
          end)
  end.

(** [Store]; [t] holds the committed voting tables. *)
Definition Store (t : tables) (data : slice) (eventType : bytes) : action EventStore unit := fun e =>
  match GetResolution regs eventType with
  | Err err => (Err err, e)
  | Ok _ =>
      let id := VotableEventID uuid eventType data in
      if IsProcessed t id then (Ok tt, e)
      else match sql_insertEvent (events e) id data eventType with
      | Err err => (Err err, e)
      | Ok rows => (Ok tt, es_set_num (es_set_events e rows) (numEvents e + 1))
      end
  end.

(** The committed events that have a resolution and were not broadcast; the
    database returns them in any order, here the order of the map. *)
Definition GetUnbroadcastedEvents (t : tables) (e : EventStore) : list bytes :=
  map fst (filter (fun kr : bytes * event_row =>
      is_Some (resolutions t !! kr.1) /\ er_broadcasted kr.2 = false)
    (map_to_list (events e))).

Definition set_broadcasted (b : bool) (ids : list bytes) (e : EventStore) : EventStore :=
  es_set_events e (map_imap (fun id r =>
    Some (if bool_decide (id ∈ ids) then mkEvent (er_data r) (er_type r) b else r)) (events e)).

Definition MarkBroadcasted (ids : list bytes) : action EventStore unit := fun e =>
  (Ok tt, match ids with [] => e | _ => set_broadcasted true ids e end).

Definition MarkRebroadcast (ids : list bytes) : action EventStore unit := fun e =>
  (Ok tt, match ids with [] => e | _ => set_broadcasted false ids e end).

(** The events without a resolution, as votable events. *)
Definition GetEvents (t : tables) (e : EventStore) : list VotableEvent :=
  map (fun kr => mkVotableEvent (er_type kr.2) (Some (er_data kr.2)))
    (filter (fun kr : bytes * event_row => resolutions t !! kr.1 = None) (map_to_list (events e))).

(** [DeleteEvent] and [DeleteEvents], in the consensus transaction. *)
Definition DeleteEvent (id : bytes) (e : EventStore) : EventStore :=
  es_set_deleted e ({[id]} ∪ deleted e).

Definition DeleteEvents (ids : list bytes) (e : EventStore) : EventStore :=
  match ids with [] => e | _ => es_set_deleted e (list_to_set ids ∪ deleted e) end.

(** The consensus transaction commits or rolls back. *)
Definition commit_events (e : EventStore) : EventStore :=
  es_set_deleted (es_set_events e (filter (fun kr => kr.1 ∉ deleted e) (events e))) ∅.

Definition rollback_events (e : EventStore) : EventStore := es_set_deleted e ∅.

Definition UpdateStats (deletedEvts : Z) (e : EventStore) : EventStore :=
  es_set_num e (if deletedEvts <? numEvents e then numEvents e - deletedEvts else 0).

Definition HasEvents (e : EventStore) : bool := 0 <? numEvents e.

(** ** Scoped key-value stores *)

Definition KV_Get (prefix key : bytes) (e : EventStore) : slice := kv e !! (prefix ++ key).

Definition KV_Set (prefix key : bytes) (value : slice) : action EventStore unit := fun e =>
  match value with
  | None => (Err (ErrMsg "null value in column value"), e)
  | Some v => (Ok tt, es_set_kv e (<[prefix ++ key := v]> (kv e)))
  end.

Definition KV_Delete (prefix key : bytes) : action EventStore unit := fun e =>
  (Ok tt, es_set_kv e (delete (prefix ++ key) (kv e))).
End store.
