(* ===== verification/TxApp.v ===== *)
(** * Transaction execution

    src/node/txapp/txapp.go and routes.go: pricing and spending, the routes of
    the payload types, their execution in nested database transactions, and the
    recovery from panics.  The application state holds the account store, the
    voting tables and the validator set, the event store, the data of the
    engine, the chain context that block contexts share, the unconfirmed
    accounts of the mempool and the join approvals of this node.

    The parts of the state in the database are those that [restore] resets; the
    others are in memory and keep their changes when a database transaction is
    rolled back.  The engine (src/node/engine) and the extensions are
    parameters. *)

From S2P Require Import Prelude.
From S2P Require Import Wire.
From S2P Require Import BigInt.
From S2P Require Import Keys.
From S2P Require Import Ident.
From S2P Require Import Order.
From S2P Require Import Tx.
From S2P Require Import Params.
From S2P Require Import Payloads.
From S2P Require Import Values.
From S2P Require Import Auth.
From S2P Require Import Cache.
From S2P Require Import Accounts.
From S2P Require Import Records.
From S2P Require Import Voting.
From S2P Require Import Events.
From Stdlib Require Import Strings.Byte Floats.SpecFloat.

#[local] Open Scope Z_scope.

(** ** Transaction codes *)

Definition CodeOk : Z := 0.
Definition CodeEncodingError : Z := 1.
Definition CodeInvalidTxType : Z := 2.
Definition CodeInsufficientBalance : Z := 6.
Definition CodeInsufficientFee : Z := 7.
Definition CodeInvalidAmount : Z := 8.
Definition CodeInvalidSender : Z := 9.
Definition CodeDatasetMissing : Z := 110.
Definition CodeDatasetExists : Z := 120.
Definition CodeInvalidResolutionType : Z := 130.
Definition CodeNetworkInMigration : Z := 200.
Definition CodeUnknownError : Z := 65535.

Definition ErrInvalidAmount : error := ErrSentinel "invalid amount".
Definition ErrCallerNotValidator : error := ErrSentinel "caller is not a validator".
Definition ErrCallerIsValidator : error := ErrSentinel "caller is already a validator".
Definition ErrCallerNotProposer : error := ErrSentinel "caller is not the block proposer".
Definition ErrTargetNotValidator : error := ErrSentinel "target is not a validator".
Definition ErrNamespaceExists : error := ErrSentinel "namespace already exists".
Definition ErrNamespaceNotFound : error := ErrSentinel "namespace not found".

Definition ValidatorJoinEventType : bytes := str "validator_join".
Definition ValidatorRemoveEventType : bytes := str "validator_remove".
Definition StartMigrationEventType : bytes := str "migration".

Definition NoActiveMigration : bytes := str "NoActiveMigration".
Definition MigrationInProgress : bytes := str "MigrationInProgress".
Definition MigrationCompleted : bytes := str "MigrationCompleted".
Definition GenesisMigration : bytes := str "GenesisMigration".

Definition MigrationStatus_Active (ms : bytes) : bool := negb (bool_decide (ms = NoActiveMigration)).

(** The condition of the routes that a migration suspends. *)
Definition in_migration (ms : bytes) : bool :=
  bool_decide (ms = MigrationInProgress) || bool_decide (ms = MigrationCompleted).

(** ** Durations *)

(** The [float64] nearest to an integer, and [int64] of a [float64]. *)
Definition float64 (z : Z) : spec_float := binary_normalize 53 1024 z 0 false.

Definition float_trunc (f : spec_float) : Z :=
  match f with
  | S754_finite s m e =>
      let v := if 0 <=? e then Z.pos m * 2 ^ e else Z.pos m / 2 ^ (- e) in
      if s then - v else v
  | _ => 0
  end.

(** [time.Duration.Seconds]. *)
Definition Duration_Seconds (d : Z) : spec_float :=
  SFadd 53 1024 (float64 (Z.quot d 1000000000))
    (SFdiv 53 1024 (float64 (Z.rem d 1000000000)) (float64 1000000000)).

(** [timestamp + int64(d.Seconds())]. *)
Definition expires_at (timestamp d : Z) : Z := i64 (timestamp + float_trunc (Duration_Seconds d)).

(** ** Coded failures *)

(** What a route returns: a value, or a code, a log and an error; an error that
    is a panic unwinds to the recovery of the caller. *)
Inductive outcome (A : Type) :=
  | Done (a : A)
  | Failed (code : Z) (log : bytes) (e : error).
Arguments Done {A} a.
Arguments Failed {A} code log e.

Definition task (W A : Type) : Type := W -> outcome A * W.

#[export] Instance task_ret W : MRet (task W) := fun A a w => (Done a, w).
#[export] Instance task_bind W : MBind (task W) := fun A B k m w =>
  match m w with
  | (Done a, w') => k a w'
  | (Failed c l e, w') => (Failed c l e, w')
  end.

Definition tfail {W A} (code : Z) (e : error) : task W A := fun w => (Failed code [] e, w).

(** [if err != nil { return code(err), err }] *)
Definition tcoded {W A} (code : error -> Z) (m : action W A) : task W A := fun w =>
  match m w with
  | (Ok a, w') => (Done a, w')
  | (Err e, w') => (Failed (code e) [] e, w')
  end.

Definition tlift {W A} (code : Z) (m : action W A) : task W A := tcoded (fun _ => code) m.

Definition tget {W A} (f : W -> A) : task W A := fun w => (Done (f w), w).
Definition twhen {W} (b : bool) (m : task W unit) : task W unit := if b then m else mret tt.

(** ** The state *)

Record App (C X : Type) := mkApp {
  ap_accounts : Accounts C;
  ap_votes : VoteStore;
  ap_tables : tables;
  ap_events : EventStore;
  ap_engine : X;
  ap_chain : ChainContext;
  ap_mempool : gmap (list byte) Account;
  ap_approvedJoins : list AccountID
}.
Arguments mkApp {C X}.
Arguments ap_accounts {C X}.
Arguments ap_votes {C X}.
Arguments ap_tables {C X}.
Arguments ap_events {C X}.
Arguments ap_engine {C X}.
Arguments ap_chain {C X}.
Arguments ap_mempool {C X}.
Arguments ap_approvedJoins {C X}.

Section state.
Context {C X : Type}.
Implicit Types st : App C X.

Definition set_accounts st x : App C X :=
  mkApp x (ap_votes st) (ap_tables st) (ap_events st) (ap_engine st) (ap_chain st) (ap_mempool st) (ap_approvedJoins st).
Definition set_voting st (x : VoteStore * tables) : App C X :=
  mkApp (ap_accounts st) x.1 x.2 (ap_events st) (ap_engine st) (ap_chain st) (ap_mempool st) (ap_approvedJoins st).
Definition set_events st x : App C X :=
  mkApp (ap_accounts st) (ap_votes st) (ap_tables st) x (ap_engine st) (ap_chain st) (ap_mempool st) (ap_approvedJoins st).
Definition set_mempool st x : App C X :=
  mkApp (ap_accounts st) (ap_votes st) (ap_tables st) (ap_events st) (ap_engine st) (ap_chain st) x (ap_approvedJoins st).
Definition set_joins st x : App C X :=
  mkApp (ap_accounts st) (ap_votes st) (ap_tables st) (ap_events st) (ap_engine st) (ap_chain st) (ap_mempool st) x.

(** Operations of the account store and of the vote store. *)
Definition on_accounts {A} (m : action (Accounts C) A) : action (App C X) A := fun st =>
  let '(r, a) := m (ap_accounts st) in (r, set_accounts st a).

Definition on_voting {A} (m : action (VoteStore * tables) A) : action (App C X) A := fun st =>
  let '(r, vt) := m (ap_votes st, ap_tables st) in (r, set_voting st vt).

Definition on_tables (f : tables -> result tables) : action (App C X) unit := fun st =>
  match f (ap_tables st) with
  | Ok t => (Ok tt, set_voting st (ap_votes st, t))
  | Err e => (Err e, st)
  end.

(** Roll a database transaction back to where [saved] began it. *)
Definition restore (saved st : App C X) : App C X :=
  mkApp (set_table (ap_accounts st) (tx_table (ap_accounts saved)))
    (ap_votes st) (ap_tables saved)
    (es_set_deleted (ap_events st) (deleted (ap_events saved)))
    (ap_engine saved) (ap_chain st) (ap_mempool st) (ap_approvedJoins st).

Definition params st : NetworkParameters := NetworkParameters_ (ap_chain st).
Definition power_of st (pubKey : slice) (kt : KeyType) : Z := GetValidatorPower (ap_votes st) pubKey kt.
End state.

(** ** The engine *)

Record CallResult := mkCallResult { Logs : list bytes; cr_Error : option error }.

Record EngineContext := mkEngineContext { ec_Tx : TxContext; OverrideAuthz : bool }.

(** [common.Engine]; a call may return both a result and an error. *)
Class Engine (W : Type) `{Decimals} := {
  engine_Execute : EngineContext -> bytes -> gmap (list byte) value -> action W unit;
  engine_Call : EngineContext -> bytes -> bytes -> list value -> W -> (option CallResult * option error) * W;
  engine_ExecuteWithoutCtx : bytes -> gmap (list byte) value -> action W unit
}.

(** [CallResult.FormatLogs]. *)
Fixpoint format_logs (i : Z) (l : list bytes) : bytes :=
  match l with
  | [] => []
  | s :: l' => (if 1 <? i then [x0a] else []) ++ big_String i ++ str ". " ++ s ++ format_logs (i + 1) l'
  end.

Definition FormatLogs (c : CallResult) : bytes := format_logs 1 (Logs c).

(** The registries and the identity of a node. *)
Record Node (W : Type) := mkNode {
  nd_keys : registry;
  nd_auth : authenticators;
  nd_uuid : bytes -> bytes;
  nd_resolutions : gmap (list byte) (ResolutionConfig W);
  nd_Identity : bytes;
  nd_CompactID : bytes;
  nd_AuthType : bytes
}.
Arguments mkNode {W}.
Arguments nd_keys {W}.
Arguments nd_auth {W}.
Arguments nd_uuid {W}.
Arguments nd_resolutions {W}.
Arguments nd_Identity {W}.
Arguments nd_CompactID {W}.
Arguments nd_AuthType {W}.

(** A [consensus.Route]: its price, and the two steps of its execution.  The
    first leaves its results in the fields of the route for the second, which
    returns a log. *)
Record Route (W : Type) := mkRoute {
  rt_fields : Type;
  rt_Price : Transaction -> result Z;
  rt_PreTx : TxContext -> Transaction -> task W rt_fields;
  rt_InTx : rt_fields -> TxContext -> Transaction -> task W bytes
}.
Arguments mkRoute {W}.
Arguments rt_fields {W}.
Arguments rt_Price {W}.
Arguments rt_PreTx {W}.
Arguments rt_InTx {W}.

(** The results [spend, code, err] of [checkAndSpend]. *)
Abbreviation spending := (option Z * Z * option error)%type.

Section txapp.
Context {C : Type} `{HC : Cache (list byte) Account C} {X : Type}.
Context `{HS : Strings} `{HD : Decimals}.
#[local] Abbreviation W := (App C X).
Context `{HE : !Engine W}.
Context (N : Node W).

#[local] Abbreviation reg := (nd_keys N).
#[local] Abbreviation uuid := (nd_uuid N).
#[local] Abbreviation key_type := (GetAuthenticatorKeyType (nd_auth N)).
#[local] Abbreviation get_resolution := (GetResolution (nd_resolutions N)).

(** ** Senders and payloads *)

Definition TxSenderAcctID (t : Transaction) : result AccountID :=
  match tx_Signature t with
  | None => Err (ErrMsg "transaction signature is required")
  | Some sig =>
      match Sender t with
      | None => Err (ErrMsg "transaction sender is nil")
      | Some _ => keyType ← key_type (sig_Type sig); mret (mkAccountID (Sender t) keyType)
      end
  end.

(** [tx.Body.Payload] and [tx.Signature.Type] of a nil field panic. *)
Definition payload (t : Transaction) : result bytes :=
  match tx_Body t with
  | None => Err (ErrPanic "nil pointer dereference")
  | Some b => Ok (slice_bytes (Tx.Payload b))
  end.

Definition sig_type (t : Transaction) : result bytes :=
  match tx_Signature t with
  | None => Err (ErrPanic "nil pointer dereference")
  | Some sig => Ok (sig_Type sig)
  end.

Definition sender_key_type (t : Transaction) : result KeyType := ty ← sig_type t; key_type ty.

(** [ctx.BlockContext.Proposer.Bytes()] *)
Definition proposer_bytes (ctx : TxContext) : result bytes :=
  match bc_Proposer (tc_Block ctx) with
  | None => Err (ErrPanic "nil pointer dereference")
  | Some k => Ok (pk_Bytes k)
  end.

(** A computation that does not touch the state, with the code of its error. *)
Definition tpure {A} (code : Z) (r : result A) : task W A := tlift code (alift r).

Definition not_in_migration (msg : string) : task W unit :=
  ms ← tget (fun st => MigrationStatus (params st));
  twhen (in_migration ms) (tfail CodeNetworkInMigration (ErrMsg msg)).

(** ** Spending *)

Definition refused (code : Z) (e : error) : action W spending := mret (None, code, Some e).

(** "Spend as much as possible": the balance that [GetAccount] returns;
    [not_found] is what an unknown account answers. *)
Definition spend_rest (sender : AccountID) (nonce : Z) (not_found : error -> spending)
  : action W spending :=
  r ← acatch (on_accounts (GetAccount reg ConsensusTx sender));
  match r with
  | Err e => refused CodeUnknownError e
  | Ok account =>
      r2 ← acatch (on_accounts (Spend_ reg sender (Some (Balance account)) nonce));
      match r2 with
      | Err e2 => mret (not_found e2)
      | Ok _ => mret (Some (Balance account), CodeInsufficientBalance,
                      Some (ErrMsg "transaction tries to spend more tokens than the account has"))
      end
  end.

Definition zero_balance : spending :=
  (None, CodeInsufficientBalance, Some (ErrMsg "account has zero balance")).

(** The error of the second spend below the fee. *)
Definition rest_not_found (e2 : error) : spending :=
  if errors_is e2 ErrAccountNotFound then zero_balance else (None, CodeUnknownError, Some e2).

(** The checks after a failed spend. *)
Definition spend_failed (err : error) : spending :=
  if errors_is err ErrAccountNotFound then zero_balance else (None, CodeUnknownError, Some err).

Definition checkAndSpend (tx : Transaction) (price : Transaction -> result Z) : action W spending :=
  match tx_Body tx with
  | None => refused CodeInvalidAmount (ErrWrap "fee cannot be negative or nil" ErrInvalidAmount)
  | Some body =>
  match Fee body with
  | None => refused CodeInvalidAmount (ErrWrap "fee cannot be negative or nil" ErrInvalidAmount)
  | Some fee =>
  if fee <? 0 then refused CodeInvalidAmount (ErrWrap "fee cannot be negative or nil" ErrInvalidAmount)
  else
    free ← gets (fun st => DisabledGasCosts (params st));
    ramt ← (if free : bool then mret (Ok 0) else acatch (alift (price tx)));
    match ramt with
    | Err e => refused CodeUnknownError e
    | Ok amt =>
    match TxSenderAcctID tx with
    | Err e => refused CodeInvalidSender e
    | Ok sender =>
      _ ← acatch (on_accounts (GetAccount reg ConsensusTx sender));
      let nonce := i64 (Nonce body) in
      if fee <? amt then
        r ← acatch (on_accounts (Spend_ reg sender (Some fee) nonce));
        match r with
        | Err err =>
            if errors_is err ErrInsufficientFunds then spend_rest sender nonce rest_not_found
            else mret (spend_failed err)
        | Ok _ => mret (Some fee, CodeInsufficientFee,
                        Some (ErrMsg "transaction does not consent to spending enough tokens"))
        end
      else
        r ← acatch (on_accounts (Spend_ reg sender (Some amt) nonce));
        match r with
        | Err err =>
            if errors_is err ErrInsufficientFunds
            then spend_rest sender nonce (fun e2 => (None, CodeUnknownError, Some e2))
            else mret (spend_failed err)
        | Ok _ => mret (Some amt, CodeOk, None)
        end
    end
    end
  end
  end.

(** ** Engine routes *)

Definition codeForEngineError (err : error) : Z :=
  if errors_is err ErrNamespaceExists then CodeDatasetExists
  else if errors_is err ErrNamespaceNotFound then CodeDatasetMissing
  else CodeUnknownError.

Definition makeEngineCtx (ctx : TxContext) : EngineContext := mkEngineContext ctx false.

Fixpoint decode_params (ps : list NamedValue) (m : gmap (list byte) value) : result (gmap (list byte) value) :=
  match ps with
  | [] => Ok m
  | p :: ps' => v ← Decode (nv_Value p); decode_params ps' (<[nv_Name p := v]> m)
  end.

Definition rawStatement_PreTx (ctx : TxContext) (tx : Transaction)
  : task W (bytes * gmap (list byte) value) :=
  raw ← tpure CodeEncodingError (p ← payload tx; run_reader RawStatement_read p);
  params ← tpure CodeEncodingError (decode_params (Parameters raw) ∅);
  mret (Statement raw, params).

Definition rawStatement_InTx (d : bytes * gmap (list byte) value) (ctx : TxContext) (tx : Transaction)
  : task W bytes :=
  _ ← tcoded codeForEngineError (engine_Execute (makeEngineCtx ctx) d.1 d.2);
  mret [].

Definition rawStatementRoute : Route W :=
  mkRoute _ (fun _ => Ok 10000000000000) rawStatement_PreTx rawStatement_InTx.

Record call_fields := mkCall { d_namespace : bytes; d_action : bytes; d_args : list (list value) }.

Definition executeAction_PreTx (ctx : TxContext) (tx : Transaction) : task W call_fields :=
  action ← tpure CodeEncodingError (p ← payload tx; run_reader ActionExecution_read p);
  args ← tpure CodeEncodingError (mapR (mapR Decode) (ae_Arguments action));
  mret (mkCall (ae_Namespace action) (ae_Action action) (match args with [] => [[]] | _ => args end)).

Definition add_logs (logs : bytes) (res : option CallResult) : bytes :=
  match res with
  | Some r =>
      if negb (zlen (Logs r) =? 0)
      then (if 0 <? zlen logs then logs ++ [x0a] else logs) ++ FormatLogs r
      else logs
  | None => logs
  end.

Fixpoint call_all (ctx : TxContext) (namespace action : bytes) (args : list (list value)) (logs : bytes)
  : task W bytes := fun st =>
  match args with
  | [] => (Done logs, st)
  | a :: args' =>
      let '((res, err), st') := engine_Call (makeEngineCtx ctx) namespace action a st in
      let logs := add_logs logs res in
      match err with
      | Some e => (Failed (codeForEngineError e) logs e, st')
      | None =>
          match res with
          | None => (Failed CodeUnknownError [] (ErrPanic "nil pointer dereference"), st')
          | Some r =>
              match cr_Error r with
              | Some e => (Failed CodeUnknownError logs e, st')
              | None => call_all ctx namespace action args' logs st'
              end
          end
      end
  end.

Definition executeAction_InTx (d : call_fields) (ctx : TxContext) (tx : Transaction) : task W bytes :=
  call_all ctx (d_namespace d) (d_action d) (d_args d) [].

Definition executeActionRoute : Route W :=
  mkRoute _ (fun _ => Ok 2000000000000000) executeAction_PreTx executeAction_InTx.

(** ** Transfers *)

Definition transfer_PreTx (ctx : TxContext) (tx : Transaction) : task W (option AccountID * Z) :=
  _ ← not_in_migration "cannot transfer during migration";
  transferBody ← tpure CodeEncodingError (p ← payload tx; run_reader (Transfer_read reg) p);
  match tr_Amount transferBody with
  | None => tfail CodeUnknownError (ErrPanic "nil pointer dereference")
  | Some bigAmt =>
      if bigAmt <? 0 then tfail CodeInvalidAmount (ErrMsg "invalid transfer amount")
      else mret (tr_To transferBody, bigAmt)
  end.

Definition transfer_code (err : error) : Z :=
  if errors_is err ErrInsufficientFunds then CodeInsufficientBalance
  else if errors_is err ErrNegativeBalance then CodeInvalidAmount
  else CodeUnknownError.

Definition transfer_InTx (d : option AccountID * Z) (ctx : TxContext) (tx : Transaction) : task W bytes :=
  sender ← tpure CodeInvalidSender (TxSenderAcctID tx);
  match d.1 with
  | None => tfail CodeUnknownError (ErrPanic "nil pointer dereference")
  | Some to =>
      _ ← tcoded transfer_code (on_accounts (Accounts.Transfer reg sender to (Some d.2)));
      mret []
  end.

Definition transferRoute : Route W :=
  mkRoute _ (fun _ => Ok 210000) transfer_PreTx transfer_InTx.

(** ** Validator routes *)

Definition ValidatorVoteIDPrice : Z := 16000.
Definition ValidatorVoteBodyBytePrice : Z := 1000.

(** [createResolution], [approveResolution] and [deleteEvent] of interfaces.go. *)
Definition createResolution (event : VotableEvent) (expiration : Z) (proposer : slice) (kt : KeyType)
  : action W unit := on_tables (fun t => CreateResolution reg uuid t event expiration proposer kt).

Definition approveResolution (id : bytes) (sender : slice) (kt : KeyType) : action W unit :=
  on_tables (fun t => ApproveResolution reg uuid t id sender kt).

Definition deleteEvent (id : bytes) : action W unit :=
  modify (fun st => set_events st (DeleteEvent id (ap_events st))).

Definition event_id (e : VotableEvent) : bytes := VotableEventID uuid (ev_Type e) (ev_Body e).

(** [ctx.BlockContext.Timestamp + int64(joinExpiry)] *)
Definition join_expiry (ctx : TxContext) (st : W) : Z :=
  expires_at (bc_Timestamp (tc_Block ctx)) (JoinExpiry (params st)).

Definition validatorJoin_PreTx (ctx : TxContext) (tx : Transaction) : task W Z :=
  _ ← not_in_migration "cannot join validator during migration";
  tpure CodeEncodingError (p ← payload tx; ValidatorJoin_UnmarshalBinary p).

Definition validatorJoin_InTx (power : Z) (ctx : TxContext) (tx : Transaction) : task W bytes :=
  keyType ← tpure CodeInvalidSender (wrap_err "failed to parse key type" (sender_key_type tx));
  current ← tget (fun st => power_of st (Sender tx) keyType);
  if 0 <? current then tfail CodeInvalidSender ErrCallerIsValidator
  else
    t ← tget ap_tables;
    pending ← tpure CodeUnknownError
                (GetResolutionIDsByTypeAndProposer reg t ValidatorJoinEventType (Sender tx) keyType);
    if 0 <? zlen pending
    then tfail CodeInvalidSender (ErrMsg "validator already has a pending join request")
    else
      let bts := UpdatePowerRequest_MarshalBinary (mkUpdatePower (Sender tx) keyType (i64 power)) in
      let event := mkVotableEvent ValidatorJoinEventType (Some bts) in
      expiry ← tget (join_expiry ctx);
      _ ← tlift CodeUnknownError (createResolution event expiry (Sender tx) keyType);
      mret [].

Definition validatorJoinRoute : Route W :=
  mkRoute _ (fun _ => Ok 10000000000000) validatorJoin_PreTx validatorJoin_InTx.

Definition validatorApprove_PreTx (ctx : TxContext) (tx : Transaction) : task W ValidatorKey :=
  _ ← not_in_migration "cannot approve validator join during migration";
  approve ← tpure CodeEncodingError (p ← payload tx; run_reader (ValidatorKey_read reg) p);
  if bool_decide (slice_bytes (vk_Key approve) = slice_bytes (Sender tx))
  then tfail CodeInvalidSender (ErrMsg "cannot approve own join request")
  else mret approve.

Definition validatorApprove_InTx (d : ValidatorKey) (ctx : TxContext) (tx : Transaction) : task W bytes :=
  t ← tget ap_tables;
  pending ← tpure CodeUnknownError
              (GetResolutionIDsByTypeAndProposer reg t ValidatorJoinEventType (vk_Key d) (vk_KeyType d));
  match pending with
  | [] => tfail CodeInvalidSender (ErrMsg "validator does not have a pending join request")
  | _ :: _ :: _ => tfail CodeUnknownError (ErrMsg "validator has more than one pending join request. this is an internal bug")
  | [id] =>
      keyType ← tpure CodeUnknownError (wrap_err "failed to parse key type" (sender_key_type tx));
      power ← tget (fun st => power_of st (Sender tx) keyType);
      if power <=? 0 then tfail CodeInvalidSender ErrCallerNotValidator
      else
        _ ← tlift CodeUnknownError (approveResolution id (Sender tx) keyType);
        mret []
  end.

Definition validatorApproveRoute : Route W :=
  mkRoute _ (fun _ => Ok 10000000000000) validatorApprove_PreTx validatorApprove_InTx.

Definition validatorRemove_PreTx (ctx : TxContext) (tx : Transaction) : task W ValidatorKey :=
  _ ← not_in_migration "cannot remove validator during migration";
  tpure CodeEncodingError (p ← payload tx; run_reader (ValidatorKey_read reg) p).

Definition validatorRemove_InTx (d : ValidatorKey) (ctx : TxContext) (tx : Transaction) : task W bytes :=
  leader ← tpure CodeUnknownError (proposer_bytes ctx);
  if bool_decide (slice_bytes (vk_Key d) = leader)
  then tfail CodeInvalidSender (ErrMsg "leader cannot be removed from validator set")
  else
    let bts := UpdatePowerRequest_MarshalBinary (mkUpdatePower (vk_Key d) (vk_KeyType d) 0) in
    let event := mkVotableEvent ValidatorRemoveEventType (Some bts) in
    senderKeyType ← tpure CodeUnknownError (wrap_err "failed to parse key type" (sender_key_type tx));
    power ← tget (fun st => power_of st (Sender tx) senderKeyType);
    if power <=? 0 then tfail CodeInvalidSender ErrCallerNotValidator
    else
      target ← tget (fun st => power_of st (vk_Key d) (vk_KeyType d));
      if target <=? 0 then tfail CodeInvalidSender ErrTargetNotValidator
      else
        t ← tget ap_tables;
        expiry ← tget (join_expiry ctx);
        _ ← twhen (negb (ResolutionExists t (event_id event)))
              (tlift CodeUnknownError (createResolution event expiry (Sender tx) senderKeyType));
        _ ← tlift CodeUnknownError (approveResolution (event_id event) (Sender tx) senderKeyType);
        mret [].

Definition validatorRemoveRoute : Route W :=
  mkRoute _ (fun _ => Ok 100000) validatorRemove_PreTx validatorRemove_InTx.

Definition validatorLeave_PreTx (ctx : TxContext) (tx : Transaction) : task W unit :=
  not_in_migration "cannot leave validator during migration".

Definition validatorLeave_InTx (d : unit) (ctx : TxContext) (tx : Transaction) : task W bytes :=
  leader ← tpure CodeUnknownError (proposer_bytes ctx);
  if bool_decide (slice_bytes (Sender tx) = leader)
  then tfail CodeInvalidSender (ErrMsg "leader cannot leave validator set")
  else
    keyType ← tpure CodeInvalidSender (wrap_err "failed to parse key type" (sender_key_type tx));
    power ← tget (fun st => power_of st (Sender tx) keyType);
    if power <=? 0 then tfail CodeInvalidSender ErrCallerNotValidator
    else
      _ ← tlift CodeUnknownError (on_voting (SetValidatorPower reg uuid (Sender tx) keyType 0));
      mret [].

Definition validatorLeaveRoute : Route W :=
  mkRoute _ (fun _ => Ok 10000000000000) validatorLeave_PreTx validatorLeave_InTx.

(** ** Votes *)

Definition voteIDs_Price (tx : Transaction) : result Z :=
  ids ← wrap_err "failed to unmarshal vote IDs" (p ← payload tx; ValidatorVoteIDs_UnmarshalBinary p);
  mret (i64 (zlen ids * ValidatorVoteIDPrice)).

Definition voteIDs_PreTx (ctx : TxContext) (tx : Transaction) : task W unit :=
  not_in_migration "cannot vote during migration".

Fixpoint vote_all (sender : slice) (kt : KeyType) (local : bool) (ids : list bytes) : task W unit :=
  match ids with
  | [] => mret tt
  | voteID :: ids' =>
      _ ← tlift CodeUnknownError (approveResolution voteID sender kt);
      _ ← twhen local (tlift CodeUnknownError (deleteEvent voteID));
      vote_all sender kt local ids'
  end.

(** [bytes.Equal(tx.Sender, app.Service.Identity)] *)
Definition fromLocalValidator (tx : Transaction) : bool :=
  bool_decide (slice_bytes (Sender tx) = nd_Identity N).

Definition voteIDs_InTx (d : unit) (ctx : TxContext) (tx : Transaction) : task W bytes :=
  keyType ← tpure CodeInvalidSender (wrap_err "failed to parse key type" (sender_key_type tx));
  power ← tget (fun st => power_of st (Sender tx) keyType);
  if power =? 0 then tfail CodeInvalidSender ErrCallerNotValidator
  else
    approve ← tpure CodeEncodingError (p ← payload tx; ValidatorVoteIDs_UnmarshalBinary p);
    t ← tget ap_tables;
    _ ← vote_all (Sender tx) keyType (fromLocalValidator tx) (FilterNotProcessed t approve);
    mret [].

Definition validatorVoteIDsRoute : Route W := mkRoute _ voteIDs_Price voteIDs_PreTx voteIDs_InTx.

Definition voteBodies_Price (tx : Transaction) : result Z :=
  votes ← wrap_err "failed to unmarshal vote bodies" (p ← payload tx; ValidatorVoteBodies_UnmarshalBinary p);
  mret (i64 (sum_list_Z (map (fun e => slice_len (ev_Body e)) votes) * ValidatorVoteBodyBytePrice)).

Definition voteBodies_PreTx (ctx : TxContext) (tx : Transaction) : task W (list VotableEvent) :=
  _ ← not_in_migration "cannot vote during migration";
  proposer ← tpure CodeUnknownError (proposer_bytes ctx);
  if negb (bool_decide (slice_bytes (Sender tx) = proposer)) then tfail CodeInvalidSender ErrCallerNotProposer
  else tpure CodeEncodingError (p ← payload tx; ValidatorVoteBodies_UnmarshalBinary p).

Fixpoint create_all (ctx : TxContext) (tx : Transaction) (events : list VotableEvent) : task W unit :=
  match events with
  | [] => mret tt
  | ev :: events' =>
      resCfg ← tpure CodeUnknownError (get_resolution (ev_Type ev));
      keyType ← tpure CodeInvalidSender (wrap_err "failed to parse key type" (sender_key_type tx));
      let expiryHeight := expires_at (bc_Timestamp (tc_Block ctx)) (ExpirationPeriod resCfg) in
      _ ← tlift CodeUnknownError (createResolution ev expiryHeight (Sender tx) keyType);
      _ ← tlift CodeUnknownError (approveResolution (event_id ev) (Sender tx) keyType);
      _ ← twhen (fromLocalValidator tx) (tlift CodeUnknownError (deleteEvent (event_id ev)));
      create_all ctx tx events'
  end.

Definition voteBodies_InTx (d : list VotableEvent) (ctx : TxContext) (tx : Transaction) : task W bytes :=
  _ ← create_all ctx tx d; mret [].

Definition validatorVoteBodiesRoute : Route W := mkRoute _ voteBodies_Price voteBodies_PreTx voteBodies_InTx.

(** ** Resolutions *)

Definition createResolution_Price (tx : Transaction) : result Z :=
  res ← wrap_err "failed to unmarshal create resolution payload"
          (p ← payload tx; CreateResolution_UnmarshalBinary p);
  mret (i64 (slice_len (ev_Body res) * ValidatorVoteBodyBytePrice)).

Definition createResolution_PreTx (ctx : TxContext) (tx : Transaction) : task W (VotableEvent * Z) :=
  _ ← not_in_migration "cannot create resolution during migration";
  res ← tpure CodeEncodingError (p ← payload tx; CreateResolution_UnmarshalBinary p);
  ms ← tget (fun st => MigrationStatus (params st));
  if MigrationStatus_Active ms && bool_decide (ev_Type res = StartMigrationEventType)
  then tfail CodeNetworkInMigration (ErrMsg "migration is about to start, cannot accept new migration proposals")
  else
    resCfg ← tpure CodeInvalidResolutionType (get_resolution (ev_Type res));
    mret (res, expires_at (bc_Timestamp (tc_Block ctx)) (ExpirationPeriod resCfg)).

(** The guard of the routes that only validators may use. *)
Definition only_validators (tx : Transaction) : task W KeyType :=
  keyType ← tpure CodeInvalidSender (sender_key_type tx);
  power ← tget (fun st => power_of st (Sender tx) keyType);
  if power <=? 0 then tfail CodeInvalidSender ErrCallerNotValidator
  else mret keyType.

Definition createResolution_InTx (d : VotableEvent * Z) (ctx : TxContext) (tx : Transaction) : task W bytes :=
  keyType ← only_validators tx;
  _ ← tlift CodeUnknownError (createResolution d.1 d.2 (Sender tx) keyType);
  _ ← tlift CodeUnknownError (approveResolution (event_id d.1) (Sender tx) keyType);
  mret [].

Definition createResolutionRoute : Route W :=
  mkRoute _ createResolution_Price createResolution_PreTx createResolution_InTx.

Definition approveResolution_PreTx (ctx : TxContext) (tx : Transaction) : task W bytes :=
  _ ← not_in_migration "cannot approve a resolution during migration";
  tpure CodeEncodingError (p ← payload tx; ResolutionID_UnmarshalBinary p).

Definition approveResolution_InTx (id : bytes) (ctx : TxContext) (tx : Transaction) : task W bytes :=
  keyType ← only_validators tx;
  t ← tget ap_tables;
  resolution ← tpure CodeUnknownError (GetResolutionInfo reg uuid t id);
  ms ← tget (fun st => MigrationStatus (params st));
  if MigrationStatus_Active ms && bool_decide (res_Type resolution = StartMigrationEventType)
  then tfail CodeNetworkInMigration (ErrMsg "migration is about to start, cannot accept new migration proposals")
  else
    _ ← tlift CodeUnknownError (approveResolution id (Sender tx) keyType);
    mret [].

Definition approveResolutionRoute : Route W :=
  mkRoute _ (fun _ => Ok ValidatorVoteIDPrice) approveResolution_PreTx approveResolution_InTx.

(** ** The routes table *)

Definition RegisterRoute (payloadType : bytes) (route : Route W) (routes : gmap (list byte) (Route W))
  : result (gmap (list byte) (Route W)) :=
  match routes !! payloadType with
  | Some _ => Err (ErrMsg "route for payload type already exists")
  | None => Ok (<[payloadType := route]> routes)
  end.

(** The registrations of the init function. *)
Definition native_routes : list (bytes * Route W) :=
  [(PayloadTypeRawStatement, rawStatementRoute);
   (PayloadTypeExecute, executeActionRoute);
   (PayloadTypeTransfer, transferRoute);
   (PayloadTypeValidatorJoin, validatorJoinRoute);
   (PayloadTypeValidatorApprove, validatorApproveRoute);
   (PayloadTypeValidatorRemove, validatorRemoveRoute);
   (PayloadTypeValidatorLeave, validatorLeaveRoute);
   (PayloadTypeValidatorVoteIDs, validatorVoteIDsRoute);
   (PayloadTypeValidatorVoteBodies, validatorVoteBodiesRoute);
   (PayloadTypeCreateResolution, createResolutionRoute);
   (PayloadTypeApproveResolution, approveResolutionRoute)].

Definition routes : gmap (list byte) (Route W) := list_to_map native_routes.

Definition getRoute (name : bytes) : option (Route W) := routes !! name.

(** ** Execution *)

Record TxResponse := mkTxResponse {
  ResponseCode : Z;
  Spend : Z;
  Log : bytes;
  Error : option error
}.

Definition txRes (spend : option Z) (code : Z) (log : bytes) (err : option error) : TxResponse :=
  mkTxResponse code (i64 (default 0 spend)) log err.

(** What the deferred recovery of [Execute] answers. *)
Definition recovered (spend : option Z) (e : error) : TxResponse :=
  txRes spend CodeUnknownError [] (Some (ErrMsg "panic executing transaction")).

(** [PreTx] and [InTx]; a failure of [InTx] rolls its nested transaction back,
    the outer one is committed in any case. *)
Definition run_route (d : Route W) (ctx : TxContext) (spend : option Z) (tx : Transaction)
  : W -> TxResponse * W := fun st =>
  let failed code log e := if is_panic e then recovered spend e else txRes spend code log (Some e) in
  match rt_PreTx d ctx tx st with
  | (Failed code _ e, st1) => (failed code [] e, st1)
  | (Done fields, st1) =>
      match rt_InTx d fields ctx tx st1 with
      | (Failed code log e, st2) => (failed code log e, restore st1 st2)
      | (Done log, st2) => (txRes spend CodeOk log None, st2)
      end
  end.

(** The codes of a failed [checkAndSpend] whose spend is kept. *)
Definition spend_kept (code : Z) : bool :=
  (code =? CodeOk) || (code =? CodeInsufficientBalance) || (code =? CodeInsufficientFee).

Definition baseRoute_Execute (d : Route W) (ctx : TxContext) (tx : Transaction)
  : W -> TxResponse * W := fun st =>
  match checkAndSpend tx (rt_Price d) st with
  | (Err e, st1) => (recovered None e, restore st st1)
  | (Ok (spend, code, err), st1) =>
      match err with
      | Some e => (txRes spend code [] (Some e), if spend_kept code then st1 else restore st st1)
      | None => run_route d ctx spend tx st1
      end
  end.

Definition trackValidatorJoinApprovals (body : TransactionBody) (tx : Transaction) (st : W) : W :=
  if negb (bool_decide (PayloadType body = PayloadTypeValidatorApprove)) then st
  else if negb (bool_decide (slice_bytes (Sender tx) = nd_CompactID N)) then st
  else match run_reader (ValidatorKey_read reg) (slice_bytes (Tx.Payload body)) with
  | Err _ => st
  | Ok approve =>
      set_joins st (ap_approvedJoins st ++ [mkAccountID (vk_Key approve) (vk_KeyType approve)])
  end.

Definition Execute (ctx : TxContext) (tx : Transaction) : W -> TxResponse * W := fun st =>
  match tx_Signature tx with
  | None => (txRes None CodeInvalidTxType [] (Some (ErrMsg "transaction signature is required")), st)
  | Some _ =>
  match tx_Body tx with
  | None => (recovered None (ErrPanic "nil pointer dereference"), st)
  | Some body =>
  match ValidatePayloadEncoding reg (PayloadType body) (slice_bytes (Tx.Payload body)) with
  | Err e =>
      (if is_panic e then recovered None e else txRes None CodeEncodingError [] (Some e), st)
  | Ok _ =>
  match getRoute (PayloadType body) with
  | None => (txRes None CodeInvalidTxType [] (Some (ErrWrap "" ErrUnknownPayloadType)), st)
  | Some route => baseRoute_Execute route ctx tx (trackValidatorJoinApprovals body tx st)
  end
  end
  end
  end.

(** [Price]. *)
Definition Price (tx : Transaction) (st : W) : result Z :=
  if DisabledGasCosts (params st) then Ok 0
  else match tx_Body tx with
  | None => Err (ErrPanic "nil pointer dereference")
  | Some body =>
      match getRoute (PayloadType body) with
      | None => Err (ErrWrap "" ErrUnknownPayloadType)
      | Some route => rt_Price route tx
      end
  end.

Definition validatorSetPower (st : W) : Z :=
  foldl (fun total v => i64 (total + Power v)) 0 (GetValidators (ap_votes st)).

Definition UpdateValidator (pubKey : slice) (kt : KeyType) (power : Z) : action W unit :=
  on_voting (SetValidatorPower reg uuid pubKey kt power).
End txapp.
