(* ===== verification/TxFacts.v ===== *)
(** * Properties of transaction execution

    What [Execute] of TxApp.v does to the ledger that the account store
    represents, to the voting tables and to the other data of the application:
    a failed transaction costs its sender the reported spend and changes
    nothing else, a transaction is not executed twice, and votes come from
    validators. *)

From S2P Require Import Prelude.
From S2P Require Import Wire.
From S2P Require Import BigInt.
From S2P Require Import Keys.
From S2P Require Import Ident.
From S2P Require Import Order.
From S2P Require Import Tx.
From S2P Require Import Params.
From S2P Require Import Payloads.
From S2P Require Import Values.
From S2P Require Import Auth.
From S2P Require Import Cache.
From S2P Require Import Accounts.
From S2P Require Import Voting.
From S2P Require Import Events.
From S2P Require Import TxApp.
From Stdlib Require Import Strings.Byte.

#[local] Open Scope Z_scope.

(** ** Assumptions on a node *)

Section facts.
Context {C : Type} `{HC : Cache (list byte) Account C} {X : Type}.
Context `{HS : Strings} `{HD : Decimals}.
#[local] Abbreviation W := (App C X).
Context `{HE : !Engine W}.
Context (N : Node W).

#[local] Abbreviation reg := (nd_keys N).
Implicit Types (st : W) (tx : Transaction) (L : ledger).

Definition set_engine (st : W) (x : X) : W :=
  mkApp (ap_accounts st) (ap_votes st) (ap_tables st) (ap_events st) x (ap_chain st) (ap_mempool st)
    (ap_approvedJoins st).

(** The key types of the registry and of the authenticators identify accounts,
    and the engine changes only its own data. *)
Record node_ok : Prop := mkNodeOk {
  ok_reg : reg_ok reg;
  ok_keys : forall kt kd, keyTypes reg !! kt = Some kd -> kd_EncodeFlag kd <= int4_max /\ x23 ∉ kt;
  ok_auth : forall name a, nd_auth N !! name = Some a -> is_Some (keyTypes reg !! authn_KeyType a);
  ok_execute : forall ctx stmt ps st, exists x, snd (engine_Execute ctx stmt ps st) = set_engine st x;
  ok_call : forall ctx ns act args st, exists x, snd (engine_Call ctx ns act args st) = set_engine st x
}.

Context (HN : node_ok).

Lemma usable_key i kt : is_Some (keyTypes reg !! kt) -> is_Some (ledger_key reg (mkAccountID (Some i) kt)).
Proof using HN.
  intros [kd E]. destruct (ok_keys HN _ _ E) as [Hle Hh]. unfold ledger_key. cbn. rewrite E.
  by rewrite (proj2 (Z.leb_le _ _)), bool_decide_eq_true_2 by done.
Qed.

Lemma sender_usable tx id : TxSenderAcctID N tx = Ok id -> is_Some (ledger_key reg id).
Proof using HN.
  unfold TxSenderAcctID. destruct (tx_Signature tx) as [sig|]; [|done]. destruct (Sender tx) as [s|]; [|done].
  intros (kt & E & <-%(inj Ok))%result_bind_Ok. apply usable_key.
  unfold GetAuthenticatorKeyType, GetAuthenticator in E.
  destruct (nd_auth N !! ToLower (sig_Type sig)) as [a|] eqn:Ea; [|done]. apply (inj Ok) in E as <-. by eapply ok_auth.
Qed.

(** ** Spending *)

#[local] Abbreviation agrees_app st := (agrees reg false (ap_accounts st)).

Lemma on_accounts_run {A} (m : action (Accounts C) A) (st : W) r a :
  m (ap_accounts st) = (r, a) -> on_accounts m st = (r, set_accounts st a).
Proof. intros E. unfold on_accounts. by rewrite E. Qed.

Lemma acatch_run {A} (m : action W A) st r st' :
  m st = (r, st') -> (forall e, r = Err e -> is_panic e = false) -> acatch m st = (Ok r, st').
Proof. intros E Hp. unfold acatch. rewrite E. destruct r as [a|e]; [done|]. by rewrite Hp. Qed.

Lemma set_accounts_twice (st : W) a a' : set_accounts (set_accounts st a) a' = set_accounts st a'.
Proof. done. Qed.

Lemma set_accounts_id (st : W) : set_accounts st (ap_accounts st) = st.
Proof. by destruct st. Qed.

Lemma ledger_spend_no_panic L k s n e : ledger_spend L k s n = Err e -> is_panic e = false.
Proof.
  unfold ledger_spend. destruct (s <? 0); [by intros [= <-]|].
  destruct (L !! k) as [[b m]|].
  - destruct (negb _); [by intros [= <-]|]. destruct (_ <? 0); [by intros [= <-]|done].
  - destruct (_ && _); [done|by intros [= <-]].
Qed.

(** One call of [Spend] under [acatch]. *)
Lemma spend_run st L L0 id k s nonce :
  agrees_app st L L0 -> ledger_key reg id = Some k ->
  exists a', acatch (on_accounts (Spend_ reg id (Some s) nonce)) st =
      (Ok (match ledger_spend L k s nonce with Ok _ => Ok tt | Err e => Err e end), set_accounts st a') /\
    agrees reg false a' (match ledger_spend L k s nonce with Ok L' => L' | Err _ => L end) L0.
Proof using HN.
  intros R Hk. destruct (Spend_implements reg (ok_reg HN) _ _ _ id k s nonce R Hk) as (a' & Hi).
  exists a'. destruct (ledger_spend L k s nonce) as [L'|e] eqn:E; destruct Hi as [Em Ha]; (split; [|done]);
    (eapply acatch_run; [by apply on_accounts_run|]).
  - done.
  - intros e' [= <-]. by eapply ledger_spend_no_panic.
Qed.

Lemma get_run st L L0 id k :
  agrees_app st L L0 -> ledger_key reg id = Some k ->
  exists acct a', acatch (on_accounts (GetAccount reg ConsensusTx id)) st = (Ok (Ok acct), set_accounts st a') /\
    agrees reg false a' L L0.
Proof using HN.
  intros R Hk. destruct (GetAccount_tx_spec reg (ok_reg HN) _ _ _ id k R Hk) as (a' & E & R' & _).
  do 2 eexists. split; [|done]. eapply acatch_run; [by apply on_accounts_run|done].
Qed.

(** The effect of [checkAndSpend] on the ledger. *)
Inductive spent (tx : Transaction) (L : ledger) : spending -> ledger -> Prop :=
  | spent_nothing code e :
      spent tx L (None, code, Some e) L
  | spent_some body id k s code e L' :
      tx_Body tx = Some body -> TxSenderAcctID N tx = Ok id -> ledger_key reg id = Some k ->
      ledger_spend L k s (i64 (Nonce body)) = Ok L' -> spend_kept code = true ->
      spent tx L (Some s, code, Some e) L'
  | spent_price body id k s fee L' :
      tx_Body tx = Some body -> TxSenderAcctID N tx = Ok id -> ledger_key reg id = Some k ->
      ledger_spend L k s (i64 (Nonce body)) = Ok L' -> Fee body = Some fee -> s <= fee ->
      spent tx L (Some s, CodeOk, None) L'.

Lemma spend_rest_spec st L L0 tx body id k not_found :
  tx_Body tx = Some body -> TxSenderAcctID N tx = Ok id -> ledger_key reg id = Some k ->
  agrees_app st L L0 -> (forall e, exists code e', not_found e = (None, code, Some e')) ->
  exists sp a' L', spend_rest N id (i64 (Nonce body)) not_found st = (Ok sp, set_accounts st a') /\
    agrees reg false a' L' L0 /\ spent tx L sp L'.
Proof using HN.
  intros Hb Hid Hk R Hnf. unfold spend_rest.
  destruct (get_run _ _ _ _ _ R Hk) as (acct & a1 & E1 & R1).
  rewrite (action_bind_Ok _ _ _ _ _ E1). cbv beta iota.
  destruct (spend_run (set_accounts st a1) L L0 id k (Balance acct) (i64 (Nonce body)) R1 Hk) as (a2 & E2 & R2).
  rewrite (action_bind_Ok _ _ _ _ _ E2). cbv beta iota. rewrite set_accounts_twice.
  destruct (ledger_spend L k (Balance acct) (i64 (Nonce body))) as [L'|e] eqn:El.
  - do 3 eexists. split; [reflexivity|]. split; [done|]. by eapply spent_some.
  - destruct (Hnf e) as (code & e' & Enf). rewrite Enf.
    do 3 eexists. split; [reflexivity|]. split; [done|]. constructor.
Qed.

Lemma spend_failed_none e : exists code e', spend_failed e = (None, code, Some e').
Proof. unfold spend_failed, zero_balance. destruct (errors_is _ _); eauto. Qed.

(** [checkAndSpend] changes only the accounts; a panic of the price leaves the
    ledger as it is. *)
Lemma checkAndSpend_spec tx price st L L0 :
  agrees_app st L L0 ->
  exists r a' L', checkAndSpend N tx price st = (r, set_accounts st a') /\ agrees reg false a' L' L0 /\
    match r with
    | Ok sp => spent tx L sp L'
    | Err e => L' = L /\ is_panic e = true
    end.
Proof using HN.
  intros R. unfold checkAndSpend.
  assert (forall code e, exists r a' L', refused code e st = (r, set_accounts st a') /\ agrees reg false a' L' L0 /\
    match r with Ok sp => spent tx L sp L' | Err e => L' = L /\ is_panic e = true end) as Href.
  { intros code e. exists (Ok (None, code, Some e)), (ap_accounts st), L.
    rewrite set_accounts_id. split_and!; [done..|constructor]. }
  destruct (tx_Body tx) as [body|] eqn:Hb; [|apply Href].
  destruct (Fee body) as [fee|] eqn:Hfee; [|apply Href].
  destruct (Z.ltb_spec fee 0) as [Hneg|Hneg]; [apply Href|].
  rewrite (action_bind_Ok _ _ _ _ _ (eq_refl : gets _ st = _)). cbv beta.
  assert (exists r, (if DisabledGasCosts (params st) then mret (Ok 0) else acatch (alift (price tx))) st = (r, st) /\
    match r with Err e => is_panic e = true | _ => True end) as (r & Er & Hr).
  { destruct (DisabledGasCosts (params st)); [by exists (Ok (Ok 0))|].
    unfold acatch, alift. destruct (price tx) as [amt|e]; [by exists (Ok (Ok amt))|].
    destruct (is_panic e) eqn:Hp; [by exists (Err e)|by exists (Ok (Err e))]. }
  destruct r as [ramt|e].
  2: { rewrite (action_bind_Err _ _ _ _ _ Er). exists (Err e), (ap_accounts st), L.
       rewrite set_accounts_id. by split_and!. }
  rewrite (action_bind_Ok _ _ _ _ _ Er). cbv beta. clear Er Hr.
  destruct ramt as [amt|e]; [|apply Href].
  destruct (TxSenderAcctID N tx) as [id|e] eqn:Hid; [|apply Href].
  destruct (sender_usable _ _ Hid) as [k Hk].
  destruct (get_run _ _ _ _ _ R Hk) as (acct & a1 & E1 & R1).
  rewrite (action_bind_Ok _ _ _ _ _ E1). cbv beta zeta. clear E1 acct.
  assert (forall s nf, (forall e, exists code e', nf e = (None, code, Some e')) -> forall code e,
    (if bool_decide (e = None) then code = CodeOk /\ s <= fee else spend_kept code = true) ->
    exists r a' L', (r ← acatch (on_accounts (Spend_ reg id (Some s) (i64 (Nonce body))));
        match r with
        | Err err => if errors_is err ErrInsufficientFunds then spend_rest N id (i64 (Nonce body)) nf
                     else mret (spend_failed err)
        | Ok _ => mret (Some s, code, e)
        end) (set_accounts st a1) = (r, set_accounts st a') /\ agrees reg false a' L' L0 /\
      match r with Ok sp => spent tx L sp L' | Err e => L' = L /\ is_panic e = true end) as Hmain.
  { intros s nf Hnf code e Hc.
    destruct (spend_run (set_accounts st a1) L L0 id k s (i64 (Nonce body)) R1 Hk) as (a2 & E2 & R2).
    rewrite (action_bind_Ok _ _ _ _ _ E2). cbv beta iota. rewrite set_accounts_twice.
    destruct (ledger_spend L k s (i64 (Nonce body))) as [L'|err] eqn:El.
    - do 3 eexists. split; [reflexivity|]. split; [done|]. destruct e as [e|]; cbn in Hc.
      + by eapply spent_some.
      + destruct Hc as [-> Hle]. by eapply spent_price.
    - destruct (errors_is err ErrInsufficientFunds).
      + destruct (spend_rest_spec (set_accounts st a2) L L0 tx body id k nf Hb Hid Hk R2 Hnf)
          as (sp & a3 & L' & E3 & R3 & Hs). exists (Ok sp), a3, L'. by rewrite E3.
      + destruct (spend_failed_none err) as (code' & e' & ->).
        do 3 eexists. split; [reflexivity|]. split; [done|]. constructor. }
  destruct (Z.ltb_spec fee amt) as [Hlt|Hge].
  - apply Hmain; [|done]. intros e. unfold rest_not_found, zero_balance. destruct (errors_is _ _); eauto.
  - apply Hmain; [by eauto|]. done.
Qed.

(** ** Routes *)

(** Only the data in the database changes. *)
Definition db_only st st' : Prop :=
  exists t d x, st' = mkApp (ap_accounts st) (ap_votes st) t (es_set_deleted (ap_events st) d) x
    (ap_chain st) (ap_mempool st) (ap_approvedJoins st).

Lemma db_only_refl st : db_only st st.
Proof. exists (ap_tables st), (deleted (ap_events st)), (ap_engine st). by destruct st as [? ? ? []]. Qed.

Lemma db_only_trans st1 st2 st3 : db_only st1 st2 -> db_only st2 st3 -> db_only st1 st3.
Proof. intros (t & d & x & ->) (t' & d' & x' & ->). by exists t', d', x'. Qed.

Lemma db_only_restore st st' : db_only st st' -> restore st st' = st.
Proof. intros (t & d & x & ->). by destruct st as [[] ? ? [] ? ? ? ?]. Qed.

#[export] Instance db_only_preorder : PreOrder db_only.
Proof. split; [exact db_only_refl|exact db_only_trans]. Qed.

Lemma on_tables_db_only f st : db_only st (snd (on_tables f st)).
Proof.
  unfold on_tables. destruct (f (ap_tables st)) as [t|e]; [|apply db_only_refl].
  exists t, (deleted (ap_events st)), (ap_engine st). by destruct st as [? ? ? []].
Qed.

Lemma delete_db_only id st : db_only st (snd (deleteEvent id st)).
Proof.
  exists (ap_tables st), ({[id]} ∪ deleted (ap_events st)), (ap_engine st). by destruct st as [? ? ? []].
Qed.

Lemma set_engine_db_only st x : db_only st (set_engine st x).
Proof. exists (ap_tables st), (deleted (ap_events st)), x. by destruct st as [? ? ? []]. Qed.
End facts.

(** ** Steps of routes *)

Section respects.
Context {S : Type} (R : relation S) `{HR : !PreOrder R}.

(** Every run of the computation is a step of [R]. *)
Definition respects {A} (m : task S A) : Prop := forall st, R st (snd (m st)).

Lemma respects_ret {A} (a : A) : respects (mret a).
Proof using HR. intros st. cbn. reflexivity. Qed.

Lemma respects_bind {A B} (m : task S A) (k : A -> task S B) :
  respects m -> (forall a, respects (k a)) -> respects (m ≫= k).
Proof using HR.
  intros Hm Hk st. specialize (Hm st). unfold mbind, task_bind. destruct (m st) as [[a|] st']; [|done].
  etransitivity; [done|apply Hk].
Qed.

Lemma respects_fail {A} code e : respects (tfail code e : task S A).
Proof using HR. intros st. cbn. reflexivity. Qed.

Lemma respects_get {A} (f : S -> A) : respects (tget f).
Proof using HR. intros st. cbn. reflexivity. Qed.

Lemma respects_pure {A} code (r : result A) : respects (tlift code (alift r)).
Proof using HR. intros st. unfold tlift, tcoded, alift. destruct r; cbn; reflexivity. Qed.

(** What a pure step returns is known to the steps after it. *)
Lemma respects_bind_pure {A B} code (r : result A) (k : A -> task S B) :
  (forall a, r = Ok a -> respects (k a)) -> respects (tlift code (alift r) ≫= k).
Proof using HR.
  intros Hk st. unfold mbind, task_bind, tlift, tcoded, alift. destruct r as [a|e]; [by apply Hk|cbn; reflexivity].
Qed.

Lemma respects_when b (m : task S unit) : respects m -> respects (twhen b m).
Proof using HR. intros Hm st. destruct b; [apply Hm|cbn; reflexivity]. Qed.

Lemma respects_coded {A} code (m : action S A) : (forall st, R st (snd (m st))) -> respects (tcoded code m).
Proof. intros Hm st. specialize (Hm st). unfold tcoded. by destruct (m st) as [[] ?]. Qed.
End respects.

Create HintDb routes.
#[export] Hint Resolve respects_ret respects_fail respects_get respects_pure : routes.

(** Go through the binds and conditionals of a route. *)
Ltac route :=
  repeat first
    [ solve [auto with routes]
    | apply respects_pure; apply _
    | apply respects_bind_pure; intros
    | match goal with H : wrap_err _ _ = Ok _ |- _ => apply wrap_err_Ok in H end
    | apply respects_bind; [apply _| |intros]
    | apply respects_when; [apply _|]
    | match goal with |- respects _ (if ?b then _ else _) => destruct b end
    | match goal with |- respects _ (match ?x with _ => _ end) => destruct x end ].

Section routes.
Context {C : Type} `{HC : Cache (list byte) Account C} {X : Type}.
Context `{HS : Strings} `{HD : Decimals}.
#[local] Abbreviation W := (App C X).
Context `{HE : !Engine W}.
Context (N : Node W) (HN : node_ok N).
#[local] Abbreviation reg := (nd_keys N).
#[local] Abbreviation agrees_app st := (agrees reg false (ap_accounts st)).
Implicit Types (st : W) (tx : Transaction) (L : ledger).

(** All routes but transfers and leaving. *)
Definition db_routes : list (Route W) :=
  [rawStatementRoute; executeActionRoute; validatorJoinRoute N; validatorApproveRoute N; validatorRemoveRoute N;
   validatorVoteIDsRoute N; validatorVoteBodiesRoute N; createResolutionRoute N; approveResolutionRoute N].

Section steps.
Context (R : relation W) `{HR : !PreOrder R} (tx : Transaction).
Hypothesis Hcreate : forall ev x p kt st, R st (snd (createResolution N ev x p kt st)).
Hypothesis Happrove : forall id kt st,
  sender_key_type N tx = Ok kt -> R st (snd (approveResolution N id (Sender tx) kt st)).
Hypothesis Hdelete : forall id st, R st (snd (deleteEvent id st)).
Hypothesis Hengine : forall st x, R st (set_engine st x).

Lemma step_create code ev x p kt : respects R (tlift code (createResolution N ev x p kt)).
Proof using Hcreate. apply respects_coded, Hcreate. Qed.

Lemma step_approve code id kt :
  sender_key_type N tx = Ok kt -> respects R (tlift code (approveResolution N id (Sender tx) kt)).
Proof using Happrove. intros Hkt. apply respects_coded. intros st. by apply Happrove. Qed.

Lemma step_delete code id : respects R (tlift code (deleteEvent id)).
Proof using Hdelete. apply respects_coded, Hdelete. Qed.
#[local] Hint Resolve step_create step_approve step_delete : routes.

Lemma vote_all_steps kt local ids :
  sender_key_type N tx = Ok kt -> respects R (vote_all N (Sender tx) kt local ids).
Proof using Happrove Hdelete HR. intros Hkt. induction ids as [|id ids IH]; cbn [vote_all]; route. Qed.

Lemma create_all_steps ctx evs : respects R (create_all N ctx tx evs).
Proof using Happrove Hdelete Hcreate HR. induction evs as [|ev evs IH]; cbn [create_all]; route. Qed.

Lemma call_all_steps ctx ns act args logs : respects R (call_all ctx ns act args logs).
Proof using HN Hengine HR.
  revert logs. induction args as [|a args IH]; intros logs st; cbn [call_all]; [cbn; reflexivity|].
  destruct (ok_call N HN (makeEngineCtx ctx) ns act a st) as [x Ex].
  destruct (engine_Call (makeEngineCtx ctx) ns act a st) as [[res err] st']. cbn [snd] in Ex. subst st'.
  pose proof (Hengine st x). destruct err as [e|]; [done|]. destruct res as [r|]; [|done].
  destruct (cr_Error r); [done|]. etransitivity; [done|apply IH].
Qed.

Lemma only_validators_steps {A} (k : KeyType -> task W A) :
  (forall kt, sender_key_type N tx = Ok kt -> respects R (k kt)) -> respects R (only_validators N tx ≫= k).
Proof using HR.
  clear Happrove. intros Hk st. unfold only_validators, mbind, task_bind, tpure, tlift, tcoded, alift, tget.
  destruct (sender_key_type N tx) as [kt|e] eqn:E; [|cbn; reflexivity].
  destruct (_ <=? 0); [cbn; reflexivity|]. by apply Hk.
Qed.

Lemma db_routes_steps d fields ctx : d ∈ db_routes -> respects R (rt_InTx d fields ctx tx).
Proof using HN Hcreate Happrove Hdelete Hengine HR.
  intros Hd. repeat (apply elem_of_cons in Hd as [->|Hd]); [..|by apply not_elem_of_nil in Hd]; cbn [rt_InTx
    rawStatementRoute executeActionRoute validatorJoinRoute validatorApproveRoute validatorRemoveRoute
    validatorVoteIDsRoute validatorVoteBodiesRoute createResolutionRoute approveResolutionRoute].
  - unfold rawStatement_InTx. route. apply respects_coded. intros st.
    destruct (ok_execute N HN (makeEngineCtx ctx) fields.1 fields.2 st) as [x ->]. apply Hengine.
  - apply call_all_steps.
  - unfold validatorJoin_InTx. route.
  - unfold validatorApprove_InTx. route.
  - unfold validatorRemove_InTx. route.
  - unfold voteIDs_InTx. route. by apply vote_all_steps.
  - unfold voteBodies_InTx. route. apply create_all_steps.
  - unfold createResolution_InTx. apply only_validators_steps. intros kt Hkt. route.
  - unfold approveResolution_InTx. apply only_validators_steps. intros kt Hkt. route.
Qed.

(** [PreTx] only reads the state. *)
Lemma step_migration msg : respects R (not_in_migration msg : task W unit).
Proof using HR. unfold not_in_migration. route. Qed.
#[local] Hint Resolve step_migration : routes.

Lemma PreTx_steps ty d ctx : getRoute N ty = Some d -> respects R (rt_PreTx d ctx tx).
Proof using HR.
  unfold getRoute, routes. intros E%elem_of_list_to_map_2. unfold native_routes in E.
  repeat (apply elem_of_cons in E as [[= -> ->]|E]); [..|by apply not_elem_of_nil in E]; cbn [rt_PreTx
    rawStatementRoute executeActionRoute transferRoute validatorJoinRoute validatorApproveRoute
    validatorRemoveRoute validatorLeaveRoute validatorVoteIDsRoute validatorVoteBodiesRoute
    createResolutionRoute approveResolutionRoute];
  unfold rawStatement_PreTx, executeAction_PreTx, transfer_PreTx, validatorJoin_PreTx, validatorApprove_PreTx,
    validatorRemove_PreTx, validatorLeave_PreTx, voteIDs_PreTx, voteBodies_PreTx, createResolution_PreTx,
    approveResolution_PreTx; route.
Qed.
End steps.

Lemma PreTx_reads ty d ctx tx st : getRoute N ty = Some d -> snd (rt_PreTx d ctx tx st) = st.
Proof. intros Hd. symmetry. by apply (PreTx_steps (=) tx ty). Qed.

Lemma db_routes_keep d fields ctx tx st : d ∈ db_routes -> db_only st (snd (rt_InTx d fields ctx tx st)).
Proof using HN.
  intros Hd. apply (db_routes_steps db_only tx); [..|done]; intros.
  - apply on_tables_db_only.
  - apply on_tables_db_only.
  - apply delete_db_only.
  - apply set_engine_db_only.
Qed.

(** ** Transfers *)

(** Reading any account keeps the agreement. *)
Lemma getAccount_keeps id (a : Accounts C) L L0 :
  agrees reg false a L L0 ->
  exists r a', getAccount reg ConsensusTx id true a = (r, a') /\ agrees reg false a' L L0.
Proof using HN.
  intros R. destruct (ledger_key reg id) as [k|] eqn:Hk.
  { destruct (getAccount_spec reg (ok_reg N HN) _ _ _ _ _ R Hk) as (a' & E & R' & _). eauto. }
  unfold getAccount. destruct (updates a !! acctMapKey id); [eauto|].
  destruct (c_get (records a) (acctMapKey id)) as [hit recs] eqn:Eg.
  pose proof (refines_get reg a L L0 (acctMapKey id) R) as R'. rewrite Eg in R'. cbn [snd] in R'.
  destruct hit; [eauto|]. assert (exists e, sql_getAccount reg (exec_table ConsensusTx (set_records a recs)) id = Err e)
    as [e ->]; [|eauto].
  unfold sql_getAccount, KeyTypeDefinition. destruct (keyTypes reg !! acct_KeyType id) as [kd|] eqn:Ekd; [|eauto].
  destruct id as [[i|] kt]; cbn [Identifier acct_KeyType] in *.
  - destruct (usable_key N HN i kt) as [k Hk']; [by rewrite Ekd|]. congruence.
  - unfold sql_key. destruct (_ <? _); cbn; eauto.
Qed.

(** A failed transfer keeps the ledger. *)
Lemma Transfer_failed from to amt (a a' : Accounts C) L L0 kf e :
  agrees reg false a L L0 -> ledger_key reg from = Some kf ->
  Accounts.Transfer reg from to (Some amt) a = (Err e, a') -> agrees reg false a' L L0.
Proof using HN.
  intros R Hf E. destruct (ledger_key reg to) as [kt|] eqn:Ht.
  { destruct (Transfer_implements reg (ok_reg N HN) _ _ _ _ _ _ _ amt R Hf Ht) as (a1 & Hi).
    destruct (ledger_transfer L kf kt amt); destruct Hi as [E' R']; congruence. }
  unfold Accounts.Transfer in E. destruct (amt <? 0); [unfold afail in E; by simplify_eq|].
  unfold nested_tx in E. destruct (Transfer_body reg from to amt a) as [[[]|e'] a1] eqn:Eb; [done|].
  simplify_eq. apply refines_nested; [done|]. revert Eb. unfold Transfer_body, mbind, action_bind.
  destruct (getAccount_spec reg (ok_reg N HN) _ _ _ _ _ R Hf) as (a2 & -> & R2 & _).
  destruct (L !! kf) as [[b n]|]; [|by intros [= ? <-]]. destruct (_ <? 0); [by intros [= ? <-]|].
  unfold atry. destruct (getAccount_keeps to a2 L L0 R2) as (r & a3 & -> & R3).
  destruct r as [receiver|err].
  - unfold updateAccount at 1. destruct (KeyTypeDefinition reg (acct_KeyType to)) as [kd|] eqn:Ekd; [|by intros [= ? <-]].
    assert (Identifier to = None) as Hnil.
    { destruct to as [[i|] kt]; [|done]. destruct (usable_key N HN i kt) as [k Hk']; [by exists kd|].
      cbn in Ht, Hk'. congruence. }
    unfold sql_updateAccount, sql_key. rewrite Hnil. destruct (_ <? _); [by intros [= ? <-]|]. cbn [mbind result_bind mret result_ret fmap option_fmap option_map].
    pose proof Hf as (kd' & Ei & Ekd' & Ef & Hle & _)%ledger_key_inv.
    unfold updateAccount, KeyTypeDefinition. rewrite Ekd'. unfold sql_updateAccount, sql_key.
    rewrite Ei, Ef, (proj2 (Z.ltb_ge _ _)) by done. done.
  - destruct (errors_is err ErrAccountNotFound); [|by intros [= ? <-]].
    unfold createAccount. destruct (KeyTypeDefinition reg (acct_KeyType to)) as [kd|] eqn:Ekd; [|by intros [= ? <-]].
    assert (Identifier to = None) as Hnil.
    { destruct to as [[i|] kt]; [|done]. destruct (usable_key N HN i kt) as [k Hk']; [by exists kd|].
      cbn in Ht, Hk'. congruence. }
    unfold sql_createAccount, sql_key. rewrite Hnil. destruct (_ <? _); by intros [= ? <-].
Qed.

(** ** Failures *)

Lemma getRoute_cases ty d :
  getRoute N ty = Some d -> d ∈ db_routes \/ d = transferRoute N \/ d = validatorLeaveRoute N.
Proof.
  unfold getRoute, routes. intros E%elem_of_list_to_map_2. unfold native_routes, db_routes in *.
  repeat (apply elem_of_cons in E as [[= -> ->]|E]); [..|by apply not_elem_of_nil in E]; auto;
    left; repeat (apply elem_of_cons; first [by left|right]).
Qed.

Lemma restore_id st : restore st st = st.
Proof. apply db_only_restore, db_only_refl. Qed.

Lemma leave_InTx_cases d ctx tx st :
  snd (validatorLeave_InTx N d ctx tx st) = st \/
  exists kt vt, validatorLeave_InTx N d ctx tx st = (Done [], set_voting st vt) /\
    sender_key_type N tx = Ok kt /\ 0 < power_of st (Sender tx) kt /\
    SetValidatorPower reg (nd_uuid N) (Sender tx) kt 0 (ap_votes st, ap_tables st) = (Ok tt, vt).
Proof.
  unfold validatorLeave_InTx, mbind, task_bind, tpure, tlift, tcoded, alift, tget, tfail.
  destruct (proposer_bytes ctx); [|by left]. case_bool_decide; [by left|].
  destruct (sender_key_type N tx) as [kt|]; [|by left]. cbn [wrap_err].
  destruct (Z.leb_spec (power_of st (Sender tx) kt) 0); [by left|].
  unfold on_voting. destruct (SetValidatorPower _ _ _ _ _ _) as [[[]|e] vt] eqn:E.
  - right. by exists kt, vt.
  - left. unfold SetValidatorPower in E. change (0 <? 0) with false in E. cbv iota in E.
    destruct (encodePubKey _ _ _); [done|]. simplify_eq. by destruct st.
Qed.

(** A failed transfer changes only the records. *)
Lemma transfer_InTx_cases d ctx tx st L L0 :
  agrees_app st L L0 ->
  match transfer_InTx N d ctx tx st with
  | (Failed _ _ _, st') => exists a', st' = set_accounts st a' /\ agrees reg false a' L L0
  | (Done _, st') => exists from to a', TxSenderAcctID N tx = Ok from /\ d.1 = Some to /\
      Accounts.Transfer reg from to (Some d.2) (ap_accounts st) = (Ok tt, a') /\ st' = set_accounts st a'
  end.
Proof using HN.
  intros R. unfold transfer_InTx, mbind, task_bind, tpure, tlift, tcoded, alift.
  assert (exists a', st = set_accounts st a' /\ agrees reg false a' L L0) as Hid.
  { exists (ap_accounts st). by rewrite set_accounts_id. }
  destruct (TxSenderAcctID N tx) as [from|e] eqn:Hfrom; [|done]. destruct d as [[to|] amt]; cbn [fst snd]; [|done].
  unfold on_accounts. destruct (sender_usable N HN _ _ Hfrom) as [kf Hf].
  destruct (Accounts.Transfer reg from to (Some amt) (ap_accounts st)) as [[[]|e] a'] eqn:E.
  - by exists from, to, a'.
  - exists a'. split; [done|]. by eapply Transfer_failed.
Qed.

Lemma run_route_failed ty d ctx sp tx st L L0 :
  getRoute N ty = Some d -> agrees_app st L L0 ->
  let '(res, st') := run_route d ctx sp tx st in
  Error res <> None -> exists a', st' = set_accounts st a' /\ agrees reg false a' L L0 /\
    Spend res = i64 (default 0 sp).
Proof using HN.
  intros Hd R. unfold run_route. pose proof (PreTx_reads ty d ctx tx st Hd) as Hpre.
  assert (exists a', st = set_accounts st a' /\ agrees reg false a' L L0) as Hid.
  { exists (ap_accounts st). by rewrite set_accounts_id. }
  assert (forall code log e, Spend (if is_panic e then recovered sp e else txRes sp code log (Some e)) =
    i64 (default 0 sp)) as Hsp by (intros; by destruct (is_panic e)).
  destruct (rt_PreTx d ctx tx st) as [[fields|code log e] st1]; cbn [snd] in Hpre; subst st1.
  2: { intros _. destruct Hid as (a' & -> & Ra). exists a'. by rewrite Hsp. }
  destruct (getRoute_cases ty d Hd) as [Hdb|[->| ->]].
  - pose proof (db_routes_keep d fields ctx tx st Hdb) as Hk.
    destruct (rt_InTx d fields ctx tx st) as [[log|code log e] st2]; [done|]. intros _.
    rewrite db_only_restore by done. destruct Hid as (a' & -> & Ra). exists a'. by rewrite Hsp.
  - cbn [rt_InTx transferRoute] in *. pose proof (transfer_InTx_cases fields ctx tx st L L0 R) as Ht.
    destruct (transfer_InTx N fields ctx tx st) as [[log|code log e] st2]; [done|]. intros _.
    destruct Ht as (a' & -> & Ra). exists (set_table a' (tx_table (ap_accounts st))).
    rewrite Hsp. split_and!; [|by apply refines_nested|done]. by destruct st as [? ? ? []].
  - cbn [rt_InTx validatorLeaveRoute] in *.
    destruct (leave_InTx_cases fields ctx tx st) as [Hs|(kt & vt & E & _)]; [|by rewrite E].
    destruct (validatorLeave_InTx N fields ctx tx st) as [[log|code log e] st2]; [done|]. intros _.
    cbn [snd] in Hs. subst st2. rewrite restore_id. destruct Hid as (a' & -> & Ra). exists a'. by rewrite Hsp.
Qed.

Lemma track_joins body tx st :
  exists js, trackValidatorJoinApprovals N body tx st = set_joins st js.
Proof.
  assert (exists js, st = set_joins st js) as Hid by (exists (ap_approvedJoins st); by destruct st).
  unfold trackValidatorJoinApprovals. do 2 (destruct (negb _); [done|]).
  destruct (run_reader _ _); [by eexists|done].
Qed.

(** The spend that a response reports. *)
Definition charged tx L (spend : Z) L' : Prop :=
  L' = L /\ spend = 0 \/
  exists body id k s, tx_Body tx = Some body /\ TxSenderAcctID N tx = Ok id /\ ledger_key reg id = Some k /\
    ledger_spend L k s (i64 (Nonce body)) = Ok L' /\ spend = i64 s.

Lemma Execute_failed ctx tx st L L0 res st' :
  agrees_app st L L0 -> Execute N ctx tx st = (res, st') -> Error res <> None ->
  exists a' L' joins, st' = set_joins (set_accounts st a') joins /\
    agrees reg false a' L' L0 /\ charged tx L (Spend res) L'.
Proof using HN.
  intros R. unfold Execute.
  assert (exists a' joins, st = set_joins (set_accounts st a') joins /\ agrees reg false a' L L0) as Hid.
  { exists (ap_accounts st), (ap_approvedJoins st). by destruct st. }
  assert (forall res, Spend res = 0 -> (res, st) = (res, st') -> exists a' L' joins,
    st' = set_joins (set_accounts st a') joins /\ agrees reg false a' L' L0 /\ charged tx L (Spend res) L') as H0.
  { intros r Hr [= <-]. destruct Hid as (a' & js & -> & Ra). exists a', L, js. split_and!; [done..|]. by left. }
  destruct (tx_Signature tx) as [sig|]; [|intros [= <- Es] _; apply H0; by rewrite ?Es].
  destruct (tx_Body tx) as [body|] eqn:Hb; [|intros [= <- Es] _; apply H0; by rewrite ?Es].
  destruct (ValidatePayloadEncoding _ _ _) as [[]|e];
    [|intros [= <- Es] _; apply H0; [by destruct (is_panic e)|by rewrite Es]].
  destruct (getRoute N (PayloadType body)) as [d|] eqn:Hd; [|intros [= <- Es] _; apply H0; by rewrite ?Es].
  destruct (track_joins body tx st) as [js ->]. set (st0 := set_joins st js).
  assert (agrees_app st0 L L0) as R0 by done. unfold baseRoute_Execute.
  destruct (checkAndSpend_spec N HN tx (rt_Price d) st0 L L0 R0) as (r & a1 & L1 & E & R1 & Hr). rewrite E.
  destruct r as [[[sp code] err]|e].
  2: { destruct Hr as [-> _]. intros [= <- <-] _. exists (set_table a1 (tx_table (ap_accounts st))), L, js.
       split_and!; [by destruct st as [? ? ? []]|by apply refines_nested|by left]. }
  destruct err as [e|].
  - intros [= <- <-] _. inversion Hr as [c e0|b id k s c e0 L2 Hb' Hid' Hk Hs Hc|]; subst.
    + exists (if spend_kept code then a1 else set_table a1 (tx_table (ap_accounts st))), L1, js.
      split_and!; [by destruct (spend_kept code), st as [? ? ? []]| |by left].
      destruct (spend_kept code); [done|by apply refines_nested].
    + rewrite Hc. exists a1, L1, js. split_and!; [done..|]. right. rewrite Hb in Hb'. simplify_eq.
      by exists b, id, k, s.
  - intros Erun Herr. inversion Hr as [| |b id k s fee L2 Hb' Hid' Hk Hs Hfee Hle]; subst.
    pose proof (run_route_failed (PayloadType body) d ctx (Some s) tx (set_accounts st0 a1) L1 L0 Hd R1) as Hf.
    rewrite Erun in Hf. destruct (Hf Herr) as (a2 & -> & R2 & Hsp).
    exists a2, L1, js. split_and!; [done..|]. right. rewrite Hb in Hb'. simplify_eq. by exists b, id, k, s.
Qed.

(** ** Successes *)

(** The nonces of a ledger are kept; balances may move. *)
Definition nonces_kept L L' : Prop :=
  forall k b n, L !! k = Some (b, n) -> exists b', L' !! k = Some (b', n).

Lemma nonces_kept_refl L : nonces_kept L L.
Proof. intros k b n E. eauto. Qed.

Lemma transfer_nonces L kf kt amt L' : ledger_transfer L kf kt amt = Ok L' -> nonces_kept L L'.
Proof.
  unfold ledger_transfer. destruct (amt <? 0); [done|]. destruct (L !! kf) as [[b n]|] eqn:Ef; [|done].
  destruct (_ <? 0); [done|]. intros <-%(inj Ok) k b0 n0 E.
  destruct (decide (kf = k)) as [<-|Hne].
  { rewrite lookup_insert_eq. rewrite Ef in E. simplify_eq. eauto. }
  rewrite lookup_insert_ne by done. destruct (L !! kt) as [[b' n']|] eqn:Et.
  - destruct (decide (kt = k)) as [<-|Hne']; [|rewrite lookup_insert_ne by done; eauto].
    rewrite lookup_insert_eq. rewrite Et in E. simplify_eq. eauto.
  - rewrite lookup_insert_ne by congruence. eauto.
Qed.

(** Nothing, or one transfer. *)
Definition moved L L' : Prop := L' = L \/ exists kf kt amt, ledger_transfer L kf kt amt = Ok L'.

Lemma moved_nonces L L' : moved L L' -> nonces_kept L L'.
Proof. intros [->|(kf & kt & amt & E)]; [apply nonces_kept_refl|by eapply transfer_nonces]. Qed.

(** The target of a transfer has an identifier. *)
Definition named_target tx : Prop :=
  forall p tr to, payload tx = Ok p -> run_reader (Transfer_read reg) p = Ok tr -> tr_To tr = Some to ->
    Identifier to <> None.

(** The key type of the receiver of a successful transfer is registered. *)
Lemma Transfer_receiver from to amt (a a' : Accounts C) :
  Accounts.Transfer reg from to (Some amt) a = (Ok tt, a') -> is_Some (keyTypes reg !! acct_KeyType to).
Proof.
  unfold Accounts.Transfer. destruct (amt <? 0); [done|]. unfold nested_tx.
  destruct (Transfer_body reg from to amt a) as [[[]|e] a1] eqn:E; [|done]. intros _. revert E.
  unfold Transfer_body, mbind, action_bind, atry. destruct (getAccount reg ConsensusTx from true a) as [[account|] a2]; [|done].
  destruct (_ <? 0); [done|]. destruct (getAccount reg ConsensusTx to true a2) as [r a3].
  destruct (keyTypes reg !! acct_KeyType to) as [kd|] eqn:Ek; [by eexists|]. intros E. exfalso. revert E. destruct r as [receiver|err].
  - unfold updateAccount at 1, KeyTypeDefinition. by rewrite Ek.
  - destruct (errors_is _ _); [|done]. unfold createAccount, KeyTypeDefinition. by rewrite Ek.
Qed.

Lemma transfer_fields ctx tx st to amt st1 :
  transfer_PreTx N ctx tx st = (Done (Some to, amt), st1) ->
  exists p tr, payload tx = Ok p /\ run_reader (Transfer_read reg) p = Ok tr /\ tr_To tr = Some to.
Proof.
  unfold transfer_PreTx, not_in_migration, mbind, task_bind, tget, tpure, tlift, tcoded, alift.
  destruct (twhen _ _ st) as [[[]|] st2]; [|done].
  destruct (payload tx) as [p|] eqn:Ep; [|done]. cbn [mbind result_bind].
  destruct (run_reader (Transfer_read reg) p) as [tr|] eqn:Er; [|done].
  destruct (tr_Amount tr); [|done]. destruct (_ <? 0); [done|]. intros [= Et _ _]. by exists p, tr.
Qed.

Lemma run_route_done ty d ctx sp tx st L L0 :
  getRoute N ty = Some d -> agrees_app st L L0 -> named_target tx ->
  let '(res, st') := run_route d ctx sp tx st in
  Error res = None -> exists L', agrees_app st' L' L0 /\ moved L L' /\
    Spend res = i64 (default 0 sp) /\ ResponseCode res = CodeOk.
Proof using HN.
  intros Hd R Hto. unfold run_route. pose proof (PreTx_reads ty d ctx tx st Hd) as Hpre.
  destruct (rt_PreTx d ctx tx st) as [[fields|code log e] st1] eqn:Epre; cbn [snd] in Hpre; subst st1.
  2: { by destruct (is_panic e). }
  destruct (rt_InTx d fields ctx tx st) as [[log|code log e] st2] eqn:Ein; [|by destruct (is_panic e)]. intros _.
  enough (exists L', agrees_app st2 L' L0 /\ moved L L') as (L' & R' & Hn) by (by exists L').
  destruct (getRoute_cases ty d Hd) as [Hdb|[->| ->]].
  - pose proof (db_routes_keep d fields ctx tx st Hdb) as (t & dl & x & E). rewrite Ein in E. cbn [snd] in E.
    subst st2. exists L. split; [done|by left].
  - cbn [rt_InTx rt_PreTx transferRoute] in *. pose proof (transfer_InTx_cases fields ctx tx st L L0 R) as Ht.
    rewrite Ein in Ht. destruct Ht as (from & to & a' & Hfrom & Hd1 & Et & ->).
    destruct fields as [[to'|] amt]; [|done]. cbn [fst snd] in *. simplify_eq.
    destruct (transfer_fields _ _ _ _ _ _ Epre) as (p & tr & Hp & Htr & Htt).
    specialize (Hto p tr to Hp Htr Htt). destruct to as [[i|] kt]; [|done].
    destruct (sender_usable N HN _ _ Hfrom) as [kf Hf].
    destruct (usable_key N HN i kt) as [k Hk]; [by apply Transfer_receiver in Et|].
    destruct (Transfer_implements reg (ok_reg N HN) _ _ _ _ _ _ _ amt R Hf Hk) as (a1 & Hi).
    destruct (ledger_transfer L kf k amt) as [L'|e] eqn:El; destruct Hi as [E' R']; [|congruence].
    rewrite Et in E'. simplify_eq. exists L'. split; [done|]. right. by exists kf, k, amt.
  - cbn [rt_InTx validatorLeaveRoute] in *. exists L. split; [|by left].
    destruct (leave_InTx_cases fields ctx tx st) as [Hs|(kt & vt & E & _)]; rewrite Ein in *.
    + cbn [snd] in Hs. by subst.
    + by simplify_eq.
Qed.

(** The chain context is not changed by a transaction. *)
Lemma run_route_chain ty d ctx sp tx st :
  getRoute N ty = Some d -> ap_chain (snd (run_route d ctx sp tx st)) = ap_chain st.
Proof using HN.
  intros Hd. unfold run_route. pose proof (PreTx_reads ty d ctx tx st Hd) as Hpre.
  destruct (rt_PreTx d ctx tx st) as [[fields|code log e] st1]; cbn [snd] in Hpre; subst st1; [|done].
  enough (ap_chain (snd (rt_InTx d fields ctx tx st)) = ap_chain st) as <-
    by by destruct (rt_InTx d fields ctx tx st) as [[]].
  destruct (getRoute_cases ty d Hd) as [Hdb|[->| ->]]; cbn [rt_InTx transferRoute validatorLeaveRoute].
  - destruct (db_routes_keep d fields ctx tx st Hdb) as (t & dl & x & ->). done.
  - unfold transfer_InTx, mbind, task_bind, tpure, tlift, tcoded, alift.
    destruct (TxSenderAcctID N tx); [|done]. destruct fields.1; [|done]. unfold on_accounts.
    by destruct (Accounts.Transfer _ _ _ _ _) as [[]].
  - destruct (leave_InTx_cases fields ctx tx st) as [->|(kt & vt & -> & _)]; done.
Qed.

(** The ledger after a transaction: the sender's spend, then at most one
    transfer. *)
Lemma Execute_ledger ctx tx st L L0 res st' :
  agrees_app st L L0 -> named_target tx -> Execute N ctx tx st = (res, st') ->
  exists L1 L2, agrees_app st' L2 L0 /\ charged tx L (Spend res) L1 /\ moved L1 L2 /\
    (Error res = None -> ResponseCode res = CodeOk /\ exists body id k s fee,
       tx_Body tx = Some body /\ TxSenderAcctID N tx = Ok id /\ ledger_key reg id = Some k /\
       ledger_spend L k s (i64 (Nonce body)) = Ok L1 /\ Spend res = i64 s /\ Fee body = Some fee /\ s <= fee).
Proof using HN.
  intros R Hto E. destruct (Error res) as [e|] eqn:Herr.
  { destruct (Execute_failed ctx tx st L L0 res st' R E) as (a' & L' & js & -> & Ra & Hc); [by rewrite Herr|].
    exists L', L'. split_and!; [done..|by left|done]. }
  revert E. unfold Execute.
  destruct (tx_Signature tx) as [sig|]; [|by intros [= <- _]].
  destruct (tx_Body tx) as [body|] eqn:Hb; [|by intros [= <- _]].
  destruct (ValidatePayloadEncoding _ _ _) as [[]|e];
    [|intros [= <- _]; by destruct (is_panic e)].
  destruct (getRoute N (PayloadType body)) as [d|] eqn:Hd; [|by intros [= <- _]].
  destruct (track_joins body tx st) as [js ->]. unfold baseRoute_Execute.
  destruct (checkAndSpend_spec N HN tx (rt_Price d) (set_joins st js) L L0 R) as (r & a1 & L1 & E & R1 & Hr). rewrite E.
  destruct r as [[[sp code] err]|e]; [|by intros [= <- _]]. destruct err as [e|]; [by intros [= <- _]|].
  intros Erun. inversion Hr as [| |b id k s fee L2 Hb' Hid' Hk Hs Hfee Hle]; subst.
  pose proof (run_route_done (PayloadType body) d ctx (Some s) tx (set_accounts (set_joins st js) a1) L1 L0 Hd R1 Hto) as Hf.
  rewrite Erun in Hf. destruct (Hf Herr) as (L2 & R2 & Hn & Hsp & Hcode). rewrite Hb in Hb'. simplify_eq.
  exists L1, L2. split_and!; [done|right; by exists b, id, k, s|done|]. intros _. split; [done|]. by exists b, id, k, s, fee.
Qed.

(** C21. A failed transaction costs its sender the spend that its response
    reports and changes nothing else: the voting tables, the validator set,
    the events and the engine's data are those before it, and the ledger is
    the one before it or the one in which the sender spent that amount with
    the transaction's nonce. *)
Theorem failed_transaction_charged ctx tx st L L0 res st' :
  agrees_app st L L0 -> Execute N ctx tx st = (res, st') -> Error res <> None ->
  exists a' L' joins, st' = set_joins (set_accounts st a') joins /\
    agrees reg false a' L' L0 /\ charged tx L (Spend res) L'.
Proof using HN. apply Execute_failed. Qed.

(** ** Replays *)

(** The nonce of a transaction as an [int64] is not negative. *)
Definition small_nonce tx : Prop := forall body, tx_Body tx = Some body -> 0 <= Nonce body < 2 ^ 63.

Lemma nonce_ge_kept L L' k n : nonces_kept L L' -> nonce_ge L k n -> nonce_ge L' k n.
Proof. intros Hk (b & m & E & Hm). destruct (Hk _ _ _ E) as [b' E']. by exists b', m. Qed.

Lemma nonce_ge_charged tx L spend L' k n :
  small_nonce tx -> charged tx L spend L' -> nonce_ge L k n -> 0 <= n -> nonce_ge L' k n.
Proof.
  intros Hs [[-> _]|(body & id & k' & s & Hb & _ & Hk & El & _)] Hn Hn0; [done|]. specialize (Hs body Hb).
  rewrite swrap_small in El by (done || ints).
  refine (ledger_op_nonce_ge (nd_keys N) (OpSpend id s (Nonce body)) L L' k n _ Hn0 Hn _).
  - cbn. rewrite (proj2 (Z.leb_le _ _)), (proj2 (Z.ltb_lt _ _)) by lia. done.
  - cbn [ledger_op]. unfold key_of. by rewrite Hk.
Qed.

(** A spend with a nonce that was passed fails. *)
Lemma nonce_ge_no_spend L k n s L' :
  nonce_ge L k n -> 0 <= n < 2 ^ 63 -> ledger_spend L k s n = Ok L' -> False.
Proof.
  intros (b & m & E & Hm) Hn. unfold ledger_spend. destruct (s <? 0); [done|]. rewrite E.
  destruct (Z.eqb_spec (i64 (m + 1)) n) as [En|]; [|done]. intros _. apply i64_succ in En; ints.
Qed.

(** The nonce of an executed spend is recorded. *)
Lemma ledger_spend_nonce L k s n L' :
  0 <= n < 2 ^ 63 -> ledger_spend L k s n = Ok L' -> nonce_ge L' k n.
Proof.
  intros Hn. unfold ledger_spend. destruct (s <? 0); [done|]. destruct (L !! k) as [[b m]|].
  - destruct (negb _); [done|]. destruct (_ <? 0); [done|]. intros <-%(inj Ok).
    exists (b - s), n. rewrite lookup_insert_eq. split; [done|lia].
  - destruct (Z.eqb_spec n 1) as [->|]; [|by rewrite andb_false_r]. destruct (s =? 0); [|done].
    intros <-%(inj Ok). exists 0, 1. rewrite lookup_insert_eq. split; [done|lia].
Qed.

(** Transactions in the order of a block, or of several. *)
Fixpoint execute_all (txs : list (TxContext * Transaction)) st : W :=
  match txs with
  | [] => st
  | (ctx, tx) :: txs' => execute_all txs' (snd (Execute N ctx tx st))
  end.

Lemma execute_all_nonce txs st L L0 k n :
  Forall (fun ct => small_nonce ct.2 /\ named_target ct.2) txs ->
  agrees_app st L L0 -> nonce_ge L k n -> 0 <= n ->
  exists L', agrees_app (execute_all txs st) L' L0 /\ nonce_ge L' k n.
Proof using HN.
  intros Htxs. revert st L. induction Htxs as [|[ctx tx] txs [Hs Ht] _ IH]; intros st L R Hn Hn0; [eauto|].
  cbn [execute_all]. destruct (Execute N ctx tx st) as [res st'] eqn:E. cbn [fst snd] in *.
  destruct (Execute_ledger ctx tx st L L0 res st' R Ht E) as (L1 & L2 & R2 & Hc & Hk%moved_nonces & _).
  apply (IH st' L2); [done| |done]. eapply nonce_ge_kept; [done|]. by eapply nonce_ge_charged.
Qed.

(** C25. A transaction is not executed twice in a block: once a transaction has
    succeeded, and whatever transactions are executed after it in the same block, a
    transaction of the same sender with the same nonce fails and is charged nothing.
    The accounts represent a ledger at the start, the nonces are below 2^63, and
    transfers name their target. *)
Theorem no_second_execution ctx tx st L L0 res st1 txs ctx' tx' :
  agrees_app st L L0 -> named_target tx -> small_nonce tx ->
  Execute N ctx tx st = (res, st1) -> Error res = None ->
  Forall (fun ct => small_nonce ct.2 /\ named_target ct.2) txs -> named_target tx' ->
  TxSenderAcctID N tx' = TxSenderAcctID N tx -> Nonce <$> tx_Body tx' = Nonce <$> tx_Body tx ->
  let '(res', st2) := Execute N ctx' tx' (execute_all txs st1) in
  Error res' <> None /\ Spend res' = 0.
Proof using HN.
  intros R Ht Hs E Hok Htxs Ht' Hsender Hnonce.
  destruct (Execute_ledger ctx tx st L L0 res st1 R Ht E) as (L1 & L2 & R2 & _ & Hk%moved_nonces & Hd).
  destruct (Hd Hok) as (_ & body & id & k & s & fee & Hb & Hid & Hkey & Hsp & _). clear Hd.
  pose proof (Hs body Hb) as Hn. rewrite swrap_small in Hsp by (done || ints).
  apply ledger_spend_nonce in Hsp as Hge; [|lia]. apply (nonce_ge_kept _ _ _ _ Hk) in Hge.
  destruct (execute_all_nonce txs st1 L2 L0 k (Nonce body) Htxs R2 Hge) as (L3 & R3 & Hge3); [lia|].
  destruct (Execute N ctx' tx' (execute_all txs st1)) as [res' st2] eqn:E'.
  destruct (Execute_ledger ctx' tx' _ L3 L0 res' st2 R3 Ht' E') as (L4 & L5 & _ & Hc & _ & Hd').
  assert (forall body' id' k' s' L', tx_Body tx' = Some body' -> TxSenderAcctID N tx' = Ok id' ->
    ledger_key reg id' = Some k' -> ledger_spend L3 k' s' (i64 (Nonce body')) = Ok L' -> False) as Hno.
  { intros body' id' k' s' L' Hb' Hid' Hk' El. rewrite Hb', Hb in Hnonce. rewrite Hsender, Hid in Hid'.
    cbn in Hnonce. simplify_eq. rewrite Hnonce, swrap_small in El by (done || ints).
    eapply nonce_ge_no_spend; [exact Hge3| |exact El]. lia. }
  split.
  - intros Herr. destruct (Hd' Herr) as (_ & body' & id' & k' & s' & fee' & Hb' & Hid' & Hk' & El & _). by eapply Hno.
  - destruct Hc as [[_ ?]|(body' & id' & k' & s' & Hb' & Hid' & Hk' & El & _)]; [done|]. exfalso. by eapply Hno.
Qed.

(** ** Votes *)

(** The sender of the transaction, as a row of the voters table. *)
Definition sender_voter tx st (v : bytes) : Prop :=
  exists kt name, sender_key_type N tx = Ok kt /\ encodePubKey reg (Sender tx) kt = Ok name /\
    v = nd_uuid N name /\ is_Some (voters (ap_tables st) !! v).

Definition votes_step tx st st' : Prop :=
  voters (ap_tables st') = voters (ap_tables st) /\
  forall id v, (id, v) ∈ votes (ap_tables st') -> (id, v) ∈ votes (ap_tables st) \/ sender_voter tx st v.

#[local] Instance votes_step_preorder tx : PreOrder (votes_step tx).
Proof.
  split; [intros st; split; auto|]. intros st1 st2 st3 [E1 H1] [E2 H2]. split; [congruence|].
  intros id v Hv. destruct (H2 id v Hv) as [Hv2|(kt & name & ? & ? & ? & Hr)]; [auto|].
  right. exists kt, name. by rewrite <- E1.
Qed.

Lemma create_votes tx ev x p kt st : votes_step tx st (snd (createResolution N ev x p kt st)).
Proof.
  unfold createResolution, on_tables, CreateResolution. destruct (encodePubKey _ _ _) as [pb|]; [|by cbn; split; auto].
  cbn [mbind result_bind]. unfold sql_insertResolution.
  destruct (decide _); [by cbn; split; auto|]. destruct (type_id _ _); [|by cbn; split; auto].
  destruct (Voting.resolutions _ !! _); cbn; by split; auto.
Qed.

Lemma approve_votes tx id kt st :
  sender_key_type N tx = Ok kt -> votes_step tx st (snd (approveResolution N id (Sender tx) kt st)).
Proof.
  intros Hkt. unfold approveResolution, on_tables, ApproveResolution.
  destruct (encodePubKey reg (Sender tx) kt) as [name|] eqn:En; [|by cbn; split; auto].
  cbn [mbind result_bind]. unfold sql_addVote. destruct (decide _); [by cbn; split; auto|].
  destruct (Voting.resolutions (ap_tables st) !! id); [|by cbn; split; auto].
  destruct (voters (ap_tables st) !! nd_uuid N name) as [row|] eqn:Ev; [|by cbn; split; auto].
  split; [done|]. cbn [snd ap_tables set_voting set_votes votes]. intros id' v [[= -> ->]%elem_of_singleton|Hv]%elem_of_union; [|auto].
  right. exists kt, name. by rewrite Ev.
Qed.

Lemma db_routes_votes d fields ctx tx st :
  d ∈ db_routes -> votes_step tx st (snd (rt_InTx d fields ctx tx st)).
Proof using HN.
  intros Hd. apply (db_routes_steps (votes_step tx) tx); [..|done]; intros.
  - apply create_votes.
  - by apply approve_votes.
  - split; [done|auto].
  - split; [done|auto].
Qed.

Lemma leave_votes vt tx st kt :
  SetValidatorPower reg (nd_uuid N) (Sender tx) kt 0 (ap_votes st, ap_tables st) = (Ok tt, vt) ->
  votes vt.2 ⊆ votes (ap_tables st).
Proof.
  unfold SetValidatorPower. change (0 <? 0) with false. cbv iota. destruct (encodePubKey _ _ _) as [name|]; [|done].
  change (0 =? 0) with true. cbv iota. intros [= <-]. cbn [snd votes sql_removeVoter set_votes].
  intros v Hv. by apply elem_of_filter in Hv as [_ Hv].
Qed.

(** A successful transaction ran the second step of its route. *)
Lemma Execute_done ctx tx st L L0 res st' :
  agrees_app st L L0 -> Execute N ctx tx st = (res, st') -> Error res = None ->
  exists body d js a1 L1 fields log, tx_Body tx = Some body /\ getRoute N (PayloadType body) = Some d /\
    agrees reg false a1 L1 L0 /\
    rt_InTx d fields ctx tx (set_accounts (set_joins st js) a1) = (Done log, st').
Proof using HN.
  intros R E Herr. revert E. unfold Execute.
  destruct (tx_Signature tx) as [sig|]; [|by intros [= <- _]].
  destruct (tx_Body tx) as [body|] eqn:Hb; [|by intros [= <- _]].
  destruct (ValidatePayloadEncoding _ _ _) as [[]|e];
    [|intros [= <- _]; by destruct (is_panic e)].
  destruct (getRoute N (PayloadType body)) as [d|] eqn:Hd; [|by intros [= <- _]].
  destruct (track_joins body tx st) as [js ->]. unfold baseRoute_Execute.
  destruct (checkAndSpend_spec N HN tx (rt_Price d) (set_joins st js) L L0 R) as (r & a1 & L1 & E & R1 & _). rewrite E.
  destruct r as [[[sp code] err]|e]; [|by intros [= <- _]]. destruct err as [e|]; [by intros [= <- _]|]. clear E.
  set (st0 := set_accounts (set_joins st js) a1) in *. unfold run_route.
  pose proof (PreTx_reads (PayloadType body) d ctx tx st0 Hd) as Hpre.
  destruct (rt_PreTx d ctx tx st0) as [[fields|code' log e] st1]; cbn [snd] in Hpre; subst st1.
  2: { intros [= <- _]. by destruct (is_panic e). }
  destruct (rt_InTx d fields ctx tx st0) as [[log|code' log e] st2] eqn:Ein; [|intros [= <- _]; by destruct (is_panic e)].
  intros [= <- <-]. by exists body, d, js, a1, L1, fields, log.
Qed.

(** C27. A transaction votes for its sender only: a vote that is in the table
    after a transaction was there before it, or the transaction succeeded and
    the vote is that of its sender, who is a row of the voters table. *)
Theorem votes_of_sender ctx tx st L L0 res st' id v :
  agrees_app st L L0 -> Execute N ctx tx st = (res, st') ->
  (id, v) ∈ votes (ap_tables st') ->
  (id, v) ∈ votes (ap_tables st) \/ Error res = None /\ sender_voter tx st v.
Proof using HN.
  intros R E Hv. destruct (Error res) as [e|] eqn:Herr.
  { destruct (Execute_failed ctx tx st L L0 res st' R E) as (a' & L' & js & -> & _); [by rewrite Herr|]. by left. }
  destruct (Execute_done ctx tx st L L0 res st' R E Herr) as (body & d & js & a1 & L1 & fields & log & _ & Hd & R1 & Ein).
  set (st0 := set_accounts (set_joins st js) a1) in *. change (ap_tables st) with (ap_tables st0).
  change (sender_voter tx st v) with (sender_voter tx st0 v).
  destruct (getRoute_cases _ d Hd) as [Hdb|[->| ->]].
  - pose proof (db_routes_votes d fields ctx tx st0 Hdb) as [_ Hs].
    rewrite Ein in Hs. destruct (Hs id v Hv) as [?|?]; [by left|by right].
  - left. cbn [rt_InTx transferRoute] in Ein. pose proof (transfer_InTx_cases fields ctx tx st0 L1 L0 R1) as Ht.
    rewrite Ein in Ht. destruct Ht as (from & to & a' & _ & _ & _ & ->). done.
  - left. cbn [rt_InTx validatorLeaveRoute] in Ein.
    destruct (leave_InTx_cases fields ctx tx st0) as [Hs|(kt & vt & E' & _ & _ & Es)]; rewrite Ein in *.
    + cbn [snd] in Hs. by subst st'.
    + simplify_eq. by apply (leave_votes vt tx st0 kt Es).
Qed.

(** ** A sender that cannot pay *)

Lemma spend_updated (a : Accounts C) id u s nonce :
  updates a !! acctMapKey id = Some u -> 0 <= s -> i64 (acc_Nonce u + 1) = nonce -> Balance u < s ->
  Spend_ reg id (Some s) nonce a = (Err errInsufficientFunds, a).
Proof.
  intros Hu Hs Hn Hb. unfold Spend_. rewrite (proj2 (Z.ltb_ge _ _)) by done.
  unfold mbind, action_bind, atry, getAccount. rewrite Hu. cbn [acc_Nonce Balance].
  rewrite Hn, Z.eqb_refl. cbn [negb]. by rewrite (proj2 (Z.ltb_lt _ _)) by lia.
Qed.

(** A consensus read of an account with a cached record. *)
Lemma GetAccount_cached (a : Accounts C) id r :
  c_peek (records a) (acctMapKey id) = Some r ->
  exists a', GetAccount reg ConsensusTx id a = (Ok (mkAccount id (Balance r) (acc_Nonce r)), a') /\
    updates a' = updates a /\ c_peek (records a') (acctMapKey id) = Some r.
Proof.
  unfold c_peek, GetAccount, getAccount. destruct (c_get (records a) (acctMapKey id)) as [hit recs] eqn:Eg.
  cbn [fst]. intros ->. eexists. split_and!; [reflexivity|done|].
  pose proof (c_get_pure (records a) (acctMapKey id) (acctMapKey id)) as Hp. unfold c_peek in Hp. cbn [records set_records].
  by rewrite Eg in Hp.
Qed.

(** A sender that cannot pay may pay nothing: when the account has a cached
    record with a larger balance than it has left in the current block, the
    attempt to spend "as much as possible" asks for the recorded balance and
    fails.  The transaction answers with an unknown error and no spend, the
    ledger keeps the balance and the nonce, and the same transaction can be
    executed again. *)
Theorem stale_balance_spends_nothing d ctx tx st L L0 body fee amt id k b n r :
  agrees_app st L L0 ->
  tx_Body tx = Some body -> Fee body = Some fee -> DisabledGasCosts (params st) = false ->
  rt_Price d tx = Ok amt -> amt <= fee -> TxSenderAcctID N tx = Ok id -> ledger_key reg id = Some k ->
  L !! k = Some (b, n) -> i64 (n + 1) = i64 (Nonce body) -> 0 <= b < amt ->
  c_peek (records (ap_accounts st)) (acctMapKey id) = Some r -> b < Balance r ->
  exists res a', baseRoute_Execute N d ctx tx st = (res, set_accounts st a') /\
    ResponseCode res = CodeUnknownError /\ Spend res = 0 /\ Error res <> None /\
    agrees reg false a' L L0 /\ c_peek (records a') (acctMapKey id) = Some r.
Proof using HN.
  intros R Hb Hfee Hgas Hprice Hle Hid Hk HL Hn Hbal Hr Hlt.
  assert (exists u, updates (ap_accounts st) !! acctMapKey id = Some u /\ Balance u = b /\ acc_Nonce u = n) as (u & Hu & <- & <-).
  { destruct (updates (ap_accounts st) !! acctMapKey id) as [u|] eqn:Eu.
    - exists u. pose proof (r_upd _ _ _ _ _ R id k u Hk Eu). by simplify_eq.
    - pose proof (r_rec _ _ _ _ _ R id k r Hk (or_intror Eu) Hr) as E0.
      rewrite <- (r_same _ _ _ _ _ R id k Hk Eu), HL in E0. simplify_eq. lia. }
  destruct (GetAccount_cached (ap_accounts st) id r Hr) as (a1 & E1 & U1 & P1).
  destruct (GetAccount_tx_spec reg (ok_reg N HN) _ _ _ id k R Hk) as (a1' & E1' & R1 & _).
  rewrite E1 in E1'. injection E1' as _ <-.
  destruct (GetAccount_cached a1 id r P1) as (a2 & E2 & U2 & P2).
  destruct (GetAccount_tx_spec reg (ok_reg N HN) _ _ _ id k R1 Hk) as (a2' & E2' & R2 & _).
  rewrite E2 in E2'. injection E2' as _ <-.
  assert (checkAndSpend N tx (rt_Price d) st =
    (Ok (None, CodeUnknownError, Some errInsufficientFunds), set_accounts st a2)) as E.
  { unfold checkAndSpend. rewrite Hb, Hfee, (proj2 (Z.ltb_ge fee 0)) by lia.
    unfold mbind, action_bind, gets. rewrite Hgas. unfold acatch at 1, alift. rewrite Hprice, Hid.
    rewrite (acatch_run _ _ _ _ (on_accounts_run _ _ _ _ E1)) by done.
    rewrite (proj2 (Z.ltb_ge fee amt)) by lia.
    rewrite (acatch_run _ (set_accounts st a1) (Err errInsufficientFunds) (set_accounts st a1)); cycle 1.
    { apply (on_accounts_run _ (set_accounts st a1)). eapply spend_updated; [by rewrite U1|lia|done|lia]. }
    { by intros e [= <-]. }
    cbn [errors_is]. change (errors_is errInsufficientFunds ErrInsufficientFunds) with true. cbv iota.
    unfold spend_rest, mbind, action_bind.
    rewrite (acatch_run _ _ _ _ (on_accounts_run _ (set_accounts st a1) _ _ E2)) by done. cbv iota. cbn [Balance].
    rewrite (acatch_run _ (set_accounts st a2) (Err errInsufficientFunds) (set_accounts st a2)); [done| |by intros e [= <-]].
    apply (on_accounts_run _ (set_accounts st a2)). eapply spend_updated; [by rewrite U2, U1|lia|done|lia]. }
  unfold baseRoute_Execute. rewrite E. exists (txRes None CodeUnknownError [] (Some errInsufficientFunds)), (set_table a2 (tx_table (ap_accounts st))).
  split_and!; [|done|done|done|by apply refines_nested|done].
  change (spend_kept CodeUnknownError) with false. by destruct st as [? ? ? []].
Qed.
End routes.
