(* ===== verification/TxSamples.v ===== *)
(** * Concrete nodes and transactions

    A node with the start-up registries and an engine without data, and
    transactions at which the theorems of TxFacts.v apply. *)

From S2P Require Import Prelude.
From S2P Require Import Wire.
From S2P Require Import BigInt.
From S2P Require Import Keys.
From S2P Require Import Ident.
From S2P Require Import Order.
From S2P Require Import Tx.
From S2P Require Import Params.
From S2P Require Import Payloads.
From S2P Require Import Values.
From S2P Require Import Auth.
From S2P Require Import Cache.
From S2P Require Import Accounts.
From S2P Require Import Voting.
From S2P Require Import Events.
From S2P Require Import TxApp.
From S2P Require Import TxFacts.
From Stdlib Require Import Strings.Byte.

#[local] Open Scope Z_scope.

#[export] Existing Instance Values.Samples.ascii_strings.
#[export] Existing Instance Values.Samples.integer_decimals.
#[export] Existing Instance test_cache.

Definition state : Type := App (list (list byte * Account)) unit.

(** An engine without data. *)
#[export] Instance idle_engine : Engine state := {
  engine_Execute _ _ _ st := (Ok tt, st);
  engine_Call _ _ _ _ st := ((Some (mkCallResult [] None), None), st);
  engine_ExecuteWithoutCtx _ _ st := (Ok tt, st)
}.

Definition node : Node state :=
  mkNode test_registry Auth.Samples.native (fun b => b) ∅ [x09] [x09] Secp256k1Auth.

Lemma native_is_Ok : @native_authenticators _ Auth.Samples.toy_crypto false = Ok Auth.Samples.native.
Proof. reflexivity. Qed.

Lemma node_node_ok : node_ok node.
Proof.
  split.
  - exact test_registry_ok.
  - intros kt kd E. change (keyTypes (nd_keys node)) with (keyTypes test_registry) in E.
    unfold test_registry, native_registry in E. cbn [keyTypes] in E.
    apply lookup_insert_Some in E as [[<- <-]|[_ [<- <-]%lookup_singleton_Some]];
      (split; [by vm_compute|]); by apply (bool_decide_unpack _); vm_compute.
  - intros name a E. destruct (native_key_types false _ name a native_is_Ok E) as [-> | ->]; by eexists.
  - intros ctx stmt ps st. exists (ap_engine st). by destruct st.
  - intros ctx ns act args st. exists (ap_engine st). by destruct st.
Qed.

(** ** Ledgers *)

(** Bob has 300000 tokens, committed and cached. *)
Definition rich : Accounts (list (list byte * Account)) :=
  commit_block [(acctMapKey bob, mkAccount bob 300000 0)]
    (snd (Credit test_registry bob (Some 300000) InitializeAccountStore)).

Definition rich_ledger : ledger := <[bob_key := (300000, 0)]> ∅.

Lemma rich_refines : refines test_registry rich rich_ledger rich_ledger.
Proof.
  apply (commit_block_refines (md := true) test_registry _ _ ∅).
  - apply (implements_snd test_registry _ _ ∅ ∅ rich_ledger).
    apply (Credit_implements test_registry test_registry_ok _ ∅ ∅ bob bob_key 300000 (refines_init _)).
    by vm_compute.
  - by vm_compute.
Qed.

Lemma rich_agrees : agrees test_registry false rich rich_ledger rich_ledger.
Proof. apply (agrees_weaken _ true), rich_refines. Qed.

Definition gas_params (free : bool) : NetworkParameters :=
  mkParams None 6291456 86400000000000 free 200 NoActiveMigration.

(** A state with the given accounts and no validators. *)
Definition start_state (free : bool) (a : Accounts (list (list byte * Account))) : state :=
  mkApp a (mkVoteStore [] ∅) (mkTables ∅ ∅ ∅ ∅ ∅) (initializeEventStore ∅ ∅) tt
    (mkChainContext (str "kwil-test") (gas_params free) None None) ∅ [].

Definition context : TxContext :=
  mkTxContext (mkBlockContext 10 [] 1700000000 (Some (mkPublicKey KeyTypeSecp256k1 [x09])))
    [] (Some [x02]) [] Secp256k1Auth.

(** Bob transfers to Alice. *)
Definition transfer_payload (amt : Z) : slice :=
  match Transfer_MarshalBinary test_registry (mkTransfer (Some alice) (Some amt)) with
  | Ok b => Some b
  | Err _ => None
  end.

Definition bob_tx (ty : bytes) (payload : slice) (fee nonce : Z) : Transaction :=
  mkTransaction (Some (mkSignature None Secp256k1Auth))
    (Some (mkBody [] payload ty (Some fee) nonce (str "kwil-test"))) SignedMsgConcat (Some [x02]).

Definition pay (amt fee nonce : Z) : Transaction :=
  bob_tx PayloadTypeTransfer (transfer_payload amt) fee nonce.

Lemma pay_named amt fee nonce : amt = 7 -> named_target node (pay amt fee nonce).
Proof.
  intros -> p tr to [= <-]. vm_compute. intros [= <-]. by intros [= <-].
Qed.

(** The fee does not cover the price: the fee is spent. *)
Lemma failed_transaction_charged_witness :
  let '(res, st') := Execute node context (pay 7 10 1) (start_state false rich) in
  ResponseCode res = CodeInsufficientFee /\ Spend res = 10 /\
  exists a' L' joins, st' = set_joins (set_accounts (start_state false rich) a') joins /\
    charged node (pay 7 10 1) rich_ledger (Spend res) L'.
Proof.
  destruct (Execute node context (pay 7 10 1) (start_state false rich)) as [res st'] eqn:E.
  assert (res = fst (Execute node context (pay 7 10 1) (start_state false rich))) as Hr by (by rewrite E).
  assert (Error res <> None) as Herr by (rewrite Hr; vm_compute; congruence).
  destruct (failed_transaction_charged node node_node_ok context (pay 7 10 1) (start_state false rich)
    rich_ledger rich_ledger res st' rich_agrees E Herr) as (a' & L' & js & Es & _ & Hc).
  split_and!; [rewrite Hr; by vm_compute..|]. by exists a', L', js.
Defined.

Lemma no_second_execution_witness :
  let st1 := snd (Execute node context (pay 7 0 1) (start_state true rich)) in
  let '(res', st2) := Execute node context (pay 7 5 1) (execute_all node [(context, pay 7 0 2)] st1) in
  Error res' <> None /\ Spend res' = 0.
Proof.
  intros st1. refine (no_second_execution node node_node_ok context (pay 7 0 1) (start_state true rich) rich_ledger rich_ledger
    (fst (Execute node context (pay 7 0 1) (start_state true rich))) st1 [(context, pay 7 0 2)] context (pay 7 5 1)
    rich_agrees _ _ (surjective_pairing _) _ _ _ _ _).
  - by apply pay_named.
  - intros b [= <-]. cbn. lia.
  - by vm_compute.
  - constructor; [|constructor]. split; [|by apply pay_named]. intros b [= <-]. cbn. lia.
  - by apply pay_named.
  - by vm_compute.
  - by vm_compute.
Defined.

(** Bob has spent 200000 tokens in the block and does not have the 210000 of
    the second transaction. *)
Definition spent_down : Accounts (list (list byte * Account)) :=
  snd (Spend_ test_registry bob (Some 200000) 1 rich).

Definition spent_ledger : ledger := <[bob_key := (100000, 1)]> rich_ledger.

Lemma spent_agrees : agrees test_registry false spent_down spent_ledger rich_ledger.
Proof.
  destruct (Spend_implements test_registry test_registry_ok rich rich_ledger rich_ledger bob bob_key 200000 1
    rich_agrees ltac:(by vm_compute)) as (a' & Hi).
  assert (ledger_spend rich_ledger bob_key 200000 1 = Ok spent_ledger) as E
    by (unfold ledger_spend, rich_ledger at 1; by rewrite lookup_insert_eq).
  rewrite E in Hi. destruct Hi as [Ea R]. unfold spent_down. by rewrite Ea.
Qed.

Lemma stale_balance_spends_nothing_witness :
  exists res a', baseRoute_Execute node (transferRoute node) context (pay 7 210000 2) (start_state false spent_down) =
      (res, set_accounts (start_state false spent_down) a') /\
    ResponseCode res = CodeUnknownError /\ Spend res = 0.
Proof.
  destruct (stale_balance_spends_nothing node node_node_ok (transferRoute node) context (pay 7 210000 2)
    (start_state false spent_down) spent_ledger rich_ledger
    (mkBody [] (transfer_payload 7) PayloadTypeTransfer (Some 210000) 2 (str "kwil-test"))
    210000 210000 bob bob_key 100000 1 (mkAccount bob 300000 0) spent_agrees
    ltac:(reflexivity) ltac:(reflexivity) ltac:(reflexivity) ltac:(reflexivity) ltac:(lia)
    ltac:(by vm_compute) ltac:(by vm_compute) ltac:(by vm_compute) ltac:(by vm_compute)
    ltac:(lia) ltac:(by vm_compute) ltac:(cbn; lia))
    as (res & a' & E & Hc & Hs & _). eauto.
Defined.

(** Bob is the only validator and approves a resolution. *)
Definition bob_name : bytes := le_bytes 4 0 ++ [x02].

Definition one_voter : tables :=
  mkTables {[bob_name := mkVoter bob_name 1]} {[str "t" := str "t"]}
    {[repeat x05 16 := mkResRow (Some [x01]) (str "t") 1800000000 bob_name]} ∅ ∅.

Definition voting_app : state :=
  mkApp rich (mkVoteStore [mkValidator bob 1] ∅) one_voter (initializeEventStore ∅ ∅) tt
    (mkChainContext (str "kwil-test") (gas_params true) None None) ∅ [].

Definition approval : Transaction :=
  bob_tx PayloadTypeApproveResolution
    (match ResolutionID_MarshalBinary (Some (repeat x05 16)) with Ok b => Some b | Err _ => None end) 0 1.

Lemma votes_of_sender_witness :
  let '(res, st') := Execute node context approval voting_app in
  ResponseCode res = CodeOk /\ sender_voter node approval voting_app bob_name.
Proof.
  destruct (Execute node context approval voting_app) as [res st'] eqn:E.
  assert (st' = snd (Execute node context approval voting_app)) as Hs by (by rewrite E).
  assert (res = fst (Execute node context approval voting_app)) as Hr by (by rewrite E).
  split; [rewrite Hr; by vm_compute|].
  destruct (votes_of_sender node node_node_ok context approval voting_app rich_ledger rich_ledger res st'
    (repeat x05 16) bob_name rich_agrees E) as [Hv|[_ Hv]]; [|by apply not_elem_of_empty in Hv|exact Hv].
  rewrite Hs. apply (bool_decide_unpack _). by vm_compute.
Defined.
