(* ===== verification/Admission.v ===== *)
(** * Admission of transactions to the mempool

    src/node/txapp/mempool.go, with [ApplyMempool] and [AccountInfo] of
    src/node/txapp/txapp.go: the pending nonces and balances of the accounts
    with unconfirmed transactions, and the checks that a transaction passes
    before it may wait for a block.  The admission queries of the engine are
    the record [admissionEngine]. *)

From S2P Require Import Prelude.
From S2P Require Import Wire.
From S2P Require Import BigInt.
From S2P Require Import Keys.
From S2P Require Import Ident.
From S2P Require Import Tx.
From S2P Require Import Params.
From S2P Require Import Payloads.
From S2P Require Import Values.
From S2P Require Import Auth.
From S2P Require Import Cache.
From S2P Require Import Accounts.
From S2P Require Import Voting.
From S2P Require Import Events.
From S2P Require Import TxApp.
From S2P Require Import TxFacts.
From S2P Require Import TxSamples.
From Stdlib Require Import Strings.Byte.
From stdpp Require Import functions.

#[local] Open Scope Z_scope.

Definition ErrTxNotAdmitted : error := ErrSentinel "transaction not admitted to mempool".
Definition ErrDisallowedInMigration : error := ErrSentinel "transaction type not allowed during migration".
Definition ErrInsufficientBalance : error := ErrSentinel "insufficient balance for fee or transfer".
Definition ErrTxInvalidNonce : error := ErrSentinel "invalid nonce".

(** [precompiles.Modifier] and [Modifiers.Has]. *)
Inductive Modifier := PUBLIC | PRIVATE | SYSTEM | VIEW | OWNER.

#[export] Instance Modifier_eq_decision : EqDecision Modifier.
Proof. solve_decision. Defined.

Definition Modifiers_Has (m : list Modifier) (x : Modifier) : bool := bool_decide (x ∈ m).

(** The queries of the interpreter that admission uses, on its data. *)
Record admissionEngine (X : Type) := mkAdmissionEngine {
  ActionModifiers : bytes -> bytes -> X -> option (list Modifier);
  IsOwner : bytes -> X -> bool
}.
Arguments mkAdmissionEngine {X}.
Arguments ActionModifiers {X}.
Arguments IsOwner {X}.

(** The payload types that only validators may send. *)
Definition validator_payloads : list bytes :=
  [PayloadTypeValidatorLeave; PayloadTypeValidatorApprove; PayloadTypeValidatorRemove;
   PayloadTypeCreateResolution; PayloadTypeApproveResolution].

(** The payload types that a migration suspends. *)
Definition suspended_payloads : list bytes :=
  [PayloadTypeValidatorJoin; PayloadTypeValidatorLeave; PayloadTypeValidatorApprove;
   PayloadTypeValidatorRemove; PayloadTypeValidatorVoteIDs; PayloadTypeValidatorVoteBodies;
   PayloadTypeRawStatement; PayloadTypeTransfer].

Section mempool.
Context {C : Type} `{HC : Cache (list byte) Account C} {X : Type}.
Context `{HS : Strings} `{HD : Decimals}.
#[local] Abbreviation W := (App C X).
Context `{HE : !Engine W}.
Context (N : Node W).
(** Nil when the engine cannot answer admission queries. *)
Context (engine : option (admissionEngine X)).

#[local] Abbreviation reg := (nd_keys N).
#[local] Abbreviation key_type := (GetAuthenticatorKeyType (nd_auth N)).

(** ** Pending accounts *)

(** [accountInfo], with a read transaction on the committed state. *)
Definition accountInfo (ex : executor) (acctID : AccountID) : action W Account :=
  id ← alift (AccountID_MarshalBinary reg acctID);
  m ← gets ap_mempool;
  match m !! id with
  | Some acctInfo => mret acctInfo
  | None =>
      acct ← on_accounts (GetAccount reg ex acctID);
      _ ← modify (fun st => set_mempool st (<[id := acct]> (ap_mempool st)));
      mret acct
  end.

(** The account of [accountInfo] is shared with the map: writing its fields
    changes the entry. *)
Definition write_account (acctID : AccountID) (acct : Account) : action W unit :=
  id ← alift (AccountID_MarshalBinary reg acctID);
  modify (fun st => set_mempool st (<[id := acct]> (ap_mempool st))).

Definition reset (st : W) : W := set_mempool st ∅.

(** ** Admission *)

Definition not_admitted (msg : string) : action W unit := afail (ErrWrap msg ErrTxNotAdmitted).

Definition checkAction (eng : admissionEngine X) (body : TransactionBody) : action W unit :=
  exec ← alift (run_reader ActionExecution_read (slice_bytes (Tx.Payload body)));
  found ← gets (fun st => ActionModifiers eng (ae_Namespace exec) (ae_Action exec) (ap_engine st));
  match found with
  | None => not_admitted "action does not exist in namespace"
  | Some mods =>
      if Modifiers_Has mods VIEW then not_admitted "action is a view; use call instead"
      else if Modifiers_Has mods PRIVATE || Modifiers_Has mods SYSTEM
      then not_admitted "action cannot be called directly"
      else if Modifiers_Has mods OWNER then not_admitted "action can only be executed by the owner"
      else mret tt
  end.

Definition checkAdmission (ctx : TxContext) (tx : Transaction) (body : TransactionBody) (sig : Signature)
  : action W unit :=
  match engine with
  | None => mret tt
  | Some eng =>
      owner ← gets (fun st => IsOwner eng (Caller ctx) (ap_engine st));
      if owner : bool then mret tt
      else if bool_decide (PayloadType body = PayloadTypeRawStatement)
      then not_admitted "raw statements are only accepted from the database owner"
      else if bool_decide (PayloadType body = PayloadTypeExecute) then checkAction eng body
      else if bool_decide (PayloadType body ∈ validator_payloads) then
        match key_type (sig_Type sig) with
        | Err _ => not_admitted "from a non-validator"
        | Ok keyType =>
            power ← gets (fun st => power_of st (Sender tx) keyType);
            if power <=? 0 then not_admitted "from a non-validator" else mret tt
        end
      else mret tt
  end.

(** The checks of the migration status; [view] holds the voting tables that the
    read transaction sees. *)
Definition check_migration (view : tables) (body : TransactionBody) : action W unit :=
  status ← gets (fun st => MigrationStatus (params st));
  let settled := MigrationStatus_Active status || bool_decide (status = GenesisMigration) in
  if in_migration status && bool_decide (PayloadType body ∈ suspended_payloads)
  then afail (ErrWrap "" ErrDisallowedInMigration)
  else if bool_decide (PayloadType body = PayloadTypeCreateResolution) then
    res ← alift (CreateResolution_UnmarshalBinary (slice_bytes (Tx.Payload body)));
    awhen (settled && bool_decide (ev_Type res = StartMigrationEventType))
      (afail (ErrWrap "migration resolutions" ErrDisallowedInMigration))
  else if bool_decide (PayloadType body = PayloadTypeApproveResolution) then
    id ← alift (ResolutionID_UnmarshalBinary (slice_bytes (Tx.Payload body)));
    match GetResolutionInfo reg (nd_uuid N) view id with
    | Err _ => afail (ErrMsg "migration proposal not found")
    | Ok resolution =>
        awhen (settled && bool_decide (res_Type resolution = StartMigrationEventType))
          (afail (ErrMsg "approving migration resolutions are not allowed during migration"))
    end
  else mret tt.

Definition check_votes (tx : Transaction) (body : TransactionBody) (sig : Signature) : action W unit :=
  if bool_decide (PayloadType body = PayloadTypeValidatorVoteIDs) then
    keyType ← alift (wrap_err "invalid key type" (key_type (sig_Type sig)));
    power ← gets (fun st => power_of st (Sender tx) keyType);
    if power =? 0 then afail (ErrMsg "only validators can submit validator vote transactions")
    else
      ids ← alift (ValidatorVoteIDs_UnmarshalBinary (slice_bytes (Tx.Payload body)));
      maxVotes ← gets (fun st => MaxVotesPerTx (params st));
      awhen (maxVotes <? zlen ids) (afail (ErrMsg "number of voteIDs exceeds the limit"))
  else awhen (bool_decide (PayloadType body = PayloadTypeValidatorVoteBodies))
    (afail (ErrMsg "validator vote bodies can not enter the mempool")).

Definition on_events {A} (m : action EventStore A) : action W A := fun st =>
  let '(r, e) := m (ap_events st) in (r, set_events st e).

(** A transaction of this node whose votes will not be counted: they are
    offered again. *)
Definition rebroadcast (tx : Transaction) (body : TransactionBody) (sig : Signature) : action W unit :=
  awhen (bool_decide (PayloadType body = PayloadTypeValidatorVoteIDs) &&
         bool_decide (sig_Type sig = nd_AuthType N) &&
         bool_decide (slice_bytes (Sender tx) = nd_CompactID N))
    (ids ← alift (ValidatorVoteIDs_UnmarshalBinary (slice_bytes (Tx.Payload body)));
     on_events (MarkRebroadcast ids)).

(** The amount a transaction may cost: its fee and the transferred amount. *)
Definition pending_spend (body : TransactionBody) (fee : Z) (acct : Account) : result Z :=
  if bool_decide (PayloadType body = PayloadTypeTransfer) then
    transfer ← run_reader (Transfer_read reg) (slice_bytes (Tx.Payload body));
    match tr_Amount transfer with
    | None => Err (ErrPanic "nil pointer dereference")
    | Some amt =>
        if amt <? 0 then Err (ErrWrap "negative transfer not permitted" ErrInvalidAmount)
        else if Balance acct <? amt then Err ErrInsufficientBalance
        else Ok (fee + amt)
    end
  else Ok fee.

(** The end of [applyTransaction], under the mutex of the accounts. *)
Definition apply_pending (tx : Transaction) (body : TransactionBody) (sig : Signature) (fee : Z)
    (acctID : AccountID) : action W unit :=
  acct ← accountInfo ReadTx acctID;
  free ← gets (fun st => DisabledGasCosts (params st));
  if negb free && (acc_Nonce acct =? 0) && (Balance acct =? 0) then
    _ ← modify (fun st => set_mempool st (delete (slice_bytes (Sender tx)) (ap_mempool st)));
    afail ErrInsufficientBalance
  else if negb (Nonce body =? u64 (u64 (acc_Nonce acct) + 1)) then
    _ ← rebroadcast tx body sig;
    afail (ErrWrap "for account" ErrTxInvalidNonce)
  else
    spend ← alift (pending_spend body fee acct);
    let balance := if Balance acct <? spend then 0 else Balance acct - spend in
    write_account acctID (mkAccount (acc_ID acct) balance (i64 (Nonce body))).

Definition applyTransaction (view : tables) (ctx : TxContext) (tx : Transaction) : action W unit :=
  match tx_Signature tx, tx_Body tx with
  | None, _ => afail (ErrMsg "transaction signature is required")
  | Some _, None => afail (ErrWrap "fee cannot be negative or nil" ErrInvalidAmount)
  | Some sig, Some body =>
  match Fee body with
  | None => afail (ErrWrap "fee cannot be negative or nil" ErrInvalidAmount)
  | Some fee =>
  if fee <? 0 then afail (ErrWrap "fee cannot be negative or nil" ErrInvalidAmount)
  else
    _ ← alift (ValidatePayloadEncoding reg (PayloadType body) (slice_bytes (Tx.Payload body)));
    _ ← checkAdmission ctx tx body sig;
    _ ← check_migration view body;
    _ ← check_votes tx body sig;
    acctID ← alift (TxSenderAcctID N tx);
    apply_pending tx body sig fee acctID
  end
  end.

(** [ApplyMempool] of txapp.go. *)
Definition ApplyMempool (view : tables) (ctx : TxContext) (tx : Transaction) : action W unit :=
  match tx_Body tx with
  | None => afail (ErrPanic "nil pointer dereference")
  | Some body =>
      match getRoute N (PayloadType body) with
      | None => afail (ErrWrap "" ErrUnknownPayloadType)
      | Some _ => applyTransaction view ctx tx
      end
  end.

(** [AccountInfo] of txapp.go. *)
Definition AccountInfo (ex : executor) (acctID : AccountID) (getUnconfirmed : bool) : action W (Z * Z) :=
  a ← (if getUnconfirmed then accountInfo ex acctID else on_accounts (GetAccount reg ex acctID));
  mret (Balance a, acc_Nonce a).
End mempool.

(** ** Checks that only read *)

Section reads.
Context {S : Type}.

Definition reads {A} (m : action S A) : Prop := forall st, snd (m st) = st.

Lemma reads_ret {A} (a : A) : reads (mret a).
Proof. done. Qed.

Lemma reads_fail {A} e : reads (afail e : action S A).
Proof. done. Qed.

Lemma reads_lift {A} (r : result A) : reads (alift r).
Proof. done. Qed.

Lemma reads_gets {A} (f : S -> A) : reads (gets f).
Proof. done. Qed.

Lemma reads_when b (m : action S unit) : reads m -> reads (awhen b m).
Proof. by destruct b. Qed.

Lemma reads_bind {A B} (m : action S A) (k : A -> action S B) :
  reads m -> (forall a, reads (k a)) -> reads (m ≫= k).
Proof.
  intros Hm Hk st. unfold mbind, action_bind. specialize (Hm st).
  destruct (m st) as [[a|e] st']; cbn [snd] in *; subst st'; [apply Hk|done].
Qed.

(** A check in front of [k]: it passes or the state is as it was. *)
Lemma wp_check {A B} (m : action S A) (k : A -> action S B) Q st :
  reads m -> (forall a, m st = (Ok a, st) -> wp (k a) Q st) -> (forall e, Q (Err e) st) -> wp (m ≫= k) Q st.
Proof.
  intros Hm Hk He. apply wp_bind. unfold wp at 1. specialize (Hm st).
  destruct (m st) as [[a|e] st']; cbn [fst snd] in *; subst st'; [by apply Hk|apply He].
Qed.
End reads.

Create HintDb checks.
#[export] Hint Resolve reads_ret reads_fail reads_lift reads_gets : checks.

Ltac checks :=
  repeat first
    [ solve [auto with checks]
    | apply reads_when
    | apply reads_bind; [|intros]
    | match goal with |- reads (if ?b then _ else _) => destruct b end
    | match goal with |- reads (match ?x with _ => _ end) => destruct x end ].

(** ** Pending nonces *)

Definition nonce_of (L : ledger) (k : bytes * Z) : Z := from_option snd 0 (L !! k).

(** The map key of an account of the mempool. *)
Definition acct_enc (k : bytes * Z) : bytes :=
  (le_bytes 2 0 ++ le_bytes 4 (u32 (zlen k.1)) ++ k.1) ++ le_bytes 4 k.2.

Section facts.
Context {C : Type} `{HC : Cache (list byte) Account C} {X : Type}.
Context `{HS : Strings} `{HD : Decimals}.
#[local] Abbreviation W := (App C X).
Context `{HE : !Engine W}.
Context (N : Node W) (HN : node_ok N) (engine : option (admissionEngine X)).
#[local] Abbreviation reg := (nd_keys N).
Implicit Types (st : W) (tx : Transaction) (L : ledger).

Lemma marshal_key id k : ledger_key reg id = Some k -> AccountID_MarshalBinary reg id = Ok (acct_enc k).
Proof.
  intros (kd & Ei & Ekd & Ef & _)%ledger_key_inv. unfold AccountID_MarshalBinary, KeyTypeDefinition.
  by rewrite Ekd, Ei, Ef.
Qed.

Lemma acct_enc_inj id id' k k' :
  ledger_key reg id = Some k -> ledger_key reg id' = Some k' -> acct_enc k = acct_enc k' -> k = k'.
Proof using HN.
  intros (kd & _ & Ekd & Ef & _)%ledger_key_inv (kd' & _ & Ekd' & Ef' & _)%ledger_key_inv E.
  destruct (proj1 (ok_reg N HN) _ _ Ekd) as (_ & Hu & _). destruct (proj1 (ok_reg N HN) _ _ Ekd') as (_ & Hu' & _).
  rewrite Ef in Hu. rewrite Ef' in Hu'.
  apply app_inj_2 in E as [E1 E2]; [|by rewrite !length_le_bytes]. apply le_bytes_inj in E2; [|done..].
  apply app_inj_1 in E1 as [_ E1]; [|by rewrite !length_le_bytes].
  apply app_inj_1 in E1 as [_ E1]; [|by rewrite !length_le_bytes]. destruct k, k'. cbn in *. congruence.
Qed.

(** The mempool knows the next nonce of every account: [pend] of the accounts
    with pending transactions, the committed nonce of the others. *)
Definition pending st L0 (pend : bytes * Z -> Z) : Prop :=
  forall id k, ledger_key reg id = Some k ->
    match ap_mempool st !! acct_enc k with
    | Some acct => acc_Nonce acct = pend k
    | None => nonce_of L0 k = pend k
    end.

(** A sender that is not the map key of an account. *)
Definition plain_sender tx : Prop := forall k, slice_bytes (Sender tx) <> acct_enc k.

(** A transaction that [Execute] hands to its route, with the nonce that
    follows [n]. *)
Record next_tx tx (k : bytes * Z) (n : Z) (body : TransactionBody) : Prop := mkNextTx {
  nx_signed : tx_Signature tx <> None;
  nx_body : tx_Body tx = Some body;
  nx_sender : exists id, TxSenderAcctID N tx = Ok id /\ ledger_key reg id = Some k;
  nx_fee : exists fee, Fee body = Some fee /\ 0 <= fee;
  nx_payload : ValidatePayloadEncoding reg (PayloadType body) (slice_bytes (Tx.Payload body)) = Ok tt;
  nx_route : is_Some (getRoute N (PayloadType body));
  nx_nonce : Nonce body = u64 (u64 n + 1)
}.

Lemma pending_write st L0 pend id k acct m :
  pending st L0 pend -> ledger_key reg id = Some k ->
  ap_mempool st = m -> pending (set_mempool st (<[acct_enc k := acct]> m)) L0 (<[k := acc_Nonce acct]> pend).
Proof using HN.
  intros Hp Hk <- id' k' Hk'. cbn [ap_mempool set_mempool]. destruct (decide (k = k')) as [<-|Hne].
  - by rewrite lookup_insert_eq, fn_lookup_insert.
  - rewrite lookup_insert_ne, fn_lookup_insert_ne by (done || intros E; apply Hne; by eapply acct_enc_inj).
    by apply (Hp id').
Qed.

Lemma pending_ext st L0 pend pend' : (forall k, pend k = pend' k) -> pending st L0 pend -> pending st L0 pend'.
Proof. intros E Hp id k Hk. rewrite <- E. by apply (Hp id). Qed.

(** What every step of admission keeps. *)
Definition admission_keeps st L L0 st' : Prop :=
  refines reg (ap_accounts st') L L0 /\ ap_chain st' = ap_chain st.

Lemma accountInfo_spec st L L0 pend id k :
  refines reg (ap_accounts st) L L0 -> pending st L0 pend -> ledger_key reg id = Some k ->
  wp (accountInfo N ReadTx id) (fun r st' => admission_keeps st L L0 st' /\ pending st' L0 pend /\
    exists acct, r = Ok acct /\ acc_Nonce acct = pend k) st.
Proof using HN.
  intros R Hp Hk. unfold accountInfo. apply wp_bind, wp_lift. rewrite (marshal_key id k Hk).
  apply wp_bind, wp_gets. pose proof (Hp id k Hk) as Hpk.
  destruct (ap_mempool st !! acct_enc k) as [acct|]; [apply wp_ret; by split_and!; [..|exists acct]|].
  destruct (GetAccount_read_spec reg (ok_reg N HN) true _ _ _ id k R Hk) as (acct & a' & E & R' & Ha).
  rewrite (Ha (or_introl eq_refl)) in E.
  apply wp_bind. unfold wp at 1. rewrite (on_accounts_run _ _ _ _ E). cbn [fst snd].
  apply wp_bind, wp_modify, wp_ret. split; [by split|].
  assert (acc_Nonce (entry L0 k id) = pend k) as En.
  { rewrite <- Hpk. unfold nonce_of, entry. by destruct (L0 !! k) as [[b n]|]. }
  split; [|by eauto]. eapply pending_ext; [|eapply (pending_write (set_accounts st a') L0 pend id k); [exact Hp|done|done]].
  intros k'. rewrite En. destruct (decide (k = k')) as [<-|]; [by rewrite fn_lookup_insert|by rewrite fn_lookup_insert_ne].
Qed.

(** An accepted transaction advances the pending nonce of its sender; a refused
    one advances none. *)
Definition outcome_ok tx st L L0 (pend : bytes * Z -> Z) (r : result unit) st' : Prop :=
  admission_keeps st L L0 st' /\
  match r with
  | Err _ => pending st' L0 pend
  | Ok _ => exists k body, next_tx tx k (pend k) body /\ pending st' L0 (<[k := i64 (Nonce body)]> pend)
  end.

Lemma rebroadcast_spec tx body sig st L L0 pend :
  refines reg (ap_accounts st) L L0 -> pending st L0 pend ->
  wp (rebroadcast N tx body sig) (fun _ st' => admission_keeps st L L0 st' /\ pending st' L0 pend) st.
Proof.
  intros R Hp. apply wp_when; [intros _|done]. apply wp_bind, wp_lift.
  destruct (ValidatorVoteIDs_UnmarshalBinary _); done.
Qed.

(** The checks in front of [apply_pending] hold and only its write changes the
    pending nonce. *)
Lemma apply_pending_spec tx body sig fee id k st L L0 pend :
  refines reg (ap_accounts st) L L0 -> pending st L0 pend ->
  DisabledGasCosts (params st) = true \/ plain_sender tx ->
  TxSenderAcctID N tx = Ok id -> ledger_key reg id = Some k ->
  (Nonce body = u64 (u64 (pend k) + 1) -> next_tx tx k (pend k) body) ->
  wp (apply_pending N tx body sig fee id) (outcome_ok tx st L L0 pend) st.
Proof using HN.
  intros R Hp Hgas Hid Hk Hnext. unfold apply_pending. apply wp_bind.
  eapply wp_mono; [by apply (accountInfo_spec st L L0 pend id k)|].
  intros r st1 ([R1 Hc1] & Hp1 & acct & -> & Hn). apply wp_bind, wp_gets.
  destruct (_ && _ && _) eqn:Hunfunded.
  - apply wp_bind, wp_modify, wp_fail. split; [by split|]. intros id' k' Hk'. cbn [ap_mempool set_mempool].
    destruct Hgas as [Hgas|Hplain].
    + unfold params in Hunfunded, Hgas. rewrite Hc1, Hgas in Hunfunded. done.
    + rewrite lookup_delete_ne by apply Hplain. by apply (Hp1 id').
  - destruct (Z.eqb_spec (Nonce body) (u64 (u64 (acc_Nonce acct) + 1))) as [En|]; cbn [negb].
    + apply wp_bind, wp_lift. destruct (pending_spend N body fee acct) as [spend|e]; [|by split].
      unfold write_account. apply wp_bind, wp_lift. rewrite (marshal_key id k Hk). apply wp_modify.
      split; [by split|]. rewrite Hn in En. exists k, body. split; [by apply Hnext|].
      apply (pending_write st1 L0 pend id k (mkAccount _ _ (i64 (Nonce body)))); done.
    + apply wp_bind. eapply wp_mono; [by apply (rebroadcast_spec tx body sig st1 L L0 pend)|].
      intros r st2 [[R2 Hc2] Hp2]. assert (admission_keeps st L L0 st2) by (split; congruence).
      destruct r; [apply wp_fail|]; by split.
Qed.

Lemma checkAdmission_reads ctx tx body sig : reads (checkAdmission N engine ctx tx body sig).
Proof. unfold checkAdmission, checkAction, not_admitted. checks. Qed.

Lemma check_migration_reads view body : reads (check_migration N view body).
Proof. unfold check_migration. checks. Qed.

Lemma check_votes_reads tx body sig : reads (check_votes N tx body sig).
Proof. unfold check_votes. checks. Qed.
#[local] Hint Resolve checkAdmission_reads check_migration_reads check_votes_reads : checks.

Lemma ApplyMempool_spec view ctx tx st L L0 pend :
  refines reg (ap_accounts st) L L0 -> pending st L0 pend ->
  DisabledGasCosts (params st) = true \/ plain_sender tx ->
  wp (ApplyMempool N engine view ctx tx) (outcome_ok tx st L L0 pend) st.
Proof using HN.
  intros R Hp Hgas. unfold ApplyMempool.
  assert (forall e, outcome_ok tx st L L0 pend (Err e) st) as Herr by (intros e; by split).
  destruct (tx_Body tx) as [body|] eqn:Hb; [|by apply wp_fail].
  destruct (getRoute N (PayloadType body)) as [d|] eqn:Hd; [|by apply wp_fail].
  unfold applyTransaction. destruct (tx_Signature tx) as [sig|] eqn:Hsig; [|by apply wp_fail]. rewrite Hb.
  destruct (Fee body) as [fee|] eqn:Hfee; [|by apply wp_fail].
  destruct (Z.ltb_spec fee 0); [by apply wp_fail|].
  do 4 (apply wp_check; [by auto with checks|intros ? ?|done]). apply wp_check; [by auto with checks|intros id Eid|done].
  unfold alift in *. simplify_eq. destruct (sender_usable N HN tx id) as [k Hk]; [done|].
  apply (apply_pending_spec tx body sig fee id k); [done..|]. intros En.
  constructor; [by rewrite Hsig|done|by exists id|by exists fee|by destruct a|by exists d|done].
Qed.

(** ** Sequences of offers *)

(** Transactions offered to the mempool between two blocks, each with the
    tables its read transaction sees: those that are accepted. *)
Fixpoint admit_all (offers : list (tables * TxContext * Transaction)) st
  : list (TxContext * Transaction) * W :=
  match offers with
  | [] => ([], st)
  | (view, ctx, tx) :: offers' =>
      let '(r, st1) := ApplyMempool N engine view ctx tx st in
      let '(accepted, st2) := admit_all offers' st1 in
      (match r with Ok _ => (ctx, tx) :: accepted | Err _ => accepted end, st2)
  end.

(** Each transaction has the nonce that follows the last one of its sender. *)
Fixpoint nonce_chain (pend : bytes * Z -> Z) (txs : list Transaction) : Prop :=
  match txs with
  | [] => True
  | tx :: txs' => exists k body, next_tx tx k (pend k) body /\ nonce_chain (<[k := i64 (Nonce body)]> pend) txs'
  end.

Lemma admit_all_chain offers st L L0 pend :
  refines reg (ap_accounts st) L L0 -> pending st L0 pend ->
  DisabledGasCosts (params st) = true \/ Forall (fun o => plain_sender o.2) offers ->
  nonce_chain pend (fst (admit_all offers st)).*2.
Proof using HN.
  revert st pend. induction offers as [|[[view ctx] tx] offers IH]; intros st pend R Hp Hgas; [done|].
  cbn [admit_all]. pose proof (ApplyMempool_spec view ctx tx st L L0 pend R Hp) as Hs. unfold wp in Hs.
  destruct (ApplyMempool N engine view ctx tx st) as [r st1]. cbn [fst snd] in Hs.
  destruct Hs as [[R1 Hc1] Hr].
  { destruct Hgas as [?|Hf]; [by left|right]. by apply Forall_inv in Hf. }
  assert (DisabledGasCosts (params st1) = true \/ Forall (fun o => plain_sender o.2) offers) as Hgas1.
  { destruct Hgas as [?|Hf]; [left; unfold params; by rewrite Hc1|right]. by apply Forall_inv_tail in Hf. }
  destruct r as [[]|e].
  - destruct Hr as (k & body & Hnext & Hp1). specialize (IH st1 _ R1 Hp1 Hgas1).
    destruct (admit_all offers st1) as [acc st2]. cbn [fst] in *. by exists k, body.
  - specialize (IH st1 _ R1 Hr Hgas1). by destruct (admit_all offers st1).
Qed.

Lemma pending_empty st L0 : ap_mempool st = ∅ -> pending st L0 (nonce_of L0).
Proof. intros E id k _. by rewrite E, lookup_empty. Qed.

(** The nonces of the transactions that account [k] sent. *)
Definition sent_nonce (k : bytes * Z) tx : option Z :=
  match TxSenderAcctID N tx, tx_Body tx with
  | Ok id, Some body => if bool_decide (ledger_key reg id = Some k) then Some (Nonce body) else None
  | _, _ => None
  end.

Lemma nonce_chain_consecutive pend txs k :
  nonce_chain pend txs ->
  omap (sent_nonce k) txs = (fun i => u64 (pend k + 1 + Z.of_nat i)) <$> seq 0 (length (omap (sent_nonce k) txs)).
Proof.
  revert pend. induction txs as [|tx txs IH]; intros pend; [done|]. intros (k' & body & Hn & Hc).
  destruct (nx_sender _ _ _ _ Hn) as (id & Hid & Hk). specialize (IH _ Hc).
  assert (sent_nonce k tx = if bool_decide (Some k' = Some k) then Some (Nonce body) else None) as Es.
  { unfold sent_nonce. by rewrite Hid, (nx_body _ _ _ _ Hn), Hk. }
  cbn [omap list_omap]. rewrite Es. destruct (decide (k' = k)) as [->|Hne].
  - rewrite bool_decide_eq_true_2 by done. cbn [length seq fmap list_fmap]. f_equal.
    + rewrite (nx_nonce _ _ _ _ Hn), uwrap_uwrap_add. f_equal. lia.
    + rewrite <- fmap_S_seq, <- list_fmap_compose. rewrite IH at 1. apply list_fmap_ext. intros _ i _. cbn.
      rewrite fn_lookup_insert, (nx_nonce _ _ _ _ Hn), <- !Z.add_assoc.
      rewrite uwrap_swrap_add, uwrap_uwrap_add, <- Z.add_assoc, uwrap_uwrap_add by done. f_equal. lia.
  - rewrite bool_decide_eq_false_2 by congruence. rewrite fn_lookup_insert_ne in IH by done. exact IH.
Qed.

(** C28. Between two blocks the mempool admits the transactions of an account in
    the order of their nonces and without gaps: whatever is offered, the
    accepted ones carry the nonces that follow the committed nonce of the
    account, one by one. *)
Theorem admitted_nonces offers st L L0 k :
  refines reg (ap_accounts st) L L0 -> ap_mempool st = ∅ -> Forall (fun o => plain_sender o.2) offers ->
  let accepted := fst (admit_all offers st) in
  omap (sent_nonce k) accepted.*2 =
    (fun i => u64 (nonce_of L0 k + 1 + Z.of_nat i)) <$> seq 0 (length (omap (sent_nonce k) accepted.*2)).
Proof using HN.
  intros R Hm Hs. apply nonce_chain_consecutive. eapply admit_all_chain; [done|by apply pending_empty|by right].
Qed.

(** ** Admitted transactions reach their routes *)

#[local] Abbreviation agrees_app st := (agrees reg false (ap_accounts st)).

Lemma ledger_spend_free L k n :
  ledger_ok L -> i64 (nonce_of L k + 1) = n -> ledger_spend L k 0 n = Ok (<[k := (balance_of L k, n)]> L).
Proof.
  intros HL Hn. unfold ledger_spend, nonce_of, balance_of in *. change (0 <? 0) with false. cbv iota.
  destruct (L !! k) as [[b m]|] eqn:E; cbn [from_option fst snd] in *.
  - apply HL in E as [Hb _]. rewrite Hn, Z.eqb_refl. cbn [negb]. by rewrite Z.sub_0_r, (proj2 (Z.ltb_ge _ _)).
  - assert (n = 1) as -> by by subst n. done.
Qed.

Lemma next_nonce tx k n body : next_tx tx k n body -> i64 (n + 1) = i64 (Nonce body).
Proof. intros Hn. by rewrite (nx_nonce _ _ _ _ Hn), swrap_uwrap, <- (swrap_uwrap _ (n + 1)), <- (uwrap_uwrap_add _ n), swrap_uwrap by done. Qed.

(** A transaction with the next nonce passes the spend of a network without
    gas costs. *)
Lemma checkAndSpend_free tx price st L L0 k body :
  agrees_app st L L0 -> ledger_ok L -> DisabledGasCosts (params st) = true -> next_tx tx k (nonce_of L k) body ->
  exists a', checkAndSpend N tx price st = (Ok (Some 0, CodeOk, None), set_accounts st a') /\
    agrees reg false a' (<[k := (balance_of L k, i64 (Nonce body))]> L) L0.
Proof using HN.
  intros R HL Hgas Hn. unfold checkAndSpend. rewrite (nx_body _ _ _ _ Hn).
  destruct (nx_fee _ _ _ _ Hn) as (fee & -> & Hfee). rewrite (proj2 (Z.ltb_ge fee 0)) by done.
  unfold mbind, action_bind, gets. rewrite Hgas. cbn [mret action_ret].
  destruct (nx_sender _ _ _ _ Hn) as (id & -> & Hk).
  destruct (get_run N HN _ _ _ _ _ R Hk) as (acct & a1 & -> & R1). rewrite (proj2 (Z.ltb_ge fee 0)) by done.
  destruct (spend_run N HN (set_accounts st a1) L L0 id k 0 (i64 (Nonce body)) R1 Hk) as (a2 & -> & R2).
  rewrite (ledger_spend_free L k (i64 (Nonce body))) in * by (done || by apply (next_nonce tx k)).
  by exists a2.
Qed.

Lemma Execute_next ctx tx st L L0 k body :
  agrees_app st L L0 -> ledger_ok L -> DisabledGasCosts (params st) = true -> next_tx tx k (nonce_of L k) body ->
  exists d st1, getRoute N (PayloadType body) = Some d /\ ap_chain st1 = ap_chain st /\
    Execute N ctx tx st = run_route d ctx (Some 0) tx st1 /\
    agrees_app st1 (<[k := (balance_of L k, i64 (Nonce body))]> L) L0.
Proof using HN.
  intros R HL Hgas Hn. unfold Execute. destruct (tx_Signature tx) eqn:Hs; [|by destruct (nx_signed _ _ _ _ Hn)].
  rewrite (nx_body _ _ _ _ Hn), (nx_payload _ _ _ _ Hn). destruct (nx_route _ _ _ _ Hn) as [d ->].
  destruct (track_joins N body tx st) as [js ->]. unfold baseRoute_Execute.
  destruct (checkAndSpend_free tx (rt_Price d) (set_joins st js) L L0 k body R HL Hgas Hn) as (a' & -> & R').
  by exists d, (set_accounts (set_joins st js) a').
Qed.

Lemma moved_nonce_of L L' k : moved L L' -> nonce_of L' k = nonce_of L k.
Proof.
  intros [->|(kf & kt & amt & E)]; [done|]. revert E. unfold ledger_transfer, nonce_of. destruct (amt <? 0); [done|].
  destruct (L !! kf) as [[b n]|] eqn:Ef; [|done]. destruct (_ <? 0); [done|]. intros <-%(inj Ok).
  destruct (decide (kf = k)) as [<-|]; [by rewrite lookup_insert_eq, Ef|]. rewrite lookup_insert_ne by done.
  destruct (L !! kt) as [[b' n']|] eqn:Et; (destruct (decide (kt = k)) as [<-|];
    [by rewrite lookup_insert_eq, Et|by rewrite lookup_insert_ne]).
Qed.

(** The ledger after the route: at most one transfer away. *)
Lemma run_route_moved ty d ctx sp tx st L L0 :
  getRoute N ty = Some d -> agrees_app st L L0 -> named_target N tx ->
  exists L', agrees_app (snd (run_route d ctx sp tx st)) L' L0 /\ moved L L'.
Proof using HN.
  intros Hd R Hto. pose proof (run_route_failed N HN ty d ctx sp tx st L L0 Hd R) as Hf.
  pose proof (run_route_done N HN ty d ctx sp tx st L L0 Hd R Hto) as Hdone.
  destruct (run_route d ctx sp tx st) as [res st']. cbn [snd]. destruct (Error res) as [e|].
  - destruct Hf as (a' & -> & R' & _); [done|]. exists L. split; [done|by left].
  - destruct Hdone as (L' & R' & Hm & _); [done|]. by exists L'.
Qed.

Lemma execute_chain txs st L L0 pend pre ctx tx post :
  agrees_app st L L0 -> ledger_ok L -> DisabledGasCosts (params st) = true ->
  (forall k, nonce_of L k = pend k) -> nonce_chain pend txs.*2 -> Forall (fun ct => named_target N ct.2) txs ->
  txs = pre ++ (ctx, tx) :: post ->
  exists d body st1, tx_Body tx = Some body /\ getRoute N (PayloadType body) = Some d /\
    Execute N ctx tx (execute_all N pre st) = run_route d ctx (Some 0) tx st1.
Proof using HN.
  intros R HL Hgas Hn Hc Ht ->. revert st L pend R HL Hgas Hn Hc.
  induction pre as [|[ctx0 tx0] pre IH]; intros st L pend R HL Hgas Hn (k & body & Hnext & Hc).
  - cbn [app fmap list_fmap snd execute_all] in *. rewrite <- Hn in Hnext.
    destruct (Execute_next ctx tx st L L0 k body R HL Hgas Hnext) as (d & st1 & Hd & _ & E & _).
    exists d, body, st1. by split_and!; [apply (nx_body _ _ _ _ Hnext)|..].
  - cbn [execute_all]. rewrite <- Hn in Hnext. apply Forall_cons_1 in Ht as [Ht0 Ht].
    destruct (Execute_next ctx0 tx0 st L L0 k body R HL Hgas Hnext) as (d & st1 & Hd & Hch & -> & R1).
    destruct (run_route_moved _ d ctx0 (Some 0) tx0 st1 _ L0 Hd R1 Ht0) as (L' & R' & Hm).
    apply (IH Ht _ L' (<[k := i64 (Nonce body)]> pend)); [done| | | |done].
    + assert (ledger_ok (<[k := (balance_of L k, i64 (Nonce body))]> L)) as HL1.
      { apply ledger_ok_insert; [done| |by apply swrap_range]. unfold balance_of.
        destruct (L !! k) as [[b n]|] eqn:E; [|done]. by apply HL in E as [? _]. }
      destruct Hm as [->|(kf & kt & amt & Em)]; [done|by eapply ledger_transfer_ok].
    + unfold params. by rewrite (run_route_chain N HN _ d ctx0 _ tx0 st1 Hd), Hch.
    + intros k'. rewrite (moved_nonce_of _ _ k' Hm). unfold nonce_of. destruct (decide (k = k')) as [<-|].
      * by rewrite lookup_insert_eq, fn_lookup_insert.
      * rewrite lookup_insert_ne, fn_lookup_insert_ne by done. apply Hn.
Qed.

(** C26. In a network without gas costs, what the mempool admits can be executed:
    when the transactions that were admitted since the last block are executed
    in the order of their admission, each of them passes the checks of its
    encoding, sender, nonce and spend and runs the route of its payload,
    whatever the routes of the others do. *)
Theorem admitted_reach_routes offers st L L0 stx txs pre ctx tx post :
  refines reg (ap_accounts st) L L0 -> ap_mempool st = ∅ -> DisabledGasCosts (params st) = true ->
  agrees_app stx L0 L0 -> ledger_ok L0 -> DisabledGasCosts (params stx) = true ->
  txs.*2 = (fst (admit_all offers st)).*2 -> Forall (fun ct => named_target N ct.2) txs ->
  txs = pre ++ (ctx, tx) :: post ->
  exists d body st1, tx_Body tx = Some body /\ getRoute N (PayloadType body) = Some d /\
    Execute N ctx tx (execute_all N pre stx) = run_route d ctx (Some 0) tx st1.
Proof using HN.
  intros R Hm Hgas Rx HL0 Hgasx Htxs Hto Hpre.
  apply (execute_chain txs stx L0 L0 (nonce_of L0) pre ctx tx post); [done..| |done|done].
  rewrite Htxs. eapply admit_all_chain; [done|by apply pending_empty|by left].
Qed.
End facts.

(** ** Concrete offers *)

(** Bob offers three transfers, the second with a nonce that is not next. *)
Definition offers : list (tables * TxContext * Transaction) :=
  [(mkTables ∅ ∅ ∅ ∅ ∅, context, pay 7 0 1); (mkTables ∅ ∅ ∅ ∅ ∅, context, pay 7 0 3);
   (mkTables ∅ ∅ ∅ ∅ ∅, context, pay 7 0 2)].

Lemma pay_plain amt fee nonce : plain_sender (pay amt fee nonce).
Proof. intros k E%(f_equal length). unfold acct_enc in E. rewrite !length_app, !length_le_bytes in E. cbn in E. lia. Qed.

Lemma admitted_nonces_witness :
  let nonces := omap (sent_nonce node bob_key) (fst (admit_all node None offers (start_state false rich))).*2 in
  nonces = (fun i => u64 (0 + 1 + Z.of_nat i)) <$> seq 0 (length nonces) /\ nonces = [1; 2].
Proof.
  split; [|by vm_compute].
  apply (admitted_nonces node node_node_ok None offers (start_state false rich) rich_ledger rich_ledger bob_key rich_refines).
  - done.
  - repeat constructor; apply pay_plain.
Defined.

Lemma admitted_reach_routes_witness :
  exists d body st1, tx_Body (pay 7 0 2) = Some body /\ getRoute node (PayloadType body) = Some d /\
    Execute node context (pay 7 0 2) (execute_all node [(context, pay 7 0 1)] (start_state true rich)) =
      run_route d context (Some 0) (pay 7 0 2) st1.
Proof.
  apply (admitted_reach_routes node node_node_ok None offers (start_state true rich) rich_ledger rich_ledger (start_state true rich)
    [(context, pay 7 0 1); (context, pay 7 0 2)] [(context, pay 7 0 1)] context (pay 7 0 2) [] rich_refines).
  - done.
  - done.
  - exact rich_agrees.
  - unfold rich_ledger. intros k b n [[_ [= <- <-]]|[_ E]]%lookup_insert_Some; [split; [lia|const_range]|by rewrite lookup_empty in E].
  - done.
  - by vm_compute.
  - repeat constructor; by apply pay_named.
  - done.
Defined.
