(* ===== verification/Finalize.v ===== *)
(** * The end of a block

    [processVotes], [Finalize], [Commit], [Rollback] and [GenesisInit] of
    src/node/txapp/txapp.go, the hooks of src/extensions/hooks/hooks.go, the
    genesis configuration of src/config/config.go, and the resolve functions of
    src/node/voting/validators.go, src/extensions/resolutions/credit/credit.go
    and src/node/consensus/updates.go. *)

From S2P Require Import Prelude.
From S2P Require Import Wire.
From S2P Require Import BigInt.
From S2P Require Import Keys.
From S2P Require Import Ident.
From S2P Require Import Order.
From S2P Require Import Tx.
From S2P Require Import Params.
From S2P Require Import Payloads.
From S2P Require Import Values.
From S2P Require Import Auth.
From S2P Require Import Cache.
From S2P Require Import Accounts.
From S2P Require Import Records.
From S2P Require Import Voting.
From S2P Require Import Events.
From S2P Require Import TxApp.
From S2P Require Import Admission.
From Stdlib Require Import Strings.Byte.

#[local] Open Scope Z_scope.

(** ** Strings *)

(** [strings.Split] by one byte. *)
Fixpoint split_at (sep : byte) (s : bytes) : list bytes :=
  match s with
  | [] => [[]]
  | b :: s' =>
      if bool_decide (b = sep) then [] :: split_at sep s'
      else match split_at sep s' with
           | [] => [[b]]
           | p :: ps => (b :: p) :: ps
           end
  end.

(** [order.OrderMap]: the entries of a map by ascending key. *)
Definition OrderMap {A} (m : gmap (list byte) A) : list (bytes * A) :=
  omap (fun k => (fun v => (k, v)) <$> m !! k) (sorted_ids (dom m)).

(** ** Hooks *)

Definition RegisterHook {H} (name : bytes) (hook : H) (hooks : gmap (list byte) H)
  : result (gmap (list byte) H) :=
  match hooks !! name with
  | Some _ => Err (ErrMsg "hook already exists")
  | None => Ok (<[name := hook]> hooks)
  end.

Definition ListHooks {H} (hooks : gmap (list byte) H) : list (bytes * H) := OrderMap hooks.

(** ** Credits *)

Abbreviation creditMap := (gmap (list byte) Z).

Definition add_credit (c : creditMap) (key : bytes) (amt : Z) : creditMap :=
  <[key := default 0 (c !! key) + amt]> c.

Definition reward_voter (res : Resolution) (c : creditMap) (voter : Validator) : creditMap :=
  if bool_decide (slice_bytes (Identifier (val_ID voter)) = slice_bytes (Identifier (val_ID (res_Proposer res))))
  then c
  else add_credit c (EncodePubKeyAndType (slice_bytes (Identifier (val_ID voter))) (acct_KeyType (val_ID voter)))
         ValidatorVoteIDPrice.

Definition applyResolution (c : creditMap) (res : Resolution) : creditMap :=
  let c := foldl (reward_voter res) c (res_Voters res) in
  let bodyCost := i64 (ValidatorVoteBodyBytePrice * slice_len (res_Body res)) in
  let proposer := val_ID (res_Proposer res) in
  add_credit c (EncodePubKeyAndType (slice_bytes (Identifier proposer)) (acct_KeyType proposer)) bodyCost.

Definition resolutionExpired (expiration blockTime : Z) : bool := expiration <=? blockTime.

(** The types whose identifiers may come again and are not marked processed. *)
Definition reusable (ty : bytes) : bool :=
  bool_decide (ty = ValidatorJoinEventType) || bool_decide (ty = ValidatorRemoveEventType).

(** ** Genesis *)

Record GenesisAlloc := mkAlloc { al_ID : bytes; al_KeyType : bytes; al_Amount : option Z }.

Record GenesisConfig := mkGenesisConfig {
  gc_ChainID : bytes;
  InitialHeight : Z;
  DBOwner : bytes;
  gc_Validators : list Validator;
  StateHash : slice;
  Allocs : list GenesisAlloc;
  gc_Migration : Z * Z;
  gc_Params : NetworkParameters
}.

Definition check_validator (reg : registry) (val : Validator) : result unit :=
  let id := val_ID val in
  if Power val <=? 0 then Err (ErrMsg "Genesis validators should have non-zero power")
  else match KeyTypeDefinition reg (acct_KeyType id) with
  | None => Err (ErrMsg "invalid key type")
  | Some _ =>
      match UnmarshalPublicKey reg (slice_bytes (Identifier id)) (acct_KeyType id) with
      | Err e => if is_panic e then Err e else Err (ErrMsg "invalid public key")
      | Ok _ => Ok tt
      end
  end.

Definition Genesis_SanityChecks (reg : registry) (gc : GenesisConfig) : result unit :=
  if negb ((slice_len (StateHash gc) =? 0) || (slice_len (StateHash gc) =? 32))
  then Err (ErrMsg "invalid state hash, must be empty or 32 bytes")
  else if zlen (gc_Validators gc) =? 0 then Err (ErrMsg "no validators provided")
  else
    _ ← mapR (check_validator reg) (gc_Validators gc);
    if InitialHeight gc <? 0 then Err (ErrMsg "initial height must be greater than or equal to 0")
    else
      _ ← SanityChecks (gc_Params gc);
      if xorb ((gc_Migration gc).1 =? 0) ((gc_Migration gc).2 =? 0)
      then Err (ErrMsg "both start and end height should be set or unset")
      else match np_Leader (gc_Params gc) with
      | None => Err (ErrPanic "nil pointer dereference")
      | Some leader =>
          if existsb (same_validator (Some (pk_Bytes leader)) (pk_Type leader)) (gc_Validators gc)
          then Ok tt
          else Err (ErrMsg "leader is not part of the validator set")
      end.

(** ** Bodies of resolutions *)

Record AccountCreditResolution := mkAccountCredit {
  acr_Account : slice;
  acr_KeyType : bytes;
  acr_Amount : option Z;
  acr_TxHash : slice
}.

Definition AccountCredit_MarshalBinary (a : AccountCreditResolution) : bytes :=
  le_bytes 2 0 ++ WriteBytes (acr_Account a) ++ WriteString (acr_KeyType a) ++ WriteBigInt (acr_Amount a) ++
  WriteBytes (acr_TxHash a).

Definition AccountCredit_read : reader AccountCreditResolution :=
  _ ← read_version (ErrMsg "invalid account credit resolution version");
  account ← ReadBytes HasLen;
  keyType ← ReadString HasLen;
  amount ← ReadBigInt HasLen;
  txHash ← ReadBytes HasLen;
  mret (mkAccountCredit account keyType amount txHash).

Record ParamUpdatesDeclaration := mkDeclaration { Description : bytes; pud_ParamUpdates : ParamUpdates }.

Definition Declaration_MarshalBinary (reg : registry) (pud : ParamUpdatesDeclaration) : result bytes :=
  updBts ← ParamUpdates_MarshalBinary reg (pud_ParamUpdates pud);
  mret (le_bytes 2 0 ++ WriteString (Description pud) ++ WriteBytes (Some updBts)).

(** The error of reading the version is dropped: a short input counts as
    version zero and leaves nothing to read. *)
Definition read_version_unchecked : reader unit := fun bs =>
  match bs with
  | a :: b :: bs' =>
      if le_value [a; b] =? 0 then Ok (tt, bs') else Err (ErrMsg "invalid version")
  | _ => Ok (tt, [])
  end.

Definition Declaration_read (reg : registry) : reader ParamUpdatesDeclaration :=
  _ ← read_version_unchecked;
  desc ← ReadString HasLen;
  updBts ← ReadBytes HasLen;
  pu ← rlift (ParamUpdates_UnmarshalBinary reg updBts);
  mret (mkDeclaration desc pu).

Section finalize.
Context {C : Type} `{HC : Cache (list byte) Account C} {X : Type}.
Context `{HS : Strings} `{HD : Decimals}.
#[local] Abbreviation W := (App C X).
Context `{HE : !Engine W}.
Context (N : Node W).

#[local] Abbreviation reg := (nd_keys N).
#[local] Abbreviation uuid := (nd_uuid N).
#[local] Abbreviation get_resolution := (GetResolution (nd_resolutions N)).
#[local] Abbreviation resolve_func := (Resolution -> BlockContext -> action W unit).

(** ** Confirmation *)

(** The lists that [processVotes] collects. *)
Record decisions := mkDecisions {
  credits : creditMap;
  decidedIDs : list bytes;
  markProcessedIDs : list bytes;
  resolveFuncs : list (Resolution * resolve_func);
  joins : list AccountID
}.

Definition no_decisions : decisions := mkDecisions ∅ [] [] [] [].

Definition mark (res : Resolution) (ids : list bytes) : list bytes :=
  if reusable (res_Type res) then ids else ids ++ [res_ID res].

Definition confirm_one (timestamp : Z) (f : resolve_func) (d : decisions) (res : Resolution) : decisions :=
  if resolutionExpired (res_Expiration res) timestamp then d
  else mkDecisions (applyResolution (credits d) res) (decidedIDs d ++ [res_ID res])
         (mark res (markProcessedIDs d)) (resolveFuncs d ++ [(res, f)]) (joins d).

Fixpoint confirm_types (t : tables) (totalPower timestamp : Z) (resTypes : list bytes) (d : decisions)
  : result decisions :=
  match resTypes with
  | [] => Ok d
  | resolutionType :: resTypes' =>
      cfg ← wrap_err "error getting resolution config" (get_resolution resolutionType);
      match ConfirmationThreshold cfg with
      | None => Err (ErrPanic "nil pointer dereference")
      | Some threshold =>
          finalized ← wrap_err "error getting resolutions"
            (GetResolutionsByThresholdAndType reg uuid t threshold resolutionType totalPower);
          confirm_types t totalPower timestamp resTypes'
            (foldl (confirm_one timestamp (ResolveFunc cfg)) d finalized)
      end
  end.

(** Each resolve function runs in a nested transaction; its error is logged. *)
Fixpoint resolve_all (block : BlockContext) (fs : list (Resolution * resolve_func)) : action W unit := fun st =>
  match fs with
  | [] => (Ok tt, st)
  | (res, f) :: fs' =>
      match f res block st with
      | (Ok _, st1) => resolve_all block fs' st1
      | (Err e, st1) => if is_panic e then (Err e, st1) else resolve_all block fs' (restore st st1)
      end
  end.

(** ** Expiry *)

(** The threshold of a type is looked up before it is stored: the first
    resolution of a type is compared with zero. *)
Definition required_power (required : gmap (list byte) Z) (totalPower : Z) (ty : bytes)
  : result (Z * gmap (list byte) Z) :=
  match required !! ty with
  | Some threshold => Ok (threshold, required)
  | None =>
      cfg ← wrap_err "error getting resolution config" (get_resolution ty);
      match RefundThreshold cfg with
      | None => Err (ErrPanic "nil pointer dereference")
      | Some rt => Ok (0, <[ty := RequiredPower rt totalPower]> required)
      end
  end.

Definition expired_join (res : Resolution) : result (list AccountID) :=
  if bool_decide (res_Type res = ValidatorJoinEventType) then
    req ← wrap_err "failed to unmarshal join request" (UpdatePowerRequest_UnmarshalBinary (slice_bytes (res_Body res)));
    mret [mkAccountID (up_PubKey req) (up_PubKeyType req)]
  else Ok [].

Fixpoint expire_all (totalPower : Z) (expired : list Resolution) (required : gmap (list byte) Z) (d : decisions)
  : result decisions :=
  match expired with
  | [] => Ok d
  | res :: expired' =>
      js ← expired_join res;
      '(threshold, required') ← required_power required totalPower (res_Type res);
      let refunded := threshold <=? res_ApprovedPower res in
      expire_all totalPower expired' required'
        (mkDecisions (if refunded then applyResolution (credits d) res else credits d)
           (decidedIDs d ++ [res_ID res]) (mark res (markProcessedIDs d)) (resolveFuncs d) (joins d ++ js))
  end.

(** ** Payment *)

Definition credit_key (key : bytes) : result AccountID :=
  match split_at x23 key with
  | [pub; kt] =>
      pubKey ← wrap_err "failed to decode public key" (hex_decode pub);
      keyType ← wrap_err "failed to parse key type" (ParseKeyType reg kt);
      mret (mkAccountID (Some pubKey) keyType)
  | _ => Err (ErrMsg "invalid key in credit map")
  end.

Fixpoint credit_all (kvs : list (bytes * Z)) : action W unit :=
  match kvs with
  | [] => mret tt
  | (key, amt) :: kvs' =>
      acct ← alift (credit_key key);
      _ ← awrap "error crediting account" (on_accounts (Credit reg acct (Some amt)));
      credit_all kvs'
  end.

Definition processVotes (block : BlockContext) : action W (list AccountID) :=
  totalPower ← gets validatorSetPower;
  t ← gets ap_tables;
  d ← alift (confirm_types t totalPower (bc_Timestamp block) (sorted_resolutions (nd_resolutions N)) no_decisions);
  _ ← resolve_all block (resolveFuncs d);
  t ← gets ap_tables;
  expired ← alift (wrap_err "error getting expired resolutions" (GetExpired reg uuid t (bc_Timestamp block)));
  d ← alift (expire_all totalPower expired ∅ d);
  _ ← modify (fun st => set_voting st (ap_votes st, DeleteResolutions (ap_tables st) (decidedIDs d)));
  _ ← on_tables (fun t => wrap_err "error marking resolutions as processed" (MarkProcessed t (markProcessedIDs d)));
  _ ← modify (fun st => set_events st (DeleteEvents (markProcessedIDs d) (ap_events st)));
  free ← gets (fun st => DisabledGasCosts (params st));
  _ ← awhen (negb free) (credit_all (OrderMap (credits d)));
  mret (joins d).

(** ** Finalize, commit, rollback *)

Fixpoint run_hooks (hooks : list (bytes * (BlockContext -> action W unit))) (block : BlockContext) : action W unit :=
  match hooks with
  | [] => mret tt
  | (_, hook) :: hooks' =>
      _ ← awrap "error running end block hook" (hook block);
      run_hooks hooks' block
  end.

(** The approved and the expired joins. *)
Definition Finalize (endBlockHooks : gmap (list byte) (BlockContext -> action W unit)) (block : BlockContext)
  : action W (list AccountID * list AccountID) :=
  expiredJoins ← processVotes block;
  _ ← run_hooks (ListHooks endBlockHooks) block;
  approved ← gets ap_approvedJoins;
  mret (approved, expiredJoins).

(** [Commit] copies the updates of the accounts and of the validators in map
    iteration order. *)
Definition Commit (accts : list (bytes * Account)) (vals : list (bytes * Validator)) (st : W) : W :=
  let st := set_accounts st (Accounts.Commit accts (ap_accounts st)) in
  let st := set_voting st (Voting.Commit vals (ap_votes st), ap_tables st) in
  set_joins (reset st) [].

Definition Rollback (st : W) : W :=
  let st := set_accounts st (Accounts.Rollback (ap_accounts st)) in
  let st := set_voting st (Voting.Rollback (ap_votes st), ap_tables st) in
  set_joins (reset st) [].

(** ** Genesis *)

Fixpoint set_validators (vals : list Validator) : action W unit :=
  match vals with
  | [] => mret tt
  | v :: vals' =>
      _ ← on_voting (SetValidatorPower reg uuid (Identifier (val_ID v)) (acct_KeyType (val_ID v)) (Power v));
      set_validators vals'
  end.

Fixpoint fund_accounts (allocs : list GenesisAlloc) : action W unit :=
  match allocs with
  | [] => mret tt
  | al :: allocs' =>
      keyType ← alift (ParseKeyType reg (al_KeyType al));
      _ ← on_accounts (Credit reg (mkAccountID (Some (al_ID al)) keyType) (al_Amount al));
      fund_accounts allocs'
  end.

Fixpoint run_genesis_hooks (hooks : list (bytes * action W unit)) : action W unit :=
  match hooks with
  | [] => mret tt
  | (_, hook) :: hooks' =>
      _ ← awrap "error running genesis hook" hook;
      run_genesis_hooks hooks'
  end.

Definition GenesisInit (genesisHooks : gmap (list byte) (action W unit)) (genCfg : GenesisConfig) : action W unit :=
  _ ← set_validators (gc_Validators genCfg);
  _ ← fund_accounts (Allocs genCfg);
  _ ← engine_ExecuteWithoutCtx (str "TRANSFER OWNERSHIP TO $user") {[str "user" := VScalar (SText (DBOwner genCfg))]};
  run_genesis_hooks (ListHooks genesisHooks).

(** ** Resolve functions *)

Definition resolve_join : resolve_func := fun resolution _ =>
  joinReq ← alift (wrap_err "failed to unmarshal join request"
                     (UpdatePowerRequest_UnmarshalBinary (slice_bytes (res_Body resolution))));
  on_voting (SetValidatorPower reg uuid (up_PubKey joinReq) (up_PubKeyType joinReq) (up_Power joinReq)).

Definition resolve_remove : resolve_func := fun resolution _ =>
  removeReq ← alift (wrap_err "failed to unmarshal remove request"
                       (UpdatePowerRequest_UnmarshalBinary (slice_bytes (res_Body resolution))));
  if negb (up_Power removeReq =? 0) then afail (ErrMsg "remove request with non-zero power")
  else on_voting (SetValidatorPower reg uuid (up_PubKey removeReq) (up_PubKeyType removeReq) 0).

Definition resolve_credit : resolve_func := fun resolution _ =>
  credit ← alift (run_reader AccountCredit_read (slice_bytes (res_Body resolution)));
  match acr_Amount credit with
  | None => afail (ErrPanic "nil pointer dereference")
  | Some amount =>
      if amount <? 0 then afail (ErrMsg "credit amount cannot be negative")
      else
        keyType ← alift (wrap_err "invalid key type" (ParseKeyType reg (acr_KeyType credit)));
        on_accounts (Credit reg (mkAccountID (acr_Account credit) keyType) (Some amount))
  end.

Definition set_updates (st : W) (pu : ParamUpdates) : W :=
  let c := ap_chain st in
  mkApp (ap_accounts st) (ap_votes st) (ap_tables st) (ap_events st) (ap_engine st)
    (mkChainContext (cc_ChainID c) (NetworkParameters_ c) (Some pu) (MigrationParams c))
    (ap_mempool st) (ap_approvedJoins st).

Definition resolve_param_updates : resolve_func := fun resolution _ =>
  pud ← alift (run_reader (Declaration_read reg) (slice_bytes (res_Body resolution)));
  modify (fun st => set_updates st
    (ParamUpdates_Merge (default ∅ (NetworkUpdates (ap_chain st))) (pud_ParamUpdates pud))).

(** The registrations of the init functions. *)
Definition native_resolutions : result (gmap (list byte) (ResolutionConfig W)) :=
  regs ← RegisterResolution ValidatorJoinEventType ModAdd
           (mkResolutionConfig None (Some (mkRat 2 3)) 0 resolve_join) ∅;
  regs ← RegisterResolution ValidatorRemoveEventType ModAdd
           (mkResolutionConfig None (Some (mkRat 2 3)) 0 resolve_remove) regs;
  regs ← RegisterResolution (str "credit_account") ModAdd
           (mkResolutionConfig (Some (mkRat 1 3)) (Some (mkRat 2 3)) (3600 * 1000000000) resolve_credit) regs;
  RegisterResolution (str "param_updates") ModAdd
    (mkResolutionConfig None (Some (mkRat 1 2)) (7 * one_day) resolve_param_updates) regs.
End finalize.
