(* ===== verification/FinalizeFacts.v ===== *)
(** * What the end of a block does

    Facts about Finalize.v: [processVotes] settles exactly the resolutions that
    are confirmed or expired and never fails on consistent tables; which
    expired resolutions are refunded; and a resolution that stops every later
    block. *)

From S2P Require Import Prelude.
From S2P Require Import Wire.
From S2P Require Import BigInt.
From S2P Require Import Keys.
From S2P Require Import Ident.
From S2P Require Import Order.
From S2P Require Import Tx.
From S2P Require Import Params.
From S2P Require Import Payloads.
From S2P Require Import Values.
From S2P Require Import Auth.
From S2P Require Import Cache.
From S2P Require Import Accounts.
From S2P Require Import Records.
From S2P Require Import Voting.
From S2P Require Import Events.
From S2P Require Import TxApp.
From S2P Require Import TxFacts.
From S2P Require Import TxSamples.
From S2P Require Import Admission.
From S2P Require Import Finalize.
From Stdlib Require Import Strings.Byte.

#[local] Open Scope Z_scope.

(** ** Strings and maps *)

Lemma split_at_none sep s : sep ∉ s -> split_at sep s = [s].
Proof.
  induction s as [|b s IH]; intros Hn; [done|]. apply not_elem_of_cons in Hn as [Hb Hs]. cbn [split_at].
  by rewrite bool_decide_eq_false_2, IH by done.
Qed.

Lemma split_at_one sep a b : sep ∉ a -> sep ∉ b -> split_at sep (a ++ sep :: b) = [a; b].
Proof.
  intros Ha Hb. induction a as [|x a IH]; cbn [app split_at].
  - by rewrite bool_decide_eq_true_2, split_at_none.
  - apply not_elem_of_cons in Ha as [Hx Ha]. by rewrite bool_decide_eq_false_2, IH by done.
Qed.

Lemma hash_not_hex bs : x23 ∉ hex_encode bs.
Proof. intros H%hex_encode_above. by vm_compute in H. Qed.

Lemma elem_of_OrderMap {A} (m : gmap (list byte) A) k v : (k, v) ∈ OrderMap m -> m !! k = Some v.
Proof. unfold OrderMap. intros (k' & _ & (w & E & [= -> ->])%fmap_Some)%list_elem_of_omap. done. Qed.

Lemma sql_markProcessed_total t ids :
  NoDup ids -> (forall id, id ∈ ids -> id ∉ processed t) ->
  exists t', sql_markProcessed t ids = Ok t' /\ processed t' = list_to_set ids ∪ processed t.
Proof.
  intros Hnd. revert t. induction Hnd as [|id ids Hid _ IH]; intros t Hp; cbn [sql_markProcessed].
  { exists t. split; [done|]. cbn. by rewrite (left_id_L ∅ (∪)). }
  rewrite decide_False by (apply Hp; constructor). destruct (IH (set_processed t ({[id]} ∪ processed t))) as (t' & E & P).
  { intros id' Hin. cbn. rewrite not_elem_of_union, not_elem_of_singleton. split; [by intros ->|].
    apply Hp. by constructor. }
  exists t'. split; [done|]. rewrite P. cbn. by rewrite (assoc_L (∪)), (comm_L (∪) (list_to_set ids)).
Qed.

#[export] Instance resolution_row_eq_decision : EqDecision resolution_row.
Proof. solve_decision. Defined.

Section facts.
Context {C : Type} `{HC : Cache (list byte) Account C} {X : Type}.
Context `{HS : Strings} `{HD : Decimals}.
#[local] Abbreviation W := (App C X).
Context `{HE : !Engine W}.
Context (N : Node W) (HN : node_ok N) `{Huuid : !Inj (=) (=) (nd_uuid N)}.
#[local] Abbreviation reg := (nd_keys N).
#[local] Abbreviation uuid := (nd_uuid N).
#[local] Abbreviation resolve_func := (Resolution -> BlockContext -> action W unit).
Implicit Types (st : W) (t : tables) (d : decisions (C := C) (X := X)).

(** ** Assumptions *)

(** Resolutions are registered under lower-case names with thresholds. *)
Definition registered_ok : Prop := forall k cfg, nd_resolutions N !! k = Some cfg ->
  ToLower k = k /\ is_Some (ConfirmationThreshold cfg) /\ is_Some (RefundThreshold cfg).

(** What the end of a block relies on: consistent voting tables with known
    types, and accounts that represent a ledger. *)
Record inv st : Prop := mkInv {
  inv_tables : tables_ok reg uuid (ap_tables st);
  inv_types : forall tid name, resolution_types (ap_tables st) !! tid = Some name -> is_Some (nd_resolutions N !! name);
  inv_accounts : exists L L0, agrees reg false (ap_accounts st) L L0 /\ ledger_ok L
}.

Definition same_resolutions t t' : Prop :=
  Voting.resolutions t' = Voting.resolutions t /\ resolution_types t' = resolution_types t /\ processed t' = processed t.

#[global] Instance same_resolutions_preorder : PreOrder same_resolutions.
Proof. split; [by intros t|]. intros t1 t2 t3 (? & ? & ?) (? & ? & ?). split_and!; congruence. Qed.

(** A resolve function that does not panic on the resolution, keeps the tables
    of resolutions and, when it fails, can be rolled back. *)
Definition resolve_ok (f : resolve_func) (res : Resolution) : Prop := forall block st, inv st ->
  match f res block st with
  | (Ok _, st1) => inv st1 /\ same_resolutions (ap_tables st) (ap_tables st1)
  | (Err e, st1) => is_panic e = false /\ inv (restore st st1)
  end.

(** ** Credits *)

Definition credits_ok (c : creditMap) : Prop := forall key amt, c !! key = Some amt ->
  0 <= amt /\ exists id k, credit_key N key = Ok id /\ ledger_key reg id = Some k.

Lemma credit_key_ok pk kt n :
  encodePubKey reg pk kt = Ok n ->
  exists id k, credit_key N (EncodePubKeyAndType (slice_bytes pk) kt) = Ok id /\ ledger_key reg id = Some k.
Proof using HN.
  intros E. assert (exists kd, keyTypes reg !! kt = Some kd) as [kd Ekd].
  { unfold encodePubKey, WireEncodeKeyType in E. destruct (keyTypes reg !! kt) as [kd|]; [by exists kd|done]. }
  destruct (ok_keys N HN _ _ Ekd) as [_ Hh]. unfold credit_key, EncodePubKeyAndType.
  rewrite split_at_one by (done || apply hash_not_hex). rewrite hex_decode_encode. cbn [wrap_err mbind result_bind].
  unfold ParseKeyType, KeyTypeDefinition. rewrite Ekd. cbn [wrap_err mbind result_bind mret result_ret].
  rewrite (proj1 (proj1 (ok_reg N HN) _ _ Ekd)).
  destruct (usable_key N HN (slice_bytes pk) kt) as [k Hk]; [by exists kd|]. by exists (mkAccountID (Some (slice_bytes pk)) kt), k.
Qed.

Lemma add_credit_ok c pk kt n amt :
  encodePubKey reg pk kt = Ok n -> 0 <= amt -> credits_ok c ->
  credits_ok (add_credit c (EncodePubKeyAndType (slice_bytes pk) kt) amt).
Proof using HN.
  intros E Ha Hc key a. unfold add_credit. intros [[<- <-]|[_ Hk]]%lookup_insert_Some; [|by apply Hc].
  split; [|by eapply credit_key_ok]. destruct (c !! _) as [b|] eqn:Eb; cbn; [apply Hc in Eb as [? _]; lia|lia].
Qed.

(** The size of a body whose price is an [int64]. *)
Definition small_body (body : slice) : Prop := slice_len body < 2 ^ 53.

Lemma applyResolution_ok t id res c :
  info_of reg t id res -> small_body (res_Body res) -> credits_ok c -> credits_ok (applyResolution c res).
Proof using HN.
  intros Hi Hb Hc. unfold applyResolution. destruct (io_proposer _ _ _ _ Hi) as [n En].
  eapply add_credit_ok; [exact En| |].
  - unfold ValidatorVoteBodyBytePrice. pose proof (zlen_nonneg (slice_bytes (res_Body res))). unfold small_body, slice_len in *.
    rewrite swrap_small; [lia|done|]. unfold is_sint. change (2 ^ (64 - 1)) with 9223372036854775808.
    change (2 ^ 53) with 9007199254740992 in Hb. lia.
  - pose proof (io_voters _ _ _ _ Hi) as Hv. clear Hi En. revert c Hc.
    induction Hv as [|row v rows vs [Ev _] _ IH]; intros c Hc; [done|]. cbn [foldl]. apply IH. unfold reward_voter.
    case_bool_decide; [done|]. by eapply add_credit_ok.
Qed.

(** ** Confirmation *)

Definition marked (Rs : list Resolution) : list bytes :=
  map res_ID (List.filter (fun R => negb (reusable (res_Type R))) Rs).

Definition add_decided d (fs : list (Resolution * resolve_func)) : decisions :=
  mkDecisions (foldl applyResolution (credits d) fs.*1) (decidedIDs d ++ map res_ID fs.*1)
    (markProcessedIDs d ++ marked fs.*1) (resolveFuncs d ++ fs) (joins d).

Lemma add_decided_nil d : add_decided d [] = d.
Proof. destruct d. unfold add_decided. cbn. by rewrite !app_nil_r. Qed.

Lemma marked_app Rs Rs' : marked (Rs ++ Rs') = marked Rs ++ marked Rs'.
Proof. unfold marked. by rewrite List.filter_app, map_app. Qed.

Lemma add_decided_app d fs fs' : add_decided d (fs ++ fs') = add_decided (add_decided d fs) fs'.
Proof. unfold add_decided. cbn. by rewrite fmap_app, foldl_app, map_app, marked_app, !app_assoc. Qed.

Lemma confirm_fold ts f Rs d :
  foldl (confirm_one ts f) d Rs =
  add_decided d (map (fun R => (R, f)) (List.filter (fun R => negb (resolutionExpired (res_Expiration R) ts)) Rs)).
Proof.
  revert d. induction Rs as [|R Rs IH]; intros d; cbn [foldl List.filter map].
  { by rewrite add_decided_nil. }
  rewrite IH. unfold confirm_one. destruct (resolutionExpired _ _); [done|]. cbn [negb map].
  etrans; [|symmetry; apply (add_decided_app d [(R, f)])]. f_equal. unfold add_decided, mark, marked. cbn.
  by destruct (reusable (res_Type R)); rewrite ?app_nil_r.
Qed.

(** A resolution that has the votes and the time. *)
Definition confirmed t (total ts : Z) (id name : bytes) : Prop :=
  exists r cfg th, Voting.resolutions t !! id = Some r /\ resolution_types t !! rr_type r = Some name /\
    nd_resolutions N !! name = Some cfg /\ ConfirmationThreshold cfg = Some th /\
    power_reached t (RequiredPower th total) id = true /\ ts < rr_expiration r.

Definition to_resolve t (Rf : Resolution * resolve_func) : Prop :=
  info_of reg t (res_ID Rf.1) Rf.1 /\
  exists cfg, nd_resolutions N !! res_Type Rf.1 = Some cfg /\ Rf.2 = ResolveFunc cfg.

Lemma info_of_type t id R r name :
  info_of reg t id R -> Voting.resolutions t !! id = Some r -> resolution_types t !! rr_type r = Some name ->
  res_Type R = name /\ res_Expiration R = rr_expiration r /\ res_Body R = rr_body r.
Proof. intros Hi Hr Hn. destruct (io_row _ _ _ _ Hi) as (r' & Hr' & Hn' & Hb & He). by simplify_eq. Qed.

(** One type: the live resolutions that the threshold query returns. *)
Lemma confirm_type t total ts ty cfg th Rs :
  tables_ok reg uuid t -> nd_resolutions N !! ty = Some cfg -> ConfirmationThreshold cfg = Some th ->
  GetResolutionsByThresholdAndType reg uuid t th ty total = Ok Rs ->
  let fs := map (fun R => (R, ResolveFunc cfg)) (List.filter (fun R => negb (resolutionExpired (res_Expiration R) ts)) Rs) in
  Forall (to_resolve t) fs /\ Forall (fun Rf => res_Type Rf.1 = ty) fs /\ NoDup (map res_ID fs.*1) /\
  forall id, id ∈ map res_ID fs.*1 <-> confirmed t total ts id ty.
Proof using HN Huuid.
  intros Hok Hcfg Hth Eq. unfold GetResolutionsByThresholdAndType in Eq.
  destruct (query_total reg (ok_reg N HN) uuid t (fun id _ name => bool_decide (name = ty) &&
    power_reached t (RequiredPower th total) id) Hok) as (Rs' & E & Hids & Hinfo).
  rewrite E in Eq. apply (inj Ok) in Eq as <-. cbv zeta.
  set (live := List.filter _ Rs'). assert ((map (fun R => (R, ResolveFunc cfg)) live).*1 = live) as ->.
  { rewrite <- list_fmap_compose. apply list_fmap_id. }
  assert (forall R, R ∈ Rs' -> info_of reg t (res_ID R) R /\ res_Type R = ty /\ exists r, Voting.resolutions t !! res_ID R = Some r /\
    resolution_types t !! rr_type r = Some ty /\ power_reached t (RequiredPower th total) (res_ID R) = true /\
    res_Expiration R = rr_expiration r) as HR.
  { intros R Hin. rewrite list.Forall_forall in Hinfo. pose proof (Hinfo R Hin) as Hi.
    assert (res_ID R ∈ map res_ID Rs') as Hid by by apply list_elem_of_fmap_2.
    rewrite Hids, select_resolutions_spec in Hid. destruct Hid as (r & name & Hr & Hn & [->%bool_decide_eq_true Hp]%andb_true_iff).
    destruct (info_of_type _ _ _ _ _ Hi Hr Hn) as (? & ? & _). eauto 10. }
  assert (forall R, R ∈ live <-> R ∈ Rs' /\ ts < res_Expiration R) as Hlive.
  { intros R. unfold live, resolutionExpired. rewrite !list_elem_of_In, filter_In. split; intros [? H]; (split; [done|]).
    - apply negb_true_iff, Z.leb_gt in H. done.
    - apply negb_true_iff, Z.leb_gt. done. }
  split_and!.
  - apply list.Forall_forall. intros Rf (R & -> & [Hin _]%Hlive)%list_elem_of_fmap. destruct (HR R Hin) as (? & Ht & _).
    split; [done|]. exists cfg. cbn [fst]. by rewrite Ht.
  - apply list.Forall_forall. intros Rf (R & -> & [Hin _]%Hlive)%list_elem_of_fmap. by destruct (HR R Hin) as (? & Ht & _).
  - apply (sublist_NoDup _ (map res_ID Rs')); [rewrite Hids; apply select_NoDup|].
    apply (fmap_sublist res_ID). unfold live. clear. induction Rs' as [|R Rs IH]; [done|]. cbn.
    destruct (negb _); by constructor.
  - intros id. split.
    + intros (R & -> & [Hin He]%Hlive)%list_elem_of_fmap. destruct (HR R Hin) as (_ & _ & r & ? & ? & ? & Ex).
      exists r, cfg, th. rewrite <- Ex. by split_and!.
    + intros (r & cfg' & th' & Hr & Hn & ? & ? & Hp & He). simplify_eq.
      assert (id ∈ map res_ID Rs') as (R & -> & Hin)%list_elem_of_fmap.
      { rewrite Hids, select_resolutions_spec. exists r, ty. by rewrite bool_decide_eq_true_2. }
      apply list_elem_of_fmap_2, Hlive. split; [done|]. destruct (HR R Hin) as (_ & _ & r' & ? & _ & _ & Ex). by simplify_eq; lia.
Qed.

Lemma get_registered k cfg : registered_ok -> nd_resolutions N !! k = Some cfg -> GetResolution (nd_resolutions N) k = Ok cfg.
Proof. intros Hr E. unfold GetResolution. destruct (Hr _ _ E) as [-> _]. by rewrite E. Qed.

Lemma to_resolve_type t fs id :
  Forall (to_resolve t) fs -> id ∈ map res_ID fs.*1 ->
  exists R r, R ∈ fs.*1 /\ res_ID R = id /\ Voting.resolutions t !! id = Some r /\ resolution_types t !! rr_type r = Some (res_Type R).
Proof.
  intros Hfs (R & -> & (Rf & -> & Hin)%list_elem_of_fmap)%list_elem_of_fmap. rewrite list.Forall_forall in Hfs.
  destruct (Hfs Rf Hin) as [Hi _]. destruct (io_row _ _ _ _ Hi) as (r & Hr & Hn & _).
  exists Rf.1, r. by split_and!; [apply list_elem_of_fmap_2|..].
Qed.

Lemma confirm_types_spec t total ts types d :
  tables_ok reg uuid t -> registered_ok -> NoDup types -> (forall ty, ty ∈ types -> is_Some (nd_resolutions N !! ty)) ->
  exists fs, confirm_types N t total ts types d = Ok (add_decided d fs) /\ Forall (to_resolve t) fs /\
    NoDup (map res_ID fs.*1) /\
    forall id, id ∈ map res_ID fs.*1 <-> exists name, name ∈ types /\ confirmed t total ts id name.
Proof using HN Huuid.
  intros Hok Hreg Hnd. revert d. induction Hnd as [|ty types Hty Hnd IH]; intros d Hk; cbn [confirm_types].
  { exists []. rewrite add_decided_nil. split_and!; [done|done|constructor|].
    intros id. split; [by intros ?%not_elem_of_nil|by intros (name & ?%not_elem_of_nil & _)]. }
  destruct (Hk ty ltac:(constructor)) as [cfg Ecfg]. rewrite (get_registered _ _ Hreg Ecfg). cbn [wrap_err mbind result_bind].
  destruct (Hreg _ _ Ecfg) as (_ & [th Eth] & _). rewrite Eth.
  destruct (GetResolutionsByThresholdAndType reg uuid t th ty total) as [Rs|e] eqn:Eq.
  2: { unfold GetResolutionsByThresholdAndType in Eq. edestruct (query_total reg (ok_reg N HN) uuid t) as (Rs & E & _); [done|].
       by rewrite E in Eq. }
  cbn [wrap_err mbind result_bind]. rewrite confirm_fold. set (fs := map _ _).
  destruct (confirm_type t total ts ty cfg th Rs Hok Ecfg Eth Eq) as (H1 & H2 & H3 & H4). fold fs in H1, H2, H3, H4.
  destruct (IH (add_decided d fs)) as (fs' & E & H1' & H3' & H4'); [intros; apply Hk; by constructor|].
  exists (fs ++ fs'). rewrite E, add_decided_app. split_and!; [done|by apply Forall_app|..].
  - rewrite fmap_app, map_app. apply NoDup_app. split_and!; [done| |done]. intros id Hin Hin'.
    apply H4 in Hin as (r & ? & ? & Hr & Hn & _). apply H4' in Hin' as (name & Hname & r' & ? & ? & Hr' & Hn' & _). by simplify_eq.
  - intros id. rewrite fmap_app, map_app, elem_of_app, H4, H4'. split.
    + intros [H|(name & ? & ?)]; [exists ty|exists name]; (split; [by constructor|done]).
    + intros (name & [->|?]%elem_of_cons & ?); [by left|right; by exists name].
Qed.

Lemma resolve_all_spec block fs st :
  inv st -> Forall (fun Rf => resolve_ok Rf.2 Rf.1) fs ->
  exists st', resolve_all block fs st = (Ok tt, st') /\ inv st' /\ same_resolutions (ap_tables st) (ap_tables st').
Proof.
  intros Hi Hfs. revert st Hi. induction Hfs as [|[R f] fs Hf _ IH]; intros st Hi; [by exists st|]. cbn [resolve_all].
  specialize (Hf block st Hi). cbn [fst snd] in Hf. destruct (f R block st) as [[u|e] st1].
  - destruct Hf as [Hi1 Hs1]. destruct (IH st1 Hi1) as (st' & E & Hi' & Hs'). exists st'. split_and!; [done..|by etrans].
  - destruct Hf as [-> Hi1]. destruct (IH _ Hi1) as (st' & E & Hi' & Hs'). by exists st'.
Qed.

(** ** Expiry *)

Definition refund_threshold (total : Z) (ty : bytes) : Z :=
  match nd_resolutions N !! ty with
  | Some cfg => match RefundThreshold cfg with Some rt => RequiredPower rt total | None => 0 end
  | None => 0
  end.

(** The expired resolutions that are refunded, where [seen] holds the types of
    the resolutions before: the first of each type is compared with zero. *)
Fixpoint refunded (total : Z) (seen : gset (list byte)) (Rs : list Resolution) : list Resolution :=
  match Rs with
  | [] => []
  | R :: Rs' =>
      let threshold := if bool_decide (res_Type R ∈ seen) then refund_threshold total (res_Type R) else 0 in
      let rest := refunded total ({[res_Type R]} ∪ seen) Rs' in
      if threshold <=? res_ApprovedPower R then R :: rest else rest
  end.

Definition decodable_join (R : Resolution) : Prop :=
  res_Type R = ValidatorJoinEventType -> exists req, UpdatePowerRequest_UnmarshalBinary (slice_bytes (res_Body R)) = Ok req.

Lemma expire_all_spec total Rs seen required d :
  registered_ok -> Forall (fun R => is_Some (nd_resolutions N !! res_Type R) /\ decodable_join R) Rs ->
  (forall ty, required !! ty = if bool_decide (ty ∈ seen) then Some (refund_threshold total ty) else None) ->
  exists js, expire_all N total Rs required d =
    Ok (mkDecisions (foldl applyResolution (credits d) (refunded total seen Rs)) (decidedIDs d ++ map res_ID Rs)
          (markProcessedIDs d ++ marked Rs) (resolveFuncs d) (joins d ++ js)).
Proof.
  intros Hreg HRs. revert seen required d. induction HRs as [|R Rs [[cfg Ecfg] Hj] _ IH]; intros seen required d Hreq.
  { exists []. cbn. rewrite !app_nil_r. by destruct d. }
  cbn [expire_all]. assert (exists j, expired_join R = Ok j) as [j ->].
  { unfold expired_join. case_bool_decide as Hty; [|by eexists]. destruct (Hj Hty) as [req ->]. by eexists. }
  cbn [mbind result_bind].
  assert (required_power N required total (res_Type R) =
    Ok (if bool_decide (res_Type R ∈ seen) then refund_threshold total (res_Type R) else 0,
        if bool_decide (res_Type R ∈ seen) then required
        else <[res_Type R := refund_threshold total (res_Type R)]> required)) as ->.
  { unfold required_power. rewrite Hreq. case_bool_decide; [done|]. rewrite (get_registered _ _ Hreg Ecfg).
    cbn [wrap_err mbind result_bind]. unfold refund_threshold. rewrite Ecfg.
    destruct (Hreg _ _ Ecfg) as (_ & _ & [rt ->]). done. }
  cbn [mbind result_bind]. edestruct (IH ({[res_Type R]} ∪ seen)) as [js ->].
  { intros ty. destruct (decide (res_Type R = ty)) as [<-|Hne].
    - rewrite (bool_decide_eq_true_2 (res_Type R ∈ {[res_Type R]} ∪ seen)) by (apply elem_of_union_l; by apply elem_of_singleton).
      case_bool_decide; [by rewrite Hreq, bool_decide_eq_true_2|by rewrite lookup_insert_eq].
    - assert (bool_decide (ty ∈ {[res_Type R]} ∪ seen) = bool_decide (ty ∈ seen)) as ->.
      { apply bool_decide_ext. rewrite elem_of_union, elem_of_singleton. split; [by intros [->|?]|by right]. }
      case_bool_decide; [apply Hreq|by rewrite lookup_insert_ne]. }
  exists (j ++ js). f_equal. cbn [credits decidedIDs markProcessedIDs resolveFuncs joins map refunded].
  f_equal; [..|by rewrite app_assoc].
  - by destruct (_ <=? _).
  - by rewrite <- app_assoc.
  - unfold mark, marked. cbn [List.filter]. by destruct (reusable (res_Type R)); cbn; rewrite <- ?app_assoc.
Qed.

Lemma refunded_subset total seen Rs R : R ∈ refunded total seen Rs -> R ∈ Rs.
Proof.
  revert seen. induction Rs as [|R' Rs IH]; intros seen; cbn [refunded]; [done|]. rewrite elem_of_cons.
  destruct (_ <=? _); [rewrite elem_of_cons; intros [->|?]|intros ?]; eauto.
Qed.

(** ** Payment *)

Lemma ledger_credit_ok L k amt : ledger_ok L -> 0 <= amt -> exists L', ledger_credit L k amt = Ok L' /\ ledger_ok L'.
Proof.
  intros HL Ha. assert (is_sint 64 0) by const_range. unfold ledger_credit. destruct (L !! k) as [[b n]|] eqn:E.
  - destruct (HL _ _ _ E). rewrite (proj2 (Z.ltb_ge _ _)) by lia. eexists. split; [done|]. apply ledger_ok_insert; [done|lia|done].
  - rewrite (proj2 (Z.ltb_ge _ _)) by lia. eexists. split; [done|]. by apply ledger_ok_insert.
Qed.

Lemma credit_all_spec kvs st :
  inv st -> Forall (fun kv => 0 <= kv.2 /\ exists id k, credit_key N kv.1 = Ok id /\ ledger_key reg id = Some k) kvs ->
  exists a', credit_all N kvs st = (Ok tt, set_accounts st a') /\ inv (set_accounts st a').
Proof using HN.
  intros Hi Hk. revert st Hi. induction Hk as [|[key amt] kvs (Ha & id & k & Ek & Hk) _ IH]; intros st Hi.
  { exists (ap_accounts st). by rewrite set_accounts_id. }
  cbn [credit_all fst snd] in *. rewrite Ek. unfold mbind, action_bind, alift, awrap.
  destruct (inv_accounts _ Hi) as (L & L0 & R & HL).
  destruct (Credit_implements reg (ok_reg N HN) _ _ _ id k amt R Hk) as (a1 & Hc).
  destruct (ledger_credit_ok L k amt HL Ha) as (L' & El & HL').
  rewrite El in Hc. destruct Hc as [Ec Ra]. rewrite (on_accounts_run _ _ _ _ Ec). cbn [wrap_err].
  apply (IH (set_accounts st a1)). destruct Hi. by constructor; [..|exists L', L0].
Qed.

(** ** The whole of [processVotes] *)

(** The resolutions that the end of a block decides: expired, or with the
    power that their type asks for. *)
Definition settled t (total ts : Z) (kr : bytes * resolution_row) : bool :=
  (rr_expiration kr.2 <=? ts) ||
  match resolution_types t !! rr_type kr.2 with
  | Some name =>
      match nd_resolutions N !! name with
      | Some cfg =>
          match ConfirmationThreshold cfg with
          | Some th => power_reached t (RequiredPower th total) kr.1
          | None => false
          end
      | None => false
      end
  | None => false
  end.

(** A row whose identifier is never marked as processed. *)
Definition reusable_row t (r : resolution_row) : bool :=
  match resolution_types t !! rr_type r with Some name => reusable name | None => false end.

(** What the stored resolutions must satisfy: they are not processed yet, their
    bodies have a size, join requests can be decoded, and the resolve function of
    the type does not panic on the body. *)
Record rows_ok t : Prop := mkRowsOk {
  rw_new : forall id, is_Some (Voting.resolutions t !! id) -> id ∉ processed t;
  rw_size : forall id r, Voting.resolutions t !! id = Some r -> small_body (rr_body r);
  rw_join : forall id r, Voting.resolutions t !! id = Some r -> resolution_types t !! rr_type r = Some ValidatorJoinEventType ->
    exists req, UpdatePowerRequest_UnmarshalBinary (slice_bytes (rr_body r)) = Ok req;
  rw_resolve : forall id r R cfg, Voting.resolutions t !! id = Some r ->
    resolution_types t !! rr_type r = Some (res_Type R) -> res_Body R = rr_body r ->
    nd_resolutions N !! res_Type R = Some cfg -> resolve_ok (ResolveFunc cfg) R
}.

(** The rows that a block leaves. *)
Lemma rows_ok_settled t t' (is_settled : bytes * resolution_row -> bool) :
  rows_ok t -> resolution_types t' = resolution_types t ->
  Voting.resolutions t' = filter (fun kr => is_settled kr = false) (Voting.resolutions t) ->
  (forall id, id ∈ processed t' <-> id ∈ processed t \/
     exists r, Voting.resolutions t !! id = Some r /\ is_settled (id, r) = true /\ reusable_row t r = false) ->
  rows_ok t'.
Proof.
  intros [H1 H2 H3 H4] Et Er Hp. constructor; rewrite ?Et, Er.
  - intros id [r [Hr Hs]%map_lookup_filter_Some] [?|(r' & Hr' & Hs' & _)]%Hp; [by apply (H1 id); [eexists|]|congruence].
  - intros id r [Hr _]%map_lookup_filter_Some. by eapply H2.
  - intros id r [Hr _]%map_lookup_filter_Some. by eapply H3.
  - intros id r R cfg [Hr _]%map_lookup_filter_Some. by eapply H4.
Qed.

Lemma settled_cases t total ts id :
  tables_ok reg uuid t -> registered_ok ->
  (exists r, Voting.resolutions t !! id = Some r /\ settled t total ts (id, r) = true) <->
  (exists name, name ∈ sorted_resolutions (nd_resolutions N) /\ confirmed t total ts id name) \/
  (exists r name, Voting.resolutions t !! id = Some r /\ resolution_types t !! rr_type r = Some name /\ rr_expiration r <= ts).
Proof.
  intros Hok Hreg. unfold settled. cbn [fst snd]. split.
  - intros (r & Hr & Hs). destruct (to_resolutions _ _ _ Hok _ _ Hr) as ([name Hn] & _). rewrite Hn in Hs.
    destruct (Z.leb_spec (rr_expiration r) ts) as [?|He]; [right; eauto|]. left. exists name. cbn in Hs.
    destruct (nd_resolutions N !! name) as [cfg|] eqn:Ec; [|done]. destruct (ConfirmationThreshold cfg) as [th|] eqn:Et; [|done].
    split; [|by exists r, cfg, th]. unfold sorted_resolutions. apply elem_of_sorted_ids, elem_of_dom. by exists cfg.
  - intros [(name & _ & r & cfg & th & Hr & Hn & Ec & Et & Hp & _)|(r & name & Hr & Hn & He)]; exists r; (split; [done|]).
    + by rewrite Hn, Ec, Et, Hp, orb_true_r.
    + by rewrite (proj2 (Z.leb_le _ _)).
Qed.

Lemma marked_spec t Rs id :
  Forall (fun R => info_of reg t (res_ID R) R) Rs ->
  id ∈ marked Rs <-> id ∈ map res_ID Rs /\ exists r, Voting.resolutions t !! id = Some r /\ reusable_row t r = false.
Proof.
  intros HR. unfold marked. rewrite list.Forall_forall in HR. split.
  - intros (R & -> & [Hin Hn]%list_elem_of_In%filter_In)%list_elem_of_fmap. apply list_elem_of_In in Hin.
    split; [by apply list_elem_of_fmap_2|]. destruct (io_row _ _ _ _ (HR R Hin)) as (r & Hr & Ht & _).
    exists r. unfold reusable_row. rewrite Ht. by apply negb_true_iff in Hn.
  - intros [(R & -> & Hin)%list_elem_of_fmap (r & Hr & Hn)]. apply list_elem_of_fmap_2, list_elem_of_In, filter_In.
    split; [by apply list_elem_of_In|]. destruct (io_row _ _ _ _ (HR R Hin)) as (r' & Hr' & Ht & _). simplify_eq.
    unfold reusable_row in Hn. rewrite Ht in Hn. by rewrite Hn.
Qed.

Lemma marked_NoDup Rs : NoDup (map res_ID Rs) -> NoDup (marked Rs).
Proof.
  intros Hnd. apply (sublist_NoDup _ _ Hnd), (fmap_sublist res_ID). clear.
  induction Rs as [|R Rs IH]; [done|]. cbn. destruct (negb _); by constructor.
Qed.

Lemma foldl_applyResolution_ok t Rs c :
  Forall (fun R => info_of reg t (res_ID R) R /\ small_body (res_Body R)) Rs -> credits_ok c ->
  credits_ok (foldl applyResolution c Rs).
Proof using HN.
  intros HR. revert c. induction HR as [|R Rs [Hi Hb] _ IH]; intros c Hc; [done|]. cbn. apply IH. by eapply applyResolution_ok.
Qed.

(** The information about a resolution survives the resolve functions, as far
    as the row goes. *)
Lemma info_of_same t t' R :
  same_resolutions t t' -> info_of reg t' (res_ID R) R ->
  exists r, Voting.resolutions t !! res_ID R = Some r /\ resolution_types t !! rr_type r = Some (res_Type R) /\
    res_Body R = rr_body r /\ res_Expiration R = rr_expiration r.
Proof. intros (Er & Et & _) Hi. destruct (io_row _ _ _ _ Hi) as (r & Hr & Hn & ?). exists r. by rewrite <- Er, <- Et. Qed.

Lemma DeleteResolutions_rows t ids :
  Voting.resolutions (DeleteResolutions t ids) = filter (fun kr => kr.1 ∉ ids) (Voting.resolutions t) /\
  processed (DeleteResolutions t ids) = processed t.
Proof.
  destruct ids; [|done]. split; [|done]. cbn. symmetry. apply map_filter_id. intros. apply not_elem_of_nil.
Qed.

Lemma MarkProcessed_total t ids :
  NoDup ids -> (forall id, id ∈ ids -> id ∉ processed t) ->
  exists t', MarkProcessed t ids = Ok t' /\ Voting.resolutions t' = Voting.resolutions t /\
    forall id, id ∈ processed t' <-> id ∈ processed t \/ id ∈ ids.
Proof.
  intros Hnd Hp. destruct ids as [|id ids].
  { exists t. split_and!; [done..|]. intros id. rewrite elem_of_nil. tauto. }
  destruct (sql_markProcessed_total t (id :: ids) Hnd Hp) as (t' & E & P). exists t'. split; [done|].
  destruct (sql_markProcessed_same _ _ _ E) as (_ & Er & _). split; [done|]. intros id'.
  rewrite P, elem_of_union, elem_of_list_to_set. tauto.
Qed.

Lemma inv_set_voting st t :
  tables_ok reg uuid t -> resolution_types t = resolution_types (ap_tables st) -> inv st -> inv (set_voting st (ap_votes st, t)).
Proof. intros Hok Et []. constructor; [done| |done]. cbn. by rewrite Et. Qed.

(** The expired resolutions and their refunds. *)
Lemma expire_phase t1 t total ts d :
  tables_ok reg uuid t1 -> same_resolutions t t1 -> rows_ok t -> registered_ok ->
  (forall tid name, resolution_types t !! tid = Some name -> is_Some (nd_resolutions N !! name)) -> credits_ok (credits d) ->
  exists Rs js c, GetExpired reg uuid t1 ts = Ok Rs /\ Forall (fun R => info_of reg t1 (res_ID R) R) Rs /\
    NoDup (map res_ID Rs) /\ credits_ok c /\
    (forall id, id ∈ map res_ID Rs <-> exists r name, Voting.resolutions t !! id = Some r /\
       resolution_types t !! rr_type r = Some name /\ rr_expiration r <= ts) /\
    expire_all N total Rs ∅ d = Ok (mkDecisions c (decidedIDs d ++ map res_ID Rs) (markProcessedIDs d ++ marked Rs)
      (resolveFuncs d) (joins d ++ js)).
Proof using HN Huuid.
  intros Hok Hs Hrows Hreg Hty Hc.
  destruct (query_total reg (ok_reg N HN) uuid t1 (fun _ r _ => rr_expiration r <=? ts) Hok) as (Rs & E & Hids & Hinfo).
  unfold GetExpired. rewrite E. pose proof Hinfo as HR. rewrite list.Forall_forall in HR.
  destruct (expire_all_spec total Rs ∅ ∅ d Hreg) as (js & Ej).
  { apply list.Forall_forall. intros R Hin. destruct (info_of_same t t1 R Hs (HR R Hin)) as (r & Hr & Hn & Hb & _).
    split; [by eapply Hty|]. intros Et. rewrite Et in Hn. rewrite Hb. by eapply rw_join. }
  { intros ty. by rewrite lookup_empty, bool_decide_eq_false_2 by apply not_elem_of_empty. }
  exists Rs, js, (foldl applyResolution (credits d) (refunded total ∅ Rs)). split_and!; [done|done| | | |done].
  - rewrite Hids. apply select_NoDup.
  - apply (foldl_applyResolution_ok t1); [|done]. apply list.Forall_forall. intros R Hin%refunded_subset.
    split; [by apply HR|]. destruct (info_of_same t t1 R Hs (HR R Hin)) as (r & Hr & _ & -> & _). by eapply rw_size.
  - intros id. rewrite Hids, select_resolutions_spec. destruct Hs as (-> & -> & _). by setoid_rewrite Z.leb_le.
Qed.

(** Deleting the decided resolutions and marking identifiers. *)
Lemma settle_phase t1 t ids marks (is_settled : bytes * resolution_row -> bool) :
  same_resolutions t t1 -> tables_ok reg uuid t1 -> NoDup marks ->
  (forall id, is_Some (Voting.resolutions t !! id) -> id ∉ processed t) ->
  (forall id, id ∈ ids <-> exists r, Voting.resolutions t !! id = Some r /\ is_settled (id, r) = true) ->
  (forall id, id ∈ marks <-> id ∈ ids /\ exists r, Voting.resolutions t !! id = Some r /\ reusable_row t r = false) ->
  exists t2, MarkProcessed (DeleteResolutions t1 ids) marks = Ok t2 /\ tables_ok reg uuid t2 /\
    resolution_types t2 = resolution_types t1 /\
    Voting.resolutions t2 = filter (fun kr => is_settled kr = false) (Voting.resolutions t) /\
    forall id, id ∈ processed t2 <-> id ∈ processed t \/
      exists r, Voting.resolutions t !! id = Some r /\ is_settled (id, r) = true /\ reusable_row t r = false.
Proof.
  intros (Er & _ & Ep) Hok Hnd Hnew Hids Hmarks. destruct (DeleteResolutions_rows t1 ids) as [Ed Epd].
  destruct (MarkProcessed_total (DeleteResolutions t1 ids) marks Hnd) as (t2 & E & E2 & P2).
  { intros id Hin. rewrite Epd, Ep. apply Hnew. apply Hmarks in Hin as (_ & r & Hr & _). by exists r. }
  exists t2. split; [done|].
  assert (tables_ok reg uuid (DeleteResolutions t1 ids)) as Hokd by (by apply (vt_step_ok reg uuid t1); [constructor|]).
  assert (resolution_types t2 = resolution_types (DeleteResolutions t1 ids)) as Et2.
  { destruct marks; [by apply (inj Ok) in E as <-|]. by apply sql_markProcessed_same in E as (_ & _ & _ & ? & _). }
  split_and!; [by apply (vt_step_ok reg uuid (DeleteResolutions t1 ids)); [by apply (vt_mark _ _ _ _ marks)|]|by destruct ids|..].
  - rewrite E2, Ed, Er. apply map_filter_ext. intros id r Hr. cbn [fst]. rewrite Hids. split.
    + intros Hn. destruct (is_settled (id, r)) eqn:Es; [|done]. destruct Hn. by exists r.
    + intros Hn (r' & Hr' & Hs). simplify_eq. congruence.
  - intros id. rewrite P2, Epd, Ep, Hmarks, Hids. split; (intros [?|H]; [by left|right]).
    + destruct H as [(r & Hr & Hs) (r' & Hr' & Hn)]. rewrite Hr in Hr'. injection Hr' as <-. by exists r.
    + destruct H as (r & Hr & Hs & Hn). split; by exists r.
Qed.

(** C22. The end of a block decides the open resolutions.  Given voting tables and
    accounts that are consistent ([inv]), types registered under lower-case names
    with thresholds, and stored resolutions that are not processed yet, have bodies
    below 2^53 bytes, decode where they are join requests, and on which the resolve
    function of their type does not panic and keeps the tables of resolutions
    ([rows_ok]): [processVotes] succeeds; exactly the resolutions that are expired
    or that reached the power of their type are removed; those whose identifiers may
    not come again are marked as processed; the other resolutions stay; and the
    tables, the accounts and the stored resolutions satisfy the same conditions for
    the next block. *)
Theorem processVotes_settles block st :
  registered_ok -> inv st -> rows_ok (ap_tables st) ->
  let t := ap_tables st in
  let is_settled := settled t (validatorSetPower st) (bc_Timestamp block) in
  exists expiredJoins st', processVotes N block st = (Ok expiredJoins, st') /\ inv st' /\ rows_ok (ap_tables st') /\
    Voting.resolutions (ap_tables st') = filter (fun kr => is_settled kr = false) (Voting.resolutions t) /\
    forall id, id ∈ processed (ap_tables st') <-> id ∈ processed t \/
      exists r, Voting.resolutions t !! id = Some r /\ is_settled (id, r) = true /\ reusable_row t r = false.
Proof using HN Huuid.
  intros Hreg Hi Hrows t is_settled. unfold processVotes.
  rewrite (action_bind_Ok _ _ _ _ _ (eq_refl : gets validatorSetPower st = _)), (action_bind_Ok _ _ _ _ _ (eq_refl : gets ap_tables st = _)).
  fold t. set (total := validatorSetPower st) in *. set (ts := bc_Timestamp block) in *.
  destruct (confirm_types_spec t total ts (sorted_resolutions (nd_resolutions N)) no_decisions (inv_tables _ Hi) Hreg)
    as (fs & Ef & Hfs & Hnd & Hconf).
  { apply NoDup_sorted_ids. }
  { intros ty Hin%elem_of_sorted_ids. by apply elem_of_dom in Hin. }
  rewrite Ef, (action_bind_Ok _ _ _ _ _ (eq_refl : alift (Ok _) st = _)).
  set (d := add_decided no_decisions fs). change (resolveFuncs d) with fs.
  assert (Forall (fun R => info_of reg t (res_ID R) R) fs.*1) as Hinfo.
  { apply Forall_fmap. eapply Forall_impl; [exact Hfs|]. by intros Rf [? _]. }
  destruct (resolve_all_spec block fs st Hi) as (st1 & Er & Hi1 & Hs1).
  { eapply Forall_impl; [exact Hfs|]. intros Rf (Hio & cfg & Ec & ->).
    destruct (io_row _ _ _ _ Hio) as (r & Hr & Hty & Hb & _). by eapply rw_resolve. }
  rewrite (action_bind_Ok _ _ _ _ _ Er), (action_bind_Ok _ _ _ _ _ (eq_refl : gets ap_tables st1 = _)). fold t in Hs1.
  destruct (expire_phase (ap_tables st1) t total ts d (inv_tables _ Hi1) Hs1 Hrows Hreg (inv_types _ Hi))
    as (Rs & js & c & Ex & HR & HndR & Hc & Hexp & Ee).
  { apply (foldl_applyResolution_ok t); [|by intros key amt; cbn; rewrite lookup_empty].
    rewrite list.Forall_forall in *. intros R Hin. split; [by apply Hinfo|].
    destruct (io_row _ _ _ _ (Hinfo R Hin)) as (r & Hr & _ & -> & _). by eapply rw_size. }
  rewrite Ex. cbn [wrap_err]. rewrite (action_bind_Ok _ _ _ _ _ (eq_refl : alift (Ok Rs) st1 = _)), Ee,
    (action_bind_Ok _ _ _ _ _ (eq_refl : alift (Ok _) st1 = _)). cbn [decidedIDs markProcessedIDs credits joins].
  change (decidedIDs d) with (map res_ID fs.*1). change (markProcessedIDs d) with (marked fs.*1).
  set (ids := map res_ID fs.*1 ++ map res_ID Rs). set (marks := marked fs.*1 ++ marked Rs).
  assert (forall id, id ∈ ids <-> exists r, Voting.resolutions t !! id = Some r /\ is_settled (id, r) = true) as Hids.
  { intros id. unfold ids. rewrite elem_of_app, Hconf, Hexp. symmetry. by apply settled_cases; [apply (inv_tables _ Hi)|]. }
  assert (NoDup marks /\ forall id, id ∈ marks <-> id ∈ ids /\ exists r, Voting.resolutions t !! id = Some r /\ reusable_row t r = false)
    as [Hndm Hmarks].
  { assert (reusable_row (ap_tables st1) = reusable_row t) as Erow by (unfold reusable_row; by rewrite (proj1 (proj2 Hs1))).
    assert (forall id, id ∈ marked Rs <-> id ∈ map res_ID Rs /\ exists r, Voting.resolutions t !! id = Some r /\ reusable_row t r = false) as HmR.
    { intros id. rewrite (marked_spec (ap_tables st1) Rs id HR), Erow. by rewrite (proj1 Hs1). }
    unfold marks, ids. split.
    - apply NoDup_app. split_and!; [by apply marked_NoDup| |by apply marked_NoDup].
      intros id [Hin _]%(marked_spec t _ id Hinfo) [Hin' _]%HmR.
      apply Hconf in Hin as (? & _ & r & ? & ? & Hr & _ & _ & _ & _ & He). apply Hexp in Hin' as (r' & ? & Hr' & _ & He'). simplify_eq. lia.
    - intros id. rewrite !elem_of_app, (marked_spec t _ id Hinfo), HmR. tauto. }
  destruct (settle_phase (ap_tables st1) t ids marks is_settled Hs1 (inv_tables _ Hi1) Hndm (rw_new _ Hrows) Hids Hmarks)
    as (t2 & Em & Hok2 & Et2 & Hres & Hproc).
  assert (rows_ok t2) as Hrows' by (apply (rows_ok_settled t t2 is_settled); [done|by rewrite Et2; apply Hs1|done..]).
  set (st2 := set_voting st1 (ap_votes st1, t2)). set (st3 := set_events st2 (DeleteEvents marks (ap_events st2))).
  assert (inv st3) as Hi3 by (destruct (inv_set_voting st1 t2 Hok2 Et2 Hi1); by constructor).
  set (std := set_voting st1 (ap_votes st1, DeleteResolutions (ap_tables st1) ids)).
  rewrite (action_bind_Ok (modify _) _ st1 tt std) by done.
  rewrite (action_bind_Ok (on_tables _) _ std tt st2)
    by (unfold on_tables, std; cbn [ap_tables set_voting snd]; by rewrite Em).
  rewrite (action_bind_Ok (modify _) _ st2 tt st3), (action_bind_Ok (gets _) _ st3 (DisabledGasCosts (params st3)) st3) by done.
  unfold mbind, action_bind. destruct (DisabledGasCosts (params st3)); cbn [negb awhen].
  { exists (joins d ++ js), st3. split; [reflexivity|]. split; [exact Hi3|]. exact (conj Hrows' (conj Hres Hproc)). }
  destruct (credit_all_spec (OrderMap c) st3 Hi3) as (a' & -> & Hi4).
  { apply list.Forall_forall. intros [key amt] Hin%elem_of_OrderMap. by apply Hc. }
  exists (joins d ++ js), (set_accounts st3 a'). split; [reflexivity|]. split; [exact Hi4|]. exact (conj Hrows' (conj Hres Hproc)).
Qed.

(** ** Refunds *)

Lemma refunded_app total seen pre R post :
  exists l1 l2, sublist l1 pre /\ sublist l2 post /\
    refunded total seen (pre ++ R :: post) = l1 ++
      (if (if bool_decide (res_Type R ∈ seen ∪ list_to_set (map res_Type pre))
           then refund_threshold total (res_Type R) else 0) <=? res_ApprovedPower R then [R] else []) ++ l2.
Proof.
  revert seen. induction pre as [|R' pre IH]; intros seen.
  - exists [], (refunded total ({[res_Type R]} ∪ seen) post). split; [done|]. split.
    + generalize ({[res_Type R]} ∪ seen). induction post as [|R1 post IH]; intros s; [done|]. cbn [refunded].
      destruct (_ <=? _); by constructor.
    + cbn [app refunded map list_to_set]. rewrite (right_id_L ∅ (∪)). by destruct (_ <=? res_ApprovedPower R).
  - cbn [app refunded]. destruct (IH ({[res_Type R']} ∪ seen)) as (l1 & l2 & H1 & H2 & ->).
    assert ({[res_Type R']} ∪ seen ∪ list_to_set (map res_Type pre) = seen ∪ list_to_set (map res_Type (R' :: pre)) :> gset (list byte)) as ->.
    { cbn [map list_to_set foldr]. by rewrite (comm_L (∪) {[res_Type R']}), <- (assoc_L (∪)). }
    destruct (_ <=? res_ApprovedPower R'); [exists (R' :: l1), l2|exists l1, l2]; split_and!; try done; by constructor.
Qed.

(** The refund of an expired resolution: the first one of each type in a
    block is refunded however little power approved it, because it is compared
    with a threshold of zero; a later one only when its power reaches the
    refund threshold of the type. *)
Theorem first_expired_refunded total expired d d' pre R post :
  registered_ok -> Forall (fun R => is_Some (nd_resolutions N !! res_Type R) /\ decodable_join R) expired ->
  expire_all N total expired ∅ d = Ok d' -> expired = pre ++ R :: post -> 0 <= res_ApprovedPower R ->
  exists l1 l2, sublist l1 pre /\ sublist l2 post /\
    credits d' = foldl applyResolution (credits d)
      (l1 ++ (if bool_decide (res_Type R ∈ map res_Type pre) && (res_ApprovedPower R <? refund_threshold total (res_Type R))
              then [] else [R]) ++ l2).
Proof.
  intros Hreg HRs E -> Hp.
  destruct (expire_all_spec total (pre ++ R :: post) ∅ ∅ d Hreg HRs) as (js & E').
  { intros ty. by rewrite lookup_empty, bool_decide_eq_false_2 by apply not_elem_of_empty. }
  rewrite E in E'. injection E' as ->. cbn [credits].
  destruct (refunded_app total ∅ pre R post) as (l1 & l2 & H1 & H2 & ->). exists l1, l2. split_and!; [done..|].
  rewrite (left_id_L ∅ (∪)).
  assert (bool_decide (res_Type R ∈ (list_to_set (map res_Type pre) : gset (list byte))) = bool_decide (res_Type R ∈ map res_Type pre)) as ->
    by (apply bool_decide_ext; by rewrite elem_of_list_to_set).
  do 3 f_equal. case_bool_decide; cbn [andb]; [|by rewrite (proj2 (Z.leb_le _ _))].
  destruct (Z.leb_spec (refund_threshold total (res_Type R)) (res_ApprovedPower R));
    [by rewrite (proj2 (Z.ltb_ge _ _))|by rewrite (proj2 (Z.ltb_lt _ _))].
Qed.

(** ** A resolution that stops the chain *)

Lemma expire_all_fails total Rs required d R e :
  R ∈ Rs -> expired_join R = Err e -> exists e', expire_all N total Rs required d = Err e'.
Proof.
  intros Hin He. revert required d. induction Rs as [|R' Rs IH]; intros required d; [by apply not_elem_of_nil in Hin|].
  cbn [expire_all]. apply elem_of_cons in Hin as [<-|Hin]; [rewrite He; by eexists|].
  destruct (expired_join R') as [j|e1]; [|by eexists]. cbn [mbind result_bind].
  destruct (required_power _ _ _ _) as [[th req]|e1]; [|by eexists]. cbn [mbind result_bind]. by apply IH.
Qed.

(** C38. A join request that cannot be decoded stops the chain: once a stored
    resolution of type validator_join with an undecodable body has expired,
    the end of the block fails, the resolution stays in the table, and so does
    the end of every later block.  The route of create-resolution transactions
    accepts such a body from any validator. *)
Theorem undecodable_join_stops_blocks hooks block st id r e :
  registered_ok -> inv st ->
  (forall R cfg, info_of reg (ap_tables st) (res_ID R) R -> nd_resolutions N !! res_Type R = Some cfg -> resolve_ok (ResolveFunc cfg) R) ->
  Voting.resolutions (ap_tables st) !! id = Some r ->
  resolution_types (ap_tables st) !! rr_type r = Some ValidatorJoinEventType -> rr_expiration r <= bc_Timestamp block ->
  UpdatePowerRequest_UnmarshalBinary (slice_bytes (rr_body r)) = Err e ->
  exists e' st', Finalize N hooks block st = (Err e', st') /\ Voting.resolutions (ap_tables st') !! id = Some r.
Proof using HN Huuid.
  intros Hreg Hi Hres Hr Hty Hexp He. set (t := ap_tables st) in *.
  enough (exists e' st', processVotes N block st = (Err e', st') /\ Voting.resolutions (ap_tables st') !! id = Some r) as (e' & st' & E & Hr').
  { exists e', st'. unfold Finalize. by rewrite (action_bind_Err _ _ _ _ _ E). }
  unfold processVotes, mbind, action_bind, gets, alift. fold t.
  destruct (confirm_types_spec t (validatorSetPower st) (bc_Timestamp block) (sorted_resolutions (nd_resolutions N)) no_decisions
    (inv_tables _ Hi) Hreg) as (fs & -> & Hfs & _).
  { apply NoDup_sorted_ids. }
  { intros ty Hin%elem_of_sorted_ids. by apply elem_of_dom in Hin. }
  change (resolveFuncs (add_decided no_decisions fs)) with fs.
  destruct (resolve_all_spec block fs st Hi) as (st1 & -> & Hi1 & Er & Et & _).
  { eapply Forall_impl; [exact Hfs|]. intros Rf (? & cfg & Ec & ->). by eapply Hres. }
  destruct (query_total reg (ok_reg N HN) uuid (ap_tables st1) (fun _ r _ => rr_expiration r <=? bc_Timestamp block) (inv_tables _ Hi1))
    as (Rs & E & Hids & Hinfo).
  unfold GetExpired. rewrite E. cbn [wrap_err].
  assert (id ∈ map res_ID Rs) as (R & -> & Hin)%list_elem_of_fmap.
  { rewrite Hids, select_resolutions_spec. exists r, ValidatorJoinEventType. rewrite Er, Et. split_and!; [done..|]. by apply Z.leb_le. }
  destruct (expire_all_fails (validatorSetPower st) Rs ∅ (add_decided no_decisions fs) R (ErrWrap "failed to unmarshal join request" e) Hin)
    as (e' & ->); [|exists e', st1; by rewrite Er].
  rewrite list.Forall_forall in Hinfo. destruct (io_row _ _ _ _ (Hinfo R Hin)) as (r' & Hr' & Hn' & Hb & _).
  rewrite Er in Hr'. rewrite Et in Hn'. fold t in Hr', Hn'. simplify_eq. unfold expired_join.
  rewrite bool_decide_eq_true_2 by congruence. by rewrite Hb, He.
Qed.

(** ** Transactions keep what the end of a block relies on *)

Definition tables_step st st' : Prop :=
  (tables_ok reg uuid (ap_tables st) -> tables_ok reg uuid (ap_tables st')) /\
  resolution_types (ap_tables st') = resolution_types (ap_tables st).

#[local] Instance tables_step_preorder : PreOrder tables_step.
Proof. split; [by intros st; split|]. intros st1 st2 st3 [H1 E1] [H2 E2]. split; [auto|congruence]. Qed.

Lemma on_tables_step f st :
  (forall t', f (ap_tables st) = Ok t' -> vt_step reg uuid (ap_tables st) t' /\ resolution_types t' = resolution_types (ap_tables st)) ->
  tables_step st (snd (on_tables f st)).
Proof.
  intros Hf. unfold on_tables. destruct (f (ap_tables st)) as [t'|]; [|done]. destruct (Hf t' eq_refl) as [Hs Et].
  split; [|done]. by apply vt_step_ok.
Qed.

Lemma db_routes_tables (d : Route W) fields ctx tx st : d ∈ db_routes N -> tables_step st (snd (rt_InTx d fields ctx tx st)).
Proof using HN.
  intros Hd. apply (db_routes_steps N HN tables_step tx); [..|done]; [..|done|done].
  - intros. apply on_tables_step. intros t' E. split; [by eapply vt_create|].
    apply result_bind_Ok in E as (n & _ & E). unfold sql_insertResolution in E. repeat case_match; simplify_eq. done.
  - intros. apply on_tables_step. intros t' E. split; [by eapply vt_approve|].
    apply result_bind_Ok in E as (n & _ & E). unfold sql_addVote in E. repeat case_match; simplify_eq; done.
Qed.

Lemma Execute_tables ctx tx st L L0 :
  agrees reg false (ap_accounts st) L L0 -> tables_step st (snd (Execute N ctx tx st)).
Proof using HN.
  intros R. destruct (Execute N ctx tx st) as [res st'] eqn:E. cbn [snd]. destruct (Error res) as [e|] eqn:Herr.
  { destruct (Execute_failed N HN ctx tx st L L0 res st' R E) as (a' & L' & js & -> & _); [by rewrite Herr|done]. }
  destruct (Execute_done N HN ctx tx st L L0 res st' R E Herr) as (body & d & js & a1 & L1 & fields & log & _ & Hd & R1 & Ein).
  set (st0 := set_accounts (set_joins st js) a1) in *. change (tables_step st0 st').
  replace st' with (snd (rt_InTx d fields ctx tx st0)) by by rewrite Ein.
  destruct (getRoute_cases N _ d Hd) as [Hdb|[->| ->]]; [by apply db_routes_tables|..].
  - cbn [rt_InTx transferRoute] in *. pose proof (transfer_InTx_cases N HN fields ctx tx st0 L1 L0 R1) as Ht.
    rewrite Ein in *. destruct Ht as (from & to & a' & _ & _ & _ & ->). done.
  - cbn [rt_InTx validatorLeaveRoute] in *.
    destruct (leave_InTx_cases N fields ctx tx st0) as [->|(kt & [vs t] & -> & _ & _ & Es)]; [done|]. cbn [snd].
    split; [apply vt_step_ok; by eapply vt_power|]. unfold SetValidatorPower in Es. repeat case_match; simplify_eq. done.
Qed.

Lemma ledger_spend_ok L k s n L' : ledger_ok L -> ledger_spend L k s (i64 n) = Ok L' -> ledger_ok L'.
Proof.
  intros HL. unfold ledger_spend. destruct (s <? 0); [done|]. destruct (L !! k) as [[b m]|].
  - destruct (negb _); [done|]. destruct (Z.ltb_spec (b - s) 0); [done|]. intros <-%(inj Ok).
    apply ledger_ok_insert; [done|lia|by apply swrap_range].
  - destruct (_ && _); [|done]. intros <-%(inj Ok). apply ledger_ok_insert; [done|lia|const_range].
Qed.

Lemma Execute_inv ctx tx st : inv st -> named_target N tx -> inv (snd (Execute N ctx tx st)).
Proof using HN.
  intros [Hok Hty (L & L0 & R & HL)] Ht. destruct (Execute_tables ctx tx st L L0 R) as [Hok' Et].
  destruct (Execute N ctx tx st) as [res st'] eqn:E. cbn [snd] in *.
  destruct (Execute_ledger N HN ctx tx st L L0 res st' R Ht E) as (L1 & L2 & R2 & Hc & Hm & _).
  constructor; [by apply Hok'|by rewrite Et|]. exists L2, L0. split; [done|].
  assert (ledger_ok L1) as HL1.
  { destruct Hc as [[-> _]|(body & id & k & s & _ & _ & _ & El & _)]; [done|by eapply ledger_spend_ok]. }
  destruct Hm as [->|(kf & kt & amt & Em)]; [done|by eapply ledger_transfer_ok].
Qed.

(** ** The resolve functions of the repository *)

Lemma restore_voting st vt : inv st -> inv (restore st (set_voting st vt)).
Proof. intros []. constructor; [done..|]. by destruct st as [[] ? ? []]. Qed.

Lemma restore_accounts st a L L0 :
  inv st -> agrees reg false (ap_accounts st) L L0 -> ledger_ok L -> agrees reg false a L L0 -> inv (restore st (set_accounts st a)).
Proof.
  intros [] R HL Ra. constructor; [done..|]. exists L, L0. split; [|done]. cbn.
  rewrite (r_tx _ _ _ _ _ R), <- (r_tx _ _ _ _ _ Ra). by destruct a.
Qed.

Lemma set_power_ok pk kt p st :
  is_Some (keyTypes reg !! kt) -> inv st ->
  match on_voting (SetValidatorPower reg uuid pk kt p) st with
  | (Ok _, st1) => inv st1 /\ same_resolutions (ap_tables st) (ap_tables st1)
  | (Err e, st1) => is_panic e = false /\ inv (restore st st1)
  end.
Proof.
  intros [kd Ekd] Hi. unfold on_voting. destruct (SetValidatorPower reg uuid pk kt p (ap_votes st, ap_tables st)) as [[[]|e] [vs t]] eqn:E.
  - destruct Hi as [Hok Hty Ha]. assert (same_resolutions (ap_tables st) t) as Hs.
    { unfold SetValidatorPower, sql_upsertVoter in E. repeat case_match; simplify_eq; by split_and!. }
    split; [|done]. constructor; cbn; [|by rewrite (proj1 (proj2 Hs))|done]. eapply vt_step_ok; [by eapply vt_power|done].
  - split; [|by apply restore_voting]. unfold SetValidatorPower, encodePubKey, WireEncodeKeyType, sql_upsertVoter in E.
    rewrite Ekd in E. cbn [mbind result_bind] in E. repeat case_match; simplify_eq; done.
Qed.

(** A body that the resolve function of the type understands. *)
Definition native_body (ty : bytes) (body : slice) : bool :=
  if reusable ty then
    match UpdatePowerRequest_UnmarshalBinary (slice_bytes body) with
    | Ok req => bool_decide (is_Some (keyTypes reg !! up_PubKeyType req))
    | Err _ => false
    end
  else if bool_decide (ty = str "credit_account") then
    match run_reader AccountCredit_read (slice_bytes body) with
    | Ok c => bool_decide (is_Some (acr_Amount c)) && bool_decide (is_Some (acr_Account c))
    | Err _ => false
    end
  else match run_reader (Declaration_read reg) (slice_bytes body) with Ok _ => true | Err _ => false end.

Lemma join_resolve_ok R : native_body (res_Type R) (res_Body R) = true -> reusable (res_Type R) = true ->
  resolve_ok (resolve_join N) R /\ resolve_ok (resolve_remove N) R.
Proof.
  unfold native_body. intros Hb Hr. rewrite Hr in Hb.
  destruct (UpdatePowerRequest_UnmarshalBinary (slice_bytes (res_Body R))) as [req|] eqn:E; [|done].
  apply bool_decide_eq_true in Hb. split; intros block st Hi.
  - unfold resolve_join. rewrite E. cbn [wrap_err]. by apply set_power_ok.
  - unfold resolve_remove. rewrite E. cbn [wrap_err]. unfold mbind, action_bind, alift.
    destruct (negb _); [|by apply set_power_ok]. split; [done|]. rewrite restore_id. done.
Qed.

Lemma credit_resolve_ok R : native_body (str "credit_account") (res_Body R) = true -> resolve_ok (resolve_credit N) R.
Proof using HN.
  unfold native_body. cbn [reusable]. rewrite bool_decide_eq_true_2 by done.
  change (reusable (str "credit_account")) with false. cbv iota.
  destruct (run_reader AccountCredit_read (slice_bytes (res_Body R))) as [c|] eqn:E; [|done].
  intros [[amt Ea]%bool_decide_eq_true [i Ei]%bool_decide_eq_true]%andb_true_iff block st Hi.
  unfold resolve_credit, mbind, action_bind, alift. rewrite E, Ea. destruct (Z.ltb_spec amt 0) as [|Ha].
  { split; [done|]. by rewrite restore_id. }
  unfold ParseKeyType, KeyTypeDefinition. destruct (keyTypes reg !! acr_KeyType c) as [kd|] eqn:Ek; cbn [wrap_err].
  2: { split; [done|]. by rewrite restore_id. }
  rewrite (proj1 (proj1 (ok_reg N HN) _ _ Ek)), Ei.
  destruct (usable_key N HN i (acr_KeyType c)) as [k Hk]; [by exists kd|]. destruct (inv_accounts _ Hi) as (L & L0 & Ra & HL).
  destruct (Credit_implements reg (ok_reg N HN) _ _ _ _ k amt Ra Hk) as (a' & Hc).
  destruct (ledger_credit_ok L k amt HL Ha) as (L' & El & HL'). rewrite El in Hc. destruct Hc as [Ec Ra'].
  rewrite (on_accounts_run _ _ _ _ Ec). split; [|done]. destruct Hi. by constructor; [..|exists L', L0].
Qed.

Lemma params_resolve_ok R :
  (exists pud, run_reader (Declaration_read reg) (slice_bytes (res_Body R)) = Ok pud) -> resolve_ok (resolve_param_updates N) R.
Proof.
  intros [pud E] block st Hi. unfold resolve_param_updates, mbind, action_bind, alift. rewrite E.
  split; [|done]. by destruct Hi.
Qed.

(** A registered type of the repository, with its resolve function. *)
Definition native_type (name : bytes) (f : resolve_func) : Prop :=
  name = ValidatorJoinEventType /\ f = resolve_join N \/ name = ValidatorRemoveEventType /\ f = resolve_remove N \/
  name = str "credit_account" /\ f = resolve_credit N \/ name = str "param_updates" /\ f = resolve_param_updates N.

Lemma native_rows_ok t :
  (forall name cfg, nd_resolutions N !! name = Some cfg -> native_type name (ResolveFunc cfg)) ->
  (forall id, is_Some (Voting.resolutions t !! id) -> id ∉ processed t) ->
  (forall id r name, Voting.resolutions t !! id = Some r -> resolution_types t !! rr_type r = Some name ->
    native_body name (rr_body r) = true) ->
  (forall id r, Voting.resolutions t !! id = Some r -> small_body (rr_body r)) -> rows_ok t.
Proof using HN.
  intros Hnat Hnew Hbody Hsize. constructor; [done|done|..].
  - intros id r Hr Hty. pose proof (Hbody id r _ Hr Hty) as Hb. unfold native_body in Hb.
    change (reusable ValidatorJoinEventType) with true in Hb. cbv iota in Hb.
    destruct (UpdatePowerRequest_UnmarshalBinary _); [by eexists|done].
  - intros id r R cfg Hr Hty Eb Hcfg.
    pose proof (Hbody _ _ _ Hr Hty) as Hb. rewrite <- Eb in Hb.
    destruct (Hnat _ _ Hcfg) as [[En ->]|[[En ->]|[[En ->]|[En ->]]]].
    + apply join_resolve_ok; [done|by rewrite En].
    + apply join_resolve_ok; [done|by rewrite En].
    + apply credit_resolve_ok. by rewrite <- En.
    + apply params_resolve_ok. rewrite En in Hb. unfold native_body in Hb.
      change (reusable (str "param_updates")) with false in Hb. rewrite bool_decide_eq_false_2 in Hb by done. cbv iota in Hb.
      destruct (run_reader _ _); [by eexists|done].
Qed.
End facts.

(** ** Concrete blocks *)

Module Samples.
Import TxSamples.

(** A node with the resolutions of the repository. *)
Definition regs : gmap (list byte) (ResolutionConfig state) :=
  <[str "param_updates" := mkResolutionConfig (Some (mkRat 1 1)) (Some (mkRat 1 2)) (7 * one_day) (resolve_param_updates node)]>
  (<[str "credit_account" := mkResolutionConfig (Some (mkRat 1 3)) (Some (mkRat 2 3)) (3600 * 1000000000) (resolve_credit node)]>
  (<[ValidatorRemoveEventType := mkResolutionConfig (Some (mkRat 1 1)) (Some (mkRat 2 3)) one_day (resolve_remove node)]>
  (<[ValidatorJoinEventType := mkResolutionConfig (Some (mkRat 1 1)) (Some (mkRat 2 3)) one_day (resolve_join node)]> ∅))).

Lemma native_resolutions_Ok : native_resolutions node = Ok regs.
Proof. reflexivity. Qed.

Definition voting_node : Node state :=
  mkNode test_registry Auth.Samples.native (fun b => b) regs [x09] [x09] Secp256k1Auth.

Lemma voting_node_ok : node_ok voting_node.
Proof. destruct node_node_ok. by constructor. Qed.

Lemma regs_types name cfg :
  regs !! name = Some cfg -> ToLower name = name /\ is_Some (ConfirmationThreshold cfg) /\ is_Some (RefundThreshold cfg) /\
    native_type voting_node name (ResolveFunc cfg).
Proof.
  unfold regs, native_type. intros E. repeat (apply lookup_insert_Some in E as [[<- <-]|[_ E]]); [..|by rewrite lookup_empty in E];
    (split; [by vm_compute|]); (split; [by eexists|]); (split; [by eexists|]); cbn [ResolveFunc]; eauto 10.
Qed.

Lemma regs_registered : registered_ok voting_node.
Proof. intros k cfg E. destruct (regs_types k cfg E) as (? & ? & ? & _). done. Qed.

(** Bob is the only validator.  Alice's request to join has his vote; a credit
    to Alice, without votes, has expired. *)
Definition join_body : slice := Some (UpdatePowerRequest_MarshalBinary (mkUpdatePower (Identifier alice) KeyTypeEd25519 1)).
Definition credit_body : slice :=
  Some (AccountCredit_MarshalBinary (mkAccountCredit (Identifier alice) KeyTypeEd25519 (Some 5) (Some [x01]))).

Definition types_only : tables :=
  mkTables ∅ {[ValidatorJoinEventType := ValidatorJoinEventType; str "credit_account" := str "credit_account"]} ∅ ∅ ∅.

Definition join_event : VotableEvent := mkVotableEvent ValidatorJoinEventType join_body.
Definition credit_event : VotableEvent := mkVotableEvent (str "credit_account") credit_body.

Definition get {A} (d : A) (r : result A) : A := match r with Ok a => a | Err _ => d end.

Definition with_bob : VoteStore * tables :=
  snd (SetValidatorPower test_registry (fun b => b) (Some [x02]) KeyTypeSecp256k1 1 (mkVoteStore [] ∅, types_only)).

Definition with_join : tables :=
  get types_only (CreateResolution test_registry (fun b => b) with_bob.2 join_event 1800000000 (Some [x02]) KeyTypeSecp256k1).
Definition with_credit : tables :=
  get types_only (CreateResolution test_registry (fun b => b) with_join credit_event 1600000000 (Some [x02]) KeyTypeSecp256k1).
Definition with_vote : tables :=
  get types_only (ApproveResolution test_registry (fun b => b) with_credit
    (event_id node join_event) (Some [x02]) KeyTypeSecp256k1).

Lemma with_vote_ok : tables_ok test_registry (fun b => b) with_vote.
Proof.
  assert (tables_ok test_registry (fun b => b) types_only) as H by by constructor.
  assert (SetValidatorPower test_registry (fun b => b) (Some [x02]) KeyTypeSecp256k1 1 (mkVoteStore [] ∅, types_only) =
    (Ok tt, (with_bob.1, with_bob.2))) as E1 by reflexivity.
  apply (vt_step_ok _ _ _ _ (vt_power _ _ _ _ _ _ _ _ _ E1)) in H.
  assert (CreateResolution test_registry (fun b => b) with_bob.2 join_event 1800000000 (Some [x02]) KeyTypeSecp256k1 = Ok with_join) as E2
    by reflexivity.
  apply (vt_step_ok _ _ _ _ (vt_create _ _ _ _ _ _ _ _ E2)) in H.
  assert (CreateResolution test_registry (fun b => b) with_join credit_event 1600000000 (Some [x02]) KeyTypeSecp256k1 = Ok with_credit) as E3
    by reflexivity.
  apply (vt_step_ok _ _ _ _ (vt_create _ _ _ _ _ _ _ _ E3)) in H.
  assert (ApproveResolution test_registry (fun b => b) with_credit (event_id node join_event) (Some [x02]) KeyTypeSecp256k1 = Ok with_vote) as E4
    by reflexivity.
  by apply (vt_step_ok _ _ _ _ (vt_approve _ _ _ _ _ _ _ E4)) in H.
Qed.

Definition voting_state (t : tables) : state :=
  mkApp rich (mkVoteStore [mkValidator bob 1] ∅) t (initializeEventStore ∅ ∅) tt
    (mkChainContext (str "kwil-test") (gas_params false) None None) ∅ [].

Definition block (timestamp : Z) : BlockContext := mkBlockContext 10 [] timestamp (Some (mkPublicKey KeyTypeSecp256k1 [x09])).

Lemma voting_state_inv t :
  tables_ok test_registry (fun b => b) t -> resolution_types t = resolution_types types_only -> inv voting_node (voting_state t).
Proof.
  intros Hok Et. constructor; [done| |].
  - intros tid name. cbn. rewrite Et. cbn. intros [[_ <-]|[_ [_ <-]%lookup_singleton_Some]]%lookup_insert_Some; by eexists.
  - exists rich_ledger, rich_ledger. split; [exact rich_agrees|]. unfold rich_ledger.
    intros k b n [[_ [= <- <-]]|[_ E]]%lookup_insert_Some; [split; [lia|const_range]|by rewrite lookup_empty in E].
Qed.

(** The checks of [native_rows_ok] on concrete tables. *)
Definition check_rows (t : tables) : bool :=
  bool_decide (map_Forall (fun id r => id ∉ processed t /\ slice_len (rr_body r) < 2 ^ 53 /\
    from_option (fun name => native_body voting_node name (rr_body r)) true (resolution_types t !! rr_type r) = true)
    (Voting.resolutions t)).

Lemma check_rows_ok t : check_rows t = true -> rows_ok voting_node t.
Proof.
  intros H%bool_decide_eq_true. apply (native_rows_ok voting_node voting_node_ok).
  - intros name cfg E. by destruct (regs_types name cfg E) as (_ & _ & _ & ?).
  - intros id [r Hr]. by destruct (H id r Hr).
  - intros id r name Hr Hty. destruct (H id r Hr) as (_ & _ & Hb). by rewrite Hty in Hb.
  - intros id r Hr. by destruct (H id r Hr) as (_ & ? & _).
Qed.

Lemma processVotes_settles_witness :
  exists joins st', processVotes voting_node (block 1700000000) (voting_state with_vote) = (Ok joins, st') /\
    Voting.resolutions (ap_tables st') = ∅ /\
    event_id node credit_event ∈ processed (ap_tables st') /\ event_id node join_event ∉ processed (ap_tables st').
Proof.
  destruct (processVotes_settles voting_node voting_node_ok (block 1700000000) (voting_state with_vote)) as (js & st' & E & _ & _ & Hres & Hproc).
  - exact regs_registered.
  - by apply voting_state_inv; [apply with_vote_ok|].
  - apply check_rows_ok. by vm_compute.
  - exists js, st'. split; [done|]. split; [rewrite Hres; by apply map_empty; intros i; vm_compute|]. rewrite !Hproc. split.
    + right. exists (mkResRow credit_body (str "credit_account") 1600000000 bob_name). split_and!; vm_compute; reflexivity.
    + intros [Hin|(r & Hr & _ & Hn)]; [by apply not_elem_of_empty in Hin|].
      assert (r = mkResRow join_body ValidatorJoinEventType 1800000000 bob_name) as ->.
      { apply (inj Some). rewrite <- Hr. vm_compute. reflexivity. }
      vm_compute in Hn. discriminate Hn.
Defined.

(** The only expired resolution, of a power far below the refund threshold. *)
Definition unapproved : Resolution :=
  mkResolution (event_id node credit_event) credit_body (str "credit_account") 1600000000 0 [] (mkValidator bob 1).

Lemma first_expired_refunded_witness :
  exists d', expire_all voting_node 30 [unapproved] ∅ no_decisions = Ok d' /\ refund_threshold voting_node 30 (res_Type unapproved) = 10 /\
    exists l1 l2, credits d' = foldl applyResolution ∅ (l1 ++ [unapproved] ++ l2).
Proof.
  assert (Forall (fun R => is_Some (nd_resolutions voting_node !! res_Type R) /\ decodable_join R) [unapproved]) as HR.
  { constructor; [|constructor]. split; [by eexists|done]. }
  eexists. split; [reflexivity|]. split; [by vm_compute|].
  destruct (first_expired_refunded voting_node 30 [unapproved] no_decisions _ [] unapproved [] regs_registered HR eq_refl eq_refl
    ltac:(done)) as (l1 & l2 & _ & _ & E). exists l1, l2. exact E.
Defined.

(** Bob, a validator, creates a resolution of type validator_join whose body is
    one byte. *)
Definition garbage_event : VotableEvent := mkVotableEvent ValidatorJoinEventType (Some [x07]).

Definition garbage_tx : Transaction :=
  bob_tx PayloadTypeCreateResolution (Some (CreateResolution_MarshalBinary garbage_event)) 1000 1.

Definition before_garbage : state := voting_state with_bob.2.
Definition after_garbage : state := snd (Execute voting_node context garbage_tx before_garbage).

Lemma garbage_accepted : ResponseCode (fst (Execute voting_node context garbage_tx before_garbage)) = CodeOk.
Proof. vm_compute. reflexivity. Qed.

Definition garbage_row : resolution_row :=
  mkResRow (Some [x07]) ValidatorJoinEventType (1700000000 + 86400) bob_name.

Lemma garbage_rows : Voting.resolutions (ap_tables after_garbage) = {[event_id node garbage_event := garbage_row]}.
Proof. apply (bool_decide_unpack _). vm_compute. exact I. Qed.

Lemma with_bob_ok : tables_ok test_registry (fun b => b) with_bob.2.
Proof.
  assert (tables_ok test_registry (fun b => b) types_only) as H by by constructor.
  assert (SetValidatorPower test_registry (fun b => b) (Some [x02]) KeyTypeSecp256k1 1 (mkVoteStore [] ∅, types_only) =
    (Ok tt, (with_bob.1, with_bob.2))) as E1 by reflexivity.
  by apply (vt_step_ok _ _ _ _ (vt_power _ _ _ _ _ _ _ _ _ E1)) in H.
Qed.

Lemma garbage_resolve_ok R cfg :
  info_of test_registry (ap_tables after_garbage) (res_ID R) R -> regs !! res_Type R = Some cfg ->
  resolve_ok voting_node (ResolveFunc cfg) R.
Proof.
  intros Hi Hcfg. destruct (io_row _ _ _ _ Hi) as (r & Hr & Hty & Hb & _). rewrite garbage_rows in Hr.
  apply lookup_singleton_Some in Hr as [_ <-]. change (Some ValidatorJoinEventType = Some (res_Type R)) in Hty.
  injection Hty as Hty. rewrite <- Hty in Hcfg. assert (ResolveFunc cfg = resolve_join voting_node) as ->.
  { destruct (regs_types _ _ Hcfg) as (_ & _ & _ & [[_ ?]|[[? _]|[[? _]|[? _]]]]); done. }
  intros blk st Hst. unfold resolve_join. rewrite Hb. unfold mbind, action_bind, alift.
  replace (UpdatePowerRequest_UnmarshalBinary (slice_bytes (rr_body garbage_row))) with
    (Err (ErrSentinel "unexpected EOF") : result UpdatePowerRequest) by (vm_compute; reflexivity).
  split; [done|]. rewrite restore_id. done.
Qed.

Lemma undecodable_join_stops_blocks_witness :
  ResponseCode (fst (Execute voting_node context garbage_tx before_garbage)) = CodeOk /\
  exists e st', Finalize voting_node ∅ (block 1700086400) after_garbage = (Err e, st') /\
    Voting.resolutions (ap_tables st') !! event_id node garbage_event = Some garbage_row.
Proof.
  split; [exact garbage_accepted|].
  apply (undecodable_join_stops_blocks voting_node voting_node_ok ∅ (block 1700086400) after_garbage
    (event_id node garbage_event) garbage_row (ErrSentinel "unexpected EOF") regs_registered).
  - apply (Execute_inv voting_node voting_node_ok); [by apply voting_state_inv; [apply with_bob_ok|]|].
    intros p tr to [= <-] Hd. vm_compute in Hd. discriminate Hd.
  - exact garbage_resolve_ok.
  - rewrite garbage_rows. apply lookup_singleton_eq.
  - vm_compute. reflexivity.
  - vm_compute. congruence.
  - vm_compute. reflexivity.
Defined.
End Samples.
