(* ===== verification/Consensus.v ===== *)
(** * The consensus engine

    [ConsensusEngine] of src/node/consensus: the state and its transitions
    (block.go, leader.go, follower.go, engine.go, blocksync.go, messages.go) and
    the event loop that drives them.  The block processor, the block store and
    the node's files are the interfaces of interfaces.go and commit_intent.go,
    given here as type classes over one environment [E].  A handler runs under
    the state lock, so it is one [action]; the messages and signals it sends are
    appended to [out].  What reaches the engine from outside its goroutine (the
    clock, fetched blocks, a cancellation) is an argument of the handler. *)

From S2P Require Import Prelude.
From S2P Require Import Wire.
From S2P Require Import Keys.
From S2P Require Import Ident.
From S2P Require Import Order.
From S2P Require Import Tx.
From S2P Require Import Merkle.
From S2P Require Import Block.
From S2P Require Import Params.
From S2P Require Import Payloads.
From S2P Require Import Commit.
From S2P Require Mempool.
From Stdlib Require Import Strings.Byte.
From stdpp Require Import sorting.

#[local] Open Scope Z_scope.

(** ** Data *)

Inductive Role := RoleLeader | RoleValidator | RoleSentry.

Inductive Status := Proposed | Executed | Committed.

#[export] Instance Role_eq_decision : EqDecision Role.
Proof. solve_decision. Defined.
#[export] Instance Status_eq_decision : EqDecision Status.
Proof. solve_decision. Defined.

Record TxResult := mkTxResult { tr_Code : Z; tr_Gas : Z; tr_Log : bytes }.

Record BlockExecRequest := mkExecRequest {
  req_Height : Z;
  req_Block : Block;
  req_BlockID : bytes;
  req_Proposer : option PublicKey
}.

Record BlockExecResult := mkExecResult {
  res_TxResults : list TxResult;
  res_AppHash : bytes;
  res_ValidatorUpdates : list Validator;
  res_ParamUpdates : ParamUpdates
}.

Record blockProposal := mkProposal {
  prop_height : Z;
  prop_blkHash : bytes;
  prop_blk : Block
}.

Record blockResult := mkBlockResult {
  br_ack : bool;
  br_appHash : bytes;
  br_txResults : list TxResult;
  br_vote : option AckRes;
  br_paramUpdates : ParamUpdates;
  br_valUpdates : list Validator
}.

Record lastCommit := mkLastCommit {
  lc_height : Z;
  lc_blkHash : bytes;
  lc_appHash : bytes;
  lc_blk : option Block;
  lc_commitInfo : option CommitInfo
}.

Record leaderUpdate := mkLeaderUpdate { Candidate : PublicKey; lu_Height : Z }.

(** The out-of-sync catch-up fields of [state]. *)
Record catchup := mkCatchup {
  catchupOn : bool;
  catchupGen : Z;
  catchupProp : Z;
  catchupHash : bytes;
  catchupStart : Z;
  catchupEnd : Z
}.

Record state := mkState {
  blkProp : option blockProposal;
  blockRes : option blockResult;
  lc : lastCommit;
  votes : gmap (list byte) VoteInfo;
  commitInfo : option CommitInfo;
  st_leaderUpdate : option leaderUpdate;
  st_catchup : catchup
}.

Record StateInfo := mkStateInfo {
  si_height : Z;
  si_status : Status;
  si_blkProp : option blockProposal;
  hasBlock : Z;
  si_lastCommit : lastCommit
}.

Inductive consensusMessage :=
  | MsgProposal (p : blockProposal)
  | MsgVote (vote : AckRes) (sender : bytes)
  | MsgAnnounce (blk : Block) (ci : option CommitInfo) (blkID : bytes).

(** What the engine sends: the broadcaster callbacks, the signals to its own
    loop, and the results for the subscribers. *)
Inductive output :=
  | SendProposal (blk : Block)
  | SendAck (msg : AckRes)
  | SendAnnounce (blk : Block) (ci : option CommitInfo)
  | SendReset (height : Z) (txIDs : list bytes)
  | StartCatchUp (gen : Z)
  | SignalNewRound
  | SignalNewBlockProposal
  | SignalMempoolReady
  | Enqueue (msg : consensusMessage)
  | EnqueueReset (height : Z) (txIDs : list bytes)
  | NotifyTx (txHash : bytes) (res : TxResult).

Record ConsensusEngine (E : Type) := mkEngine {
  role : Role;
  leader : option PublicKey;
  validatorSet : gmap (list byte) Validator;
  st : state;
  stateInfo : StateInfo;
  inSync : bool;
  longRunningTxs : list bytes;
  numResets : Z;
  leaderUpdates : option leaderUpdate;
  haltChan : option string;
  mempool : Mempool.Mempool;
  mempoolReady : bool;
  txSubscribers : gset (list byte);
  env : E;
  out : list output
}.
Arguments mkEngine {E}.
Arguments role {E}.
Arguments leader {E}.
Arguments validatorSet {E}.
Arguments st {E}.
Arguments stateInfo {E}.
Arguments inSync {E}.
Arguments longRunningTxs {E}.
Arguments numResets {E}.
Arguments leaderUpdates {E}.
Arguments haltChan {E}.
Arguments mempool {E}.
Arguments mempoolReady {E}.
Arguments txSubscribers {E}.
Arguments env {E}.
Arguments out {E}.

(** ** Field updates *)

Definition st_set_blkProp (v : option blockProposal) (s : state) : state :=
  mkState v (blockRes s) (lc s) (votes s) (commitInfo s) (st_leaderUpdate s) (st_catchup s).
Definition st_set_blockRes (v : option blockResult) (s : state) : state :=
  mkState (blkProp s) v (lc s) (votes s) (commitInfo s) (st_leaderUpdate s) (st_catchup s).
Definition st_set_lc (v : lastCommit) (s : state) : state :=
  mkState (blkProp s) (blockRes s) v (votes s) (commitInfo s) (st_leaderUpdate s) (st_catchup s).
Definition st_set_votes (v : gmap (list byte) VoteInfo) (s : state) : state :=
  mkState (blkProp s) (blockRes s) (lc s) v (commitInfo s) (st_leaderUpdate s) (st_catchup s).
Definition st_set_commitInfo (v : option CommitInfo) (s : state) : state :=
  mkState (blkProp s) (blockRes s) (lc s) (votes s) v (st_leaderUpdate s) (st_catchup s).
Definition st_set_leaderUpdate (v : option leaderUpdate) (s : state) : state :=
  mkState (blkProp s) (blockRes s) (lc s) (votes s) (commitInfo s) v (st_catchup s).
Definition st_set_catchup (v : catchup) (s : state) : state :=
  mkState (blkProp s) (blockRes s) (lc s) (votes s) (commitInfo s) (st_leaderUpdate s) v.

Definition si_set_status (v : Status) (s : StateInfo) : StateInfo :=
  mkStateInfo (si_height s) v (si_blkProp s) (hasBlock s) (si_lastCommit s).
Definition si_set_blkProp (v : option blockProposal) (s : StateInfo) : StateInfo :=
  mkStateInfo (si_height s) (si_status s) v (hasBlock s) (si_lastCommit s).
Definition si_set_hasBlock (v : Z) (s : StateInfo) : StateInfo :=
  mkStateInfo (si_height s) (si_status s) (si_blkProp s) v (si_lastCommit s).

Section updates.
Context {E : Type}.
Implicit Types ce : ConsensusEngine E.

Definition set_role (v : Role) ce : ConsensusEngine E :=
  mkEngine v (leader ce) (validatorSet ce) (st ce) (stateInfo ce) (inSync ce) (longRunningTxs ce)
    (numResets ce) (leaderUpdates ce) (haltChan ce) (mempool ce) (mempoolReady ce)
    (txSubscribers ce) (env ce) (out ce).
Definition set_leader (v : option PublicKey) ce : ConsensusEngine E :=
  mkEngine (role ce) v (validatorSet ce) (st ce) (stateInfo ce) (inSync ce) (longRunningTxs ce)
    (numResets ce) (leaderUpdates ce) (haltChan ce) (mempool ce) (mempoolReady ce)
    (txSubscribers ce) (env ce) (out ce).
Definition set_validatorSet (v : gmap (list byte) Validator) ce : ConsensusEngine E :=
  mkEngine (role ce) (leader ce) v (st ce) (stateInfo ce) (inSync ce) (longRunningTxs ce)
    (numResets ce) (leaderUpdates ce) (haltChan ce) (mempool ce) (mempoolReady ce)
    (txSubscribers ce) (env ce) (out ce).
Definition upd_st (f : state -> state) ce : ConsensusEngine E :=
  mkEngine (role ce) (leader ce) (validatorSet ce) (f (st ce)) (stateInfo ce) (inSync ce)
    (longRunningTxs ce) (numResets ce) (leaderUpdates ce) (haltChan ce) (mempool ce)
    (mempoolReady ce) (txSubscribers ce) (env ce) (out ce).
Definition upd_info (f : StateInfo -> StateInfo) ce : ConsensusEngine E :=
  mkEngine (role ce) (leader ce) (validatorSet ce) (st ce) (f (stateInfo ce)) (inSync ce)
    (longRunningTxs ce) (numResets ce) (leaderUpdates ce) (haltChan ce) (mempool ce)
    (mempoolReady ce) (txSubscribers ce) (env ce) (out ce).
Definition set_inSync (v : bool) ce : ConsensusEngine E :=
  mkEngine (role ce) (leader ce) (validatorSet ce) (st ce) (stateInfo ce) v (longRunningTxs ce)
    (numResets ce) (leaderUpdates ce) (haltChan ce) (mempool ce) (mempoolReady ce)
    (txSubscribers ce) (env ce) (out ce).
Definition set_longRunningTxs (v : list bytes) ce : ConsensusEngine E :=
  mkEngine (role ce) (leader ce) (validatorSet ce) (st ce) (stateInfo ce) (inSync ce) v
    (numResets ce) (leaderUpdates ce) (haltChan ce) (mempool ce) (mempoolReady ce)
    (txSubscribers ce) (env ce) (out ce).
Definition set_numResets (v : Z) ce : ConsensusEngine E :=
  mkEngine (role ce) (leader ce) (validatorSet ce) (st ce) (stateInfo ce) (inSync ce)
    (longRunningTxs ce) v (leaderUpdates ce) (haltChan ce) (mempool ce) (mempoolReady ce)
    (txSubscribers ce) (env ce) (out ce).
Definition set_leaderUpdates (v : option leaderUpdate) ce : ConsensusEngine E :=
  mkEngine (role ce) (leader ce) (validatorSet ce) (st ce) (stateInfo ce) (inSync ce)
    (longRunningTxs ce) (numResets ce) v (haltChan ce) (mempool ce) (mempoolReady ce)
    (txSubscribers ce) (env ce) (out ce).
Definition set_haltChan (v : option string) ce : ConsensusEngine E :=
  mkEngine (role ce) (leader ce) (validatorSet ce) (st ce) (stateInfo ce) (inSync ce)
    (longRunningTxs ce) (numResets ce) (leaderUpdates ce) v (mempool ce) (mempoolReady ce)
    (txSubscribers ce) (env ce) (out ce).
Definition upd_mempool (f : Mempool.Mempool -> Mempool.Mempool) ce : ConsensusEngine E :=
  mkEngine (role ce) (leader ce) (validatorSet ce) (st ce) (stateInfo ce) (inSync ce)
    (longRunningTxs ce) (numResets ce) (leaderUpdates ce) (haltChan ce) (f (mempool ce))
    (mempoolReady ce) (txSubscribers ce) (env ce) (out ce).
Definition set_mempoolReady (v : bool) ce : ConsensusEngine E :=
  mkEngine (role ce) (leader ce) (validatorSet ce) (st ce) (stateInfo ce) (inSync ce)
    (longRunningTxs ce) (numResets ce) (leaderUpdates ce) (haltChan ce) (mempool ce) v
    (txSubscribers ce) (env ce) (out ce).
Definition upd_txSubscribers (f : gset (list byte) -> gset (list byte)) ce : ConsensusEngine E :=
  mkEngine (role ce) (leader ce) (validatorSet ce) (st ce) (stateInfo ce) (inSync ce)
    (longRunningTxs ce) (numResets ce) (leaderUpdates ce) (haltChan ce) (mempool ce)
    (mempoolReady ce) (f (txSubscribers ce)) (env ce) (out ce).
Definition set_env (v : E) ce : ConsensusEngine E :=
  mkEngine (role ce) (leader ce) (validatorSet ce) (st ce) (stateInfo ce) (inSync ce)
    (longRunningTxs ce) (numResets ce) (leaderUpdates ce) (haltChan ce) (mempool ce)
    (mempoolReady ce) (txSubscribers ce) v (out ce).
Definition add_out (v : list output) ce : ConsensusEngine E :=
  mkEngine (role ce) (leader ce) (validatorSet ce) (st ce) (stateInfo ce) (inSync ce)
    (longRunningTxs ce) (numResets ce) (leaderUpdates ce) (haltChan ce) (mempool ce)
    (mempoolReady ce) (txSubscribers ce) (env ce) (out ce ++ v).
End updates.

(** ** Interfaces *)

(** [BlockProcessor] of interfaces.go.  [RecheckTxs] works on the mempool it
    shares with the engine. *)
Class BlockProcessor (E : Type) := {
  bp_PrepareProposal : list Mempool.NodeTx -> Z -> action E (list Transaction * list Transaction);
  bp_ExecuteBlock : BlockExecRequest -> bool -> action E BlockExecResult;
  bp_Commit : Z -> bytes -> bool -> action E unit;
  bp_Rollback : Z -> bytes -> action E unit;
  bp_CheckTx : Mempool.NodeTx -> Z -> Z -> bool -> action E unit;
  bp_RecheckTxs : Z -> Z -> Mempool.Mempool -> action E Mempool.Mempool;
  bp_GetValidators : E -> list Validator;
  bp_ConsensusParams : E -> NetworkParameters
}.

(** [BlockStore] of interfaces.go. *)
Class BlockStore (E : Type) := {
  bs_Best : E -> Z * bytes * bytes;
  bs_Store : Block -> option CommitInfo -> action E unit;
  bs_GetByHeight : Z -> E -> result (bytes * Block * CommitInfo);
  bs_StoreResults : bytes -> list TxResult -> action E unit;
  bs_Sync : action E unit
}.

(** The files of the node: the commit intent (without a root directory its
    operations do nothing) and the leader update file. *)
Class NodeFiles (E : Type) := {
  cl_Record : Z -> bytes -> action E unit;
  cl_Clear : action E unit;
  lf_Store : option leaderUpdate -> action E unit
}.

(** ** Pure checks *)

Definition ErrBlkNotFound : error := ErrSentinel "block not available".
Definition ErrPeersNotFound : error := ErrSentinel "no peers available".
Definition ErrCanceled : error := ErrSentinel "context canceled".

Definition MigrationCompleted : bytes := str "MigrationCompleted".
Definition maxNumTxnsInBlock : Z := 2 ^ 30.

(** The zero [time.Time], in nanoseconds from the Unix epoch. *)
Definition zero_time : Z := -62135596800000000000.

Definition maxProposalClockDrift : Z := 60000000000.

Definition checkProposalNotAhead (stamp now : Z) : result unit :=
  if stamp >? now + maxProposalClockDrift
  then Err (ErrWrap "" (ErrMsg "block proposal timestamp is ahead of local time")) else Ok tt.

Definition validateProposalTimestamp (stamp prevStamp : Z) : result unit :=
  if negb (prevStamp =? zero_time) && negb (stamp >? prevStamp)
  then Err (ErrMsg "block timestamp is not after the previous block timestamp") else Ok tt.

Definition proposalTimestamp (now prevStamp : Z) : Z :=
  let stamp := truncate_ms now in
  if negb (prevStamp =? zero_time) && negb (stamp >? prevStamp)
  then prevStamp + 1000000 else stamp.

Definition ceilDiv (a b : Z) : Z := (a + b - 1) / b.

Definition voteSignerID (sig : VoteSig) : bytes :=
  vs_PubKeyType sig ++ x23 :: hex_encode (slice_bytes (vs_PubKey sig)).

(** The comparison that sorts the votes of a commit: by key, then key type. *)
Definition vote_le (a b : VoteInfo) : Prop :=
  let ka := slice_bytes (vs_PubKey (vi_Signature a)) in
  let kb := slice_bytes (vs_PubKey (vi_Signature b)) in
  if bool_decide (ka = kb)
  then bytes_le (vs_PubKeyType (vi_Signature a)) (vs_PubKeyType (vi_Signature b))
  else bytes_le ka kb.

#[export] Instance vote_le_dec : RelDecision vote_le.
Proof. intros a b. unfold vote_le. cbv zeta. destruct (bool_decide _); apply _. Defined.

(** The lookup of a missing key in a Go map of validators. *)
Definition zero_Validator : Validator := mkValidator (mkAccountID None []) 0.

Section engine.
Context (HashBytes : bytes -> bytes) (reg : registry).
Context (PubKey_Verify : PublicKey -> bytes -> bytes -> result bool).
(** The iteration order of a Go map. *)
Context (range : forall A, gmap (list byte) A -> list (bytes * A)).
Context {E : Type} `{!BlockProcessor E, !BlockStore E, !NodeFiles E}.
Context (privKey : PrivateKey).

Abbreviation CE := (ConsensusEngine E).
Implicit Types ce : CE.

Definition pubKey : PublicKey := sk_Public privKey.

Definition ConsensusParams ce : NetworkParameters := bp_ConsensusParams (env ce).

Definition hasMajority ce (cnt : Z) : bool :=
  let threshold := Z.of_nat (size (validatorSet ce)) / 2 + 1 in
  threshold <=? cnt.

Definition hasEnoughNacks ce (cnt : Z) : bool :=
  let threshold := ceilDiv (Z.of_nat (size (validatorSet ce))) 2 in
  threshold <=? cnt.

Definition validatorSetHash ce : bytes :=
  let keys := map (fun kv => EncodePubKeyAndType (slice_bytes (Identifier (val_ID kv.2)))
                               (acct_KeyType (val_ID kv.2))) (range _ (validatorSet ce)) in
  HashBytes (concat (map (fun k =>
    let val := default zero_Validator (validatorSet ce !! k) in
    slice_bytes (AccountID_Bytes reg (val_ID val)) ++ be_bytes 8 (Power val))
    (merge_sort bytes_le keys))).

(** [validateVote]: the updated [seen] set of an accepted vote. *)
Definition validateVote ce (vote : VoteInfo) (blkID appHash : bytes) (seen : gset (list byte))
    (verifySig : bool) : result (gset (list byte)) :=
  let sig := vi_Signature vote in
  match validatorSet ce !! hex_encode (slice_bytes (vs_PubKey sig)) with
  | None => Err (ErrMsg "vote is from a non-validator")
  | Some val =>
      if negb (bool_decide (acct_KeyType (val_ID val) = vs_PubKeyType sig))
      then Err (ErrMsg "vote key type does not match validator")
      else
        _ ← (if verifySig
             then wrap_err "error verifying vote" (VoteInfo_Verify reg PubKey_Verify vote blkID appHash)
             else Ok tt);
        let id := voteSignerID sig in
        if bool_decide (id ∈ seen) then Err (ErrMsg "duplicate vote")
        else Ok ({[id]} ∪ seen)
  end.

(** The loop of [verifyVotes]: the number of acks, from [acks] on. *)
Fixpoint verify_loop ce (blkID appHash : bytes) (vs : list VoteInfo) (seen : gset (list byte))
    (acks : Z) : result Z :=
  match vs with
  | [] => Ok acks
  | vote :: vs' =>
      seen ← validateVote ce vote blkID appHash seen true;
      verify_loop ce blkID appHash vs' seen
        (if AckStatus vote =? AckAgree then acks + 1 else acks)
  end.

Definition verifyVotes ce (ci : CommitInfo) (blkID : bytes) : result unit :=
  acks ← verify_loop ce blkID (ci_AppHash ci) (Votes ci) ∅ 0;
  if negb (hasMajority ce acks) then Err (ErrMsg "not enough acks in the commitInfo") else Ok tt.

(** The vote limits of one transaction. *)
Definition check_vote_tx (maxVotesPerTx : Z) (txn : Transaction) : result unit :=
  match tx_Body txn with
  | None => Err (ErrPanic "nil pointer dereference")
  | Some body =>
      if bool_decide (PayloadType body = PayloadTypeValidatorVoteBodies) then
        events ← wrap_err "failed to unmarshal validator vote body"
                   (ValidatorVoteBodies_UnmarshalBinary (slice_bytes (Tx.Payload body)));
        if zlen events >? maxVotesPerTx then Err (ErrMsg "max votes exceeded in tx") else Ok tt
      else if bool_decide (PayloadType body = PayloadTypeValidatorVoteIDs) then
        ids ← wrap_err "failed to unmarshal validator vote id"
                (ValidatorVoteIDs_UnmarshalBinary (slice_bytes (Tx.Payload body)));
        if zlen ids >? maxVotesPerTx then Err (ErrMsg "max votes exceeded in tx") else Ok tt
      else Ok tt
  end.

Fixpoint check_vote_txs (maxVotesPerTx : Z) (txns : list Transaction) : result unit :=
  match txns with
  | [] => Ok tt
  | txn :: txns' => _ ← check_vote_tx maxVotesPerTx txn; check_vote_txs maxVotesPerTx txns'
  end.

Definition is_validator ce (key : bytes) : bool :=
  bool_decide (is_Some (validatorSet ce !! hex_encode key)).

Definition validateBlock ce (blk : Block) : result unit :=
  let hdr := Header blk in
  let last := lc (st ce) in
  if negb (bh_Version hdr =? BlockVersion) then Err (ErrMsg "block version mismatch")
  else if negb (lc_height last + 1 =? bh_Height hdr) then Err (ErrMsg "block proposal does not follow")
  else if negb (bool_decide (lc_blkHash last = PrevHash hdr)) then Err (ErrMsg "prevBlockHash mismatch")
  else if negb (bool_decide (PrevAppHash hdr = lc_appHash last)) then Err (ErrMsg "apphash mismatch")
  else if negb (NumTxns hdr =? u32 (zlen (Txns blk))) then Err (ErrMsg "transaction count mismatch")
  else if negb (bool_decide (Block_CalcMerkleRoot HashBytes blk = MerkleRoot hdr))
  then Err (ErrMsg "merkleroot mismatch")
  else if negb (bool_decide (validatorSetHash ce = ValidatorSetHash hdr))
  then Err (ErrMsg "validator set hash mismatch")
  else if negb (bool_decide (NetworkParamsHash hdr = Params_Hash HashBytes (ConsensusParams ce)))
  then Err (ErrMsg "network params hash mismatch")
  else if (match NewLeader hdr with
           | Some key => negb (is_validator ce (pk_Bytes key))
           | None => false
           end) then Err (ErrMsg "leader update candidate is not a validator")
  else if Block_TxnsSize blk >? MaxBlockSize (ConsensusParams ce)
  then Err (ErrMsg "block size exceeds max block size")
  else check_vote_txs (MaxVotesPerTx (ConsensusParams ce)) (Txns blk).

(** The timestamp of a committed block, or the zero time. *)
Definition commit_stamp (last : lastCommit) : Z :=
  match lc_blk last with Some blk => Timestamp (Header blk) | None => zero_time end.

Definition lastBlockInternal ce : Z * Z := (lc_height (lc (st ce)), commit_stamp (lc (st ce))).

Definition lastBlock ce : Z * bytes * Z :=
  let last := si_lastCommit (stateInfo ce) in
  (si_height (stateInfo ce),
   match lc_blk last with Some _ => lc_blkHash last | None => replicate HashLen x00 end,
   commit_stamp last).

(** ** State transitions *)

Definition nil_panic {A} : action CE A := afail (ErrPanic "nil pointer dereference").

(** A call on the environment. *)
Definition on_env {A} (m : action E A) : action CE A := fun ce =>
  let '(r, e) := m (env ce) in (r, set_env e ce).

Definition send (o : output) : action CE unit := modify (add_out [o]).

(** [haltChan] holds one reason; a second one is dropped. *)
Definition sendHalt (reason : string) : action CE unit :=
  modify (fun ce => match haltChan ce with None => set_haltChan (Some reason) ce | Some _ => ce end).

Definition storeLeaderUpdates (update : option leaderUpdate) : action CE unit :=
  _ ← on_env (lf_Store update);
  modify (set_leaderUpdates update).

(** [a.Equals(ce.leader)]; the leader's interface value may be nil. *)
Definition equals_leader (a : PublicKey) : action CE bool :=
  l ← gets leader;
  match l with Some l => mret (pk_Equals a l) | None => nil_panic end.

Definition updateRole : action CE unit :=
  isLeader ← equals_leader pubKey;
  if isLeader : bool then modify (set_role RoleLeader)
  else
    member ← gets (fun ce => is_validator ce (pk_Bytes pubKey));
    if member : bool then modify (set_role RoleValidator) else modify (set_role RoleSentry).

(** The validators by the hexadecimal of their identifiers. *)
Definition validator_map (valset : list Validator) : gmap (list byte) Validator :=
  foldl (fun m v => <[hex_encode (slice_bytes (Identifier (val_ID v))) := v]> m) ∅ valset.

Definition updateValidatorSetAndRole : action CE unit :=
  params ← gets ConsensusParams;
  valset ← gets (fun ce => bp_GetValidators (env ce));
  prevLeader ← gets leader;
  _ ← modify (set_leader (np_Leader params));
  _ ← (match prevLeader with Some _ => mret tt | None => nil_panic end : action CE unit);
  _ ← modify (set_validatorSet (validator_map valset));
  updateRole.

Definition resetState : action CE unit :=
  _ ← modify (upd_st (fun s => mkState None None (lc s) ∅ None (st_leaderUpdate s) (st_catchup s)));
  lu ← gets (fun ce => st_leaderUpdate (st ce));
  _ ← (match lu with
       | None => mret tt
       | Some _ =>
           _ ← modify (upd_st (st_set_leaderUpdate None));
           _ ← atry (storeLeaderUpdates None);
           mret tt
       end : action CE unit);
  last ← gets (fun ce => lc (st ce));
  _ ← modify (upd_info (fun _ => mkStateInfo (lc_height last) Committed None (lc_height last) last));
  modify (set_longRunningTxs []).

Definition rollbackState : action CE unit :=
  last ← gets (fun ce => lc (st ce));
  _ ← on_env (bp_Rollback (lc_height last) (lc_appHash last));
  _ ← resetState;
  modify (upd_info (si_set_hasBlock (lc_height last))).

Definition nextState : action CE unit :=
  prop ← gets (fun ce => blkProp (st ce));
  res ← gets (fun ce => blockRes (st ce));
  match prop, res with
  | Some p, Some r =>
      _ ← modify (upd_st (fun s =>
            st_set_lc (mkLastCommit (prop_height p) (prop_blkHash p) (br_appHash r)
                         (Some (prop_blk p)) (commitInfo s)) s));
      resetState
  | _, _ => nil_panic
  end.

(** The error of the mempool recheck is dropped. *)
Definition RecheckTxs (height stamp : Z) : action CE unit :=
  mp ← gets mempool;
  r ← atry (on_env (bp_RecheckTxs height stamp mp));
  match r with
  | Ok mp' => modify (upd_mempool (fun _ => mp'))
  | Err _ => mret tt
  end.

Definition executeBlock (p : blockProposal) (syncing : bool) : action CE unit :=
  ldr ← gets leader;
  r ← atry (on_env (bp_ExecuteBlock
              (mkExecRequest (prop_height p) (prop_blk p) (prop_blkHash p) ldr) syncing));
  _ ← modify (upd_info (si_set_status Executed));
  results ← alift r;
  modify (upd_st (st_set_blockRes
    (Some (mkBlockResult true (res_AppHash results) (res_TxResults results) None
             (res_ParamUpdates results) [])))).

(** The transactions of a committed block leave the mempool and their
    subscribers are told. *)
Fixpoint settle_txs (txns : list Transaction) (results : list TxResult) : action CE unit :=
  match txns with
  | [] => mret tt
  | txn :: txns' =>
      let txHash := Tx_Hash HashBytes txn in
      _ ← modify (upd_mempool (Mempool.remove txHash));
      match results with
      | [] => afail (ErrPanic "index out of range")
      | txRes :: results' =>
          subscribed ← gets (fun ce => bool_decide (txHash ∈ txSubscribers ce));
          _ ← awhen subscribed (send (NotifyTx txHash txRes));
          settle_txs txns' results'
      end
  end.

Definition commit : action CE unit :=
  res ← gets (fun ce => blockRes (st ce));
  prop ← gets (fun ce => blkProp (st ce));
  match res, prop with
  | None, _ => afail (ErrMsg "no block results to commit")
  | Some _, None => nil_panic
  | Some r, Some p =>
      ci ← gets (fun ce => commitInfo (st ce));
      _ ← on_env (cl_Record (prop_height p) (prop_blkHash p));
      _ ← on_env (bs_Store (prop_blk p) ci);
      _ ← on_env (bs_StoreResults (prop_blkHash p) (br_txResults r));
      _ ← on_env bs_Sync;
      syncing ← gets inSync;
      _ ← on_env (bp_Commit (prop_height p) (br_appHash r) syncing);
      _ ← settle_txs (Txns (prop_blk p)) (br_txResults r);
      maxBlockSize ← gets (fun ce => MaxBlockSize (ConsensusParams ce));
      _ ← modify (upd_mempool (Mempool.CapMaxTxSize maxBlockSize));
      _ ← RecheckTxs (prop_height p) (Timestamp (Header (prop_blk p)));
      sz ← gets (fun ce => fst (Mempool.Size (mempool ce)));
      _ ← awhen (maxBlockSize <=? sz) (modify (set_mempoolReady true));
      _ ← nextState;
      _ ← updateValidatorSetAndRole;
      _ ← atry (on_env cl_Clear);
      mret tt
  end.

Definition acceptCommitInfo (ci : option CommitInfo) (blkID : bytes) : action CE unit :=
  match ci with
  | None => afail (ErrMsg "commitInfo is nil")
  | Some c =>
      v ← gets (fun ce => verifyVotes ce c blkID);
      _ ← alift (wrap_err "error verifying votes" v);
      _ ← alift (wrap_err "paramUpdates failed validation"
                   (ValidateUpdates (range _ (ci_ParamUpdates c))));
      modify (upd_st (st_set_commitInfo (Some c)))
  end.

Definition same_updates (a b : ParamUpdates) : bool :=
  ParamUpdates_Equals (range _ a) (range _ b).

(** The engine takes [p] as the proposal it works on. *)
Definition adopt (p : blockProposal) : action CE unit :=
  _ ← modify (upd_st (st_set_blkProp (Some p)));
  modify (upd_info (fun s => si_set_blkProp (Some p) (si_set_status Proposed s))).

(** [hasBlock.Swap(height)] with the check of the old value. *)
Definition claim_height (height : Z) (dup : string) : action CE unit :=
  oldH ← gets (fun ce => hasBlock (stateInfo ce));
  _ ← modify (upd_info (si_set_hasBlock height));
  last ← gets (fun ce => lc (st ce));
  if negb (oldH =? lc_height last) then afail (ErrMsg dup) else mret tt.

Definition processAndCommit (blk : Block) (ci : option CommitInfo) (blkID : bytes)
    (syncing : bool) : action CE unit :=
  match ci with
  | None => afail (ErrMsg "commitInfo is nil")
  | Some c =>
      _ ← claim_height (bh_Height (Header blk))
            "block already processed, duplicate block announcement received";
      v ← gets (fun ce => validateBlock ce blk);
      _ ← alift v;
      _ ← acceptCommitInfo ci blkID;
      _ ← (match NewLeader (Header blk) with
           | Some key => modify (set_leader (Some key))
           | None => mret tt
           end : action CE unit);
      let p := mkProposal (bh_Height (Header blk)) blkID blk in
      _ ← adopt p;
      _ ← executeBlock p syncing;
      res ← gets (fun ce => blockRes (st ce));
      match res with
      | None => nil_panic
      | Some r =>
          if negb (same_updates (br_paramUpdates r) (ci_ParamUpdates c)) then
            _ ← sendHalt "processAndCommit: Incorrect ParamUpdates, halting the node";
            afail (ErrMsg "processAndCommit: Incorrect ParamUpdates, halting the node")
          else if negb (bool_decide (br_appHash r = ci_AppHash c)) then
            _ ← sendHalt "processAndCommit: AppHash mismatch, halting the node";
            afail (ErrMsg "processAndCommit: AppHash mismatch, halting the node")
          else commit
      end
  end.

(** ** Leader *)

(** The votes that the loop of [processVotes] keeps. *)
Fixpoint tally ce (blkID appHash : bytes) (vs : list VoteInfo) (seen : gset (list byte))
  : list VoteInfo :=
  match vs with
  | [] => []
  | vote :: vs' =>
      match validateVote ce vote blkID appHash seen false with
      | Err _ => tally ce blkID appHash vs' seen
      | Ok seen' => vote :: tally ce blkID appHash vs' seen'
      end
  end.

Definition is_ack (v : VoteInfo) : bool := AckStatus v =? AckAgree.

Definition count_acks (vs : list VoteInfo) : Z := zlen (List.filter is_ack vs).
Definition count_nacks (vs : list VoteInfo) : Z := zlen (List.filter (fun v => negb (is_ack v)) vs).

Definition processVotes : action CE unit :=
  prop ← gets (fun ce => blkProp (st ce));
  res ← gets (fun ce => blockRes (st ce));
  match prop, res with
  | Some p, Some r =>
      vs ← gets (fun ce => tally ce (prop_blkHash p) (br_appHash r)
                             (map snd (range _ (votes (st ce)))) ∅);
      halt ← gets (fun ce => hasEnoughNacks ce (count_nacks vs));
      if halt : bool then
        sendHalt "at least half the validators have rejected the block, preventing network progress"
      else
        majority ← gets (fun ce => hasMajority ce (count_acks vs));
        if negb majority then mret tt
        else
          _ ← modify (upd_st (st_set_commitInfo
                (Some (mkCommitInfo (br_appHash r) (merge_sort vote_le vs)
                         (br_paramUpdates r) (br_valUpdates r)))));
          c ← atry commit;
          match c with
          | Err e => if is_panic e then afail e else sendHalt "Error committing block"
          | Ok _ =>
              last ← gets (fun ce => lc (st ce));
              _ ← send (SendAnnounce (prop_blk p) (lc_commitInfo last));
              rl ← gets role;
              awhen (bool_decide (rl = RoleLeader)) (send SignalNewRound)
          end
  | _, _ => mret tt
  end.

Definition beginOutOfSyncCatchup (propHeight : Z) (propHash : bytes) (startHeight endHeight : Z)
  : action CE unit :=
  c ← gets (fun ce => st_catchup (st ce));
  if catchupOn c && (catchupProp c =? propHeight) && bool_decide (catchupHash c = propHash) then
    awhen (endHeight >? catchupEnd c)
      (modify (upd_st (st_set_catchup (mkCatchup (catchupOn c) (catchupGen c) (catchupProp c)
                                         (catchupHash c) (catchupStart c) endHeight))))
  else
    let gen := u64 (catchupGen c + 1) in
    _ ← modify (upd_st (st_set_catchup (mkCatchup true gen propHeight propHash startHeight endHeight)));
    send (StartCatchUp gen).

(** The branch of [addVote] for an out-of-sync proof. *)
Definition handle_proof (p : blockProposal) (proof : OutOfSyncProof) : action CE unit :=
  hash ← alift (Header_Hash HashBytes reg (op_Header proof));
  match PubKey_Verify pubKey hash (slice_bytes (op_Signature proof)) with
  | Err _ | Ok false => mret tt
  | Ok true =>
      if bh_Height (op_Header proof) <=? prop_height p then mret tt
      else
        last ← gets (fun ce => lc (st ce));
        beginOutOfSyncCatchup (prop_height p) (prop_blkHash p) (lc_height last + 1)
          (bh_Height (op_Header proof))
  end.

(** The vote that the leader records for an acknowledgement. *)
Definition vote_of_ack (vote : AckRes) (sig : VoteSig) (appHash : bytes) : VoteInfo :=
  if ACK vote then
    if bool_decide (ar_AppHash vote = Some appHash) then mkVoteInfo AckAgree None sig
    else mkVoteInfo AckForked (ar_AppHash vote) sig
  else mkVoteInfo AckReject None sig.

(** The first vote of [sender] is verified and stored. *)
Definition register_vote (vote : AckRes) (sig : VoteSig) (sender : bytes) : action CE unit :=
  existing ← gets (fun ce => votes (st ce) !! sender);
  match existing with
  | Some _ => mret tt
  | None =>
      res ← gets (fun ce => blockRes (st ce));
      match res with
      | None => nil_panic
      | Some r =>
          let voteInfo := vote_of_ack vote sig (br_appHash r) in
          seen ← gets (fun ce => list_to_set
                   (map (fun kv => voteSignerID (vi_Signature kv.2)) (range _ (votes (st ce)))));
          v ← gets (fun ce => validateVote ce voteInfo (BlkHash vote) (br_appHash r) seen true);
          _ ← alift (wrap_err "error verifying the vote signature" v);
          modify (upd_st (fun s => st_set_votes (<[sender := voteInfo]> (votes s)) s))
      end
  end.

Definition addVote (vote : AckRes) (sender : bytes) : action CE unit :=
  prop ← gets (fun ce => blkProp (st ce));
  match prop with
  | None => mret tt
  | Some p =>
      if negb (prop_height p =? ar_Height vote) then mret tt
      else if negb (bool_decide (prop_blkHash p = BlkHash vote)) then mret tt
      else
        member ← gets (fun ce => validatorSet ce !! sender);
        match member, ar_Signature vote with
        | None, _ => afail (ErrMsg "vote received from an unknown validator")
        | Some val, sig =>
            if ACK vote && bool_decide (ar_AppHash vote = None)
            then afail (ErrMsg "missing appHash in the vote")
            else match sig with
            | None => afail (ErrMsg "missing signature in the vote")
            | Some sig =>
                if negb (bool_decide (hex_encode (slice_bytes (vs_PubKey sig)) = sender))
                then afail (ErrMsg "vote signer does not match sender")
                else if negb (bool_decide (acct_KeyType (val_ID val) = vs_PubKeyType sig))
                then afail (ErrMsg "vote key type does not match validator")
                else match AckRes_OutOfSync vote with
                | Some proof => handle_proof p proof
                | None => _ ← register_vote vote sig sender; processVotes
                end
            end
        end
  end.

(** [Remove] for each of a list of transaction hashes. *)
Definition remove_txs (txids : list bytes) : action CE unit :=
  modify (upd_mempool (fun mp => foldl (fun mp txid => Mempool.remove txid mp) mp txids)).

(** [blk.Sign]. *)
Definition Block_Sign (blk : Block) : result Block :=
  hash ← Header_Hash HashBytes reg (Header blk);
  sig ← wrap_err "failed to sign block" (sk_Sign privKey hash);
  Ok (mkBlock (Header blk) (Txns blk) (Some sig)).

Definition with_NewLeader (lu : option leaderUpdate) (blk : Block) : Block :=
  match lu with
  | None => blk
  | Some u =>
      let h := Header blk in
      mkBlock (mkHeader (bh_Version h) (bh_Height h) (NumTxns h) (PrevHash h) (PrevAppHash h)
                 (Timestamp h) (MerkleRoot h) (ValidatorSetHash h) (NetworkParamsHash h)
                 (Some (Candidate u))) (Txns blk) (blk_Signature blk)
  end.

Definition createBlockProposal (now : Z) : action CE blockProposal :=
  limit ← gets (fun ce => MaxBlockSize (ConsensusParams ce));
  peeked ← gets (fun ce => Mempool.PeekN maxNumTxnsInBlock limit (mempool ce));
  txns ← alift peeked;
  prev ← gets lastBlockInternal;
  let stamp := proposalTimestamp now prev.2 in
  prepared ← on_env (bp_PrepareProposal txns stamp);
  let '(finalTxs, invalidTxs) := prepared in
  _ ← remove_txs (map (Tx_Hash HashBytes) invalidTxs);
  valSetHash ← gets validatorSetHash;
  paramsHash ← gets (fun ce => Params_Hash HashBytes (ConsensusParams ce));
  s ← gets st;
  let blk := with_NewLeader (st_leaderUpdate s)
               (NewBlock HashBytes (lc_height (lc s) + 1) (lc_blkHash (lc s)) (lc_appHash (lc s))
                  valSetHash paramsHash stamp finalTxs) in
  signed ← alift (Block_Sign blk);
  hash ← alift (Header_Hash HashBytes reg (Header signed));
  mret (mkProposal (bh_Height (Header signed)) hash signed).

(** The reset of a proposal whose execution the leader cancelled. *)
Definition abandon_proposal : action CE unit :=
  last ← gets (fun ce => lc (st ce));
  txIDs ← gets longRunningTxs;
  _ ← send (SendReset (lc_height last) txIDs);
  _ ← remove_txs txIDs;
  _ ← modify (fun ce => set_numResets (numResets ce + 1) ce);
  _ ← rollbackState;
  lb ← gets lastBlockInternal;
  _ ← RecheckTxs lb.1 lb.2;
  send SignalNewBlockProposal.

(** The leader's own vote is stored under the raw bytes of its key. *)
Definition cast_own_vote (p : blockProposal) : action CE unit :=
  res ← gets (fun ce => blockRes (st ce));
  match res with
  | None => nil_panic
  | Some r =>
      sig ← alift (wrap_err "error signing the vote"
                     (SignVote (prop_blkHash p) true (Some (br_appHash r)) privKey));
      modify (upd_st (fun s => st_set_votes
        (<[pk_Bytes pubKey := mkVoteInfo AckAgree (Some (br_appHash r)) sig]> (votes s)) s))
  end.

(** The guards of [CancelBlockExecution]. *)
Definition CancelBlockExecution ce (height : Z) : result unit :=
  let info := stateInfo ce in
  if negb (height =? si_height info + 1)
  then Err (ErrMsg "cannot cancel block execution for block height")
  else match si_blkProp info with
  | None => Err (ErrMsg "cannot cancel block execution, no block is proposed yet")
  | Some _ =>
      if negb (bool_decide (si_status info = Proposed))
      then Err (ErrMsg "cannot cancel block execution, block is already executed or committed")
      else Ok tt
  end.

(** [cancel]: the height and the transactions of a [CancelBlockExecution]
    request that arrives during the execution. *)
Definition proposeBlock (now : Z) (cancel : option (Z * list bytes)) : action CE unit :=
  p ← createBlockProposal now;
  v ← gets (fun ce => validateBlock ce (prop_blk p));
  _ ← alift (wrap_err "block proposal failed internal validation" v);
  _ ← modify (upd_st (st_set_blkProp (Some p)));
  _ ← send (SendProposal (prop_blk p));
  _ ← modify (upd_info (fun s => si_set_blkProp (Some p) (si_set_status Proposed s)));
  reset ← (match cancel with
           | Some (height, txIDs) =>
               accepted ← gets (fun ce => is_ok (CancelBlockExecution ce height));
               _ ← awhen accepted (modify (set_longRunningTxs txIDs));
               mret accepted
           | None => mret false
           end : action CE bool);
  r ← atry (executeBlock p false);
  match r with
  | Err e =>
      if errors_is e ErrCanceled && reset then abandon_proposal
      else afail (ErrWrap "error executing the block" e)
  | Ok _ =>
      _ ← cast_own_vote p;
      _ ← modify (set_mempoolReady false);
      processVotes
  end.

(** ** Follower *)

(** The proof of the best block that answers a stale proposal. *)
Definition out_of_sync_nack (height : Z) (blkID : bytes) : action CE unit :=
  sig ← alift (SignVote blkID false None privKey);
  best ← gets (fun ce => '(_, blk, _) ← bs_GetByHeight (fst (fst (bs_Best (env ce)))) (env ce);
                         mret blk);
  bestBlk ← alift best;
  send (SendAck (mkAckRes false (Some NackStatusOutOfSync) height blkID None
                   (Some (mkProof (Header bestBlk) (blk_Signature bestBlk))) (Some sig))).

Definition AcceptProposal (height : Z) (blkID leaderSig : bytes) (timestamp : Z) : action CE bool :=
  rl ← gets role;
  if negb (bool_decide (rl = RoleValidator)) then mret false
  else
    ldr ← gets leader;
    match ldr with
    | None => nil_panic
    | Some l =>
        match PubKey_Verify l blkID leaderSig with
        | Err _ | Ok false => mret false
        | Ok true =>
            info ← gets stateInfo;
            if height <? lc_height (si_lastCommit info) then
              stored ← gets (fun ce => bs_GetByHeight height (env ce));
              match stored with
              | Err _ => mret false
              | Ok (bHash, blk, _) =>
                  if bool_decide (bHash = blkID) then mret false
                  else if UnixMilli (Timestamp (Header blk)) >? timestamp then mret false
                  else _ ← alog (out_of_sync_nack height blkID); mret false
              end
            else if negb (height =? si_height info + 1) then mret false
            else if negb (bool_decide (si_status info = Committed)) then
              match si_blkProp info with
              | None => nil_panic
              | Some p =>
                  mret (negb (bool_decide (prop_blkHash p = blkID)) &&
                        (UnixMilli (Timestamp (Header (prop_blk p))) <? timestamp))
              end
            else mret true
        end
    end.

Definition NotifyBlockCommit (blk : Block) (ci : option CommitInfo) (blkID : bytes) : action CE unit :=
  match ci with
  | None => nil_panic
  | Some c =>
      _ ← (match ci_ParamUpdates c !! ParamNameLeader with
           | None | Some (PVKey _) => mret tt
           | Some _ => afail (ErrPanic "interface conversion")
           end : action CE unit);
      known ← gets (fun ce => hasBlock (stateInfo ce) =? bh_Height (Header blk));
      awhen (negb known) (send (Enqueue (MsgAnnounce blk ci blkID)))
  end.

(** The checks of [AcceptCommit] on a block that has to be requested. *)
Definition accept_announced (height : Z) (blkID : bytes) (hdr : BlockHeader)
    (ci : option CommitInfo) ce : result bool :=
  if negb (si_height (stateInfo ce) + 1 =? height) then Ok false
  else if (match NewLeader hdr with
           | Some key => negb (is_validator ce (pk_Bytes key))
           | None => false
           end) then Ok false
  else match ci with
  | None => Err (ErrPanic "nil pointer dereference")
  | Some c =>
      match ci_ParamUpdates c !! ParamNameLeader with
      | None => Ok true
      | Some update =>
          match verifyVotes ce c blkID, update with
          | Err _, _ => Ok false
          | Ok _, PVKey (Some _) => Ok true
          | Ok _, _ => Err (ErrPanic "interface conversion")
          end
      end
  end.

Definition AcceptCommit (height : Z) (blkID : bytes) (hdr : BlockHeader) (ci : option CommitInfo)
  : action CE bool :=
  info ← gets stateInfo;
  match si_blkProp info with
  | Some p =>
      if bool_decide (prop_blkHash p = blkID) && (hasBlock info =? height) then mret false
      else if bool_decide (prop_blkHash p = blkID) && negb (bool_decide (si_status info = Committed))
      then _ ← NotifyBlockCommit (prop_blk p) ci blkID; mret false
      else r ← gets (accept_announced height blkID hdr ci); alift r
  | None => r ← gets (accept_announced height blkID hdr ci); alift r
  end.

(** A rejected proposal is answered with a nack. *)
Definition reject_proposal (p : blockProposal) (e : error) : action CE unit :=
  sig ← alift (wrap_err "error signing the voteInfo" (SignVote (prop_blkHash p) false None privKey));
  _ ← send (SendAck (mkAckRes false (Some NackStatusInvalidBlock) (prop_height p) (prop_blkHash p)
                       None None (Some sig)));
  afail (ErrWrap "error validating block" e).

(** The ack of an executed proposal, kept for reannouncement. *)
Definition send_ack (p : blockProposal) : action CE unit :=
  res ← gets (fun ce => blockRes (st ce));
  match res with
  | None => nil_panic
  | Some r =>
      sig ← alift (SignVote (prop_blkHash p) true (Some (br_appHash r)) privKey);
      let msg := mkAckRes true None (prop_height p) (prop_blkHash p) (Some (br_appHash r)) None
                   (Some sig) in
      _ ← modify (upd_st (st_set_blockRes
            (Some (mkBlockResult (br_ack r) (br_appHash r) (br_txResults r) (Some msg)
                     (br_paramUpdates r) (br_valUpdates r)))));
      send (SendAck msg)
  end.

(** Validation, execution and the answer, once the engine is free to work on
    the proposal. *)
Definition evaluate_proposal (p : blockProposal) : action CE unit :=
  v ← gets (fun ce => _ ← validateBlock ce (prop_blk p);
                      validateProposalTimestamp (Timestamp (Header (prop_blk p)))
                        (lastBlockInternal ce).2);
  match v with
  | Err e => if is_panic e then afail e else reject_proposal p e
  | Ok _ =>
      _ ← modify (upd_st (fun s => st_set_blockRes None (st_set_blkProp (Some p) s)));
      _ ← modify (upd_info (fun s => si_set_blkProp (Some p) (si_set_status Proposed s)));
      r ← atry (executeBlock p false);
      match r with
      | Err e => if errors_is e ErrCanceled then mret tt else afail e
      | Ok _ => send_ack p
      end
  end.

Definition processBlockProposal (now : Z) (p : blockProposal) : action CE unit :=
  rl ← gets role;
  if negb (bool_decide (rl = RoleValidator)) then mret tt
  else
    s ← gets st;
    if negb (lc_height (lc s) + 1 =? prop_height p) then mret tt
    else if negb (is_ok (checkProposalNotAhead (Timestamp (Header (prop_blk p))) now)) then mret tt
    else
      stale ← (match blkProp s with
               | None => mret false
               | Some cur =>
                   if bool_decide (prop_blkHash cur = prop_blkHash p) then mret true
                   else if Timestamp (Header (prop_blk cur)) >? Timestamp (Header (prop_blk p))
                   then mret true
                   else _ ← rollbackState; mret false
               end : action CE bool);
      if stale : bool then mret tt
      else match NewLeader (Header (prop_blk p)) with
      | None => evaluate_proposal p
      | Some key =>
          accepted ← equals_leader key;
          if accepted : bool then evaluate_proposal p else mret tt
      end.

(** The commit of a block the node has already executed. *)
Definition commit_processed (blk : Block) (ci : option CommitInfo) (p : blockProposal) : action CE unit :=
  _ ← claim_height (bh_Height (Header blk)) "block already processed, duplicate commitBlock";
  res ← gets (fun ce => blockRes (st ce));
  match res, ci with
  | Some r, Some c =>
      if negb (same_updates (br_paramUpdates r) (ci_ParamUpdates c))
      then sendHalt "Incorrect ParamUpdates, halting the node"
      else if negb (bool_decide (br_appHash r = ci_AppHash c))
      then sendHalt "Incorrect AppHash, halting the node"
      else _ ← acceptCommitInfo ci (prop_blkHash p); commit
  | _, _ => nil_panic
  end.

Definition commitBlock (blk : Block) (ci : option CommitInfo) (blkID : bytes) : action CE unit :=
  s ← gets st;
  if negb (lc_height (lc s) + 1 =? bh_Height (Header blk)) then mret tt
  else
    rl ← gets role;
    match rl, blkProp s with
    | RoleSentry, _ | _, None => processAndCommit blk ci blkID false
    | _, Some p =>
        if negb (bool_decide (prop_blkHash p = blkID)) then
          _ ← rollbackState;
          processAndCommit blk ci blkID false
        else commit_processed blk ci p
    end.

(** ** Leader updates *)

Definition lastCommitHeight ce : Z := si_height (stateInfo ce).

Definition PromoteLeader (candidate : PublicKey) (height : Z) : action CE unit :=
  last ← gets lastCommitHeight;
  if height <=? last then afail (ErrMsg "height is less than or equal to the current height")
  else storeLeaderUpdates (Some (mkLeaderUpdate candidate height)).

Definition applyLeaderUpdates : action CE unit :=
  update ← gets leaderUpdates;
  last ← gets lastCommitHeight;
  match update with
  | None => mret tt
  | Some u =>
      if lu_Height u >? last + 1 then mret tt
      else if lu_Height u <=? last then _ ← atry (storeLeaderUpdates None); mret tt
      else
        member ← gets (fun ce => is_validator ce (pk_Bytes (Candidate u)));
        if negb member then _ ← atry (storeLeaderUpdates None); mret tt
        else
          _ ← equals_leader (Candidate u);
          _ ← modify (set_leader (Some (Candidate u)));
          _ ← updateRole;
          modify (upd_st (st_set_leaderUpdate (Some u)))
  end.

(** ** Transactions *)

Definition on_mempool {A} (m : action Mempool.Mempool A) : action CE A := fun ce =>
  let '(r, mp) := m (mempool ce) in (r, upd_mempool (fun _ => mp) ce).

(** [checkTxAdmission]: a panic of the check is an error. *)
Definition checkTxAdmission {A} (r : result A) : result A :=
  match r with
  | Ok a => Ok a
  | Err e => Err (if is_panic e then ErrMsg "transaction validation failed" else e)
  end.

Definition QueueTx (tx : Mempool.NodeTx) : action CE unit :=
  if bool_decide (tx_Signature (Mempool.ntx_Transaction tx) = None)
  then afail (ErrMsg "transaction signature is required")
  else
    last ← gets lastBlock;
    let '(height, _, timestamp) := last in
    _ ← on_mempool (Mempool.Store tx);
    r ← atry (on_env (bp_CheckTx tx height timestamp false));
    match checkTxAdmission r with
    | Err e => _ ← modify (upd_mempool (Mempool.remove (Mempool.ntx_hash tx))); afail e
    | Ok _ =>
        rl ← gets role;
        info ← gets stateInfo;
        if bool_decide (rl = RoleLeader) && bool_decide (si_status info = Committed) then
          sz ← gets (fun ce => fst (Mempool.Size (mempool ce)));
          limit ← gets (fun ce => MaxBlockSize (ConsensusParams ce));
          full ← gets mempoolReady;
          awhen (limit <=? sz)
            (_ ← modify (set_mempoolReady true); awhen (negb full) (send SignalMempoolReady))
        else mret tt
    end.

Definition SubscribeTx (txHash : bytes) : action CE unit :=
  present ← gets (fun ce => bool_decide (txHash ∈ txSubscribers ce));
  if present : bool then afail (ErrMsg "tx already subscribed")
  else modify (upd_txSubscribers (fun subs => {[txHash]} ∪ subs)).

Definition UnsubscribeTx (txHash : bytes) : action CE unit :=
  modify (upd_txSubscribers (fun subs => subs ∖ {[txHash]})).

(** ** Synchronisation *)

(** A fetched block: its claimed hash, its encoding and its commit info. *)
Abbreviation fetched := (bytes * bytes * option CommitInfo)%type.

(** [setLastCommitInfo]; [copy] overwrites a prefix of the old hash. *)
Definition copy_hash (old new : bytes) : bytes := take HashLen new ++ drop (length new) old.

Definition setLastCommitInfo (height : Z) (appHash : bytes) (blk : option Block)
    (ci : option CommitInfo) : action CE unit :=
  blkHash ← (match blk with
             | Some b => alift (Header_Hash HashBytes reg (Header b))
             | None => mret (replicate HashLen x00)
             end : action CE (list byte));
  _ ← modify (upd_st (fun s =>
        st_set_lc (mkLastCommit height blkHash (copy_hash (lc_appHash (lc s)) appHash) blk ci) s));
  modify (upd_info (fun s => mkStateInfo height Committed None height
    (mkLastCommit height blkHash (copy_hash (replicate HashLen x00) appHash) blk ci))).

(** The loop of [replayFromBlockStore] over [n] heights. *)
Fixpoint replay_loop (n : nat) (height : Z) : action CE unit :=
  match n with
  | O => mret tt
  | S n' =>
      stored ← gets (fun ce => bs_GetByHeight height (env ce));
      match stored with
      | Err e => if errors_is e ErrNotFound then mret tt
                 else afail (ErrWrap "unexpected blockstore error" e)
      | Ok (_, blk, ci) =>
          hash ← alift (Block_Hash HashBytes reg blk);
          _ ← processAndCommit blk (Some ci) hash true;
          replay_loop n' (height + 1)
      end
  end.

Definition replayFromBlockStore (startHeight bestHeight : Z) : action CE unit :=
  if bestHeight <=? startHeight then mret tt
  else replay_loop (Z.to_nat (bestHeight - startHeight + 1)) startHeight.

Definition applyBlock (rawBlk : bytes) (ci : option CommitInfo) (blkID : bytes) : action CE unit :=
  blk ← alift (wrap_err "failed to decode block" (DecodeBlock reg rawBlk));
  processAndCommit blk ci blkID true.

(** The loop of [replayBlockFromNetwork]: [fetches] are the outcomes of the
    successive requests; the context ends with them. *)
Fixpoint replayBlockFromNetwork (fetches : list (result fetched)) : action CE unit :=
  match fetches with
  | [] => afail ErrCanceled
  | Ok (blkID, rawBlk, ci) :: fetches' =>
      _ ← applyBlock rawBlk ci blkID;
      replayBlockFromNetwork fetches'
  | Err e :: fetches' =>
      if errors_is e ErrCanceled then afail e
      else if errors_is e ErrBlkNotFound || errors_is e ErrNotFound then
        lb ← gets lastBlockInternal; RecheckTxs lb.1 lb.2
      else
        rl ← gets role;
        if bool_decide (rl = RoleLeader) && errors_is e ErrPeersNotFound then mret tt
        else replayBlockFromNetwork fetches'
  end.

(** [syncBlocksUntilHeight]: one fetch for each height up to the target. *)
Fixpoint syncBlocksUntilHeight (fetches : list (result fetched)) : action CE unit :=
  match fetches with
  | [] => mret tt
  | Err e :: _ => afail (ErrWrap "failed to get block from the network" e)
  | Ok (blkID, rawBlk, ci) :: fetches' =>
      _ ← applyBlock rawBlk ci blkID;
      syncBlocksUntilHeight fetches'
  end.

(** *** The catch-up of a leader that is out of sync

    [catchUpFromOutOfSync] runs beside the loop and takes the lock of the state
    for each of its parts: the reset of the proposal, each fetched block, and the
    end.  Its local variables are arguments. *)

Definition endOutOfSyncCatchup (gen : Z) : action CE unit :=
  c ← gets (fun ce => st_catchup (st ce));
  awhen (catchupGen c =? gen)
    (modify (upd_st (st_set_catchup (mkCatchup false (catchupGen c) (catchupProp c) (catchupHash c)
                                       (catchupStart c) (catchupEnd c))))).

(** The proposal is dropped once a peer has the next block: the height to sync to. *)
Definition outOfSync_reset (gen propHeight : Z) (propHash : bytes) : action CE (option Z) :=
  c ← gets (fun ce => st_catchup (st ce));
  prop ← gets (fun ce => blkProp (st ce));
  let current := match prop with
                 | Some p => (catchupGen c =? gen) && (prop_height p =? propHeight) &&
                             bool_decide (prop_blkHash p = propHash)
                 | None => false
                 end in
  if negb current then _ ← endOutOfSyncCatchup gen; mret None
  else
    r ← atry rollbackState;
    match r with
    | Ok _ => mret (Some (catchupEnd c))
    | Err e => if is_panic e then afail e else _ ← endOutOfSyncCatchup gen; mret None
    end.

(** One block of [syncBlocksUntilHeight]; whether the sync goes on. *)
Definition outOfSync_apply (gen : Z) (f : result fetched) : action CE bool :=
  r ← atry (match f with
            | Err e => afail (ErrWrap "failed to get block from the network" e)
            | Ok (blkID, rawBlk, ci) => applyBlock rawBlk ci blkID
            end);
  match r with
  | Ok _ => mret true
  | Err e =>
      if is_panic e then afail e
      else if errors_is e ErrBlkNotFound || errors_is e ErrNotFound then mret false
      else _ ← sendHalt "Error syncing blocks"; _ ← endOutOfSyncCatchup gen; mret false
  end.

Definition outOfSync_finish (gen : Z) : action CE unit :=
  _ ← endOutOfSyncCatchup gen;
  rl ← gets role;
  awhen (bool_decide (rl = RoleLeader)) (send SignalNewRound).

Definition processCurrentBlock (got : result fetched) : action CE unit :=
  rl ← gets role;
  s ← gets st;
  match rl, blkProp s, blockRes s with
  | RoleValidator, Some p, Some r =>
      f ← alift got;
      let '(blkHash, rawBlk, ci) := f in
      if negb (bool_decide (blkHash = prop_blkHash p)) then
        _ ← rollbackState;
        blk ← alift (DecodeBlock reg rawBlk);
        processAndCommit blk ci blkHash false
      else match ci with
      | None => nil_panic
      | Some c =>
          if negb (bool_decide (ci_AppHash c = br_appHash r)) then sendHalt "Incorrect AppHash"
          else _ ← acceptCommitInfo ci blkHash; commit
      end
  | _, _, _ => mret tt
  end.

Definition fetch_missing (e : error) : bool :=
  errors_is e ErrBlkNotFound || errors_is e ErrNotFound || errors_is e ErrPeersNotFound.

Definition doCatchup (got : result fetched) (fetches : list (result fetched)) : action CE unit :=
  params ← gets ConsensusParams;
  rl ← gets role;
  if bool_decide (MigrationStatus params = MigrationCompleted) then mret tt
  else if bool_decide (rl = RoleLeader) then applyLeaderUpdates
  else
    _ ← modify (set_inSync true);
    r ← atry (c ← atry (processCurrentBlock got);
              match c with
              | Err e => if fetch_missing e then mret tt else afail e
              | Ok _ =>
                  _ ← replayBlockFromNetwork fetches;
                  _ ← applyLeaderUpdates;
                  now ← gets role;
                  awhen (bool_decide (now = RoleLeader)) (send SignalNewRound)
              end);
    _ ← modify (set_inSync false);
    alift r.

(** ** Announcements and resets *)

Definition reannounceMsgs : action CE unit :=
  rl ← gets role;
  s ← gets st;
  match rl, blkProp s, blockRes s with
  | RoleLeader, _, _ =>
      awhen ((0 <? lc_height (lc s)) && bool_decide (is_Some (lc_blk (lc s))) &&
             (match commitInfo s with Some _ => true | None => false end))
        (match lc_blk (lc s) with
         | Some blk => send (SendAnnounce blk (lc_commitInfo (lc s)))
         | None => mret tt
         end)
  | RoleValidator, Some _, Some r =>
      if bool_decide (br_appHash r = replicate HashLen x00) then mret tt
      else match br_vote r with Some msg => send (SendAck msg) | None => nil_panic end
  | _, _, _ => mret tt
  end.

Definition rebroadcastBlkProposal : action CE unit :=
  rl ← gets role;
  s ← gets st;
  match rl, blkProp s with
  | RoleLeader, Some p => send (SendProposal (prop_blk p))
  | _, _ => mret tt
  end.

Definition cancelBlock ce (height : Z) : bool :=
  (si_height (stateInfo ce) + 1 =? height) &&
  (match si_blkProp (stateInfo ce) with Some _ => true | None => false end).

Definition resetBlockProp (height : Z) (txIDs : list bytes) : action CE unit :=
  rollback ← gets (fun ce => cancelBlock ce height);
  _ ← remove_txs txIDs;
  r ← atry (awhen rollback rollbackState);
  match r with
  | Err e => if is_panic e then afail e else mret tt
  | Ok _ =>
      awhen (0 <? zlen txIDs) (lb ← gets lastBlockInternal; RecheckTxs lb.1 lb.2)
  end.

(** ** Messages from the network *)

Definition NotifyBlockProposal (blk : Block) : action CE unit :=
  rl ← gets role;
  if bool_decide (rl = RoleLeader) then mret tt
  else
    hash ← alift (Header_Hash HashBytes reg (Header blk));
    send (Enqueue (MsgProposal (mkProposal (bh_Height (Header blk)) hash blk))).

Definition NotifyACK (validatorPK : bytes) (ack : AckRes) : action CE unit :=
  rl ← gets role;
  awhen (bool_decide (rl = RoleLeader)) (send (Enqueue (MsgVote ack validatorPK))).

Definition NotifyResetState (height : Z) (txIDs : list bytes) (leaderPubKey : bytes) : action CE unit :=
  rl ← gets role;
  if negb (bool_decide (rl = RoleValidator)) then mret tt
  else
    ldr ← gets leader;
    match ldr with
    | None => nil_panic
    | Some l => awhen (bool_decide (leaderPubKey = pk_Bytes l)) (send (EnqueueReset height txIDs))
    end.

Definition handleConsensusMessages (now : Z) (msg : consensusMessage) : action CE unit :=
  match msg with
  | MsgProposal p => alog (processBlockProposal now p)
  | MsgVote vote sender =>
      rl ← gets role;
      if negb (bool_decide (rl = RoleLeader)) then mret tt
      else alog (addVote vote (hex_encode sender))
  | MsgAnnounce blk ci blkID =>
      preRole ← gets role;
      c ← atry (commitBlock blk ci blkID);
      match c with
      | Err e => if is_panic e then afail e else mret tt
      | Ok _ =>
          _ ← applyLeaderUpdates;
          postRole ← gets role;
          awhen (negb (bool_decide (preRole = postRole)) && bool_decide (postRole = RoleLeader))
            (send SignalNewRound)
      end
  end.

(** ** The event loop *)

(** One turn of [runConsensusEventLoop] or of [resetEventLoop], or a call from
    another goroutine. *)
Inductive event :=
  | EvHalt
  | EvNewRound
  | EvNewBlockProposal (now : Z) (cancel : option (Z * list bytes))
  | EvCatchup (got : result fetched) (fetches : list (result fetched))
  | EvReannounce
  | EvMessage (now : Z) (msg : consensusMessage)
  | EvRebroadcast
  | EvReset (height : Z) (txIDs : list bytes)
  | EvPromoteLeader (candidate : PublicKey) (height : Z)
  | EvQueueTx (tx : Mempool.NodeTx)
  | EvAcceptProposal (height : Z) (blkID leaderSig : bytes) (timestamp : Z)
  | EvAcceptCommit (height : Z) (blkID : bytes) (hdr : BlockHeader) (ci : option CommitInfo)
  | EvNotifyBlockProposal (blk : Block)
  | EvNotifyBlockCommit (blk : Block) (ci : option CommitInfo) (blkID : bytes)
  | EvNotifyACK (validatorPK : bytes) (ack : AckRes)
  | EvNotifyResetState (height : Z) (txIDs : list bytes) (leaderPubKey : bytes)
  | EvSubscribeTx (txHash : bytes)
  | EvUnsubscribeTx (txHash : bytes)
  | EvOutOfSyncAbort (gen : Z)
  | EvOutOfSyncReset (gen propHeight : Z) (propHash : bytes)
  | EvOutOfSyncApply (gen : Z) (f : result fetched)
  | EvOutOfSyncFinish (gen : Z).

(** An error ends the loop. *)
Definition handle (ev : event) : action CE unit :=
  match ev with
  | EvHalt =>
      halt ← gets haltChan;
      match halt with Some reason => afail (ErrMsg reason) | None => mret tt end
  | EvNewRound => applyLeaderUpdates
  | EvNewBlockProposal now cancel =>
      params ← gets ConsensusParams;
      rl ← gets role;
      if bool_decide (MigrationStatus params = MigrationCompleted) then mret tt
      else if negb (bool_decide (rl = RoleLeader)) then mret tt
      else proposeBlock now cancel
  | EvCatchup got fetches => doCatchup got fetches
  | EvReannounce => reannounceMsgs
  | EvMessage now msg => handleConsensusMessages now msg
  | EvRebroadcast => rebroadcastBlkProposal
  | EvReset height txIDs => resetBlockProp height txIDs
  | EvPromoteLeader candidate height => alog (PromoteLeader candidate height)
  | EvQueueTx tx => alog (QueueTx tx)
  | EvAcceptProposal height blkID sig ts => _ ← AcceptProposal height blkID sig ts; mret tt
  | EvAcceptCommit height blkID hdr ci => _ ← AcceptCommit height blkID hdr ci; mret tt
  | EvNotifyBlockProposal blk => NotifyBlockProposal blk
  | EvNotifyBlockCommit blk ci blkID => NotifyBlockCommit blk ci blkID
  | EvNotifyACK validatorPK ack => NotifyACK validatorPK ack
  | EvNotifyResetState height txIDs leaderPubKey => NotifyResetState height txIDs leaderPubKey
  | EvSubscribeTx txHash => alog (SubscribeTx txHash)
  | EvUnsubscribeTx txHash => UnsubscribeTx txHash
  | EvOutOfSyncAbort gen => endOutOfSyncCatchup gen
  | EvOutOfSyncReset gen h hash => _ ← outOfSync_reset gen h hash; mret tt
  | EvOutOfSyncApply gen f => _ ← outOfSync_apply gen f; mret tt
  | EvOutOfSyncFinish gen => outOfSync_finish gen
  end.

(** [New]: the engine before it starts. *)
Definition New (cfgLeader : option PublicKey) (updates : option leaderUpdate)
    (mp : Mempool.Mempool) (e : E) : CE :=
  let zero := mkLastCommit 0 (replicate HashLen x00) (replicate HashLen x00) None None in
  mkEngine RoleSentry cfgLeader ∅
    (mkState None None zero ∅ None None (mkCatchup false 0 0 (replicate HashLen x00) 0 0))
    (mkStateInfo 0 Committed None 0 (mkLastCommit 0 (replicate HashLen x00) (replicate HashLen x00) None None))
    true [] 0 updates None mp false ∅ e [].

(** [repairAppAheadOfStore]: [intent] is the recorded commit intent. *)
Definition repairAppAheadOfStore (height : Z) (appHash : bytes) (intent : option (Z * bytes))
    (got : result fetched) : action CE unit :=
  match intent with
  | None => afail (ErrMsg "app height is ahead of blockstore without a local commit intent")
  | Some (intentHeight, expectedHash) =>
      if negb (intentHeight =? height)
      then afail (ErrMsg "app height is ahead of blockstore without a local commit intent")
      else
        f ← alift (wrap_err "fetch block" got);
        let '(blkID, rawBlk, ci) := f in
        match ci with
        | None => afail (ErrMsg "missing commit info for block")
        | Some c =>
            if bool_decide (expectedHash = replicate HashLen x00) || negb (bool_decide (expectedHash = blkID))
            then afail (ErrMsg "fetched block hash does not match commit intent")
            else
              blk ← alift (wrap_err "decode block" (DecodeBlock reg rawBlk));
              decodedHash ← alift (Block_Hash HashBytes reg blk);
              if negb (bool_decide (decodedHash = expectedHash)) || negb (bool_decide (decodedHash = blkID))
              then afail (ErrMsg "decoded block hash does not match fetched or commit intent")
              else if negb (bh_Height (Header blk) =? height)
              then afail (ErrMsg "decoded block height does not match requested height")
              else if (0 <? zlen appHash) && negb (bool_decide (ci_AppHash c = appHash))
              then afail (ErrMsg "commit info app hash mismatch")
              else
                _ ← on_env (bs_Store blk ci);
                on_env bs_Sync
        end
  end.

(** [initializeState]: [chain] is the stored chain state (height, app hash,
    dirty), [genesis] the outcome of [InitChain]; the app and store heights. *)
Definition initializeState (genesisHeight : Z) (chain : result (Z * bytes * bool))
    (genesis : result (Z * bytes)) (intent : option (Z * bytes)) (got : result fetched)
  : action CE (Z * Z) :=
  best ← gets (fun ce => bs_Best (env ce));
  c ← alift chain;
  let '(appHeight, appHash, dirty) := c in
  if dirty : bool then afail (ErrMsg "app state is dirty")
  else
    let ahead := (appHeight >? best.1.1) && negb (appHeight =? genesisHeight) in
    _ ← awhen ahead (repairAppAheadOfStore appHeight appHash intent got);
    best ← gets (fun ce => bs_Best (env ce));
    if ahead && (best.1.1 <? appHeight) then afail (ErrMsg "blockstore repair failed to reach app height")
    else
      height ← ((if appHeight =? -1 then
                   g ← alift (wrap_err "error initializing the chain" genesis);
                   _ ← setLastCommitInfo g.1 g.2 None None;
                   mret g.1
                 else if appHeight =? 0 then
                   _ ← setLastCommitInfo appHeight appHash None None;
                   mret appHeight
                 else if (appHeight =? best.1.1) && negb (bool_decide (appHash = best.2))
                 then afail (ErrMsg "AppHash mismatch")
                 else
                   stored ← gets (fun ce => bs_GetByHeight appHeight (env ce));
                   b ← alift (wrap_err "error fetching the block from the blockstore" stored);
                   let '(_, blk, ci) := b in
                   _ ← setLastCommitInfo appHeight appHash (Some blk) (Some ci);
                   mret appHeight) : action CE Z);
      _ ← updateValidatorSetAndRole;
      final ← gets (fun ce => bs_Best (env ce));
      _ ← (match intent with
           | Some (intentHeight, _) =>
               awhen ((intentHeight <=? final.1.1) && (intentHeight <=? height))
                 (_ ← atry (on_env cl_Clear); mret tt)
           | None => mret tt
           end : action CE unit);
      mret (height, best.1.1).

(** [VerifyCheckpoint]; no checkpoint has height 0. *)
Definition VerifyCheckpoint ce (checkpoint : Z * bytes) : result unit :=
  if checkpoint.1 =? 0 then Ok tt
  else
    let last := si_lastCommit (stateInfo ce) in
    if lc_height last <? checkpoint.1 then Err (ErrMsg "checkpoint verification failed: height")
    else if (lc_height last =? checkpoint.1) && negb (bool_decide (lc_blkHash last = checkpoint.2))
    then Err (ErrMsg "checkpoint verification failed: hash")
    else Ok tt.

(** [leaderBlockSync]: [fetches] has the outcome for each height up to the
    checkpoint; fewer outcomes mean that the context ended. *)
Definition leaderBlockSync (checkpoint : Z) (fetches : list (result fetched)) : action CE unit :=
  start ← gets lastCommitHeight;
  if checkpoint <=? start then mret tt
  else
    let n := Z.to_nat (checkpoint - start) in
    _ ← syncBlocksUntilHeight (take n fetches);
    if (length fetches <? n)%nat then afail ErrCanceled else mret tt.

Definition doBlockSync (checkpoint : Z * bytes) (fetches1 fetches2 : list (result fetched))
  : action CE unit :=
  rl ← gets role;
  _ ← awhen (bool_decide (rl = RoleLeader))
        (_ ← leaderBlockSync checkpoint.1 fetches1;
         v ← gets (fun ce => VerifyCheckpoint ce checkpoint);
         alift (wrap_err "checkpoint verification failed" v));
  replayBlockFromNetwork fetches2.

(** [catchup] after [initializeState] returned the two heights. *)
Definition catchup_sync (appHeight storeHeight : Z) (checkpoint : Z * bytes)
    (fetches1 fetches2 : list (result fetched)) : action CE unit :=
  _ ← modify (set_inSync true);
  r ← atry (_ ← awhen (appHeight <? storeHeight) (replayFromBlockStore (appHeight + 1) storeHeight);
            doBlockSync checkpoint fetches1 fetches2);
  _ ← modify (set_inSync false);
  alift r.
End engine.
