(* ===== verification/Certificates.v ===== *)
(** * Safety of the consensus engine

    What a commit certificate is, that [verifyVotes] checks exactly that, that
    two certificates of one validator set share a signer, and that every block
    an engine commits follows its predecessor and carries a certificate of the
    validator set it was committed under, for the sequences of events of the
    loop of component Consensus and of its catch-up worker that satisfy [ev_ok]. *)

From S2P Require Import Prelude.
From S2P Require Import Wire.
From S2P Require Import Keys.
From S2P Require Import Ident.
From S2P Require Import Order.
From S2P Require Import Tx.
From S2P Require Import Block.
From S2P Require Import Params.
From S2P Require Import Payloads.
From S2P Require Import Commit.
From S2P Require Mempool.
From S2P Require Import Consensus.
From Stdlib Require Import Strings.Byte.
From stdpp Require Import sorting relations.

#[local] Open Scope Z_scope.

(** ** Certificates *)

Section certificate.
Context (reg : registry) (PubKey_Verify : PublicKey -> bytes -> bytes -> result bool).
Implicit Types vs : gmap (list byte) Validator.

(** The validator-set key of a vote's signer. *)
Definition signer (v : VoteInfo) : bytes := hex_encode (slice_bytes (vs_PubKey (vi_Signature v))).

(** The vote is signed by a key of the validator set, with its key type. *)
Definition member_vote vs (v : VoteInfo) : Prop :=
  exists val, vs !! signer v = Some val /\ acct_KeyType (val_ID val) = vs_PubKeyType (vi_Signature v).

Definition vote_id (v : VoteInfo) : bytes := voteSignerID (vi_Signature v).

(** A certificate of a block: distinct members of the validator set signed its
    votes, and more than half of the set signed an ack of its app hash. *)
Record certified vs (blkID : bytes) (ci : CommitInfo) : Prop := mkCertified {
  cert_distinct : NoDup (map vote_id (Votes ci));
  cert_member v : v ∈ Votes ci -> member_vote vs v;
  cert_signed v : v ∈ Votes ci ->
    VoteInfo_Verify reg PubKey_Verify v blkID (ci_AppHash ci) = Ok tt;
  cert_majority : Z.of_nat (size vs) < 2 * count_acks (Votes ci)
}.

Lemma member_vote_id vs v w :
  member_vote vs v -> member_vote vs w -> signer v = signer w -> vote_id v = vote_id w.
Proof.
  intros (a & Ha & Ka) (b & Hb & Kb) E. rewrite E in Ha. simplify_eq.
  unfold vote_id, voteSignerID. rewrite <- Ka, <- Kb. unfold signer in E. by rewrite E.
Qed.

(** Distinct votes of members have distinct validators. *)
Lemma NoDup_signers vs (l : list VoteInfo) :
  NoDup (map vote_id l) -> (forall v, v ∈ l -> member_vote vs v) -> NoDup (map signer l).
Proof.
  induction l as [|v l IH]; cbn [map]; intros Hnd Hm; [by constructor|].
  apply list.NoDup_cons in Hnd as [Hv Hnd]. apply list.NoDup_cons. split.
  - intros (w & E & Hw)%list_elem_of_fmap. apply Hv, list_elem_of_fmap. exists w. split; [|done].
    apply (member_vote_id vs); [apply Hm; set_solver..|done].
  - apply IH; [done|]. intros w Hw. apply Hm. set_solver.
Qed.

Lemma signers_in_set vs (l : list VoteInfo) k :
  (forall v, v ∈ l -> member_vote vs v) -> k ∈ map signer l -> k ∈ dom vs.
Proof.
  intros Hm (v & -> & Hv)%list_elem_of_fmap. destruct (Hm v Hv) as (val & E & _).
  by apply elem_of_dom_2 in E.
Qed.

Lemma NoDup_dom_length {A} (m : gmap (list byte) A) (l : list bytes) :
  NoDup l -> (forall k, k ∈ l -> k ∈ dom m) -> (length l <= size m)%nat.
Proof.
  intros Hnd Hl. rewrite <- size_dom, <- (size_list_to_set (C := gset (list byte)) l Hnd).
  apply subseteq_size. intros k Hk%elem_of_list_to_set. auto.
Qed.

(** No more distinct votes than validators. *)
Lemma member_votes_bound vs (l : list VoteInfo) :
  NoDup (map vote_id l) -> (forall v, v ∈ l -> member_vote vs v) -> zlen l <= Z.of_nat (size vs).
Proof.
  intros Hnd Hm. pose proof (NoDup_dom_length vs (map signer l)) as H.
  rewrite length_map in H. unfold zlen. apply inj_le, H.
  - by apply (NoDup_signers vs).
  - intros k. by apply signers_in_set.
Qed.

Lemma count_split (l : list VoteInfo) : count_acks l + count_nacks l = zlen l.
Proof.
  unfold count_acks, count_nacks. induction l as [|v l IH]; [done|].
  cbn [List.filter]. destruct (is_ack v); cbn [negb]; rewrite !zlen_cons; lia.
Qed.

Lemma count_acks_cons v l :
  count_acks (v :: l) = (if is_ack v then 1 else 0) + count_acks l.
Proof. unfold count_acks. cbn [List.filter]. destruct (is_ack v); rewrite ?zlen_cons; lia. Qed.

Lemma elem_of_acks v l : v ∈ List.filter is_ack l <-> v ∈ l /\ AckStatus v = AckAgree.
Proof.
  rewrite !list_elem_of_In, filter_In. unfold is_ack. by rewrite Z.eqb_eq.
Qed.

Lemma NoDup_map_filter {B} (f : VoteInfo -> B) (p : VoteInfo -> bool) (l : list VoteInfo) :
  NoDup (map f l) -> NoDup (map f (List.filter p l)).
Proof.
  induction l as [|v l IH]; cbn [map List.filter]; [done|]. intros [Hv Hnd]%list.NoDup_cons.
  destruct (p v); [|by apply IH]. cbn [map]. apply list.NoDup_cons. split; [|by apply IH].
  intros (w & E & [Hw _]%list_elem_of_In%filter_In)%list_elem_of_fmap. apply Hv, list_elem_of_fmap.
  exists w. split; [done|]. by apply list_elem_of_In.
Qed.

(** Two duplicate-free lists over a set that are together longer than the set
    have a common element. *)
Lemma pigeonhole {A} (m : gmap (list byte) A) (l k : list bytes) :
  NoDup l -> NoDup k -> (forall x, x ∈ l -> x ∈ dom m) -> (forall x, x ∈ k -> x ∈ dom m) ->
  (size m < length l + length k)%nat -> exists x, x ∈ l /\ x ∈ k.
Proof.
  intros Hl Hk Il Ik Hlen. destruct (decide (List.Exists (fun x => x ∈ k) l)) as [H|H].
  - apply List.Exists_exists in H as (x & Hx%list_elem_of_In & Hxk). eauto.
  - exfalso. pose proof (NoDup_dom_length m (l ++ k)) as Hb. rewrite length_app in Hb.
    enough (length l + length k <= size m)%nat by lia. apply Hb.
    + apply NoDup_app. split_and!; [done| |done]. intros x Hx Hxk. apply H, List.Exists_exists.
      exists x. split; [by apply list_elem_of_In|done].
    + intros x [?|?]%elem_of_app; auto.
Qed.

(** Two certificates of one validator set have an ack each by one validator. *)
Lemma shared_signer vs b1 b2 ci1 ci2 :
  certified vs b1 ci1 -> certified vs b2 ci2 ->
  exists v w, v ∈ Votes ci1 /\ w ∈ Votes ci2 /\ AckStatus v = AckAgree /\ AckStatus w = AckAgree /\
    signer v = signer w /\ vote_id v = vote_id w.
Proof.
  intros [D1 M1 S1 Q1] [D2 M2 S2 Q2].
  assert (forall ci, (forall v, v ∈ Votes ci -> member_vote vs v) ->
            forall v, v ∈ List.filter is_ack (Votes ci) -> member_vote vs v) as Macks.
  { intros ci M v [Hv _]%elem_of_acks. auto. }
  destruct (pigeonhole vs (map signer (List.filter is_ack (Votes ci1)))
              (map signer (List.filter is_ack (Votes ci2)))) as (x & Hx1 & Hx2).
  - by eapply NoDup_signers; [apply NoDup_map_filter|apply Macks].
  - by eapply NoDup_signers; [apply NoDup_map_filter|apply Macks].
  - intros x. by apply signers_in_set, Macks.
  - intros x. by apply signers_in_set, Macks.
  - rewrite !length_map. unfold count_acks, zlen in Q1, Q2. lia.
  - apply list_elem_of_fmap in Hx1 as (v & -> & [Hv Av]%elem_of_acks).
    apply list_elem_of_fmap in Hx2 as (w & E & [Hw Aw]%elem_of_acks).
    exists v, w. split_and!; try done. eapply member_vote_id; eauto.
Qed.
End certificate.

(** ** What the checks of votes accept *)

Section votes.
Context (reg : registry) (PubKey_Verify : PublicKey -> bytes -> bytes -> result bool).
Context {E : Type}.
Implicit Types ce : ConsensusEngine E.

Abbreviation validateVote := (validateVote reg PubKey_Verify).
Abbreviation verify_loop := (verify_loop reg PubKey_Verify).
Abbreviation Verify := (VoteInfo_Verify reg PubKey_Verify).

Lemma validateVote_Ok ce v blkID app seen check seen' :
  validateVote ce v blkID app seen check = Ok seen' <->
  member_vote (validatorSet ce) v /\ (check = true -> Verify v blkID app = Ok tt) /\
  vote_id v ∉ seen /\ seen' = {[vote_id v]} ∪ seen.
Proof.
  unfold Consensus.validateVote, member_vote, vote_id. fold (signer v).
  destruct (validatorSet ce !! signer v) as [val|]; [|naive_solver].
  destruct (decide (acct_KeyType (val_ID val) = vs_PubKeyType (vi_Signature v))) as [K|K];
    [rewrite (bool_decide_eq_true_2 _ K)|rewrite (bool_decide_eq_false_2 _ K)]; cbn [negb];
    [|naive_solver].
  assert (forall r : result unit, (r = Ok tt <-> (check = true -> Verify v blkID app = Ok tt)) ->
    ((_ ← r; if bool_decide (voteSignerID (vi_Signature v) ∈ seen) then Err (ErrMsg "duplicate vote")
      else Ok ({[voteSignerID (vi_Signature v)]} ∪ seen)) = Ok seen' <->
     (check = true -> Verify v blkID app = Ok tt) /\ voteSignerID (vi_Signature v) ∉ seen /\
     seen' = {[voteSignerID (vi_Signature v)]} ∪ seen)) as Hr.
  { intros r <-. rewrite result_bind_Ok. split.
    - intros ([] & -> & Hd). case_bool_decide as Hs; [done|]. by apply (inj Ok) in Hd as <-.
    - intros (-> & Hs & ->). exists tt. by rewrite bool_decide_eq_false_2. }
  rewrite Hr by (destruct check; rewrite ?wrap_err_Ok; naive_solver).
  split; [intros (? & ? & ?)|intros (_ & ? & ? & ?)]; split_and!; eauto.
Qed.

(** The loop of [verifyVotes] accepts exactly the lists of distinct, verified
    votes of members, and counts their acks. *)
Lemma verify_loop_Ok ce blkID app l seen acks n :
  verify_loop ce blkID app l seen acks = Ok n <->
  NoDup (map vote_id l) /\ (forall v, v ∈ l -> vote_id v ∉ seen) /\
  (forall v, v ∈ l -> member_vote (validatorSet ce) v /\ Verify v blkID app = Ok tt) /\
  n = acks + count_acks l.
Proof.
  revert seen acks. induction l as [|v l IH]; intros seen acks; cbn [Consensus.verify_loop map].
  - split.
    + intros <-%(inj Ok). split_and!; [constructor|set_solver..|]. change (count_acks []) with 0. lia.
    + intros (_ & _ & _ & ->). change (count_acks []) with 0. f_equal. lia.
  - rewrite result_bind_Ok, count_acks_cons, list.NoDup_cons. split.
    + intros (seen' & (Hm & Hv & Hs & ->)%validateVote_Ok & (Hnd & Hf & Hl & ->)%IH). split_and!.
      * intros (w & Ew & Hw)%list_elem_of_fmap. specialize (Hf w Hw). set_solver.
      * done.
      * intros w [->|Hw]%elem_of_cons; [done|]. specialize (Hf w Hw). set_solver.
      * intros w [->|Hw]%elem_of_cons; auto.
      * unfold is_ack. destruct (AckStatus v =? AckAgree); lia.
    + intros ((Hv & Hnd) & Hf & Hl & ->). exists ({[vote_id v]} ∪ seen). split.
      * apply validateVote_Ok. destruct (Hl v) as [? ?]; [set_solver|]. split_and!; [done..| |done].
        apply Hf. set_solver.
      * apply IH. split_and!; [done| |set_solver|].
        -- intros w Hw. rewrite elem_of_union, elem_of_singleton. intros [Ew|?].
           ++ apply Hv, list_elem_of_fmap. eauto.
           ++ apply (Hf w); [by apply elem_of_cons; right|done].
        -- unfold is_ack. destruct (AckStatus v =? AckAgree); lia.
Qed.

Lemma hasMajority_spec ce n : hasMajority ce n = true <-> Z.of_nat (size (validatorSet ce)) < 2 * n.
Proof. unfold hasMajority. rewrite Z.leb_le. Z.to_euclidean_division_equations; lia. Qed.

Lemma hasEnoughNacks_spec ce n :
  hasEnoughNacks ce n = true <-> Z.of_nat (size (validatorSet ce)) <= 2 * n.
Proof. unfold hasEnoughNacks, ceilDiv. rewrite Z.leb_le. Z.to_euclidean_division_equations; lia. Qed.

Lemma verifyVotes_certified ce ci blkID :
  verifyVotes reg PubKey_Verify ce ci blkID = Ok tt <->
  certified reg PubKey_Verify (validatorSet ce) blkID ci.
Proof.
  unfold verifyVotes. rewrite result_bind_Ok. split.
  - intros (n & (Hnd & _ & Hl & ->)%verify_loop_Ok & Hq).
    destruct (hasMajority ce _) eqn:Hm; [|done]. apply hasMajority_spec in Hm.
    constructor; [done|naive_solver..|lia].
  - intros [Hnd Hm Hs Hq]. exists (count_acks (Votes ci)). split.
    + apply verify_loop_Ok. split_and!; [done|set_solver|auto|lia].
    + by rewrite (proj2 (hasMajority_spec ce _) Hq).
Qed.

(** The votes that [processVotes] keeps are distinct votes of members among
    those given. *)
Lemma tally_spec ce blkID app l seen :
  NoDup (map vote_id (tally reg PubKey_Verify ce blkID app l seen)) /\
  (forall v, v ∈ tally reg PubKey_Verify ce blkID app l seen ->
     v ∈ l /\ member_vote (validatorSet ce) v /\ vote_id v ∉ seen).
Proof.
  revert seen. induction l as [|v l IH]; intros seen; cbn [tally].
  - split; [constructor|set_solver].
  - destruct (validateVote ce v blkID app seen false) as [seen'|e] eqn:Ev.
    + apply validateVote_Ok in Ev as (Hm & _ & Hs & ->).
      destruct (IH ({[vote_id v]} ∪ seen)) as [Hnd Hl]. split.
      * cbn [map]. apply list.NoDup_cons. split; [|done].
        intros (w & Ew & Hw)%list_elem_of_fmap. destruct (Hl w Hw) as (_ & _ & ?). set_solver.
      * intros w [->|Hw]%elem_of_cons; [set_solver|]. destruct (Hl w Hw) as (? & ? & ?). set_solver.
    + destruct (IH seen) as [Hnd Hl]. split; [done|]. intros w Hw.
      destruct (Hl w Hw) as (? & ? & ?). set_solver.
Qed.

(** Distinct votes of members are all kept. *)
Lemma tally_all ce blkID app l seen :
  NoDup (map vote_id l) -> (forall v, v ∈ l -> member_vote (validatorSet ce) v /\ vote_id v ∉ seen) ->
  tally reg PubKey_Verify ce blkID app l seen = l.
Proof.
  revert seen. induction l as [|v l IH]; intros seen; cbn [tally map]; [done|].
  intros [Hv Hnd]%list.NoDup_cons Hl. destruct (Hl v) as [Hm Hs]; [set_solver|].
  rewrite (proj2 (validateVote_Ok ce v blkID app seen false ({[vote_id v]} ∪ seen))) by done.
  rewrite IH; [done..|]. intros w Hw. destruct (Hl w) as [? ?]; [set_solver|]. split; [done|].
  rewrite elem_of_union, elem_of_singleton. intros [Ew|?]; [|done].
  apply Hv, list_elem_of_fmap. eauto.
Qed.
End votes.

(** ** The committed chain *)

Section safety.
Context (HashBytes : bytes -> bytes) (reg : registry).
Context (PubKey_Verify : PublicKey -> bytes -> bytes -> result bool).
Context (range : forall A, gmap (list byte) A -> list (bytes * A)).
Context {E : Type} `{!BlockProcessor E, !BlockStore E, !NodeFiles E}.
Context (privKey : PrivateKey).
(** What holds of every block and the block hash that it arrives with. *)
Context (P : Block -> bytes -> Prop).
(** The leader of the network parameters is one of the validators. *)
Context (Hleader : forall e k, np_Leader (bp_ConsensusParams e) = Some k ->
  validator_map (bp_GetValidators e) !! hex_encode (pk_Bytes k) <> None).

Abbreviation CE := (ConsensusEngine E).
Implicit Types ce : CE.
Abbreviation certified := (certified reg PubKey_Verify).
Abbreviation Verify := (VoteInfo_Verify reg PubKey_Verify).

(** The last commit and the validator set that decides on the next block. *)
Definition view ce : lastCommit * gmap (list byte) Validator := (lc (st ce), validatorSet ce).

(** One committed block: it follows the last one, and its commit info is a
    certificate, of the validator set that was in force, for the block hash that
    the block is recorded with. *)
Inductive advance : relation (lastCommit * gmap (list byte) Validator) :=
  | advance_one last vs last' vs' blk ci :
      lc_blk last' = Some blk -> lc_commitInfo last' = Some ci ->
      lc_height last' = lc_height last + 1 -> bh_Height (Header blk) = lc_height last' ->
      PrevHash (Header blk) = lc_blkHash last -> PrevAppHash (Header blk) = lc_appHash last ->
      P blk (lc_blkHash last') -> ci_AppHash ci = lc_appHash last' -> certified vs (lc_blkHash last') ci ->
      advance (last, vs) (last', vs').

(** The proposal continues the chain. *)
Definition follows (last : lastCommit) (p : blockProposal) : Prop :=
  prop_height p = lc_height last + 1 /\ bh_Height (Header (prop_blk p)) = prop_height p /\
  PrevHash (Header (prop_blk p)) = lc_blkHash last /\
  PrevAppHash (Header (prop_blk p)) = lc_appHash last /\ P (prop_blk p) (prop_blkHash p).

Definition own_member ce : bool := is_validator ce (pk_Bytes (pubKey privKey)).

(** A leader is a validator and a sentry is none. *)
Definition role_ok ce : Prop :=
  match role ce with
  | RoleLeader => own_member ce = true
  | RoleValidator => True
  | RoleSentry => own_member ce = false
  end.

(** The invariant of the loop: the proposal under work continues the chain, the
    votes at hand are verified votes for it and its execution result, only a
    validator holds votes, and the role fits the validator set. *)
Record inv ce : Prop := mkInv {
  inv_prop p : blkProp (st ce) = Some p -> follows (lc (st ce)) p;
  inv_votes k v : votes (st ce) !! k = Some v ->
    exists p r, blkProp (st ce) = Some p /\ blockRes (st ce) = Some r /\
      Verify v (prop_blkHash p) (br_appHash r) = Ok tt;
  inv_member : votes (st ce) <> ∅ -> own_member ce = true;
  inv_role : role_ok ce
}.

(** The part of the engine that the invariant and the view depend on, and with
    the commit info. *)
Definition kernel ce :=
  (role ce, validatorSet ce, blkProp (st ce), blockRes (st ce), lc (st ce), votes (st ce)).
Definition core ce := (kernel ce, commitInfo (st ce)).

Definition quiet {A} (m : action CE A) : Prop := forall ce, core (snd (m ce)) = core ce.

Lemma core_kernel ce ce' : core ce' = core ce -> kernel ce' = kernel ce.
Proof. unfold core. congruence. Qed.

Lemma kernel_view ce ce' : kernel ce' = kernel ce -> view ce' = view ce.
Proof. unfold kernel, view. congruence. Qed.

Lemma kernel_inv ce ce' : kernel ce' = kernel ce -> inv ce -> inv ce'.
Proof.
  unfold kernel. intros E' [Hp Hv Hm Hr]. injection E' as E1 E2 E3 E4 E5 E6.
  constructor; unfold role_ok, own_member, is_validator in *;
    rewrite ?E1, ?E2, ?E3, ?E4, ?E5, ?E6; done.
Qed.

Lemma quiet_bind {A B} (m : action CE A) (k : A -> action CE B) :
  quiet m -> (forall a, quiet (k a)) -> quiet (m ≫= k).
Proof.
  intros Hm Hk ce. unfold mbind, action_bind. specialize (Hm ce).
  destruct (m ce) as [[a|e] ce']; [|done]. cbn in Hm. by rewrite (Hk a ce').
Qed.

Lemma quiet_ret {A} (a : A) : quiet (mret a).
Proof. done. Qed.
Lemma quiet_fail {A} e : quiet (afail e : action CE A).
Proof. done. Qed.
Lemma quiet_lift {A} (r : result A) : quiet (alift r).
Proof. done. Qed.
Lemma quiet_gets {A} (f : CE -> A) : quiet (gets f).
Proof. done. Qed.
Lemma quiet_modify (f : CE -> CE) : (forall ce, core (f ce) = core ce) -> quiet (modify f).
Proof. intros H ce. apply H. Qed.
Lemma quiet_when b (m : action CE unit) : quiet m -> quiet (awhen b m).
Proof. by destruct b. Qed.
Lemma quiet_try {A} (m : action CE A) : quiet m -> quiet (atry m).
Proof. intros H ce. unfold atry. specialize (H ce). by destruct (m ce). Qed.
Lemma quiet_log (m : action CE unit) : quiet m -> quiet (alog m).
Proof.
  intros H ce. unfold alog. specialize (H ce). destruct (m ce) as [[?|e] ?]; [done|].
  by destruct (is_panic e).
Qed.
Lemma quiet_on_env {A} (m : action E A) : quiet (on_env m).
Proof. intros ce. unfold on_env. by destruct (m (env ce)). Qed.
Lemma quiet_on_mempool {A} (m : action Mempool.Mempool A) : quiet (on_mempool m : action CE A).
Proof. intros ce. unfold on_mempool. by destruct (m (mempool ce)). Qed.
Lemma quiet_send o : quiet (send o).
Proof. done. Qed.
Lemma quiet_halt reason : quiet (sendHalt reason).
Proof. intros ce. unfold sendHalt, modify. cbn. by destruct (haltChan ce). Qed.

Lemma wp_quiet {A} (m : action CE A) Q ce :
  quiet m -> (forall r ce', core ce' = core ce -> Q r ce') -> wp m Q ce.
Proof. intros Hm HQ. apply HQ, Hm. Qed.

Ltac quiet_step :=
  first
  [ apply quiet_bind; [|intros ?]
  | apply quiet_ret | apply quiet_fail | apply quiet_lift | apply quiet_gets
  | apply quiet_modify; intros ?; reflexivity
  | apply quiet_when | apply quiet_try | apply quiet_log | apply quiet_on_env
  | apply quiet_on_mempool | apply quiet_send | apply quiet_halt
  | match goal with
    | |- quiet (if ?b then _ else _) => destruct b
    | |- quiet (match ?x with _ => _ end) => destruct x
    | |- quiet (let '(_, _) := ?x in _) => destruct x
    end ].
Ltac quiet := repeat quiet_step; auto with quiet.

Create HintDb quiet.

Lemma quiet_storeLeaderUpdates u : quiet (storeLeaderUpdates u).
Proof. unfold storeLeaderUpdates. quiet. Qed.
#[local] Hint Resolve quiet_storeLeaderUpdates : quiet.

Lemma quiet_equals_leader a : quiet (equals_leader a).
Proof. unfold equals_leader, nil_panic. quiet. Qed.
#[local] Hint Resolve quiet_equals_leader : quiet.

Lemma quiet_RecheckTxs h t : quiet (RecheckTxs h t).
Proof. unfold RecheckTxs. quiet. Qed.
#[local] Hint Resolve quiet_RecheckTxs : quiet.

Lemma quiet_settle_txs txns results : quiet (settle_txs HashBytes txns results).
Proof.
  revert results. induction txns as [|tx txns IH]; intros results; cbn [settle_txs]; quiet.
Qed.
#[local] Hint Resolve quiet_settle_txs : quiet.

Lemma quiet_remove_txs ids : quiet (remove_txs ids).
Proof. unfold remove_txs. quiet. Qed.
#[local] Hint Resolve quiet_remove_txs : quiet.

Lemma quiet_claim_height h s : quiet (claim_height h s).
Proof. unfold claim_height. quiet. Qed.
#[local] Hint Resolve quiet_claim_height : quiet.

Lemma quiet_handle_proof p proof : quiet (handle_proof HashBytes reg PubKey_Verify privKey p proof).
Proof. unfold handle_proof, beginOutOfSyncCatchup. quiet. Qed.
#[local] Hint Resolve quiet_handle_proof : quiet.

Lemma quiet_createBlockProposal now :
  quiet (createBlockProposal HashBytes reg range privKey now).
Proof. unfold createBlockProposal. quiet. Qed.
#[local] Hint Resolve quiet_createBlockProposal : quiet.

Lemma quiet_reject_proposal p e : quiet (reject_proposal privKey p e).
Proof. unfold reject_proposal. quiet. Qed.
#[local] Hint Resolve quiet_reject_proposal : quiet.

Lemma quiet_announcements : quiet reannounceMsgs /\ quiet rebroadcastBlkProposal.
Proof. unfold reannounceMsgs, rebroadcastBlkProposal, nil_panic. split; quiet. Qed.

Lemma quiet_PromoteLeader c h : quiet (PromoteLeader c h).
Proof. unfold PromoteLeader. quiet. Qed.

Lemma quiet_QueueTx tx : quiet (QueueTx tx).
Proof. unfold QueueTx. quiet. Qed.

Lemma quiet_AcceptProposal h b sig ts : quiet (AcceptProposal PubKey_Verify privKey h b sig ts).
Proof. unfold AcceptProposal, out_of_sync_nack, nil_panic. quiet. Qed.

Lemma quiet_AcceptCommit h b hdr ci : quiet (AcceptCommit reg PubKey_Verify h b hdr ci).
Proof. unfold AcceptCommit, NotifyBlockCommit, nil_panic. quiet. Qed.
Lemma quiet_notify :
  (forall blk, quiet (NotifyBlockProposal HashBytes reg blk)) /\
  (forall blk ci b, quiet (NotifyBlockCommit blk ci b)) /\
  (forall pk ack, quiet (NotifyACK pk ack)) /\
  (forall h ids pk, quiet (NotifyResetState h ids pk)) /\
  (forall tx, quiet (SubscribeTx tx)) /\ (forall tx, quiet (UnsubscribeTx tx)).
Proof.
  unfold NotifyBlockProposal, NotifyBlockCommit, NotifyACK, NotifyResetState, SubscribeTx, UnsubscribeTx,
    nil_panic.
  split_and!; intros; quiet.
Qed.
#[local] Hint Resolve quiet_PromoteLeader quiet_QueueTx quiet_AcceptProposal quiet_AcceptCommit : quiet.

(** No proposal, result or vote is left; the role, the validators and the last
    commit are those of [ce]. *)
Definition cleared ce ce' : Prop :=
  core ce' = (role ce, validatorSet ce, None, None, lc (st ce), ∅, None).

Lemma resetState_spec ce : wp resetState (fun r ce' => r = Ok tt /\ cleared ce ce') ce.
Proof.
  unfold resetState. apply wp_bind, wp_modify, wp_bind, wp_gets, wp_bind.
  apply (wp_mono _ (fun r ce' => r = Ok tt /\ cleared ce ce')).
  - destruct (st_leaderUpdate _); [|by apply wp_ret].
    apply wp_bind, wp_modify, wp_bind, wp_try, wp_quiet; [quiet|]. intros r ce' Hc.
    by apply wp_ret.
  - intros r ce' [-> Hc]. apply wp_bind, wp_gets, wp_bind, wp_modify, wp_modify. done.
Qed.

Lemma rollbackState_spec ce :
  wp rollbackState (fun r ce' => match r with
                                 | Ok _ => cleared ce ce'
                                 | Err _ => core ce' = core ce
                                 end) ce.
Proof.
  unfold rollbackState. apply wp_bind, wp_gets, wp_bind, wp_quiet; [quiet|].
  intros [[]|e] ce1 H1; [|done]. apply wp_bind.
  eapply wp_mono; [apply resetState_spec|]. cbv beta. intros r ce2 [-> H2]. cbv iota.
  apply wp_modify. change (core ce2 = (role ce, validatorSet ce, None, None, lc (st ce), ∅, None)).
  rewrite H2. unfold core, kernel in H1. congruence.
Qed.

(** The role after [updateRole]; only a nil leader makes it fail. *)
Lemma updateRole_spec ce :
  (forall l, leader ce = Some l -> is_validator ce (pk_Bytes l) = true) ->
  wp (updateRole privKey) (fun r ce' => st ce' = st ce /\ validatorSet ce' = validatorSet ce /\
    match r with
    | Ok _ => role_ok ce'
    | Err e => is_panic e = true
    end) ce.
Proof.
  intros Hl. unfold updateRole, equals_leader, nil_panic. apply wp_bind, wp_bind, wp_gets.
  destruct (leader ce) as [l|]; [|by apply wp_fail]. apply wp_ret.
  unfold pk_Equals. destruct (bool_decide_reflect (pubKey privKey = l)) as [<-|_].
  - apply wp_modify. split_and!; [done..|]. by apply Hl.
  - apply wp_bind, wp_gets. destruct (is_validator ce _) eqn:Hm; by apply wp_modify.
Qed.

Lemma updateValidatorSetAndRole_spec ce :
  wp (updateValidatorSetAndRole privKey) (fun r ce' => st ce' = st ce /\
    match r with
    | Ok _ => role_ok ce'
    | Err e => is_panic e = true
    end) ce.
Proof.
  unfold updateValidatorSetAndRole, nil_panic.
  apply wp_bind, wp_gets, wp_bind, wp_gets, wp_bind, wp_gets, wp_bind, wp_modify, wp_bind.
  destruct (leader ce); [|by apply wp_fail]. apply wp_ret, wp_bind, wp_modify.
  eapply wp_mono; [apply updateRole_spec|cbn; naive_solver].
  intros l Hl. unfold is_validator. apply bool_decide_eq_true_2.
  apply not_eq_None_Some, (Hleader (env ce)), Hl.
Qed.

(** A state without pending work. *)
Definition idle ce : Prop :=
  blkProp (st ce) = None /\ blockRes (st ce) = None /\ votes (st ce) = ∅ /\ role_ok ce.

Lemma idle_inv ce : idle ce -> inv ce.
Proof.
  intros (Hp & Hr & Hv & Hrole). constructor; rewrite ?Hp, ?Hv; [done| |done|done].
  intros k v. by rewrite lookup_empty.
Qed.

Lemma cleared_view ce ce' : cleared ce ce' -> view ce' = view ce.
Proof. unfold cleared, core, kernel, view. congruence. Qed.

Lemma cleared_idle ce ce' : inv ce -> cleared ce ce' -> idle ce'.
Proof.
  unfold cleared, core, kernel. intros [_ _ _ Hr] E'. injection E' as E1 E2 E3 E4 E5 E6 _.
  split_and!; [done..|]. unfold role_ok, own_member, is_validator in *. by rewrite E1, E2.
Qed.

Lemma nextState_spec ce p r :
  blkProp (st ce) = Some p -> blockRes (st ce) = Some r ->
  wp nextState (fun res ce' => res = Ok tt /\
    lc (st ce') = mkLastCommit (prop_height p) (prop_blkHash p) (br_appHash r)
                    (Some (prop_blk p)) (commitInfo (st ce)) /\
    blkProp (st ce') = None /\ blockRes (st ce') = None /\ votes (st ce') = ∅) ce.
Proof.
  intros Hp Hr. unfold nextState. apply wp_bind, wp_gets, wp_bind, wp_gets. rewrite Hp, Hr.
  apply wp_bind, wp_modify. eapply wp_mono; [apply resetState_spec|]. cbv beta.
  unfold cleared, core, kernel. intros res ce' [-> H]. cbn in H. injection H as _ _ ? ? ? ? _. done.
Qed.

(** [commit] either leaves everything in place or moves the proposal and its
    commit info to the last commit. *)
Lemma commit_spec ce p r :
  blkProp (st ce) = Some p -> blockRes (st ce) = Some r ->
  wp (commit HashBytes privKey) (fun res ce' =>
    (is_ok res = false /\ core ce' = core ce) \/
    (lc (st ce') = mkLastCommit (prop_height p) (prop_blkHash p) (br_appHash r)
                     (Some (prop_blk p)) (commitInfo (st ce)) /\
     match res with Ok _ => idle ce' | Err e => is_panic e = true end)) ce.
Proof.
  intros Hp Hr. unfold commit. apply wp_bind, wp_gets, wp_bind, wp_gets. rewrite Hp, Hr.
  apply wp_bind, wp_gets.
  set (Q := fun (res : result unit) (ce' : CE) => _).
  assert (forall A (m : action CE A) k ce1, quiet m -> core ce1 = core ce ->
            (forall a ce2, core ce2 = core ce -> wp (k a) Q ce2) -> wp (m ≫= k) Q ce1) as Hstep.
  { intros A m k ce1 Hm H1 Hk. apply wp_bind, wp_quiet; [done|]. intros [a|e] ce2 H2.
    - apply Hk. congruence.
    - left. split; [done|congruence]. }
  do 12 (apply Hstep; [quiet|done|intros ? ? ?]).
  apply wp_bind. eapply wp_mono; [apply (nextState_spec _ p r)|]; [unfold core, kernel in *; congruence..|].
  cbv beta. intros res cn (-> & Hlc & Hb & Hr1 & Hv). cbv iota. apply wp_bind.
  eapply wp_mono; [apply updateValidatorSetAndRole_spec|]. cbv beta.
  intros [[]|e] cu [Hst Hrole]; cbv iota.
  - apply wp_bind, wp_try, wp_quiet; [quiet|]. intros ? cf Hf. apply wp_ret. right.
    unfold core, kernel in *. rewrite Hst in Hf. split; [congruence|].
    split_and!; [congruence..|]. unfold role_ok, own_member, is_validator in *.
    replace (validatorSet cf) with (validatorSet cu) by congruence.
    replace (role cf) with (role cu) by congruence. done.
  - right. split; [|done]. unfold core, kernel in *. congruence.
Qed.

Lemma validateBlock_follows ce blk h :
  P blk h -> validateBlock HashBytes reg range ce blk = Ok tt ->
  follows (lc (st ce)) (mkProposal (bh_Height (Header blk)) h blk).
Proof.
  intros HPb. unfold validateBlock, follows. cbn.
  repeat match goal with
  | |- (if ?b then Err _ else _) = Ok _ -> _ => destruct b eqn:?; [done|]
  end.
  intros _. rewrite !negb_false_iff in *. rewrite Z.eqb_eq in *. rewrite bool_decide_eq_true in *.
  split_and!; done || congruence || lia.
Qed.

Lemma acceptCommitInfo_spec ce ci blkID :
  wp (acceptCommitInfo reg PubKey_Verify range ci blkID) (fun r ce' => kernel ce' = kernel ce /\
    match r with
    | Ok _ => exists c, ci = Some c /\ commitInfo (st ce') = Some c /\ certified (validatorSet ce) blkID c
    | Err _ => True
    end) ce.
Proof.
  unfold acceptCommitInfo. destruct ci as [c|]; [|by apply wp_fail].
  apply wp_bind, wp_gets, wp_bind, wp_lift.
  destruct (verifyVotes _ _ ce c blkID) as [[]|e] eqn:Hv; cbn [wrap_err]; [|done].
  apply wp_bind, wp_lift. destruct (wrap_err _ _) as [[]|e]; [|done].
  apply wp_modify. split; [done|]. exists c. split_and!; [done..|]. by apply verifyVotes_certified.
Qed.

Lemma executeBlock_spec ce p syncing :
  wp (executeBlock p syncing) (fun r ce' => commitInfo (st ce') = commitInfo (st ce) /\
    match r with
    | Ok _ => exists br, kernel ce' = (role ce, validatorSet ce, blkProp (st ce), Some br,
                                       lc (st ce), votes (st ce))
    | Err _ => kernel ce' = kernel ce
    end) ce.
Proof.
  unfold executeBlock. apply wp_bind, wp_gets, wp_bind, wp_try, wp_quiet; [quiet|].
  intros r ce1 H1. apply wp_bind, wp_modify, wp_bind, wp_lift.
  unfold core, kernel in *. destruct r as [res|e]; [|split; [cbn; congruence|cbn; congruence]].
  apply wp_modify. injection H1 as E1 E2 E3 _ E5 E6 E7. split; [done|]. eexists.
  cbn. by rewrite E1, E2, E3, E5, E6.
Qed.

(** A commit of a certified proposal that continues the chain is an advance. *)
Lemma commit_advances ce p r c :
  blkProp (st ce) = Some p -> blockRes (st ce) = Some r -> commitInfo (st ce) = Some c ->
  follows (lc (st ce)) p -> certified (validatorSet ce) (prop_blkHash p) c ->
  br_appHash r = ci_AppHash c ->
  wp (commit HashBytes privKey) (fun res ce' =>
    (is_ok res = false /\ kernel ce' = kernel ce) \/
    (advance (view ce) (view ce') /\ match res with Ok _ => idle ce' | Err e => is_panic e = true end))
    ce.
Proof.
  intros Hp Hr Hc (F1 & F2 & F3 & F4 & F5) Hcert Happ.
  eapply wp_mono; [by apply (commit_spec ce p r)|]. cbv beta.
  intros res ce' [[Hres Hcore]|[Hlc Hres]].
  - left. split; [done|]. by apply core_kernel.
  - right. split; [|done]. unfold view. rewrite Hlc, Hc.
    eapply advance_one; cbn; [reflexivity..|congruence|done|done|done|done|done|done].
Qed.

Definition not_panic {A} (r : result A) : Prop :=
  match r with Ok _ => True | Err e => is_panic e = false end.

(** What a handler guarantees: the last commit moves by advances only, and the
    invariant holds afterwards unless it panics. *)
Definition safe {A} (ce : CE) (r : result A) (ce' : CE) : Prop :=
  rtc advance (view ce) (view ce') /\ (not_panic r -> inv ce').

Lemma safe_kernel {A} ce (r : result A) ce' : inv ce -> kernel ce' = kernel ce -> safe ce r ce'.
Proof.
  intros Hi Hk. split; [|intros _; by apply (kernel_inv ce)].
  by rewrite (kernel_view ce ce' Hk).
Qed.

Lemma safe_cleared {A} ce (r : result A) ce' : inv ce -> cleared ce ce' -> safe ce r ce'.
Proof.
  intros Hi Hc. split; [|intros _; by eapply idle_inv, cleared_idle].
  by rewrite (cleared_view ce ce' Hc).
Qed.

(** The end of every committing handler. *)
Lemma commit_safe ce ce1 p r c :
  inv ce1 -> view ce1 = view ce ->
  blkProp (st ce1) = Some p -> blockRes (st ce1) = Some r -> commitInfo (st ce1) = Some c ->
  certified (validatorSet ce1) (prop_blkHash p) c -> br_appHash r = ci_AppHash c ->
  wp (commit HashBytes privKey) (safe ce) ce1.
Proof.
  intros Hi Hview Hp Hr Hc Hcert Happ.
  eapply wp_mono; [apply (commit_advances ce1 p r c); try done; by apply (inv_prop ce1)|]. cbv beta.
  intros res ce' [[_ Hk]|[Hadv Hres]]; unfold safe; rewrite <- Hview.
  - by apply safe_kernel.
  - split; [by apply rtc_once|]. destruct res; [intros _; by apply idle_inv|]. cbn. congruence.
Qed.

(** Work on a new proposal, without votes for another one. *)
Lemma inv_adopt ce ce' p br :
  inv ce -> votes (st ce) = ∅ -> follows (lc (st ce)) p ->
  kernel ce' = (role ce, validatorSet ce, Some p, br, lc (st ce), votes (st ce)) -> inv ce'.
Proof.
  unfold kernel. intros [Hp Hv Hm Hr] Hvotes Hf E'. injection E' as E1 E2 E3 E4 E5 E6.
  constructor; unfold role_ok, own_member, is_validator in *;
    rewrite ?E1, ?E2, ?E3, ?E5, ?E6, ?Hvotes; try done.
  by intros ? [= <-].
Qed.

(** [processAndCommit]: when it succeeds the invariant holds whatever votes were
    held before; when it fails it needs that none were. *)
Definition safe_ok {A} (ce : CE) (r : result A) (ce' : CE) : Prop :=
  rtc advance (view ce) (view ce') /\ (is_ok r = true -> inv ce') /\
  (votes (st ce) = ∅ -> not_panic r -> inv ce').

Lemma safe_ok_kernel {A} ce (r : result A) ce' : inv ce -> kernel ce' = kernel ce -> safe_ok ce r ce'.
Proof.
  intros Hi Hk. destruct (safe_kernel ce (Ok tt) ce' Hi Hk) as [? H]. split_and!; [done|..]; intros; by apply H.
Qed.

Lemma processAndCommit_spec ce blk ci blkID syncing :
  inv ce -> P blk blkID ->
  wp (processAndCommit HashBytes reg PubKey_Verify range privKey blk ci blkID syncing) (safe_ok ce) ce.
Proof.
  intros Hi HPb. unfold processAndCommit. destruct ci as [c|]; [|by apply wp_fail, safe_ok_kernel].
  apply wp_bind, wp_quiet; [quiet|]. intros r0 ce0 H0%core_kernel.
  destruct r0 as [[]|e]; [|by apply safe_ok_kernel].
  apply wp_bind, wp_gets, wp_bind, wp_lift.
  destruct (validateBlock _ _ _ ce0 blk) as [[]|e] eqn:Hval; [|by apply safe_ok_kernel].
  apply validateBlock_follows with (h := blkID) in Hval; [|done].
  apply wp_bind. eapply wp_mono; [apply acceptCommitInfo_spec|]. cbv beta.
  intros [[]|e] ce1 [H1 Hacc]; [|apply safe_ok_kernel; [done|congruence]].
  destruct Hacc as (c' & [= <-] & Hc1 & Hcert).
  apply wp_bind. apply (wp_mono _ (fun r ce2 => r = Ok tt /\ core ce2 = core ce1)).
  { destruct (NewLeader _); [by apply wp_modify|by apply wp_ret]. }
  intros r2 ce2 [-> H2]. cbv iota. set (p := mkProposal _ blkID blk) in *.
  unfold adopt. apply wp_bind, wp_bind, wp_modify, wp_modify, wp_bind.
  eapply wp_mono; [apply executeBlock_spec|]. cbv beta. intros r3 ce3 [Hc3 H3].
  assert (kernel ce2 = kernel ce) as H2' by (apply core_kernel in H2; congruence).
  assert (commitInfo (st ce3) = Some c) as Hci3.
  { rewrite Hc3. unfold core in H2. cbn. congruence. }
  cbn in H3, Hc3.
  assert (follows (lc (st ce)) p /\ certified (validatorSet ce) blkID c) as [Hf Hcert'].
  { unfold kernel in *. split; congruence. }
  assert (forall (r : result unit) br ce4, is_ok r = false ->
    kernel ce4 = (role ce, validatorSet ce, Some p, br, lc (st ce), votes (st ce)) ->
    safe_ok ce r ce4) as Hleave.
  { intros r br ce4 Hr H4. split_and!; [|by rewrite Hr|].
    - replace (view ce4) with (view ce) by (unfold view, kernel in *; congruence). done.
    - intros Hv _. by apply (inv_adopt ce ce4 p br). }
  destruct r3 as [[]|e]; [destruct H3 as [br H3]|];
    [|apply (Hleave _ (blockRes (st ce))); [done|unfold kernel in *; cbn in H3; congruence]].
  apply wp_bind, wp_gets.
  assert (kernel ce3 = (role ce, validatorSet ce, Some p, Some br, lc (st ce), votes (st ce))) as H3'
    by (unfold kernel in *; cbn in H3; congruence).
  replace (blockRes (st ce3)) with (Some br) by (unfold kernel in H3'; congruence).
  destruct (negb (same_updates _ _ _)).
  { apply wp_bind, wp_quiet; [quiet|]. intros r4 ce4 H4%core_kernel.
    destruct r4 as [[]|e]; [apply wp_fail|]; (apply (Hleave _ (Some br)); [done|congruence]). }
  destruct (bool_decide_reflect (br_appHash br = ci_AppHash c)) as [Happ|]; cbn [negb].
  2: { apply wp_bind, wp_quiet; [quiet|]. intros r4 ce4 H4%core_kernel.
       destruct r4 as [[]|e]; [apply wp_fail|]; (apply (Hleave _ (Some br)); [done|congruence]). }
  pose proof H3' as Hk3. injection Hk3 as _ E2 E3 E4 E5 _.
  eapply wp_mono; [apply (commit_advances ce3 p br c); by rewrite ?E2, ?E5|].
  cbv beta. intros res ce4 [[Hres Hk]|[Hadv Hres]].
  - apply (Hleave _ (Some br)); [done|unfold kernel in *; congruence].
  - replace (view ce3) with (view ce) in Hadv by (unfold view, kernel in *; congruence).
    split_and!; [by apply rtc_once|..].
    + destruct res; [|done]. intros _. by apply idle_inv.
    + intros _. destruct res; [intros _; by apply idle_inv|]. cbn. congruence.
Qed.

Lemma safe_from {A} ce ce1 (r : result A) ce' :
  rtc advance (view ce) (view ce1) -> safe ce1 r ce' -> safe ce r ce'.
Proof. intros H1 [H2 H3]. split; [by etrans|done]. Qed.

Lemma safe_ok_safe {A} ce (r : result A) ce' : votes (st ce) = ∅ -> safe_ok ce r ce' -> safe ce r ce'.
Proof. intros Hv (H1 & _ & H3). split; auto. Qed.

Lemma inv_no_prop ce : inv ce -> blkProp (st ce) = None \/ blockRes (st ce) = None -> votes (st ce) = ∅.
Proof.
  intros Hi Hn. apply map_empty. intros k. destruct (votes (st ce) !! k) as [v|] eqn:Hk; [|done].
  apply (inv_votes ce Hi) in Hk as (p & r & ? & ? & _). destruct Hn; congruence.
Qed.

Lemma inv_sentry ce : inv ce -> role ce = RoleSentry -> votes (st ce) = ∅.
Proof.
  intros Hi Hs. destruct (decide (votes (st ce) = ∅)) as [|Hne]; [done|].
  apply (inv_member ce Hi) in Hne. pose proof (inv_role ce Hi) as Hr. unfold role_ok in Hr.
  rewrite Hs in Hr. congruence.
Qed.

(** After a rollback the engine is idle and can process any block. *)
Lemma rollback_then_process ce blk ci blkID :
  inv ce -> P blk blkID ->
  wp (_ ← rollbackState; processAndCommit HashBytes reg PubKey_Verify range privKey blk ci blkID false)
    (safe ce) ce.
Proof.
  intros Hi HPb. apply wp_bind. eapply wp_mono; [apply rollbackState_spec|]. cbv beta.
  intros [[]|e] ce1 H1; [|by apply safe_kernel, core_kernel].
  pose proof (cleared_idle ce ce1 Hi H1) as Hidle.
  eapply wp_mono; [apply processAndCommit_spec; [apply idle_inv, Hidle|done]|]. intros r ce2 H2.
  apply (safe_from _ ce1); [by rewrite (cleared_view ce ce1 H1)|].
  apply safe_ok_safe; [apply Hidle|done].
Qed.

Lemma commit_processed_spec ce blk ci p :
  inv ce -> blkProp (st ce) = Some p ->
  wp (commit_processed HashBytes reg PubKey_Verify range privKey blk ci p) (safe ce) ce.
Proof.
  intros Hi Hp. unfold commit_processed, nil_panic. apply wp_bind, wp_quiet; [quiet|].
  intros r0 ce0 H0%core_kernel. destruct r0 as [[]|e]; [|by apply safe_kernel].
  apply wp_bind, wp_gets. destruct (blockRes (st ce0)) as [r|] eqn:Hr; [|by apply wp_fail, safe_kernel].
  destruct ci as [c|]; [|by apply wp_fail, safe_kernel].
  destruct (negb (same_updates _ _ _)).
  { apply wp_quiet; [quiet|]. intros ? ? ?%core_kernel. apply safe_kernel; [done|congruence]. }
  destruct (bool_decide_reflect (br_appHash r = ci_AppHash c)) as [Happ|]; cbn [negb].
  2: { apply wp_quiet; [quiet|]. intros ? ? ?%core_kernel. apply safe_kernel; [done|congruence]. }
  apply wp_bind. eapply wp_mono; [apply acceptCommitInfo_spec|]. cbv beta.
  intros [[]|e] ce1 [H1 Hacc]; [|apply safe_kernel; [done|congruence]].
  destruct Hacc as (c' & [= <-] & Hc1 & Hcert). assert (kernel ce1 = kernel ce) as H1' by congruence.
  apply (commit_safe ce ce1 p r c); [by apply (kernel_inv ce)|by apply kernel_view|..]; try done;
    unfold kernel in *; congruence.
Qed.

Lemma commitBlock_spec ce blk ci blkID :
  inv ce -> P blk blkID ->
  wp (commitBlock HashBytes reg PubKey_Verify range privKey blk ci blkID) (safe ce) ce.
Proof.
  intros Hi HPb. unfold commitBlock. apply wp_bind, wp_gets.
  destruct (negb _); [by apply wp_ret, safe_kernel|]. apply wp_bind, wp_gets.
  assert (votes (st ce) = ∅ ->
    wp (processAndCommit HashBytes reg PubKey_Verify range privKey blk ci blkID false) (safe ce) ce) as Hpc.
  { intros Hv. eapply wp_mono; [by apply processAndCommit_spec|]. intros r ce'. by apply safe_ok_safe. }
  destruct (role ce) eqn:Hrole; [..|by apply Hpc, inv_sentry];
    (destruct (blkProp (st ce)) as [p|] eqn:Hp; [|by apply Hpc, inv_no_prop; auto]);
    (destruct (bool_decide _); cbn [negb]; [by apply commit_processed_spec|by apply rollback_then_process]).
Qed.

(** ** The leader *)

(** Go's map iteration visits every entry once. *)
Context (Hrange : forall A (m : gmap (list byte) A), range A m ≡ₚ map_to_list m).
(** The node's key: its public key decodes, and its signatures verify. *)
Context (Hkey : UnmarshalPublicKey reg (pk_Bytes (pubKey privKey)) (sk_Type privKey) = Ok (pubKey privKey)).
Context (Hsign : forall msg s, sk_Sign privKey msg = Ok s -> PubKey_Verify (pubKey privKey) msg s = Ok true).
(** [P] holds of a block and its own hash. *)
Context (Hown : forall blk h, Block_Hash HashBytes reg blk = Ok h -> P blk h).

Lemma elem_of_range_votes ce v :
  v ∈ map snd (range _ (votes (st ce))) <-> exists k, votes (st ce) !! k = Some v.
Proof.
  rewrite list_elem_of_fmap. split.
  - intros ([k w] & -> & Hin). exists k. rewrite Hrange in Hin. by apply elem_of_map_to_list.
  - intros [k Hk]. exists (k, v). split; [done|]. rewrite Hrange. by apply elem_of_map_to_list.
Qed.

Lemma count_acks_perm l k : l ≡ₚ k -> count_acks l = count_acks k.
Proof. induction 1; rewrite ?count_acks_cons; lia. Qed.

(** Votes with a majority of acks make a certificate. *)
Lemma tally_certified ce p r pu vu :
  inv ce -> blkProp (st ce) = Some p -> blockRes (st ce) = Some r ->
  let l := tally reg PubKey_Verify ce (prop_blkHash p) (br_appHash r)
             (map snd (range _ (votes (st ce)))) ∅ in
  hasMajority ce (count_acks l) = true ->
  certified (validatorSet ce) (prop_blkHash p) (mkCommitInfo (br_appHash r) (merge_sort vote_le l) pu vu).
Proof.
  intros Hi Hp Hr l Hm%hasMajority_spec.
  destruct (tally_spec reg PubKey_Verify ce (prop_blkHash p) (br_appHash r)
              (map snd (range _ (votes (st ce)))) ∅) as [Hnd Hl]. fold l in Hnd, Hl.
  pose proof (merge_sort_Permutation vote_le l) as Hperm. constructor; cbn [Votes ci_AppHash].
  - by rewrite Hperm.
  - intros v. rewrite Hperm. intros Hv. by apply Hl.
  - intros v. rewrite Hperm. intros (Hin & _)%Hl. apply elem_of_range_votes in Hin as [k Hk].
    apply (inv_votes ce Hi) in Hk as (p' & r' & ? & ? & Hver). by simplify_eq.
  - by rewrite (count_acks_perm _ _ Hperm).
Qed.

(** A quiet continuation of a safe run. *)
Lemma safe_then_quiet {A B} ce (r : result A) ce1 (m : action CE B) :
  safe ce r ce1 -> not_panic r -> quiet m -> wp m (safe ce) ce1.
Proof.
  intros [H1 H2] Hn Hq. apply wp_quiet; [done|]. intros r' ce2 Hk%core_kernel. split.
  - by rewrite (kernel_view ce1 ce2 Hk).
  - intros _. apply (kernel_inv ce1); auto.
Qed.

Lemma processVotes_spec ce :
  inv ce -> wp (processVotes HashBytes reg PubKey_Verify range privKey) (safe ce) ce.
Proof.
  intros Hi. unfold processVotes. apply wp_bind, wp_gets, wp_bind, wp_gets.
  destruct (blkProp (st ce)) as [p|] eqn:Hp; [|by apply wp_ret, safe_kernel].
  destruct (blockRes (st ce)) as [r|] eqn:Hr; [|by apply wp_ret, safe_kernel].
  apply wp_bind, wp_gets, wp_bind, wp_gets. destruct (hasEnoughNacks ce _).
  { apply wp_quiet; [quiet|]. intros ? ? ?%core_kernel. by apply safe_kernel. }
  apply wp_bind, wp_gets. destruct (hasMajority ce _) eqn:Hm; cbn [negb]; [|by apply wp_ret, safe_kernel].
  apply wp_bind, wp_modify, wp_bind, wp_try.
  eapply wp_mono; [eapply (commit_safe ce)|].
  - apply (kernel_inv ce); done.
  - done.
  - exact Hp.
  - exact Hr.
  - reflexivity.
  - exact (tally_certified ce p r _ _ Hi Hp Hr Hm).
  - reflexivity.
  - cbv beta iota. intros [[]|e] ce' Hs.
    + eapply safe_then_quiet; [exact Hs|done|quiet].
    + destruct (is_panic e) eqn:He; [by apply wp_fail|].
      eapply safe_then_quiet; [exact Hs|exact He|quiet].
Qed.

Lemma vote_of_ack_sig vote sig app : vi_Signature (vote_of_ack vote sig app) = sig.
Proof. unfold vote_of_ack. by repeat case_match. Qed.

Lemma register_vote_spec ce p vote sig sender :
  inv ce -> role ce = RoleLeader -> blkProp (st ce) = Some p -> prop_blkHash p = BlkHash vote ->
  wp (register_vote reg PubKey_Verify range vote sig sender) (fun r ce' => inv ce' /\ view ce' = view ce) ce.
Proof.
  intros Hi Hrole Hp Hb. unfold register_vote, nil_panic. apply wp_bind, wp_gets.
  destruct (votes (st ce) !! sender); [by apply wp_ret|]. apply wp_bind, wp_gets.
  destruct (blockRes (st ce)) as [r|] eqn:Hr; [|by apply wp_fail].
  apply wp_bind, wp_gets, wp_bind, wp_gets, wp_bind, wp_lift.
  destruct (wrap_err _ _) as [seen|e] eqn:Hv; [|done].
  apply wrap_err_Ok, validateVote_Ok in Hv as (_ & Hver & _). specialize (Hver eq_refl).
  apply wp_modify. split; [|done]. destruct Hi as [H1 H2 H3 H4]. constructor; cbn.
  - done.
  - intros k v. destruct (decide (k = sender)) as [->|Hk].
    + rewrite lookup_insert_eq. intros [= <-]. exists p, r. by rewrite Hb.
    + rewrite lookup_insert_ne by done. apply H2.
  - intros _. unfold role_ok in H4. by rewrite Hrole in H4.
  - done.
Qed.

Lemma addVote_spec ce vote sender :
  inv ce -> role ce = RoleLeader ->
  wp (addVote HashBytes reg PubKey_Verify range privKey vote sender) (safe ce) ce.
Proof.
  intros Hi Hrole. unfold addVote. apply wp_bind, wp_gets.
  destruct (blkProp (st ce)) as [p|] eqn:Hp; [|by apply wp_ret, safe_kernel].
  destruct (negb _); [by apply wp_ret, safe_kernel|].
  destruct (bool_decide_reflect (prop_blkHash p = BlkHash vote)) as [Hb|]; cbn [negb];
    [|by apply wp_ret, safe_kernel].
  apply wp_bind, wp_gets. destruct (validatorSet ce !! sender) as [val|]; [|by apply wp_fail, safe_kernel].
  destruct (ACK vote && _); [by apply wp_fail, safe_kernel|].
  destruct (ar_Signature vote) as [sig|]; [|by apply wp_fail, safe_kernel].
  destruct (negb _); [by apply wp_fail, safe_kernel|].
  destruct (negb _); [by apply wp_fail, safe_kernel|].
  destruct (AckRes_OutOfSync vote) as [proof|].
  { apply wp_quiet; [quiet|]. intros ? ? ?%core_kernel. by apply safe_kernel. }
  apply wp_bind. eapply wp_mono; [by apply (register_vote_spec ce p)|]. cbv beta.
  intros [[]|e] ce1 [Hi1 Hv1]; [|by split; [rewrite Hv1|]].
  eapply wp_mono; [by apply processVotes_spec|]. intros r ce2. apply safe_from. by rewrite Hv1.
Qed.

Lemma createBlockProposal_height ce now :
  wp (createBlockProposal HashBytes reg range privKey now) (fun r ce' => core ce' = core ce /\
    match r with
    | Ok p => prop_height p = bh_Height (Header (prop_blk p)) /\ P (prop_blk p) (prop_blkHash p)
    | Err _ => True
    end) ce.
Proof.
  assert (wp (createBlockProposal HashBytes reg range privKey now) (fun r _ =>
    match r with
    | Ok p => prop_height p = bh_Height (Header (prop_blk p)) /\ P (prop_blk p) (prop_blkHash p)
    | Err _ => True
    end) ce) as H.
  { assert (forall A B (m : action CE A) (k : A -> action CE B) Q ce0, (forall e ce', Q (Err e) ce') ->
      (forall a ce', wp (k a) Q ce') -> wp (m ≫= k) Q ce0) as Hany.
    { intros A B m k Q ce0 He Hk. apply wp_bind. unfold wp at 1. destruct (m ce0) as [[a|e] ce']; cbn; auto. }
    unfold createBlockProposal. do 5 (apply Hany; [done|intros]).
    match goal with |- wp (let '(_, _) := ?x in _) _ _ => destruct x end.
    do 5 (apply Hany; [done|intros]). apply wp_bind, wp_lift.
    destruct (Header_Hash _ _ _) eqn:Hh; [|done]. apply wp_ret. split; [done|]. by apply Hown. }
  apply wp_and; [|exact H]. by apply wp_quiet; [apply quiet_createBlockProposal|].
Qed.

Lemma abandon_proposal_spec ce : inv ce -> wp abandon_proposal (safe ce) ce.
Proof.
  intros Hi. unfold abandon_proposal.
  apply wp_bind, wp_gets, wp_bind, wp_gets, wp_bind, wp_quiet; [quiet|]. intros [[]|e] ce1 H1%core_kernel;
    [|by apply safe_kernel].
  apply wp_bind, wp_quiet; [quiet|]. intros [[]|e] ce2 H2%core_kernel;
    [|apply safe_kernel; [done|congruence]].
  apply wp_bind, wp_modify. cbv iota. apply wp_bind.
  eapply wp_mono; [apply rollbackState_spec|]. cbv beta.
  set (ce3 := set_numResets _ ce2). assert (kernel ce3 = kernel ce) as H3.
  { transitivity (kernel ce2); [done|congruence]. }
  assert (inv ce3) as Hi3 by by apply (kernel_inv ce).
  intros [[]|e] ce4 H4; [|apply safe_kernel; [done|by rewrite (core_kernel ce3 ce4 H4)]].
  eapply (safe_then_quiet ce (Ok tt)); [|done|quiet].
  apply (safe_from ce ce3); [by rewrite (kernel_view ce ce3 H3)|by apply safe_cleared].
Qed.

Lemma cast_own_vote_spec ce p :
  inv ce -> role ce = RoleLeader -> blkProp (st ce) = Some p -> votes (st ce) = ∅ ->
  wp (cast_own_vote privKey p) (fun r ce' => inv ce' /\ view ce' = view ce) ce.
Proof.
  intros Hi Hrole Hp Hv. unfold cast_own_vote, nil_panic. apply wp_bind, wp_gets.
  destruct (blockRes (st ce)) as [r|] eqn:Hr; [|by apply wp_fail]. apply wp_bind, wp_lift.
  destruct (wrap_err _ _) as [sig|e] eqn:Hs; [|done]. apply wrap_err_Ok in Hs.
  apply wp_modify. split; [|done]. destruct Hi as [H1 H2 H3 H4]. constructor; cbn.
  - done.
  - intros k v. rewrite Hv. intros [[_ <-]|[_ Hn]]%lookup_insert_Some; [|done]. exists p, r.
    split_and!; [done..|]. by apply (SignVote_Verify _ _ privKey _ true).
  - intros _. unfold role_ok in H4. by rewrite Hrole in H4.
  - done.
Qed.

Lemma proposeBlock_spec ce now cancel :
  inv ce -> role ce = RoleLeader -> blkProp (st ce) = None ->
  wp (proposeBlock HashBytes reg PubKey_Verify range privKey now cancel) (safe ce) ce.
Proof.
  intros Hi Hrole Hp. pose proof (inv_no_prop ce Hi (or_introl Hp)) as Hv. unfold proposeBlock.
  apply wp_bind. eapply wp_mono; [apply createBlockProposal_height|]. cbv beta.
  intros [p|e] ce1 [H1%core_kernel Hnew]; [|by apply safe_kernel]. destruct Hnew as [Hh HPp].
  apply wp_bind, wp_gets, wp_bind, wp_lift.
  destruct (wrap_err _ _) as [[]|e] eqn:Hval; [|by apply safe_kernel].
  apply wrap_err_Ok, validateBlock_follows with (h := prop_blkHash p) in Hval; [|done].
  rewrite <- Hh in Hval.
  assert (follows (lc (st ce)) p) as Hf.
  { replace (lc (st ce)) with (lc (st ce1)) by (unfold kernel in H1; congruence).
    destruct p. exact Hval. }
  apply wp_bind, wp_modify, wp_bind, wp_modify, wp_bind, wp_modify, wp_bind.
  set (ce2 := upd_info _ _).
  assert (kernel ce2 = (role ce, validatorSet ce, Some p, blockRes (st ce), lc (st ce), votes (st ce)))
    as H2 by (unfold ce2, kernel in *; cbn; congruence).
  apply wp_quiet; [quiet|]. intros r3 ce3 H3%core_kernel.
  assert (inv ce3) as Hi3.
  { apply (inv_adopt ce ce3 p (blockRes (st ce))); [done..|congruence]. }
  assert (view ce3 = view ce) as Hv3 by (unfold view, kernel in *; congruence).
  destruct r3 as [reset|e]; [|by split; [rewrite Hv3|]].
  apply wp_bind, wp_try. eapply wp_mono; [apply executeBlock_spec|]. cbv beta.
  intros r ce4 [_ H4]. destruct r as [[]|e].
  - destruct H4 as [br H4]. apply wp_bind.
    assert (inv ce4) as Hi4.
    { apply (inv_adopt ce ce4 p (Some br)); [done..|]. unfold kernel in *. congruence. }
    eapply wp_mono; [apply (cast_own_vote_spec ce4 p)|]; [done|unfold kernel in *; congruence..|].
    cbv beta. intros [[]|e] ce5 [Hi5 Hv5];
      (assert (view ce5 = view ce) as Hv5' by (unfold view, kernel in *; congruence));
      [|by split; [rewrite Hv5'|]].
    apply wp_bind, wp_modify. eapply wp_mono; [apply processVotes_spec|].
    + by apply (kernel_inv ce5).
    + intros r ce6. apply safe_from. by rewrite <- Hv5'.
  - destruct (errors_is e ErrCanceled && _).
    + eapply wp_mono; [apply abandon_proposal_spec; by apply (kernel_inv ce3)|].
      intros r ce5. apply safe_from. by rewrite (kernel_view ce3 ce4 H4), Hv3.
    + apply wp_fail. apply (safe_from ce ce3); [by rewrite Hv3|by apply safe_kernel].
Qed.

(** ** Followers, synchronisation and the loop *)

Lemma evaluate_proposal_spec ce p :
  inv ce -> votes (st ce) = ∅ -> prop_height p = lc_height (lc (st ce)) + 1 ->
  P (prop_blk p) (prop_blkHash p) ->
  wp (evaluate_proposal HashBytes reg range privKey p) (safe ce) ce.
Proof.
  intros Hi Hv Hh HPp. unfold evaluate_proposal. apply wp_bind, wp_gets.
  destruct (validateBlock _ _ _ ce _) as [[]|e] eqn:Hval; cbn [mbind result_bind].
  2: { destruct (is_panic e); [by apply wp_fail, safe_kernel|].
       apply wp_quiet; [quiet|]. intros ? ? ?%core_kernel. by apply safe_kernel. }
  apply validateBlock_follows with (h := prop_blkHash p) in Hval as (F1 & F2 & F3 & F4 & F5); [|done].
  assert (follows (lc (st ce)) p) as Hf by (split_and!; cbn in *; congruence).
  destruct (validateProposalTimestamp _ _) as [[]|e].
  2: { destruct (is_panic e); [by apply wp_fail, safe_kernel|].
       apply wp_quiet; [quiet|]. intros ? ? ?%core_kernel. by apply safe_kernel. }
  apply wp_bind, wp_modify, wp_bind, wp_modify, wp_bind, wp_try.
  eapply wp_mono; [apply executeBlock_spec|]. cbv beta. intros r ce1 [_ H1].
  assert (forall (r' : result unit) br ce2,
    kernel ce2 = (role ce, validatorSet ce, Some p, br, lc (st ce), votes (st ce)) -> safe ce r' ce2)
    as Hadopt.
  { intros r' br ce2 H2. split.
    - replace (view ce2) with (view ce) by (unfold view, kernel in *; congruence). done.
    - intros _. by apply (inv_adopt ce ce2 p br). }
  destruct r as [[]|e].
  - destruct H1 as [br H1]. unfold send_ack, nil_panic. apply wp_bind, wp_gets.
    replace (blockRes (st ce1)) with (Some br) by (unfold kernel in H1; congruence).
    apply wp_bind, wp_lift. destruct (SignVote _ _ _ _) as [sig|e]; [|by apply (Hadopt _ (Some br))].
    apply wp_bind, wp_modify, wp_modify. eapply Hadopt. unfold kernel in *. cbn in *.
    injection H1 as E1 E2 E3 E4 E5 E6. by rewrite E1, E2, E3, E5, E6.
  - destruct (errors_is e ErrCanceled); [apply wp_ret|apply wp_fail]; by apply (Hadopt _ None).
Qed.

Lemma processBlockProposal_spec ce now p :
  inv ce -> P (prop_blk p) (prop_blkHash p) ->
  wp (processBlockProposal HashBytes reg range privKey now p) (safe ce) ce.
Proof.
  intros Hi HPp. unfold processBlockProposal. apply wp_bind, wp_gets.
  destruct (negb _); [by apply wp_ret, safe_kernel|]. apply wp_bind, wp_gets.
  destruct (lc_height (lc (st ce)) + 1 =? prop_height p) eqn:Hh; cbn [negb]; [|by apply wp_ret, safe_kernel].
  apply Z.eqb_eq in Hh. destruct (negb _); [by apply wp_ret, safe_kernel|].
  apply wp_bind.
  apply (wp_mono _ (fun r ce1 => view ce1 = view ce /\ inv ce1 /\
                                 match r with Ok false => votes (st ce1) = ∅ | _ => True end)).
  { destruct (blkProp (st ce)) as [cur|] eqn:Hp; [|apply wp_ret; split_and!; auto using inv_no_prop].
    destruct (bool_decide _); [by apply wp_ret|]. destruct (_ >? _); [by apply wp_ret|].
    apply wp_bind. eapply wp_mono; [apply rollbackState_spec|]. cbv beta. intros [[]|e] ce1 H1.
    - apply wp_ret. pose proof (cleared_idle ce ce1 Hi H1) as Hidle.
      split_and!; [by apply cleared_view|by apply idle_inv|apply Hidle].
    - apply core_kernel in H1. split_and!; [by apply kernel_view|by apply (kernel_inv ce)|done]. }
  intros [stale|e] ce1 (Hv1 & Hi1 & Hvotes); [|by split; [rewrite Hv1|]].
  assert (forall r : result unit, safe ce r ce1) as Hstop by (intros r; split; [by rewrite Hv1|done]).
  destruct stale; [by apply wp_ret|].
  assert (wp (evaluate_proposal HashBytes reg range privKey p) (safe ce) ce1) as Hev.
  { eapply wp_mono; [apply evaluate_proposal_spec; [done|done| |done]|].
    - injection Hv1 as -> _. lia.
    - intros r ce2. apply safe_from. by rewrite Hv1. }
  destruct (NewLeader _) as [key|]; [|done].
  unfold equals_leader, nil_panic. apply wp_bind, wp_bind, wp_gets.
  destruct (leader ce1) as [l|]; [|by apply wp_fail].
  apply wp_ret. destruct (pk_Equals _ _); [done|by apply wp_ret].
Qed.

Lemma applyLeaderUpdates_spec ce : inv ce -> wp (applyLeaderUpdates privKey) (safe ce) ce.
Proof.
  intros Hi. unfold applyLeaderUpdates. apply wp_bind, wp_gets, wp_bind, wp_gets.
  destruct (leaderUpdates ce) as [u|]; [|by apply wp_ret, safe_kernel].
  destruct (_ >? _); [by apply wp_ret, safe_kernel|].
  assert (wp (_ ← atry (storeLeaderUpdates None); mret tt) (safe ce) ce) as Hclear.
  { apply wp_quiet; [quiet|]. intros ? ? ?%core_kernel. by apply safe_kernel. }
  destruct (_ <=? _); [done|]. apply wp_bind, wp_gets.
  destruct (is_validator ce _) eqn:Hm; cbn [negb]; [|done].
  apply wp_bind, wp_quiet; [quiet|]. intros [b|e] ce1 H1%core_kernel; [|by apply safe_kernel].
  apply wp_bind, wp_modify, wp_bind. eapply wp_mono; [apply updateRole_spec|].
  { intros l [= <-]. unfold is_validator in *. cbn.
    by replace (validatorSet ce1) with (validatorSet ce) by (unfold kernel in H1; congruence). }
  cbv beta. intros r ce2 (Hst & Hvs & Hr). cbn in Hst, Hvs.
  assert (view ce2 = view ce) as Hv2 by (unfold view, kernel in *; congruence).
  destruct r as [[]|e]; [|split; [by rewrite Hv2|cbn; congruence]].
  apply wp_modify. split; [unfold view; cbn; fold (view ce2); by rewrite Hv2|]. intros _.
  assert (kernel ce1 = kernel ce) as H1' by done. unfold kernel in H1'.
  injection H1' as _ E2 E3 E4 E5 E6. destruct Hi as [I1 I2 I3 _].
  constructor; cbn; rewrite ?Hst, ?E3, ?E4, ?E5, ?E6; try done.
  unfold own_member, is_validator in *. cbn. by rewrite Hvs, E2.
Qed.

Lemma setLastCommitInfo_spec ce h app blk ci :
  wp (setLastCommitInfo HashBytes reg h app blk ci) (fun r ce' =>
    blkProp (st ce') = blkProp (st ce) /\ blockRes (st ce') = blockRes (st ce) /\
    votes (st ce') = votes (st ce)) ce.
Proof.
  unfold setLastCommitInfo. apply wp_bind.
  apply (wp_mono _ (fun r ce' => ce' = ce)).
  - destruct blk; [by apply wp_lift|by apply wp_ret].
  - intros [b|e] ce' ->; [|done]. by apply wp_bind, wp_modify, wp_modify.
Qed.

(** What a peer answers to a request for a block: the hash that it names is one
    the block may have. *)
Definition fetched_ok (f : result (bytes * bytes * option CommitInfo)) : Prop :=
  match f with
  | Ok (blkID, raw, _) => forall blk, DecodeBlock reg raw = Ok blk -> P blk blkID
  | Err _ => True
  end.

Lemma sync_spec ce fetches :
  inv ce -> Forall fetched_ok fetches ->
  wp (replayBlockFromNetwork HashBytes reg PubKey_Verify range privKey fetches)
              (fun r ce' => rtc advance (view ce) (view ce') /\ (is_ok r = true -> inv ce')) ce.
Proof.
  revert ce. induction fetches as [|[[[blkID raw] ci]|e] fetches IH]; intros ce Hi Hf;
    cbn [replayBlockFromNetwork]; [by apply wp_fail|..]; apply Forall_cons in Hf as [Hf1 Hf].
  - unfold applyBlock. apply wp_bind, wp_bind, wp_lift.
    destruct (wrap_err _ _) as [blk|e] eqn:Hdec; [|done]. apply wrap_err_Ok, Hf1 in Hdec.
    eapply wp_mono; [by apply processAndCommit_spec|]. intros [[]|e] ce1 (H1 & H2 & _); [|done].
    eapply wp_mono; [apply IH; [by apply H2|done]|]. intros r ce2 [H3 H4]. split; [by etrans|done].
  - destruct (errors_is e ErrCanceled); [by apply wp_fail|]. destruct (_ || _).
    + apply wp_quiet; [quiet|]. intros r ce1 H1%core_kernel. rewrite (kernel_view ce ce1 H1).
      split; [done|]. intros _. by apply (kernel_inv ce).
    + apply wp_bind, wp_gets. destruct (_ && _); [by apply wp_ret|by apply IH].
Qed.

Lemma processCurrentBlock_spec ce got :
  inv ce -> fetched_ok got ->
  wp (processCurrentBlock HashBytes reg PubKey_Verify range privKey got) (safe ce) ce.
Proof.
  intros Hi Hgot. unfold processCurrentBlock, nil_panic. apply wp_bind, wp_gets, wp_bind, wp_gets.
  destruct (role ce); [by apply wp_ret, safe_kernel| |by apply wp_ret, safe_kernel].
  destruct (blkProp (st ce)) as [p|] eqn:Hp; [|by apply wp_ret, safe_kernel].
  destruct (blockRes (st ce)) as [r|] eqn:Hr; [|by apply wp_ret, safe_kernel].
  apply wp_bind, wp_lift. destruct got as [[[blkHash raw] ci]|e]; [|by apply safe_kernel].
  destruct (bool_decide_reflect (blkHash = prop_blkHash p)) as [->|]; cbn [negb].
  - destruct ci as [c|]; [|by apply wp_fail, safe_kernel].
    destruct (bool_decide_reflect (ci_AppHash c = br_appHash r)) as [Happ|]; cbn [negb].
    2: { apply wp_quiet; [quiet|]. intros ? ? ?%core_kernel. by apply safe_kernel. }
    apply wp_bind. eapply wp_mono; [apply acceptCommitInfo_spec|]. cbv beta.
    intros [[]|e] ce1 [H1 Hacc]; [|by apply safe_kernel]. destruct Hacc as (c' & [= <-] & Hc1 & Hcert).
    apply (commit_safe ce ce1 p r c); [by apply (kernel_inv ce)|by apply kernel_view|..]; try done;
      unfold kernel in *; congruence.
  - apply wp_bind. eapply wp_mono; [apply rollbackState_spec|]. cbv beta.
    intros [[]|e] ce1 H1; [|by apply safe_kernel, core_kernel].
    apply wp_bind, wp_lift. destruct (DecodeBlock _ _) as [blk|e] eqn:Hdec; [|by apply safe_cleared].
    apply Hgot in Hdec.
    pose proof (cleared_idle ce ce1 Hi H1) as Hidle.
    eapply wp_mono; [apply processAndCommit_spec; [apply idle_inv, Hidle|done]|]. intros r2 ce2 H2.
    apply (safe_from _ ce1); [by rewrite (cleared_view ce ce1 H1)|].
    apply safe_ok_safe; [apply Hidle|done].
Qed.

(** What holds after an event: the invariant too, unless the loop ends. *)
Definition good (ce : CE) (r : result unit) (ce' : CE) : Prop :=
  rtc advance (view ce) (view ce') /\ (is_ok r = true -> inv ce').

Lemma safe_good ce r ce' : safe ce r ce' -> good ce r ce'.
Proof. intros [H1 H2]. split; [done|]. by destruct r; [intros _; apply H2|]. Qed.

Lemma good_from ce ce1 r ce' : rtc advance (view ce) (view ce1) -> good ce1 r ce' -> good ce r ce'.
Proof. intros H1 [H2 H3]. split; [by etrans|done]. Qed.

Lemma good_quiet ce ce1 (k : action CE unit) :
  inv ce1 -> rtc advance (view ce) (view ce1) -> quiet k -> wp k (good ce) ce1.
Proof.
  intros Hi Hv Hq. apply wp_quiet; [done|]. intros r ce2 Hk%core_kernel.
  split; [by rewrite (kernel_view ce1 ce2 Hk)|]. intros _. by apply (kernel_inv ce1).
Qed.

Lemma log_good ce m : wp m (safe ce) ce -> wp (alog m) (good ce) ce.
Proof.
  intros H. apply wp_log. eapply wp_mono; [exact H|]. cbv beta. intros [[]|e] ce' [H1 H2].
  - split; [done|]. intros _. by apply H2.
  - destruct (is_panic e) eqn:He; (split; [done|]); [done|]. intros _. by apply H2.
Qed.

Lemma errors_is_not_panic e n : errors_is e (ErrSentinel n) = true -> is_panic e = false.
Proof.
  induction e as [| | |msg e IH]; cbn; [done|done| |].
  - by rewrite bool_decide_eq_false_2.
  - rewrite bool_decide_eq_false_2 by done. apply IH.
Qed.

Lemma fetch_missing_not_panic e : fetch_missing e = true -> is_panic e = false.
Proof.
  unfold fetch_missing. intros [[H|H]%orb_true_iff|H]%orb_true_iff; by eapply errors_is_not_panic.
Qed.

Lemma apply_then_signal ce ce1 f :
  inv ce1 -> rtc advance (view ce) (view ce1) ->
  wp (_ ← applyLeaderUpdates privKey; rl ← gets role; awhen (f rl) (send SignalNewRound)) (good ce) ce1.
Proof.
  intros Hi Hv. apply wp_bind. eapply wp_mono; [by apply applyLeaderUpdates_spec|]. cbv beta.
  intros [[]|e] ce2 [H1 H2].
  - apply good_quiet; [by apply H2|by etrans|quiet].
  - split; [by etrans|done].
Qed.

Lemma doCatchup_spec ce got fetches :
  inv ce -> fetched_ok got -> Forall fetched_ok fetches ->
  wp (doCatchup HashBytes reg PubKey_Verify range privKey got fetches) (good ce) ce.
Proof.
  intros Hi Hgot Hf. unfold doCatchup. apply wp_bind, wp_gets, wp_bind, wp_gets.
  destruct (bool_decide _); [by apply wp_ret|]. destruct (bool_decide _).
  { eapply wp_mono; [by apply applyLeaderUpdates_spec|]. intros. by apply safe_good. }
  apply wp_bind, wp_modify, wp_bind, wp_try. set (ce0 := set_inSync true ce).
  assert (inv ce0) as Hi0 by by apply (kernel_inv ce).
  eapply wp_mono with (Q := good ce0).
  - apply wp_bind, wp_try. eapply wp_mono; [by apply processCurrentBlock_spec|].
    cbv beta. intros [[]|e] ce1 [H1 H2].
    + apply wp_bind. eapply wp_mono; [apply sync_spec; [by apply H2|done]|]. cbv beta.
      intros [[]|e] ce2 [H3 H4]; [|by split; [etrans|]].
      apply (apply_then_signal ce0 ce2 (fun rl => bool_decide (rl = RoleLeader))); [by apply H4|by etrans].
    + destruct (fetch_missing e) eqn:He; [|by apply wp_fail].
      apply wp_ret. split; [done|]. intros _. by apply H2, fetch_missing_not_panic.
  - intros r ce1 [H1 H2]. apply wp_bind, wp_modify, wp_lift. split; [done|].
    intros Hr. by apply (kernel_inv ce1), H2.
Qed.

Lemma resetBlockProp_spec ce height txIDs : inv ce -> wp (resetBlockProp height txIDs) (good ce) ce.
Proof.
  intros Hi. unfold resetBlockProp. apply wp_bind, wp_gets, wp_bind, wp_quiet; [quiet|].
  intros r0 ce0 H0%core_kernel. assert (inv ce0) as Hi0 by by apply (kernel_inv ce).
  assert (view ce0 = view ce) as Hv0 by by apply kernel_view.
  destruct r0 as [[]|e]; [|by split; [rewrite Hv0|]].
  apply wp_bind, wp_try. apply (wp_mono _ (fun r ce1 => inv ce1 /\ view ce1 = view ce)).
  - apply wp_when; [|done]. intros _. eapply wp_mono; [apply rollbackState_spec|]. cbv beta.
    intros [[]|e] ce1 H1.
    + split; [by eapply idle_inv, cleared_idle|]. by rewrite (cleared_view ce0 ce1 H1).
    + apply core_kernel in H1. split; [by apply (kernel_inv ce0)|]. by rewrite (kernel_view ce0 ce1 H1).
  - intros [[]|e] ce1 [Hi1 Hv1].
    + apply good_quiet; [done|by rewrite Hv1|quiet].
    + destruct (is_panic e); [apply wp_fail|apply wp_ret]; (split; [by rewrite Hv1|done]).
Qed.

Definition msg_ok (msg : consensusMessage) : Prop :=
  match msg with
  | MsgProposal p => P (prop_blk p) (prop_blkHash p)
  | MsgVote _ _ => True
  | MsgAnnounce blk _ blkID => P blk blkID
  end.

Lemma handleConsensusMessages_spec ce now msg :
  inv ce -> msg_ok msg ->
  wp (handleConsensusMessages HashBytes reg PubKey_Verify range privKey now msg) (good ce) ce.
Proof.
  intros Hi Hmsg. destruct msg as [p|vote sender|blk ci blkID]; cbn [handleConsensusMessages].
  - by apply log_good, processBlockProposal_spec.
  - apply wp_bind, wp_gets. destruct (bool_decide_reflect (role ce = RoleLeader)); cbn [negb].
    + by apply log_good, addVote_spec.
    + by apply wp_ret.
  - apply wp_bind, wp_gets, wp_bind, wp_try. eapply wp_mono; [by apply commitBlock_spec|].
    cbv beta. intros [[]|e] ce1 [H1 H2].
    + apply (apply_then_signal ce ce1 (fun rl => negb (bool_decide (role ce = rl)) && bool_decide (rl = RoleLeader)));
        [by apply H2|done].
    + destruct (is_panic e) eqn:He; [by apply wp_fail|]. apply wp_ret. split; [done|]. intros _. by apply H2.
Qed.

(** One block of the worker that catches a leader up. *)
Lemma outOfSync_apply_spec ce gen f :
  inv ce -> votes (st ce) = ∅ -> fetched_ok f ->
  wp (_ ← outOfSync_apply HashBytes reg PubKey_Verify range privKey gen f; mret tt) (good ce) ce.
Proof.
  intros Hi Hv Hf. unfold outOfSync_apply. apply wp_bind, wp_bind, wp_try.
  apply (wp_mono _ (safe ce)).
  - destruct f as [[[blkID raw] ci]|e]; [|by apply wp_fail, safe_kernel]. unfold applyBlock.
    apply wp_bind, wp_lift. destruct (wrap_err _ _) as [blk|e] eqn:Hdec; [|by apply safe_kernel].
    apply wrap_err_Ok, Hf in Hdec.
    eapply wp_mono; [by apply processAndCommit_spec|]. intros r ce1. by apply safe_ok_safe.
  - intros [[]|e] ce1 [H1 H2]; [apply wp_ret, wp_ret; split; [done|]; intros _; by apply H2|].
    destruct (is_panic e) eqn:He; [by apply wp_fail|].
    assert (inv ce1) as Hi1 by by apply H2.
    assert (forall m : action CE bool, quiet m ->
      wp m (fun r ce2 => match r with Ok a => wp (mret tt) (good ce) ce2 | Err e => good ce (Err e) ce2 end) ce1)
      as Hq.
    { intros m Hm. apply wp_quiet; [done|]. intros r ce2 Hk%core_kernel.
      assert (forall r' : result unit, good ce r' ce2) as Hg.
      { intros r'. split; [by rewrite (kernel_view ce1 ce2 Hk)|]. intros _. by apply (kernel_inv ce1). }
      destruct r; [by apply wp_ret|done]. }
    destruct (_ || _); apply Hq; quiet.
Qed.

Lemma outOfSync_reset_spec ce gen h hash :
  inv ce -> wp (_ ← outOfSync_reset gen h hash; mret tt) (good ce) ce.
Proof.
  intros Hi. unfold outOfSync_reset. apply wp_bind, wp_bind, wp_gets, wp_bind, wp_gets.
  destruct (negb _).
  { apply wp_quiet; [quiet|]. intros r ce1 Hk%core_kernel.
    assert (safe ce (Ok tt) ce1) as [H1 H2] by by apply safe_kernel.
    destruct r; [apply wp_ret|]; (split; [done|]; intros _; by apply H2). }
  apply wp_bind, wp_try. eapply wp_mono; [apply rollbackState_spec|]. cbv beta. intros [[]|e] ce1 H1.
  - apply wp_ret, wp_ret, safe_good. by apply safe_cleared.
  - apply core_kernel in H1. destruct (is_panic e); [by apply wp_fail, safe_good, safe_kernel|].
    apply wp_quiet; [quiet|]. intros r ce2 Hk%core_kernel.
    assert (safe ce (Ok tt) ce2) as [H2 H3] by (apply safe_kernel; [done|congruence]).
    destruct r; [apply wp_ret|]; (split; [done|]; intros _; by apply H3).
Qed.

(** The assumptions on an event: the loop starts a proposal only when none is
    pending, the worker that catches a leader up finds no votes (it cleared them
    and the leader proposes again when it is done), and [P] holds of the blocks
    that the event brings. *)
Definition ev_ok ce (ev : event) : Prop :=
  match ev with
  | EvNewBlockProposal _ _ => blkProp (st ce) = None
  | EvCatchup got fetches => fetched_ok got /\ Forall fetched_ok fetches
  | EvMessage _ msg => msg_ok msg
  | EvOutOfSyncApply _ f => votes (st ce) = ∅ /\ fetched_ok f
  | _ => True
  end.

Abbreviation handle := (handle HashBytes reg PubKey_Verify range privKey).

Lemma handle_spec ce ev : inv ce -> ev_ok ce ev -> wp (handle ev) (good ce) ce.
Proof.
  intros Hi Hev. destruct ev; cbn [Consensus.handle];
    try (apply good_quiet; [done..|]; quiet; (apply quiet_announcements || apply quiet_notify)).
  - eapply wp_mono; [by apply applyLeaderUpdates_spec|]. intros. by apply safe_good.
  - apply wp_bind, wp_gets, wp_bind, wp_gets. destruct (bool_decide _); [by apply wp_ret|].
    destruct (bool_decide_reflect (role ce = RoleLeader)); cbn [negb]; [|by apply wp_ret].
    eapply wp_mono; [by apply proposeBlock_spec|]. intros. by apply safe_good.
  - destruct Hev. by apply doCatchup_spec.
  - by apply handleConsensusMessages_spec.
  - by apply resetBlockProp_spec.
  - by apply outOfSync_reset_spec.
  - destruct Hev. by apply outOfSync_apply_spec.
Qed.

(** ** Startup *)

Definition pending_free ce : Prop :=
  blkProp (st ce) = None /\ blockRes (st ce) = None /\ votes (st ce) = ∅.

Lemma quiet_repair h app intent got : quiet (repairAppAheadOfStore HashBytes reg h app intent got).
Proof. unfold repairAppAheadOfStore. quiet. Qed.

Lemma pending_free_core ce ce' : core ce' = core ce -> pending_free ce -> pending_free ce'.
Proof. unfold core, kernel, pending_free. intros H (? & ? & ?). split_and!; congruence. Qed.

Lemma setLastCommitInfo_pending ce h app blk ci :
  pending_free ce ->
  wp (setLastCommitInfo HashBytes reg h app blk ci) (fun r ce' => pending_free ce') ce.
Proof.
  intros (H1 & H2 & H3). eapply wp_mono; [apply setLastCommitInfo_spec|]. cbv beta.
  intros r ce' (E1 & E2 & E3). unfold pending_free. by rewrite E1, E2, E3.
Qed.

Lemma initializeState_spec ce gh chain genesis intent got :
  pending_free ce ->
  wp (initializeState HashBytes reg privKey gh chain genesis intent got)
    (fun r ce' => is_ok r = true -> idle ce') ce.
Proof.
  intros Hp. unfold initializeState. apply wp_bind, wp_gets, wp_bind, wp_lift.
  destruct chain as [[[appHeight appHash] dirty]|e]; [|done].
  destruct dirty; [by apply wp_fail|]. apply wp_bind, wp_quiet; [apply quiet_when, quiet_repair|].
  intros [[]|e] ce1 H1; [|done]. apply (pending_free_core ce ce1) in Hp; [|done].
  apply wp_bind, wp_gets. destruct (_ && (_ <? appHeight)); [by apply wp_fail|]. apply wp_bind.
  apply (wp_mono _ (fun r ce2 => pending_free ce2)).
  { assert (forall (h : Z) app blk ci, wp (_ ← setLastCommitInfo HashBytes reg h app blk ci; mret h)
              (fun _ ce2 => pending_free ce2) ce1) as Hset.
    { intros h app blk ci. apply wp_bind. eapply wp_mono; [by apply setLastCommitInfo_pending|].
      by intros [[]|e] ce2. }
    destruct (_ =? -1).
    - apply wp_bind, wp_lift. destruct (wrap_err _ genesis) as [g|e]; [apply Hset|done].
    - destruct (_ =? 0); [apply Hset|]. destruct (_ && _); [by apply wp_fail|].
      apply wp_bind, wp_gets, wp_bind, wp_lift. destruct (wrap_err _ _) as [[[? blk] ci]|e]; [apply Hset|done]. }
  intros [height|e] ce2 Hp2; [|done]. apply wp_bind.
  eapply wp_mono; [apply updateValidatorSetAndRole_spec|]. cbv beta.
  intros [[]|e] ce3 [Hst Hrole]; [|done]. apply wp_bind, wp_gets, wp_bind, wp_quiet; [quiet|].
  intros [[]|e] ce4 H4; [|done]. apply wp_ret. intros _. unfold core, kernel in H4. rewrite Hst in H4.
  destruct Hp2 as (E1 & E2 & E3). split_and!; [congruence..|].
  unfold role_ok, own_member, is_validator in *.
  replace (validatorSet ce4) with (validatorSet ce3) by congruence.
  replace (role ce4) with (role ce3) by congruence. done.
Qed.

Lemma replay_loop_spec ce n h :
  inv ce -> wp (replay_loop HashBytes reg PubKey_Verify range privKey n h) (good ce) ce.
Proof.
  revert ce h. induction n as [|n IH]; intros ce h Hi; cbn [replay_loop]; [by apply wp_ret|].
  apply wp_bind, wp_gets. destruct (bs_GetByHeight _ _) as [[[b blk] ci]|e].
  - apply wp_bind, wp_lift. destruct (Block_Hash _ _ _) as [hash|e] eqn:Hh; [|done].
    apply wp_bind. eapply wp_mono; [apply processAndCommit_spec; auto|]. cbv beta.
    intros [[]|e] ce1 (H1 & H2 & _); [|done].
    eapply wp_mono; [apply IH; by apply H2|]. intros r ce2. by apply good_from.
  - destruct (errors_is e ErrNotFound); [by apply wp_ret|by apply wp_fail].
Qed.

Lemma syncBlocksUntilHeight_spec ce fetches :
  inv ce -> Forall fetched_ok fetches ->
  wp (syncBlocksUntilHeight HashBytes reg PubKey_Verify range privKey fetches) (good ce) ce.
Proof.
  revert ce. induction fetches as [|[[[blkID raw] ci]|e] fetches IH]; intros ce Hi Hf;
    cbn [syncBlocksUntilHeight]; [by apply wp_ret| |by apply wp_fail]; apply Forall_cons in Hf as [Hf1 Hf].
  unfold applyBlock. apply wp_bind, wp_bind, wp_lift.
  destruct (wrap_err _ _) as [blk|e] eqn:Hdec; [|done]. apply wrap_err_Ok, Hf1 in Hdec.
  eapply wp_mono; [by apply processAndCommit_spec|]. intros [[]|e] ce1 (H1 & H2 & _); [|done].
  eapply wp_mono; [apply IH; [by apply H2|done]|]. intros r ce2. by apply good_from.
Qed.

Lemma doBlockSync_spec ce checkpoint fetches1 fetches2 :
  inv ce -> Forall fetched_ok fetches1 -> Forall fetched_ok fetches2 ->
  wp (doBlockSync HashBytes reg PubKey_Verify range privKey checkpoint fetches1 fetches2) (good ce) ce.
Proof.
  intros Hi Hf1 Hf2. unfold doBlockSync. apply wp_bind, wp_gets, wp_bind.
  apply (wp_mono _ (good ce)).
  - apply wp_when; [|done]. intros _. apply wp_bind. unfold leaderBlockSync. apply wp_bind, wp_gets.
    apply (wp_mono _ (good ce)).
    + destruct (_ <=? _); [by apply wp_ret|]. apply wp_bind.
      eapply wp_mono; [apply syncBlocksUntilHeight_spec; [done|by apply Forall_take]|]. cbv beta. intros [[]|e] ce1 [H1 H2]; [|done].
      destruct (_ <? _)%nat; [by apply wp_fail|]. apply wp_ret. split; [done|]. intros _. by apply H2.
    + intros [[]|e] ce1 [H1 H2]; [|done]. apply wp_bind, wp_gets, wp_lift. split; [done|]. intros _. by apply H2.
  - intros [[]|e] ce1 [H1 H2]; [|done]. eapply wp_mono; [apply sync_spec; [by apply H2|done]|].
    intros r ce2. by apply good_from.
Qed.

Lemma catchup_sync_spec ce h1 h2 cp f1 f2 :
  inv ce -> Forall fetched_ok f1 -> Forall fetched_ok f2 ->
  wp (catchup_sync HashBytes reg PubKey_Verify range privKey h1 h2 cp f1 f2) (good ce) ce.
Proof.
  intros Hi Hf1 Hf2. unfold catchup_sync. apply wp_bind, wp_modify, wp_bind, wp_try.
  set (ce0 := set_inSync true ce). assert (inv ce0) as Hi0 by by apply (kernel_inv ce).
  apply (wp_mono _ (good ce0)).
  - apply wp_bind. apply (wp_mono _ (good ce0)).
    + apply wp_when; [|done]. intros _. unfold replayFromBlockStore.
      destruct (_ <=? _); [by apply wp_ret|by apply replay_loop_spec].
    + intros [[]|e] ce1 [H1 H2]; [|done].
      eapply wp_mono; [apply doBlockSync_spec; [by apply H2|done..]|]. intros r ce2. by apply good_from.
  - intros r ce1 [H1 H2]. apply wp_bind, wp_modify, wp_lift. split; [done|].
    intros Hr. by apply (kernel_inv ce1), H2.
Qed.

(** The states that the loop goes through. *)
Inductive reaches (ce0 : CE) : CE -> Prop :=
  | reaches_refl : reaches ce0 ce0
  | reaches_step ce ev ce' :
      reaches ce0 ce -> ev_ok ce ev -> handle ev ce = (Ok tt, ce') -> reaches ce0 ce'.

Lemma reaches_inv ce0 ce :
  inv ce0 -> reaches ce0 ce -> inv ce /\ rtc advance (view ce0) (view ce).
Proof.
  intros H0. induction 1 as [|ce ev ce' _ [Hi Hv] Hev Hh]; [done|].
  pose proof (handle_spec ce ev Hi Hev) as [H1 H2]. rewrite Hh in H1, H2.
  split; [by apply H2|by etrans].
Qed.
End safety.

(** ** Theorems *)

Section theorems.
Context (HashBytes : bytes -> bytes) (reg : registry).
Context (PubKey_Verify : PublicKey -> bytes -> bytes -> result bool).
Context (range : forall A, gmap (list byte) A -> list (bytes * A)).
Context {E : Type} `{!BlockProcessor E, !BlockStore E, !NodeFiles E}.
Context (privKey : PrivateKey).
Implicit Types ce : ConsensusEngine E.

Lemma Verify_agree v blkID app :
  VoteInfo_Verify reg PubKey_Verify v blkID app = Ok tt -> AckStatus v = AckAgree ->
  exists pk, UnmarshalPublicKey reg (slice_bytes (vs_PubKey (vi_Signature v)))
               (vs_PubKeyType (vi_Signature v)) = Ok pk /\
    PubKey_Verify pk (vote_message blkID true app) (slice_bytes (vs_Data (vi_Signature v))) = Ok true.
Proof.
  unfold VoteInfo_Verify. intros (pk & Hpk%wrap_err_Ok & (msg & Hmsg & Hv)%result_bind_Ok)%result_bind_Ok Ha.
  rewrite Ha in Hmsg. apply (inj Ok) in Hmsg as <-.
  apply result_bind_Ok in Hv as (valid & Hv%wrap_err_Ok & Hvalid). exists pk. split; [done|].
  unfold vote_message. by destruct valid.
Qed.

(** C1. The chain that an engine commits, from its initialisation through
    catch-up and the events of its loop and of its catch-up worker: every block
    follows the one committed before it (height, previous block hash, previous
    app hash), and its commit info is a certificate for the block hash that the
    block is recorded with: distinct validators of the set then in force signed
    its votes, and more than half of them acknowledged that hash with the app hash
    that the node computed.  [P] is any relation that a block has to its own hash
    and that the blocks brought by peers have to the hash they come with; it then
    holds of every committed block and the hash it is recorded and certified
    with.  So the certificate is for the block's own hash when peers send blocks
    with their own hashes; the engine does not compare the two.  The theorem
    assumes that the leader of the network parameters is always a validator, that
    the node's key signs what it verifies, and the schedule of [ev_ok]: a proposal
    starts only when none is pending, and the catch-up worker of a leader applies
    blocks only while no votes are held.  The event that ends the loop with an
    error is covered. *)
Theorem commits_are_certified (P : Block -> bytes -> Prop)
    ldr upd mp e gh chain genesis intent got app store cp f1 f2 ce1 ce2 ce :
  (forall e k, np_Leader (bp_ConsensusParams e) = Some k ->
     validator_map (bp_GetValidators e) !! hex_encode (pk_Bytes k) <> None) ->
  (forall A (m : gmap (list byte) A), range A m ≡ₚ map_to_list m) ->
  UnmarshalPublicKey reg (pk_Bytes (pubKey privKey)) (sk_Type privKey) = Ok (pubKey privKey) ->
  (forall msg s, sk_Sign privKey msg = Ok s -> PubKey_Verify (pubKey privKey) msg s = Ok true) ->
  (forall blk h, Block_Hash HashBytes reg blk = Ok h -> P blk h) ->
  Forall (fetched_ok reg P) f1 -> Forall (fetched_ok reg P) f2 ->
  initializeState HashBytes reg privKey gh chain genesis intent got (New ldr upd mp e) = (Ok (app, store), ce1) ->
  catchup_sync HashBytes reg PubKey_Verify range privKey app store cp f1 f2 ce1 = (Ok tt, ce2) ->
  reaches HashBytes reg PubKey_Verify range privKey P ce2 ce ->
  rtc (advance reg PubKey_Verify P) (view ce1) (view ce) /\
  (forall ev, ev_ok reg P ce ev ->
     rtc (advance reg PubKey_Verify P) (view ce)
       (view (snd (handle HashBytes reg PubKey_Verify range privKey ev ce)))).
Proof.
  intros Hl Hr Hk Hs HP Hf1 Hf2 Hinit Hsync Hreach.
  assert (inv reg PubKey_Verify privKey P ce1) as Hi1.
  { pose proof (initializeState_spec HashBytes reg PubKey_Verify privKey Hl (New ldr upd mp e)
      gh chain genesis intent got) as H.
    unfold wp in H. rewrite Hinit in H. eapply idle_inv, H; [by split_and!|done]. }
  pose proof (catchup_sync_spec HashBytes reg PubKey_Verify range privKey P Hl HP ce1 app store cp f1 f2
    Hi1 Hf1 Hf2) as H2.
  unfold wp in H2. rewrite Hsync in H2. destruct H2 as [H2 Hi2].
  destruct (reaches_inv HashBytes reg PubKey_Verify range privKey P Hl Hr Hk Hs HP ce2 ce (Hi2 eq_refl) Hreach)
    as [Hi Hv].
  split; [by etrans|]. intros ev Hev.
  apply (handle_spec HashBytes reg PubKey_Verify range privKey P Hl Hr Hk Hs HP ce ev Hi Hev).
Qed.

(** C2. Two commit infos that engines with the same validator set accept have a
    validator in common: one key of the set acknowledged both blocks with both
    app hashes.  Two conflicting certificates convict a validator. *)
Theorem quorum_intersection ce1 ce2 ci1 ci2 b1 b2 :
  verifyVotes reg PubKey_Verify ce1 ci1 b1 = Ok tt ->
  verifyVotes reg PubKey_Verify ce2 ci2 b2 = Ok tt ->
  validatorSet ce1 = validatorSet ce2 ->
  exists key val pk sig1 sig2,
    validatorSet ce1 !! hex_encode key = Some val /\
    UnmarshalPublicKey reg key (acct_KeyType (val_ID val)) = Ok pk /\
    PubKey_Verify pk (vote_message b1 true (ci_AppHash ci1)) sig1 = Ok true /\
    PubKey_Verify pk (vote_message b2 true (ci_AppHash ci2)) sig2 = Ok true.
Proof.
  intros C1%verifyVotes_certified C2%verifyVotes_certified Hvs. rewrite <- Hvs in C2.
  destruct (shared_signer reg PubKey_Verify _ _ _ _ _ C1 C2) as (v & w & Hv & Hw & Av & Aw & Es & _).
  destruct (cert_member _ _ _ _ _ C1 v Hv) as (val & Hval & Kv).
  destruct (cert_member _ _ _ _ _ C2 w Hw) as (val' & Hval' & Kw).
  rewrite <- Es in Hval'. simplify_eq. apply (inj hex_encode) in Es.
  apply (cert_signed _ _ _ _ _ C1), Verify_agree in Hv as (pk & U1 & V1); [|done].
  apply (cert_signed _ _ _ _ _ C2), Verify_agree in Hw as (pk' & U2 & V2); [|done].
  rewrite <- Es, <- Kw, Kv in U2. assert (pk' = pk) as -> by congruence.
  eexists _, val, pk, _, _. split_and!; [exact Hval|by rewrite Kv|exact V1|exact V2].
Qed.

Lemma majority_no_halt ce blkID app counted :
  tally reg PubKey_Verify ce blkID app (map snd (range _ (votes (st ce)))) ∅ = counted ->
  hasMajority ce (count_acks counted) = true -> hasEnoughNacks ce (count_nacks counted) = false.
Proof.
  intros <- Hm%hasMajority_spec.
  destruct (tally_spec reg PubKey_Verify ce blkID app (map snd (range _ (votes (st ce)))) ∅) as [Hnd Hl].
  set (counted := tally _ _ _ _ _ _ _) in *.
  pose proof (member_votes_bound (validatorSet ce) counted Hnd) as Hb.
  pose proof (count_split counted). rewrite <- not_true_iff_false, hasEnoughNacks_spec.
  enough (zlen counted <= Z.of_nat (size (validatorSet ce))) by lia. apply Hb. intros v Hv. by apply Hl.
Qed.


(** C3. When the votes at the leader reach a majority and the node's storage
    accepts the block, [processVotes] commits it and announces a commit info that
    every engine with the same validator set verifies. *)
Theorem majority_commits (P : Block -> bytes -> Prop) ce p r :
  (forall e k, np_Leader (bp_ConsensusParams e) = Some k ->
     validator_map (bp_GetValidators e) !! hex_encode (pk_Bytes k) <> None) ->
  inv reg PubKey_Verify privKey P ce ->
  (forall A (m : gmap (list byte) A), range A m ≡ₚ map_to_list m) ->
  blkProp (st ce) = Some p -> blockRes (st ce) = Some r ->
  let counted := tally reg PubKey_Verify ce (prop_blkHash p) (br_appHash r)
                   (map snd (range _ (votes (st ce)))) ∅ in
  let ci := mkCommitInfo (br_appHash r) (merge_sort vote_le counted) (br_paramUpdates r) (br_valUpdates r) in
  hasMajority ce (count_acks counted) = true ->
  fst (commit HashBytes privKey (upd_st (st_set_commitInfo (Some ci)) ce)) = Ok tt ->
  let run := processVotes HashBytes reg PubKey_Verify range privKey ce in
  fst run = Ok tt /\ SendAnnounce (prop_blk p) (Some ci) ∈ out (snd run) /\
  lc (st (snd run)) = mkLastCommit (prop_height p) (prop_blkHash p) (br_appHash r) (Some (prop_blk p)) (Some ci) /\
  (forall ce', validatorSet ce' = validatorSet ce ->
     verifyVotes reg PubKey_Verify ce' ci (prop_blkHash p) = Ok tt).
Proof.
  intros Hl Hi Hrange Hp Hr counted ci Hmaj Hcommit run.
  assert (certified reg PubKey_Verify (validatorSet ce) (prop_blkHash p) ci) as Hcert
    by exact (tally_certified reg PubKey_Verify range privKey P Hrange ce p r _ _ Hi Hp Hr Hmaj).
  pose proof (majority_no_halt ce (prop_blkHash p) (br_appHash r) counted eq_refl Hmaj) as Hnack.
  pose proof (commit_spec HashBytes PubKey_Verify privKey Hl (upd_st (st_set_commitInfo (Some ci)) ce) p r Hp Hr)
    as Hspec. unfold wp in Hspec.
  destruct (commit HashBytes privKey _) as [res ce1] eqn:Hc. cbn in Hcommit. subst res.
  destruct Hspec as [[? _]|[Hlc _]]; [done|]. cbn in Hlc.
  assert (run = (_ ← send (SendAnnounce (prop_blk p) (Some ci)); rl ← gets role;
                 awhen (bool_decide (rl = RoleLeader)) (send SignalNewRound)) ce1) as ->.
  { unfold run, processVotes, mbind, action_bind, gets, modify, atry.
    rewrite Hp, Hr. fold counted. rewrite Hnack, Hmaj. cbn [negb]. fold ci. rewrite Hc.
    by rewrite Hlc. }
  split_and!; [..|intros ce' Hvs; apply verifyVotes_certified; by rewrite Hvs];
    unfold send, mbind, action_bind, modify, gets; cbn; case_bool_decide; cbn; try done; set_solver.
Qed.

(** The key of a validator is the hexadecimal of its identifier. *)
Lemma validator_map_key vals k v :
  validator_map vals !! k = Some v -> k = hex_encode (slice_bytes (Identifier (val_ID v))).
Proof.
  unfold validator_map. revert k v. induction vals as [|val vals IH] using rev_ind; intros k v; [done|].
  rewrite foldl_snoc, lookup_insert_Some. intros [[<- <-]|[_ H]]; [done|by apply IH].
Qed.

(** No hexadecimal string is the encoding of a key with its type. *)
Lemma EncodePubKeyAndType_not_hex key kt l : EncodePubKeyAndType key kt <> hex_encode l.
Proof.
  unfold EncodePubKeyAndType. intros E'.
  assert (x23 ∈ hex_encode l) as H by (rewrite <- E'; set_solver).
  apply hex_encode_above in H. by vm_compute in H.
Qed.

Lemma lookup_encoded_key vals key kt : validator_map vals !! EncodePubKeyAndType key kt = None.
Proof.
  destruct (validator_map vals !! _) eqn:H; [|done].
  by apply validator_map_key, EncodePubKeyAndType_not_hex in H.
Qed.

(** The bytes hashed for a validator set of [n] validators. *)
Lemma validatorSetHash_preimage ce vals :
  (forall A (m : gmap (list byte) A), range A m ≡ₚ map_to_list m) ->
  validatorSet ce = validator_map vals ->
  validatorSetHash HashBytes reg range ce =
    HashBytes (concat (replicate (size (validatorSet ce))
      (slice_bytes (AccountID_Bytes reg (val_ID zero_Validator)) ++ be_bytes 8 (Power zero_Validator)))).
Proof.
  intros Hr Hvs. unfold validatorSetHash. do 2 f_equal.
  set (keys := map _ (range _ _)).
  assert (length (merge_sort bytes_le keys) = size (validatorSet ce)) as Hlen.
  { rewrite (Permutation_length (merge_sort_Permutation bytes_le keys)). unfold keys.
    by rewrite length_map, (Permutation_length (Hr _ _)), length_map_to_list. }
  assert (forall k, k ∈ merge_sort bytes_le keys -> validatorSet ce !! k = None) as Hnone.
  { intros k. rewrite merge_sort_Permutation. intros (kv & -> & _)%list_elem_of_fmap.
    rewrite Hvs. apply lookup_encoded_key. }
  rewrite <- Hlen. clear Hlen. induction (merge_sort bytes_le keys) as [|k l IH]; [done|].
  cbn [map length replicate]. rewrite (Hnone k) by set_solver. f_equal. apply IH. set_solver.
Qed.

(** [validatorSetHash] is a function of the number of validators alone: it
    looks the validators up by keys that the validator map never has. *)
Theorem validatorSetHash_counts ce1 ce2 vals1 vals2 :
  (forall A (m : gmap (list byte) A), range A m ≡ₚ map_to_list m) ->
  validatorSet ce1 = validator_map vals1 -> validatorSet ce2 = validator_map vals2 ->
  size (validatorSet ce1) = size (validatorSet ce2) ->
  validatorSetHash HashBytes reg range ce1 = validatorSetHash HashBytes reg range ce2.
Proof.
  intros Hr H1 H2 Hs.
  by rewrite (validatorSetHash_preimage ce1 vals1 Hr H1), (validatorSetHash_preimage ce2 vals2 Hr H2), Hs.
Qed.

(** The timestamp that a leader gives to a proposal passes the check of
    every follower with the same last block, whatever the leader's clock says,
    and it is within the allowed drift of the leader's clock when the previous
    block is. *)
Theorem proposal_timestamp_accepted height prev app vsh ph txns now prevStamp :
  prevStamp mod 1000000 = 0 ->
  let blk := NewBlock HashBytes height prev app vsh ph (proposalTimestamp now prevStamp) txns in
  validateProposalTimestamp (Timestamp (Header blk)) prevStamp = Ok tt /\
  (prevStamp + 1000000 <= now + maxProposalClockDrift ->
   checkProposalNotAhead (Timestamp (Header blk)) now = Ok tt).
Proof using HashBytes.
  clear PubKey_Verify range privKey. intros Hp blk. change (Timestamp (Header blk)) with (truncate_ms (proposalTimestamp now prevStamp)).
  assert (truncate_ms (proposalTimestamp now prevStamp) = proposalTimestamp now prevStamp) as ->.
  { unfold proposalTimestamp, truncate_ms. destruct (_ && _); [|rewrite Zminus_mod_idemp_r];
      Z.to_euclidean_division_equations; lia. }
  unfold validateProposalTimestamp, checkProposalNotAhead, proposalTimestamp, truncate_ms.
  destruct (prevStamp =? zero_time); cbn [negb andb].
  - split; [done|]. intros _. rewrite Z.gtb_ltb, (proj2 (Z.ltb_ge _ _)); [done|].
    unfold maxProposalClockDrift. Z.to_euclidean_division_equations; lia.
  - destruct (now - now mod 1000000 >? prevStamp) eqn:Hgt; cbn [negb].
    + rewrite Hgt. split; [done|]. intros _. rewrite Z.gtb_ltb, (proj2 (Z.ltb_ge _ _)); [done|].
      unfold maxProposalClockDrift. Z.to_euclidean_division_equations; lia.
    + rewrite (proj2 (Z.gtb_gt _ _)) by lia. split; [done|]. intros Hd.
      by rewrite Z.gtb_ltb, (proj2 (Z.ltb_ge _ _)).
Qed.
End theorems.

(** ** An example network *)

(** A block processor and store that accept everything; executing a block gives
    a fixed app hash. *)
Record ex_env := mkExEnv {
  x_params : NetworkParameters;
  x_vals : list Validator;
  x_blocks : list (Block * option CommitInfo)
}.

#[local] Instance ex_processor : BlockProcessor ex_env := {|
  bp_PrepareProposal txs _ := mret (map Mempool.ntx_Transaction txs, []);
  bp_ExecuteBlock _ _ := mret (mkExecResult [] (ex_hash x0a) [] ∅);
  bp_Commit _ _ _ := mret tt;
  bp_Rollback _ _ := mret tt;
  bp_CheckTx _ _ _ _ := mret tt;
  bp_RecheckTxs _ _ mp := mret mp;
  bp_GetValidators := x_vals;
  bp_ConsensusParams e :=
    mkParams (match x_vals e with
              | v :: _ => Some (mkPublicKey (acct_KeyType (val_ID v)) (slice_bytes (Identifier (val_ID v))))
              | [] => None
              end) (MaxBlockSize (x_params e)) 1 false 1 []
|}.

#[local] Instance ex_store : BlockStore ex_env := {|
  bs_Best e := (Z.of_nat (length (x_blocks e)), ex_hash x00, ex_hash x00);
  bs_Store blk ci := modify (fun e => mkExEnv (x_params e) (x_vals e) (x_blocks e ++ [(blk, ci)]));
  bs_GetByHeight _ _ := Err ErrNotFound;
  bs_StoreResults _ _ := mret tt;
  bs_Sync := mret tt
|}.

#[local] Instance ex_files : NodeFiles ex_env := {|
  cl_Record _ _ := mret tt;
  cl_Clear := mret tt;
  lf_Store _ := mret tt
|}.

Definition ex_range (A : Type) (m : gmap (list byte) A) : list (bytes * A) := map_to_list m.
Definition ex_H (b : bytes) : bytes := take 32 (b ++ replicate 32 x00).
Definition ex_validator (b : byte) : Validator := mkValidator (mkAccountID (Some (ex_hash b)) KeyTypeEd25519) 1.

(** The engine of the only validator, after its initialisation, its catch-up,
    and the proposal of the first block. *)
Definition ex_new (vals : list Validator) : ConsensusEngine ex_env :=
  New (Some ex_key) None (Mempool.New 1000 500) (mkExEnv (mkParams None 1000000 1 false 1 []) vals []).
Definition ex_init (vals : list Validator) :=
  initializeState ex_H test_registry ex_private 0 (Ok (-1, [], false)) (Ok (0, ex_hash x01)) None
    (Err ErrBlkNotFound) (ex_new vals).
Definition ex_sync (vals : list Validator) :=
  catchup_sync ex_H test_registry ex_verify ex_range ex_private 0 0 (0, []) [] [Err ErrBlkNotFound]
    (snd (ex_init vals)).
Definition ex_propose (vals : list Validator) :=
  handle ex_H test_registry ex_verify ex_range ex_private (EvNewBlockProposal 1700000000000000000 None)
    (snd (ex_sync vals)).
Definition ex_one := [ex_validator x05].

Lemma ex_leader_ok (e : ex_env) k :
  np_Leader (bp_ConsensusParams e) = Some k ->
  validator_map (bp_GetValidators e) !! hex_encode (pk_Bytes k) <> None.
Proof.
  cbn. destruct (x_vals e) as [|v vals]; [done|]. intros [= <-]. cbn [pk_Bytes].
  unfold validator_map. induction vals as [|w vals IH] using rev_ind.
  - cbn. by rewrite lookup_insert_eq.
  - rewrite app_comm_cons, foldl_snoc. destruct (decide (hex_encode (slice_bytes (Identifier (val_ID w))) =
      hex_encode (slice_bytes (Identifier (val_ID v))))) as [->|Hne]; [by rewrite lookup_insert_eq|].
    by rewrite lookup_insert_ne.
Qed.

Lemma ex_sign_ok msg s : sk_Sign ex_private msg = Ok s -> ex_verify (pubKey ex_private) msg s = Ok true.
Proof. intros [= <-]. unfold ex_verify. by rewrite bool_decide_eq_true_2. Qed.

Lemma run_Ok {A B} (x : result A * B) a : fst x = Ok a -> x = (Ok a, snd x).
Proof. by destruct x; cbn; intros ->. Qed.

Definition ex_own_hash (blk : Block) (h : bytes) : Prop := Block_Hash ex_H test_registry blk = Ok h.

Lemma commits_are_certified_witness :
  rtc (advance test_registry ex_verify ex_own_hash)
    (view (snd (ex_init ex_one))) (view (snd (ex_propose ex_one))) /\
  lc_height (lc (st (snd (ex_propose ex_one)))) = 1.
Proof.
  split; [|by vm_compute].
  refine (proj1 (commits_are_certified ex_H test_registry ex_verify ex_range ex_private ex_own_hash
    (Some ex_key) None (Mempool.New 1000 500) (mkExEnv (mkParams None 1000000 1 false 1 []) ex_one []) 0
    (Ok (-1, [], false)) (Ok (0, ex_hash x01)) None (Err ErrBlkNotFound) 0 0 (0, []) [] [Err ErrBlkNotFound]
    (snd (ex_init ex_one)) (snd (ex_sync ex_one)) _ ex_leader_ok _ _ ex_sign_ok (fun blk h H => H) _ _ _ _ _)).
  - done.
  - by vm_compute.
  - by repeat constructor.
  - by repeat constructor.
  - unfold ex_init, ex_new. apply run_Ok. by vm_compute.
  - unfold ex_sync. apply run_Ok. by vm_compute.
  - unfold ex_propose. eapply reaches_step; [apply reaches_refl| |apply run_Ok; by vm_compute].
    by vm_compute.
Defined.

(** A commit info signed by the one validator. *)
Definition ex_own_vote (b app : bytes) : VoteInfo :=
  mkVoteInfo AckAgree None (mkVoteSig KeyTypeEd25519 (Some (ex_hash x05)) (Some (vote_message b true app))).
Definition ex_certificate (b app : bytes) : CommitInfo := mkCommitInfo app [ex_own_vote b app] ∅ [].

Lemma quorum_intersection_witness :
  exists key val pk sig1 sig2,
    validatorSet (snd (ex_sync ex_one)) !! hex_encode key = Some val /\
    UnmarshalPublicKey test_registry key (acct_KeyType (val_ID val)) = Ok pk /\
    ex_verify pk (vote_message (ex_hash x01) true (ex_hash x02)) sig1 = Ok true /\
    ex_verify pk (vote_message (ex_hash x03) true (ex_hash x04)) sig2 = Ok true.
Proof.
  refine (quorum_intersection test_registry ex_verify (snd (ex_sync ex_one)) (snd (ex_sync ex_one))
    (ex_certificate (ex_hash x01) (ex_hash x02)) (ex_certificate (ex_hash x03) (ex_hash x04))
    (ex_hash x01) (ex_hash x03) _ _ eq_refl); by vm_compute.
Defined.

(** Two validators, one of which has rejected the block. *)
Definition ex_two := [ex_validator x05; ex_validator x06].
Definition ex_nack : VoteInfo := mkVoteInfo AckReject None (mkVoteSig KeyTypeEd25519 (Some (ex_hash x06)) None).
Definition ex_rejected : ConsensusEngine ex_env :=
  upd_st (st_set_votes {[hex_encode (ex_hash x06) := ex_nack]}) (snd (ex_sync ex_two)).


(** The one validator with its own vote for the first block. *)
Definition ex_first : blockProposal :=
  mkProposal 1 (ex_hash x0b)
    (mkBlock (mkHeader 0 1 0 (ex_hash x00) (ex_hash x01) 0 (ex_hash x00) (ex_hash x00) (ex_hash x00) None) [] None).
Definition ex_voted : ConsensusEngine ex_env :=
  upd_st (fun s => mkState (Some ex_first) (Some (mkBlockResult true (ex_hash x0a) [] None ∅ []))
                     (lc s) {[ex_hash x05 := ex_own_vote (ex_hash x0b) (ex_hash x0a)]} None None (st_catchup s))
    (snd (ex_sync ex_one)).

Lemma ex_voted_inv : inv test_registry ex_verify ex_private (fun _ _ => True) ex_voted.
Proof.
  constructor.
  - intros p [= <-]. by vm_compute.
  - intros k v Hk.
    change (({[ex_hash x05 := ex_own_vote (ex_hash x0b) (ex_hash x0a)]} : gmap (list byte) VoteInfo) !! k = Some v)
      in Hk.
    apply lookup_singleton_Some in Hk as [<- <-]. exists ex_first, (mkBlockResult true (ex_hash x0a) [] None ∅ []).
    split_and!; [done..|by vm_compute].
  - intros _. by vm_compute.
  - by vm_compute.
Qed.

Lemma majority_commits_witness :
  let run := processVotes ex_H test_registry ex_verify ex_range ex_private ex_voted in
  fst run = Ok tt /\ lc_blkHash (lc (st (snd run))) = ex_hash x0b.
Proof.
  intros run.
  destruct (majority_commits ex_H test_registry ex_verify ex_range ex_private (fun _ _ => True) ex_voted ex_first
    (mkBlockResult true (ex_hash x0a) [] None ∅ []) ex_leader_ok ex_voted_inv
    (fun A m => Permutation_refl _) eq_refl eq_refl ltac:(by vm_compute) ltac:(by vm_compute))
    as (H1 & _ & H2 & _).
  split; [exact H1|]. unfold run. by rewrite H2.
Defined.

Lemma validatorSetHash_counts_witness :
  validatorSetHash ex_H test_registry ex_range (snd (ex_sync [ex_validator x05; ex_validator x06])) =
  validatorSetHash ex_H test_registry ex_range (snd (ex_sync [ex_validator x05; ex_validator x07])) /\
  validatorSet (snd (ex_sync [ex_validator x05; ex_validator x06])) <>
  validatorSet (snd (ex_sync [ex_validator x05; ex_validator x07])).
Proof.
  split; [|apply (bool_decide_unpack _); by vm_compute].
  refine (validatorSetHash_counts ex_H test_registry ex_range _ _ [ex_validator x05; ex_validator x06]
    [ex_validator x05; ex_validator x07] (fun A m => Permutation_refl _) _ _ _).
  - apply (bool_decide_unpack _). by vm_compute.
  - apply (bool_decide_unpack _). by vm_compute.
  - by vm_compute.
Defined.

Lemma proposal_timestamp_accepted_witness :
  let blk := NewBlock ex_H 2 [] [] [] [] (proposalTimestamp 1699999999123456789 1700000000000000000) [] in
  validateProposalTimestamp (Timestamp (Header blk)) 1700000000000000000 = Ok tt /\
  checkProposalNotAhead (Timestamp (Header blk)) 1699999999123456789 = Ok tt.
Proof.
  destruct (proposal_timestamp_accepted ex_H 2 [] [] [] [] [] 1699999999123456789 1700000000000000000 eq_refl)
    as [H1 H2].
  split; [exact H1|]. apply H2. by vm_compute.
Defined.
