(* ===== verification/Processor.v ===== *)
(** * The block processor

    [BlockProcessor] of src/node/block_processor/processor.go with its
    transactions (transactions.go) and execution status (status.go), the chain
    state of src/node/meta/meta.go, and the writer transaction of
    src/node/pg/db.go.  The state holds the transaction application with the
    view that the writer transaction has of its tables, and the committed
    database beside it.  PostgreSQL statements do not fail for reasons of
    infrastructure.  What the repository does not contain or what is not
    modelled is in [Services]: the hash, the JSON form of the network
    parameters, the identifier that PostgreSQL gives to a set of changes, the
    migrator, the broadcast callback and the signer. *)

From S2P Require Import Prelude.
From S2P Require Import Wire.
From S2P Require Import Keys.
From S2P Require Import Ident.
From S2P Require Import Order.
From S2P Require Import Tx.
From S2P Require Import Block.
From S2P Require Import Params.
From S2P Require Import Payloads.
From S2P Require Import Values.
From S2P Require Import Auth.
From S2P Require Import Commit.
From S2P Require Import Cache.
From S2P Require Import Accounts.
From S2P Require Import Voting.
From S2P Require Import Events.
From S2P Require Mempool.
From S2P Require Consensus.
From S2P Require Import TxApp.
From S2P Require Import Admission.
From S2P Require Import Finalize.
From S2P Require Import Stable.
From Stdlib Require Import Strings.Byte.

#[local] Open Scope Z_scope.

Export Consensus (TxResult, mkTxResult, tr_Code, tr_Gas, tr_Log,
  BlockExecRequest, mkExecRequest, req_Height, req_Block, req_BlockID, req_Proposer,
  BlockExecResult, mkExecResult, res_TxResults, res_AppHash, res_ValidatorUpdates, res_ParamUpdates).

Definition CodeInvalidSignature : Z := 3.
Definition ErrMigrationComplete : error := ErrSentinel "network is halted following migration".
Definition ErrWrongChain : error := ErrSentinel "wrong chain ID".
Definition ErrParamsNotFound : error := ErrSentinel "params not found".

(** [time.Time.Unix]. *)
Definition Unix (t : Z) : Z := t / 1000000000.

(** [big.Int.Bytes]. *)
Definition big_Bytes (z : Z) : bytes :=
  if z =? 0 then [] else be_bytes (Z.to_nat (Z.log2 (Z.abs z) / 8 + 1)) (Z.abs z).

(** [copy(hash[:], b)]. *)
Definition copy_hash (hash b : bytes) : bytes := take 32 b ++ drop (length (take 32 b)) hash.

Definition zero_hash : bytes := replicate 32 x00.

(** ** Chain state *)

(** The tables of the schema kwild_chain: one row each, or none. *)
Record metadata := mkMetadata {
  md_chain : option (Z * slice * bool);
  md_params : option bytes
}.

Definition GetChainState (m : metadata) : Z * slice * bool := default (-1, None, false) (md_chain m).

Definition SetChainState (height : Z) (appHash : slice) (dirty : bool) (m : metadata) : metadata :=
  mkMetadata (Some (height, appHash, dirty)) (md_params m).

(** [NetworkParameters.MarshalBinary] and [UnmarshalBinary], which use JSON. *)
Class ParamsCodec := {
  params_Marshal : NetworkParameters -> result bytes;
  params_Unmarshal : bytes -> result NetworkParameters
}.

Definition StoreParams `{ParamsCodec} (p : NetworkParameters) (m : metadata) : result metadata :=
  paramBts ← params_Marshal p; mret (mkMetadata (md_chain m) (Some paramBts)).

Definition LoadParams `{ParamsCodec} (m : metadata) : result NetworkParameters :=
  match md_params m with
  | None => Err ErrParamsNotFound
  | Some paramsBts => wrap_err "failed to unmarshal params" (params_Unmarshal paramsBts)
  end.

(** ** State *)

Record StateHashes := mkStateHashes {
  sh_PrevApp : bytes;
  sh_Changeset : bytes;
  sh_ValUpdates : bytes;
  sh_Accounts : bytes;
  sh_TxResults : bytes;
  sh_ParamUpdates : bytes
}.

(** The times of the status are not kept. *)
Record blockExecStatus := mkExecStatus {
  bes_height : Z;
  txIDs : list bytes;
  txStatus : gmap (list byte) bool
}.

(** The database as last committed; the accounts keep their committed table
    themselves, and the events are deleted when the transaction commits. *)
Record database (X : Type) := mkDatabase {
  db_tables : tables;
  db_engine : X;
  db_meta : metadata
}.
Arguments mkDatabase {X}.
Arguments db_tables {X}.
Arguments db_engine {X}.
Arguments db_meta {X}.

Inductive peer_op := AddPeer (nodeID : bytes) | RemovePeer (nodeID : bytes).

Record Processor (C X : Type) := mkProcessor {
  bp_txapp : App C X;
  (** the writer transaction's view of the chain state *)
  bp_meta : metadata;
  bp_db : database X;
  (** [db.tx != nil], [consensusTx != nil] *)
  bp_writer : bool;
  consensusTx : bool;
  bp_appHash : bytes;
  bp_height : Z;
  stateHashes : option StateHashes;
  bp_status : option blockExecStatus;
  syncing : bool;
  peers : list peer_op
}.
Arguments mkProcessor {C X}.
Arguments bp_txapp {C X}.
Arguments bp_meta {C X}.
Arguments bp_db {C X}.
Arguments bp_writer {C X}.
Arguments consensusTx {C X}.
Arguments bp_appHash {C X}.
Arguments bp_height {C X}.
Arguments stateHashes {C X}.
Arguments bp_status {C X}.
Arguments syncing {C X}.
Arguments peers {C X}.

Section state.
Context {C X : Type}.
Implicit Types p : Processor C X.

Definition set_txapp p x : Processor C X :=
  mkProcessor x (bp_meta p) (bp_db p) (bp_writer p) (consensusTx p) (bp_appHash p) (bp_height p)
    (stateHashes p) (bp_status p) (syncing p) (peers p).
Definition set_meta p x : Processor C X :=
  mkProcessor (bp_txapp p) x (bp_db p) (bp_writer p) (consensusTx p) (bp_appHash p) (bp_height p)
    (stateHashes p) (bp_status p) (syncing p) (peers p).
Definition set_db p x : Processor C X :=
  mkProcessor (bp_txapp p) (bp_meta p) x (bp_writer p) (consensusTx p) (bp_appHash p) (bp_height p)
    (stateHashes p) (bp_status p) (syncing p) (peers p).
Definition set_writer p x : Processor C X :=
  mkProcessor (bp_txapp p) (bp_meta p) (bp_db p) x (consensusTx p) (bp_appHash p) (bp_height p)
    (stateHashes p) (bp_status p) (syncing p) (peers p).
Definition set_consensusTx p x : Processor C X :=
  mkProcessor (bp_txapp p) (bp_meta p) (bp_db p) (bp_writer p) x (bp_appHash p) (bp_height p)
    (stateHashes p) (bp_status p) (syncing p) (peers p).
Definition set_chain p (height : Z) (appHash : bytes) : Processor C X :=
  mkProcessor (bp_txapp p) (bp_meta p) (bp_db p) (bp_writer p) (consensusTx p) appHash height
    (stateHashes p) (bp_status p) (syncing p) (peers p).
Definition set_stateHashes p x : Processor C X :=
  mkProcessor (bp_txapp p) (bp_meta p) (bp_db p) (bp_writer p) (consensusTx p) (bp_appHash p) (bp_height p)
    x (bp_status p) (syncing p) (peers p).
Definition set_status p x : Processor C X :=
  mkProcessor (bp_txapp p) (bp_meta p) (bp_db p) (bp_writer p) (consensusTx p) (bp_appHash p) (bp_height p)
    (stateHashes p) x (syncing p) (peers p).
Definition set_syncing p x : Processor C X :=
  mkProcessor (bp_txapp p) (bp_meta p) (bp_db p) (bp_writer p) (consensusTx p) (bp_appHash p) (bp_height p)
    (stateHashes p) (bp_status p) x (peers p).
Definition add_peers p x : Processor C X :=
  mkProcessor (bp_txapp p) (bp_meta p) (bp_db p) (bp_writer p) (consensusTx p) (bp_appHash p) (bp_height p)
    (stateHashes p) (bp_status p) (syncing p) (peers p ++ x).

Definition on_txapp {A} (m : action (App C X) A) : action (Processor C X) A := fun p =>
  let '(r, st) := m (bp_txapp p) in (r, set_txapp p st).

Definition chainCtx p : ChainContext := ap_chain (bp_txapp p).
Definition netParams p : NetworkParameters := NetworkParameters_ (chainCtx p).

(** ** The writer transaction *)

(** The view of a transaction that has changed nothing. *)
Definition committed_app (d : database X) (st : App C X) : App C X :=
  mkApp (set_table (ap_accounts st) (db_table (ap_accounts st)))
    (ap_votes st) (db_tables d) (es_set_deleted (ap_events st) ∅) (db_engine d)
    (ap_chain st) (ap_mempool st) (ap_approvedJoins st).

Definition reset_view p : Processor C X :=
  set_meta (set_txapp p (committed_app (bp_db p) (bp_txapp p))) (db_meta (bp_db p)).

(** [beginWriterTx]. *)
Definition begin_tx : action (Processor C X) unit := fun p =>
  if bp_writer p then (Err (ErrMsg "writer tx exists"), p)
  else (Ok tt, set_writer (reset_view p) true).

(** [commit] and [rollback] of the database. *)
Definition commit_tx : action (Processor C X) unit := fun p =>
  if negb (bp_writer p) then (Err (ErrMsg "no tx exists"), p)
  else
    let st := bp_txapp p in
    let a := ap_accounts st in
    let a := mkAccounts (records a) (updates a) (spends a) (tx_table a) (tx_table a) in
    let st' := set_events (set_accounts st a) (commit_events (ap_events st)) in
    (Ok tt, set_writer (set_db (set_txapp p st') (mkDatabase (ap_tables st) (ap_engine st) (bp_meta p))) false).

Definition rollback_tx : action (Processor C X) unit := fun p =>
  if negb (bp_writer p) then (Err (ErrMsg "no tx exists"), p)
  else (Ok tt, set_writer (reset_view p) false).

Definition on_meta (f : metadata -> result metadata) : action (Processor C X) unit := fun p =>
  match f (bp_meta p) with
  | Ok m => (Ok tt, set_meta p m)
  | Err e => (Err e, p)
  end.

(** [defer]: what runs when a function returns an error or panics. *)
Definition on_failure {A} (m : action (Processor C X) A) (cleanup : Processor C X -> Processor C X)
  : action (Processor C X) A := fun p =>
  match m p with
  | (Err e, p') => (Err e, cleanup p')
  | (Ok a, p') => (Ok a, p')
  end.

(** [defer tx.Rollback(ctx)]: the error is dropped. *)
Definition drop_tx p : Processor C X := snd (rollback_tx p).
End state.

(** ** Collaborators *)

Record Services (C X : Type) := mkServices {
  sv_HashBytes : bytes -> bytes;
  (** [Precommit]: the identifier of the changes of the transaction *)
  sv_Precommit : database X -> App C X -> metadata -> bytes;
  sv_IsFatalDBError : error -> bool;
  sv_Error : error -> bytes;
  (** the migrator *)
  sv_NotifyHeight : database X -> BlockContext -> action (App C X) unit;
  sv_StoreChangesets : Z -> result unit;
  sv_PersistLastChangesetHeight : Z -> X -> result X;
  (** nil until [SetCallbackFns] *)
  sv_broadcastTxFn : option (Transaction -> action (Processor C X) unit);
  sv_PubKey : PublicKey;
  sv_Sign : bytes -> result Signature
}.
Arguments mkServices {C X}.
Arguments sv_HashBytes {C X}.
Arguments sv_Precommit {C X}.
Arguments sv_IsFatalDBError {C X}.
Arguments sv_Error {C X}.
Arguments sv_NotifyHeight {C X}.
Arguments sv_StoreChangesets {C X}.
Arguments sv_PersistLastChangesetHeight {C X}.
Arguments sv_broadcastTxFn {C X}.
Arguments sv_PubKey {C X}.
Arguments sv_Sign {C X}.

(** ** Hashes *)

(** The order of [accountsHash] and of [validatorUpdatesHash]: identifier, then
    key type. *)
Definition id_le (a b : AccountID) : Prop :=
  if bool_decide (slice_bytes (Identifier a) = slice_bytes (Identifier b))
  then bytes_le (acct_KeyType a) (acct_KeyType b)
  else bytes_le (slice_bytes (Identifier a)) (slice_bytes (Identifier b)).

#[export] Instance id_le_dec a b : Decision (id_le a b).
Proof. unfold id_le. destruct (bool_decide _); apply _. Defined.

Definition account_le (a b : Account) : Prop := id_le (acc_ID a) (acc_ID b).
Definition validator_le (a b : Validator) : Prop := id_le (val_ID a) (val_ID b).

#[export] Instance account_le_dec a b : Decision (account_le a b).
Proof. unfold account_le. apply _. Defined.
#[export] Instance validator_le_dec a b : Decision (validator_le a b).
Proof. unfold validator_le. apply _. Defined.

Section hashes.
Context (HashBytes : bytes -> bytes) (reg : registry).

Definition nextAppHash (sh : StateHashes) : bytes :=
  HashBytes (sh_PrevApp sh ++ sh_Changeset sh ++ sh_ValUpdates sh ++ sh_Accounts sh ++
             sh_TxResults sh ++ sh_ParamUpdates sh).

Definition result_preimage (res : TxResult) : bytes :=
  be_bytes 4 (u32 (tr_Code res)) ++ be_bytes 8 (u64 (tr_Gas res)).

Definition txResultsHash (results : list TxResult) : bytes :=
  HashBytes (concat (map result_preimage results)).

Definition account_preimage (acc : Account) : bytes :=
  slice_bytes (AccountID_Bytes reg (acc_ID acc)) ++ big_Bytes (Balance acc) ++ be_bytes 8 (u64 (acc_Nonce acc)).

(** [accounts] is what [Updates] returns, in the order of the map. *)
Definition accountsHash (accounts : list Account) : bytes :=
  HashBytes (concat (map account_preimage (merge_sort account_le accounts))).

Definition consensusUpdatesHash (pu : option ParamUpdates) : result bytes :=
  bts ← ParamUpdates_MarshalBinary reg (default ∅ pu); mret (HashBytes bts).

Definition validator_preimage (up : Validator) : bytes :=
  slice_bytes (Identifier (val_ID up)) ++ be_bytes 8 (u64 (Power up)).

Definition validatorUpdatesHash (updates : list Validator) : bytes * list Validator :=
  let updatesList := merge_sort validator_le updates in
  (HashBytes (concat (map validator_preimage updatesList)), updatesList).
End hashes.

(** ** Peers *)

Definition formatNodeID (id : AccountID) : bytes := PrettyString id.

Definition updatePeers (localPeer : bytes) (valUpdates : list Validator)
    (approvedJoins expiredJoins : list AccountID) : list peer_op :=
  let others := filter (fun id => formatNodeID id <> localPeer) in
  map (fun v => if Power v =? 0 then RemovePeer (formatNodeID (val_ID v)) else AddPeer (formatNodeID (val_ID v)))
    (filter (fun v => formatNodeID (val_ID v) <> localPeer) valUpdates) ++
  map (fun id => AddPeer (formatNodeID id)) (others approvedJoins) ++
  map (fun id => RemovePeer (formatNodeID id)) (others expiredJoins).

(** ** Execution status *)

Definition initBlockExecutionStatus (hashes : list bytes) (height : Z) : blockExecStatus :=
  mkExecStatus height hashes (list_to_map (map (fun h => (h, false)) hashes)).

Definition updateBlockExecutionStatus {C X} (txID : bytes) (p : Processor C X) : Processor C X :=
  match bp_status p with
  | None => p
  | Some s => set_status p (Some (mkExecStatus (bes_height s) (txIDs s) (<[txID := true]> (txStatus s))))
  end.

Section processor.
Context {C : Type} `{HC : Cache (list byte) Account C} {X : Type}.
Context `{HS : Strings} `{HD : Decimals} `{HJ : ParamsCodec}.
#[local] Abbreviation W := (App C X).
#[local] Abbreviation BP := (Processor C X).
Context `{HE : !Engine W}.
Context (N : Node W) (sv : Services C X).
Context (engine : option (admissionEngine X)).
Context (genesisParams : GenesisConfig).
Context (genesisHooks : gmap (list byte) (action W unit)).
Context (endBlockHooks : gmap (list byte) (BlockContext -> action W unit)).

#[local] Abbreviation reg := (nd_keys N).
#[local] Abbreviation HashBytes := (sv_HashBytes sv).

(** ** Checks *)

Definition verifyTransactionWithContext (ctx : VerifyContext) (tx : Transaction) : result unit :=
  match tx_Signature tx with
  | None => Err (ErrMsg "transaction signature is required")
  | Some sig =>
      _ ← ValidateCanonicalAuthType (nd_auth N) (sig_Type sig);
      msg ← Tx_SerializeMsg HashBytes tx;
      VerifySignatureWithContext (nd_auth N) ctx (slice_bytes (Sender tx)) msg (Some sig)
  end.

(** The signature and the chain of a new transaction; of a pending one, only a
    signature that depends on the block. *)
Definition check_signature (ctx : VerifyContext) (tx : Transaction) (body : TransactionBody)
    (sig : Signature) (recheck : bool) : result unit :=
  let verify := wrap_err "failed to verify the transaction" (verifyTransactionWithContext ctx tx) in
  if negb recheck then
    if negb (bool_decide (ChainID body = [])) && negb (bool_decide (ChainID body = gc_ChainID genesisParams))
    then Err (ErrWrap "" ErrWrongChain)
    else verify
  else
    requiresContext ← wrap_err "failed to verify the transaction" (RequiresContext (nd_auth N) (sig_Type sig));
    if (requiresContext : bool) then verify else Ok tt.

Definition checkTx (ntx : Mempool.NodeTx) (height blockTime : Z) (recheck : bool) : action BP unit :=
  let tx := Mempool.ntx_Transaction ntx in
  match tx_Body tx with
  | None => afail (ErrMsg "transaction body is required")
  | Some body =>
  chain ← gets chainCtx;
  let np := NetworkParameters_ chain in
  if bool_decide (MigrationStatus np = MigrationCompleted) then afail ErrMigrationComplete
  else if negb (match Fee body with Some fee => 0 <=? fee | None => false end)
  then afail (ErrWrap "fee cannot be negative or nil" ErrInvalidAmount)
  else match tx_Signature tx with
  | None => afail (ErrMsg "transaction signature is required")
  | Some sig =>
      _ ← alift (wrap_err "failed to verify the transaction" (ValidateCanonicalAuthType (nd_auth N) (sig_Type sig)));
      let blockCtx := mkBlockContext (i64 (height + 1)) [] (i64 (Unix blockTime + 1)) (np_Leader np) in
      _ ← alift (check_signature (mkVerifyContext chain blockCtx [] []) tx body sig recheck);
      ident ← alift (wrap_err "failed to get tx sender identifier"
                       (GetIdentifier (nd_auth N) (sig_Type sig) (slice_bytes (Sender tx))));
      view ← gets (fun p => db_tables (bp_db p));
      on_txapp (ApplyMempool N engine view
        (mkTxContext blockCtx (hex_encode (Mempool.ntx_hash ntx)) (Sender tx) ident (sig_Type sig)) tx)
  end
  end.

Definition CheckTx := checkTx.

Definition RecheckTxs (height timestamp : Z) (mp : Mempool.Mempool) : action BP Mempool.Mempool := fun p =>
  let '(mp', p') := Mempool.RecheckTxs (fun ntx => checkTx ntx height timestamp true) mp p in (Ok mp', p').

(** ** Transactions of the node *)

(** [CreateTransaction], for a payload whose marshalling does not fail. *)
Definition CreateTransaction (payloadType data : bytes) (chainID : bytes) (nonce : Z) : Transaction :=
  mkTransaction None (Some (mkBody [] (Some data) payloadType (Some 0) nonce chainID)) SignedMsgConcat None.

Definition with_fee (fee : Z) (tx : Transaction) : Transaction :=
  match tx_Body tx with
  | None => tx
  | Some b => mkTransaction (tx_Signature tx)
                (Some (mkBody (Tx.Description b) (Tx.Payload b) (PayloadType b) (Some fee) (Nonce b) (ChainID b)))
                (Serialization tx) (Sender tx)
  end.

Definition Tx_Sign (tx : Transaction) : result Transaction :=
  msg ← Tx_SerializeMsg HashBytes tx;
  signature ← sv_Sign sv msg;
  mret (mkTransaction (Some signature) (tx_Body tx) (Serialization tx) (Some (nd_CompactID N))).

Definition signerAccount : AccountID := mkAccountID (Some (nd_CompactID N)) (pk_Type (sv_PubKey sv)).

(** [ids[:limit]] when [len(ids) > limit]. *)
Definition limit_ids {A} (limit : Z) (ids : list A) : result (list A) :=
  if zlen ids <=? limit then Ok ids
  else if limit <? 0 then Err (ErrPanic "slice bounds out of range")
  else Ok (take (Z.to_nat limit) ids).

(** [myPubKey.Equals(leader)]. *)
Definition is_key (key : option PublicKey) : result bool :=
  match key with
  | None => Err (ErrPanic "nil pointer dereference")
  | Some k => Ok (pk_Equals (sv_PubKey sv) k)
  end.

Definition local_validator (vals : list Validator) : bool :=
  existsb (fun val => bool_decide (slice_bytes (Identifier (val_ID val)) = pk_Bytes (sv_PubKey sv)) &&
                      bool_decide (acct_KeyType (val_ID val) = pk_Type (sv_PubKey sv))) vals.

(** The transaction and the identifiers it votes for; nil when there is nothing
    to send or the node cannot send it. *)
Definition PrepareValidatorVoteIDTx : action BP (option (Transaction * list bytes)) :=
  np ← gets netParams;
  isLeader ← alift (is_key (np_Leader np));
  if (isLeader : bool) then mret None
  else
    vals ← gets (fun p => GetValidators (ap_votes (bp_txapp p)));
    if negb (local_validator vals) then mret None
    else
      ids ← gets (fun p => GetUnbroadcastedEvents (db_tables (bp_db p)) (ap_events (bp_txapp p)));
      if zlen ids =? 0 then mret None
      else
        ids ← alift (limit_ids (MaxVotesPerTx np) ids);
        '(bal, nonce) ← awrap "failed to get account info" (on_txapp (AccountInfo N ConsensusTx signerAccount true));
        chain ← gets chainCtx;
        let tx := CreateTransaction PayloadTypeValidatorVoteIDs (ValidatorVoteIDs_MarshalBinary ids)
                    (cc_ChainID chain) (u64 (u64 nonce + 1)) in
        fee ← (fun p => (wrap_err "failed to estimate fee" (Price N tx (bp_txapp p)), p));
        if bal <? fee then mret None
        else
          tx ← alift (wrap_err "failed to sign transaction" (Tx_Sign (with_fee fee tx)));
          mret (Some (tx, ids)).

Definition BroadcastVoteIDTx (broadcast : Transaction -> action BP unit) : action BP unit :=
  r ← PrepareValidatorVoteIDTx;
  match r with
  | None => mret tt
  | Some (tx, ids) =>
      if zlen ids =? 0 then mret tt
      else
        _ ← broadcast tx;
        on_txapp (on_events (MarkBroadcasted ids))
  end.

(** ** Execution *)

(** [txResult.Log], with the error of a failed transaction. *)
Definition error_log (log : bytes) (e : error) : bytes :=
  let resErr := sv_Error sv e in
  let resErr := if bool_decide (take 7 resErr = str "ERROR: ") then resErr else str "ERROR: " ++ resErr in
  (if bool_decide (log = []) then [] else log ++ [x0a]) ++ resErr.

(** The counter of the events that the leader proposed. *)
Definition count_votes (isLeader : bool) (tx : Transaction) : action BP unit :=
  if negb isLeader then mret tt
  else match tx_Body tx with
  | None => afail (ErrPanic "nil pointer dereference")
  | Some body =>
      if bool_decide (PayloadType body = PayloadTypeValidatorVoteBodies) then
        match run_reader ValidatorVoteBodies_read (slice_bytes (Tx.Payload body)) with
        | Err _ => afail (ErrMsg "failed to unmarshal validator votebody tx")
        | Ok votes => modify (fun p => set_txapp p (set_events (bp_txapp p)
                        (UpdateStats (zlen votes) (ap_events (bp_txapp p)))))
        end
      else mret tt
  end.

Definition execute_tx (block : BlockContext) (isLeader cancelled : bool) (tx : Transaction) (txHash : bytes)
  : action BP TxResult :=
  match tx_Signature tx with
  | None => afail (ErrMsg "transaction signature is required")
  | Some sig =>
  _ ← alift (wrap_err "failed to verify block tx" (ValidateCanonicalAuthType (nd_auth N) (sig_Type sig)));
  requiresContext ← alift (wrap_err "failed to inspect block tx authenticator" (RequiresContext (nd_auth N) (sig_Type sig)));
  chain ← gets chainCtx;
  verified ← acatch (alift (if (requiresContext : bool)
                            then verifyTransactionWithContext (mkVerifyContext chain block [] []) tx else Ok tt));
  match verified with
  | Err e =>
      _ ← modify (updateBlockExecutionStatus txHash);
      mret (mkTxResult CodeInvalidSignature 0 (str "ERROR: failed to verify block tx: " ++ sv_Error sv e))
  | Ok _ =>
      identifier ← alift (wrap_err "failed to get identifier for the block tx"
                            (GetIdentifier (nd_auth N) (sig_Type sig) (slice_bytes (Sender tx))));
      if (cancelled : bool) then afail Consensus.ErrCanceled
      else
        let txCtx := mkTxContext block (hex_encode txHash) (Sender tx) identifier (sig_Type sig) in
        res ← (fun p => let '(res, st) := Execute N txCtx tx (bp_txapp p) in (Ok res, set_txapp p st));
        _ ← modify (updateBlockExecutionStatus txHash);
        result ← (match Error res with
                  | None => mret (mkTxResult (ResponseCode res) (TxApp.Spend res) (Log res))
                  | Some e =>
                      if sv_IsFatalDBError sv e then afail (ErrWrap "fatal db error during block execution" e)
                      else mret (mkTxResult (ResponseCode res) (TxApp.Spend res) (error_log (Log res) e))
                  end);
        _ ← count_votes isLeader tx;
        mret result
  end
  end.

(** The loop over the transactions; [cancelled i] is whether the context is
    done before the transaction [i] executes. *)
Fixpoint execute_txs (block : BlockContext) (isLeader : bool) (cancelled : nat -> bool) (i : nat)
    (txs : list (Transaction * bytes)) : action BP (list TxResult) :=
  match txs with
  | [] => mret []
  | (tx, txHash) :: txs' =>
      r ← execute_tx block isLeader (cancelled i) tx txHash;
      rs ← execute_txs block isLeader cancelled (S i) txs';
      mret (r :: rs)
  end.

(** [NetworkUpdates[ParamNameLeader] = newLeader]. *)
Definition announce_leader (newLeader : option PublicKey) : action BP unit :=
  match newLeader with
  | None => mret tt
  | Some k =>
      updates ← gets (fun p => NetworkUpdates (chainCtx p));
      match updates with
      | None => afail (ErrPanic "assignment to entry in nil map")
      | Some u => modify (fun p => set_txapp p (set_updates (bp_txapp p) (<[ParamNameLeader := PVKey (Some k)]> u)))
      end
  end.

(** [MergeUpdates(params, updates)]. *)
Definition merged_params (p : BP) : result unit * NetworkParameters :=
  MergeUpdates (map_to_list (default ∅ (NetworkUpdates (chainCtx p)))) (netParams p).

(** From the end of the transactions to the precommitted changes. *)
Definition finish_block (req : BlockExecRequest) (block : BlockContext)
  : action BP (list AccountID * list AccountID) :=
  joins ← awrap "failed to finalize the block execution" (on_txapp (Finalize N endBlockHooks block));
  d ← gets bp_db;
  _ ← awrap "failed to notify the migrator about the block height" (on_txapp (sv_NotifyHeight sv d block));
  newParams ← gets merged_params;
  _ ← alift (fst newParams);
  appHash ← gets bp_appHash;
  _ ← on_meta (fun m => Ok (SetChainState (req_Height req) (Some appHash) true m));
  _ ← awrap "failed to store the network parameters" (on_meta (StoreParams (snd newParams)));
  mret joins.

(** The hashes of the executed block. *)
Definition compute_hashes (valUpdatesHash : bytes) (txResults : list TxResult) (p : BP) : result StateHashes :=
  let st := bp_txapp p in
  paramUpdatesHash ← wrap_err "failed to compute the consensus updates hash"
    (consensusUpdatesHash HashBytes reg (NetworkUpdates (chainCtx p)));
  mret (mkStateHashes (bp_appHash p) (sv_Precommit sv (bp_db p) st (bp_meta p)) valUpdatesHash
          (accountsHash HashBytes reg (Updates (map_to_list (updates (ap_accounts st)))))
          (txResultsHash HashBytes txResults) paramUpdatesHash).

Definition execute_block (req : BlockExecRequest) (isSyncing : bool) (cancelled : nat -> bool)
  : action BP BlockExecResult :=
  let blk := req_Block req in
  _ ← announce_leader (NewLeader (Header blk));
  inMigration ← gets (fun p => bool_decide (MigrationStatus (netParams p) = MigrationInProgress));
  isLeader ← alift (is_key (req_Proposer req));
  let block := mkBlockContext (req_Height req) (req_BlockID req) (Unix (Timestamp (Header blk))) (req_Proposer req) in
  if existsb (fun tx => match tx_Signature tx with None => true | Some _ => false end) (Txns blk)
  then afail (ErrMsg "transaction signature is required")
  else
    let hashes := map (Tx_Hash HashBytes) (Txns blk) in
    _ ← modify (fun p => set_status p (Some (initBlockExecutionStatus hashes (bh_Height (Header blk)))));
    txResults ← execute_txs block isLeader cancelled 0 (zip (Txns blk) hashes);
    _ ← (match sv_broadcastTxFn sv with
         | Some broadcast =>
             if isSyncing then mret tt
             else awrap "failed to broadcast the voteID transactions" (BroadcastVoteIDTx broadcast)
         | None => mret tt
         end);
    '(approvedJoins, expiredJoins) ← finish_block req block;
    '(valUpdatesHash, valUpdates) ← gets (fun p =>
      validatorUpdatesHash HashBytes (map_to_list (ValidatorUpdates (ap_votes (bp_txapp p)))).*2);
    _ ← modify (fun p => add_peers p (updatePeers (formatNodeID signerAccount) valUpdates approvedJoins expiredJoins));
    sh ← (fun p => (compute_hashes valUpdatesHash txResults p, p));
    _ ← modify (fun p => set_stateHashes p (Some sh));
    _ ← (if (inMigration : bool)
         then alift (wrap_err "failed to store changesets during migration" (sv_StoreChangesets sv (req_Height req)))
         else mret tt);
    updates ← gets (fun p => NetworkUpdates (chainCtx p));
    mret (mkExecResult txResults (nextAppHash HashBytes sh) valUpdates (default ∅ updates)).

(** [ExecuteBlock]; without success the consensus transaction is rolled back. *)
Definition ExecuteBlock (req : BlockExecRequest) (isSyncing : bool) (cancelled : nat -> bool)
  : action BP BlockExecResult :=
  _ ← modify (fun p => set_syncing p isSyncing);
  _ ← awrap "failed to begin the consensus transaction" begin_tx;
  _ ← modify (fun p => set_consensusTx p true);
  on_failure (execute_block req isSyncing cancelled) (fun p => set_consensusTx (drop_tx p) false).

(** ** Commit and rollback *)

Definition with_chain (f : ChainContext -> ChainContext) (p : BP) : BP :=
  let st := bp_txapp p in
  set_txapp p (mkApp (ap_accounts st) (ap_votes st) (ap_tables st) (ap_events st) (ap_engine st)
                 (f (ap_chain st)) (ap_mempool st) (ap_approvedJoins st)).

(** The parameters in force and an empty map of updates. *)
Definition set_params (np : NetworkParameters) (c : ChainContext) : ChainContext :=
  mkChainContext (cc_ChainID c) np (Some ∅) (MigrationParams c).

(** The last part of [Commit]: the app hash in a transaction of its own. *)
Definition store_app_hash (height : Z) (appHash : bytes) : action BP unit :=
  _ ← begin_tx;
  on_failure
    (_ ← on_meta (fun m => Ok (SetChainState height (Some appHash) false m));
     _ ← (fun p => match sv_PersistLastChangesetHeight sv height (ap_engine (bp_txapp p)) with
                   | Err e => (Err e, p)
                   | Ok x => let st := bp_txapp p in
                       (Ok tt, set_txapp p (mkApp (ap_accounts st) (ap_votes st) (ap_tables st) (ap_events st) x
                                  (ap_chain st) (ap_mempool st) (ap_approvedJoins st)))
                   end);
     commit_tx) drop_tx.

(** The first part of [Commit]; the iteration orders of the maps of accounts and
    validators are those of [map_to_list]. *)
Definition commit_state (height : Z) (appHash : bytes) : action BP unit :=
  open ← gets consensusTx;
  if negb open then afail (ErrPanic "nil pointer dereference")
  else
    _ ← commit_tx;
    _ ← modify (fun p => set_consensusTx p false);
    _ ← modify (fun p => with_chain (set_params (snd (merged_params p))) p);
    _ ← modify (fun p => let st := bp_txapp p in
          set_txapp p (Finalize.Commit (map_to_list (updates (ap_accounts st)))
                         (map_to_list (valUpdates (ap_votes st))) st));
    modify (fun p => set_chain p height appHash).

Definition Commit (height : Z) (appHash : bytes) : action BP unit :=
  _ ← commit_state height appHash;
  _ ← store_app_hash height appHash;
  modify (fun p => set_status p None).

(** The handle of the consensus transaction stays set. *)
Definition Rollback (height : Z) (appHash : bytes) : action BP unit :=
  open ← gets consensusTx;
  _ ← (if (open : bool) then awrap "failed to rollback the consensus transaction" rollback_tx else mret tt);
  _ ← modify (fun p => set_chain p height appHash);
  m ← gets (fun p => db_meta (bp_db p));
  networkParams ← alift (wrap_err "failed to load the network parameters" (LoadParams m));
  _ ← modify (with_chain (set_params networkParams));
  modify (fun p => set_txapp p (Finalize.Rollback (bp_txapp p))).

Definition Close : action BP unit :=
  open ← gets consensusTx;
  if (open : bool) then awrap "failed to rollback the consensus transaction" rollback_tx else mret tt.

(** ** Start *)

Definition set_genesis (np : NetworkParameters) (c : ChainContext) : ChainContext :=
  mkChainContext (cc_ChainID c) np (NetworkUpdates c) (MigrationParams c).

Definition InitChain : action BP (Z * slice) :=
  let height := InitialHeight genesisParams in
  let stateHash := StateHash genesisParams in
  _ ← awrap "failed to begin the genesis transaction" begin_tx;
  _ ← on_failure
    (_ ← on_txapp (GenesisInit N genesisHooks genesisParams);
     _ ← on_meta (fun m => Ok (SetChainState height stateHash false m));
     _ ← modify (with_chain (set_genesis (gc_Params genesisParams)));
     _ ← awrap "error storing the genesis network parameters" (on_meta (StoreParams (gc_Params genesisParams)));
     _ ← modify (fun p => let st := bp_txapp p in
           set_txapp p (Finalize.Commit (map_to_list (updates (ap_accounts st)))
                          (map_to_list (valUpdates (ap_votes st))) st));
     commit_tx) drop_tx;
  _ ← modify (fun p => set_chain p height
        (match stateHash with Some h => copy_hash (bp_appHash p) h | None => zero_hash end));
  mret (height, stateHash).

(** [NewBlockProcessor] on the modules of a node and its database: nil when a
    dirty state has no commit info.  [getByHeight] is the block store. *)
Definition NewBlockProcessor (getByHeight : Z -> result (option CommitInfo)) (txapp : W) (d : database X)
  : result (option BP) :=
  let '(height, appHash, dirty) := GetChainState (db_meta d) in
  r ← (if (dirty : bool) then
         ci ← getByHeight height;
         match ci with
         | None => mret None
         | Some ci =>
             x ← sv_PersistLastChangesetHeight sv height (db_engine d);
             let hash := slice_bytes appHash in
             mret (Some (SetChainState height (Some (ci_AppHash ci)) false (db_meta d), x,
                         take (length hash) (ci_AppHash ci) ++ drop (length (ci_AppHash ci)) hash))
         end
       else mret (Some (db_meta d, db_engine d, slice_bytes appHash)));
  match r with
  | None => mret None
  | Some (m, x, hash) =>
      networkParams ← (match LoadParams m with
                       | Ok np => Ok np
                       | Err e => if errors_is e ErrParamsNotFound then Ok (gc_Params genesisParams)
                                  else Err (ErrWrap "failed to load the network parameters" e)
                       end);
      let '(startHeight, endHeight) := gc_Migration genesisParams in
      let migrationParams := if negb (startHeight =? 0) && negb (endHeight =? 0) then Some (startHeight, endHeight) else None in
      let d' := mkDatabase (db_tables d) x m in
      let st := committed_app d' txapp in
      let chain := mkChainContext (gc_ChainID genesisParams) networkParams None migrationParams in
      mret (Some (mkProcessor
        (mkApp (ap_accounts st) (ap_votes st) (ap_tables st) (ap_events st) (ap_engine st) chain
           (ap_mempool st) (ap_approvedJoins st))
        m d' false false (copy_hash zero_hash hash) height None None false []))
  end.

(** ** Reads *)

Definition bp_GetValidators (p : BP) : list Validator := GetValidators (ap_votes (bp_txapp p)).
Definition ConsensusParams (p : BP) : NetworkParameters := netParams p.
End processor.
