(* ===== verification/Proposal.v ===== *)
(** * Preparing a proposal

    [PrepareProposal] of src/node/block_processor/processor.go and the rest of
    transactions.go: the transactions that the leader takes from the mempool,
    grouped by sender and sorted by nonce in place, the checks that drop some of
    them, the vote body transaction for the leader's events, and the size limit.
    With it the operations of the block processor are complete: the instance at
    the end gives them to the consensus engine. *)

From S2P Require Import Prelude.
From S2P Require Import Wire.
From S2P Require Import Keys.
From S2P Require Import Ident.
From S2P Require Import Tx.
From S2P Require Import Params.
From S2P Require Import Payloads.
From S2P Require Import Values.
From S2P Require Import Auth.
From S2P Require Import Cache.
From S2P Require Import Accounts.
From S2P Require Import Voting.
From S2P Require Import Events.
From S2P Require Mempool.
From S2P Require Consensus.
From S2P Require Import TxApp.
From S2P Require Import Admission.
From S2P Require Import Finalize.
From S2P Require Import Stable.
From S2P Require Import Processor.
From Stdlib Require Import Strings.Byte.

#[local] Open Scope Z_scope.

(** ** Sorting by nonce *)

(** [it_i] is the position at which the transaction was first placed. *)
Record indexedTxn := mkIndexed {
  it_i : nat;
  it_Transaction : Transaction;
  it_Body : TransactionBody;
  it_sz : Z;
  it_hash : bytes
}.

(** The group and the list of all transactions. *)
Definition txSubList : Type := list indexedTxn * list indexedTxn.

Definition txl_Less (txl : txSubList) (i j : nat) : bool :=
  match txl.1 !! i, txl.1 !! j with
  | Some a, Some b => Nonce (it_Body a) <? Nonce (it_Body b)
  | _, _ => false
  end.

(** [l[i], l[j] = l[j], l[i]] *)
Definition swap_at {A} (i j : nat) (l : list A) : list A :=
  match l !! i, l !! j with
  | Some x, Some y => <[i := y]> (<[j := x]> l)
  | _, _ => l
  end.

(** The positions in the list come from the fields of the swapped elements,
    which no swap changes. *)
Definition txl_Swap (i j : nat) (txl : txSubList) : txSubList :=
  let sub := swap_at i j txl.1 in
  match sub !! i, sub !! j with
  | Some a, Some b => (sub, swap_at (it_i a) (it_i b) txl.2)
  | _, _ => (sub, txl.2)
  end.

Definition sender_of (tx : indexedTxn) : bytes := slice_bytes (Sender (it_Transaction tx)).

Definition sort_group (okTxns : list indexedTxn) (super : list indexedTxn) (sender : bytes) : list indexedTxn :=
  let group := filter (fun tx => sender_of tx = sender) okTxns in
  snd (Stable txl_Less txl_Swap (length group) (group, super)).

(** The groups are at disjoint positions: the order in which the map lists them
    does not matter. *)
Definition sort_by_nonce (okTxns : list indexedTxn) : list indexedTxn :=
  foldl (sort_group okTxns) okTxns (remove_dups (map sender_of okTxns)).

Fixpoint index_txs (i : nat) (txs : list Mempool.NodeTx) : list indexedTxn * list Transaction :=
  match txs with
  | [] => ([], [])
  | ntx :: txs' =>
      let tx := Mempool.ntx_Transaction ntx in
      match tx_Body tx with
      | None => let '(ok, invalid) := index_txs i txs' in (ok, tx :: invalid)
      | Some body =>
          let '(ok, invalid) := index_txs (S i) txs' in
          (mkIndexed i tx body (zlen (serialize tx)) (Mempool.ntx_hash ntx) :: ok, invalid)
      end
  end.

(** What the loop over the sorted transactions collects. *)
Record prepared := mkPrepared {
  lastNonce : gmap (list byte) Z;
  propTxs : list indexedTxn;
  otherTxns : list indexedTxn;
  proposerNonce : Z;
  invalidTxs : list Transaction
}.

Definition drop_tx_as_invalid (tx : indexedTxn) (r : prepared) : prepared :=
  mkPrepared (lastNonce r) (propTxs r) (otherTxns r) (proposerNonce r) (invalidTxs r ++ [it_Transaction tx]).

(** ** Size limits *)

(** The proposer's own transactions, up to the first that does not fit. *)
Fixpoint take_prefix (maxTxBytes : Z) (txs : list indexedTxn) : list Transaction * Z :=
  match txs with
  | [] => ([], maxTxBytes)
  | tx :: txs' =>
      if maxTxBytes <? it_sz tx then ([], maxTxBytes)
      else let '(l, rest) := take_prefix (maxTxBytes - it_sz tx) txs' in (it_Transaction tx :: l, rest)
  end.

(** Once a transaction of a sender does not fit, the sender is skipped. *)
Fixpoint take_fitting (maxTxBytes : Z) (skipped : gset (list byte)) (txs : list indexedTxn) : list Transaction :=
  match txs with
  | [] => []
  | tx :: txs' =>
      if bool_decide (sender_of tx ∈ skipped) then take_fitting maxTxBytes skipped txs'
      else if maxTxBytes <? it_sz tx then take_fitting maxTxBytes ({[sender_of tx]} ∪ skipped) txs'
      else it_Transaction tx :: take_fitting (maxTxBytes - it_sz tx) skipped txs'
  end.

(** The events whose estimated sizes fit. *)
Fixpoint take_events (maxTxSize : Z) (events : list VotableEvent) : list VotableEvent :=
  match events with
  | [] => []
  | evt :: events' =>
      let evtSz := 4 + 4 + zlen (ev_Type evt) + zlen (slice_bytes (ev_Body evt)) in
      if maxTxSize <? evtSz then [] else evt :: take_events (maxTxSize - evtSz) events'
  end.

Section proposal.
Context {C : Type} `{HC : Cache (list byte) Account C} {X : Type}.
Context `{HS : Strings} `{HD : Decimals} `{HJ : ParamsCodec}.
#[local] Abbreviation W := (App C X).
#[local] Abbreviation BP := (Processor C X).
Context `{HE : !Engine W}.
Context (N : Node W) (sv : Services C X).
Context (engine : option (admissionEngine X)).
Context (genesisParams : GenesisConfig).
Context (endBlockHooks : gmap (list byte) (BlockContext -> action W unit)).

(** ** The checks of a transaction *)

(** An authenticator that is unknown or whose signature does not hold in the
    proposed block. *)
Definition check_context (ctx : VerifyContext) (tx : Transaction) (sig : Signature) : result unit :=
  requiresContext ← RequiresContext (nd_auth N) (sig_Type sig);
  if (requiresContext : bool) then verifyTransactionWithContext N sv ctx tx else Ok tt.

(** A vote ID transaction with at most the allowed number of votes. *)
Definition votes_allowed (np : NetworkParameters) (body : TransactionBody) : bool :=
  if bool_decide (PayloadType body = PayloadTypeValidatorVoteIDs) then
    match ValidatorVoteIDs_UnmarshalBinary (slice_bytes (Tx.Payload body)) with
    | Err _ => false
    | Ok ids => zlen ids <=? MaxVotesPerTx np
    end
  else true.

Inductive funding := Funded | Unfunded | Unknown.

(** The sender's account, in a network with gas costs. *)
Definition check_funds (np : NetworkParameters) (tx : Transaction) : action BP funding :=
  if DisabledGasCosts np then mret Funded
  else
    r ← acatch (ident ← alift (TxSenderAcctID N tx); on_txapp (AccountInfo N ReadTx ident false));
    match r with
    | Err _ => mret Unknown
    | Ok (balance, nonce) => mret (if (nonce =? 0) && (balance =? 0) then Unfunded else Funded)
    end.

Definition keep_tx (tx : indexedTxn) (sig : Signature) (r : prepared) : prepared :=
  let nonce := Nonce (it_Body tx) in
  let last := <[sender_of tx := nonce]> (lastNonce r) in
  if bool_decide (sender_of tx = nd_CompactID N) && bool_decide (sig_Type sig = nd_AuthType N)
  then mkPrepared last (propTxs r ++ [tx]) (otherTxns r) nonce (invalidTxs r)
  else mkPrepared last (propTxs r) (otherTxns r ++ [tx]) (proposerNonce r) (invalidTxs r).

Definition select_tx (verifyCtx : VerifyContext) (tx : indexedTxn) (r : prepared) : action BP prepared :=
  let t := it_Transaction tx in
  let invalid := mret (drop_tx_as_invalid tx r) in
  match tx_Signature t with
  | None => invalid
  | Some sig =>
  if negb (match Fee (it_Body tx) with Some fee => 0 <=? fee | None => false end) then invalid
  else
    auth ← acatch (alift (check_context verifyCtx t sig));
    match auth with
    | Err _ => invalid
    | Ok _ =>
        if bool_decide (lastNonce r !! sender_of tx = Some (Nonce (it_Body tx))) then invalid
        else
          np ← gets netParams;
          if negb (votes_allowed np (it_Body tx)) then invalid
          else
            funds ← check_funds np t;
            match funds with
            | Unknown => mret r
            | Unfunded => invalid
            | Funded => mret (keep_tx tx sig r)
            end
    end
  end.

Fixpoint select_txs (verifyCtx : VerifyContext) (txs : list indexedTxn) (r : prepared) : action BP prepared :=
  match txs with
  | [] => mret r
  | tx :: txs' => r' ← select_tx verifyCtx tx r; select_txs verifyCtx txs' r'
  end.

(** ** The vote body transaction *)

Definition voteBodyTx (chainID : bytes) (events : list VotableEvent) (nonce : Z) : Transaction :=
  CreateTransaction PayloadTypeValidatorVoteBodies (ValidatorVoteBodies_MarshalBinary events) chainID nonce.

Definition emptyVoteBodyTxSize (chainID : bytes) : result Z :=
  tx ← Tx_Sign N sv (voteBodyTx chainID [] 0); mret (zlen (serialize tx)).

(** The events in the order of the query; those of one identifier are the last
    one of the list. *)
Definition events_by_id (events : list VotableEvent) : gmap (list byte) VotableEvent :=
  foldl (fun m e => <[event_id N e := e]> m) ∅ events.

Fixpoint find_events (m : gmap (list byte) VotableEvent) (ids : list bytes) : result (list VotableEvent) :=
  match ids with
  | [] => Ok []
  | id :: ids' =>
      match m !! id with
      | None => Err (ErrMsg "event not found in event map")
      | Some e => es ← find_events m ids'; mret (e :: es)
      end
  end.

Definition prepareValidatorVoteBodyTx (nonce maxTxSize : Z) : action BP (option Transaction) :=
  '(bal, n) ← on_txapp (AccountInfo N ReadTx (signerAccount N sv) false);
  let nonce := if nonce =? 0 then n else nonce in
  events ← gets (fun p => GetEvents (db_tables (bp_db p)) (ap_events (bp_txapp p)));
  np ← gets netParams;
  chain ← gets chainCtx;
  if zlen events =? 0 then mret None
  else if negb (DisabledGasCosts np) && (n =? 0) && (bal =? 0) then mret None
  else
    ids ← alift (limit_ids (MaxVotesPerTx np) (map (event_id N) events));
    emptyTxSz ← alift (emptyVoteBodyTxSize (cc_ChainID chain));
    proposed ← alift (find_events (events_by_id events) ids);
    let finalEvents := take_events (i64 (maxTxSize - emptyTxSz)) proposed in
    if (zlen finalEvents =? 0) && (0 <? zlen ids) then mret None
    else
      let tx := voteBodyTx (cc_ChainID chain) finalEvents (u64 (u64 nonce + 1)) in
      fee ← (fun p => (Price N tx (bp_txapp p), p));
      tx ← alift (Tx_Sign N sv (with_fee fee tx));
      mret (Some tx).

(** ** The proposal *)

Definition prepareBlockTransactions (txs : list Mempool.NodeTx) (blockTime : Z)
  : action BP (list Transaction * list Transaction) :=
  chain ← gets chainCtx;
  height ← gets bp_height;
  let verifyCtx := mkVerifyContext chain
    (mkBlockContext (i64 (height + 1)) [] (Unix blockTime) (Some (sv_PubKey sv))) [] [] in
  let '(okTxns, invalid) := index_txs 0 txs in
  r ← select_txs verifyCtx (sort_by_nonce okTxns) (mkPrepared ∅ [] [] 0 invalid);
  np ← gets netParams;
  let '(own, maxTxBytes) := take_prefix (MaxBlockSize np) (propTxs r) in
  voteBody ← awrap "failed to prepare validator vote body transaction"
    (prepareValidatorVoteBodyTx (i64 (proposerNonce r)) maxTxBytes);
  let injected := option_list voteBody in
  let maxTxBytes := maxTxBytes - match voteBody with Some tx => zlen (serialize tx) | None => 0 end in
  mret (own ++ injected ++ take_fitting maxTxBytes ∅ (otherTxns r), invalidTxs r).

Definition PrepareProposal := prepareBlockTransactions.

(** ** The interface of the consensus engine *)

#[export] Instance processor_interface : Consensus.BlockProcessor BP := {|
  Consensus.bp_PrepareProposal := PrepareProposal;
  Consensus.bp_ExecuteBlock req isSyncing := ExecuteBlock N sv endBlockHooks req isSyncing (fun _ => false);
  Consensus.bp_Commit height appHash _ := Commit sv height appHash;
  Consensus.bp_Rollback := Rollback;
  Consensus.bp_CheckTx := CheckTx N sv engine genesisParams;
  Consensus.bp_RecheckTxs := RecheckTxs N sv engine genesisParams;
  Consensus.bp_GetValidators := bp_GetValidators;
  Consensus.bp_ConsensusParams := ConsensusParams
|}.
End proposal.
