(* ===== verification/ProcessorFacts.v ===== *)
(** * What a block changes

    The block processor between two blocks is in a state that its database
    determines.  Whatever a block does, its rollback restores that state; its
    commit reaches the next one, and a crash in the middle of a commit is
    repaired by the next start. *)

From S2P Require Import Prelude.
From S2P Require Import Wire.
From S2P Require Import Keys.
From S2P Require Import Ident.
From S2P Require Import Order.
From S2P Require Import Tx.
From S2P Require Import Block.
From S2P Require Import Params.
From S2P Require Import Payloads.
From S2P Require Import Values.
From S2P Require Import Auth.
From S2P Require Import Commit.
From S2P Require Import Cache.
From S2P Require Import Accounts.
From S2P Require Import Records.
From S2P Require Import Voting.
From S2P Require Import Events.
From S2P Require Mempool.
From S2P Require Import TxApp.
From S2P Require Import TxFacts.
From S2P Require Import Admission.
From S2P Require Import Finalize.
From S2P Require Import Processor.
From Stdlib Require Import Strings.Byte.

#[local] Open Scope Z_scope.

(** ** Order of accounts and validators *)

(** The identifier and the key type. *)
Definition id_key (a : AccountID) : bytes * KeyType := (slice_bytes (Identifier a), acct_KeyType a).

Lemma id_le_antisymm a b : id_le a b -> id_le b a -> id_key a = id_key b.
Proof.
  unfold id_le, id_key. repeat case_bool_decide; try congruence; intros H1 H2.
  - f_equal; [done|by apply (anti_symm bytes_le)].
  - exfalso. by apply H, (anti_symm bytes_le).
Qed.

#[export] Instance id_le_total : Total id_le.
Proof. intros a b. unfold id_le. repeat case_bool_decide; try congruence; apply (total bytes_le). Qed.

#[export] Instance id_le_trans : Transitive id_le.
Proof.
  intros a b c. unfold id_le.
  case_bool_decide as Eab; case_bool_decide as Ebc; case_bool_decide as Eac; try congruence; intros H1 H2.
  - by etransitivity.
  - exfalso. apply Eab, (anti_symm bytes_le); congruence.
  - by etransitivity.
Qed.

#[export] Instance account_le_trans : Transitive account_le.
Proof. intros a b c. apply id_le_trans. Qed.
#[export] Instance account_le_total : Total account_le.
Proof. intros a b. apply id_le_total. Qed.
#[export] Instance validator_le_trans : Transitive validator_le.
Proof. intros a b c. apply id_le_trans. Qed.
#[export] Instance validator_le_total : Total validator_le.
Proof. intros a b. apply id_le_total. Qed.

(** Whatever algorithm sorts the values of a map, and in whatever order it gets
    them, the result is the same when the keys of the order tell entries apart. *)
Lemma sorted_values_unique {A} (R : relation A) `{!RelDecision R, !Transitive R, !Total R} (m : gmap (list byte) A) (l : list A) :
  (forall k k' v v', m !! k = Some v -> m !! k' = Some v' -> R v v' -> R v' v -> k = k') ->
  l ≡ₚ (map_to_list m).*2 -> Sorted R l -> l = merge_sort R (map_to_list m).*2.
Proof.
  intros Hkey Hp Hs. apply (Sorted_unique_strong R); [|done|by apply Sorted_merge_sort|by rewrite merge_sort_Permutation].
  intros x y Hx Hy Hxy Hyx. rewrite Hp in Hx. rewrite merge_sort_Permutation in Hy.
  apply list_elem_of_fmap in Hx as ([k v] & -> & Hv%elem_of_map_to_list), Hy as ([k' v'] & -> & Hv'%elem_of_map_to_list).
  cbn in *. assert (k = k') as <- by eauto. congruence.
Qed.

(** ** Accounts *)

Section accounts.
Context {C : Type} `{HC : Cache (list byte) Account C} (reg : registry).

(** Every update is under the key of its account. *)
Definition keyed (a : Accounts C) : Prop :=
  forall k acct, updates a !! k = Some acct -> k = acctMapKey (acc_ID acct).

(** The committed table stays, and the updates stay keyed. *)
Definition same_db (a a' : Accounts C) : Prop := db_table a' = db_table a /\ (keyed a -> keyed a').

#[export] Instance same_db_preorder : PreOrder same_db.
Proof. split; [done|]. intros a b c [E K] [E' K']. split; [congruence|auto]. Qed.

Lemma set_update_keyed a t acct : keyed a -> keyed (set_update (set_table a t) (acctMapKey (acc_ID acct)) acct).
Proof. intros K k acct'. cbn. intros [[<- <-]|[_ E]]%lookup_insert_Some; [done|by apply K]. Qed.

Lemma getAccount_db ex id u : acts same_db (getAccount reg ex id u).
Proof.
  intros a. unfold getAccount. destruct (if u then _ else _); [done|].
  destruct (c_get (records a) _) as [[acct|] recs]; [done|]. by destruct (sql_getAccount _ _ _).
Qed.

Lemma GetAccount_db ex id : acts same_db (GetAccount reg ex id).
Proof.
  intros a. unfold GetAccount. pose proof (getAccount_db ex id false a) as H.
  destruct (getAccount reg ex id false a) as [[acct|e] a']; [done|]. by case_bool_decide.
Qed.

Lemma createAccount_db id amt n : acts same_db (createAccount reg id amt n).
Proof.
  intros a. unfold createAccount. destruct (KeyTypeDefinition _ _); [|done]. destruct (sql_createAccount _ _ _ _ _); [|done].
  split; [done|]. apply (set_update_keyed a _ (mkAccount id amt n)).
Qed.

Lemma updateAccount_db id amt n : acts same_db (updateAccount reg id amt n).
Proof.
  intros a. unfold updateAccount. destruct (KeyTypeDefinition _ _); [|done]. destruct (sql_updateAccount _ _ _ _ _); [|done].
  split; [done|]. apply (set_update_keyed a _ (mkAccount id amt n)).
Qed.

Lemma recordSpend_db id amt n : acts same_db (recordSpend id amt n : action (Accounts C) unit).
Proof. done. Qed.
#[local] Hint Resolve getAccount_db createAccount_db updateAccount_db recordSpend_db : acts.

Lemma Credit_db id amt : acts same_db (Credit reg id amt).
Proof. unfold Credit. act. Qed.

Lemma Spend_db id amt n : acts same_db (Spend_ reg id amt n).
Proof. unfold Spend_. act. Qed.

Lemma Transfer_db from to amt : acts same_db (Accounts.Transfer reg from to amt).
Proof.
  unfold Accounts.Transfer. destruct amt as [amt|]; [|act]. destruct (amt <? 0); [act|].
  assert (acts same_db (Transfer_body reg from to amt)) as H by (unfold Transfer_body; act).
  intros a. unfold nested_tx. specialize (H a). by destruct (Transfer_body reg from to amt a) as [[]].
Qed.
End accounts.

(** ** The application *)

Section frame.
Context {C X : Type} (reg : registry).
#[local] Abbreviation W := (App C X).

(** What no operation of a block changes before its commit. *)
Definition frame (st : W) :=
  (validatorSet (ap_votes st), db_table (ap_accounts st), cc_ChainID (ap_chain st), MigrationParams (ap_chain st)).

(** Updates of accounts and validators are under the keys of what they update. *)
Definition updates_keyed (st : W) : Prop :=
  keyed (ap_accounts st) /\
  forall k v, valUpdates (ap_votes st) !! k = Some v -> encodePubKey reg (Identifier (val_ID v)) (acct_KeyType (val_ID v)) = Ok k.

Definition keeps (st st' : W) : Prop := frame st' = frame st /\ (updates_keyed st -> updates_keyed st').

#[export] Instance keeps_preorder : PreOrder keeps.
Proof. split; [done|]. intros a b c [E K] [E' K']. split; [congruence|auto]. Qed.

Lemma db_only_keeps (st st' : W) : db_only st st' -> keeps st st'.
Proof. by intros (t & d & x & ->). Qed.

Lemma restore_keeps (st st' : W) : keeps st st' -> keeps st (restore st st').
Proof. done. Qed.

Lemma on_accounts_keeps {A} (m : action (Accounts C) A) : acts same_db m -> acts keeps (on_accounts m : action W A).
Proof.
  intros H st. unfold on_accounts. specialize (H (ap_accounts st)). destruct (m (ap_accounts st)) as [r a].
  cbn [snd] in H. destruct H as [E K]. split; [unfold frame; cbn; by rewrite E|]. intros [Ka Kv]. split; [by apply K|done].
Qed.

Lemma on_tables_keeps f : acts keeps (on_tables f : action W unit).
Proof. intros st. unfold on_tables. by destruct (f (ap_tables st)). Qed.

Lemma on_events_keeps {A} (m : action EventStore A) : acts keeps (on_events m : action W A).
Proof. intros st. unfold on_events. by destruct (m (ap_events st)). Qed.

Lemma SetValidatorPower_keeps uuid pk kt p :
  acts keeps (on_voting (SetValidatorPower reg uuid pk kt p) : action W unit).
Proof.
  intros st. unfold on_voting, SetValidatorPower. destruct (p <? 0); [done|].
  destruct (encodePubKey reg pk kt) as [n|] eqn:E; [|done]. destruct (if p =? 0 then _ else _); [|done].
  split; [done|]. intros [Ka Kv]. split; [done|]. intros k v. cbn. intros [[<- <-]|[_ Hk]]%lookup_insert_Some; [done|by apply Kv].
Qed.
End frame.

#[export] Hint Resolve on_tables_keeps on_events_keeps SetValidatorPower_keeps on_accounts_keeps
  GetAccount_db Credit_db Spend_db Transfer_db : acts.

Section app.
Context {C : Type} `{HC : Cache (list byte) Account C} {X : Type}.
Context `{HS : Strings} `{HD : Decimals}.
#[local] Abbreviation W := (App C X).
Context `{HE : !Engine W}.
Context (N : Node W) (HN : node_ok N).
#[local] Abbreviation reg := (nd_keys N).
Implicit Types (st : W) (tx : Transaction).

Lemma spend_rest_keeps id n nf : acts (keeps reg) (spend_rest N id n nf : action W _).
Proof. unfold spend_rest, refused. act. Qed.

Lemma checkAndSpend_keeps tx price : acts (keeps reg) (checkAndSpend N tx price : action W _).
Proof.
  pose proof spend_rest_keeps. unfold checkAndSpend, refused. act.
Qed.

Lemma InTx_keeps ty d fields ctx tx st : getRoute N ty = Some d -> keeps reg st (snd (rt_InTx d fields ctx tx st)).
Proof using HN.
  intros [Hd|[->| ->]]%getRoute_cases.
  - by apply db_only_keeps, (db_routes_keep N HN).
  - cbn [rt_InTx transferRoute]. unfold transfer_InTx, mbind, task_bind, tpure, tlift, tcoded, alift.
    destruct (TxSenderAcctID N tx) as [from|e]; [|done]. destruct fields as [[to|] amt]; cbn [fst snd]; [|done].
    pose proof (on_accounts_keeps (X := X) reg _ (Transfer_db reg from to (Some amt)) st) as H.
    by destruct (on_accounts _ st) as [[[]|e] st'].
  - cbn [rt_InTx validatorLeaveRoute]. destruct (leave_InTx_cases N fields ctx tx st) as [->|(kt & vt & -> & _ & _ & E)];
      [done|]. pose proof (SetValidatorPower_keeps reg (nd_uuid N) (Sender tx) kt 0 st) as H.
    unfold on_voting in H. by rewrite E in H.
Qed.

Lemma run_route_keeps ty d ctx sp tx st : getRoute N ty = Some d -> keeps reg st (snd (run_route d ctx sp tx st)).
Proof using HN.
  intros Hd. unfold run_route. pose proof (PreTx_reads N ty d ctx tx st Hd) as Hpre.
  destruct (rt_PreTx d ctx tx st) as [[fields|code log e] st1]; cbn [snd] in Hpre; subst st1; [|done].
  pose proof (InTx_keeps ty d fields ctx tx st Hd) as H. by destruct (rt_InTx d fields ctx tx st) as [[log|code log e] st2].
Qed.

Lemma Execute_keeps ctx tx st : keeps reg st (snd (Execute N ctx tx st)).
Proof using HN.
  unfold Execute. destruct (tx_Signature tx); [|done]. destruct (tx_Body tx) as [body|]; [|done].
  destruct (ValidatePayloadEncoding _ _ _); [|done]. destruct (getRoute N _) as [d|] eqn:Hd; [|done].
  destruct (track_joins N body tx st) as [js ->]. transitivity (set_joins st js); [done|].
  unfold baseRoute_Execute. pose proof (checkAndSpend_keeps tx (rt_Price d) (set_joins st js)) as H.
  destruct (checkAndSpend N tx (rt_Price d) (set_joins st js)) as [[[[sp code] [e|]]|e] st1]; cbn [snd] in *.
  - by destruct (spend_kept code).
  - etransitivity; [exact H|by eapply run_route_keeps].
  - done.
Qed.

(** ** The end of a block *)

(** Registered resolve functions keep the frame. *)
Definition resolvers_ok : Prop := forall name cfg R block,
  GetResolution (nd_resolutions N) name = Ok cfg -> acts (keeps reg) (ResolveFunc cfg R block).

Lemma confirm_types_funcs t total ts types d d' :
  confirm_types N t total ts types d = Ok d' ->
  forall R f, (R, f) ∈ resolveFuncs d' -> (R, f) ∈ resolveFuncs d \/
    exists name cfg, GetResolution (nd_resolutions N) name = Ok cfg /\ f = ResolveFunc cfg.
Proof.
  revert d. induction types as [|ty types IH]; intros d; cbn [confirm_types].
  { intros <-%(inj Ok). auto. }
  intros (cfg & Ecfg%wrap_err_Ok & E)%result_bind_Ok. destruct (ConfirmationThreshold cfg) as [th|]; [|done].
  apply result_bind_Ok in E as (Rs & _ & E). intros R f HR. apply (IH _ E) in HR as [HR|HR]; [|by right].
  clear E IH. revert d HR. induction Rs as [|R' Rs IH]; intros d; cbn [foldl]; [auto|].
  intros [HR|HR]%IH; [|by right]. unfold confirm_one in HR. destruct (resolutionExpired _ _); [by left|].
  cbn in HR. apply elem_of_app in HR as [HR|[= -> ->]%list_elem_of_singleton]; [by left|]. right. eauto.
Qed.

Lemma resolve_all_keeps block fs :
  (forall R f, (R, f) ∈ fs -> acts (keeps reg) (f R block)) -> acts (keeps reg) (resolve_all block fs : action W unit).
Proof.
  induction fs as [|[R f] fs IH]; intros H st; cbn [resolve_all]; [done|].
  pose proof (H R f ltac:(by left) st) as Hf. assert (acts (keeps reg) (resolve_all block fs)) as Hrest.
  { apply IH. intros R' f' ?. apply H. by right. }
  destruct (f R block st) as [[[]|e] st1]; cbn [snd] in Hf.
  - etransitivity; [exact Hf|apply Hrest].
  - destruct (is_panic e); [done|]. etransitivity; [|apply Hrest]. by apply restore_keeps.
Qed.

Lemma credit_all_keeps kvs : acts (keeps reg) (credit_all N kvs : action W unit).
Proof. induction kvs as [|[k v] kvs IH]; cbn [credit_all]; act. Qed.

Lemma processVotes_keeps block : resolvers_ok -> acts (keeps reg) (processVotes N block).
Proof.
  intros Hres. pose proof credit_all_keeps. unfold processVotes.
  apply acts_bind; [apply _|act|intros total]. apply acts_bind; [apply _|act|intros t].
  intros st. unfold mbind at 1, action_bind, alift. destruct (confirm_types _ _ _ _ _ _) as [d|e] eqn:Ed; [|done].
  revert st. apply (acts_bind (keeps reg) (resolve_all block (resolveFuncs d))).
  - apply resolve_all_keeps. intros R f [?%not_elem_of_nil|(name & cfg & Hcfg & ->)]%(confirm_types_funcs _ _ _ _ _ _ Ed);
      [done|]. by eapply Hres.
  - intros _. act; try (by apply acts_modify).
    unfold awhen. act.
Qed.

Lemma run_hooks_keeps hooks block :
  (forall name h, (name, h) ∈ hooks -> acts (keeps reg) (h block)) -> acts (keeps reg) (run_hooks hooks block : action W unit).
Proof.
  induction hooks as [|[name h] hooks IH]; intros H; cbn [run_hooks]; [act|].
  apply acts_bind; [apply _|apply acts_wrap, (H name); by left|]. intros _. apply IH. intros n' h' ?. apply (H n'). by right.
Qed.

Lemma Finalize_keeps hooks block :
  resolvers_ok -> (forall name h, hooks !! name = Some h -> acts (keeps reg) (h block)) -> acts (keeps reg) (Finalize N hooks block).
Proof.
  intros Hres Hh. pose proof (processVotes_keeps block Hres). unfold Finalize. act.
  apply run_hooks_keeps. intros name h Hin. apply (Hh name). unfold ListHooks, OrderMap in Hin.
  apply list_elem_of_omap in Hin as (k & _ & E). destruct (hooks !! k) eqn:Ek; [|done]. by simplify_eq/=.
Qed.

Lemma AccountInfo_keeps ex id u : acts (keeps reg) (AccountInfo N ex id u : action W _).
Proof.
  unfold AccountInfo, accountInfo. act. by apply acts_modify.
Qed.

(** The resolve functions of the repository. *)
Lemma native_resolvers_keep R block :
  acts (keeps reg) (resolve_join N R block) /\ acts (keeps reg) (resolve_remove N R block) /\
  acts (keeps reg) (resolve_credit N R block) /\ acts (keeps reg) (resolve_param_updates N R block).
Proof.
  unfold resolve_join, resolve_remove, resolve_credit, resolve_param_updates.
  split_and!; act; by apply acts_modify.
Qed.
End app.

(** ** The processor *)

Section processor.
Context {C : Type} `{HC : Cache (list byte) Account C} {X : Type}.
Context `{HS : Strings} `{HD : Decimals} `{HJ : ParamsCodec}.
#[local] Abbreviation W := (App C X).
#[local] Abbreviation BP := (Processor C X).
Context `{HE : !Engine W}.
Context (N : Node W) (sv : Services C X).
Context (endBlockHooks : gmap (list byte) (BlockContext -> action W unit)).
#[local] Abbreviation reg := (nd_keys N).
Implicit Types (p : BP) (st : W) (req : BlockExecRequest).

Definition pframe p := (bp_db p, bp_writer p, consensusTx p, bp_height p, bp_appHash p).

Definition pkeeps p p' : Prop := pframe p' = pframe p /\ keeps reg (bp_txapp p) (bp_txapp p').

#[export] Instance pkeeps_preorder : PreOrder pkeeps.
Proof. split; [done|]. intros a b c [E K] [E' K']. split; [congruence|by etransitivity]. Qed.

(** What the collaborators leave alone. *)
Record host_ok : Prop := mkHostOk {
  ho_node : node_ok N;
  ho_resolvers : resolvers_ok N;
  ho_hooks : forall name h block, endBlockHooks !! name = Some h -> acts (keeps reg) (h block);
  ho_migrator : forall d block, acts (keeps reg) (sv_NotifyHeight sv d block);
  ho_broadcast : forall f tx, sv_broadcastTxFn sv = Some f -> acts pkeeps (f tx)
}.

Lemma on_txapp_keeps {A} (m : action W A) : acts (keeps reg) m -> acts pkeeps (on_txapp m : action BP A).
Proof.
  intros H p. unfold on_txapp. specialize (H (bp_txapp p)). destruct (m (bp_txapp p)) as [r st]. by split.
Qed.

Lemma on_meta_keeps f : acts pkeeps (on_meta f : action BP unit).
Proof. intros p. unfold on_meta. by destruct (f (bp_meta p)). Qed.

Lemma status_keeps h : acts pkeeps (modify (updateBlockExecutionStatus h) : action BP unit).
Proof. intros p. unfold updateBlockExecutionStatus. cbn. by destruct (bp_status p). Qed.
#[local] Hint Resolve on_txapp_keeps on_meta_keeps status_keeps AccountInfo_keeps : acts.

Context (HO : host_ok).

Lemma count_votes_keeps b tx : acts pkeeps (count_votes b tx : action BP unit).
Proof. unfold count_votes. act. by apply acts_modify. Qed.

Lemma run_tx_keeps ctx tx :
  acts pkeeps (fun p => let '(res, st) := Execute N ctx tx (bp_txapp p) in (Ok res, set_txapp p st)).
Proof using HO.
  intros p. pose proof (Execute_keeps N (ho_node HO) ctx tx (bp_txapp p)) as Hx.
  destruct (Execute _ _ _ _) as [res st]. by split.
Qed.

Lemma execute_tx_keeps block b c tx h : acts pkeeps (execute_tx N sv block b c tx h).
Proof using HO. pose proof count_votes_keeps. unfold execute_tx. act. apply run_tx_keeps. Qed.

Lemma execute_txs_keeps block b c i txs : acts pkeeps (execute_txs N sv block b c i txs).
Proof using HO.
  pose proof execute_tx_keeps. revert i. induction txs as [|[tx h] txs IH]; intros i; cbn [execute_txs]; act.
Qed.

Lemma broadcast_keeps f : sv_broadcastTxFn sv = Some f -> acts pkeeps (BroadcastVoteIDTx N sv f).
Proof using HO.
  intros Hf. unfold BroadcastVoteIDTx, PrepareValidatorVoteIDTx. act; by apply (ho_broadcast HO).
Qed.

Lemma announce_keeps k : acts pkeeps (announce_leader k : action BP unit).
Proof. unfold announce_leader. act. by apply acts_modify. Qed.

(** What a block leaves in the chain schema. *)
Definition stored req p : Prop :=
  md_chain (bp_meta p) = Some (req_Height req, Some (bp_appHash p), true) /\
  fst (merged_params p) = Ok tt /\
  exists bts, params_Marshal (snd (merged_params p)) = Ok bts /\ md_params (bp_meta p) = Some bts.

Lemma wp_keeps {A B} (m : action BP A) (k : A -> action BP B) Q p :
  acts pkeeps m -> (forall e p', pkeeps p p' -> Q (Err e) p') ->
  (forall a p', pkeeps p p' -> wp (k a) Q p') -> wp (m ≫= k) Q p.
Proof.
  intros Hm He Hk. apply wp_bind. unfold wp at 1. specialize (Hm p).
  destruct (m p) as [[a|e] p']; cbn [fst snd] in *; [by apply Hk|by apply He].
Qed.

(** The hashes that the app hash of a result is made of. *)
Definition hashed (res : BlockExecResult) p : Prop :=
  exists sh, stateHashes p = Some sh /\ res_AppHash res = nextAppHash (sv_HashBytes sv) sh /\
    sh_PrevApp sh = bp_appHash p /\
    sh_Accounts sh = accountsHash (sv_HashBytes sv) reg (Updates (map_to_list (updates (ap_accounts (bp_txapp p))))) /\
    (sh_ValUpdates sh, res_ValidatorUpdates res) =
      validatorUpdatesHash (sv_HashBytes sv) (map_to_list (ValidatorUpdates (ap_votes (bp_txapp p)))).*2 /\
    sh_TxResults sh = txResultsHash (sv_HashBytes sv) (res_TxResults res).

Definition block_post req p (r : result BlockExecResult) p' : Prop :=
  pkeeps p p' /\ match r with Ok res => stored req p' /\ hashed res p' | Err _ => True end.

#[local] Ltac chain_keeps :=
  repeat match goal with H : pkeeps ?a ?b |- pkeeps ?a _ => etransitivity; [exact H|clear H] end; reflexivity.
#[local] Ltac framed := split; [unfold wp, afail in *; cbn [fst snd]; chain_keeps|done].

Lemma finish_block_stored req block p :
  wp (finish_block N sv endBlockHooks req block)
    (fun r p' => pkeeps p p' /\ match r with Ok _ => stored req p' | Err _ => True end) p.
Proof using HO.
  unfold finish_block. apply wp_keeps.
  { apply acts_wrap, on_txapp_keeps, (Finalize_keeps N). - apply (ho_resolvers HO). - intros. by eapply (ho_hooks HO). }
  { intros; framed. }
  intros joins p1 K1. apply wp_bind, wp_gets. apply wp_keeps; [apply acts_wrap, on_txapp_keeps, (ho_migrator HO)|intros; framed|].
  intros _ p2 K2. apply wp_bind, wp_gets. apply wp_bind, wp_lift.
  assert (pkeeps p p2) as K by chain_keeps. destruct (fst (merged_params p2)) as [[]|e] eqn:Em; [|done].
  apply wp_bind, wp_gets. unfold wp, mbind, action_bind, on_meta, awrap, StoreParams. cbn [fst snd md_chain SetChainState].
  destruct (params_Marshal (snd (merged_params p2))) as [bts|e] eqn:Eb; cbn; [|done].
  split; [done|]. unfold stored. cbn. split_and!; [done..|]. by exists bts.
Qed.

Lemma execute_block_post req b c p : wp (execute_block N sv endBlockHooks req b c) (block_post req p) p.
Proof using HO.
  unfold execute_block. pose proof announce_keeps. pose proof execute_txs_keeps.
  apply wp_keeps; [act|intros; framed|intros _ p1 K1]. apply wp_bind, wp_gets. apply wp_bind, wp_lift.
  destruct (is_key _ _) as [lead|e]; [|done]. cbv zeta. destruct (existsb _ _); [framed|].
  apply wp_keeps; [by apply acts_modify|intros; framed|intros _ p2 K2].
  apply wp_keeps; [act|intros e p' K; framed|intros rs p3 K3].
  apply wp_keeps.
  { destruct (sv_broadcastTxFn sv) as [f|] eqn:Ef; [|act]. destruct b; [act|]. by apply acts_wrap, broadcast_keeps. }
  { intros e p' K. framed. }
  intros _ p4 K4. assert (pkeeps p p4) as K by chain_keeps. clear K1 K2 K3 K4.
  apply wp_bind. eapply wp_mono; [apply finish_block_stored|].
  intros [[approved expired]|e] p5 [K5 Hs]; [|framed].
  apply wp_bind, wp_gets. destruct (validatorUpdatesHash _ _) as [vh vals] eqn:Ev.
  apply wp_bind, wp_modify. apply wp_bind. unfold wp at 1. cbn [fst snd].
  assert (pkeeps p p5) as K' by chain_keeps.
  destruct (compute_hashes _ _ _ _ _) as [sh|e] eqn:Esh; [|done]. apply wp_bind, wp_modify.
  unfold compute_hashes in Esh. apply result_bind_Ok in Esh as (ph & _ & <-%(inj Ok)). apply wp_bind.
  destruct (bool_decide _).
  - apply wp_lift. destruct (wrap_err _ _); [|done]. apply wp_bind, wp_gets. split; [done|]. split; [done|]. by eexists.
  - apply wp_ret. apply wp_bind, wp_gets. split; [done|]. split; [done|]. by eexists.
Qed.

(** ** Between blocks *)

(** No transaction is open, the database determines what the processor sees,
    and nothing waits for a commit. *)
Record at_rest p : Prop := mkAtRest {
  ar_writer : bp_writer p = false;
  ar_meta : bp_meta p = db_meta (bp_db p);
  ar_view : committed_app (bp_db p) (bp_txapp p) = bp_txapp p;
  ar_params : LoadParams (db_meta (bp_db p)) = Ok (netParams p);
  ar_network : default ∅ (NetworkUpdates (chainCtx p)) = ∅;
  ar_accounts : updates (ap_accounts (bp_txapp p)) = ∅ /\ spends (ap_accounts (bp_txapp p)) = [];
  ar_validators : valUpdates (ap_votes (bp_txapp p)) = ∅;
  ar_joins : ap_approvedJoins (bp_txapp p) = []
}.

(** The same blockchain state; the caches, the pending transactions and the
    node's own events are not part of it. *)
Record same_state p p' : Prop := mkSameState {
  ss_db : bp_db p' = bp_db p;
  ss_accounts : tx_table (ap_accounts (bp_txapp p')) = tx_table (ap_accounts (bp_txapp p)) /\
                db_table (ap_accounts (bp_txapp p')) = db_table (ap_accounts (bp_txapp p));
  ss_validators : ap_votes (bp_txapp p') = ap_votes (bp_txapp p);
  ss_tables : ap_tables (bp_txapp p') = ap_tables (bp_txapp p);
  ss_engine : ap_engine (bp_txapp p') = ap_engine (bp_txapp p);
  ss_params : netParams p' = netParams p;
  ss_chain : bp_height p' = bp_height p /\ bp_appHash p' = bp_appHash p
}.

(** What a block leaves behind it: with success, an open transaction. *)
Lemma ExecuteBlock_post req b c p :
  at_rest p ->
  let '(r, p1) := ExecuteBlock N sv endBlockHooks req b c p in
  bp_db p1 = bp_db p /\ frame (bp_txapp p1) = frame (bp_txapp p) /\
  bp_height p1 = bp_height p /\ bp_appHash p1 = bp_appHash p /\
  match r with
  | Ok res => bp_writer p1 = true /\ consensusTx p1 = true /\ stored req p1 /\ hashed res p1 /\ updates_keyed reg (bp_txapp p1)
  | Err _ => bp_writer p1 = false /\ consensusTx p1 = false /\ bp_meta p1 = db_meta (bp_db p) /\
             bp_txapp p1 = committed_app (bp_db p) (bp_txapp p1)
  end.
Proof using HO.
  intros Hp. unfold ExecuteBlock, awrap, begin_tx, mbind, action_bind, modify.
  cbn -[execute_block set_consensusTx reset_view]. rewrite (ar_writer p Hp). cbn -[execute_block set_consensusTx reset_view].
  set (p0 := set_consensusTx _ true). pose proof (execute_block_post req b c p0) as H. unfold on_failure.
  unfold wp, block_post in H.
  destruct (execute_block N sv endBlockHooks req b c p0) as [[res|e] p1]; cbn [fst snd] in H; destruct H as [[K [Kf Ku]] Hs];
    unfold pframe in K; injection K as E1 E2 E3 E4 E5.
  - rewrite E1, E2, E3, E4, E5, Kf. destruct Hs as [Hs Hh]. split_and!; try done. apply Ku. split.
    + intros k acct. cbn. rewrite (proj1 (ar_accounts p Hp)). done.
    + intros k v. cbn. rewrite (ar_validators p Hp). done.
  - unfold drop_tx, rollback_tx. rewrite E2. cbn. rewrite E1, E4, E5. unfold frame in *. cbn in *. by rewrite Kf.
Qed.

(** A rollback after a block. *)
Lemma rollback_restores req b c p :
  at_rest p ->
  let '(r, p1) := ExecuteBlock N sv endBlockHooks req b c p in
  exists p2, Rollback (bp_height p) (bp_appHash p) p1 = (Ok tt, p2) /\ at_rest p2 /\ same_state p p2.
Proof using HO.
  intros Hp. pose proof (ExecuteBlock_post req b c p Hp) as H.
  destruct (ExecuteBlock N sv endBlockHooks req b c p) as [r p1]. destruct H as (Hdb & Hf & Hh & Ha & Hr).
  unfold frame in Hf. injection Hf as Hv Ht Hid Hm. destruct Hp as [Hw Hmeta Hview Hpar Hnet [Hu Hsp] Hval Hj].
  assert (ap_tables (bp_txapp p) = db_tables (bp_db p) /\ ap_engine (bp_txapp p) = db_engine (bp_db p) /\
    tx_table (ap_accounts (bp_txapp p)) = db_table (ap_accounts (bp_txapp p))) as (Etab & Eeng & Eacc)
    by (rewrite <- Hview; done).
  assert (ap_votes (bp_txapp p) = mkVoteStore (validatorSet (ap_votes (bp_txapp p))) ∅) as Evotes
    by (rewrite <- Hval; by destruct (ap_votes (bp_txapp p))).
  destruct p1 as [st1 m1 d1 w1 c1 a1 h1 s1 bs1 sy1 pe1]; cbn in *. subst d1 h1 a1.
  unfold Rollback, awrap, rollback_tx, mbind, action_bind, gets, modify, alift.
  destruct r as [res|e]; [destruct Hr as (-> & -> & _ & _)|destruct Hr as (-> & -> & -> & E); rewrite E; clear E]; cbn; rewrite Hpar; cbn;
    (eexists; split; [reflexivity|split]); constructor; cbn; try done; try (by split);
    try (by rewrite Eacc, Ht); try (unfold Voting.Rollback; by rewrite Hv, Evotes).
Qed.

(** C7. Rolling a block back undoes it: whatever the block was, whether its
    execution succeeded, failed or was cancelled, and whatever the engine, the
    hooks and the resolve functions did, the rollback succeeds and the database,
    the account and voting tables, the validator set, the engine's data, the
    network parameters, the height and the app hash are those before the block;
    only caches, pending transactions and the node's own events may differ. *)
Theorem rollback_undoes_block req b c p :
  at_rest p ->
  let '(r, p1) := ExecuteBlock N sv endBlockHooks req b c p in
  exists p2, Rollback (bp_height p) (bp_appHash p) p1 = (Ok tt, p2) /\ at_rest p2 /\ same_state p p2.
Proof using HO. apply rollback_restores. Qed.

(** C24. The app hash does not depend on the iteration order of Go's maps, nor on
    the sorting algorithm: after a successful block, whatever order the account
    and validator updates are listed in and however they are sorted by
    identifier and key type, the account hash, the validator hash and the list of
    validator updates are those of the result. *)
Theorem app_hash_deterministic req b c p res p1 :
  at_rest p -> ExecuteBlock N sv endBlockHooks req b c p = (Ok res, p1) ->
  exists sh, stateHashes p1 = Some sh /\ res_AppHash res = nextAppHash (sv_HashBytes sv) sh /\
    (forall l, l ≡ₚ (map_to_list (updates (ap_accounts (bp_txapp p1)))).*2 -> Sorted account_le l ->
       sh_Accounts sh = sv_HashBytes sv (concat (map (account_preimage reg) l))) /\
    (forall l, l ≡ₚ (map_to_list (ValidatorUpdates (ap_votes (bp_txapp p1)))).*2 -> Sorted validator_le l ->
       sh_ValUpdates sh = sv_HashBytes sv (concat (map validator_preimage l)) /\ res_ValidatorUpdates res = l).
Proof using HO.
  intros Hp E. pose proof (ExecuteBlock_post req b c p Hp) as H. rewrite E in H.
  destruct H as (_ & _ & _ & _ & _ & _ & _ & (sh & Esh & Eh & _ & Ea & Ev & _) & Ka & Kv).
  exists sh. split_and!; [done|done| |]; intros l Hl Hs.
  - rewrite Ea. unfold accountsHash. do 3 f_equal. symmetry.
    apply (sorted_values_unique account_le (updates (ap_accounts (bp_txapp p1))) l); [|done|done].
    intros k k' v v' Hk%Ka Hk'%Ka Hle Hle'. subst k k'. pose proof (id_le_antisymm _ _ Hle Hle') as [= E1 E2].
    unfold acctMapKey. congruence.
  - assert (l = merge_sort validator_le (map_to_list (ValidatorUpdates (ap_votes (bp_txapp p1)))).*2) as ->;
      [|unfold validatorUpdatesHash in Ev; by injection Ev].
    apply (sorted_values_unique validator_le (valUpdates (ap_votes (bp_txapp p1))) l); [|done|done]. intros k k' v v' Hk%Kv Hk'%Kv Hle Hle'.
    pose proof (id_le_antisymm _ _ Hle Hle') as [= E1 E2]. unfold encodePubKey in Hk, Hk'. rewrite E1, E2 in Hk. congruence.
Qed.

Lemma copied_hash (a b : bytes) :
  length a = 32%nat -> length b = 32%nat -> take (length a) b ++ drop (length b) a = b.
Proof. intros Ha Hb. by rewrite Ha, <- Hb, firstn_all, Hb, <- Ha, skipn_all, app_nil_r. Qed.

Lemma copy_hash_full (b : bytes) : length b = 32%nat -> copy_hash zero_hash b = b.
Proof.
  intros Hb. unfold copy_hash. rewrite <- Hb, firstn_all, Hb. unfold zero_hash.
  by rewrite skipn_all2, app_nil_r by (rewrite length_replicate; reflexivity).
Qed.

(** The states after the two transactions of a commit. *)
Definition after_state (np : NetworkParameters) (height : Z) (appHash : bytes) p : BP :=
  let p := set_consensusTx (snd (commit_tx p)) false in
  let p := with_chain (set_params np) p in
  let st := bp_txapp p in
  set_chain (set_txapp p (Finalize.Commit (map_to_list (updates (ap_accounts st)))
                            (map_to_list (valUpdates (ap_votes st))) st)) height appHash.

Definition hash_stored (x : X) (height : Z) (appHash : bytes) p : BP :=
  let p := set_writer (reset_view p) true in
  let p := set_meta p (SetChainState height (Some appHash) false (bp_meta p)) in
  set_txapp p (set_engine (bp_txapp p) x).

Definition after_hash (x : X) (height : Z) (appHash : bytes) p : BP :=
  set_status (snd (commit_tx (hash_stored x height appHash p))) None.

Lemma merged_params_chain p p' : chainCtx p' = chainCtx p -> merged_params p' = merged_params p.
Proof. intros E. unfold merged_params, netParams. by rewrite E. Qed.

Lemma commit_state_run height appHash p :
  consensusTx p = true -> bp_writer p = true ->
  commit_state height appHash p = (Ok tt, after_state (snd (merged_params p)) height appHash p).
Proof.
  intros Hc Hw. unfold commit_state, after_state, mbind, action_bind, gets, modify. rewrite Hc. cbn [negb].
  unfold commit_tx. rewrite Hw. cbn [negb fst snd].
  by rewrite (merged_params_chain p (set_consensusTx _ false)).
Qed.

Lemma store_app_hash_run height appHash p x :
  bp_writer p = false -> sv_PersistLastChangesetHeight sv height (db_engine (bp_db p)) = Ok x ->
  store_app_hash sv height appHash p = (Ok tt, snd (commit_tx (hash_stored x height appHash p))).
Proof.
  destruct p as [[? ? ? ? ? ? ? ?] m [dt de dm] w c a h s bs sy pe]. cbn [bp_writer bp_db db_engine]. intros -> Hx.
  unfold store_app_hash, begin_tx, on_failure, on_meta, mbind, action_bind. cbn. rewrite Hx. reflexivity.
Qed.

Lemma after_state_writer np height appHash p : bp_writer p = true -> bp_writer (after_state np height appHash p) = false.
Proof. destruct p as [st m d w c a h s bs sy pe]. cbn [bp_writer]. by intros ->. Qed.

Lemma after_state_db np height appHash p :
  bp_writer p = true ->
  bp_db (after_state np height appHash p) = mkDatabase (ap_tables (bp_txapp p)) (ap_engine (bp_txapp p)) (bp_meta p).
Proof. destruct p as [st m d w c a h s bs sy pe]. cbn [bp_writer]. by intros ->. Qed.

Lemma Commit_run height appHash p x :
  consensusTx p = true -> bp_writer p = true ->
  sv_PersistLastChangesetHeight sv height (ap_engine (bp_txapp p)) = Ok x ->
  Commit sv height appHash p =
    (Ok tt, after_hash x height appHash (after_state (snd (merged_params p)) height appHash p)).
Proof.
  intros Hc Hw Hx. unfold Commit. rewrite (action_bind_Ok _ _ _ _ _ (commit_state_run height appHash p Hc Hw)).
  rewrite (action_bind_Ok _ _ _ _ _ (store_app_hash_run height appHash _ x
    (after_state_writer _ _ _ _ Hw) ltac:(by rewrite after_state_db))).
  unfold modify, after_hash. reflexivity.
Qed.

(** A start on the database of an interrupted commit. *)
Lemma restart_dirty genesis getByHeight txapp (d : database X) height hash bts np ci x :
  db_meta d = mkMetadata (Some (height, Some hash, true)) (Some bts) -> params_Unmarshal bts = Ok np ->
  getByHeight height = Ok (Some ci) -> sv_PersistLastChangesetHeight sv height (db_engine d) = Ok x ->
  length hash = 32%nat -> length (ci_AppHash ci) = 32%nat ->
  exists p, NewBlockProcessor sv genesis getByHeight txapp d = Ok (Some p) /\
    bp_db p = mkDatabase (db_tables d) x (mkMetadata (Some (height, Some (ci_AppHash ci), false)) (Some bts)) /\
    bp_height p = height /\ bp_appHash p = ci_AppHash ci /\ netParams p = np.
Proof.
  intros Hm Hj Hget Hx Hl Hl'. unfold NewBlockProcessor, GetChainState. rewrite Hm. cbn -[take drop].
  rewrite Hget. cbn -[take drop]. rewrite Hx. cbn -[take drop]. rewrite Hj. cbn -[take drop].
  destruct (gc_Migration genesis) as [s e]. eexists. split; [reflexivity|].
  cbn -[take drop copy_hash]. by rewrite copied_hash, copy_hash_full.
Qed.

Lemma Commit_durable genesis req b c p res p1 getByHeight ci txapp :
  (forall np bts, params_Marshal np = Ok bts -> params_Unmarshal bts = Ok np) ->
  (forall h x, exists x', sv_PersistLastChangesetHeight sv h x = Ok x') ->
  at_rest p -> length (bp_appHash p) = 32%nat -> length (ci_AppHash ci) = 32%nat ->
  ExecuteBlock N sv endBlockHooks req b c p = (Ok res, p1) ->
  getByHeight (req_Height req) = Ok (Some ci) ->
  exists p2 p3, Commit sv (req_Height req) (ci_AppHash ci) p1 = (Ok tt, p3) /\ at_rest p3 /\
    GetChainState (db_meta (bp_db p3)) = (req_Height req, Some (ci_AppHash ci), false) /\
    bp_height p3 = req_Height req /\ bp_appHash p3 = ci_AppHash ci /\ netParams p3 = snd (merged_params p1) /\
    commit_state (req_Height req) (ci_AppHash ci) p1 = (Ok tt, p2) /\
    exists p4, NewBlockProcessor sv genesis getByHeight txapp (bp_db p2) = Ok (Some p4) /\
      bp_db p4 = bp_db p3 /\ bp_height p4 = bp_height p3 /\ bp_appHash p4 = bp_appHash p3 /\
      netParams p4 = netParams p3.
Proof using HO.
  intros Hjson Hpersist Hp Hlen Hlen' Hx Hget. pose proof (ExecuteBlock_post req b c p Hp) as H. rewrite Hx in H.
  destruct H as (Hdb & Hf & Hh & Ha & Hw & Hc & (Hchain & Hm & bts & Hbts & Hpar) & _).
  destruct (Hpersist (req_Height req) (ap_engine (bp_txapp p1))) as [x Hx'].
  exists (after_state (snd (merged_params p1)) (req_Height req) (ci_AppHash ci) p1).
  eexists. split; [by apply Commit_run|]. rewrite commit_state_run by done.
  set (np := snd (merged_params p1)) in *. clearbody np. clear Hx Hm Hf.
  destruct (restart_dirty genesis getByHeight txapp (bp_db (after_state np (req_Height req) (ci_AppHash ci) p1))
    (req_Height req) (bp_appHash p1) bts np ci x) as (p4 & Hnew & Edb & Eh & Ea & Ep);
    rewrite ?after_state_db by done; [..|by rewrite Ha|done|].
  { cbn. rewrite <- Hchain, <- Hpar. by destruct (bp_meta p1). }
  { by apply Hjson. } { done. } { done. }
  rewrite after_state_db in Hnew, Edb by done.
  destruct p1 as [st1 [mc mp] d1 w1 c1 a1 h1 s1 bs1 sy1 pe1]; cbn in Hdb, Hh, Ha, Hw, Hc, Hchain, Hpar. subst.
  split; [constructor; cbn; try done; unfold LoadParams; cbn; by rewrite (Hjson _ _ Hbts)|].
  split_and!; try done. exists p4. by rewrite Edb, Eh, Ea.
Qed.

Lemma execute_txs_length block isLeader c i txs p rs p' :
  execute_txs N sv block isLeader c i txs p = (Ok rs, p') -> length rs = length txs.
Proof.
  revert i p rs p'. induction txs as [|[tx txHash] txs IH]; intros i p rs p'; cbn [execute_txs]; [by intros [= <- <-]|].
  intros (r & p1 & _ & E)%action_bind_inv. apply action_bind_inv in E as (rs1 & p2 & E & [= <- <-]). cbn. f_equal. by eapply IH.
Qed.

(** One result for every transaction. *)
Lemma ExecuteBlock_results req b c p res p1 :
  ExecuteBlock N sv endBlockHooks req b c p = (Ok res, p1) -> length (res_TxResults res) = length (Txns (req_Block req)).
Proof.
  intros (? & ? & _ & E)%action_bind_inv. apply action_bind_inv in E as (? & ? & _ & E). apply action_bind_inv in E as (? & p0 & _ & E).
  unfold on_failure in E. destruct (execute_block _ _ _ _ _ _ p0) as [[res'|] p2] eqn:Ex; [|done]. injection E as -> ->.
  unfold execute_block in Ex. do 3 apply action_bind_inv in Ex as (? & ? & _ & Ex). destruct (existsb _ _); [done|].
  apply action_bind_inv in Ex as (? & ? & _ & Ex). apply action_bind_inv in Ex as (rs & ? & Hrs & Ex).
  apply action_bind_inv in Ex as (? & ? & _ & Ex). apply action_bind_inv in Ex as ([? ?] & ? & _ & Ex). apply action_bind_inv in Ex as ([? ?] & ? & _ & Ex).
  do 5 apply action_bind_inv in Ex as (? & ? & _ & Ex). injection Ex as <- _. cbn [res_TxResults].
  rewrite (execute_txs_length _ _ _ _ _ _ _ _ Hrs), length_zip_with, length_map. lia.
Qed.

(** A start on the database of a finished commit. *)
Lemma restart_clean genesis getByHeight txapp (d : database X) height hash np :
  GetChainState (db_meta d) = (height, Some hash, false) -> LoadParams (db_meta d) = Ok np -> length hash = 32%nat ->
  exists p, NewBlockProcessor sv genesis getByHeight txapp d = Ok (Some p) /\ bp_db p = d /\
    bp_height p = height /\ bp_appHash p = hash /\ netParams p = np.
Proof.
  intros Hm Hl Hlen. unfold NewBlockProcessor. rewrite Hm. cbn -[take drop copy_hash LoadParams]. rewrite Hl.
  cbn -[take drop copy_hash LoadParams]. destruct (gc_Migration genesis) as [a b]. eexists. split; [reflexivity|].
  cbn -[take drop copy_hash]. destruct d. by rewrite copy_hash_full.
Qed.

(** C8. A committed block is durable: after a successful execution the commit
    succeeds and reaches the state between blocks, with the height, the app hash
    and the merged network parameters in the database.  The commit takes two
    database transactions; after a crash between them, a start finds the state
    dirty and, with the commit info of the block store, reaches the same
    database, height, app hash and parameters as the commit would have. *)
Theorem commit_survives_crash genesis req b c p res p1 getByHeight ci txapp :
  (forall np bts, params_Marshal np = Ok bts -> params_Unmarshal bts = Ok np) ->
  (forall h x, exists x', sv_PersistLastChangesetHeight sv h x = Ok x') ->
  at_rest p -> length (bp_appHash p) = 32%nat -> length (ci_AppHash ci) = 32%nat ->
  ExecuteBlock N sv endBlockHooks req b c p = (Ok res, p1) ->
  getByHeight (req_Height req) = Ok (Some ci) ->
  exists p2 p3, Commit sv (req_Height req) (ci_AppHash ci) p1 = (Ok tt, p3) /\ at_rest p3 /\
    GetChainState (db_meta (bp_db p3)) = (req_Height req, Some (ci_AppHash ci), false) /\
    bp_height p3 = req_Height req /\ bp_appHash p3 = ci_AppHash ci /\ netParams p3 = snd (merged_params p1) /\
    commit_state (req_Height req) (ci_AppHash ci) p1 = (Ok tt, p2) /\
    exists p4, NewBlockProcessor sv genesis getByHeight txapp (bp_db p2) = Ok (Some p4) /\
      bp_db p4 = bp_db p3 /\ bp_height p4 = bp_height p3 /\ bp_appHash p4 = bp_appHash p3 /\
      netParams p4 = netParams p3.
Proof using HO. apply Commit_durable. Qed.

(** The first block that a node executes after a start panics when it
    changes the leader: the map of network updates is nil until a commit or a
    rollback has made it.  The consensus transaction is rolled back. *)
Theorem leader_change_after_start_panics genesis getByHeight txapp d p req b c k :
  NewBlockProcessor sv genesis getByHeight txapp d = Ok (Some p) ->
  NewLeader (Header (req_Block req)) = Some k ->
  exists p', ExecuteBlock N sv endBlockHooks req b c p = (Err (ErrPanic "assignment to entry in nil map"), p') /\
    bp_writer p' = false /\ consensusTx p' = false /\ bp_db p' = bp_db p.
Proof.
  intros Hnew Hk. unfold NewBlockProcessor in Hnew. destruct (GetChainState (db_meta d)) as [[h a] dirty].
  apply result_bind_Ok in Hnew as ([[[m x] hash]|] & _ & Hnew); [|done].
  apply result_bind_Ok in Hnew as (np & _ & Hnew). destruct (gc_Migration genesis) as [s e].
  injection Hnew as <-.
  unfold ExecuteBlock, execute_block, announce_leader, awrap, on_failure, mbind, action_bind, gets, modify. rewrite Hk.
  cbn -[Mempool.RecheckTxs]. by eexists.
Qed.
End processor.
