(* ===== verification/ProposalFacts.v ===== *)
(** * What a leader proposes

    The transactions of a proposal: their order, their nonces and their size,
    and where the sort by nonce goes wrong. *)

From S2P Require Import Prelude.
From S2P Require Import Wire.
From S2P Require Import Keys.
From S2P Require Import Ident.
From S2P Require Import Order.
From S2P Require Import Tx.
From S2P Require Import Block.
From S2P Require Import Params.
From S2P Require Import Payloads.
From S2P Require Import Values.
From S2P Require Import Auth.
From S2P Require Import Commit.
From S2P Require Import Cache.
From S2P Require Import Accounts.
From S2P Require Import Voting.
From S2P Require Import Events.
From S2P Require Mempool.
From S2P Require Import TxApp.
From S2P Require Import TxFacts.
From S2P Require Import Admission.
From S2P Require Import Finalize.
From S2P Require Import Stable.
From S2P Require Import Processor.
From S2P Require Import Proposal.
From S2P Require Import ProcessorFacts.
From Stdlib Require Import Strings.Byte.

#[local] Open Scope Z_scope.

(** ** Nonces of a list of transactions *)

Definition tx_nonce (t : Transaction) : Z := match tx_Body t with Some b => Nonce b | None => 0 end.

(** The nonces of every sender are ordered. *)
Definition in_order (R : Z -> Z -> Prop) (ts : list Transaction) : Prop :=
  StronglySorted (fun a b => slice_bytes (Sender a) = slice_bytes (Sender b) -> R (tx_nonce a) (tx_nonce b)) ts.

Definition has_body (t : Transaction) : bool := match tx_Body t with Some _ => true | None => false end.

Definition tx_size (t : Transaction) : Z := zlen (serialize t).

(** An indexed transaction as [index_txs] makes it. *)
Definition indexed_ok (it : indexedTxn) : Prop :=
  tx_Body (it_Transaction it) = Some (it_Body it) /\ it_sz it = tx_size (it_Transaction it).

Lemma it_nonce it : indexed_ok it -> tx_nonce (it_Transaction it) = Nonce (it_Body it).
Proof. intros [E _]. unfold tx_nonce. by rewrite E. Qed.

Lemma StronglySorted_sublist {A} (R : relation A) (k l : list A) :
  k `sublist_of` l -> StronglySorted R l -> StronglySorted R k.
Proof.
  induction 1 as [|x k l Hs IH|x k l Hs IH]; intros H; [constructor| |].
  - apply StronglySorted_inv in H as [H Hx]. constructor; [by apply IH|].
    apply list.Forall_forall. intros y Hy. rewrite list.Forall_forall in Hx. apply Hx. by eapply elem_of_sublist.
  - apply StronglySorted_inv in H as [H _]. by apply IH.
Qed.

Lemma StronglySorted_snoc {A} (R : relation A) (l : list A) x :
  StronglySorted R l -> Forall (fun y => R y x) l -> StronglySorted R (l ++ [x]).
Proof.
  induction 1 as [|y l H IH Hy]; intros Hx; cbn; [by repeat constructor|].
  apply list.Forall_cons in Hx as [Hyx Hx]. constructor; [by apply IH|]. apply Forall_app. by repeat constructor.
Qed.

Lemma index_txs_spec i txs ok invalid :
  index_txs i txs = (ok, invalid) ->
  map it_Transaction ok = filter (fun t => has_body t) (map Mempool.ntx_Transaction txs) /\ Forall indexed_ok ok.
Proof.
  revert i ok invalid. induction txs as [|ntx txs IH]; intros i ok invalid; cbn [index_txs map]; [by intros [= <- <-]|].
  rewrite filter_cons.
  destruct (tx_Body (Mempool.ntx_Transaction ntx)) as [body|] eqn:Eb.
  - destruct (index_txs (S i) txs) as [ok' inv'] eqn:E. intros [= <- <-]. destruct (IH _ _ _ E) as [E' Hok].
    rewrite decide_True by (unfold has_body; by rewrite Eb). cbn [map it_Transaction]. rewrite E'. split; [done|]. by constructor.
  - destruct (index_txs i txs) as [ok' inv'] eqn:E. intros [= <- <-]. rewrite decide_False by (unfold has_body; rewrite Eb; auto). by eapply IH.
Qed.

Lemma sublist_map {A B} (f : A -> B) (k l : list A) : k `sublist_of` l -> map f k `sublist_of` map f l.
Proof. induction 1; cbn; by constructor. Qed.

(** ** Sorting *)

(** The order of the indexed transactions. *)
Definition ordered_by (R : Z -> Z -> Prop) (l : list indexedTxn) : Prop := in_order R (map it_Transaction l).

Lemma sorted_map {A B} (f : A -> B) (R : relation B) (l : list A) :
  StronglySorted R (map f l) <-> StronglySorted (fun a b => R (f a) (f b)) l.
Proof.
  induction l as [|a l IH]; cbn; split; intros H; constructor; apply StronglySorted_inv in H as [H Ha].
  - by apply IH.
  - by apply List.Forall_map.
  - by apply IH.
  - by apply List.Forall_map.
Qed.

Lemma StronglySorted_lookup {A} (R : relation A) (l : list A) i j a b :
  StronglySorted R l -> (i < j)%nat -> l !! i = Some a -> l !! j = Some b -> R a b.
Proof.
  intros H. revert i j. induction H as [|x l H IH Hx]; intros i j Hij Hi Hj; [done|].
  destruct j as [|j]; [lia|]. destruct i as [|i]; [|eapply (IH i j); by (lia || done)].
  injection Hi as ->. rewrite list.Forall_forall in Hx. apply Hx. by eapply list_elem_of_lookup_2.
Qed.

Lemma sort_group_ordered okTxns super sender :
  Forall indexed_ok okTxns -> ordered_by Z.le okTxns -> sort_group okTxns super sender = super.
Proof.
  intros Hok Ho. unfold sort_group. rewrite Stable_ordered; [done|].
  intros i j Hij. unfold txl_Less. cbn [fst].
  set (group := filter (fun tx => sender_of tx = sender) okTxns).
  destruct (group !! i) as [a|] eqn:Ei; [|done]. destruct (group !! j) as [b|] eqn:Ej; [|done].
  apply Z.ltb_ge. assert (ordered_by Z.le group) as Hg.
  { eapply StronglySorted_sublist; [|exact Ho]. apply sublist_map, sublist_filter. }
  apply sorted_map in Hg. pose proof (StronglySorted_lookup _ _ _ _ _ _ Hg (proj1 Hij) Ej Ei) as H.
  assert (forall x, x ∈ group -> sender_of x = sender /\ indexed_ok x) as Hin.
  { intros x [Hs Hx]%list_elem_of_filter. split; [done|]. rewrite list.Forall_forall in Hok. by apply Hok. }
  destruct (Hin a) as [Ea Ia]; [by eapply list_elem_of_lookup_2|].
  destruct (Hin b) as [Eb Ib]; [by eapply list_elem_of_lookup_2|].
  cbv beta in H. rewrite (it_nonce a Ia), (it_nonce b Ib) in H. apply H. unfold sender_of in *. congruence.
Qed.

Lemma sort_by_nonce_ordered okTxns :
  Forall indexed_ok okTxns -> ordered_by Z.le okTxns -> sort_by_nonce okTxns = okTxns.
Proof.
  intros Hok Ho. unfold sort_by_nonce. generalize (remove_dups (map sender_of okTxns)). intros senders.
  assert (forall super, foldl (sort_group okTxns) super senders = super) as H; [|apply H].
  induction senders as [|s senders IH]; intros super; cbn [foldl]; [done|].
  by rewrite sort_group_ordered.
Qed.

(** ** Sizes *)

Lemma take_prefix_spec m txs l rest :
  take_prefix m txs = (l, rest) -> Forall indexed_ok txs ->
  l `prefix_of` map it_Transaction txs /\ sum_list_Z (map tx_size l) = m - rest /\ (0 <= m -> 0 <= rest).
Proof.
  intros E Hok. revert m l rest E. induction Hok as [|tx txs [_ Hsz] Hok IH]; intros m l rest; cbn [take_prefix map].
  { intros [= <- <-]. split; [done|]. cbn. lia. }
  destruct (Z.ltb_spec m (it_sz tx)) as [Hlt|Hle]; [intros [= <- <-]; split; [apply prefix_nil|cbn; lia]|].
  destruct (take_prefix (m - it_sz tx) txs) as [l' rest'] eqn:E. intros [= <- <-].
  destruct (IH _ _ _ E) as (Hp & Hs & Hr). split; [by apply prefix_cons|]. cbn [map sum_list_Z]. rewrite Hs, Hsz. lia.
Qed.

Lemma take_fitting_spec m skipped txs :
  Forall indexed_ok txs ->
  take_fitting m skipped txs `sublist_of` map it_Transaction txs /\
  sum_list_Z (map tx_size (take_fitting m skipped txs)) <= Z.max 0 m.
Proof.
  intros Hok. revert m skipped. induction Hok as [|tx txs [_ Hsz] Hok IH]; intros m skipped; cbn [take_fitting map].
  { cbn. split; [done|lia]. }
  case_bool_decide; [destruct (IH m skipped); split; [by constructor|lia]|].
  destruct (Z.ltb_spec m (it_sz tx)); [destruct (IH m ({[sender_of tx]} ∪ skipped)); split; [by constructor|lia]|].
  destruct (IH (m - it_sz tx) skipped) as [Hs Hz]. split; [by constructor|]. cbn [map sum_list_Z].
  rewrite Hsz in *. unfold tx_size in *. pose proof (zlen_nonneg (serialize (it_Transaction tx))). lia.
Qed.

(** ** Selection *)

(** [r] after the transactions [seen] of an ordered list. *)
Record selected (seen : list indexedTxn) (r : prepared) : Prop := mkSelected {
  sel_prop : propTxs r `sublist_of` seen;
  sel_other : otherTxns r `sublist_of` seen;
  sel_prop_order : ordered_by Z.lt (propTxs r);
  sel_other_order : ordered_by Z.lt (otherTxns r);
  sel_last : forall tx, tx ∈ propTxs r ++ otherTxns r ->
    exists n, lastNonce r !! sender_of tx = Some n /\ tx_nonce (it_Transaction tx) <= n;
  sel_seen : forall s n, lastNonce r !! s = Some n ->
    exists tx, tx ∈ seen /\ sender_of tx = s /\ tx_nonce (it_Transaction tx) = n
}.

Lemma selected_skip seen r tx : selected seen r -> selected (seen ++ [tx]) r.
Proof.
  intros [H1 H2 H3 H4 H5 H6]. constructor; [by apply sublist_inserts_r..|done|done|done|].
  intros s n (t & Ht & E)%H6. exists t. split; [|done]. apply elem_of_app. by left.
Qed.

Lemma selected_invalid seen r tx : selected seen r -> selected (seen ++ [tx]) (drop_tx_as_invalid tx r).
Proof. intros H%(selected_skip _ _ tx). by destruct H. Qed.

Lemma ordered_snoc l tx :
  ordered_by Z.lt l ->
  Forall (fun t => sender_of t = sender_of tx -> tx_nonce (it_Transaction t) < tx_nonce (it_Transaction tx)) l ->
  ordered_by Z.lt (l ++ [tx]).
Proof.
  intros Ho Hl. unfold ordered_by, in_order in *. rewrite map_app. apply StronglySorted_snoc; [done|].
  by apply List.Forall_map.
Qed.

Section proposal.
Context {C : Type} `{HC : Cache (list byte) Account C} {X : Type}.
Context `{HS : Strings} `{HD : Decimals} `{HJ : ParamsCodec}.
#[local] Abbreviation W := (App C X).
#[local] Abbreviation BP := (Processor C X).
Context `{HE : !Engine W}.
Context (N : Node W) (sv : Services C X).

Lemma selected_keep seen r tx sig :
  indexed_ok tx -> selected seen r -> ordered_by Z.le (seen ++ [tx]) ->
  lastNonce r !! sender_of tx <> Some (Nonce (it_Body tx)) ->
  selected (seen ++ [tx]) (keep_tx N tx sig r).
Proof.
  intros Hok [H1 H2 H3 H4 H5 H6] Ho Hn.
  assert (Forall (fun t => sender_of t = sender_of tx -> tx_nonce (it_Transaction t) < tx_nonce (it_Transaction tx))
            (propTxs r ++ otherTxns r)) as Hlt.
  { apply list.Forall_forall. intros t Ht Es. destruct (H5 t Ht) as (n & En & Hle). rewrite Es in En.
    destruct (H6 _ _ En) as (t' & Ht' & Es' & En').
    assert (tx_nonce (it_Transaction t') <= tx_nonce (it_Transaction tx)) as Hle'.
    { unfold ordered_by, in_order in Ho. apply sorted_map in Ho.
      apply list_elem_of_lookup in Ht' as [i Hi].
      refine (StronglySorted_lookup _ _ i (length seen) t' tx Ho _ _ _ Es'); [by eapply lookup_lt_Some|by apply lookup_app_l_Some|].
      by apply list_lookup_middle. }
    rewrite (it_nonce tx Hok) in *. assert (n <> Nonce (it_Body tx)) by (intros ->; by apply Hn). lia. }
  apply Forall_app in Hlt as [Hltp Hlto].
  assert (forall t l, t ∈ l -> l = propTxs r ++ otherTxns r ->
    exists n, <[sender_of tx := Nonce (it_Body tx)]> (lastNonce r) !! sender_of t = Some n /\ tx_nonce (it_Transaction t) <= n)
    as Hold.
  { intros t l Ht ->. destruct (decide (sender_of t = sender_of tx)) as [Es|Ne].
    - rewrite Es, lookup_insert_eq. eexists. split; [done|]. apply elem_of_app in Ht.
      rewrite list.Forall_forall in Hltp, Hlto. rewrite <- (it_nonce tx Hok).
      destruct Ht as [Ht|Ht]; [specialize (Hltp t Ht Es)|specialize (Hlto t Ht Es)]; lia.
    - rewrite lookup_insert_ne by done. by apply H5. }
  assert (exists n, <[sender_of tx := Nonce (it_Body tx)]> (lastNonce r) !! sender_of tx = Some n /\
            tx_nonce (it_Transaction tx) <= n) as Hnew.
  { rewrite lookup_insert_eq. eexists. split; [done|]. by rewrite it_nonce. }
  assert (forall s n, <[sender_of tx := Nonce (it_Body tx)]> (lastNonce r) !! s = Some n ->
    exists t, t ∈ seen ++ [tx] /\ sender_of t = s /\ tx_nonce (it_Transaction t) = n) as Hseen.
  { intros s n [[<- <-]|[_ (t & Ht & E)%H6]]%lookup_insert_Some.
    - exists tx. split; [apply elem_of_app; right; by apply list_elem_of_singleton|]. by rewrite it_nonce.
    - exists t. split; [apply elem_of_app; by left|done]. }
  unfold keep_tx. destruct (_ && _); constructor; cbn; auto using sublist_inserts_r, ordered_snoc, sublist_app;
    try (by apply sublist_app); try (by apply sublist_inserts_r); try (by apply ordered_snoc).
  - intros t Ht. rewrite !elem_of_app, list_elem_of_singleton in Ht. destruct Ht as [[Ht| ->]|Ht]; [|done|];
      eapply Hold; [|done| |done]; apply elem_of_app; auto.
  - intros t Ht. rewrite !elem_of_app, list_elem_of_singleton in Ht. destruct Ht as [Ht|[Ht| ->]]; [| |done];
      eapply Hold; [|done| |done]; apply elem_of_app; auto.
Qed.

(** ** What the checks of a proposal leave alone *)

Definition same_chain (p p' : BP) : Prop := chainCtx p' = chainCtx p.

#[export] Instance same_chain_preorder : PreOrder same_chain.
Proof. split; [done|]. intros a b c E E'. by transitivity (chainCtx b). Qed.

Lemma AccountInfo_chain ex id u : acts same_chain (on_txapp (AccountInfo N ex id u)).
Proof.
  assert (acts (fun st st' : W => ap_chain st' = ap_chain st) (AccountInfo N ex id u)) as H.
  { assert (PreOrder (fun st st' : W => ap_chain st' = ap_chain st)).
    { split; [done|]. intros a b c E E'. by transitivity (ap_chain b). }
    assert (forall A (m : action (Accounts C) A), acts (fun st st' : W => ap_chain st' = ap_chain st) (on_accounts m)).
    { intros A m st. unfold on_accounts. by destruct (m (ap_accounts st)). }
    unfold AccountInfo, accountInfo. act. by apply acts_modify. }
  intros p. unfold on_txapp. specialize (H (bp_txapp p)). by destruct (AccountInfo N ex id u (bp_txapp p)).
Qed.
#[local] Hint Resolve AccountInfo_chain : acts.

Lemma select_tx_chain ctx tx r : acts same_chain (select_tx N sv ctx tx r : action BP _).
Proof. unfold select_tx, check_funds. act. Qed.

Lemma select_txs_chain ctx txs r : acts same_chain (select_txs N sv ctx txs r : action BP _).
Proof.
  pose proof select_tx_chain. revert r. induction txs as [|tx txs IH]; intros r; cbn [select_txs]; act.
Qed.

Lemma select_tx_selected ctx tx seen r p :
  indexed_ok tx -> selected seen r -> ordered_by Z.le (seen ++ [tx]) ->
  wp (select_tx N sv ctx tx r) (fun res (_ : BP) => match res with Ok r' => selected (seen ++ [tx]) r' | Err _ => True end) p.
Proof.
  intros Hok Hr Ho. pose proof (selected_invalid seen r tx Hr) as Hinv. unfold select_tx.
  destruct (tx_Signature _) as [sig|]; [|by apply wp_ret]. destruct (negb _); [by apply wp_ret|].
  apply wp_bind. unfold wp at 1, acatch, alift. cbn [fst snd].
  destruct (check_context N sv ctx (it_Transaction tx) sig) as [[]|e]; cbn [fst snd]; [|by destruct (is_panic e)].
  case_bool_decide as Hn; [by apply wp_ret|]. apply wp_bind, wp_gets. destruct (negb _); [by apply wp_ret|].
  apply wp_bind. unfold wp at 1. destruct (check_funds N _ _ p) as [[[]|e] p']; cbn [fst snd]; [|done..| |done]; apply wp_ret.
  - by apply selected_keep.
  - by apply selected_skip.
Qed.

Lemma select_txs_selected ctx txs seen r p :
  Forall indexed_ok txs -> selected seen r -> ordered_by Z.le (seen ++ txs) ->
  wp (select_txs N sv ctx txs r) (fun res (_ : BP) => match res with Ok r' => selected (seen ++ txs) r' | Err _ => True end) p.
Proof.
  intros Hok. revert seen r p. induction Hok as [|tx txs Htx Hok IH]; intros seen r p Hr Ho; cbn [select_txs].
  { apply wp_ret. by rewrite app_nil_r. }
  rewrite cons_middle, app_assoc in *. apply wp_bind. eapply wp_mono; [apply (select_tx_selected ctx tx seen r)|]; try done.
  { eapply StronglySorted_sublist; [|exact Ho]. apply sublist_map, sublist_inserts_r. done. }
  intros [r'|e] p' Hr'; [by apply IH|done].
Qed.

Lemma selected_nil invalid : selected [] (mkPrepared ∅ [] [] 0 invalid).
Proof.
  constructor; cbn; try constructor.
  - by intros tx ?%not_elem_of_nil.
  - intros s n. by rewrite lookup_empty.
Qed.

(** The block that is made of a selection. *)
Definition well_proposed (limit : Z) (txs block : list Transaction) : Prop :=
  exists own voteBody rest, block = own ++ option_list voteBody ++ rest /\
    own `sublist_of` txs /\ rest `sublist_of` txs /\ in_order Z.lt own /\ in_order Z.lt rest /\
    (0 <= limit -> sum_list_Z (map tx_size own) <= limit /\
     (sum_list_Z (map tx_size (own ++ option_list voteBody)) <= limit -> sum_list_Z (map tx_size block) <= limit)).

Lemma selected_block limit ok r own maxTxBytes voteBody :
  Forall indexed_ok ok -> selected ok r -> take_prefix limit (propTxs r) = (own, maxTxBytes) ->
  well_proposed limit (map it_Transaction ok) (own ++ option_list voteBody ++
    take_fitting (maxTxBytes - match voteBody with Some tx => zlen (serialize tx) | None => 0 end) ∅ (otherTxns r)).
Proof.
  intros Hok [S1 S2 S3 S4 _ _] E.
  assert (forall l, l `sublist_of` ok -> Forall indexed_ok l) as Hsub.
  { intros l Hl. apply list.Forall_forall. intros x Hx. rewrite list.Forall_forall in Hok. apply Hok. by eapply elem_of_sublist. }
  destruct (take_prefix_spec _ _ _ _ E (Hsub _ S1)) as (Hp & Hs & Hpos). assert (own `sublist_of` map it_Transaction (propTxs r)) as Hp' by (destruct Hp as [k ->]; by apply sublist_inserts_r).
  set (m := maxTxBytes - _). destruct (take_fitting_spec m ∅ _ (Hsub _ S2)) as [Hf Hz].
  exists own, voteBody, (take_fitting m ∅ (otherTxns r)). split; [done|]. split_and!.
  - etransitivity; [exact Hp'|by apply sublist_map].
  - etransitivity; [exact Hf|by apply sublist_map].
  - by eapply StronglySorted_sublist.
  - by eapply StronglySorted_sublist.
  - intros Hl. specialize (Hpos Hl). split; [lia|]. rewrite app_assoc, !map_app, !sum_list_Z_app. intros Hfit. 
    assert (sum_list_Z (map tx_size (option_list voteBody)) =
      match voteBody with Some tx => zlen (serialize tx) | None => 0 end) as Ev by (destruct voteBody; [apply Z.add_0_r|done]).
    rewrite Ev in *. subst m. lia.
Qed.

Lemma prepare_well_proposed txs blockTime p :
  in_order Z.le (filter (fun t => has_body t) (map Mempool.ntx_Transaction txs)) ->
  wp (prepareBlockTransactions N sv txs blockTime)
    (fun r (_ : BP) => match r with
       | Ok (block, _) => well_proposed (MaxBlockSize (netParams p)) (map Mempool.ntx_Transaction txs) block
       | Err _ => True
       end) p.
Proof.
  intros Ho. unfold prepareBlockTransactions. apply wp_bind, wp_gets. apply wp_bind, wp_gets.
  destruct (index_txs 0 txs) as [ok inv0] eqn:Ei. destruct (index_txs_spec _ _ _ _ Ei) as [Eok Hok].
  rewrite <- Eok in Ho. rewrite sort_by_nonce_ordered by done. apply wp_bind.
  eapply wp_mono.
  { apply wp_and; [apply (select_txs_selected _ ok [] _ p Hok (selected_nil inv0) Ho)|].
    exact (select_txs_chain _ ok (mkPrepared ∅ [] [] 0 inv0) p : wp _ (fun _ p' => same_chain p p') p). }
  intros [r|e] p1 [Hr Hc]; [|done]. apply wp_bind, wp_gets.
  destruct (take_prefix (MaxBlockSize (netParams p1)) (propTxs r)) as [own rest] eqn:Et.
  apply wp_bind. unfold wp at 1. destruct (awrap _ _ p1) as [[voteBody|e] p2]; cbn [fst snd]; [|done].
  apply wp_ret. assert (netParams p1 = netParams p) as Enp by (unfold netParams; by rewrite Hc). rewrite Enp in Et.
  destruct (selected_block _ ok r own rest voteBody Hok Hr Et) as (o & v & l & Eb & Ho' & Hl & Hrest).
  exists o, v, l. rewrite Eok in Ho', Hl. split; [done|].
  split_and!; try apply Hrest; (etransitivity; [eassumption|apply sublist_filter]).
Qed.

(** C34. What a leader proposes, when the pending transactions of every sender
    come with non-decreasing nonces: first its own transactions, then the
    transaction with the bodies of its events if it makes one, then those of the
    others.  Each part keeps the order in which the transactions came, and the
    nonces of a sender strictly increase in it.  The leader's own transactions
    are within [MaxBlockSize], and if its vote transaction is too, the whole
    block is. *)
Theorem proposal_order_and_size txs blockTime p block invalid p' :
  in_order Z.le (filter (fun t => has_body t) (map Mempool.ntx_Transaction txs)) ->
  prepareBlockTransactions N sv txs blockTime p = (Ok (block, invalid), p') ->
  exists own voteBody rest, block = own ++ option_list voteBody ++ rest /\
    own `sublist_of` map Mempool.ntx_Transaction txs /\ rest `sublist_of` map Mempool.ntx_Transaction txs /\
    in_order Z.lt own /\ in_order Z.lt rest /\
    (0 <= MaxBlockSize (netParams p) ->
     sum_list_Z (map tx_size own) <= MaxBlockSize (netParams p) /\
     (sum_list_Z (map tx_size (own ++ option_list voteBody)) <= MaxBlockSize (netParams p) ->
      sum_list_Z (map tx_size block) <= MaxBlockSize (netParams p))).
Proof. intros Ho E. pose proof (prepare_well_proposed txs blockTime p Ho) as H. unfold wp in H. by rewrite E in H. Qed.
End proposal.

(** The sort by nonce is wrong on three transactions of a sender: on the
    example of its documentation, where the transactions of [b] come with the
    nonces 2, 0, 1 and are documented to be placed as 0, 1, 2, they are placed
    as 1, 2, 0: [Swap] takes the positions in the whole list from fields that it
    does not update. *)
Theorem sort_by_nonce_misplaces :
  let tx s n i := mkIndexed i (mkTransaction None None SignedMsgConcat (Some [s])) (mkBody [] None [] (Some 0) n []) 0 [] in
  let a := x61 in let b := x62 in
  sort_by_nonce [tx a 0 0%nat; tx b 2 1%nat; tx b 0 2%nat; tx a 1 3%nat; tx b 1 4%nat] =
    [tx a 0 0%nat; tx b 1 4%nat; tx b 2 1%nat; tx a 1 3%nat; tx b 0 2%nat].
Proof. vm_compute. reflexivity. Qed.
