(* ===== verification/ProcessorSamples.v ===== *)
(** * Concrete processors

    A processor with the resolutions of the repository, a codec of network
    parameters, and blocks at which the theorems of ProcessorFacts.v and
    ProposalFacts.v apply. *)

From S2P Require Import Prelude.
From S2P Require Import Wire.
From S2P Require Import BigInt.
From S2P Require Import Keys.
From S2P Require Import Ident.
From S2P Require Import Order.
From S2P Require Import Tx.
From S2P Require Import Block.
From S2P Require Import Params.
From S2P Require Import Payloads.
From S2P Require Import Values.
From S2P Require Import Auth.
From S2P Require Import Commit.
From S2P Require Import Cache.
From S2P Require Import Accounts.
From S2P Require Import Voting.
From S2P Require Import Events.
From S2P Require Mempool.
From S2P Require Import TxApp.
From S2P Require Import TxFacts.
From S2P Require Import TxSamples.
From S2P Require Import Admission.
From S2P Require Import Finalize.
From S2P Require Import FinalizeFacts.
From S2P Require Import Processor.
From S2P Require Import Proposal.
From S2P Require Import ProcessorFacts.
From S2P Require Import ProposalFacts.
From Stdlib Require Import Strings.Byte.

#[local] Open Scope Z_scope.

Import FinalizeFacts.Samples.

(** ** A codec of network parameters *)

#[export] Instance PublicKey_countable : Countable PublicKey.
Proof.
  refine (inj_countable' (fun k => (pk_Type k, pk_Bytes k)) (fun '(t, b) => mkPublicKey t b) _). by intros [].
Defined.

#[export] Instance NetworkParameters_eq_decision : EqDecision NetworkParameters.
Proof. solve_decision. Defined.

#[export] Instance NetworkParameters_countable : Countable NetworkParameters.
Proof.
  refine (inj_countable' (fun np => (np_Leader np, MaxBlockSize np, JoinExpiry np, DisabledGasCosts np, MaxVotesPerTx np, MigrationStatus np))
    (fun '(l, b, j, g, v, m) => mkParams l b j g v m) _). by intros [].
Defined.

Fixpoint pos_bytes (p : positive) : bytes :=
  match p with
  | xH => []
  | xO p => x00 :: pos_bytes p
  | xI p => x01 :: pos_bytes p
  end.

Fixpoint bytes_pos (b : bytes) : positive :=
  match b with
  | [] => xH
  | x00 :: b => xO (bytes_pos b)
  | _ :: b => xI (bytes_pos b)
  end.

Lemma bytes_pos_bytes p : bytes_pos (pos_bytes p) = p.
Proof. induction p; cbn; congruence. Qed.

#[export] Instance params_codec : ParamsCodec := {
  params_Marshal np := Ok (pos_bytes (encode np));
  params_Unmarshal b := match decode (bytes_pos b) with Some np => Ok np | None => Err (ErrMsg "invalid params") end
}.

Lemma params_codec_ok np bts : params_Marshal np = Ok bts -> params_Unmarshal bts = Ok np.
Proof. intros [= <-]. cbn. by rewrite bytes_pos_bytes, decode_encode. Qed.

(** ** A processor between blocks *)

Definition node_key : PublicKey := mkPublicKey KeyTypeSecp256k1 [x09].

Definition services : Services (list (list byte * Account)) unit :=
  mkServices (fun b => b) (fun _ _ _ => []) (fun _ => false) (fun _ => []) (fun _ _ => mret tt) (fun _ => Ok tt)
    (fun _ x => Ok x) None node_key (fun _ => Ok (mkSignature (Some []) Secp256k1Auth)).

Definition proc : Type := Processor (list (list byte * Account)) unit.

Definition chain_meta (np : NetworkParameters) (height : Z) (hash : bytes) : metadata :=
  mkMetadata (Some (height, Some hash, false)) (Some (pos_bytes (encode np))).

(** At height 9, with the accounts, votes and tables of a state. *)
Definition resting (st : state) : proc :=
  let m := chain_meta (NetworkParameters_ (ap_chain st)) 9 zero_hash in
  mkProcessor st m (mkDatabase (ap_tables st) (ap_engine st) m) false false zero_hash 9 None None false [].

Definition voting_proc : proc := resting (voting_state with_vote).

Lemma resting_at_rest st :
  tx_table (ap_accounts st) = db_table (ap_accounts st) -> deleted (ap_events st) = ∅ ->
  updates (ap_accounts st) = ∅ -> spends (ap_accounts st) = [] -> valUpdates (ap_votes st) = ∅ ->
  NetworkUpdates (ap_chain st) = None -> ap_approvedJoins st = [] -> at_rest (resting st).
Proof.
  intros Ht Hd Hu Hs Hv Hn Hj. constructor; cbn; try done.
  - unfold committed_app. cbn. rewrite <- Ht. destruct st as [[] ? ? [] ? ? ? ?]; cbn in *. by rewrite Ht, Hd.
  - unfold LoadParams. cbn. by rewrite bytes_pos_bytes, decode_encode.
  - unfold chainCtx. cbn. by rewrite Hn.
Qed.

Lemma voting_proc_at_rest : at_rest voting_proc.
Proof. apply (resting_at_rest (voting_state with_vote)); reflexivity. Qed.

Lemma quiet_host_ok (sv : Services (list (list byte * Account)) unit) :
  sv_NotifyHeight sv = (fun _ _ => mret tt) -> sv_broadcastTxFn sv = None -> host_ok voting_node sv ∅.
Proof.
  intros Hm Hb. constructor.
  - exact voting_node_ok.
  - intros name cfg R block E. unfold GetResolution in E. case_match eqn:Ec; [|discriminate E].
    injection E as <-. destruct (regs_types _ _ Ec) as (_ & _ & _ & Hty).
    destruct (native_resolvers_keep voting_node R block) as (H1 & H2 & H3 & H4).
    destruct Hty as [[_ ->]|[[_ ->]|[[_ ->]|[_ ->]]]]; done.
  - intros name h block E. by rewrite lookup_empty in E.
  - intros d block st. by rewrite Hm.
  - by rewrite Hb.
Qed.

Lemma voting_host_ok : host_ok voting_node services ∅.
Proof. by apply quiet_host_ok. Qed.

(** ** Blocks *)

Definition header (newLeader : option PublicKey) : BlockHeader :=
  mkHeader 0 10 0 zero_hash zero_hash 1700000000000000000 [] [] [] newLeader.

Definition request (txs : list Transaction) : BlockExecRequest :=
  mkExecRequest 10 (mkBlock (header None) txs None) zero_hash (Some node_key).

(** Bob pays Carol, who has no account; then Carol sends a transaction that does
    not consent to its price. *)
Definition carol : AccountID := mkAccountID (Some [x05]) KeyTypeSecp256k1.

Definition payload_to (to : AccountID) (amt : Z) : slice :=
  match Transfer_MarshalBinary test_registry (mkTransfer (Some to) (Some amt)) with Ok b => Some b | Err _ => None end.

Definition pays (from : bytes) (to : AccountID) (amt fee nonce : Z) : Transaction :=
  mkTransaction (Some (mkSignature None Secp256k1Auth))
    (Some (mkBody [] (payload_to to amt) PayloadTypeTransfer (Some fee) nonce (str "kwil-test"))) SignedMsgConcat (Some from).

Definition blockA : BlockExecRequest := request [pays [x02] carol 50000 210000 1; pays [x05] bob 1 10 1].

Definition run (req : BlockExecRequest) (p : proc) : result BlockExecResult * proc :=
  ExecuteBlock voting_node services ∅ req false (fun _ => false) p.

(** ** The theorems at a block *)

Definition result_of (r : result BlockExecResult * proc) : BlockExecResult :=
  match fst r with Ok res => res | Err _ => mkExecResult [] [] [] ∅ end.

Lemma runs_ok (r : result BlockExecResult * proc) :
  match fst r with Ok _ => true | Err _ => false end = true -> r = (Ok (result_of r), snd r).
Proof. by destruct r as [[]]. Qed.

Lemma blockA_runs : run blockA voting_proc = (Ok (result_of (run blockA voting_proc)), snd (run blockA voting_proc)).
Proof. apply runs_ok. vm_compute. reflexivity. Qed.

Lemma rollback_undoes_block_witness :
  exists p2, Rollback 9 zero_hash (snd (run blockA voting_proc)) = (Ok tt, p2) /\ at_rest p2 /\ same_state voting_proc p2.
Proof.
  pose proof (rollback_undoes_block voting_node services ∅ voting_host_ok blockA false (fun _ => false) voting_proc
    voting_proc_at_rest) as H.
  unfold run. destruct (ExecuteBlock _ _ _ _ _ _ _) as [r p1]. exact H.
Defined.

Lemma app_hash_deterministic_witness :
  exists sh, stateHashes (snd (run blockA voting_proc)) = Some sh /\
    (forall l, l ≡ₚ (map_to_list (updates (ap_accounts (bp_txapp (snd (run blockA voting_proc)))))).*2 -> Sorted account_le l ->
       sh_Accounts sh = concat (map (account_preimage test_registry) l)).
Proof.
  destruct (app_hash_deterministic voting_node services ∅ voting_host_ok blockA false (fun _ => false) voting_proc _ _
    voting_proc_at_rest blockA_runs) as (sh & E & _ & H & _).
  exists sh. split; [exact E|exact H].
Defined.

Definition block_hash : bytes := replicate 32 x07.

Definition block_info (h : Z) : result (option CommitInfo) := Ok (Some (mkCommitInfo block_hash [] ∅ [])).

Lemma commit_survives_crash_witness :
  exists p2 p3, Commit services 10 block_hash (snd (run blockA voting_proc)) = (Ok tt, p3) /\
    commit_state 10 block_hash (snd (run blockA voting_proc)) = (Ok tt, p2) /\
    exists p4, NewBlockProcessor services (mkGenesisConfig (str "kwil-test") 0 [] [] None [] (0, 0) (gas_params false)) block_info
      (voting_state types_only) (bp_db p2) = Ok (Some p4) /\ bp_db p4 = bp_db p3.
Proof.
  destruct (commit_survives_crash voting_node services ∅ voting_host_ok
    (mkGenesisConfig (str "kwil-test") 0 [] [] None [] (0, 0) (gas_params false))
    blockA false (fun _ => false) voting_proc _ _ block_info (mkCommitInfo block_hash [] ∅ []) (voting_state types_only)
    params_codec_ok (fun _ x => ex_intro _ x eq_refl) voting_proc_at_rest eq_refl eq_refl blockA_runs eq_refl)
    as (p2 & p3 & E1 & _ & _ & _ & _ & _ & E2 & p4 & E4 & Ed & _).
  exists p2, p3. split; [exact E1|]. split; [exact E2|]. exists p4. split; [exact E4|exact Ed].
Defined.

Definition new_leader_block : BlockExecRequest :=
  mkExecRequest 10 (mkBlock (header (Some node_key)) [] None) zero_hash (Some node_key).

Definition genesis : GenesisConfig := mkGenesisConfig (str "kwil-test") 0 [] [] None [] (0, 0) (gas_params false).

Definition started : proc :=
  match NewBlockProcessor services genesis block_info (voting_state types_only) (bp_db voting_proc) with
  | Ok (Some p) => p
  | _ => voting_proc
  end.

Lemma started_ok :
  NewBlockProcessor services genesis block_info (voting_state types_only) (bp_db voting_proc) = Ok (Some started).
Proof.
  assert (match NewBlockProcessor services genesis block_info (voting_state types_only) (bp_db voting_proc) with
          | Ok (Some _) => true | _ => false end = true) as H by (vm_compute; reflexivity).
  unfold started. by destruct (NewBlockProcessor _ _ _ _ _) as [[p|]|e].
Qed.

Lemma leader_change_after_start_panics_witness :
  exists p', run new_leader_block started = (Err (ErrPanic "assignment to entry in nil map"), p').
Proof.
  destruct (leader_change_after_start_panics voting_node services ∅ genesis block_info (voting_state types_only) (bp_db voting_proc)
    started new_leader_block false (fun _ => false) node_key started_ok eq_refl) as (p' & E & _).
  exists p'. exact E.
Defined.

(** Pending transactions of the node itself and of Bob, in order. *)
Definition pending : list Mempool.NodeTx :=
  map (fun t => Mempool.mkNodeTx t []) [pays [x02] carol 1 210000 1; pays [x09] carol 1 210000 1; pays [x02] carol 2 210000 2].

Definition free_proc : proc := resting (start_state true rich).

Definition proposed : result (list Transaction * list Transaction) * proc :=
  prepareBlockTransactions voting_node services pending 1700000000000000000 free_proc.

Lemma proposal_order_and_size_witness :
  exists block, fst proposed = Ok (block, []) /\ map tx_nonce block = [1; 1; 2] /\
    exists own voteBody rest, block = own ++ option_list voteBody ++ rest /\ in_order Z.lt own /\ in_order Z.lt rest.
Proof.
  eexists. split; [vm_compute; reflexivity|]. split; [reflexivity|].
  destruct (proposal_order_and_size voting_node services pending 1700000000000000000 free_proc _ _ (snd proposed)
    ltac:(repeat constructor; vm_compute; congruence) ltac:(vm_compute; reflexivity))
    as (own & voteBody & rest & E & _ & _ & H1 & H2 & _).
  exists own, voteBody, rest. split; [exact E|]. split; [exact H1|exact H2].
Defined.
