(* ===== verification/Store.v ===== *)
(** * The block store

    [BlockStore] of src/node/store/store.go over the key-value store Badger, the
    in-memory store of src/node/store/memstore/memstore.go, and the codec of
    transaction results in src/core/types/results.go.  Badger is not in the
    repository: it is a class of operations, with the documented behaviour of
    transactions and iterators in [Badger_ok].  The mutex makes operations
    atomic; metrics are left out.  [TxResult.Events] has elements without data
    and is left out. *)

From S2P Require Import Prelude.
From S2P Require Import Wire.
From S2P Require Import Keys.
From S2P Require Import Tx.
From S2P Require Import Merkle.
From S2P Require Import Block.
From S2P Require Import Params.
From S2P Require Import Commit.
From S2P Require Consensus.
From Stdlib Require Import Strings.Byte.

#[local] Open Scope Z_scope.

Export Consensus (TxResult, mkTxResult, tr_Code, tr_Gas, tr_Log).

(** ** Badger *)

Definition ErrKeyNotFound : error := ErrSentinel "Key not found".
Definition ErrTxnTooBig : error := ErrSentinel "Txn is too big to fit into one request".

(** A database of type [D] and its write transactions of type [T].  [db_Get]
    reads in a view; [None] is [ErrKeyNotFound].  [db_Iterate] is what an
    iterator with a prefix visits. *)
Class Badger (D T : Type) := {
  db_Get : D -> bytes -> option bytes;
  db_Iterate : D -> bytes -> list (bytes * bytes);
  txn_New : T;
  txn_Set : T -> bytes -> bytes -> result T;
  txn_Commit : T -> D -> result D
}.

(** [txn_writes] is what a transaction has set. *)
Class Badger_ok (D T : Type) `{Badger D T} := {
  txn_writes : T -> gmap (list byte) bytes;
  txn_New_ok : txn_writes txn_New = ∅;
  txn_Set_ok t k v t' : txn_Set t k v = Ok t' -> txn_writes t' = <[k := v]> (txn_writes t);
  txn_Commit_ok t d d' k : txn_Commit t d = Ok d' ->
    db_Get d' k = match txn_writes t !! k with Some v => Some v | None => db_Get d k end;
  db_Iterate_ok d p k v : (k, v) ∈ db_Iterate d p <-> p `prefix_of` k /\ db_Get d k = Some v;
  db_Iterate_NoDup d p : NoDup (db_Iterate d p).*1
}.

(** ** Results *)

Definition zero_TxResult : TxResult := mkTxResult 0 0 [].

(** [TxResult.MarshalBinary]; the gas is not encoded. *)
Definition TxResult_MarshalBinary (tr : TxResult) : bytes :=
  be_bytes 2 0 ++ be_bytes 4 (u32 (tr_Code tr)) ++ be_bytes 4 (u32 (zlen (tr_Log tr))) ++ tr_Log tr ++ be_bytes 2 0.

(** The events at [data], which only have to be there. *)
Fixpoint skip_events (n : nat) (data : bytes) : result unit :=
  match n with
  | O => Ok tt
  | S n' =>
      if zlen data <? 2 then Err (ErrMsg "insufficient data for event length")
      else
        let eventLen := be_value (take 2 data) in
        if zlen data <? 2 + eventLen then Err (ErrMsg "insufficient data for event")
        else skip_events n' (drop (Z.to_nat (2 + eventLen)) data)
  end.

Definition TxResult_UnmarshalBinary (data : bytes) : result TxResult :=
  if zlen data <? 10 then Err (ErrMsg "insufficient data")
  else if negb (be_value (take 2 data) =? 0) then Err (ErrMsg "unsupported version")
  else
    let code := be_value (take 4 (drop 2 data)) in
    let logLen := be_value (take 4 (drop 6 data)) in
    if zlen data <? 10 + logLen then Err (ErrMsg "insufficient data for log")
    else
      let log := take (Z.to_nat logLen) (drop 10 data) in
      let data := drop (Z.to_nat (10 + logLen)) data in
      if zlen data <? 2 then Err (ErrMsg "insufficient data for events length")
      else
        _ ← skip_events (Z.to_nat (be_value (take 2 data))) (drop 2 data);
        mret (mkTxResult code 0 log).

(** ** State *)

Record blockHashes := mkBlockHashes {
  bh_hash : bytes;
  bh_appHash : bytes;
  bh_stamp : Z
}.

Record BlockStore (D : Type) := mkBlockStore {
  bestHeight : Z;
  bestHash : bytes;
  idx : gmap (list byte) Z;
  hashes : gmap Z blockHashes;
  fetching : gset (list byte);
  bdb : D
}.
Arguments mkBlockStore {D}.
Arguments bestHeight {D}.
Arguments bestHash {D}.
Arguments idx {D}.
Arguments hashes {D}.
Arguments fetching {D}.
Arguments bdb {D}.

Definition nsHeader : bytes := str "h:".
Definition nsBlock : bytes := str "b:".
Definition nsTxn : bytes := str "t:".
Definition nsResults : bytes := str "r:".
Definition nsCommitInfo : bytes := str "c:".

Definition zeroHash : bytes := replicate HashLen x00.

Definition makeTxVal (height : Z) (blkHash : bytes) (i : Z) : bytes :=
  le_bytes 8 (u64 height) ++ blkHash ++ le_bytes 4 (u32 i).

Definition blkInfoLen : Z := 44.

Section store.
Context (HashBytes : bytes -> bytes) (reg : registry).
Context {D T : Type} `{HB : !Badger D T}.
#[local] Abbreviation BS := (BlockStore D).
Implicit Types s : BS.

Definition set_bdb s (d : D) : BS := mkBlockStore (bestHeight s) (bestHash s) (idx s) (hashes s) (fetching s) d.
Definition set_fetching s f : BS := mkBlockStore (bestHeight s) (bestHash s) (idx s) (hashes s) f (bdb s).

(** The index of a block in memory. *)
Definition index_block (hash : bytes) (height : Z) (bh : blockHashes) s : BS :=
  let better := bestHeight s <? height in
  mkBlockStore (if better then height else bestHeight s) (if better then hash else bestHash s)
    (<[hash := height]> (idx s)) (<[height := bh]> (hashes s)) (fetching s) (bdb s).

(** ** Opening a store *)

(** One entry of the header namespace. *)
Definition index_entry (kv : bytes * bytes) s : result BS :=
  let '(key, val) := kv in
  '(hdr, _) ← DecodeBlockHeader reg HasLen val;
  if zlen key <? 34 then Err (ErrMsg "block hash in block index")
  else
    let hash := take HashLen (drop 2 key) in
    match db_Get (bdb s) (nsCommitInfo ++ drop 2 key) with
    | None => Err ErrKeyNotFound
    | Some raw =>
        ci ← CommitInfo_UnmarshalBinary reg raw;
        mret (index_block hash (bh_Height hdr) (mkBlockHashes hash (ci_AppHash ci) (Timestamp hdr)) s)
    end.

Fixpoint index_entries (kvs : list (bytes * bytes)) s : result BS :=
  match kvs with
  | [] => Ok s
  | kv :: kvs' => s' ← index_entry kv s; index_entries kvs' s'
  end.

Definition NewBlockStore (d : D) : result BS :=
  index_entries (db_Iterate d nsHeader) (mkBlockStore 0 zeroHash ∅ ∅ ∅ d).

(** ** Writes *)

(** A transaction that is too big is committed and replaced; what did not fit is
    not set in the new one. *)
Definition mayReplaceTx (txn : T) (r : result T) : action D T := fun d =>
  match r with
  | Ok txn' => (Ok txn', d)
  | Err e =>
      if errors_is e ErrTxnTooBig then
        match txn_Commit txn d with
        | Ok d' => (Ok txn_New, d')
        | Err e' => (Err e', d)
        end
      else (Err e, d)
  end.

Fixpoint set_all (kvs : list (bytes * bytes)) (txn : T) : action D T :=
  match kvs with
  | [] => mret txn
  | (k, v) :: kvs' => txn' ← mayReplaceTx txn (txn_Set txn k v); set_all kvs' txn'
  end.

Definition commit_txn (txn : T) : action D unit := fun d =>
  match txn_Commit txn d with
  | Ok d' => (Ok tt, d')
  | Err e => (Err e, d)
  end.

Definition on_db {A} (m : action D A) : action BS A := fun s =>
  let '(r, d) := m (bdb s) in (r, set_bdb s d).

Definition result_key (hash : bytes) (i : nat) : bytes := nsResults ++ hash ++ le_bytes 4 (u32 (Z.of_nat i)).

Definition StoreResults (hash : bytes) (results : list TxResult) : action BS unit :=
  on_db (txn ← set_all (imap (fun i res => (result_key hash i, TxResult_MarshalBinary res)) results) txn_New;
         commit_txn txn).

(** The hashes of the transactions in an array of the length that the header
    says. *)
Definition tx_hashes (blk : Block) : result (list bytes) :=
  let n := Z.to_nat (NumTxns (Header blk)) in
  if (n <? length (Txns blk))%nat then Err (ErrPanic "index out of range")
  else Ok (map (Tx_Hash HashBytes) (Txns blk) ++ replicate (n - length (Txns blk)) zeroHash).

Definition tx_entries (height : Z) (blkHash : bytes) (txHashes : list bytes) : list (bytes * bytes) :=
  imap (fun i txHash => (nsTxn ++ txHash, makeTxVal height blkHash (Z.of_nat i))) txHashes.

Definition Store (blk : Block) (commitInfo : option CommitInfo) : action BS unit :=
  blkHash ← alift (Block_Hash HashBytes reg blk);
  let height := bh_Height (Header blk) in
  rawBlk ← alift (EncodeBlock reg blk);
  txHashes ← alift (tx_hashes blk);
  hdr ← alift (writeBlockHeader reg (Header blk));
  txn ← alift (txn_Set txn_New (nsHeader ++ blkHash) (hdr ++ slice_bytes (blk_Signature blk)));
  txn ← alift (txn_Set txn (nsBlock ++ blkHash) rawBlk);
  match commitInfo with
  | None => afail (ErrPanic "nil pointer dereference")
  | Some ci =>
      ciBytes ← alift (CommitInfo_MarshalBinary reg ci);
      txn ← alift (txn_Set txn (nsCommitInfo ++ blkHash) ciBytes);
      txn ← on_db (set_all (tx_entries height blkHash txHashes) txn);
      _ ← on_db (commit_txn txn);
      modify (fun s => index_block blkHash height (mkBlockHashes blkHash (ci_AppHash ci) (Timestamp (Header blk)))
                         (set_fetching s (fetching s ∖ {[blkHash]})))
  end.

Definition PreFetch (blkid : bytes) : action BS bool := fun s =>
  if bool_decide (is_Some (idx s !! blkid)) || bool_decide (blkid ∈ fetching s) then (Ok false, s)
  else (Ok true, set_fetching s ({[blkid]} ∪ fetching s)).

(** The function that [PreFetch] returns. *)
Definition PreFetch_done (blkid : bytes) s : BS := set_fetching s (fetching s ∖ {[blkid]}).

(** ** Reads *)

Definition Have s (hash : bytes) : bool := bool_decide (is_Some (idx s !! hash)).

(** The best block; the zero hashes for a height without one. *)
Definition Best s : Z * bytes * bytes * Z :=
  let bh := default (mkBlockHashes zeroHash zeroHash Consensus.zero_time) (hashes s !! bestHeight s) in
  (bestHeight s, bestHash s, bh_appHash bh, bh_stamp bh).

(** [item.Value(func(val) { result.UnmarshalBinary(val) })] on a key. *)
Definition Result (hash : bytes) (i : Z) s : result TxResult :=
  match db_Get (bdb s) (nsResults ++ hash ++ le_bytes 4 (u32 i)) with
  | None => Err ErrKeyNotFound
  | Some val => TxResult_UnmarshalBinary val
  end.

Fixpoint collect_results (txCount : Z) (kvs : list (bytes * bytes)) (results : list TxResult) : result (list TxResult) :=
  match kvs with
  | [] => Ok results
  | (key, val) :: kvs' =>
      if zlen key <? 38 then Err (ErrPanic "index out of range")
      else
        let i := le_value (take 4 (drop 34 key)) in
        if txCount <=? i then Err (ErrMsg "invalid tx index")
        else res ← TxResult_UnmarshalBinary val;
             collect_results txCount kvs' (<[Z.to_nat i := res]> results)
  end.

Definition Results (hash : bytes) s : result (list TxResult) :=
  match db_Get (bdb s) (nsHeader ++ hash) with
  | None => Err ErrKeyNotFound
  | Some val =>
      '(hdr, _) ← DecodeBlockHeader reg HasLen val;
      collect_results (NumTxns hdr) (db_Iterate (bdb s) (nsResults ++ hash))
        (replicate (Z.to_nat (NumTxns hdr)) zero_TxResult)
  end.

(** The commit info beside a block; an error of its decoding is returned as the
    second component. *)
Definition GetRaw (blkHash : bytes) s : result (bytes * (bytes * result CommitInfo)) :=
  if negb (Have s blkHash) then Err ErrNotFound
  else match db_Get (bdb s) (nsBlock ++ blkHash), db_Get (bdb s) (nsCommitInfo ++ blkHash) with
  | Some rawBlock, Some raw => Ok (rawBlock, (raw, CommitInfo_UnmarshalBinary reg raw))
  | _, _ => Err ErrNotFound
  end.

Definition Get (blkHash : bytes) s : result (Block * CommitInfo) :=
  if negb (Have s blkHash) then Err ErrNotFound
  else match db_Get (bdb s) (nsBlock ++ blkHash) with
  | None => Err ErrNotFound
  | Some val =>
      match DecodeBlock reg val with
      | Err _ => Err (ErrPanic "nil pointer dereference")
      | Ok block =>
          match db_Get (bdb s) (nsCommitInfo ++ blkHash) with
          | None => Err ErrNotFound
          | Some raw => ci ← CommitInfo_UnmarshalBinary reg raw; mret (block, ci)
          end
      end
  end.

(** What [UnmarshalBinary] has put into [AppHash], with or without an error. *)
Definition read_AppHash (raw : bytes) : bytes := take HashLen raw ++ drop (length raw) zeroHash.

Definition GetRawByHeight (height : Z) s : result (bytes * bytes * result CommitInfo) :=
  match hashes s !! height with
  | None => Err ErrNotFound
  | Some h =>
      '(blk, (raw, ci)) ← GetRaw (bh_hash h) s;
      if bool_decide (read_AppHash raw = bh_appHash h) then mret (bh_hash h, blk, ci)
      else Err (ErrMsg "appHash mismatch")
  end.

Definition GetByHeight (height : Z) s : result (bytes * Block * CommitInfo) :=
  match hashes s !! height with
  | None => Err ErrNotFound
  | Some h =>
      '(blk, ci) ← Get (bh_hash h) s;
      if bool_decide (ci_AppHash ci = bh_appHash h) then mret (bh_hash h, blk, ci)
      else Err (ErrMsg "appHash mismatch")
  end.

Definition GetBlockHeader (blkHash : bytes) s : result BlockHeader :=
  if negb (Have s blkHash) then Err ErrNotFound
  else match db_Get (bdb s) (nsBlock ++ blkHash) with
  | None => Err ErrNotFound
  | Some val =>
      match DecodeBlock reg val with
      | Err _ => Err (ErrPanic "nil pointer dereference")
      | Ok block => Ok (Header block)
      end
  end.

Definition GetBlockHeaderByHeight (height : Z) s : result BlockHeader :=
  '(_, blk, _) ← GetByHeight height s; mret (Header blk).

Definition HaveTx (txHash : bytes) s : bool := bool_decide (is_Some (db_Get (bdb s) (nsTxn ++ txHash))).

(** The transaction, its height, block and index. *)
Definition GetTx (txHash : bytes) s : result (Transaction * Z * bytes * Z) :=
  match db_Get (bdb s) (nsTxn ++ txHash) with
  | None => Err ErrNotFound
  | Some val =>
      if zlen val <? blkInfoLen then Err (ErrMsg "invalid block info for tx")
      else
        let height := i64 (le_value (take 8 val)) in
        let blkHash := take HashLen (drop 8 val) in
        let blkIdx := le_value (take 4 (drop 40 val)) in
        match db_Get (bdb s) (nsBlock ++ blkHash) with
        | None => Err ErrNotFound
        | Some rawBlk =>
            raw ← GetRawBlockTx reg rawBlk blkIdx;
            tx ← Tx_UnmarshalBinary false zero_Transaction raw;
            mret (tx, height, blkHash, blkIdx)
        end
  end.

(** The block store as the consensus engine uses it; [Sync] only flushes. *)
#[export] Instance store_interface : Consensus.BlockStore BS := {|
  Consensus.bs_Best s := let '(height, hash, appHash, _) := Best s in (height, hash, appHash);
  Consensus.bs_Store := Store;
  Consensus.bs_GetByHeight := GetByHeight;
  Consensus.bs_StoreResults := StoreResults;
  Consensus.bs_Sync := mret tt
|}.
End store.

(** ** The store in memory *)

Module Mem.

Record MemBS := mkMemBS {
  mb_idx : gmap (list byte) Z;
  mb_hashes : gmap Z (bytes * bytes);
  mb_blocks : gmap (list byte) Block;
  mb_commitInfo : gmap (list byte) CommitInfo;
  mb_txResults : gmap (list byte) (list TxResult);
  mb_txIds : gmap (list byte) bytes
}.

Definition NewMemBS : MemBS := mkMemBS ∅ ∅ ∅ ∅ ∅ ∅.

Section mem.
Context (HashBytes : bytes -> bytes) (reg : registry).
Implicit Types m : MemBS.

Definition Store (block : Block) (ci : option CommitInfo) : action MemBS unit :=
  match ci with
  | None => afail (ErrMsg "commit info is nil")
  | Some ci =>
      blkHash ← alift (Block_Hash HashBytes reg block);
      let height := bh_Height (Header block) in
      modify (fun m => mkMemBS (<[blkHash := height]> (mb_idx m)) (<[height := (blkHash, ci_AppHash ci)]> (mb_hashes m))
        (<[blkHash := block]> (mb_blocks m)) (<[blkHash := ci]> (mb_commitInfo m)) (mb_txResults m)
        (foldl (fun ids tx => <[Tx_Hash HashBytes tx := blkHash]> ids) (mb_txIds m) (Txns block)))
  end.

Definition StoreResults (hash : bytes) (results : list TxResult) : action MemBS unit :=
  modify (fun m => mkMemBS (mb_idx m) (mb_hashes m) (mb_blocks m) (mb_commitInfo m) (<[hash := results]> (mb_txResults m)) (mb_txIds m)).

Definition Have m (blkid : bytes) : bool := bool_decide (is_Some (mb_idx m !! blkid)).

Definition Get (hash : bytes) m : result (Block * CommitInfo) :=
  match mb_blocks m !! hash, mb_commitInfo m !! hash with
  | Some blk, Some ci => Ok (blk, ci)
  | _, _ => Err ErrNotFound
  end.

Definition GetByHeight (height : Z) m : result (bytes * Block * CommitInfo) :=
  match mb_hashes m !! height with
  | None => Err ErrNotFound
  | Some (hash, _) => '(blk, ci) ← Get hash m; mret (hash, blk, ci)
  end.

Definition GetBlockHeader (hash : bytes) m : result BlockHeader :=
  match mb_blocks m !! hash with
  | Some blk => Ok (Header blk)
  | None => Err ErrNotFound
  end.

Definition Results (hash : bytes) m : result (list TxResult) :=
  match mb_txResults m !! hash with
  | Some res => Ok res
  | None => Err ErrNotFound
  end.

Definition HaveTx (txHash : bytes) m : bool := bool_decide (is_Some (mb_txIds m !! txHash)).

(** The first transaction of the block with the hash. *)
Fixpoint find_tx (txHash : bytes) (i : Z) (txs : list Transaction) : option (Transaction * Z) :=
  match txs with
  | [] => None
  | tx :: txs' => if bool_decide (Tx_Hash HashBytes tx = txHash) then Some (tx, i) else find_tx txHash (i + 1) txs'
  end.

Definition GetTx (txHash : bytes) m : result (Transaction * Z * bytes * Z) :=
  match mb_txIds m !! txHash ≫= fun h => mb_blocks m !! h with
  | None => Err ErrNotFound
  | Some blk =>
      match find_tx txHash 0 (Txns blk) with
      | None => Err ErrNotFound
      | Some (tx, i) => hash ← Block_Hash HashBytes reg blk; mret (tx, bh_Height (Header blk), hash, i)
      end
  end.

(** The block of the greatest height, whatever the order of the map. *)
Definition Best m : Z * bytes * bytes :=
  foldl (fun best kv => if best.1.1 <=? kv.1 then (kv.1, kv.2.1, kv.2.2) else best)
    (0, zeroHash, zeroHash) (map_to_list (mb_hashes m)).
End mem.
End Mem.
