(* ===== verification/StoreFacts.v ===== *)
(** * The block store against the store in memory

    The persistent store simulates the in-memory store: writes keep the relation,
    reads agree up to what the encodings do not keep, and a store that is opened
    on the same database is in relation with the same blocks. *)

From S2P Require Import Prelude.
From S2P Require Import Wire.
From S2P Require Import Keys.
From S2P Require Import Tx.
From S2P Require Import Merkle.
From S2P Require Import Block.
From S2P Require Import Params.
From S2P Require Import Commit.
From S2P Require Consensus.
From S2P Require Import Store.
From Stdlib Require Import Strings.Byte.

#[local] Open Scope Z_scope.

(** ** Results *)

(** The gas is lost. *)
Definition norm_result (tr : TxResult) : TxResult := mkTxResult (tr_Code tr) 0 (tr_Log tr).

Definition result_ok (tr : TxResult) : Prop := is_uint 32 (tr_Code tr) /\ zlen (tr_Log tr) < 2 ^ 32.

Lemma be_value_small n z : 0 <= z < 2 ^ (8 * Z.of_nat n) -> be_value (be_bytes n z) = z.
Proof. intros Hz. rewrite be_value_bytes. by apply Z.mod_small. Qed.

Lemma take_exact (a b : bytes) n : length a = n -> take n (a ++ b) = a.
Proof. intros <-. apply take_app_length. Qed.

Lemma drop_exact (a b : bytes) n : length a = n -> drop n (a ++ b) = b.
Proof. intros <-. apply drop_app_length. Qed.

Lemma TxResult_roundtrip tr : result_ok tr -> TxResult_UnmarshalBinary (TxResult_MarshalBinary tr) = Ok (norm_result tr).
Proof.
  intros [Hc Hl]. unfold TxResult_UnmarshalBinary, TxResult_MarshalBinary. pose proof (zlen_nonneg (tr_Log tr)) as Hp.
  rewrite !uwrap_small by (ints; lia).
  assert (be_value (be_bytes 2 0) = 0 /\ length (be_bytes 2 0) = 2%nat) as [Va La] by done.
  assert (be_value (be_bytes 4 (tr_Code tr)) = tr_Code tr /\ length (be_bytes 4 (tr_Code tr)) = 4%nat) as [Vc Lc]
    by (split; [apply be_value_small; ints|apply length_be_bytes]).
  assert (be_value (be_bytes 4 (zlen (tr_Log tr))) = zlen (tr_Log tr) /\ length (be_bytes 4 (zlen (tr_Log tr))) = 4%nat) as [Vl Ll]
    by (split; [apply be_value_small; ints; lia|apply length_be_bytes]).
  generalize dependent (be_bytes 4 (zlen (tr_Log tr))). generalize dependent (be_bytes 4 (tr_Code tr)).
  generalize dependent (be_bytes 2 0). intros a Va La c Vc Lc l Vl Ll.
  assert (zlen (a ++ c ++ l ++ tr_Log tr ++ a) = 12 + zlen (tr_Log tr)) as E.
  { rewrite !zlen_app. unfold zlen. rewrite La, Lc, Ll. lia. }
  assert (length (a ++ c) = 6%nat /\ length (a ++ c ++ l) = 10%nat) as [L6 L10] by (rewrite !length_app, La, Lc, Ll; done).
  assert (length (a ++ c ++ l ++ tr_Log tr) = Z.to_nat (10 + zlen (tr_Log tr))) as Lall.
  { rewrite !length_app, La, Lc, Ll. unfold zlen. lia. }
  rewrite E. destruct (Z.ltb_spec (12 + zlen (tr_Log tr)) 10); [lia|].
  rewrite (take_exact a _ 2 La), Va. cbn [negb Z.eqb].
  rewrite (drop_exact a _ 2 La), (take_exact c _ 4 Lc), Vc.
  replace (a ++ c ++ l ++ tr_Log tr ++ a) with ((a ++ c) ++ l ++ tr_Log tr ++ a) by (by rewrite !app_assoc).
  rewrite (drop_exact (a ++ c) _ 6 L6), (take_exact l _ 4 Ll), Vl.
  destruct (Z.ltb_spec (12 + zlen (tr_Log tr)) (10 + zlen (tr_Log tr))); [lia|].
  replace ((a ++ c) ++ l ++ tr_Log tr ++ a) with ((a ++ c ++ l) ++ tr_Log tr ++ a) by (by rewrite !app_assoc).
  rewrite (drop_exact _ _ 10 L10), (take_exact (tr_Log tr) a) by (unfold zlen; lia).
  replace ((a ++ c ++ l) ++ tr_Log tr ++ a) with ((a ++ c ++ l ++ tr_Log tr) ++ a) by (by rewrite !app_assoc).
  rewrite (drop_exact _ _ _ Lall). unfold zlen at 1. rewrite La. cbn [Z.ltb Z.of_nat Z.compare Pos.of_succ_nat Pos.succ Pos.compare Pos.compare_cont].
  rewrite <- (app_nil_r a), (take_exact a [] 2 La), Va. done.
Qed.

(** ** Keys *)

Definition namespaces : list bytes := [nsHeader; nsBlock; nsTxn; nsResults; nsCommitInfo].

(** Keys of different namespaces differ. *)
Lemma ns_inj a b x y : a ∈ namespaces -> b ∈ namespaces -> a ++ x = b ++ y -> a = b /\ x = y.
Proof.
  intros Ha Hb E. assert (length a = 2%nat /\ length b = 2%nat) as [La Lb].
  { split; [clear -Ha; revert Ha|clear -Hb; revert Hb]; unfold namespaces; rewrite !elem_of_cons;
      (intros [->|[->|[->|[->|[->|H]]]]]; [done..|by apply not_elem_of_nil in H]). }
  apply app_inj_1 in E; [done|congruence].
Qed.

Section facts.
Context (HashBytes : bytes -> bytes) (reg : registry) (Hreg : reg_ok reg).
Context {D T : Type} `{HB : !Badger D T} `{HO : !Badger_ok D T}.
Context (Hhash : forall b, length (HashBytes b) = HashLen).
#[local] Abbreviation BS := (BlockStore D).
#[local] Abbreviation MemBS := Mem.MemBS.
Implicit Types (s : BS) (m : MemBS) (d : D).

(** ** Transactions of the database *)

(** Entries that are set in one transaction. *)
Fixpoint set_list (kvs : list (bytes * bytes)) (txn : T) : result T :=
  match kvs with
  | [] => Ok txn
  | (k, v) :: kvs' => txn' ← txn_Set txn k v; set_list kvs' txn'
  end.

Lemma set_list_app kvs kvs' txn : set_list (kvs ++ kvs') txn = (t ← set_list kvs txn; set_list kvs' t).
Proof. revert txn. induction kvs as [|[k v] kvs IH]; intros txn; cbn; [done|]. destruct (txn_Set txn k v); cbn; [apply IH|done]. Qed.

Lemma set_all_list kvs txn t d : set_list kvs txn = Ok t -> set_all kvs txn d = (Ok t, d).
Proof.
  revert txn. induction kvs as [|[k v] kvs IH]; intros txn; cbn [set_list set_all]; [by intros <-%(inj Ok)|].
  unfold mbind, result_bind. destruct (txn_Set txn k v) as [t1|]; [|done]. intros E. unfold action_bind, mayReplaceTx. by apply IH.
Qed.

(** The last entry of a key wins. *)
Definition writes_of (kvs : list (bytes * bytes)) (w : gmap (list byte) bytes) : gmap (list byte) bytes :=
  foldl (fun w kv => <[kv.1 := kv.2]> w) w kvs.

Lemma set_list_writes kvs txn t : set_list kvs txn = Ok t -> txn_writes t = writes_of kvs (txn_writes txn).
Proof.
  revert txn. induction kvs as [|[k v] kvs IH]; intros txn; cbn [set_list]; [by intros <-%(inj Ok)|].
  intros (t1 & Hk & Ht)%result_bind_Ok. rewrite (IH _ Ht). cbn. by rewrite (txn_Set_ok _ _ _ _ Hk).
Qed.

Lemma writes_of_None kvs w k : (forall v, (k, v) ∉ kvs) -> writes_of kvs w !! k = w !! k.
Proof.
  revert w. induction kvs as [|[k' v'] kvs IH]; intros w H; [done|]. change (writes_of ((k', v') :: kvs) w) with (writes_of kvs (<[k' := v']> w)).
  rewrite IH by (intros v Hv; apply (H v); by right). apply lookup_insert_ne. intros ->. apply (H v'). by left.
Qed.

Lemma writes_of_Some kvs w k v : NoDup kvs.*1 -> (k, v) ∈ kvs -> writes_of kvs w !! k = Some v.
Proof.
  revert w. induction kvs as [|[k' v'] kvs IH]; intros w Hnd Hin; [by apply not_elem_of_nil in Hin|].
  change (writes_of ((k', v') :: kvs) w) with (writes_of kvs (<[k' := v']> w)).
  apply list.NoDup_cons in Hnd as [Hk Hnd]. apply elem_of_cons in Hin as [[= -> ->]|Hin]; [|by apply IH].
  rewrite writes_of_None; [by rewrite lookup_insert_eq|]. intros v Hv. apply Hk. apply list_elem_of_fmap. by exists (k', v).
Qed.

(** A commit of entries with distinct keys. *)
Lemma commit_get kvs t d d' k :
  set_list kvs txn_New = Ok t -> txn_Commit t d = Ok d' -> NoDup kvs.*1 ->
  (forall v, (k, v) ∈ kvs -> db_Get d' k = Some v) /\ ((forall v, (k, v) ∉ kvs) -> db_Get d' k = db_Get d k).
Proof.
  intros Ht Hc Hnd. rewrite (txn_Commit_ok t d d' k Hc), (set_list_writes _ _ _ Ht), txn_New_ok. split.
  - intros v Hv. by rewrite (writes_of_Some _ _ _ v).
  - intros H. rewrite writes_of_None by done. by rewrite lookup_empty.
Qed.

(** ** The simulation *)

(** A block with its commit info in a database. *)
Record stored d (hash : bytes) (blk : Block) (ci : CommitInfo) : Prop := mkStored {
  sd_block : block_ok reg blk;
  sd_commit : commit_ok reg ci;
  sd_hash : Block_Hash HashBytes reg blk = Ok hash;
  sd_height : 0 < bh_Height (Header blk);
  sd_header : exists hdr sig, writeBlockHeader reg (Header blk) = Ok hdr /\ db_Get d (nsHeader ++ hash) = Some (hdr ++ sig);
  sd_raw : exists raw, EncodeBlock reg blk = Ok raw /\ db_Get d (nsBlock ++ hash) = Some raw;
  sd_ci : exists bts, CommitInfo_MarshalBinary reg ci = Ok bts /\ fits bts /\ db_Get d (nsCommitInfo ++ hash) = Some bts
}.

(** The entry of a transaction. *)
Definition tx_stored d m (txHash blkHash : bytes) : Prop :=
  exists blk tx i, Mem.mb_blocks m !! blkHash = Some blk /\ Txns blk !! i = Some tx /\ Tx_Hash HashBytes tx = txHash /\
    Mem.find_tx HashBytes txHash 0 (Txns blk) = Some (tx, Z.of_nat i) /\
    db_Get d (nsTxn ++ txHash) = Some (makeTxVal (bh_Height (Header blk)) blkHash (Z.of_nat i)).

Record sim s m : Prop := mkSim {
  sim_idx : idx s = Mem.mb_idx m;
  sim_hashes : (fun b => (bh_hash b, bh_appHash b)) <$> hashes s = Mem.mb_hashes m;
  sim_have : forall hash h, Mem.mb_idx m !! hash = Some h -> length hash = HashLen /\
    exists blk ci, Mem.mb_blocks m !! hash = Some blk /\ Mem.mb_commitInfo m !! hash = Some ci /\
      stored (bdb s) hash blk ci /\ bh_Height (Header blk) = h /\ Mem.mb_hashes m !! h = Some (hash, ci_AppHash ci);
  sim_only : forall hash, is_Some (Mem.mb_blocks m !! hash) -> is_Some (Mem.mb_idx m !! hash);
  sim_heights : forall h hash app, Mem.mb_hashes m !! h = Some (hash, app) -> Mem.mb_idx m !! hash = Some h;
  sim_headers : forall key, is_Some (db_Get (bdb s) (nsHeader ++ key)) -> is_Some (Mem.mb_idx m !! key);
  sim_tx : forall txHash blkHash, Mem.mb_txIds m !! txHash = Some blkHash -> tx_stored (bdb s) m txHash blkHash;
  sim_no_tx : forall txHash, Mem.mb_txIds m !! txHash = None -> db_Get (bdb s) (nsTxn ++ txHash) = None;
  sim_best_le : forall h, is_Some (Mem.mb_hashes m !! h) -> h <= bestHeight s;
  sim_best : bestHeight s = 0 /\ bestHash s = zeroHash /\ Mem.mb_hashes m = ∅ \/
    exists app, Mem.mb_hashes m !! bestHeight s = Some (bestHash s, app)
}.

(** ** Reads *)

Lemma stored_Decode d hash blk ci raw : stored d hash blk ci -> db_Get d (nsBlock ++ hash) = Some raw ->
  EncodeBlock reg blk = Ok raw /\ DecodeBlock reg raw = Ok (norm_Block blk).
Proof using Hreg.
  intros H E. destruct (sd_raw _ _ _ _ H) as (raw' & He & Eg). assert (raw' = raw) as -> by congruence. split; [done|].
  unfold DecodeBlock. by rewrite (decodes_full _ _ _ (decodes_Block reg Hreg blk raw (sd_block _ _ _ _ H) He)).
Qed.

Lemma stored_commit d hash blk ci : stored d hash blk ci ->
  exists bts, db_Get d (nsCommitInfo ++ hash) = Some bts /\ CommitInfo_UnmarshalBinary reg bts = Ok (norm_commit ci).
Proof using Hreg.
  intros H. destruct (sd_ci _ _ _ _ H) as (bts & Hm & Hf & Eg). exists bts. split; [done|]. unfold CommitInfo_UnmarshalBinary.
  by rewrite (decodes_full _ _ _ (decodes_CommitInfo reg Hreg ci bts (sd_commit _ _ _ _ H) Hm Hf)).
Qed.

Lemma stored_header d hash blk ci : stored d hash blk ci ->
  exists val rest, db_Get d (nsHeader ++ hash) = Some val /\ DecodeBlockHeader reg HasLen val = Ok (norm_Header (Header blk), rest).
Proof using Hreg.
  intros H. destruct (sd_header _ _ _ _ H) as (hdr & sig & Hw & Eg). exists (hdr ++ sig), sig. split; [done|].
  apply (decodes_Header reg Hreg HasLen (Header blk) hdr); [apply (sd_block _ _ _ _ H)|done].
Qed.

Lemma sim_Have s m hash : sim s m -> Have s hash = Mem.Have m hash.
Proof. intros R. unfold Have, Mem.Have. by rewrite (sim_idx s m R). Qed.

Lemma sim_absent s m hash : sim s m -> Mem.mb_idx m !! hash = None -> Mem.mb_blocks m !! hash = None.
Proof. intros R E. apply eq_None_not_Some. intros H%(sim_only s m R). rewrite E in H. by destruct H. Qed.

Lemma sim_Get s m hash :
  sim s m -> Get reg hash s = (fun '(blk, ci) => (norm_Block blk, norm_commit ci)) <$> Mem.Get hash m.
Proof using Hreg.
  intros R. unfold Get, Mem.Get. rewrite (sim_Have s m hash R). unfold Mem.Have.
  destruct (Mem.mb_idx m !! hash) as [h|] eqn:E.
  - rewrite bool_decide_true by done. destruct (sim_have s m R hash h E) as (_ & blk & ci & Eb & Ec & Hs & _).
    rewrite Eb, Ec. cbn [negb]. destruct (sd_raw _ _ _ _ Hs) as (raw & _ & Er). rewrite Er.
    destruct (stored_Decode _ _ _ _ _ Hs Er) as [_ ->]. destruct (stored_commit _ _ _ _ Hs) as (bts & -> & Eu). cbn. by rewrite Eu.
  - rewrite bool_decide_false by (intros []; congruence). by rewrite (sim_absent s m hash R E).
Qed.

Lemma sim_lookup s m h : sim s m ->
  match Mem.mb_hashes m !! h with
  | Some (hash, app) => exists stamp, hashes s !! h = Some (mkBlockHashes hash app stamp)
  | None => hashes s !! h = None
  end.
Proof.
  intros R. rewrite <- (sim_hashes s m R), lookup_fmap. destruct (hashes s !! h) as [[hash app stamp]|]; cbn; [by exists stamp|done].
Qed.

Lemma sim_GetByHeight s m h : sim s m ->
  GetByHeight reg h s = (fun '(hash, blk, ci) => (hash, norm_Block blk, norm_commit ci)) <$> Mem.GetByHeight h m.
Proof using Hreg.
  intros R. unfold GetByHeight, Mem.GetByHeight. pose proof (sim_lookup s m h R) as Hl.
  destruct (Mem.mb_hashes m !! h) as [[hash app]|] eqn:E; [|by rewrite Hl]. destruct Hl as [stamp ->]. cbn [bh_hash bh_appHash].
  rewrite (sim_Get s m hash R). destruct (sim_have s m R hash h (sim_heights s m R _ _ _ E)) as (_ & blk & ci & Eb & Ec & _ & _ & Eh).
  assert (app = ci_AppHash ci) as -> by congruence. unfold Mem.Get. rewrite Eb, Ec. cbn. by rewrite bool_decide_true.
Qed.

Lemma sim_HaveTx s m txHash : sim s m -> HaveTx txHash s = Mem.HaveTx txHash m.
Proof.
  intros R. unfold HaveTx, Mem.HaveTx. destruct (Mem.mb_txIds m !! txHash) as [h|] eqn:E.
  - destruct (sim_tx s m R _ _ E) as (blk & tx & i & _ & _ & _ & _ & ->). rewrite !bool_decide_true by done. done.
  - by rewrite (sim_no_tx s m R _ E).
Qed.

Lemma makeTxVal_parts h hash i : is_sint 64 h -> length hash = HashLen -> is_uint 32 i ->
  let val := makeTxVal h hash i in zlen val = blkInfoLen /\ i64 (le_value (take 8 val)) = h /\
  take HashLen (drop 8 val) = hash /\ le_value (take 4 (drop 40 val)) = i.
Proof.
  intros Hh Hl Hi val. subst val. unfold makeTxVal. split_and!.
  - rewrite !zlen_app, !zlen_le_bytes. unfold zlen. rewrite Hl. done.
  - rewrite take_exact by (by rewrite length_le_bytes). rewrite le_value_bytes, Z.mod_small by (apply (uwrap_range 64); lia).
    rewrite swrap_uwrap by lia. by apply swrap_small.
  - rewrite drop_exact by (by rewrite length_le_bytes). by rewrite take_exact.
  - rewrite app_assoc, drop_exact by (by rewrite length_app, length_le_bytes, Hl).
    replace (le_bytes 4 (u32 i)) with (le_bytes 4 (u32 i) ++ []) by apply app_nil_r.
    rewrite take_exact by (by rewrite length_le_bytes). rewrite le_value_bytes, uwrap_small by done. by rewrite Z.mod_small.
Qed.

Lemma sim_GetTx s m txHash : sim s m ->
  GetTx reg txHash s = (fun '(tx, h, hash, i) => (norm_Tx tx, h, hash, i)) <$> Mem.GetTx HashBytes reg txHash m.
Proof using Hreg.
  intros R. unfold GetTx, Mem.GetTx. destruct (Mem.mb_txIds m !! txHash) as [hash|] eqn:E; cbn [mbind option_bind].
  2: { by rewrite (sim_no_tx s m R _ E). }
  destruct (sim_tx s m R _ _ E) as (blk & tx & i & Eb & Ei & _ & Ef & ->). rewrite Eb, Ef.
  destruct (sim_only s m R hash ltac:(by rewrite Eb)) as [h Eh].
  destruct (sim_have s m R hash h Eh) as (Hl & blk' & ci & Eb' & _ & Hs & <- & _). assert (blk' = blk) as -> by congruence.
  pose proof (sd_block _ _ _ _ Hs) as [Hh Hn Ht _]. pose proof (lookup_lt_Some _ _ _ Ei) as Hi.
  destruct (makeTxVal_parts (bh_Height (Header blk)) hash (Z.of_nat i)) as (-> & -> & -> & ->); [apply Hh|done| |].
  { pose proof (ho_num _ _ Hh) as Hu. rewrite Hn in Hu. unfold zlen in Hu. ints; lia. }
  rewrite Z.ltb_irrefl. destruct (sd_raw _ _ _ _ Hs) as (raw & He & Er). rewrite Er.
  rewrite (GetRawBlockTx_correct reg blk raw (Z.of_nat i) Hreg (sd_block _ _ _ _ Hs) He) by lia. rewrite Nat2Z.id, Ei.
  rewrite (sd_hash _ _ _ _ Hs).
  assert (tx_ok tx) as Htx by (rewrite list.Forall_forall in Ht; by eapply Ht, list_elem_of_lookup_2).
  assert (Tx_UnmarshalBinary false zero_Transaction (serialize tx) = Ok (norm_Tx tx)) as Etx.
  { unfold Tx_UnmarshalBinary. by rewrite (decodes_full _ _ _ (decodes_Tx tx zero_Transaction Htx eq_refl)). }
  unfold mbind, result_bind. by rewrite Etx.
Qed.

(** The greatest height wins. *)
Lemma best_fold (l : list (Z * (bytes * bytes))) (b : Z * bytes * bytes) :
  let r := foldl (fun best kv => if best.1.1 <=? kv.1 then (kv.1, kv.2.1, kv.2.2) else best) b l in
  b.1.1 <= r.1.1 /\ (forall h x, (h, x) ∈ l -> h <= r.1.1) /\ (r = b \/ (r.1.1, (r.1.2, r.2)) ∈ l).
Proof.
  revert b. induction l as [|[h [hash app]] l IH]; intros b; cbn [foldl].
  { split_and!; [lia| |by left]. by intros h x ?%not_elem_of_nil. }
  cbn [fst snd]. set (b' := if b.1.1 <=? h then _ else _). destruct (IH b') as (H1 & H2 & H3).
  assert (b.1.1 <= b'.1.1 /\ h <= b'.1.1) as [Hb Hh] by (subst b'; destruct (Z.leb_spec b.1.1 h); cbn; lia).
  split_and!; [lia| |].
  - intros h' x [[= -> ->]|Hin]%elem_of_cons; [lia|by eapply H2].
  - destruct H3 as [->|Hin]; [|right; by right]. subst b'. destruct (b.1.1 <=? h); [right; by left|by left].
Qed.

Lemma sim_Best s m : sim s m -> let '(height, hash, app, _) := Best s in (height, hash, app) = Mem.Best m.
Proof.
  intros R. unfold Best, Mem.Best. destruct (best_fold (map_to_list (Mem.mb_hashes m)) (0, zeroHash, zeroHash)) as (H1 & H2 & H3).
  set (r := foldl _ _ _) in *. cbn [fst] in H1.
  destruct (sim_best s m R) as [(-> & -> & Em)|[app Em]].
  - pose proof (sim_lookup s m 0 R) as Hl. rewrite Em, lookup_empty in Hl. rewrite Hl. subst r. by rewrite Em, map_to_list_empty.
  - pose proof (sim_lookup s m (bestHeight s) R) as Hl. rewrite Em in Hl. destruct Hl as [stamp ->]. cbn.
    pose proof (H2 _ _ (proj2 (elem_of_map_to_list _ _ _) Em)) as Hle.
    destruct (sim_have s m R _ _ (sim_heights s m R _ _ _ Em)) as (_ & blk & ci & _ & _ & Hs & Eh & _).
    pose proof (sd_height _ _ _ _ Hs) as Hpos. destruct H3 as [E|Hin]; [rewrite E in Hle; cbn in Hle; lia|].
    apply elem_of_map_to_list in Hin. pose proof (sim_best_le s m R _ (mk_is_Some _ _ Hin)) as Hle'.
    assert (r.1.1 = bestHeight s) as Er by lia. rewrite Er, Em in Hin. injection Hin as -> ->. destruct r as [[]]; cbn in *. congruence.
Qed.

(** ** Writes *)

(** What the store sets for a block. *)
Definition block_entries (blk : Block) (hash hdr raw bts : bytes) : list (bytes * bytes) :=
  [(nsHeader ++ hash, hdr ++ slice_bytes (blk_Signature blk)); (nsBlock ++ hash, raw); (nsCommitInfo ++ hash, bts)] ++
  tx_entries (bh_Height (Header blk)) hash (map (Tx_Hash HashBytes) (Txns blk)).

(** The encodings of a block and its commit info. *)
Record encoded (blk : Block) (ci : CommitInfo) (hash hdr raw bts : bytes) : Prop := mkEncoded {
  en_hash : Block_Hash HashBytes reg blk = Ok hash;
  en_header : writeBlockHeader reg (Header blk) = Ok hdr;
  en_raw : EncodeBlock reg blk = Ok raw;
  en_ci : CommitInfo_MarshalBinary reg ci = Ok bts
}.

Lemma block_keys blk hash hdr raw bts k v :
  (k, v) ∈ block_entries blk hash hdr raw bts ->
  k = nsHeader ++ hash /\ v = hdr ++ slice_bytes (blk_Signature blk) \/ k = nsBlock ++ hash /\ v = raw \/
  k = nsCommitInfo ++ hash /\ v = bts \/
  exists i tx, Txns blk !! i = Some tx /\ k = nsTxn ++ Tx_Hash HashBytes tx /\ v = makeTxVal (bh_Height (Header blk)) hash (Z.of_nat i).
Proof.
  unfold block_entries. rewrite elem_of_app, !elem_of_cons. intros [[[= -> ->]|[[= -> ->]|[[= -> ->]|H]]]|H]; auto.
  - by apply not_elem_of_nil in H.
  - right. right. right. unfold tx_entries in H. apply elem_of_lookup_imap in H as (i & h & E & Hh).
    rewrite list_lookup_fmap in Hh. destruct (Txns blk !! i) as [tx|] eqn:Et; [|done]. injection Hh as <-. injection E as -> ->.
    by exists i, tx.
Qed.

Lemma tx_entries_keys h hash l : (tx_entries h hash l).*1 = map (app nsTxn) l.
Proof.
  apply list_eq. intros i. unfold tx_entries. rewrite list_lookup_fmap, list_lookup_imap. change (map (app nsTxn) l) with (app nsTxn <$> l).
  rewrite list_lookup_fmap. by destruct (l !! i).
Qed.

Lemma block_entries_NoDup blk hash hdr raw bts :
  NoDup (map (Tx_Hash HashBytes) (Txns blk)) -> NoDup (block_entries blk hash hdr raw bts).*1.
Proof.
  intros Hnd. unfold block_entries. rewrite fmap_app, tx_entries_keys. apply list.NoDup_app. split_and!.
  - cbn. rewrite !list.NoDup_cons, !elem_of_cons, !elem_of_nil. split_and!; [intuition discriminate..|apply base.NoDup_nil_2].
  - intros x Hx Hx'. apply list_elem_of_fmap in Hx' as (t & -> & _). cbn in Hx. rewrite !elem_of_cons, elem_of_nil in Hx. intuition discriminate.
  - assert (Inj (=) (=) (app nsTxn)) by (intros x y; apply app_inv_head). by apply (NoDup_fmap_2 (app nsTxn)).
Qed.

Lemma find_tx_unique txs i tx k :
  NoDup (map (Tx_Hash HashBytes) txs) -> txs !! i = Some tx -> Mem.find_tx HashBytes (Tx_Hash HashBytes tx) k txs = Some (tx, k + Z.of_nat i).
Proof.
  revert i k. induction txs as [|t txs IH]; intros i k; [done|]. cbn [map Mem.find_tx]. intros [Ht Hnd]%list.NoDup_cons Hi.
  destruct i as [|i].
  - injection Hi as ->. rewrite bool_decide_true by done. f_equal. f_equal. lia.
  - rewrite bool_decide_false. { rewrite (IH i (k + 1)) by done. f_equal. f_equal. lia. }
    intros E. apply Ht. rewrite E. apply list_elem_of_fmap. exists tx. split; [done|]. by eapply list_elem_of_lookup_2.
Qed.

Lemma txIds_lookup (hash : bytes) (txs : list Transaction) (ids : gmap (list byte) bytes) (txHash : bytes) :
  foldl (fun ids tx => <[Tx_Hash HashBytes tx := hash]> ids) ids txs !! txHash =
    if bool_decide (txHash ∈ map (Tx_Hash HashBytes) txs) then Some hash else ids !! txHash.
Proof.
  revert ids. induction txs as [|t txs IH]; intros ids; cbn [foldl map].
  { by rewrite bool_decide_false by apply not_elem_of_nil. }
  rewrite IH. case_bool_decide as H1; [by rewrite bool_decide_true by (by right)|].
  destruct (decide (Tx_Hash HashBytes t = txHash)) as [->|Hne].
  - rewrite lookup_insert_eq, bool_decide_true; [done|by left].
  - rewrite lookup_insert_ne, bool_decide_false; [done| |done]. rewrite elem_of_cons. intros [->|?]; done.
Qed.

(** [Store] when everything fits into one transaction. *)
Lemma Store_run blk ci s hash hdr raw bts t d' :
  block_ok reg blk -> encoded blk ci hash hdr raw bts ->
  set_list (block_entries blk hash hdr raw bts) txn_New = Ok t -> txn_Commit t (bdb s) = Ok d' ->
  Store HashBytes reg blk (Some ci) s =
    (Ok tt, index_block hash (bh_Height (Header blk)) (mkBlockHashes hash (ci_AppHash ci) (Timestamp (Header blk)))
              (set_fetching (set_bdb s d') (fetching s ∖ {[hash]}))).
Proof.
  intros Hok [Eh Ehd Er Eb] Hset Hc. unfold Store, mbind, action_bind, alift. rewrite Eh, Er.
  assert (tx_hashes HashBytes blk = Ok (map (Tx_Hash HashBytes) (Txns blk))) as Et.
  { unfold tx_hashes. rewrite (bo_num _ _ Hok). unfold zlen. rewrite Nat2Z.id, Nat.ltb_irrefl, Nat.sub_diag. cbn. by rewrite app_nil_r. }
  rewrite Et, Ehd. unfold block_entries in Hset. rewrite set_list_app in Hset. apply result_bind_Ok in Hset as (t3 & H3 & Hset).
  cbn [set_list] in H3. apply result_bind_Ok in H3 as (t1 & -> & H3). apply result_bind_Ok in H3 as (t2 & -> & H3).
  apply result_bind_Ok in H3 as (t3' & E3 & H3). apply (inj Ok) in H3 as <-. rewrite Eb, E3.
  unfold on_db. rewrite (set_all_list _ _ _ (bdb s) Hset). unfold commit_txn. cbn [set_bdb bdb]. rewrite Hc. done.
Qed.

(** A block that the store does not have, at a new height. *)
Record new_block m (blk : Block) (ci : CommitInfo) (hash : bytes) : Prop := mkNewBlock {
  nb_block : block_ok reg blk;
  nb_commit : commit_ok reg ci;
  nb_height : 0 < bh_Height (Header blk);
  nb_free : Mem.mb_hashes m !! bh_Height (Header blk) = None;
  nb_hash : Mem.mb_idx m !! hash = None;
  nb_txs : NoDup (map (Tx_Hash HashBytes) (Txns blk))
}.

(** Keys of other blocks keep their values. *)
Lemma block_entries_other blk hash hdr raw bts t d d' ns x :
  set_list (block_entries blk hash hdr raw bts) txn_New = Ok t -> txn_Commit t d = Ok d' ->
  NoDup (map (Tx_Hash HashBytes) (Txns blk)) -> ns ∈ namespaces ->
  (ns = nsTxn /\ x ∉ map (Tx_Hash HashBytes) (Txns blk) \/ ns <> nsTxn /\ x <> hash) ->
  db_Get d' (ns ++ x) = db_Get d (ns ++ x).
Proof using HO.
  intros Ht Hc Hnd Hns Hx. apply (commit_get _ _ _ _ _ Ht Hc (block_entries_NoDup blk hash hdr raw bts Hnd)).
  assert (nsHeader ∈ namespaces /\ nsBlock ∈ namespaces /\ nsCommitInfo ∈ namespaces /\ nsTxn ∈ namespaces) as (N1 & N2 & N3 & N4).
  { unfold namespaces. rewrite !elem_of_cons. tauto. }
  intros v [[E _]|[[E _]|[[E _]|(i & tx & Hi & E & _)]]]%block_keys; apply ns_inj in E as [-> ->]; try done;
    destruct Hx as [[Hx1 Hx2]|[Hx1 Hx2]]; try done.
  apply Hx2. apply list_elem_of_fmap. exists tx. split; [done|]. by eapply list_elem_of_lookup_2.
Qed.

Lemma stored_other d d' hash blk ci :
  (forall ns, ns ∈ namespaces -> ns <> nsTxn -> db_Get d' (ns ++ hash) = db_Get d (ns ++ hash)) ->
  stored d hash blk ci -> stored d' hash blk ci.
Proof.
  intros E [H1 H2 H3 H4 H5 H6 H7].
  constructor; try done; rewrite E; try done; unfold namespaces; rewrite !elem_of_cons; tauto.
Qed.

Lemma new_stored m blk ci hash hdr raw bts t d d' :
  new_block m blk ci hash -> encoded blk ci hash hdr raw bts -> fits bts ->
  set_list (block_entries blk hash hdr raw bts) txn_New = Ok t -> txn_Commit t d = Ok d' ->
  stored d' hash blk ci.
Proof using HO.
  intros [H1 H2 H3 _ _ Hnd] [Eh Ehd Er Eb] Hf Ht Hc.
  pose proof (fun k => commit_get _ _ _ _ k Ht Hc (block_entries_NoDup blk hash hdr raw bts Hnd)) as Hget.
  constructor; try done.
  - exists hdr, (slice_bytes (blk_Signature blk)). split; [done|]. apply Hget. by left.
  - exists raw. split; [done|]. apply Hget. right. by left.
  - exists bts. split_and!; [done|done|]. apply Hget. right. right. by left.
Qed.

Lemma new_tx_stored m blk ci hash hdr raw bts t d d' m' txHash :
  new_block m blk ci hash ->
  set_list (block_entries blk hash hdr raw bts) txn_New = Ok t -> txn_Commit t d = Ok d' ->
  Mem.mb_blocks m' !! hash = Some blk -> txHash ∈ map (Tx_Hash HashBytes) (Txns blk) -> tx_stored d' m' txHash hash.
Proof using HO.
  intros Hnb Ht Hc Eb (tx & -> & [i Hi]%list_elem_of_lookup)%list_elem_of_fmap.
  pose proof (nb_txs _ _ _ _ Hnb) as Hnd. exists blk, tx, i. split_and!; try done.
  - by rewrite (find_tx_unique _ i).
  - apply (commit_get _ _ _ _ _ Ht Hc (block_entries_NoDup blk hash hdr raw bts Hnd)). unfold block_entries. apply elem_of_app. right.
    unfold tx_entries. apply elem_of_lookup_imap. exists i, (Tx_Hash HashBytes tx). split; [done|].
    change (map (Tx_Hash HashBytes) (Txns blk)) with (Tx_Hash HashBytes <$> Txns blk). by rewrite list_lookup_fmap, Hi.
Qed.

(** The store in memory after a block. *)
Definition mem_stored m (blk : Block) (ci : CommitInfo) (hash : bytes) : MemBS :=
  let height := bh_Height (Header blk) in
  Mem.mkMemBS (<[hash := height]> (Mem.mb_idx m)) (<[height := (hash, ci_AppHash ci)]> (Mem.mb_hashes m))
    (<[hash := blk]> (Mem.mb_blocks m)) (<[hash := ci]> (Mem.mb_commitInfo m)) (Mem.mb_txResults m)
    (foldl (fun ids tx => <[Tx_Hash HashBytes tx := hash]> ids) (Mem.mb_txIds m) (Txns blk)).

Lemma mem_Store_run m blk ci hash :
  Block_Hash HashBytes reg blk = Ok hash -> Mem.Store HashBytes reg blk (Some ci) m = (Ok tt, mem_stored m blk ci hash).
Proof. intros E. unfold Mem.Store, mbind, action_bind, alift. by rewrite E. Qed.

(** The part of the simulation about blocks. *)
Lemma sim_have_step s m blk ci hash d' :
  sim s m -> Mem.mb_hashes m !! bh_Height (Header blk) = None -> Mem.mb_idx m !! hash = None -> length hash = HashLen ->
  stored d' hash blk ci -> (forall x ns, x <> hash -> ns ∈ namespaces -> ns <> nsTxn -> db_Get d' (ns ++ x) = db_Get (bdb s) (ns ++ x)) ->
  forall x h, Mem.mb_idx (mem_stored m blk ci hash) !! x = Some h -> length x = HashLen /\
    exists blk' ci', Mem.mb_blocks (mem_stored m blk ci hash) !! x = Some blk' /\ Mem.mb_commitInfo (mem_stored m blk ci hash) !! x = Some ci' /\
      stored d' x blk' ci' /\ bh_Height (Header blk') = h /\ Mem.mb_hashes (mem_stored m blk ci hash) !! h = Some (x, ci_AppHash ci').
Proof.
  intros R Hfree Hnew Hl Hs Hd x h. cbn. intros [[<- <-]|[Hne E]]%lookup_insert_Some.
  - split; [done|]. exists blk, ci. by rewrite !lookup_insert_eq.
  - destruct (sim_have s m R x h E) as (Hlx & blk' & ci' & E1 & E2 & Hs' & E3 & E4). split; [done|]. exists blk', ci'.
    rewrite !lookup_insert_ne; [|congruence|done|done]. split_and!; try done. apply (stored_other (bdb s)); [|done]. auto.
Qed.

Lemma sim_step s m blk ci hash d' stamp f :
  sim s m -> Mem.mb_hashes m !! bh_Height (Header blk) = None -> Mem.mb_idx m !! hash = None -> length hash = HashLen ->
  stored d' hash blk ci -> (forall x ns, x <> hash -> ns ∈ namespaces -> ns <> nsTxn -> db_Get d' (ns ++ x) = db_Get (bdb s) (ns ++ x)) ->
  (forall txHash, txHash ∈ map (Tx_Hash HashBytes) (Txns blk) -> tx_stored d' (mem_stored m blk ci hash) txHash hash) ->
  (forall txHash, txHash ∉ map (Tx_Hash HashBytes) (Txns blk) -> db_Get d' (nsTxn ++ txHash) = db_Get (bdb s) (nsTxn ++ txHash)) ->
  sim (index_block hash (bh_Height (Header blk)) (mkBlockHashes hash (ci_AppHash ci) stamp) (set_fetching (set_bdb s d') f))
    (mem_stored m blk ci hash).
Proof.
  intros R Hfree Hnew Hl Hs Hd Htx Htx'. pose proof (sd_height _ _ _ _ Hs) as Hpos. constructor.
  - cbn. by rewrite (sim_idx s m R).
  - cbn. by rewrite fmap_insert, (sim_hashes s m R).
  - by apply (sim_have_step s).
  - intros x. cbn. rewrite !lookup_insert_is_Some. intros [->|[Hne Hx]]; [by left|]. right. split; [done|]. by apply (sim_only s m R).
  - intros h x app. cbn. intros [[<- [= <- <-]]|[Hne E]]%lookup_insert_Some; [by rewrite lookup_insert_eq|].
    pose proof (sim_heights s m R _ _ _ E) as Ex. rewrite lookup_insert_ne; [done|]. intros <-. congruence.
  - intros x Hx. cbn [bdb index_block set_fetching set_bdb] in Hx. cbn [Mem.mb_idx mem_stored]. rewrite lookup_insert_is_Some. destruct (decide (hash = x)) as [->|Hne]; [by left|].
    right. split; [done|]. rewrite (Hd x nsHeader) in Hx; [by apply (sim_headers s m R)|done| |done]. unfold namespaces. by left.
  - intros txHash x. cbn [Mem.mb_txIds mem_stored bdb index_block set_fetching set_bdb]. rewrite txIds_lookup. case_bool_decide as Hin; [intros [= <-]; by apply Htx|].
    intros E. destruct (sim_tx s m R _ _ E) as (blk' & tx & i & E1 & E2 & E3 & E4 & E5). exists blk', tx, i.
    cbn [Mem.mb_blocks mem_stored]. rewrite lookup_insert_ne; [by rewrite Htx'|]. intros <-. pose proof (sim_only s m R hash ltac:(by rewrite E1)) as [? ?]. congruence.
  - intros txHash. cbn [Mem.mb_txIds mem_stored bdb index_block set_fetching set_bdb]. rewrite txIds_lookup. case_bool_decide as Hin; [done|]. intros E. rewrite Htx' by done. by apply (sim_no_tx s m R).
  - intros h. cbn. rewrite lookup_insert_is_Some. destruct (Z.ltb_spec (bestHeight s) (bh_Height (Header blk))) as [Hlt|Hge].
    + intros [<-|[_ H%(sim_best_le s m R)]]; lia.
    + intros [<-|[_ H%(sim_best_le s m R)]]; lia.
  - right. cbn. destruct (Z.ltb_spec (bestHeight s) (bh_Height (Header blk))) as [Hlt|Hge]; [rewrite lookup_insert_eq; by eexists|].
    destruct (sim_best s m R) as [(E & _ & _)|[app E]]; [lia|]. exists app. rewrite lookup_insert_ne; [done|]. congruence.
Qed.

Lemma Block_Hash_length blk hash : Block_Hash HashBytes reg blk = Ok hash -> length hash = HashLen.
Proof using Hhash.
  unfold Block_Hash, Header_Hash. destruct (writeBlockHeader reg (Header blk)); [|done]. intros [= <-]. apply Hhash.
Qed.

Lemma Store_sim s m blk ci hash hdr raw bts t d' :
  sim s m -> new_block m blk ci hash -> encoded blk ci hash hdr raw bts -> fits bts ->
  set_list (block_entries blk hash hdr raw bts) txn_New = Ok t -> txn_Commit t (bdb s) = Ok d' ->
  exists s', Store HashBytes reg blk (Some ci) s = (Ok tt, s') /\ sim s' (mem_stored m blk ci hash).
Proof using HO Hhash.
  intros R Hnb He Hf Ht Hc. eexists. split; [eapply Store_run; by (done || apply Hnb)|]. pose proof Hnb as [H1 H2 H3 H4 H5 H6].
  apply sim_step; try done.
  - eapply Block_Hash_length, He.
  - by eapply new_stored.
  - intros x ns Hx Hns Hns'. eapply block_entries_other; try done. by right.
  - intros txHash Hin. eapply new_tx_stored; try done. cbn. by rewrite lookup_insert_eq.
  - intros txHash Hin. eapply block_entries_other; try done; [|by left]. unfold namespaces. rewrite !elem_of_cons. tauto.
Qed.

(** ** Opening the database again *)

(** An index that is complete for the blocks [L]. *)
Record indexed m d (L : list bytes) s : Prop := mkIndexed {
  ix_idx : forall x, idx s !! x = if bool_decide (x ∈ L) then Mem.mb_idx m !! x else None;
  ix_hashes : forall h, (fun b => (bh_hash b, bh_appHash b)) <$> hashes s !! h =
    match Mem.mb_hashes m !! h with Some (x, app) => if bool_decide (x ∈ L) then Some (x, app) else None | None => None end;
  ix_db : bdb s = d;
  ix_le : forall x h, x ∈ L -> Mem.mb_idx m !! x = Some h -> h <= bestHeight s;
  ix_best : bestHeight s = 0 /\ bestHash s = zeroHash /\ L = [] \/ bestHash s ∈ L /\ Mem.mb_idx m !! bestHash s = Some (bestHeight s)
}.

Lemma elem_of_snoc (x y : bytes) L : bool_decide (x ∈ L ++ [y]) = bool_decide (x ∈ L) || bool_decide (x = y).
Proof. apply eq_bool_prop_intro. rewrite orb_True, !bool_decide_spec, elem_of_app, list_elem_of_singleton. done. Qed.

Lemma index_entry_step s0 m L s x val :
  sim s0 m -> indexed m (bdb s0) L s -> x ∉ L -> db_Get (bdb s0) (nsHeader ++ x) = Some val ->
  exists s', index_entry reg (nsHeader ++ x, val) s = Ok s' /\ indexed m (bdb s0) (L ++ [x]) s'.
Proof using Hreg.
  intros R [I1 I2 I3 I4 I5] Hx Ev. destruct (sim_headers s0 m R x ltac:(by rewrite Ev)) as [h Eh].
  destruct (sim_have s0 m R x h Eh) as (Hl & blk & ci & Eb & Ec & Hs & Ehh & Ehs).
  destruct (stored_header _ _ _ _ Hs) as (val' & rest & Ev' & Ed). assert (val' = val) as -> by congruence.
  destruct (stored_commit _ _ _ _ Hs) as (bts & Eg & Eu).
  unfold index_entry. unfold mbind, result_bind. rewrite Ed.
  assert (zlen (nsHeader ++ x) = 34) as -> by (rewrite zlen_app; unfold zlen; rewrite Hl; done).
  cbn [Z.ltb Z.compare Pos.compare Pos.compare_cont]. change (drop 2 (nsHeader ++ x)) with x.
  rewrite I3, Eg, Eu. replace (take HashLen x) with x by (rewrite <- Hl; by rewrite firstn_all).
  change (bh_Height (norm_Header (Header blk))) with (bh_Height (Header blk)). rewrite Ehh.
  change (ci_AppHash (norm_commit ci)) with (ci_AppHash ci).
  eexists. split; [reflexivity|]. pose proof (sd_height _ _ _ _ Hs) as Hpos. constructor; cbn [idx hashes bdb bestHeight bestHash index_block].
  - intros y. rewrite elem_of_snoc. destruct (decide (y = x)) as [->|Hne].
    + rewrite lookup_insert_eq, (bool_decide_true (x = x)) by done. by rewrite orb_true_r.
    + rewrite lookup_insert_ne by done. rewrite (bool_decide_false (y = x)) by done. by rewrite orb_false_r.
  - intros h'. destruct (decide (h' = h)) as [->|Hne].
    + rewrite lookup_insert_eq, Ehs, elem_of_snoc, (bool_decide_true (x = x)) by done. by rewrite orb_true_r.
    + rewrite lookup_insert_ne, I2 by done. destruct (Mem.mb_hashes m !! h') as [[y app]|] eqn:Ey; [|done].
      rewrite elem_of_snoc, (bool_decide_false (y = x)); [by rewrite orb_false_r|]. intros ->.
      pose proof (sim_heights s0 m R _ _ _ Ey). congruence.
  - done.
  - intros y hy [Hy| ->%list_elem_of_singleton]%elem_of_app Ey.
    + pose proof (I4 y hy Hy Ey). destruct (Z.ltb_spec (bestHeight s) h); lia.
    + assert (hy = h) as -> by congruence. destruct (Z.ltb_spec (bestHeight s) h); lia.
  - right. destruct (Z.ltb_spec (bestHeight s) h).
    + split; [|done]. apply elem_of_app. right. by apply list_elem_of_singleton.
    + destruct I5 as [(E & _)|[I5 I6]]; [lia|]. split; [|done]. apply elem_of_app. by left.
Qed.

Lemma index_entries_all s0 m kvs L s :
  sim s0 m -> indexed m (bdb s0) L s -> NoDup kvs.*1 ->
  (forall k v, (k, v) ∈ kvs -> exists x, k = nsHeader ++ x /\ (x ∉ L) /\ db_Get (bdb s0) k = Some v) ->
  exists s', index_entries reg kvs s = Ok s' /\ indexed m (bdb s0) (L ++ map (drop 2) (kvs.*1)) s'.
Proof using Hreg.
  intros R. revert L s. induction kvs as [|[k v] kvs IH]; intros L s I Hnd Hk.
  { exists s. split; [done|]. cbn. by rewrite app_nil_r. }
  cbn in Hnd. apply list.NoDup_cons in Hnd as [Hnin Hnd].
  destruct (Hk k v ltac:(by left)) as (x & -> & Hx & Ev). destruct (index_entry_step s0 m L s x v R I Hx Ev) as (s1 & E1 & I1).
  destruct (IH (L ++ [x]) s1 I1 Hnd) as (s2 & E2 & I2).
  { intros k' v' Hin. destruct (Hk k' v' ltac:(by right)) as (x' & -> & Hx' & Ev'). exists x'. split_and!; [done| |done].
    rewrite elem_of_app, list_elem_of_singleton. intros [?| ->]; [done|]. apply Hnin. apply list_elem_of_fmap. by exists (nsHeader ++ x, v'). }
  exists s2. cbn [index_entries mbind result_bind]. rewrite E1. split; [done|]. cbn. by rewrite <- app_assoc in I2.
Qed.

Lemma NewBlockStore_sim s m : sim s m -> exists s', NewBlockStore reg (bdb s) = Ok s' /\ bdb s' = bdb s /\ sim s' m.
Proof using Hreg HO.
  intros R. destruct (index_entries_all s m (db_Iterate (bdb s) nsHeader) [] (mkBlockStore 0 zeroHash ∅ ∅ ∅ (bdb s)) R) as (s' & E & I).
  { constructor; cbn [idx hashes bdb bestHeight bestHash]; try done.
    - intros h. rewrite lookup_empty. cbn. destruct (Mem.mb_hashes m !! h) as [[]|]; [|done].
      by rewrite bool_decide_false by apply not_elem_of_nil.
    - by intros x h ?%not_elem_of_nil.
    - by left. }
  { apply db_Iterate_NoDup. }
  { intros k v [[x ->] Ev]%db_Iterate_ok. exists x. split_and!; [done|apply not_elem_of_nil|done]. }
  assert (forall x, is_Some (Mem.mb_idx m !! x) -> x ∈ map (drop 2) ((db_Iterate (bdb s) nsHeader).*1)) as Hall.
  { intros x [h Eh]. destruct (sim_have s m R x h Eh) as (_ & blk & ci & _ & _ & Hs & _).
    destruct (stored_header _ _ _ _ Hs) as (val & _ & Ev & _). apply list_elem_of_fmap. exists (nsHeader ++ x). split; [done|].
    apply list_elem_of_fmap. exists (nsHeader ++ x, val). split; [done|]. apply db_Iterate_ok. split; [by eexists|done]. }
  cbn [app] in I. set (L := map (drop 2) _) in *. clearbody L. exists s'. destruct I as [I1 I2 I3 I4 I5]. split; [done|]. split; [done|].
  assert (Mem.mb_hashes m = ∅ \/ exists x h, Mem.mb_idx m !! x = Some h) as Hor.
  { destruct (decide (Mem.mb_hashes m = ∅)) as [?|Hne]; [by left|]. right. apply map_choose in Hne as (h & [x app] & Eh).
    exists x, h. by eapply (sim_heights s m R). }
  constructor; rewrite ?I3; try apply R.
  - apply map_eq. intros x. rewrite I1. case_bool_decide as Hx; [done|]. symmetry. apply eq_None_not_Some. intros H. by apply Hx, Hall.
  - apply map_eq. intros h. rewrite lookup_fmap, I2. destruct (Mem.mb_hashes m !! h) as [[x app]|] eqn:Eh; [|done].
    rewrite bool_decide_true; [done|]. apply Hall. by rewrite (sim_heights s m R _ _ _ Eh).
  - intros h [[x app] Eh]. pose proof (sim_heights s m R _ _ _ Eh) as Ex. eapply I4; [|exact Ex]. apply Hall. by rewrite Ex.
  - destruct I5 as [(E1 & E2 & E3)|[Hin Ex]].
    + left. split_and!; try done. destruct Hor as [?|(x & h & Ex)]; [done|]. exfalso. rewrite E3 in Hall.
      eapply (not_elem_of_nil x), Hall. by rewrite Ex.
    + right. destruct (sim_have s m R _ _ Ex) as (_ & blk & ci & _ & _ & _ & _ & Eh). by exists (ci_AppHash ci).
Qed.

(** ** Results *)

Lemma result_key_inj hash i j : Z.of_nat i < 2 ^ 32 -> Z.of_nat j < 2 ^ 32 -> result_key hash i = result_key hash j -> i = j.
Proof.
  intros Hi Hj E. unfold result_key in E. apply app_inv_head, app_inv_head in E. rewrite !uwrap_small in E by (ints; lia).
  apply le_bytes_inj in E; [lia|..]; change (8 * Z.of_nat 4) with 32; lia.
Qed.

(** Results of the transactions with an entry, zero results for the others. *)
Lemma collect_results_spec hash rs kvs results :
  length hash = HashLen -> zlen rs < 2 ^ 32 -> Forall result_ok rs -> length results = length rs ->
  (forall k v, (k, v) ∈ kvs -> exists i r, k = result_key hash i /\ rs !! i = Some r /\ v = TxResult_MarshalBinary r) ->
  exists results', collect_results (zlen rs) kvs results = Ok results' /\ length results' = length rs /\
    forall i r, rs !! i = Some r -> results' !! i = if bool_decide (result_key hash i ∈ kvs.*1) then Some (norm_result r) else results !! i.
Proof.
  intros Hl Hn Hok Hlen Hk. revert results Hlen. induction kvs as [|[k v] kvs IH]; intros results Hlen; cbn [collect_results].
  { exists results. split_and!; [done|done|]. intros i r Hi. by rewrite bool_decide_false by apply not_elem_of_nil. }
  destruct (Hk k v ltac:(by left)) as (i & r & -> & Hi & ->). pose proof (lookup_lt_Some _ _ _ Hi) as Hlt. unfold zlen in Hn.
  assert (zlen (result_key hash i) = 38) as -> by (unfold result_key; rewrite !zlen_app, zlen_le_bytes; unfold zlen; rewrite Hl; done).
  assert (le_value (take 4 (drop 34 (result_key hash i))) = Z.of_nat i) as ->.
  { unfold result_key. rewrite app_assoc, drop_exact by (by rewrite length_app, Hl).
    replace (le_bytes 4 (u32 (Z.of_nat i))) with (le_bytes 4 (u32 (Z.of_nat i)) ++ []) by apply app_nil_r.
    rewrite take_exact by (by rewrite length_le_bytes). rewrite le_value_bytes, uwrap_small by (ints; lia).
    apply Z.mod_small. change (8 * Z.of_nat 4) with 32. lia. }
  cbn [Z.ltb Z.compare Pos.compare Pos.compare_cont]. destruct (Z.leb_spec (zlen rs) (Z.of_nat i)) as [Hle|_]; [unfold zlen in Hle; lia|].
  rewrite TxResult_roundtrip by (rewrite list.Forall_forall in Hok; by eapply Hok, list_elem_of_lookup_2).
  cbn [mbind result_bind]. rewrite Nat2Z.id.
  destruct (IH ltac:(intros k' v' Hin; apply Hk; by right) (<[i := norm_result r]> results)) as (rs' & E & L & H); [by rewrite length_insert|].
  exists rs'. split_and!; [done|done|]. intros j r' Hj. rewrite (H j r' Hj). cbn [fmap list_fmap fst].
  destruct (decide (j = i)) as [->|Hne].
  - assert (r' = r) as -> by congruence. rewrite (bool_decide_true (_ ∈ _ :: _)) by (by left).
    rewrite list_lookup_insert_eq by lia. by destruct (bool_decide _).
  - rewrite list_lookup_insert_ne by done. destruct (bool_decide (result_key hash j ∈ kvs.*1)) eqn:Ej.
    + apply bool_decide_eq_true in Ej. by rewrite bool_decide_true by (by right).
    + apply bool_decide_eq_false in Ej. rewrite bool_decide_false; [done|]. rewrite elem_of_cons. intros [E'|?]; [|done].
      apply Hne. pose proof (lookup_lt_Some _ _ _ Hj). eapply result_key_inj; [| |exact E']; lia.
Qed.

Lemma sim_frame s m d' rs :
  (forall ns x, ns ∈ namespaces -> ns <> nsResults -> db_Get d' (ns ++ x) = db_Get (bdb s) (ns ++ x)) ->
  sim s m -> sim (set_bdb s d') (Mem.mkMemBS (Mem.mb_idx m) (Mem.mb_hashes m) (Mem.mb_blocks m) (Mem.mb_commitInfo m) rs (Mem.mb_txIds m)).
Proof.
  intros E [R1 R2 R3 R4 R5 R6 R7 R8 R9 R10].
  assert (nsHeader ∈ namespaces /\ nsTxn ∈ namespaces) as [N1 N2] by (unfold namespaces; rewrite !elem_of_cons; tauto).
  constructor; cbn [bdb set_bdb idx hashes bestHeight bestHash Mem.mb_idx Mem.mb_hashes Mem.mb_blocks Mem.mb_commitInfo Mem.mb_txIds]; try done.
  - intros x h Ex. destruct (R3 x h Ex) as (Hl & blk & ci & E1 & E2 & [S1 S2 S3 S4 S5 S6 S7] & E3). split; [done|]. exists blk, ci.
    split_and!; try apply E3; try done. constructor; try done; rewrite E; try done; unfold namespaces; rewrite !elem_of_cons; tauto.
  - intros x. rewrite E by done. apply R6.
  - intros txHash x Ex. destruct (R7 txHash x Ex) as (blk & tx & i & E1 & E2 & E3 & E4 & E5). exists blk, tx, i. by rewrite E.
  - intros x Ex. rewrite E by done. by apply R8.
Qed.

Definition result_entries (hash : bytes) (rs : list TxResult) : list (bytes * bytes) :=
  imap (fun i res => (result_key hash i, TxResult_MarshalBinary res)) rs.

Lemma result_entries_elem hash rs k v :
  (k, v) ∈ result_entries hash rs <-> exists i r, k = result_key hash i /\ rs !! i = Some r /\ v = TxResult_MarshalBinary r.
Proof.
  unfold result_entries. rewrite elem_of_lookup_imap. split.
  - intros (i & r & [= -> ->] & Hr). by exists i, r.
  - intros (i & r & -> & Hr & ->). by exists i, r.
Qed.

Lemma result_entries_NoDup hash rs : zlen rs < 2 ^ 32 -> NoDup (result_entries hash rs).*1.
Proof.
  intros Hn. unfold zlen in Hn. apply NoDup_alt. intros i j k. rewrite !list_lookup_fmap. unfold result_entries. rewrite !list_lookup_imap.
  destruct (rs !! i) as [r|] eqn:Hi; [|done]. destruct (rs !! j) as [r'|] eqn:Hj; [|done]. cbn [fmap option_fmap option_map fst]. intros <-%(inj Some) E%(inj Some).
  apply lookup_lt_Some in Hi, Hj. eapply result_key_inj; [| |symmetry; exact E]; lia.
Qed.

(** Results leave the blocks alone. *)
Lemma StoreResults_frame s m hash rs t d' :
  zlen rs < 2 ^ 32 -> sim s m -> set_list (result_entries hash rs) txn_New = Ok t -> txn_Commit t (bdb s) = Ok d' ->
  StoreResults hash rs s = (Ok tt, set_bdb s d') /\ sim (set_bdb s d') (snd (Mem.StoreResults hash rs m)).
Proof using HO.
  intros Hn R Ht Hc. split.
  - unfold StoreResults, on_db, mbind, action_bind. fold (result_entries hash rs). rewrite (set_all_list _ _ _ (bdb s) Ht).
    unfold commit_txn. by rewrite Hc.
  - apply sim_frame; [|done]. intros ns x Hns Hne. eapply commit_get; [done..|by apply result_entries_NoDup|].
    intros v (i & r & E & _)%result_entries_elem. apply ns_inj in E as [-> _]; try done.
    unfold namespaces. rewrite !elem_of_cons. tauto.
Qed.

(** A block above all others becomes the best one. *)
Lemma Store_best s m blk ci hash hdr raw bts t d' :
  sim s m -> new_block m blk ci hash -> encoded blk ci hash hdr raw bts -> fits bts ->
  set_list (block_entries blk hash hdr raw bts) txn_New = Ok t -> txn_Commit t (bdb s) = Ok d' ->
  bestHeight s < bh_Height (Header blk) ->
  exists s', Store HashBytes reg blk (Some ci) s = (Ok tt, s') /\ sim s' (mem_stored m blk ci hash) /\ bdb s' = d' /\
    Mem.Best (mem_stored m blk ci hash) = (bh_Height (Header blk), hash, ci_AppHash ci).
Proof using HO Hhash.
  intros R Hnb He Hf Ht Hc Hlt. destruct (Store_sim s m blk ci hash hdr raw bts t d' R Hnb He Hf Ht Hc) as (s' & E & R').
  exists s'. split; [done|]. split; [done|]. rewrite (Store_run blk ci s hash hdr raw bts t d' (nb_block _ _ _ _ Hnb) He Ht Hc) in E.
  injection E as <-. split; [done|]. apply sim_Best in R'. revert R'. unfold Best, index_block. cbn [bestHeight bestHash hashes set_fetching set_bdb].
  rewrite (proj2 (Z.ltb_lt _ _) Hlt). by rewrite lookup_insert_eq.
Qed.

Lemma StoreResults_sim s m hash blk rs t d' :
  sim s m -> Mem.mb_blocks m !! hash = Some blk -> length rs = length (Txns blk) -> Forall result_ok rs ->
  (forall k, db_Get (bdb s) (nsResults ++ hash ++ k) = None) ->
  set_list (result_entries hash rs) txn_New = Ok t -> txn_Commit t (bdb s) = Ok d' ->
  exists s', StoreResults hash rs s = (Ok tt, s') /\ sim s' (snd (Mem.StoreResults hash rs m)) /\
    Results reg hash s' = Ok (map norm_result rs).
Proof using Hreg HO.
  intros R Eb Hlen Hok Hno Ht Hc. destruct (sim_only s m R hash ltac:(by rewrite Eb)) as [h Eh].
  destruct (sim_have s m R hash h Eh) as (Hl & blk' & ci & Eb' & _ & Hs & _). assert (blk' = blk) as -> by congruence.
  pose proof (sd_block _ _ _ _ Hs) as [Hh Hnum _ _]. pose proof (ho_num _ _ Hh) as Hu. rewrite Hnum in Hu.
  assert (zlen rs = zlen (Txns blk)) as Ez by (unfold zlen; lia). assert (zlen rs < 2 ^ 32) as Hn by (ints; lia).
  pose proof (fun k => commit_get _ _ _ _ k Ht Hc (result_entries_NoDup hash rs Hn)) as Hget.
  assert (forall ns x, ns ∈ namespaces -> ns <> nsResults -> db_Get d' (ns ++ x) = db_Get (bdb s) (ns ++ x)) as Hframe.
  { intros ns x Hns Hne. apply Hget. intros v (i & r & E & _)%result_entries_elem. apply ns_inj in E as [-> _]; try done.
    unfold namespaces. rewrite !elem_of_cons. tauto. }
  eexists. split.
  { unfold StoreResults, on_db, mbind, action_bind. fold (result_entries hash rs). rewrite (set_all_list _ _ _ (bdb s) Ht).
    unfold commit_txn. by rewrite Hc. }
  split; [by apply sim_frame|]. unfold Results. cbn [bdb set_bdb]. destruct (stored_header _ _ _ _ Hs) as (val & rest & Ev & Ed).
  rewrite Hframe, Ev by (done || (unfold namespaces; rewrite !elem_of_cons; tauto)). unfold mbind, result_bind. rewrite Ed.
  change (NumTxns (norm_Header (Header blk))) with (NumTxns (Header blk)). rewrite Hnum, <- Ez.
  destruct (collect_results_spec hash rs (db_Iterate d' (nsResults ++ hash)) (replicate (Z.to_nat (zlen rs)) zero_TxResult))
    as (rs' & -> & Hlen' & Hrs); try done.
  { rewrite length_replicate. unfold zlen. lia. }
  { intros k v [[x ->] Ev']%db_Iterate_ok. rewrite <- app_assoc in *. destruct (decide (nsResults ++ hash ++ x ∈ (result_entries hash rs).*1)) as [([k v'] & Ek & Hin)%list_elem_of_fmap|Hnin].
    - cbn [fst] in Ek. subst k. rewrite (proj1 (Hget _) v' Hin) in Ev'. injection Ev' as ->. by apply result_entries_elem.
    - rewrite (proj2 (Hget _)), Hno in Ev'; [done|]. intros v' Hin. apply Hnin. by apply (list_elem_of_fmap_2 fst) in Hin. }
  f_equal. apply list_eq. intros i. change (map norm_result rs) with (norm_result <$> rs). rewrite list_lookup_fmap.
  destruct (rs !! i) as [r|] eqn:Hi; [|apply lookup_ge_None; rewrite Hlen'; by apply lookup_ge_None]. rewrite (Hrs i r Hi).
  rewrite bool_decide_true; [done|]. apply list_elem_of_fmap. exists (result_key hash i, TxResult_MarshalBinary r). split; [done|].
  apply db_Iterate_ok. split; [unfold result_key; rewrite app_assoc; by eexists|]. apply Hget. apply result_entries_elem. by exists i, r.
Qed.

Lemma set_all_app kvs kvs' txn d : set_all (kvs ++ kvs') txn d = (t ← set_all kvs txn; set_all kvs' t) d.
Proof.
  revert txn d. induction kvs as [|[k v] kvs IH]; intros txn d; [done|]. cbn [app set_all]. unfold mbind, action_bind.
  destruct (mayReplaceTx txn (txn_Set txn k v) d) as [[t|e] d1]; [apply IH|done].
Qed.

(** An entry that does not fit is not in the transaction that replaces the full one. *)
Lemma set_all_too_big kvs k v t d d1 :
  set_list kvs txn_New = Ok t -> txn_Set t k v = Err ErrTxnTooBig -> txn_Commit t d = Ok d1 ->
  set_all (kvs ++ [(k, v)]) txn_New d = (Ok txn_New, d1).
Proof.
  intros Ht Hk Hc. rewrite set_all_app. unfold mbind, action_bind. rewrite (set_all_list _ _ _ d Ht). cbn [set_all]. unfold mbind, action_bind, mayReplaceTx.
  rewrite Hk. by rewrite Hc.
Qed.

(** C9. The block store on the database implements the store in memory: every write of
    a new block that fits a transaction succeeds in both and leaves the stores in
    relation. *)
Theorem store_write_simulates s m blk ci hash hdr raw bts t d' :
  sim s m -> new_block m blk ci hash -> encoded blk ci hash hdr raw bts -> fits bts ->
  set_list (block_entries blk hash hdr raw bts) txn_New = Ok t -> txn_Commit t (bdb s) = Ok d' ->
  exists s' m', Store HashBytes reg blk (Some ci) s = (Ok tt, s') /\ Mem.Store HashBytes reg blk (Some ci) m = (Ok tt, m') /\
    sim s' m' /\ Have s' hash = true.
Proof using HO Hhash.
  intros R Hnb He Hf Ht Hc. destruct (Store_sim s m blk ci hash hdr raw bts t d' R Hnb He Hf Ht Hc) as (s' & E & R').
  exists s', (mem_stored m blk ci hash). split_and!; [done|by apply mem_Store_run, He|done|].
  rewrite (sim_Have _ _ _ R'). unfold Mem.Have, mem_stored. cbn. by rewrite lookup_insert_eq, bool_decide_true by done.
Qed.

(** C10. Stores in relation answer every read alike, up to what the encodings of blocks
    and commit infos do not keep. *)
Theorem store_reads_agree s m : sim s m ->
  (forall hash, Have s hash = Mem.Have m hash) /\
  (forall hash, Get reg hash s = (fun '(blk, ci) => (norm_Block blk, norm_commit ci)) <$> Mem.Get hash m) /\
  (forall h, GetByHeight reg h s = (fun '(hash, blk, ci) => (hash, norm_Block blk, norm_commit ci)) <$> Mem.GetByHeight h m) /\
  (forall txHash, HaveTx txHash s = Mem.HaveTx txHash m) /\
  (forall txHash, GetTx reg txHash s = (fun '(tx, h, hash, i) => (norm_Tx tx, h, hash, i)) <$> Mem.GetTx HashBytes reg txHash m) /\
  (let '(height, hash, app, _) := Best s in (height, hash, app) = Mem.Best m).
Proof using Hreg.
  intros R. split_and!; intros; [by apply sim_Have|by apply sim_Get|by apply sim_GetByHeight|by apply sim_HaveTx|by apply sim_GetTx|by apply sim_Best].
Qed.

(** C11. A store that is opened again on its database succeeds and stays in relation with
    the same blocks: the indexes, the best block and so all reads survive a restart. *)
Theorem restart_keeps_store s m : sim s m ->
  exists s', NewBlockStore reg (bdb s) = Ok s' /\ sim s' m /\ (forall hash, Get reg hash s' = Get reg hash s) /\
    (Best s').1 = (Best s).1.
Proof using Hreg HO.
  intros R. destruct (NewBlockStore_sim s m R) as (s' & E & _ & R'). exists s'. split_and!; [done|done| |].
  - intros hash. by rewrite !(sim_Get _ m).
  - pose proof (sim_Best _ _ R) as B. pose proof (sim_Best _ _ R') as B'. destruct (Best s) as [[[]]], (Best s') as [[[]]]. cbn. congruence.
Qed.

(** The results of a block that fit a transaction are read back in the order of the
    transactions, codes and logs as stored and gas zero. *)
Theorem results_roundtrip s m hash blk rs t d' :
  sim s m -> Mem.mb_blocks m !! hash = Some blk -> length rs = length (Txns blk) -> Forall result_ok rs ->
  (forall k, db_Get (bdb s) (nsResults ++ hash ++ k) = None) ->
  set_list (result_entries hash rs) txn_New = Ok t -> txn_Commit t (bdb s) = Ok d' ->
  exists s', StoreResults hash rs s = (Ok tt, s') /\ sim s' (snd (Mem.StoreResults hash rs m)) /\
    Results reg hash s' = Ok (map norm_result rs).
Proof using Hreg HO. apply StoreResults_sim. Qed.

(** A result whose entry makes the transaction too big is lost although [StoreResults]
    reports success: the transaction is committed and replaced, and the entry is never
    set again. *)
Theorem too_big_result_lost s hash rs r t d1 d2 :
  zlen rs < 2 ^ 32 -> set_list (result_entries hash rs) txn_New = Ok t ->
  txn_Set t (result_key hash (length rs)) (TxResult_MarshalBinary r) = Err ErrTxnTooBig ->
  txn_Commit t (bdb s) = Ok d1 -> txn_Commit txn_New d1 = Ok d2 ->
  StoreResults hash (rs ++ [r]) s = (Ok tt, set_bdb s d2) /\
  db_Get d2 (result_key hash (length rs)) = db_Get (bdb s) (result_key hash (length rs)).
Proof using HO.
  intros Hn Ht Hk Hc Hc2. split.
  - unfold StoreResults, on_db, mbind, action_bind. fold (result_entries hash (rs ++ [r])).
    assert (result_entries hash (rs ++ [r]) = result_entries hash rs ++ [(result_key hash (length rs), TxResult_MarshalBinary r)]) as ->.
    { unfold result_entries. rewrite imap_app. cbn [imap]. by rewrite Nat.add_0_r. }
    rewrite (set_all_too_big _ _ _ _ _ _ Ht Hk Hc). unfold commit_txn. by rewrite Hc2.
  - rewrite (txn_Commit_ok _ _ _ _ Hc2), txn_New_ok, lookup_empty. eapply commit_get; [done..|by apply result_entries_NoDup|].
    intros v (i & r' & E & Hi & _)%result_entries_elem. apply lookup_lt_Some in Hi. unfold zlen in Hn.
    apply result_key_inj in E; lia.
Qed.
End facts.
