(* ===== verification/StoreSamples.v ===== *)
(** * Concrete block stores

    A database in memory whose transactions hold a bounded number of entries, a
    chain of one block in it, and a store that loses the result of a failed
    transaction. *)

From S2P Require Import Prelude.
From S2P Require Import Wire.
From S2P Require Import Keys.
From S2P Require Import Tx.
From S2P Require Import Merkle.
From S2P Require Import Block.
From S2P Require Import Params.
From S2P Require Import Commit.
From S2P Require Import Store.
From S2P Require Import StoreFacts.
From Stdlib Require Import Strings.Byte.

#[local] Open Scope Z_scope.

(** ** A database *)

Abbreviation disk := (gmap (list byte) bytes).

(** A transaction of at most [cap] entries. *)
Definition writes (cap : nat) : Type := disk.

#[export] Instance map_badger (cap : nat) : Badger disk (writes cap) := {
  db_Get d k := d !! k;
  db_Iterate d p := map_to_list (filter (fun kv => p `prefix_of` kv.1) d);
  txn_New := (∅ : disk);
  txn_Set t k v := if (size (t : disk) <? cap)%nat then Ok (<[k := v]> (t : disk)) else Err ErrTxnTooBig;
  txn_Commit t d := Ok ((t : disk) ∪ d)
}.

Lemma union_lookup (t d : disk) k : (t ∪ d) !! k = match t !! k with Some v => Some v | None => d !! k end.
Proof. rewrite lookup_union. by destruct (t !! k), (d !! k). Qed.

#[export] Instance map_badger_ok (cap : nat) : Badger_ok disk (writes cap).
Proof.
  refine {| txn_writes := fun t : writes cap => (t : disk) |}; cbn.
  - done.
  - intros t k v t'. case_match; [|done]. by intros <-%(inj Ok).
  - intros t d d' k <-%(inj Ok). apply union_lookup.
  - intros d p k v. rewrite elem_of_map_to_list, map_lookup_filter_Some. cbn. tauto.
  - intros d p. apply NoDup_fst_map_to_list.
Defined.

(** ** A block *)

Definition genesis_block : Block :=
  set_leader (NewBlock toy_hash 1 zero_Hash zero_Hash zero_Hash zero_Hash 1700000000123456789 [sample_tx; signed_tx]) test_key.

Lemma genesis_block_ok : block_ok test_registry genesis_block.
Proof.
  constructor.
  - constructor.
    1-3, 9: const_range.
    1-5: by vm_compute.
    intros key E. assert (key = test_key) as -> by (cbn in E; congruence).
    split; vm_compute; reflexivity.
  - reflexivity.
  - apply Forall_forall. intros t [<-|[<-|[]]]; [apply sample_tx_ok|apply signed_tx_ok].
  - by vm_compute.
Qed.

Definition the_hash : bytes := ok_bytes (Block_Hash toy_hash test_registry genesis_block).
Definition the_header : bytes := ok_bytes (writeBlockHeader test_registry (Header genesis_block)).
Definition the_block : bytes := ok_bytes (EncodeBlock test_registry genesis_block).
Definition the_commit : bytes := ok_bytes (CommitInfo_MarshalBinary test_registry ex_commit).

Lemma ex_commit_ok : commit_ok test_registry ex_commit.
Proof.
  constructor; cbn.
  - reflexivity.
  - constructor; [|constructor]. split; [const_range|]. by intros h [= <-].
  - apply ex_updates_ok.
  - constructor; [|constructor]. split; [by vm_compute|const_range].
Qed.

Lemma genesis_encoded : encoded toy_hash test_registry genesis_block ex_commit the_hash the_header the_block the_commit.
Proof. constructor; by vm_compute. Qed.

Definition empty_store : BlockStore disk := mkBlockStore 0 zeroHash ∅ ∅ ∅ ∅.

Lemma empty_sim cap : sim toy_hash test_registry (T := writes cap) empty_store Mem.NewMemBS.
Proof.
  constructor; try done; cbn [bdb empty_store Mem.mb_blocks Mem.mb_hashes Mem.NewMemBS db_Get map_badger].
  - intros hash. rewrite lookup_empty. by intros [].
  - intros key. rewrite lookup_empty. by intros [].
  - intros h. rewrite lookup_empty. by intros [].
  - by left.
Qed.

Lemma genesis_new : new_block toy_hash test_registry Mem.NewMemBS genesis_block ex_commit the_hash.
Proof.
  constructor; try done; [apply genesis_block_ok|apply ex_commit_ok|]. apply (bool_decide_unpack _). vm_compute. exact I.
Qed.

Definition is_ok {A} (r : result A) : bool := match r with Ok _ => true | Err _ => false end.

Definition get_ok {A} (a : A) (r : result A) : A := match r with Ok x => x | Err _ => a end.

Lemma is_ok_get {A} (a : A) (r : result A) : is_ok r = true -> r = Ok (get_ok a r).
Proof. by destruct r. Qed.

(** The transaction of the block in a database without a bound that matters. *)
Definition block_txn : writes 100 := get_ok txn_New (set_list (block_entries toy_hash genesis_block the_hash the_header the_block the_commit) txn_New).

Lemma block_txn_ok : set_list (block_entries toy_hash genesis_block the_hash the_header the_block the_commit) txn_New = Ok block_txn.
Proof. apply is_ok_get. vm_compute. reflexivity. Qed.

Lemma store_write_simulates_witness :
  exists s' m', Store toy_hash test_registry (T := writes 100) genesis_block (Some ex_commit) empty_store = (Ok tt, s') /\
    Mem.Store toy_hash test_registry genesis_block (Some ex_commit) Mem.NewMemBS = (Ok tt, m') /\
    sim toy_hash test_registry (T := writes 100) s' m' /\ Have s' the_hash = true.
Proof.
  apply (store_write_simulates toy_hash test_registry toy_hash_wf (T := writes 100) empty_store Mem.NewMemBS genesis_block ex_commit
    the_hash the_header the_block the_commit block_txn ((block_txn : disk) ∪ ∅)).
  - apply empty_sim.
  - apply genesis_new.
  - apply genesis_encoded.
  - by vm_compute.
  - apply block_txn_ok.
  - reflexivity.
Defined.

(** ** A store with a block *)

Definition full_store : BlockStore disk :=
  snd (Store toy_hash test_registry (T := writes 100) genesis_block (Some ex_commit) empty_store).

Definition full_mem : Mem.MemBS := snd (Mem.Store toy_hash test_registry genesis_block (Some ex_commit) Mem.NewMemBS).

Lemma full_sim : sim toy_hash test_registry (T := writes 100) full_store full_mem.
Proof.
  destruct (Store_sim toy_hash test_registry toy_hash_wf (T := writes 100) empty_store Mem.NewMemBS genesis_block ex_commit
    the_hash the_header the_block the_commit block_txn ((block_txn : disk) ∪ ∅)) as (s' & E & R).
  { apply empty_sim. }
  { apply genesis_new. }
  { apply genesis_encoded. }
  { by vm_compute. }
  { apply block_txn_ok. }
  { reflexivity. }
  unfold full_store, full_mem. rewrite E, (mem_Store_run _ _ _ _ _ the_hash); [exact R|apply genesis_encoded].
Qed.

Lemma store_reads_agree_witness :
  Get test_registry (T := writes 100) the_hash full_store = Ok (norm_Block genesis_block, norm_commit ex_commit) /\
  (Best full_store).1 = (1, the_hash, ex_hash x06).
Proof.
  destruct (store_reads_agree toy_hash test_registry test_registry_ok (T := writes 100) full_store full_mem full_sim)
    as (_ & -> & _ & _ & _ & HB). split.
  - vm_compute. reflexivity.
  - revert HB. destruct (Best full_store) as [[[h hash] app] stamp]. cbn [fst]. intros ->. vm_compute. reflexivity.
Defined.

Lemma restart_keeps_store_witness :
  exists s', NewBlockStore test_registry (T := writes 100) (bdb full_store) = Ok s' /\
    sim toy_hash test_registry (T := writes 100) s' full_mem /\
    (forall hash, Get test_registry (T := writes 100) hash s' = Get test_registry (T := writes 100) hash full_store) /\ (Best s').1 = (Best full_store).1.
Proof. apply (restart_keeps_store toy_hash test_registry test_registry_ok (T := writes 100)), full_sim. Defined.

(** ** Results *)

Definition two_results : list TxResult := [mkTxResult 0 5 (str "done"); mkTxResult 7 9 (str "reverted")].

Definition results_txn : writes 100 := get_ok txn_New (set_list (result_entries the_hash two_results) txn_New).

Lemma no_results d : Forall (fun k => ~ nsResults `prefix_of` k) (map_to_list d).*1 -> forall k, (d : disk) !! (nsResults ++ the_hash ++ k) = None.
Proof.
  rewrite list.Forall_forall. intros H k. destruct (d !! _) as [v|] eqn:E; [|done]. destruct (H (nsResults ++ the_hash ++ k)); [|by eexists].
  apply list_elem_of_fmap. exists (nsResults ++ the_hash ++ k, v). split; [done|]. by apply elem_of_map_to_list.
Qed.

Lemma results_roundtrip_witness :
  exists s', StoreResults (T := writes 100) the_hash two_results full_store = (Ok tt, s') /\
    sim toy_hash test_registry (T := writes 100) s' (snd (Mem.StoreResults the_hash two_results full_mem)) /\
    Results test_registry (T := writes 100) the_hash s' = Ok (map norm_result two_results).
Proof.
  apply (results_roundtrip toy_hash test_registry test_registry_ok (T := writes 100) full_store full_mem the_hash genesis_block two_results
    results_txn ((results_txn : disk) ∪ bdb full_store)).
  - apply full_sim.
  - vm_compute. reflexivity.
  - reflexivity.
  - apply list.Forall_cons; split; [split; [const_range|by vm_compute]|]. apply list.Forall_cons; split; [split; [const_range|by vm_compute]|]. constructor.
  - apply no_results. apply (bool_decide_unpack _). vm_compute. exact I.
  - apply is_ok_get. vm_compute. reflexivity.
  - reflexivity.
Defined.

Lemma too_big_result_lost_witness :
  StoreResults (T := writes 1) the_hash two_results full_store = (Ok tt, set_bdb full_store (get_ok ∅ (txn_Commit (T := writes 1) txn_New
    (get_ok ∅ (txn_Commit (get_ok txn_New (set_list (T := writes 1) (result_entries the_hash (take 1 two_results)) txn_New)) (bdb full_store)))))) /\
  Results test_registry (T := writes 1) the_hash (snd (StoreResults (T := writes 1) the_hash two_results full_store))
  = Ok [mkTxResult 0 0 (str "done"); zero_TxResult].
Proof.
  split; [|vm_compute; reflexivity].
  apply (too_big_result_lost (T := writes 1) full_store the_hash (take 1 two_results) (mkTxResult 7 9 (str "reverted"))
    (get_ok txn_New (set_list (T := writes 1) (result_entries the_hash (take 1 two_results)) txn_New))
    (get_ok ∅ (txn_Commit (get_ok txn_New (set_list (T := writes 1) (result_entries the_hash (take 1 two_results)) txn_New)) (bdb full_store)))).
  - by vm_compute.
  - apply is_ok_get. vm_compute. reflexivity.
  - vm_compute. reflexivity.
  - reflexivity.
  - reflexivity.
Defined.
