(* ===== verification/Node.v ===== *)
(** * A node: block processor, block store and consensus engine

    The parts that src/app/node/build.go puts together.  The machine of a node is
    the environment of its consensus engine: the block processor on its database,
    the block store on its key-value database, the commit intent file and the
    leader update file.  What a crash leaves is the two databases and the files;
    [boot] builds a machine from them. *)

From S2P Require Import Prelude.
From S2P Require Import Wire.
From S2P Require Import Keys.
From S2P Require Import Ident.
From S2P Require Import Tx.
From S2P Require Import Block.
From S2P Require Import Params.
From S2P Require Import Values.
From S2P Require Import Auth.
From S2P Require Import Commit.
From S2P Require Import Cache.
From S2P Require Import Accounts.
From S2P Require Mempool.
From S2P Require Import TxApp.
From S2P Require Import Admission.
From S2P Require Import Finalize.
From S2P Require Consensus.
From S2P Require Import Processor.
From S2P Require Import Proposal.
From S2P Require Import Store.
From Stdlib Require Import Strings.Byte.

#[local] Open Scope Z_scope.

(** ** The machine of a node *)

Record machine (C X D : Type) := mkMachine {
  m_proc : Processor C X;
  m_store : BlockStore D;
  (** the commit intent file, if it exists *)
  m_intent : option (Z * bytes);
  (** the leader update file, if it exists *)
  m_leaders : option Consensus.leaderUpdate
}.
Arguments mkMachine {C X D}.
Arguments m_proc {C X D}.
Arguments m_store {C X D}.
Arguments m_intent {C X D}.
Arguments m_leaders {C X D}.

Section lift.
Context {C X D : Type}.
Implicit Types w : machine C X D.

Definition set_proc w p : machine C X D := mkMachine p (m_store w) (m_intent w) (m_leaders w).
Definition set_store w s : machine C X D := mkMachine (m_proc w) s (m_intent w) (m_leaders w).
Definition set_intent w i : machine C X D := mkMachine (m_proc w) (m_store w) i (m_leaders w).
Definition set_leaders w l : machine C X D := mkMachine (m_proc w) (m_store w) (m_intent w) l.

Definition on_proc {A} (m : action (Processor C X) A) : action (machine C X D) A := fun w =>
  let '(r, p) := m (m_proc w) in (r, set_proc w p).

Definition on_store {A} (m : action (BlockStore D) A) : action (machine C X D) A := fun w =>
  let '(r, s) := m (m_store w) in (r, set_store w s).

(** The files of a node whose directory can be written. *)
#[export] Instance machine_files : Consensus.NodeFiles (machine C X D) := {|
  Consensus.cl_Record height hash := modify (fun w => set_intent w (Some (height, hash)));
  Consensus.cl_Clear := modify (fun w => set_intent w None);
  Consensus.lf_Store lu := modify (fun w => set_leaders w lu)
|}.
End lift.

Section node.
Context {C : Type} `{HC : Cache (list byte) Account C} {X : Type}.
Context `{HS : Strings} `{HD : Decimals} `{HJ : ParamsCodec}.
Context `{HE : !Engine (App C X)}.
Context (N : Node (App C X)) (sv : Services C X).
Context (engine : option (admissionEngine X)).
Context (genesisParams : GenesisConfig).
Context (endBlockHooks : gmap (list byte) (BlockContext -> action (App C X) unit)).
Context (HashBytes : bytes -> bytes) (reg : registry).
Context {D T : Type} `{HB : Badger D T}.
Context (PubKey_Verify : PublicKey -> bytes -> bytes -> result bool).
Context (range : forall A, gmap (list byte) A -> list (bytes * A)).
Context (privKey : PrivateKey).

Abbreviation M := (machine C X D).

#[local] Instance processor_of : Consensus.BlockProcessor (Processor C X) :=
  processor_interface N sv engine genesisParams endBlockHooks.
#[local] Instance store_of : Consensus.BlockStore (BlockStore D) := store_interface HashBytes reg.

Definition machine_processor : Consensus.BlockProcessor M := {|
  Consensus.bp_PrepareProposal txs sz := on_proc (Consensus.bp_PrepareProposal txs sz);
  Consensus.bp_ExecuteBlock req syncing := on_proc (Consensus.bp_ExecuteBlock req syncing);
  Consensus.bp_Commit height appHash syncing := on_proc (Consensus.bp_Commit height appHash syncing);
  Consensus.bp_Rollback height appHash := on_proc (Consensus.bp_Rollback height appHash);
  Consensus.bp_CheckTx ntx height stamp recheck := on_proc (Consensus.bp_CheckTx ntx height stamp recheck);
  Consensus.bp_RecheckTxs height stamp mp := on_proc (Consensus.bp_RecheckTxs height stamp mp);
  Consensus.bp_GetValidators w := Consensus.bp_GetValidators (m_proc w);
  Consensus.bp_ConsensusParams w := Consensus.bp_ConsensusParams (m_proc w)
|}.

Definition machine_store : Consensus.BlockStore M := {|
  Consensus.bs_Best w := Consensus.bs_Best (m_store w);
  Consensus.bs_Store blk ci := on_store (Consensus.bs_Store blk ci);
  Consensus.bs_GetByHeight height w := Consensus.bs_GetByHeight height (m_store w);
  Consensus.bs_StoreResults hash rs := on_store (Consensus.bs_StoreResults hash rs);
  Consensus.bs_Sync := on_store Consensus.bs_Sync
|}.
#[local] Existing Instances machine_processor machine_store.

Abbreviation CE := (Consensus.ConsensusEngine M).

(** ** Start *)

(** What a crash leaves of a machine. *)
Record image := mkImage {
  im_db : database X;
  im_blocks : D;
  im_intent : option (Z * bytes);
  im_leaders : option Consensus.leaderUpdate
}.

Definition crash (w : M) : image := mkImage (bp_db (m_proc w)) (bdb (m_store w)) (m_intent w) (m_leaders w).

(** The block store, then the block processor with it; [txapp] has the modules
    that were built before. *)
Definition boot (txapp : App C X) (im : image) : result M :=
  s ← NewBlockStore reg (im_blocks im);
  bp ← NewBlockProcessor sv genesisParams (fun height => '(_, _, ci) ← GetByHeight reg height s; mret (Some ci)) txapp (im_db im);
  match bp with
  | None => Err (ErrPanic "nil pointer dereference")
  | Some p => Ok (mkMachine p s (im_intent im) (im_leaders im))
  end.

(** The engine of a machine before its catch-up, and the state it starts from. *)
Definition engine_start (leader : option PublicKey) (mp : Mempool.Mempool) (genesisHeight : Z) (genesis : result (Z * bytes))
    (got : result (bytes * bytes * option CommitInfo)) (w : M) : result (Z * Z) * CE :=
  let '(height, appHash, dirty) := GetChainState (db_meta (bp_db (m_proc w))) in
  Consensus.initializeState HashBytes reg privKey genesisHeight (Ok (height, slice_bytes appHash, dirty)) genesis (m_intent w) got
    (Consensus.New leader (m_leaders w) mp w).

(** The catch-up from the block store. *)
Definition engine_replay (heights : Z * Z) : action CE unit :=
  if heights.1 <? heights.2
  then Consensus.replayFromBlockStore HashBytes reg PubKey_Verify range privKey (heights.1 + 1) heights.2
  else mret tt.

(** ** Crashes *)

(** The durable writes of [commit] in their order: the commit intent, the block,
    its results, the two database transactions of the block processor. *)
Definition commit_writes (height : Z) (hash appHash : bytes) (blk : Block) (ci : CommitInfo) (results : list Consensus.TxResult)
  : list (action M unit) :=
  [Consensus.cl_Record height hash; Consensus.bs_Store blk (Some ci); Consensus.bs_StoreResults hash results;
   on_proc (commit_state height appHash); on_proc (store_app_hash sv height appHash)].

(** What a crash leaves before, between and after a sequence of writes. *)
Fixpoint crashes (writes : list (action M unit)) (w : M) : list image :=
  crash w :: match writes with
             | [] => []
             | m :: ms => match m w with (Ok _, w') => crashes ms w' | (Err _, _) => [] end
             end.
End node.
