(* ===== verification/NodeFacts.v ===== *)
(** * Commits and crashes of a node

    The composition of the consensus engine with the block processor and the
    block store: a commit succeeds and is durable, a crash between the two
    database transactions of the block processor is repaired by the next start,
    and what a crash before them leaves. *)

From S2P Require Import Prelude.
From S2P Require Import Wire.
From S2P Require Import Keys.
From S2P Require Import Ident.
From S2P Require Import Tx.
From S2P Require Import Merkle.
From S2P Require Import Block.
From S2P Require Import Params.
From S2P Require Import Values.
From S2P Require Import Auth.
From S2P Require Import Commit.
From S2P Require Import Cache.
From S2P Require Import Accounts.
From S2P Require Mempool.
From S2P Require Import TxApp.
From S2P Require Import Admission.
From S2P Require Import Finalize.
From S2P Require Consensus.
From S2P Require Import Processor.
From S2P Require Import Proposal.
From S2P Require Import ProcessorFacts.
From S2P Require Import Store.
From S2P Require Import StoreFacts.
From S2P Require Import Node.
From Stdlib Require Import Strings.Byte.

#[local] Open Scope Z_scope.

(** ** The recheck of the mempool *)

Section recheck.
Context {C : Type} `{HC : Cache (list byte) Account C} {X : Type}.
Context `{HS : Strings} `{HD : Decimals} `{HJ : ParamsCodec}.
Context `{HE : !Engine (App C X)}.
Context (N : TxApp.Node (App C X)) (sv : Services C X).
Context (engine : option (admissionEngine X)).
Context (genesisParams : GenesisConfig).

(** The chain context stays. *)
Definition same_chain (st st' : App C X) : Prop := ap_chain st' = ap_chain st.

#[local] Instance same_chain_preorder : PreOrder same_chain.
Proof. split; [done|]. intros a b c E E'. unfold same_chain in *. congruence. Qed.

(** So do the database, the transaction and the chain state. *)
Definition only_checked (p p' : Processor C X) : Prop := pframe p' = pframe p /\ same_chain (bp_txapp p) (bp_txapp p').

#[local] Instance only_checked_preorder : PreOrder only_checked.
Proof. split; [done|]. intros a b c [E K] [E' K']. split; [congruence|by etransitivity]. Qed.

Lemma on_accounts_chain {A} (m : action (Accounts C) A) : acts same_chain (on_accounts m : action (App C X) A).
Proof. intros st. unfold on_accounts. by destruct (m (ap_accounts st)). Qed.

Lemma on_events_chain {A} (m : action _ A) : acts same_chain (on_events m : action (App C X) A).
Proof. intros st. unfold on_events. by destruct (m (ap_events st)). Qed.

Lemma set_mempool_chain f : acts same_chain (modify (fun st : App C X => set_mempool st (f st))).
Proof. by intros st. Qed.
#[local] Hint Resolve on_accounts_chain on_events_chain set_mempool_chain : acts.

Lemma ApplyMempool_chain view ctx tx : acts same_chain (ApplyMempool N engine view ctx tx).
Proof.
  unfold ApplyMempool, applyTransaction, checkAdmission, checkAction, not_admitted, check_migration, check_votes, apply_pending, accountInfo, rebroadcast, write_account, awhen.
  act.
Qed.

Lemma on_txapp_checked {A} (m : action (App C X) A) : acts same_chain m -> acts only_checked (on_txapp m : action (Processor C X) A).
Proof. intros H p. unfold on_txapp. specialize (H (bp_txapp p)). destruct (m (bp_txapp p)) as [r st]. by split. Qed.
#[local] Hint Resolve on_txapp_checked ApplyMempool_chain : acts.

Lemma checkTx_chain ntx height stamp recheck : acts only_checked (checkTx N sv engine genesisParams ntx height stamp recheck).
Proof. unfold checkTx. act. Qed.

Lemma recheck_scan_acts (checkFn : Mempool.NodeTx -> action (Processor C X) unit) mp i q p :
  (forall ntx, acts only_checked (checkFn ntx)) -> only_checked p (snd (Mempool.recheck_scan checkFn mp i q p)).
Proof.
  intros H. revert i p. induction q as [|tx q IH]; intros i p; cbn [Mempool.recheck_scan]; [reflexivity|].
  destruct (Mempool.txns mp !! _) as [raw|]; [|apply IH]. destruct (_ >? _).
  - specialize (IH (S i) p). by destruct (Mempool.recheck_scan _ _ _ _ p).
  - specialize (H tx p). destruct (checkFn tx p) as [r p1]. specialize (IH (S i) p1).
    destruct (Mempool.recheck_scan _ _ _ _ p1) as [l p2]. cbn [snd] in *. by etransitivity.
Qed.

Lemma RecheckTxs_checked height stamp mp p :
  exists mp' p', RecheckTxs N sv engine genesisParams height stamp mp p = (Ok mp', p') /\ only_checked p p'.
Proof.
  unfold RecheckTxs, Mempool.RecheckTxs.
  pose proof (recheck_scan_acts (fun ntx => checkTx N sv engine genesisParams ntx height stamp true) mp 0 (Mempool.txQ mp) p
    (fun ntx => checkTx_chain ntx height stamp true)) as H.
  destruct (Mempool.recheck_scan _ _ _ _ p) as [l p']. eauto.
Qed.
End recheck.

(** ** Blocks read back *)

Lemma write_norm_Header reg h : writeBlockHeader reg (norm_Header h) = writeBlockHeader reg h.
Proof.
  unfold writeBlockHeader, norm_Header, ofUnixMilli, UnixMilli. cbn [NewLeader Timestamp bh_Version bh_Height NumTxns PrevHash PrevAppHash ValidatorSetHash NetworkParamsHash MerkleRoot].
  by rewrite Z.div_mul by done.
Qed.

Section node.
Context {C : Type} `{HC : Cache (list byte) Account C} {X : Type}.
Context `{HS : Strings} `{HD : Decimals} `{HJ : ParamsCodec}.
Context `{HE : !Engine (App C X)}.
Context (N : TxApp.Node (App C X)) (sv : Services C X).
Context (engine : option (admissionEngine X)).
Context (genesisParams : GenesisConfig).
Context (endBlockHooks : gmap (list byte) (BlockContext -> action (App C X) unit)).
Context (HashBytes : bytes -> bytes) (reg : registry).
Context {D T : Type} `{HB : Badger D T}.
Context (PubKey_Verify : PublicKey -> bytes -> bytes -> result bool).
Context (range : forall A, gmap (list byte) A -> list (bytes * A)).
Context (privKey : PrivateKey).

Abbreviation M := (machine C X D).
Abbreviation CE := (Consensus.ConsensusEngine M).
#[local] Instance node_processor : Consensus.BlockProcessor M := machine_processor N sv engine genesisParams endBlockHooks.
#[local] Instance node_store : Consensus.BlockStore M := machine_store HashBytes reg.
Implicit Types ce : CE.

(** What [settle_txs] leaves. *)
Lemma settle_txs_run txns rs ce :
  length rs = length txns ->
  exists ce', Consensus.settle_txs HashBytes txns rs ce = (Ok tt, ce') /\ Consensus.env ce' = Consensus.env ce /\
    Consensus.st ce' = Consensus.st ce /\ Consensus.leader ce' = Consensus.leader ce.
Proof.
  revert rs ce. induction txns as [|tx txns IH]; intros [|r rs] ce; cbn [length Consensus.settle_txs]; try done.
  { intros _. by exists ce. }
  intros [= Hl]. unfold mbind, action_bind, modify, gets, awhen, Consensus.send.
  set (ce1 := Consensus.upd_mempool _ ce). destruct (bool_decide _); cbn.
  - destruct (IH rs (Consensus.add_out [Consensus.NotifyTx (Tx_Hash HashBytes tx) r] ce1) Hl) as (ce' & -> & E1 & E2 & E3). by exists ce'.
  - destruct (IH rs ce1 Hl) as (ce' & -> & E1 & E2 & E3). by exists ce'.
Qed.

Lemma RecheckTxs_run height stamp ce :
  exists ce' p', Consensus.RecheckTxs height stamp ce = (Ok tt, ce') /\
    Consensus.env ce' = set_proc (Consensus.env ce) p' /\ only_checked (m_proc (Consensus.env ce)) p' /\
    Consensus.st ce' = Consensus.st ce /\ Consensus.leader ce' = Consensus.leader ce.
Proof.
  unfold Consensus.RecheckTxs, Consensus.on_env, mbind, action_bind, gets, atry, modify. cbn [Consensus.bp_RecheckTxs node_processor machine_processor].
  unfold on_proc. cbn [Consensus.bp_RecheckTxs processor_of processor_interface].
  destruct (RecheckTxs_checked N sv engine genesisParams height stamp (Consensus.mempool ce) (m_proc (Consensus.env ce))) as (mp' & p' & -> & H).
  by eexists _, p'.
Qed.

(** What [nextState] leaves. *)
Lemma nextState_run ce pr r :
  Consensus.blkProp (Consensus.st ce) = Some pr -> Consensus.blockRes (Consensus.st ce) = Some r ->
  exists ce' l, Consensus.nextState ce = (Ok tt, ce') /\ Consensus.env ce' = set_leaders (Consensus.env ce) l /\
    Consensus.leader ce' = Consensus.leader ce /\
    Consensus.lc (Consensus.st ce') = Consensus.mkLastCommit (Consensus.prop_height pr) (Consensus.prop_blkHash pr) (Consensus.br_appHash r)
      (Some (Consensus.prop_blk pr)) (Consensus.commitInfo (Consensus.st ce)).
Proof.
  intros Hp Hr. unfold Consensus.nextState, mbind, action_bind, gets, modify. rewrite Hp, Hr.
  unfold Consensus.resetState, mbind, action_bind, gets, modify. destruct ce as [rl ldr vs [bp br last vt ci lu cu] si sy lr nr ls hc mp mr ts w o].
  cbn. destruct lu as [lu|]; cbn.
  - eexists _, None. by split.
  - eexists _, (m_leaders w). split; [reflexivity|]. by destruct w.
Qed.

Lemma updateValidatorSetAndRole_run ce :
  is_Some (Consensus.leader ce) -> is_Some (np_Leader (netParams (m_proc (Consensus.env ce)))) ->
  exists ce', Consensus.updateValidatorSetAndRole privKey ce = (Ok tt, ce') /\ Consensus.env ce' = Consensus.env ce /\
    Consensus.st ce' = Consensus.st ce /\ Consensus.stateInfo ce' = Consensus.stateInfo ce.
Proof.
  intros [l Hl] [l' Hl'].
  unfold Consensus.updateValidatorSetAndRole, Consensus.updateRole, Consensus.equals_leader, Consensus.ConsensusParams, mbind, action_bind, gets, modify.
  cbn [Consensus.bp_ConsensusParams node_processor machine_processor processor_of processor_interface]. unfold ConsensusParams. rewrite Hl, Hl'. cbn.
  destruct (pk_Equals _ _); [by eexists|]. destruct (Consensus.is_validator _ _); by eexists.
Qed.

Lemma commit_run ce pr r ci s1 s2 p3 :
  Consensus.blkProp (Consensus.st ce) = Some pr -> Consensus.blockRes (Consensus.st ce) = Some r -> Consensus.commitInfo (Consensus.st ce) = Some ci ->
  Store HashBytes reg (Consensus.prop_blk pr) (Some ci) (m_store (Consensus.env ce)) = (Ok tt, s1) ->
  StoreResults (Consensus.prop_blkHash pr) (Consensus.br_txResults r) s1 = (Ok tt, s2) ->
  Commit sv (Consensus.prop_height pr) (Consensus.br_appHash r) (m_proc (Consensus.env ce)) = (Ok tt, p3) ->
  length (Consensus.br_txResults r) = length (Txns (Consensus.prop_blk pr)) ->
  is_Some (Consensus.leader ce) -> is_Some (np_Leader (netParams p3)) ->
  exists ce' p' l, Consensus.commit HashBytes privKey ce = (Ok tt, ce') /\ only_checked p3 p' /\ Consensus.env ce' = mkMachine p' s2 None l /\
    Consensus.lc (Consensus.st ce') = Consensus.mkLastCommit (Consensus.prop_height pr) (Consensus.prop_blkHash pr) (Consensus.br_appHash r)
      (Some (Consensus.prop_blk pr)) (Some ci).
Proof.
  intros Hp Hr Hci Hst Hsr Hc Hlen Hl Hnp. unfold Consensus.commit.
  rewrite (action_bind_Ok _ _ ce (Some r) ce) by (unfold gets; by rewrite Hr). rewrite (action_bind_Ok _ _ ce (Some pr) ce) by (unfold gets; by rewrite Hp).
  rewrite (action_bind_Ok _ _ ce (Some ci) ce) by (unfold gets; by rewrite Hci).
  set (w0 := set_intent (Consensus.env ce) (Some (Consensus.prop_height pr, Consensus.prop_blkHash pr))).
  rewrite (action_bind_Ok _ _ ce tt (Consensus.set_env w0 ce)) by done.
  rewrite (action_bind_Ok _ _ _ tt (Consensus.set_env (set_store w0 s1) ce)).
  2: { unfold Consensus.on_env. cbn [Consensus.bs_Store node_store machine_store store_of store_interface Consensus.env Consensus.set_env]. unfold on_store.
       change (m_store w0) with (m_store (Consensus.env ce)). by rewrite Hst. }
  rewrite (action_bind_Ok _ _ _ tt (Consensus.set_env (set_store w0 s2) ce)).
  2: { unfold Consensus.on_env. cbn [Consensus.bs_StoreResults node_store machine_store store_of store_interface Consensus.env Consensus.set_env]. unfold on_store.
       cbn [m_store set_store]. by rewrite Hsr. }
  rewrite (action_bind_Ok _ _ _ tt (Consensus.set_env (set_store w0 s2) ce)) by done.
  rewrite (action_bind_Ok _ _ _ (Consensus.inSync ce) (Consensus.set_env (set_store w0 s2) ce)) by done.
  set (ce1 := Consensus.set_env (mkMachine p3 s2 (m_intent w0) (m_leaders w0)) ce).
  rewrite (action_bind_Ok _ _ _ tt ce1).
  2: { unfold Consensus.on_env. cbn [Consensus.bp_Commit node_processor machine_processor processor_of processor_interface Consensus.env Consensus.set_env].
       unfold on_proc. change (m_proc (set_store w0 s2)) with (m_proc (Consensus.env ce)). by rewrite Hc. }
  destruct (settle_txs_run (Txns (Consensus.prop_blk pr)) (Consensus.br_txResults r) ce1 Hlen) as (ce2 & E2 & Ee2 & Es2 & El2).
  rewrite (action_bind_Ok _ _ _ _ _ E2). clear E2.
  set (mbs := MaxBlockSize (Consensus.ConsensusParams ce2)). rewrite (action_bind_Ok _ _ ce2 mbs ce2) by done.
  set (ce3 := Consensus.upd_mempool (Mempool.CapMaxTxSize mbs) ce2). rewrite (action_bind_Ok _ _ ce2 tt ce3) by done.
  destruct (RecheckTxs_run (Consensus.prop_height pr) (Timestamp (Header (Consensus.prop_blk pr))) ce3) as (ce4 & p' & E4 & Ee4 & Hchk & Es4 & El4).
  rewrite (action_bind_Ok _ _ _ _ _ E4). clear E4.
  set (sz := fst (Mempool.Size (Consensus.mempool ce4))). rewrite (action_bind_Ok _ _ ce4 sz ce4) by done.
  set (ce5 := if mbs <=? sz then Consensus.set_mempoolReady true ce4 else ce4).
  rewrite (action_bind_Ok _ _ ce4 tt ce5) by (unfold awhen, ce5; by destruct (mbs <=? sz)).
  assert (Consensus.env ce5 = Consensus.env ce4 /\ Consensus.st ce5 = Consensus.st ce4 /\ Consensus.leader ce5 = Consensus.leader ce4) as (Ee5 & Es5 & El5)
    by (unfold ce5; by destruct (mbs <=? sz)).
  assert (Consensus.st ce5 = Consensus.st ce) as Est by (rewrite Es5, Es4; exact Es2).
  destruct (nextState_run ce5 pr r) as (ce6 & l & E6 & Ee6 & El6 & Elc); [by rewrite Est..|]. rewrite (action_bind_Ok _ _ _ _ _ E6). clear E6.
  assert (Consensus.env ce6 = mkMachine p' s2 (m_intent w0) l) as Ee by (rewrite Ee6, Ee5, Ee4; change (Consensus.env ce3) with (Consensus.env ce2); by rewrite Ee2).
  assert (m_proc (Consensus.env ce3) = p3) as Ep3 by (change (Consensus.env ce3) with (Consensus.env ce2); by rewrite Ee2).
  rewrite Ep3 in Hchk. destruct (updateValidatorSetAndRole_run ce6) as (ce7 & E7 & Ee7 & Es7 & _).
  { rewrite El6, El5, El4. change (Consensus.leader ce3) with (Consensus.leader ce2). by rewrite El2. }
  { rewrite Ee. cbn [m_proc]. destruct Hchk as [_ Hchk]. unfold netParams, chainCtx in *. unfold same_chain in Hchk. by rewrite Hchk. }
  rewrite (action_bind_Ok _ _ _ _ _ E7). clear E7. eexists _, p', l. split; [reflexivity|]. split; [done|]. split.
  - cbn. by rewrite Ee7, Ee.
  - cbn. by rewrite Es7, Elc, Est, Hci.
Qed.

(** ** Starts *)

Context (HO : Badger_ok D T) (Hreg : reg_ok reg) (Hhash : forall b, length (HashBytes b) = HashLen).

Lemma Consensus_copy_hash (b : bytes) : length b = HashLen -> Consensus.copy_hash (replicate HashLen x00) b = b.
Proof.
  intros Hb. unfold Consensus.copy_hash. rewrite <- Hb, firstn_all, Hb.
  by rewrite skipn_all2, app_nil_r by (rewrite length_replicate; reflexivity).
Qed.

(** A block of the store, read by its height. *)
Lemma stored_block s m hash height : sim HashBytes reg s m -> Mem.mb_idx m !! hash = Some height ->
  exists blk ci, Mem.GetByHeight height m = Ok (hash, blk, ci) /\ Header_Hash HashBytes reg (Header (norm_Block blk)) = Ok hash /\
    GetByHeight reg height s = Ok (hash, norm_Block blk, norm_commit ci) /\ Mem.mb_hashes m !! height = Some (hash, ci_AppHash ci).
Proof using Hreg.
  intros R E. destruct (sim_have _ _ _ _ R hash height E) as (_ & blk & ci & Eb & Ec & Hs & Hh & Ehs). exists blk, ci.
  assert (Mem.GetByHeight height m = Ok (hash, blk, ci)) as Eg by (unfold Mem.GetByHeight, Mem.Get; by rewrite Ehs, Eb, Ec).
  split; [done|]. split.
  - unfold Header_Hash, norm_Block. cbn [Header]. rewrite write_norm_Header. apply (sd_hash _ _ _ _ _ _ Hs).
  - split; [|done]. by rewrite (sim_GetByHeight _ _ Hreg _ _ _ R), Eg.
Qed.

(** The state an engine starts from: the last commit of the database, with the
    heights of the database and of the block store. *)
Lemma engine_start_run leader mp genesisHeight genesis got w m hash height app best bhash bapp :
  is_Some leader -> is_Some (np_Leader (netParams (m_proc w))) ->
  GetChainState (db_meta (bp_db (m_proc w))) = (height, Some app, false) -> length app = HashLen -> 0 < height ->
  sim HashBytes reg (m_store w) m -> Mem.mb_idx m !! hash = Some height -> Mem.Best m = (best, bhash, bapp) ->
  height <= best -> (height = best -> bapp = app) ->
  exists ce blk ci i, engine_start N sv engine genesisParams endBlockHooks HashBytes reg privKey leader mp genesisHeight genesis got w = (Ok (height, best), ce) /\
    Mem.GetByHeight height m = Ok (hash, blk, ci) /\
    Consensus.lc (Consensus.st ce) = Consensus.mkLastCommit height hash app (Some (norm_Block blk)) (Some (norm_commit ci)) /\
    Consensus.env ce = set_intent w i.
Proof using Hreg HO.
  intros Hl Hnp Hm Hlen Hpos R Hidx HBest Hle Heq. destruct (stored_block _ _ _ _ R Hidx) as (blk & ci & Eg & Eh & Egs & Ehs).
  pose proof (sim_Best _ _ _ _ R) as B. assert (Consensus.bs_Best w = (best, bhash, bapp)) as EB.
  { cbn [Consensus.bs_Best node_store machine_store store_of store_interface]. destruct (Best (m_store w)) as [[[? ?] ?] ?]. congruence. }
  unfold engine_start. rewrite Hm. unfold Consensus.initializeState. set (ce := Consensus.New _ _ _ _).
  assert (Consensus.env ce = w) as Ew by done.
  rewrite (action_bind_Ok _ _ ce (best, bhash, bapp) ce) by (unfold gets; by rewrite Ew, <- EB). rewrite (action_bind_Ok _ _ ce (height, app, false) ce) by done.
  cbn [fst snd]. rewrite Z.gtb_ltb, (proj2 (Z.ltb_ge _ _) Hle). cbn [andb].
  rewrite (action_bind_Ok _ _ ce tt ce) by done. rewrite (action_bind_Ok _ _ ce (best, bhash, bapp) ce) by (unfold gets; by rewrite Ew, <- EB).
  cbn [fst snd]. rewrite (proj2 (Z.eqb_neq height (-1))), (proj2 (Z.eqb_neq height 0)) by lia.
  assert ((height =? best) && negb (bool_decide (app = bapp)) = false) as ->.
  { destruct (Z.eqb_spec height best) as [E|]; [|done]. by rewrite (Heq E), bool_decide_true. }
  set (last := Consensus.mkLastCommit height hash app (Some (norm_Block blk)) (Some (norm_commit ci))).
  set (ce1 := Consensus.upd_info (fun s => Consensus.mkStateInfo height Consensus.Committed None height last) (Consensus.upd_st (Consensus.st_set_lc last) ce)).
  rewrite (action_bind_Ok _ _ ce height ce1).
  2: { rewrite (action_bind_Ok _ _ ce (Ok (hash, norm_Block blk, norm_commit ci)) ce) by (unfold gets; rewrite Ew; cbn; by rewrite Egs).
       rewrite (action_bind_Ok _ _ ce (hash, norm_Block blk, norm_commit ci) ce) by done. cbv iota beta.
       rewrite (action_bind_Ok _ _ ce tt ce1); [done|]. unfold Consensus.setLastCommitInfo.
       rewrite (action_bind_Ok _ _ ce hash ce) by (unfold alift; by rewrite Eh). unfold mbind, action_bind, modify.
       unfold ce1, last, ce, Consensus.New, Consensus.upd_info, Consensus.upd_st, Consensus.st_set_lc.
       cbn [Consensus.lc Consensus.lc_appHash Consensus.st]. by rewrite Consensus_copy_hash. }
  destruct (updateValidatorSetAndRole_run ce1) as (ce2 & E2 & Ee2 & Es2 & _); [done|done|].
  rewrite (action_bind_Ok _ _ _ _ _ E2). rewrite (action_bind_Ok _ _ ce2 (best, bhash, bapp) ce2) by (unfold gets; rewrite Ee2; by rewrite <- EB).
  assert (Consensus.env ce2 = w /\ Consensus.lc (Consensus.st ce2) = last) as [Ew2 Elc] by (by rewrite Ee2, Es2).
  assert (exists ce3 i, (match m_intent w with
    | Some (intentHeight, _) => awhen ((intentHeight <=? best) && (intentHeight <=? height)) (_ ← atry (Consensus.on_env Consensus.cl_Clear); mret tt)
    | None => mret tt end : action CE unit) ce2 = (Ok tt, ce3) /\ Consensus.env ce3 = set_intent w i /\ Consensus.lc (Consensus.st ce3) = last) as (ce3 & i & E3 & Ew3 & Elc3).
  { destruct (m_intent w) as [[ih ib]|] eqn:Ei; [|exists ce2, None; split_and!; try done; rewrite Ew2; by destruct w; cbn in *; subst].
    unfold awhen. destruct (_ && _).
    - eexists _, None. split; [reflexivity|]. cbn. by rewrite Ew2.
    - exists ce2, (Some (ih, ib)). split_and!; try done. rewrite Ew2. by destruct w; cbn in *; subst. }
  rewrite (action_bind_Ok _ _ _ _ _ E3). by exists ce3, blk, ci, i.
Qed.

(** ** Commits *)

Context (HP : host_ok N sv endBlockHooks).
Context (Hcodec : forall np bts, params_Marshal np = Ok bts -> params_Unmarshal bts = Ok np).
Context (Hpersist : forall h x, exists x', sv_PersistLastChangesetHeight sv h x = Ok x').

(** The writes of a block and its results fit the transactions of the store. *)
Record fitting (s : BlockStore D) (blk : Block) (ci : CommitInfo) (hash : bytes) (rs : list Consensus.TxResult) : Prop := mkFitting {
  ft_block : exists hdr raw bts t, encoded HashBytes reg blk ci hash hdr raw bts /\ fits bts /\
    set_list (block_entries HashBytes blk hash hdr raw bts) txn_New = Ok t;
  ft_results : exists t, set_list (T := T) (result_entries hash rs) txn_New = Ok t;
  ft_commit : forall (t : T) d, exists d', txn_Commit t d = Ok d'
}.

(** An engine at height [req_Height req - 1] that has executed a block, verified its
    commit info and is about to commit it; [m] is its store in memory, [last] the
    hash of the last block. *)
Record ready (p : Processor C X) (req : Consensus.BlockExecRequest) (res : Consensus.BlockExecResult) (ci : CommitInfo)
    (m : Mem.MemBS) (last hash : bytes) ce : Prop := mkReady {
  rd_rest : at_rest p;
  rd_chain : GetChainState (db_meta (bp_db p)) = (req_Height req - 1, Some (bp_appHash p), false);
  rd_length : length (bp_appHash p) = HashLen;
  rd_exec : exists b c, ExecuteBlock N sv endBlockHooks req b c p = (Ok res, m_proc (Consensus.env ce));
  rd_height : bh_Height (Header (req_Block req)) = req_Height req;
  rd_prop : Consensus.blkProp (Consensus.st ce) = Some (Consensus.mkProposal (req_Height req) hash (req_Block req));
  rd_res : exists r, Consensus.blockRes (Consensus.st ce) = Some r /\ Consensus.br_appHash r = res_AppHash res /\
    Consensus.br_txResults r = res_TxResults res;
  rd_commitInfo : Consensus.commitInfo (Consensus.st ce) = Some ci;
  rd_appHash : ci_AppHash ci = res_AppHash res;
  rd_leader : is_Some (Consensus.leader ce);
  rd_leaders : is_Some (np_Leader (netParams p)) /\ is_Some (np_Leader (snd (merged_params (m_proc (Consensus.env ce)))));
  rd_sim : sim HashBytes reg (m_store (Consensus.env ce)) m;
  rd_new : new_block HashBytes reg m (req_Block req) ci hash;
  rd_last : Mem.mb_idx m !! last = Some (req_Height req - 1);
  rd_best : Mem.Best m = (req_Height req - 1, last, bp_appHash p);
  rd_fits : fitting (m_store (Consensus.env ce)) (req_Block req) ci hash (res_TxResults res)
}.

#[local] Arguments rd_rest {p req res ci m last hash ce} _.
#[local] Arguments rd_chain {p req res ci m last hash ce} _.
#[local] Arguments rd_length {p req res ci m last hash ce} _.
#[local] Arguments rd_exec {p req res ci m last hash ce} _.
#[local] Arguments rd_height {p req res ci m last hash ce} _.
#[local] Arguments rd_prop {p req res ci m last hash ce} _.
#[local] Arguments rd_res {p req res ci m last hash ce} _.
#[local] Arguments rd_commitInfo {p req res ci m last hash ce} _.
#[local] Arguments rd_appHash {p req res ci m last hash ce} _.
#[local] Arguments rd_leader {p req res ci m last hash ce} _.
#[local] Arguments rd_leaders {p req res ci m last hash ce} _.
#[local] Arguments rd_sim {p req res ci m last hash ce} _.
#[local] Arguments rd_new {p req res ci m last hash ce} _.
#[local] Arguments rd_last {p req res ci m last hash ce} _.
#[local] Arguments rd_best {p req res ci m last hash ce} _.
#[local] Arguments rd_fits {p req res ci m last hash ce} _.

(** A start on a clean database. *)
Lemma boot_clean txapp im s m height app np :
  sim HashBytes reg s m -> im_blocks im = bdb s -> GetChainState (db_meta (im_db im)) = (height, Some app, false) ->
  LoadParams (db_meta (im_db im)) = Ok np -> length app = HashLen ->
  exists p s', boot sv genesisParams reg txapp im = Ok (mkMachine p s' (im_intent im) (im_leaders im)) /\
    sim HashBytes reg s' m /\ bp_db p = im_db im /\ netParams p = np.
Proof using Hreg HO.
  intros R Eb Hm Hl Hlen. destruct (NewBlockStore_sim _ _ Hreg s m R) as (s' & Es & _ & R').
  unfold boot. rewrite Eb, Es. cbn [mbind result_bind].
  destruct (restart_clean sv genesisParams (fun height => '(_, _, ci) ← GetByHeight reg height s'; mret (Some ci)) txapp (im_db im) height app np Hm Hl Hlen)
    as (p & Ep & Edb & _ & _ & Enp). unfold mbind, result_bind in *. rewrite Ep. by exists p, s'.
Qed.

(** What the writes to the block store do. *)
Lemma ready_store p req res ci m last hash ce :
  ready p req res ci m last hash ce ->
  exists s1 s2 m1 m2, Store HashBytes reg (req_Block req) (Some ci) (m_store (Consensus.env ce)) = (Ok tt, s1) /\
    StoreResults hash (res_TxResults res) s1 = (Ok tt, s2) /\ sim HashBytes reg s1 m1 /\ sim HashBytes reg s2 m2 /\
    Forall (fun m' => Mem.Best m' = (req_Height req, hash, ci_AppHash ci) /\ Mem.mb_idx m' !! hash = Some (req_Height req) /\
      Mem.mb_idx m' !! last = Some (req_Height req - 1) /\ Mem.mb_hashes m' !! req_Height req = Some (hash, ci_AppHash ci)) [m1; m2].
Proof using HO Hreg Hhash.
  intros [H1 H2 H3 (b & c & Hx) H5 H6 H7 H8 H9 H10 H11 R Hnew Hlast Hbest [(hdr & raw & bts & t & He & Hf & Ht) [t2 Ht2] Hc]].
  destruct (Hc t (bdb (m_store (Consensus.env ce)))) as [d' Hd'].
  destruct (Store_best HashBytes reg Hhash (m_store (Consensus.env ce)) m (req_Block req) ci hash hdr raw bts t d' R Hnew He Hf Ht Hd') as (s1 & Es1 & R1 & Ed & Eb).
  { pose proof (sim_Best _ _ _ _ R) as B. rewrite H5. unfold Best in B. rewrite Hbest in B. injection B as -> _ _. lia. }
  destruct (Hc t2 (bdb s1)) as [d2 Hd2].
  pose proof (ExecuteBlock_results _ _ _ _ _ _ _ _ _ Hx) as Hlen.
  destruct (nb_block _ _ _ _ _ _ Hnew) as [Hhd Hnum _ _]. pose proof (ho_num _ _ Hhd) as Hu.
  destruct (StoreResults_frame HashBytes reg s1 _ hash (res_TxResults res) t2 d2 ltac:(unfold zlen in *; ints; lia) R1 Ht2 Hd2) as [Er R2].
  eexists s1, _, _, _. split; [done|]. split; [done|]. split; [done|]. split; [done|].
  assert (last <> hash) as Hne by (intros ->; rewrite (nb_hash _ _ _ _ _ _ Hnew) in Hlast; done).
  assert (Mem.mb_idx (mem_stored HashBytes m (req_Block req) ci hash) !! hash = Some (req_Height req)) as I1 by (cbn; by rewrite lookup_insert_eq, H5).
  assert (Mem.mb_idx (mem_stored HashBytes m (req_Block req) ci hash) !! last = Some (req_Height req - 1)) as I2 by (cbn; by rewrite lookup_insert_ne).
  assert (Mem.mb_hashes (mem_stored HashBytes m (req_Block req) ci hash) !! req_Height req = Some (hash, ci_AppHash ci)) as I3
    by (cbn; by rewrite H5, lookup_insert_eq).
  rewrite H5 in Eb. apply list.Forall_cons. split; [done|]. by apply Forall_singleton.
Qed.

(** What the commit of the block processor does, and a start between its two
    transactions. *)
Lemma ready_commit p req res ci m last hash ce :
  ready p req res ci m last hash ce ->
  exists p2 p3 p3', Commit sv (req_Height req) (res_AppHash res) (m_proc (Consensus.env ce)) = (Ok tt, p3) /\
    commit_state (req_Height req) (res_AppHash res) (m_proc (Consensus.env ce)) = (Ok tt, p2) /\
    store_app_hash sv (req_Height req) (res_AppHash res) p2 = (Ok tt, p3') /\ bp_db p3' = bp_db p3 /\
    GetChainState (db_meta (bp_db p3)) = (req_Height req, Some (res_AppHash res), false) /\
    LoadParams (db_meta (bp_db p3)) = Ok (netParams p3) /\ is_Some (np_Leader (netParams p3)) /\
    forall txapp getByHeight, (exists ci', getByHeight (req_Height req) = Ok (Some ci') /\ ci_AppHash ci' = res_AppHash res) ->
      exists p4, NewBlockProcessor sv genesisParams getByHeight txapp (bp_db p2) = Ok (Some p4) /\ bp_db p4 = bp_db p3 /\ netParams p4 = netParams p3.
Proof using HP Hcodec Hpersist.
  intros [H1 H2 H3 (b & c & Hx) H5 H6 H7 H8 H9 H10 [_ H11] R Hnew _ _ _]. pose proof (co_app _ _ (nb_commit _ _ _ _ _ _ Hnew)) as Hlen.
  rewrite <- H9 in *.
  pose proof (fun ci' getByHeight txapp Hl Hg =>
    Commit_durable N sv endBlockHooks HP genesisParams req b c p res _ getByHeight ci' txapp Hcodec Hpersist H1 H3 Hl Hx Hg) as HD'.
  destruct (HD' ci (fun _ => Ok (Some ci)) (bp_txapp p) Hlen eq_refl) as (p2 & p3 & Ec & Hr & Hm & _ & _ & Hnp & Es & _).
  pose proof Ec as Ec'. unfold Commit in Ec'. rewrite (action_bind_Ok _ _ _ _ _ Es) in Ec'. apply action_bind_inv in Ec' as ([] & p3' & Eh & Em).
  injection Em as Em. exists p2, p3, p3'. split_and!; try done.
  - by rewrite <- Em.
  - apply (ar_params _ Hr).
  - by rewrite Hnp.
  - intros txapp getByHeight (ci' & Hg & E). destruct (HD' ci' getByHeight txapp ltac:(by rewrite E) Hg) as (p2' & p3'' & Ec2 & _ & _ & _ & _ & _ & Es2 & p4 & En & Ed & _ & _ & Enp).
    rewrite E in *. assert (p2' = p2) as -> by congruence. assert (p3'' = p3) as -> by congruence. by exists p4.
Qed.

(** The last commit of an engine is a block. *)
Definition committed (height : Z) (hash app : bytes) ce : Prop :=
  exists blk ci, Consensus.lc (Consensus.st ce) = Consensus.mkLastCommit height hash app blk ci.

(** A start on databases that agree. *)
Definition starts (txapp : App C X) (leader : option PublicKey) mp gh genesis got (im : image) (heights : Z * Z) ce : Prop :=
  exists w, boot sv genesisParams reg txapp im = Ok w /\
    engine_start N sv engine genesisParams endBlockHooks HashBytes reg privKey leader mp gh genesis got w = (Ok heights, ce).

Lemma starts_booted txapp leader mp gh genesis got im p s m hash height app best bhash bapp :
  is_Some leader -> boot sv genesisParams reg txapp im = Ok (mkMachine p s (im_intent im) (im_leaders im)) -> sim HashBytes reg s m ->
  GetChainState (db_meta (bp_db p)) = (height, Some app, false) -> is_Some (np_Leader (netParams p)) -> length app = HashLen ->
  Mem.mb_idx m !! hash = Some height -> 0 < height -> Mem.Best m = (best, bhash, bapp) -> height <= best -> (height = best -> bapp = app) ->
  exists ce, starts txapp leader mp gh genesis got im (height, best) ce /\ committed height hash app ce.
Proof using Hreg HO.
  intros Hl Eb R Hm Hnp Hlen Hidx Hpos HBest Hle Heq.
  destruct (engine_start_run leader mp gh genesis got (mkMachine p s (im_intent im) (im_leaders im)) m hash height app best bhash bapp)
    as (ce & blk & ci & i & Est & _ & Elc & _); try done.
  exists ce. split; [by eexists|by eexists _, _].
Qed.

Lemma starts_clean txapp leader mp gh genesis got im s m hash height app np best bhash bapp :
  is_Some leader -> sim HashBytes reg s m -> im_blocks im = bdb s ->
  GetChainState (db_meta (im_db im)) = (height, Some app, false) -> LoadParams (db_meta (im_db im)) = Ok np -> is_Some (np_Leader np) ->
  length app = HashLen -> Mem.mb_idx m !! hash = Some height -> 0 < height ->
  Mem.Best m = (best, bhash, bapp) -> height <= best -> (height = best -> bapp = app) ->
  exists ce, starts txapp leader mp gh genesis got im (height, best) ce /\ committed height hash app ce.
Proof using Hreg HO.
  intros Hl R Eb Hm Hlp Hnp Hlen Hidx Hpos HBest Hle Heq.
  destruct (boot_clean txapp im s m height app np R Eb Hm Hlp Hlen) as (p & s' & Eboot & R' & Ep & Enp).
  eapply starts_booted; try done; rewrite ?Ep, ?Enp; done.
Qed.

Lemma ready_appHash p req res ci m last hash ce : ready p req res ci m last hash ce -> length (res_AppHash res) = HashLen.
Proof. intros Hrd. rewrite <- (rd_appHash Hrd). apply (co_app _ _ (nb_commit _ _ _ _ _ _ (rd_new Hrd))). Qed.

Lemma ready_height p req res ci m last hash ce : ready p req res ci m last hash ce -> 0 < req_Height req - 1.
Proof.
  intros Hrd. destruct (sim_have _ _ _ _ (rd_sim Hrd) _ _ (rd_last Hrd)) as (_ & blk & ci' & _ & _ & Hs & <- & _).
  apply (sd_height _ _ _ _ _ _ Hs).
Qed.

(** C5. Committing a block on a node: the engine stores the block and its results
    and the block processor commits the state; the commit succeeds and the block
    is the last commit of the engine.  A start on what is then on disk succeeds,
    finds the database and the block store at the same height, and starts from
    the same block and app hash. *)
Theorem node_commit_durable p req res ci m last hash ce txapp leader mp gh genesis got :
  ready p req res ci m last hash ce -> is_Some leader ->
  exists ce' ce2, Consensus.commit HashBytes privKey ce = (Ok tt, ce') /\
    committed (req_Height req) hash (res_AppHash res) ce' /\
    starts txapp leader mp gh genesis got (crash (Consensus.env ce')) (req_Height req, req_Height req) ce2 /\
    committed (req_Height req) hash (res_AppHash res) ce2.
Proof using HP Hcodec Hpersist Hreg HO Hhash.
  intros Hrd Hl. destruct (ready_store _ _ _ _ _ _ _ _ Hrd) as (s1 & s2 & m1 & m2 & E1 & E2 & R1 & R2 & [_ [(B2 & I2 & _) _]%list.Forall_cons]%list.Forall_cons).
  destruct (ready_commit _ _ _ _ _ _ _ _ Hrd) as (p2 & p3 & p3' & Ec & _ & _ & _ & Hm & Hlp & Hnp & _).
  destruct (rd_res Hrd) as (r & Hr & Ea & Et). destruct (rd_exec Hrd) as (b & c & Hx).
  pose proof (ExecuteBlock_results _ _ _ _ _ _ _ _ _ Hx) as Hlen.
  destruct (commit_run ce _ r ci s1 s2 p3 (rd_prop Hrd) Hr (rd_commitInfo Hrd) E1) as (ce' & p' & l & Ecm & [Ef _] & Ee & Elc);
    cbn [Consensus.prop_blkHash Consensus.prop_height Consensus.prop_blk]; rewrite ?Et, ?Ea; try done.
  { apply (rd_leader Hrd). }
  rewrite (rd_appHash Hrd) in *. unfold pframe in Ef. injection Ef as Edb _ _ _ _.
  pose proof (ready_height _ _ _ _ _ _ _ _ Hrd) as Hpos.
  destruct (starts_clean txapp leader mp gh genesis got (crash (Consensus.env ce')) s2 m2 hash (req_Height req) (res_AppHash res) (netParams p3)
    (req_Height req) hash (res_AppHash res)) as (ce2 & Hst & Hcm); rewrite ?Ee; cbn [crash im_blocks im_db m_proc m_store]; rewrite ?Edb; try done.
  { by eapply ready_appHash. } { lia. }
  exists ce', ce2. rewrite Ee in Hst. split; [done|]. split; [|by rewrite Ee].
  exists (Some (req_Block req)), (Some ci). rewrite Elc. cbn. by rewrite Ea.
Qed.

(** The images of a commit; the database does not change before the block
    processor commits. *)
Lemma ready_crashes p req res ci m last hash ce s1 s2 p2 p3 :
  ready p req res ci m last hash ce ->
  Store HashBytes reg (req_Block req) (Some ci) (m_store (Consensus.env ce)) = (Ok tt, s1) -> StoreResults hash (res_TxResults res) s1 = (Ok tt, s2) ->
  commit_state (req_Height req) (res_AppHash res) (m_proc (Consensus.env ce)) = (Ok tt, p2) ->
  store_app_hash sv (req_Height req) (res_AppHash res) p2 = (Ok tt, p3) ->
  let s := m_store (Consensus.env ce) in let l := m_leaders (Consensus.env ce) in let i := Some (req_Height req, hash) in
  crashes (commit_writes sv HashBytes reg (req_Height req) hash (res_AppHash res) (req_Block req) ci (res_TxResults res)) (Consensus.env ce)
  = [mkImage (bp_db p) (bdb s) (m_intent (Consensus.env ce)) l; mkImage (bp_db p) (bdb s) i l; mkImage (bp_db p) (bdb s1) i l; mkImage (bp_db p) (bdb s2) i l;
     mkImage (bp_db p2) (bdb s2) i l; mkImage (bp_db p3) (bdb s2) i l].
Proof using HP.
  intros Hrd E1 E2 Ec Eh. destruct (rd_exec Hrd) as (b & c & Hx).
  pose proof (ExecuteBlock_post N sv endBlockHooks HP req b c p (rd_rest Hrd)) as Hpost. rewrite Hx in Hpost. destruct Hpost as [Edb _].
  unfold commit_writes. cbn [crashes Consensus.cl_Record machine_files modify]. unfold crash at 1. rewrite Edb. f_equal. unfold modify. unfold crash at 1. cbn [m_proc set_intent m_store m_intent m_leaders]. rewrite Edb. f_equal.
  cbn [Consensus.bs_Store Consensus.bs_StoreResults node_store machine_store store_of store_interface]. unfold on_store, on_proc. cbn [m_store set_intent]. rewrite E1.
  unfold crash at 1. cbn [m_proc set_intent set_store m_store m_intent m_leaders]. rewrite Edb. f_equal. rewrite E2.
  unfold crash at 1. cbn [m_proc set_intent set_store m_store m_intent m_leaders]. rewrite Edb. f_equal. rewrite Ec.
  unfold crash at 1. cbn [m_proc set_proc set_intent set_store m_store m_intent m_leaders]. f_equal. by rewrite Eh.
Qed.

(** C6. Every crash during the durable writes of a commit, six points in all,
    leaves a node that starts.  From the first database transaction of the block
    processor on, the start finishes the commit.  Before it, the node starts from
    the previous block; if the block is in the block store already, the start
    sees the store one block ahead and the catch-up from the store replays
    nothing, because its range with a single block counts as empty. *)
Theorem commit_crash_points p req res ci m last hash ce txapp leader mp gh genesis got :
  ready p req res ci m last hash ce -> is_Some leader ->
  let images := crashes (commit_writes sv HashBytes reg (req_Height req) hash (res_AppHash res) (req_Block req) ci (res_TxResults res)) (Consensus.env ce) in
  let height := req_Height req in
  length images = 6%nat /\
  forall k im, images !! k = Some im ->
    if (k <? 4)%nat then
      let heights := (height - 1, if (k <? 2)%nat then height - 1 else height) in
      exists ce', starts txapp leader mp gh genesis got im heights ce' /\ committed (height - 1) last (bp_appHash p) ce' /\
        engine_replay N sv engine genesisParams endBlockHooks HashBytes reg PubKey_Verify range privKey heights ce' = (Ok tt, ce')
    else exists ce', starts txapp leader mp gh genesis got im (height, height) ce' /\ committed height hash (res_AppHash res) ce'.
Proof using HP Hcodec Hpersist Hreg HO Hhash.
  intros Hrd Hl images height.
  destruct (ready_store _ _ _ _ _ _ _ _ Hrd) as (s1 & s2 & m1 & m2 & E1 & E2 & R1 & R2 & [(B1 & _ & L1 & _) [(B2 & I2 & L2 & A2) _]%list.Forall_cons]%list.Forall_cons).
  destruct (ready_commit _ _ _ _ _ _ _ _ Hrd) as (p2 & p3 & p3' & _ & Ec & Eh & Edb & Hm & Hlp & Hnp & Hdirty).
  pose proof (ready_crashes _ _ _ _ _ _ _ _ s1 s2 p2 p3' Hrd E1 E2 Ec Eh) as Eim. cbv zeta in Eim. fold images in Eim.
  pose proof (ready_height _ _ _ _ _ _ _ _ Hrd) as Hpos. fold height in Hpos.
  split; [by rewrite Eim|]. rewrite Eim.
  assert (forall im s m' best bhash bapp, sim HashBytes reg s m' -> im_db im = bp_db p -> im_blocks im = bdb s -> Mem.mb_idx m' !! last = Some (height - 1) ->
    Mem.Best m' = (best, bhash, bapp) -> (best = height - 1 /\ bapp = bp_appHash p) \/ best = height ->
    exists ce', starts txapp leader mp gh genesis got im (height - 1, best) ce' /\ committed (height - 1) last (bp_appHash p) ce' /\
      engine_replay N sv engine genesisParams endBlockHooks HashBytes reg PubKey_Verify range privKey (height - 1, best) ce' = (Ok tt, ce')) as Hbefore.
  { intros im s m' best bhash bapp R Ed Eb Hi HBest Hbest. pose proof (rd_rest Hrd) as Hr.
    destruct (starts_clean txapp leader mp gh genesis got im s m' last (height - 1) (bp_appHash p) (netParams p) best bhash bapp) as (ce' & Hst & Hcm); try done.
    { rewrite Ed. apply (rd_chain Hrd). } { rewrite Ed. apply (ar_params _ Hr). } { apply (rd_leaders Hrd). }
    { apply (rd_length Hrd). } { lia. } { intros. destruct Hbest as [[_ ->]|]; [done|lia]. }
    exists ce'. split_and!; [done..|]. unfold engine_replay, Consensus.replayFromBlockStore. cbn [fst snd].
    destruct (Z.ltb_spec (height - 1) best); [|done]. destruct (Z.leb_spec best (height - 1 + 1)); [done|lia]. }
  assert (forall im p4 s4, boot sv genesisParams reg txapp im = Ok (mkMachine p4 s4 (im_intent im) (im_leaders im)) -> sim HashBytes reg s4 m2 ->
    bp_db p4 = bp_db p3 -> netParams p4 = netParams p3 ->
    exists ce', starts txapp leader mp gh genesis got im (height, height) ce' /\ committed height hash (res_AppHash res) ce') as Hafter.
  { intros im p4 s4 Eb R Ed Enp. eapply starts_booted; try done; rewrite ?Ed, ?Enp; try done; [by eapply ready_appHash|lia|].
    intros _. apply (rd_appHash Hrd). }
  pose proof (rd_best Hrd) as B0. pose proof (rd_sim Hrd) as R0. pose proof (rd_last Hrd) as L0.
  intros [|[|[|[|[|[|k]]]]]] im; cbn [lookup list_lookup Nat.ltb Nat.leb]; try done; intros <-%(inj Some).
  - apply (Hbefore _ _ m _ last (bp_appHash p) R0); auto.
  - apply (Hbefore _ _ m _ last (bp_appHash p) R0); auto.
  - apply (Hbefore _ _ m1 _ hash (ci_AppHash ci) R1); auto.
  - apply (Hbefore _ _ m2 _ hash (ci_AppHash ci) R2); auto.
  - destruct (NewBlockStore_sim _ _ Hreg s2 m2 R2) as (s' & Es & _ & R').
    destruct (stored_block _ _ _ _ R' I2) as (blk & ci' & Eg & _ & Egs & Ehs).
    destruct (Hdirty txapp (fun height => '(_, _, ci) ← GetByHeight reg height s'; mret (Some ci))) as (p4 & Ep4 & Ed4 & Enp4).
    { exists (norm_commit ci'). cbv beta. unfold height in *. rewrite Egs. split; [done|]. cbn. rewrite <- (rd_appHash Hrd). congruence. }
    apply (Hafter _ p4 s'); try done. unfold boot. cbn [im_blocks im_db]. rewrite Es. unfold mbind, result_bind in *. by rewrite Ep4.
  - destruct (boot_clean txapp (mkImage (bp_db p3') (bdb s2) (Some (height, hash)) (m_leaders (Consensus.env ce))) s2 m2 height (res_AppHash res) (netParams p3))
      as (p4 & s4 & Eb & R4 & Ed4 & Enp4); cbn [im_db im_blocks]; rewrite ?Edb; try done; [by eapply ready_appHash|].
    rewrite Edb in Eb, Ed4. by apply (Hafter _ p4 s4 Eb R4).
Qed.
End node.
