(* ===== verification/NodeSamples.v ===== *)
(** * A concrete node

    A node at height 9 with its last block in the block store that is about to
    commit a block with a transfer. *)

From S2P Require Import Prelude.
From S2P Require Import Wire.
From S2P Require Import Keys.
From S2P Require Import Ident.
From S2P Require Import Tx.
From S2P Require Import Merkle.
From S2P Require Import Block.
From S2P Require Import Params.
From S2P Require Import Auth.
From S2P Require Import Commit.
From S2P Require Import Accounts.
From S2P Require Import Voting.
From S2P Require Import Events.
From S2P Require Mempool.
From S2P Require Import TxApp.
From S2P Require Import TxSamples.
From S2P Require Import Finalize.
From S2P Require Import FinalizeFacts.
From S2P Require Consensus.
From S2P Require Import Processor.
From S2P Require Import ProcessorFacts.
From S2P Require Import ProcessorSamples.
From S2P Require Import Store.
From S2P Require Import StoreFacts.
From S2P Require Import StoreSamples.
From S2P Require Import Node.
From S2P Require Import NodeFacts.
From Stdlib Require Import Strings.Byte.

#[local] Open Scope Z_scope.

Import FinalizeFacts.Samples.

(** ** The node between blocks *)

(** Services with a hash of the right size. *)
Definition hash_services : Services (list (list byte * Account)) unit :=
  mkServices toy_hash (fun _ _ _ => []) (fun _ => false) (fun _ => []) (fun _ _ => mret tt) (fun _ => Ok tt)
    (fun _ x => Ok x) None node_key (fun _ => Ok (mkSignature (Some []) Secp256k1Auth)).

Lemma hash_host_ok : host_ok voting_node hash_services ∅.
Proof. by apply quiet_host_ok. Qed.

Definition led_params : NetworkParameters := mkParams (Some node_key) 6291456 86400000000000 false 200 NoActiveMigration.

Definition led_state : state :=
  mkApp rich (mkVoteStore [] ∅) (mkTables ∅ ∅ ∅ ∅ ∅) (initializeEventStore ∅ ∅) tt
    (mkChainContext (str "kwil-test") led_params None None) ∅ [].

Definition led_proc : proc := resting led_state.

Lemma led_at_rest : at_rest led_proc.
Proof. apply (resting_at_rest led_state); reflexivity. Qed.

Definition prev_block : Block := NewBlock toy_hash 9 zero_Hash zero_Hash zero_Hash zero_Hash 1700000000000000000 [].
Definition prev_commit : CommitInfo := mkCommitInfo zero_hash [] ∅ [].
Definition prev_hash : bytes := ok_bytes (Block_Hash toy_hash test_registry prev_block).

Definition next_block : Block := NewBlock toy_hash 10 prev_hash zero_Hash zero_Hash zero_Hash 1700000001000000000 [pays [x02] carol 50000 210000 1].
Definition next_hash : bytes := ok_bytes (Block_Hash toy_hash test_registry next_block).

Definition next_request : Consensus.BlockExecRequest := Consensus.mkExecRequest 10 next_block next_hash (Some node_key).

Definition next_run : result Consensus.BlockExecResult * proc :=
  ExecuteBlock voting_node hash_services ∅ next_request false (fun _ => false) led_proc.

Definition next_result : Consensus.BlockExecResult := result_of next_run.

Lemma next_runs : next_run = (Ok next_result, snd next_run).
Proof. apply runs_ok. vm_compute. reflexivity. Qed.

Definition next_commit : CommitInfo := mkCommitInfo (Consensus.res_AppHash next_result) [] ∅ [].

(** ** The block store *)

Abbreviation W := (writes 100).

Definition store9 : BlockStore disk := snd (Store toy_hash test_registry (T := W) prev_block (Some prev_commit) empty_store).
Definition mem9 : Mem.MemBS := snd (Mem.Store toy_hash test_registry prev_block (Some prev_commit) Mem.NewMemBS).

Lemma header_ok_of h : bool_decide (
    0 <= bh_Version h < 2 ^ 16 /\ - 2 ^ 63 <= bh_Height h < 2 ^ 63 /\ 0 <= NumTxns h < 2 ^ 32 /\
    length (PrevHash h) = HashLen /\ length (PrevAppHash h) = HashLen /\ length (ValidatorSetHash h) = HashLen /\
    length (NetworkParamsHash h) = HashLen /\ length (MerkleRoot h) = HashLen /\
    - 2 ^ 63 <= UnixMilli (Timestamp h) < 2 ^ 63 /\ NewLeader h = None) = true -> header_ok test_registry h.
Proof.
  intros H%bool_decide_eq_true. destruct H as (H1 & H2 & H3 & H4 & H5 & H6 & H7 & H8 & H9 & H10).
  constructor; try done. by rewrite H10.
Qed.

Lemma prev_block_ok : block_ok test_registry prev_block.
Proof. constructor; [apply header_ok_of; vm_compute; reflexivity|reflexivity|constructor|by vm_compute]. Qed.

Lemma next_block_ok : block_ok test_registry next_block.
Proof.
  constructor; [apply header_ok_of; vm_compute; reflexivity|reflexivity| |by vm_compute].
  apply Forall_singleton. split; [by vm_compute|]. intros b [= <-]. const_range.
Qed.

Lemma empty_commit_ok app : length app = HashLen -> commit_ok test_registry (mkCommitInfo app [] ∅ []).
Proof. intros H. constructor; cbn; [done|constructor| |constructor]. by intros k v ?%lookup_empty_Some. Qed.

(** A block that fits a transaction of the store. *)
Definition fits_txn (blk : Block) (ci : CommitInfo) : bool :=
  match Block_Hash toy_hash test_registry blk, writeBlockHeader test_registry (Header blk), EncodeBlock test_registry blk, CommitInfo_MarshalBinary test_registry ci with
  | Ok hash, Ok hdr, Ok raw, Ok bts =>
      bool_decide (fits bts) && is_ok (set_list (T := W) (block_entries toy_hash blk hash hdr raw bts) txn_New)
  | _, _, _, _ => false
  end.

Lemma fits_txn_ok blk ci : fits_txn blk ci = true ->
  let hash := ok_bytes (Block_Hash toy_hash test_registry blk) in
  exists hdr raw bts t, encoded toy_hash test_registry blk ci hash hdr raw bts /\ fits bts /\
    set_list (T := W) (block_entries toy_hash blk hash hdr raw bts) txn_New = Ok t.
Proof.
  unfold fits_txn. destruct (Block_Hash _ _ _) as [hash|] eqn:E1; [|done]. destruct (writeBlockHeader _ _) as [hdr|] eqn:E2; [|done].
  destruct (EncodeBlock _ _) as [raw|] eqn:E3; [|done]. destruct (CommitInfo_MarshalBinary _ _) as [bts|] eqn:E4; [|done].
  intros [Hf%bool_decide_eq_true Ht]%andb_true_iff. cbn [ok_bytes]. exists hdr, raw, bts, (get_ok txn_New (set_list (T := W) (block_entries toy_hash blk hash hdr raw bts) txn_New)).
  split; [by constructor|]. split; [done|]. by apply is_ok_get.
Qed.

Lemma sim9 : sim toy_hash test_registry (T := W) store9 mem9.
Proof.
  destruct (fits_txn_ok prev_block prev_commit) as (hdr & raw & bts & t & He & Hf & Ht); [vm_compute; reflexivity|].
  destruct (Store_sim toy_hash test_registry toy_hash_wf (T := W) empty_store Mem.NewMemBS prev_block prev_commit prev_hash hdr raw bts t ((t : disk) ∪ ∅))
    as (s' & E & R).
  { apply empty_sim. }
  { constructor; [apply prev_block_ok|by apply empty_commit_ok|done|reflexivity|reflexivity|apply NoDup_nil_2]. }
  { exact He. } { exact Hf. } { exact Ht. } { reflexivity. }
  unfold store9, mem9. rewrite E, (mem_Store_run _ _ _ _ _ prev_hash); [exact R|apply He].
Qed.

(** ** The engine about to commit *)

Definition next_machine : machine (list (list byte * Account)) unit disk := mkMachine (snd next_run) store9 None None.

Definition new_engine : Consensus.ConsensusEngine (machine (list (list byte * Account)) unit disk) :=
  Consensus.New (Some node_key) None (Mempool.New 1000000 100000) next_machine.

Definition next_engine : Consensus.ConsensusEngine (machine (list (list byte * Account)) unit disk) :=
  Consensus.upd_st (fun s => Consensus.mkState (Some (Consensus.mkProposal 10 next_hash next_block))
    (Some (Consensus.mkBlockResult true (Consensus.res_AppHash next_result) (Consensus.res_TxResults next_result) None ∅ []))
    (Consensus.lc s) ∅ (Some next_commit) None (Consensus.st_catchup s)) new_engine.

Lemma next_fits : fitting toy_hash test_registry (T := W) store9 next_block next_commit next_hash (Consensus.res_TxResults next_result).
Proof.
  constructor.
  - apply (fits_txn_ok next_block next_commit). vm_compute. reflexivity.
  - eexists. apply (is_ok_get txn_New). vm_compute. reflexivity.
  - intros t d. by eexists.
Qed.

Lemma next_ready :
  ready voting_node hash_services ∅ toy_hash test_registry (T := W) led_proc next_request next_result next_commit mem9 prev_hash next_hash next_engine.
Proof.
  constructor.
  - apply led_at_rest.
  - reflexivity.
  - reflexivity.
  - exists false, (fun _ => false). apply next_runs.
  - reflexivity.
  - reflexivity.
  - by eexists.
  - reflexivity.
  - reflexivity.
  - by eexists.
  - split; [by eexists|]. vm_compute. by eexists.
  - apply sim9.
  - constructor; [apply next_block_ok|apply empty_commit_ok; vm_compute; reflexivity|done|vm_compute; reflexivity|vm_compute; reflexivity|].
    apply (bool_decide_unpack _). vm_compute. exact I.
  - vm_compute. reflexivity.
  - vm_compute. reflexivity.
  - apply next_fits.
Qed.

(** ** The theorems at this node *)

Definition key : PrivateKey := mkPrivateKey KeyTypeSecp256k1 node_key (fun m => Ok m).

Definition begin (im : image) (heights : Z * Z) (ce : Consensus.ConsensusEngine (machine (list (list byte * Account)) unit disk)) : Prop :=
  starts voting_node hash_services None genesis ∅ toy_hash test_registry (T := W) key led_state (Some node_key)
    (Mempool.New 1000000 100000) 0 (Err (ErrMsg "")) (Err (ErrMsg "")) im heights ce.

Lemma node_commit_durable_witness :
  exists ce' ce2, Consensus.commit (BlockProcessor0 := machine_processor voting_node hash_services None genesis ∅)
      (BlockStore0 := machine_store toy_hash test_registry (T := W)) toy_hash key next_engine = (Ok tt, ce') /\
    begin (crash (Consensus.env ce')) (10, 10) ce2 /\
    committed 10 next_hash (Consensus.res_AppHash next_result) ce2.
Proof.
  destruct (node_commit_durable voting_node hash_services None genesis ∅ toy_hash test_registry (T := W) key _ test_registry_ok toy_hash_wf
    hash_host_ok params_codec_ok (fun _ x => ex_intro _ x eq_refl) led_proc next_request next_result next_commit mem9 prev_hash next_hash next_engine
    led_state (Some node_key) (Mempool.New 1000000 100000) 0 (Err (ErrMsg "")) (Err (ErrMsg "")) next_ready (mk_is_Some _ _ eq_refl))
    as (ce' & ce2 & E & _ & Hs & Hc).
  exists ce', ce2. split; [exact E|]. split; [exact Hs|exact Hc].
Defined.

(** A crash after the block and its results are stored. *)
Lemma commit_crash_points_witness :
  exists im ce', crashes (commit_writes hash_services toy_hash test_registry (T := W) 10 next_hash (Consensus.res_AppHash next_result) next_block next_commit
      (Consensus.res_TxResults next_result)) next_machine !! 3%nat = Some im /\
    begin im (9, 10) ce' /\ committed 9 prev_hash zero_hash ce'.
Proof.
  destruct (commit_crash_points voting_node hash_services None genesis ∅ toy_hash test_registry (T := W) (fun _ _ _ => Ok true) (fun _ m => map_to_list m) key _
    test_registry_ok toy_hash_wf hash_host_ok params_codec_ok (fun _ x => ex_intro _ x eq_refl) led_proc next_request next_result next_commit mem9 prev_hash next_hash
    next_engine led_state (Some node_key) (Mempool.New 1000000 100000) 0 (Err (ErrMsg "")) (Err (ErrMsg "")) next_ready (mk_is_Some _ _ eq_refl)) as [Hlen H].
  match type of Hlen with length ?l = _ => assert (is_Some (l !! 3%nat)) as [im Him] by (apply lookup_lt_is_Some_2; rewrite Hlen; lia) end.
  destruct (H 3%nat im Him) as (ce' & Hs & Hc & _). exists im, ce'. split; [exact Him|]. split; [exact Hs|exact Hc].
Defined.
