(* ===== verification/SqlValues.v ===== *)
(** * Values of the action language

    The values of src/node/engine/interpreter/values.go and the operators of
    ops.go: nulls, the six scalar types, arrays and records, with comparison,
    arithmetic, unary operators and casts.

    Arrays are Go pointers and blobs are Go slices, and the interpreter copies
    neither when a value is assigned or passed.  A [heap] therefore holds the
    arrays and the backing arrays of the blobs, and a value refers to them by
    location.  The decimal numbers of src/core/types/decimal.go, which wrap a
    third-party library, the UUID library, [math.Pow] and the capacities that
    the Go runtime gives to slices are classes. *)

From S2P Require Import Prelude.
From S2P Require Import BigInt.
From S2P Require Import Payloads.
From S2P Require Import Values.
From Stdlib Require Import Strings.Byte.

#[local] Open Scope Z_scope.

(** ** Errors of src/node/engine/errors.go *)

Definition ErrType : error := ErrSentinel "type error".
Definition ErrReturnShape : error := ErrSentinel "unexpected action/function return shape".
Definition ErrUnknownVariable : error := ErrSentinel "unknown variable".
Definition ErrInvalidVariable : error := ErrSentinel "invalid variable name".
Definition ErrLoop : error := ErrSentinel "loop error".
Definition ErrArithmetic : error := ErrSentinel "arithmetic error".
Definition ErrComparison : error := ErrSentinel "comparison error".
Definition ErrCast : error := ErrSentinel "type cast error".
Definition ErrUnary : error := ErrSentinel "unary operation error".
Definition ErrIndexOutOfBounds : error := ErrSentinel "index out of bounds".
Definition ErrArrayDimensionality : error := ErrSentinel "array dimensionality error".
Definition ErrInvalidNull : error := ErrSentinel "invalid null value".
Definition ErrArrayTooSmall : error := ErrSentinel "array too small".

(** [castErr] wraps [ErrCast] and the cause; the chain keeps the former. *)
Definition castErr : error := ErrWrap "type cast error" ErrCast.

(** ** Operators of ops.go *)

Inductive comparisonOp := EQUAL | LESS_THAN | GREATER_THAN | IS | IS_DISTINCT_FROM.
Inductive unaryOp := NOT | NEG | POS.
Inductive arithmeticOp := ADD | SUB | MUL | DIV | MOD | EXP | CONCAT.

(** The comparison operators of the parser. *)
Inductive ComparisonOperator :=
  | OpEqual | OpNotEqual | OpLessThan | OpLessThanOrEqual | OpGreaterThan | OpGreaterThanOrEqual.

Definition convertComparisonOps (op : ComparisonOperator) : comparisonOp * list comparisonOp * bool :=
  match op with
  | OpEqual => (EQUAL, [], false)
  | OpNotEqual => (EQUAL, [], true)
  | OpLessThan => (LESS_THAN, [], false)
  | OpLessThanOrEqual => (LESS_THAN, [EQUAL], false)
  | OpGreaterThan => (GREATER_THAN, [], false)
  | OpGreaterThanOrEqual => (GREATER_THAN, [EQUAL], false)
  end.

(** ** Code outside the module *)

(** Arithmetic on [Decimal].  [Int64] fits its type, and a decimal that is made
    with a precision and a scale has them. *)
Class DecimalArith `{Decimals} := {
  NaN : Decimal -> bool;
  BigInt : Decimal -> Z;
  IsNegative : Decimal -> bool;
  Exp : Decimal -> Z;
  NewDecimalFromBigInt : Z -> Z -> result Decimal;
  SetPrecisionAndScale : Decimal -> Z -> Z -> result Decimal;
  ParseDecimal : bytes -> result Decimal;
  DecimalCmp : Decimal -> Decimal -> result Z;
  DecimalAdd : Decimal -> Decimal -> result Decimal;
  DecimalSub : Decimal -> Decimal -> result Decimal;
  DecimalMul : Decimal -> Decimal -> result Decimal;
  DecimalDiv : Decimal -> Decimal -> result Decimal;
  DecimalPow : Decimal -> Decimal -> result Decimal;
  DecimalMod : Decimal -> Decimal -> result Decimal;
  DecimalNeg : Decimal -> result Decimal;
  DecimalInt64 : Decimal -> result Z;
  DecimalInt64_range : forall d z, DecimalInt64 d = Ok z -> is_sint 64 z;
  ParseDecimalExplicit_meta : forall s p q d,
    ParseDecimalExplicit s p q = Ok d -> Precision d = p /\ Scale d = q;
  SetPrecisionAndScale_meta : forall d p q d',
    SetPrecisionAndScale d p q = Ok d' -> Precision d' = p /\ Scale d' = q
}.

(** [UUID_String] and [ParseUUID] are the UUID library's; [int_pow x y] is
    [int64(math.Pow(float64(x), float64(y)))], [None] where the power exceeds
    [math.MaxInt64]; [bytes_cap n] is the capacity of [[]byte(s)] for a string of
    [n] bytes, and [append_cap c n] the capacity that [append] gives to a slice
    of capacity [c] that has to hold [n] bytes. *)
Class GoRuntime := {
  UUID_String : bytes -> bytes;
  ParseUUID : bytes -> result bytes;
  int_pow : Z -> Z -> option Z;
  bytes_cap : nat -> nat;
  append_cap : nat -> nat -> nat;
  bytes_cap_ge : forall n, (n <= bytes_cap n)%nat;
  append_cap_ge : forall c n, (n <= append_cap c n)%nat;
  int_pow_range : forall x y r, int_pow x y = Some r -> is_sint 64 r
}.

(** ** Data *)

(** [pgtype.Numeric] with [Valid] set: NaN, or an integer and an exponent. *)
Inductive numeric := NumNaN | Num (i e : Z).

(** A [[]byte]: its backing array, length and capacity.  Every slice of the
    interpreter starts at the beginning of its backing array. *)
Record gslice := mkGSlice { gs_loc : nat; gs_len : nat; gs_cap : nat }.

Abbreviation precAndScale := (Z * Z)%type.

(** [int8Value], [textValue], [boolValue], [blobValue], [uuidValue] and
    [decimalValue]; [None] is null. *)
Inductive sval :=
  | SvInt (o : option Z)
  | SvText (o : option bytes)
  | SvBool (o : option bool)
  | SvBlob (o : option gslice)
  | SvUUID (o : option bytes)
  | SvDec (o : option numeric) (metadata : option precAndScale).

(** The element type of [int8ArrayValue], ..., [decimalArrayValue]. *)
Inductive akind := AInt | AText | ABool | ABlob | AUUID | ADec (metadata : option precAndScale).

(** What a location holds: the backing array of a blob, a [singleDimArray] with
    its validity, elements and capacity, or an [arrayOfNulls]. *)
Inductive cell :=
  | CBytes (b : bytes)
  | CArr (k : akind) (valid : bool) (elems : list sval) (cap : Z)
  | CNulls (length : Z).

Abbreviation heap := (list cell).

(** [Value]: [nullValue], a scalar, an array pointer, or a [recordValue] as its
    fields in [Order]. *)
#[warnings="-register-all"]
Inductive sqlval :=
  | NullV
  | ScalV (s : sval)
  | ArrV (l : nat)
  | RecV (fields : list (bytes * sqlval)).

#[export] Instance numeric_eq_decision : EqDecision numeric.
Proof. solve_decision. Defined.
#[export] Instance gslice_eq_decision : EqDecision gslice.
Proof. solve_decision. Defined.
#[export] Instance sval_eq_decision : EqDecision sval.
Proof. solve_decision. Defined.
#[export] Instance akind_eq_decision : EqDecision akind.
Proof. solve_decision. Defined.
#[export] Instance cell_eq_decision : EqDecision cell.
Proof. solve_decision. Defined.
#[export] Instance DataType_eq_decision : EqDecision DataType.
Proof. solve_decision. Defined.

(** ** Types *)

Definition NumericType : DataType := scalar_type NumericStr.
Definition array_type (t : DataType) : DataType := mkDataType (dt_Name t) true (Metadata t).
Definition scalar_of (t : DataType) : DataType := mkDataType (dt_Name t) false (Metadata t).
Definition IntArrayType : DataType := array_type IntType.
Definition TextArrayType : DataType := array_type TextType.
Definition BoolArrayType : DataType := array_type BoolType.
Definition ByteaArrayType : DataType := array_type ByteaType.
Definition UUIDArrayType : DataType := array_type UUIDType.
Definition NumericArrayType : DataType := array_type NumericType.
Definition NullArrayType : DataType := array_type NullType.

Definition dec_type (metadata : option precAndScale) : DataType :=
  mkDataType NumericStr false (default (0, 0) metadata).

Definition sval_type (s : sval) : DataType :=
  match s with
  | SvInt _ => IntType
  | SvText _ => TextType
  | SvBool _ => BoolType
  | SvBlob _ => ByteaType
  | SvUUID _ => UUIDType
  | SvDec _ meta => dec_type meta
  end.

Definition elem_type (k : akind) : DataType :=
  match k with
  | AInt => IntType
  | AText => TextType
  | ABool => BoolType
  | ABlob => ByteaType
  | AUUID => UUIDType
  | ADec meta => dec_type meta
  end.

(** A pointer outside the heap cannot arise; it is read as null. *)
Definition cell_type (c : option cell) : DataType :=
  match c with
  | Some (CArr k _ _ _) => array_type (elem_type k)
  | Some (CNulls _) => NullArrayType
  | _ => NullType
  end.

Definition Type_of (h : heap) (v : sqlval) : DataType :=
  match v with
  | NullV => NullType
  | ScalV s => sval_type s
  | ArrV l => cell_type (h !! l)
  | RecV _ => mkDataType (str "record") false (0, 0)
  end.

Definition sval_null (s : sval) : bool :=
  match s with
  | SvInt None | SvText None | SvBool None | SvBlob None | SvUUID None | SvDec None _ => true
  | _ => false
  end.

Definition Null (h : heap) (v : sqlval) : bool :=
  match v with
  | NullV => true
  | ScalV s => sval_null s
  | ArrV l => match h !! l with Some (CArr _ valid _ _) => negb valid | Some (CNulls _) => false | _ => true end
  | RecV fs => bool_decide (length fs = 0%nat)
  end.

(** ** Allocation *)

Definition alloc (c : cell) : action heap nat := fun h => (Ok (length h), h ++ [c]).

Definition store_cell (l : nat) (c : cell) : action heap unit := modify (fun h => <[l:=c]> h).

(** [make([]byte, n)] with content [b] and [cap - n] zero bytes behind it. *)
Definition alloc_bytes (b : bytes) (cap : nat) : action heap gslice :=
  l ← alloc (CBytes (b ++ replicate (cap - length b) x00));
  mret (mkGSlice l (length b) cap).

Definition blob_bytes (h : heap) (s : gslice) : bytes :=
  match h !! gs_loc s with
  | Some (CBytes b) => take (gs_len s) b
  | _ => []
  end.

Section values.
Context `{Strings} `{HD : Decimals} `{!DecimalArith} `{GoRuntime}.

(** [append(a, b...)]: within the capacity the bytes are written behind [a] in
    its own backing array, past it they move to a new one. *)
Definition append_bytes (a : gslice) (b : bytes) : action heap gslice := fun h =>
  let n := (gs_len a + length b)%nat in
  if decide (n <= gs_cap a)%nat then
    match h !! gs_loc a with
    | Some (CBytes back) =>
        (Ok (mkGSlice (gs_loc a) n (gs_cap a)),
         <[gs_loc a := CBytes (take (gs_len a) back ++ b ++ drop n back)]> h)
    | _ => (Err (ErrPanic "invalid memory address"), h)
    end
  else alloc_bytes (blob_bytes h a ++ b) (append_cap (gs_cap a) n) h.

(** *** Decimals *)

Definition pgTypeFromDec (d : Decimal) : numeric :=
  if NaN d then NumNaN
  else Num (if IsNegative d then - BigInt d else BigInt d) (Exp d).

Definition makeDecimal (d : Decimal) : sval :=
  SvDec (Some (pgTypeFromDec d)) (Some (Precision d, Scale d)).

(** [decimalValue.dec]. *)
Definition dec (o : option numeric) (metadata : option precAndScale) : result Decimal :=
  match o with
  | Some NumNaN => Err (ErrMsg "NaN")
  | None => Err (ErrMsg "internal bug: null decimal")
  | Some (Num i e) =>
      d2 ← NewDecimalFromBigInt i e;
      match metadata with
      | Some meta => SetPrecisionAndScale d2 meta.1 meta.2
      | None => Ok d2
      end
  end.

(** *** Nulls and zero values *)

(** The array mapping that a type name is registered with. *)
Definition kind_named (t : DataType) : option akind :=
  let n := dt_Name t in
  if bool_decide (n = intStr) then Some AInt
  else if bool_decide (n = textStr) then Some AText
  else if bool_decide (n = boolStr) then Some ABool
  else if bool_decide (n = byteaStr) then Some ABlob
  else if bool_decide (n = uuidStr) then Some AUUID
  else if bool_decide (n = NumericStr) then Some (ADec (Some (Metadata t)))
  else None.

Definition null_sval (k : akind) : sval :=
  match k with
  | AInt => SvInt None
  | AText => SvText None
  | ABool => SvBool None
  | ABlob => SvBlob None
  | AUUID => SvUUID None
  | ADec meta => SvDec None meta
  end.

Definition makeNull (t : DataType) : action heap sqlval :=
  match kind_named t with
  | Some k =>
      if IsArray t then l ← alloc (CArr k false [] 0); mret (ArrV l)
      else if bool_decide (dt_Name t = NumericStr) && negb (HasMetadata t)
      then afail (ErrMsg "cannot create null Value of decimal type with zero precision and scale")
      else mret (ScalV (null_sval k))
  | None =>
      if bool_decide (dt_Name t = nullStr) then
        if IsArray t then afail (ErrMsg "cannot create null Value of null array type")
        else mret NullV
      else afail (ErrMsg "type not found")
  end.

Definition zero_sval (k : akind) : action heap sval :=
  match k with
  | AInt => mret (SvInt (Some 0))
  | AText => mret (SvText (Some []))
  | ABool => mret (SvBool (Some false))
  | ABlob => s ← alloc_bytes [] 0; mret (SvBlob (Some s))
  | AUUID => mret (SvUUID (Some (replicate 16 x00)))
  | ADec meta => d ← alift (ParseDecimal (str "0")); mret (SvDec (Some (pgTypeFromDec d)) meta)
  end.

Definition newZeroValue (t : DataType) : action heap sqlval :=
  match kind_named t with
  | Some k =>
      if IsArray t then l ← alloc (CArr k true [] 0); mret (ArrV l)
      else if bool_decide (dt_Name t = NumericStr) && negb (HasMetadata t)
      then afail (ErrMsg "cannot create zero Value of decimal type with zero precision and scale")
      else s ← zero_sval k; mret (ScalV s)
  | None =>
      if bool_decide (dt_Name t = nullStr) then
        if IsArray t then l ← alloc (CNulls 0); mret (ArrV l)
        else afail (ErrMsg "cannot create zero Value of null type")
      else afail (ErrMsg "type not found")
  end.

(** *** Comparison *)

(** [nullCmp]: the early result, a [boolValue] that may be null. *)
Definition nullCmp (a b : bool) (op : comparisonOp) : option (option bool) :=
  match op with
  | IS_DISTINCT_FROM =>
      if a && b then Some (Some false) else if a || b then Some (Some true) else None
  | IS =>
      if a && b then Some (Some true) else if a || b then Some (Some false) else None
  | _ => if a || b then Some None else None
  end.

(** Go's [<] on strings: lexicographic on the bytes. *)
Fixpoint bytes_lt (a b : bytes) : bool :=
  match a, b with
  | _, [] => false
  | [], _ :: _ => true
  | x :: a', y :: b' =>
      (Z_of_byte x <? Z_of_byte y) || ((Z_of_byte x =? Z_of_byte y) && bytes_lt a' b')
  end.

Definition cmpIntegers (a b : Z) (op : comparisonOp) : result bool :=
  match op with
  | EQUAL => Ok (a =? b)
  | LESS_THAN => Ok (a <? b)
  | GREATER_THAN => Ok (b <? a)
  | IS_DISTINCT_FROM => Ok (negb (a =? b))
  | IS => Err ErrComparison
  end.

(** [int8Value.Compare] and the other methods [Compare], behind [nullCmp]. *)
Definition compare_int8 (a b : Z) (op : comparisonOp) : result bool :=
  match op with
  | EQUAL => Ok (a =? b)
  | LESS_THAN => Ok (a <? b)
  | GREATER_THAN => Ok (b <? a)
  | IS_DISTINCT_FROM => Ok (negb (a =? b))
  | IS => Err ErrComparison
  end.

Definition compare_text (a b : bytes) (op : comparisonOp) : result bool :=
  match op with
  | EQUAL => Ok (bool_decide (a = b))
  | LESS_THAN => Ok (bytes_lt a b)
  | GREATER_THAN => Ok (bytes_lt b a)
  | IS_DISTINCT_FROM => Ok (negb (bool_decide (a = b)))
  | IS => Err ErrComparison
  end.

Definition compare_bool (a b : bool) (op : comparisonOp) : result bool :=
  match op with
  | EQUAL | IS => Ok (Bool.eqb a b)
  | IS_DISTINCT_FROM => Ok (negb (Bool.eqb a b))
  | LESS_THAN => Ok (negb a && b)
  | GREATER_THAN => Ok (a && negb b)
  end.

Definition compare_blob (h : heap) (a b : gslice) (op : comparisonOp) : result bool :=
  match op with
  | EQUAL => Ok (bool_decide (blob_bytes h a = blob_bytes h b))
  | IS_DISTINCT_FROM => Ok (negb (bool_decide (blob_bytes h a = blob_bytes h b)))
  | _ => Err ErrComparison
  end.

Definition compare_uuid (a b : bytes) (op : comparisonOp) : result bool :=
  match op with
  | EQUAL => Ok (bool_decide (a = b))
  | IS_DISTINCT_FROM => Ok (negb (bool_decide (a = b)))
  | _ => Err ErrComparison
  end.

Definition compare_dec (a : option numeric) (ma : option precAndScale) (b : option numeric) (mb : option precAndScale)
    (op : comparisonOp) : result bool :=
  dec1 ← dec a ma;
  dec2 ← dec b mb;
  res ← DecimalCmp dec1 dec2;
  cmpIntegers res 0 op.

(** The comparison of two scalars that are not null. *)
Definition compare_sval (h : heap) (s s2 : sval) (op : comparisonOp) : result bool :=
  match s, s2 with
  | SvInt (Some a), SvInt (Some b) => compare_int8 a b op
  | SvText (Some a), SvText (Some b) => compare_text a b op
  | SvBool (Some a), SvBool (Some b) => compare_bool a b op
  | SvBlob (Some a), SvBlob (Some b) => compare_blob h a b op
  | SvUUID (Some a), SvUUID (Some b) => compare_uuid a b op
  | SvDec a ma, SvDec b mb => compare_dec a ma b mb op
  | _, _ => Err ErrType
  end.

(** The element [i] of an array as a scalar, with the metadata of the array. *)
Definition elem_sval (k : akind) (s : sval) : sval :=
  match k, s with
  | ADec meta, SvDec o _ => SvDec o meta
  | _, _ => s
  end.

(** [isEqual] of [cmpArrs]. *)
Fixpoint arrs_equal (h : heap) (k k2 : akind) (a b : list sval) : result bool :=
  match a, b with
  | [], _ | _, [] => Ok true
  | x :: a', y :: b' =>
      match sval_null x, sval_null y with
      | true, true => arrs_equal h k k2 a' b'
      | false, false =>
          res ← compare_sval h (elem_sval k x) (elem_sval k2 y) EQUAL;
          match res with true => arrs_equal h k k2 a' b' | false => Ok false end
      | _, _ => Ok false
      end
  end.

(** The Go type of an array value: [decimalArrayValue] whatever its metadata. *)
Definition same_go_type (k k2 : akind) : bool :=
  match k, k2 with
  | ADec _, ADec _ => true
  | _, _ => bool_decide (k = k2)
  end.

Definition cmpArrs (h : heap) (a b : cell) (op : comparisonOp) : result bool :=
  eq ← match a, b with
       | CArr k _ xs _, CArr k2 _ ys _ =>
           if negb (same_go_type k k2) then Err ErrType
           else if negb (Nat.eqb (length xs) (length ys)) then Ok false
           else arrs_equal h k k2 xs ys
       | CNulls n, CNulls m => Ok (n =? m)
       | _, _ => Err ErrType
       end;
  match op with
  | EQUAL => Ok eq
  | IS_DISTINCT_FROM => Ok (negb eq)
  | _ => Err ErrComparison
  end.

(** [Value.Compare]; the result is a [boolValue], [None] when it is null.  A
    field comparison of a record that is null is the failed type assertion of
    [eq.RawValue().(bool)]. *)
Fixpoint Compare (h : heap) (v v2 : sqlval) (op : comparisonOp) : result (option bool) :=
  match nullCmp (Null h v) (Null h v2) op with
  | Some res => Ok res
  | None =>
      match v, v2 with
      | ScalV s, ScalV s2 => Some <$> compare_sval h s s2 op
      | ArrV l, ArrV l2 =>
          match h !! l, h !! l2 with
          | Some a, Some b => Some <$> cmpArrs h a b op
          | _, _ => Err (ErrPanic "invalid memory address")
          end
      | RecV fs, RecV fs2 =>
          isSame ← (if negb (Nat.eqb (length fs) (length fs2)) then Ok false
                    else (fix go (i : nat) (fs : list (bytes * sqlval)) : result bool :=
                      match fs with
                      | [] => Ok true
                      | (field, x) :: rest =>
                          match snd <$> list_find (fun f => f.1 = field) fs2 with
                          | None => Ok false
                          | Some (_, y) =>
                              eq ← Compare h x y EQUAL;
                              match eq with
                              | None => Err (ErrPanic "interface conversion: interface {} is nil, not bool")
                              | Some false => Ok false
                              | Some true =>
                                  if bool_decide (Some field = fst <$> fs2 !! i) then go (S i) rest else Ok false
                              end
                          end
                      end) 0%nat fs);
          match op with EQUAL => Ok (Some isSame) | _ => Err ErrComparison end
      | _, _ => Err ErrType
      end
  end.

(** *** Arithmetic *)

Definition int_arith (a b : Z) (op : arithmeticOp) : result Z :=
  match op with
  | ADD => Ok (i64 (a + b))
  | SUB => Ok (i64 (a - b))
  | MUL => Ok (i64 (a * b))
  | DIV => if b =? 0 then Err ErrArithmetic else Ok (i64 (Z.quot a b))
  | MOD => if b =? 0 then Err ErrArithmetic else Ok (i64 (Z.rem a b))
  | EXP => match int_pow a b with Some r => Ok r | None => Err ErrArithmetic end
  | CONCAT => Err ErrArithmetic
  end.

Definition dec_arith (dec1 dec2 : Decimal) (op : arithmeticOp) : result Decimal :=
  d2 ← match op with
       | ADD => DecimalAdd dec1 dec2
       | SUB => DecimalSub dec1 dec2
       | MUL => DecimalMul dec1 dec2
       | DIV => DecimalDiv dec1 dec2
       | EXP => DecimalPow dec1 dec2
       | MOD => DecimalMod dec1 dec2
       | CONCAT => Err ErrArithmetic
       end;
  SetPrecisionAndScale d2 (Precision dec1) (Scale dec1).

Definition arith_text (a b : bytes) (op : arithmeticOp) : action heap sval :=
  match op with CONCAT => mret (SvText (Some (a ++ b))) | _ => afail ErrArithmetic end.

(** [append] on the bytes of the left operand, which lends its spare capacity. *)
Definition arith_blob (a b : gslice) (op : arithmeticOp) : action heap sval :=
  match op with
  | CONCAT => bts ← gets (fun h => blob_bytes h b); r ← append_bytes a bts; mret (SvBlob (Some r))
  | _ => afail ErrArithmetic
  end.

Definition arith_decimal (a : option numeric) (ma : option precAndScale) (b : option numeric) (mb : option precAndScale)
    (op : arithmeticOp) : action heap sval :=
  dec1 ← alift (dec a ma);
  dec2 ← alift (dec b mb);
  d2 ← alift (dec_arith dec1 dec2 op);
  mret (makeDecimal d2).

(** [Arithmetic] of two scalars that are not null; a boolean or a UUID fails
    before its operand is looked at. *)
Definition arith_sval (s s2 : sval) (op : arithmeticOp) : action heap sval :=
  match s, s2 with
  | SvInt (Some a), SvInt (Some b) => r ← alift (int_arith a b op); mret (SvInt (Some r))
  | SvText (Some a), SvText (Some b) => arith_text a b op
  | SvBlob (Some a), SvBlob (Some b) => arith_blob a b op
  | SvDec a ma, SvDec b mb => arith_decimal a ma b mb op
  | _, _ => afail ErrType
  end.

Definition no_arith (s : sval) : bool := match s with SvBool _ | SvUUID _ => true | _ => false end.

(** [Arithmetic] with the nulls that [checkScalarNulls] returns. *)
Definition Arithmetic (v v2 : sqlval) (op : arithmeticOp) : action heap sqlval :=
  match v with
  | NullV => mret NullV
  | ScalV s =>
      if no_arith s then afail ErrArithmetic
      else if sval_null s then mret v
      else match v2 with
      | NullV => mret NullV
      | ScalV s2 => if sval_null s2 then mret v2 else r ← arith_sval s s2 op; mret (ScalV r)
      | _ => afail ErrType
      end
  | _ => afail ErrType
  end.

(** [int8Value.Unary], [boolValue.Unary] and [decimalValue.Unary]. *)
Definition unary_int8 (i : Z) (op : unaryOp) : result sqlval :=
  match op with
  | NEG => Ok (ScalV (SvInt (Some (i64 (- i)))))
  | NOT => Err ErrUnary
  | POS => Ok (ScalV (SvInt (Some i)))
  end.

Definition unary_bool (b : bool) (op : unaryOp) : result sqlval :=
  match op with
  | NOT => Ok (ScalV (SvBool (Some (negb b))))
  | NEG | POS => Err ErrUnary
  end.

Definition unary_dec (o : option numeric) (meta : option precAndScale) (op : unaryOp) : result sqlval :=
  match op with
  | NEG => d ← dec o meta; d' ← DecimalNeg d; mret (ScalV (makeDecimal d'))
  | POS => Ok (ScalV (SvDec o meta))
  | NOT => Err ErrUnary
  end.

Definition Unary (v : sqlval) (op : unaryOp) : result sqlval :=
  match v with
  | NullV => Ok NullV
  | ScalV s =>
      match s with
      | SvText _ | SvBlob _ | SvUUID _ => Err ErrUnary
      | SvInt None | SvBool None | SvDec None _ => Ok v
      | SvInt (Some i) => unary_int8 i op
      | SvBool (Some b) => unary_bool b op
      | SvDec o meta => unary_dec o meta op
      end
  | _ => Err ErrType
  end.

(** *** Casts *)

(** [strconv.ParseBool] and [strconv.FormatBool]. *)
Definition ParseBool (s : bytes) : option bool :=
  if bool_decide (s ∈ [str "1"; str "t"; str "T"; str "TRUE"; str "true"; str "True"]) then Some true
  else if bool_decide (s ∈ [str "0"; str "f"; str "F"; str "FALSE"; str "false"; str "False"]) then Some false
  else None.

Definition FormatBool (b : bool) : bytes := str (if b then "true" else "false").

Definition cast_fail {W A} : action W A := afail castErr.

Definition cast_opt {W A} (o : option A) : action W A :=
  match o with Some a => mret a | None => cast_fail end.

Definition cast_res {W A} (r : result A) : action W A :=
  match r with Ok a => mret a | Err _ => cast_fail end.

Definition parse_dec (s : bytes) (t : DataType) : action heap sval :=
  d ← cast_res (ParseDecimalExplicit s (Metadata t).1 (Metadata t).2); mret (makeDecimal d).

(** [Cast] of the scalars that are not null, a definition for each type. *)
Definition cast_int8 (i : Z) (t : DataType) : action heap sval :=
  if bool_decide (dt_Name t = NumericStr) then
    if IsArray t then cast_fail else parse_dec (big_String i) t
  else if bool_decide (t = IntType) then mret (SvInt (Some i))
  else if bool_decide (t = TextType) then mret (SvText (Some (big_String i)))
  else if bool_decide (t = BoolType) then mret (SvBool (Some (negb (i =? 0))))
  else cast_fail.

Definition cast_text (x : bytes) (t : DataType) : action heap sval :=
  if bool_decide (dt_Name t = NumericStr) then
    if IsArray t then cast_fail else parse_dec x t
  else if bool_decide (t = IntType) then i ← cast_opt (Atoi x); mret (SvInt (Some i))
  else if bool_decide (t = TextType) then mret (SvText (Some x))
  else if bool_decide (t = BoolType) then b ← cast_opt (ParseBool x); mret (SvBool (Some b))
  else if bool_decide (t = UUIDType) then u ← cast_res (ParseUUID x); mret (SvUUID (Some u))
  else if bool_decide (t = ByteaType) then
    b ← alloc_bytes x (bytes_cap (length x)); mret (SvBlob (Some b))
  else cast_fail.

Definition cast_bool (b : bool) (t : DataType) : action heap sval :=
  if bool_decide (t = IntType) then mret (SvInt (Some (if b then 1 else 0)))
  else if bool_decide (t = TextType) then mret (SvText (Some (FormatBool b)))
  else if bool_decide (t = BoolType) then mret (SvBool (Some b))
  else cast_fail.

Definition cast_blob (b : gslice) (t : DataType) : action heap sval :=
  bts ← gets (fun h => blob_bytes h b);
  if bool_decide (t = IntType) then i ← cast_opt (Atoi bts); mret (SvInt (Some i))
  else if bool_decide (t = TextType) then mret (SvText (Some bts))
  else if bool_decide (t = ByteaType) then mret (SvBlob (Some b))
  else cast_fail.

Definition cast_uuid (u : bytes) (t : DataType) : action heap sval :=
  if bool_decide (t = TextType) then mret (SvText (Some (UUID_String u)))
  else if bool_decide (t = ByteaType) then b ← alloc_bytes u (length u); mret (SvBlob (Some b))
  else if bool_decide (t = UUIDType) then mret (SvUUID (Some u))
  else cast_fail.

Definition cast_decimal (o : option numeric) (meta : option precAndScale) (t : DataType) : action heap sval :=
  if bool_decide (dt_Name t = NumericStr) then
    if IsArray t then cast_fail
    else d ← cast_res (dec o meta);
         d ← cast_res (SetPrecisionAndScale d (Metadata t).1 (Metadata t).2);
         mret (makeDecimal d)
  else if bool_decide (t = IntType) then
    d ← cast_res (dec o meta); i ← cast_res (DecimalInt64 d); mret (SvInt (Some i))
  else if bool_decide (t = TextType) then
    d ← cast_res (dec o meta); mret (SvText (Some (Decimal_String d)))
  else cast_fail.

(** [Cast] of a scalar that is not null. *)
Definition cast_sval (s : sval) (t : DataType) : action heap sval :=
  match s with
  | SvInt (Some i) => cast_int8 i t
  | SvText (Some x) => cast_text x t
  | SvBool (Some b) => cast_bool b t
  | SvBlob (Some b) => cast_blob b t
  | SvUUID (Some u) => cast_uuid u t
  | SvDec o meta => cast_decimal o meta t
  | _ => cast_fail
  end.

(** An element of a decimal array is a bare [pgtype.Numeric]. *)
Definition bare (s : sval) : sval := match s with SvDec o _ => SvDec o None | _ => s end.

(** [castArr], [castArrWithPtr] and [castValArr]: every element that is not null
    goes through [get], into a new array of kind [k2]. *)
Fixpoint cast_elems (get : sval -> action heap sval) (k2 : akind) (xs : list sval) : action heap (list sval) :=
  match xs with
  | [] => mret []
  | x :: xs' =>
      y ← (if sval_null x then mret (null_sval k2) else get x);
      ys ← cast_elems get k2 xs';
      mret (y :: ys)
  end.

Definition castArr (get : sval -> action heap sval) (k2 : akind) (xs : list sval) : action heap sqlval :=
  ys ← cast_elems get k2 xs;
  l ← alloc (CArr k2 true (bare <$> ys) (zlen ys));
  mret (ArrV l).

(** The decimal that [RawValue] gives for an element: it panics where [dec]
    fails. *)
Definition raw_dec (meta : option precAndScale) (s : sval) : action heap Decimal :=
  match s with
  | SvDec o _ =>
      match dec o meta with
      | Ok d => mret d
      | Err _ => afail (ErrPanic "RawValue")
      end
  | _ => afail (ErrPanic "interface conversion")
  end.

(** The cast of an element to the element type of [t]. *)
Definition cast_elem (t : DataType) (s : sval) : action heap sval := cast_sval s (scalar_of t).

(** [Cast] of a valid array at [l], a definition for each element type. *)
Definition cast_int8_array (l : nat) (xs : list sval) (t : DataType) : action heap sqlval :=
  if bool_decide (dt_Name t = NumericStr) then
    if IsArray t then castArr (cast_elem t) (ADec (Some (Metadata t))) xs else cast_fail
  else if bool_decide (t = IntArrayType) then mret (ArrV l)
  else if bool_decide (t = TextArrayType) then castArr (cast_elem t) AText xs
  else if bool_decide (t = BoolArrayType) then castArr (cast_elem t) ABool xs
  else cast_fail.

Definition cast_text_array (l : nat) (xs : list sval) (t : DataType) : action heap sqlval :=
  if bool_decide (dt_Name t = NumericStr) then
    if IsArray t then castArr (cast_elem t) (ADec (Some (Metadata t))) xs else cast_fail
  else if bool_decide (t = IntArrayType) then castArr (cast_elem t) AInt xs
  else if bool_decide (t = BoolArrayType) then castArr (cast_elem t) ABool xs
  else if bool_decide (t = UUIDArrayType) then castArr (cast_elem t) AUUID xs
  else if bool_decide (t = TextArrayType) then mret (ArrV l)
  else if bool_decide (t = ByteaArrayType) then castArr (cast_elem t) ABlob xs
  else cast_fail.

Definition cast_bool_array (l : nat) (xs : list sval) (t : DataType) : action heap sqlval :=
  if bool_decide (t = TextArrayType) then castArr (cast_elem t) AText xs
  else if bool_decide (t = IntArrayType) then castArr (cast_elem t) AInt xs
  else if bool_decide (t = BoolArrayType) then mret (ArrV l)
  else cast_fail.

Definition cast_decimal_array (meta : option precAndScale) (l : nat) (xs : list sval) (t : DataType) : action heap sqlval :=
  if bool_decide (dt_Name t = NumericStr) then
    if IsArray t then
      castArr (fun s => d ← alift (match s with SvDec o _ => dec o meta | _ => Err ErrType end);
                        d ← alift (SetPrecisionAndScale d (Metadata t).1 (Metadata t).2);
                        mret (makeDecimal d)) (ADec (Some (Metadata t))) xs
    else cast_fail
  else if bool_decide (t = TextArrayType) then
    castArr (fun s => d ← raw_dec meta s; mret (SvText (Some (Decimal_String d)))) AText xs
  else if bool_decide (t = IntArrayType) then
    castArr (fun s => d ← raw_dec meta s; i ← cast_res (DecimalInt64 d); mret (SvInt (Some i))) AInt xs
  else cast_fail.

Definition cast_blob_array (l : nat) (xs : list sval) (t : DataType) : action heap sqlval :=
  if bool_decide (t = TextArrayType) then castArr (cast_elem t) AText xs
  else if bool_decide (t = ByteaArrayType) then mret (ArrV l)
  else cast_fail.

Definition cast_uuid_array (l : nat) (xs : list sval) (t : DataType) : action heap sqlval :=
  if bool_decide (t = TextArrayType) then castArr (cast_elem t) AText xs
  else if bool_decide (t = UUIDArrayType) then mret (ArrV l)
  else if bool_decide (t = ByteaArrayType) then castArr (cast_elem t) ABlob xs
  else cast_fail.

Definition cast_array (l : nat) (k : akind) (xs : list sval) (t : DataType) : action heap sqlval :=
  match k with
  | AInt => cast_int8_array l xs t
  | AText => cast_text_array l xs t
  | ABool => cast_bool_array l xs t
  | ADec meta => cast_decimal_array meta l xs t
  | ABlob => cast_blob_array l xs t
  | AUUID => cast_uuid_array l xs t
  end.

(** [arrayOfNulls.Cast]. *)
Definition cast_nulls (n : Z) (t : DataType) : action heap sqlval :=
  let nulls k := l ← alloc (CArr k true (replicate (Z.to_nat n) (bare (null_sval k))) n); mret (ArrV l) in
  if negb (IsArray t) then cast_fail
  else if bool_decide (t ∈ [IntArrayType; TextArrayType; BoolArrayType; UUIDArrayType; ByteaArrayType])
          || bool_decide (dt_Name t = NumericStr)
  then match kind_named t with Some k => nulls k | None => cast_fail end
  else cast_fail.

Definition Cast (v : sqlval) (t : DataType) : action heap sqlval :=
  match v with
  | NullV => makeNull t
  | ScalV s => if sval_null s then makeNull t else s ← cast_sval s t; mret (ScalV s)
  | ArrV l =>
      c ← gets (fun h => h !! l);
      match c with
      | Some (CArr k valid xs _) => if negb valid then makeNull t else cast_array l k xs t
      | Some (CNulls n) => cast_nulls n t
      | _ => afail (ErrPanic "invalid memory address")
      end
  | RecV fs => if bool_decide (length fs = 0%nat) then makeNull t else cast_fail
  end.
End values.
