(* ===== verification/SqlArrays.v ===== *)
(** * Arrays of the action language

    Subscripts of arrays ([getArr], [setArr], [arrayOfNulls]), the construction
    and copy of arrays and the text form of values, of
    src/node/engine/interpreter/values.go, and the array functions of
    interpreter.go.  Arrays are cells of the heap of [SqlValues]. *)

From S2P Require Import Prelude.
From S2P Require Import BigInt.
From S2P Require Import Payloads.
From S2P Require Import Values.
From S2P Require Import SqlValues.
From Stdlib Require Import Strings.Byte.

#[local] Open Scope Z_scope.

Section arrays.
Context `{Strings} `{HD : Decimals} `{!DecimalArith} `{GoRuntime}.

Definition nil_deref {W A} : action W A := afail (ErrPanic "invalid memory address").

(** [v.(scalarValue)] and [v.(arrayValue)]; [nullValue] is both. *)
Definition is_scalar (v : sqlval) : bool := match v with NullV | ScalV _ => true | _ => false end.
Definition is_array (v : sqlval) : bool := match v with NullV | ArrV _ => true | _ => false end.

Definition Len (h : heap) (v : sqlval) : Z :=
  match v with
  | ArrV l => match h !! l with Some (CArr _ _ xs _) => i32 (zlen xs) | Some (CNulls n) => n | _ => 0 end
  | _ => 0
  end.

(** *** Get *)

(** [getArr]: outside the array it makes a null of the array's own type, which
    is not a scalar. *)
Definition getArr (k : akind) (xs : list sval) (i : Z) : action heap sqlval :=
  if (i <? 1) || (i >? i32 (zlen xs)) then
    _ ← makeNull (array_type (elem_type k));
    afail (ErrMsg "expected to create a null scalar Value")
  else match xs !! Z.to_nat (i - 1) with
       | Some s => mret (ScalV (elem_sval k s))
       | None => afail (ErrPanic "index out of range")
       end.

Definition Get (v : sqlval) (i : Z) : action heap sqlval :=
  match v with
  | NullV => mret NullV
  | ArrV l =>
      c ← gets (fun h => h !! l);
      match c with
      | Some (CArr k _ xs _) => getArr k xs i
      | Some (CNulls _) => mret NullV
      | _ => nil_deref
      end
  | _ => nil_deref
  end.

(** *** Set *)

Definition maxArrayLen : Z := 2 ^ 20.

(** The capacity doubled until it holds [i] elements; indexes are at most
    [maxArrayLen], so 20 doublings suffice. *)
Fixpoint grow_cap (fuel : nat) (newCap i : Z) : Z :=
  match fuel with
  | O => newCap
  | S fuel => if newCap <? i then grow_cap fuel (newCap * 2) i else newCap
  end.

(** The null of the element type that [setArr] stores. *)
Definition typed_null (k : akind) : action heap sval :=
  v ← makeNull (elem_type k);
  match v with
  | ScalV s => mret (elem_sval k s)
  | _ => afail (ErrMsg "cannot set null Value in array: internal type bug")
  end.

(** The growth step of [setArr], up to and including the slot [i]. *)
Definition extendArr (l : nat) (k : akind) (xs : list sval) (cap i : Z) : action heap unit :=
  if i >? zlen xs then
    if (i =? zlen xs + 1) && (i <=? cap) then
      store_cell l (CArr k true (xs ++ [bare (null_sval k)]) cap)
    else
      nn ← typed_null k;
      store_cell l (CArr k true (xs ++ replicate (Z.to_nat (i - zlen xs)) (bare nn))
                      (grow_cap 64 (if cap =? 0 then 1 else cap) i))
  else mret tt.

(** [pgArr.Elements[i-1] = s] *)
Definition put_elem (l : nat) (i : Z) (s : sval) : action heap unit :=
  c ← gets (fun h => h !! l);
  match c with
  | Some (CArr k valid xs cap) => store_cell l (CArr k valid (<[Z.to_nat (i - 1) := s]> xs) cap)
  | _ => nil_deref
  end.

(** The type assertion [scalar.(B)]. *)
Definition of_kind (k : akind) (s : sval) : bool :=
  match k, s with
  | AInt, SvInt _ | AText, SvText _ | ABool, SvBool _ | ABlob, SvBlob _ | AUUID, SvUUID _ | ADec _, SvDec _ _ => true
  | _, _ => false
  end.

Definition setArr (l : nat) (k : akind) (xs : list sval) (cap i : Z) (v : sqlval) : action heap unit :=
  if (i <? 1) || (i >? maxArrayLen) then afail ErrIndexOutOfBounds
  else
    extendArr l k xs cap i;;
    isNull ← gets (fun h => Null h v);
    match isNull with
    | true => nn ← typed_null k; put_elem l i (bare nn)
    | false =>
        scalar ← Cast v (elem_type k);
        match scalar with
        | ScalV s => if of_kind k s then put_elem l i (bare s)
                     else afail (ErrMsg "cannot set Value in array")
        | _ => afail (ErrMsg "cannot set Value in array")
        end
    end.

(** The check of [decimalArrayValue.Set] before [setArr]. *)
Definition dec_meta_ok (k : akind) (v : sqlval) : bool :=
  match k, v with
  | ADec (Some a), ScalV (SvDec _ (Some m)) => bool_decide (m = a)
  | _, _ => true
  end.

Definition set_cell (l : nat) (i : Z) (v : sqlval) : action heap unit :=
  c ← gets (fun h => h !! l);
  match c with
  | Some (CArr k _ xs cap) =>
      if negb (dec_meta_ok k v) then afail (ErrMsg "cannot set decimal with precision and scale")
      else setArr l k xs cap i v
  | _ => nil_deref
  end.

(** [for idx := 1; idx <= n; idx++ { arr.Set(idx, null) }] *)
Fixpoint set_nulls (l : nat) (n : nat) : action heap unit :=
  match n with
  | O => mret tt
  | S n => set_nulls l n;; set_cell l (Z.of_nat (S n)) NullV
  end.

(** [arrayOfNulls.Set]: the concrete array it builds for a value that is not
    null is not kept. *)
Definition set_arrayOfNulls (l : nat) (n i : Z) (v : sqlval) : action heap unit :=
  if (i <? 1) || (i >? maxArrayLen) then afail ErrIndexOutOfBounds
  else
    isNull ← gets (fun h => Null h v);
    match isNull with
    | true => awhen (i >? n) (store_cell l (CNulls i))
    | false =>
        t ← gets (fun h => Type_of h v);
        newVal ← newZeroValue (array_type t);
        match newVal with
        | ArrV concreteArr =>
            set_nulls concreteArr (Z.to_nat n);;
            set_cell concreteArr i v
        | _ => afail (ErrPanic "interface conversion")
        end
    end.

Definition Set_ (arr : sqlval) (i : Z) (v : sqlval) : action heap unit :=
  match arr with
  | NullV => afail ErrArrayDimensionality
  | ArrV l =>
      c ← gets (fun h => h !! l);
      match c with
      | Some (CArr _ _ _ _) => set_cell l i v
      | Some (CNulls n) => set_arrayOfNulls l n i v
      | _ => nil_deref
      end
  | _ => nil_deref
  end.

(** *** Construction *)

(** The type of the first value that is not null, made an array. *)
Fixpoint infer_type (h : heap) (vals : list sqlval) : option DataType :=
  match vals with
  | [] => None
  | v :: vals' =>
      if EqualsStrict (Type_of h v) NullType then infer_type h vals' else Some (array_type (Type_of h v))
  end.

(** Each value is cast to the scalar type and stored at its 1-based index. *)
Fixpoint fill_array (arr : sqlval) (expectScalar : DataType) (i : Z) (vals : list sqlval) : action heap unit :=
  match vals with
  | [] => mret tt
  | v :: vals' =>
      casted ← Cast v expectScalar;
      (if is_scalar casted then Set_ arr i casted else afail (ErrMsg "unexpected casted Value"));;
      fill_array arr expectScalar (i + 1) vals'
  end.

Definition makeArray (vals : list sqlval) (t : option DataType) : action heap sqlval :=
  match vals, t with
  | [], None => afail ErrArrayDimensionality
  | _, _ =>
      inferred ← gets (fun h => infer_type h vals);
      let expectedType := default (default TextType inferred) t in
      if negb (IsArray expectedType) then afail ErrCast
      else
        zeroArr ← newZeroValue expectedType;
        (if is_array zeroArr then fill_array zeroArr (scalar_of expectedType) 1 vals
         else afail (ErrMsg "unexpected zero array Value"));;
        mret zeroArr
  end.

(** Fresh backing arrays for the blobs of a copied array. *)
Fixpoint copy_elems (xs : list sval) : action heap (list sval) :=
  match xs with
  | [] => mret []
  | SvBlob (Some b) :: xs' =>
      bts ← gets (fun h => blob_bytes h b);
      b' ← alloc_bytes bts (length bts);
      ys ← copy_elems xs';
      mret (SvBlob (Some b') :: ys)
  | x :: xs' => ys ← copy_elems xs'; mret (x :: ys)
  end.

(** [copyArray] with [copySingleDimArray], which reserves one element. *)
Definition copyArray (v : sqlval) : action heap sqlval :=
  isNull ← gets (fun h => Null h v);
  match isNull, v with
  | true, _ =>
      t ← gets (fun h => Type_of h v);
      nullVal ← makeNull t;
      if is_array nullVal then mret nullVal else afail (ErrPanic "interface conversion")
  | false, ArrV l =>
      c ← gets (fun h => h !! l);
      match c with
      | Some (CArr k valid xs _) =>
          ys ← copy_elems xs;
          l' ← alloc (CArr k valid ys (zlen ys + 1));
          mret (ArrV l')
      | Some (CNulls n) => l' ← alloc (CNulls n); mret (ArrV l')
      | _ => nil_deref
      end
  | false, _ => afail (ErrMsg "unsupported array type for efficient copyArray")
  end.

(** *** Built-in array functions *)

Definition oneLengthArray (v : sqlval) : action heap sqlval :=
  if negb (is_scalar v) then afail (ErrMsg "expected scalar")
  else
    t ← gets (fun h => Type_of h v);
    newVal ← newZeroValue (array_type t);
    Set_ newVal 1 v;;
    mret newVal.

(** [for i := 1; i <= n; i++ { dst.Set(i+off, src.Get(i)) }], from [i] on. *)
Fixpoint copy_range (src dst : sqlval) (off i : Z) (n : nat) : action heap unit :=
  match n with
  | O => mret tt
  | S n => val ← Get src i; Set_ dst (i + off) val;; copy_range src dst off (i + 1) n
  end.

Definition len_of (v : sqlval) : action heap nat := gets (fun h => Z.to_nat (Len h v)).

Definition array_length (a : sqlval) : action heap sqlval :=
  isNull ← gets (fun h => Null h a);
  match isNull with
  | true => makeNull IntType
  | false => if is_array a then n ← gets (fun h => Len h a); mret (ScalV (SvInt (Some n)))
             else afail (ErrMsg "expected array")
  end.

Definition array_append (a e : sqlval) : action heap sqlval :=
  aNull ← gets (fun h => Null h a);
  match aNull with
  | true => oneLengthArray e
  | false =>
      if negb (is_array a) then afail (ErrMsg "expected array")
      else if negb (is_scalar e) then afail (ErrMsg "expected scalar")
      else
        t ← gets (fun h => Type_of h a);
        eNull ← gets (fun h => Null h e);
        n ← len_of a;
        if bool_decide (t = NullArrayType) && negb eNull
        then makeArray (replicate n NullV ++ [e]) None
        else
          arr2 ← copyArray a;
          n2 ← gets (fun h => Len h arr2);
          Set_ arr2 (n2 + 1) e;;
          mret arr2
  end.

Definition array_prepend (a e : sqlval) : action heap sqlval :=
  aNull ← gets (fun h => Null h a);
  match aNull with
  | true => oneLengthArray e
  | false =>
      if negb (is_array a) then afail (ErrMsg "expected array")
      else if negb (is_scalar e) then afail (ErrMsg "expected scalar")
      else
        t ← gets (fun h => Type_of h a);
        arrVal ← newZeroValue t;
        Set_ arrVal 1 e;;
        n ← len_of a;
        copy_range a arrVal 1 1 n;;
        mret arrVal
  end.

Definition array_cat (a b : sqlval) : action heap sqlval :=
  aNull ← gets (fun h => Null h a);
  bNull ← gets (fun h => Null h b);
  match aNull, bNull with
  | true, _ => mret b
  | false, true => mret a
  | false, false =>
      if negb (is_array a) || negb (is_array b) then afail (ErrMsg "expected array")
      else
        t ← gets (fun h => Type_of h a);
        arrVal ← newZeroValue t;
        n ← len_of a;
        copy_range a arrVal 0 1 n;;
        m ← len_of b;
        copy_range b arrVal (Z.of_nat n) 1 m;;
        mret arrVal
  end.

(** The loop of [array_remove] over [src] from [i] on. *)
Fixpoint remove_range (src dst scal : sqlval) (i : Z) (n : nat) : action heap unit :=
  match n with
  | O => mret tt
  | S n =>
      val ← Get src i;
      isEq ← (fun h => (Compare h val scal EQUAL, h));
      (match isEq with
       | Some true => mret tt
       | _ => len ← gets (fun h => Len h dst); Set_ dst (len + 1) val
       end);;
      remove_range src dst scal (i + 1) n
  end.

Definition array_remove (a e : sqlval) : action heap sqlval :=
  aNull ← gets (fun h => Null h a);
  match aNull with
  | true => mret a
  | false =>
      if negb (is_array a) then afail (ErrMsg "expected array")
      else if negb (is_scalar e) then afail (ErrMsg "expected scalar")
      else
        t ← gets (fun h => Type_of h a);
        te ← gets (fun h => Type_of h e);
        if negb (DataType_Equals (scalar_of t) te) then afail (ErrMsg "expected scalar of type")
        else
          arrVal ← newZeroValue t;
          n ← len_of a;
          remove_range a arrVal e 1 n;;
          mret arrVal
  end.

(** *** Text form *)

Definition stringify_sval (h : heap) (s : sval) : result bytes :=
  match s with
  | SvText (Some x) => Ok x
  | SvInt (Some i) => Ok (big_String i)
  | SvBool (Some b) => Ok (FormatBool b)
  | SvUUID (Some u) => Ok (UUID_String u)
  | SvDec (Some n) meta => Decimal_String <$> dec (Some n) meta
  | SvBlob (Some b) => Ok (blob_bytes h b)
  | _ => Ok (str "NULL")
  end.

(** [strings.Join(strs, ",")] *)
Fixpoint join_commas (l : list bytes) : bytes :=
  match l with
  | [] => []
  | [x] => x
  | x :: l' => x ++ x2c :: join_commas l'
  end.

Fixpoint stringify_elems (h : heap) (k : akind) (xs : list sval) : result (list bytes) :=
  match xs with
  | [] => Ok []
  | x :: xs' =>
      y ← stringify_sval h (elem_sval k x);
      ys ← stringify_elems h k xs';
      mret (y :: ys)
  end.

Definition stringifyValue (h : heap) (v : sqlval) : result bytes :=
  if Null h v then Ok (str "NULL")
  else match v with
  | ScalV s => stringify_sval h s
  | ArrV l =>
      match h !! l with
      | Some (CArr k _ xs _) => join_commas <$> stringify_elems h k xs
      | Some (CNulls n) => Ok (join_commas (replicate (Z.to_nat n) (str "NULL")))
      | _ => Err (ErrPanic "invalid memory address")
      end
  | _ => Err (ErrMsg "cannot convert record to string")
  end.

(** [parseValue] for a scalar type. *)
Definition parse_scalar (s : bytes) (t : DataType) : action heap sqlval :=
  if bool_decide (s = str "NULL") then makeNull t
  else if bool_decide (s = []) then newZeroValue t
  else if bool_decide (dt_Name t = NumericStr) then
    d ← alift (ParseDecimalExplicit s (Metadata t).1 (Metadata t).2); mret (ScalV (makeDecimal d))
  else if bool_decide (t = TextType) then mret (ScalV (SvText (Some s)))
  else if bool_decide (t = IntType) then
    match Atoi s with Some i => mret (ScalV (SvInt (Some i))) | None => afail (ErrMsg "invalid syntax") end
  else if bool_decide (t = BoolType) then
    match ParseBool s with Some b => mret (ScalV (SvBool (Some b))) | None => afail (ErrMsg "invalid syntax") end
  else if bool_decide (t = UUIDType) then u ← alift (ParseUUID s); mret (ScalV (SvUUID (Some u)))
  else if bool_decide (t = ByteaType) then
    b ← alloc_bytes s (bytes_cap (length s)); mret (ScalV (SvBlob (Some b)))
  else afail (ErrMsg "unexpected type").

Fixpoint parse_fields (strs : list bytes) (t : DataType) : action heap (list sqlval) :=
  match strs with
  | [] => mret []
  | s :: strs' =>
      v ← parse_scalar s t;
      vs ← parse_fields strs' t;
      mret (v :: vs)
  end.

Definition parseArray (s : bytes) (t : DataType) : action heap sqlval :=
  fields ← parse_fields (split_commas s) (scalar_of t);
  makeArray fields (Some t).

Definition parseValue (s : bytes) (t : DataType) : action heap sqlval :=
  if bool_decide (s = str "NULL") then makeNull t
  else if bool_decide (s = []) then newZeroValue t
  else if IsArray t then parseArray s t
  else parse_scalar s t.

(** [newValueWithSoftCast] after [NewValue]: the value and whether it fits. *)
Definition soft_cast (val : sqlval) (dt : DataType) : action heap (sqlval * bool) :=
  isNull ← gets (fun h => Null h val);
  val ← (if isNull : bool then Cast val dt else mret val);
  n ← gets (fun h => Len h val);
  t ← gets (fun h => Type_of h val);
  if is_array val && (n =? 0) then
    if negb (Bool.eqb (IsArray t) (IsArray dt)) || negb (bool_decide (dt_Name t = dt_Name dt)) then mret (val, false)
    else
      val ← Cast val dt;
      t ← gets (fun h => Type_of h val);
      mret (val, DataType_Equals t dt)
  else mret (val, DataType_Equals t dt).
End arrays.
