(* ===== verification/SqlFacts.v ===== *)
(** * Typing of values and operations

    Every value of a heap refers to cells of the right shape ([val_ok],
    [heap_ok]), and the operations on values only ever extend the heap: arrays
    keep their element type and backing arrays their size ([hext]).  On top of
    that, a cast has exactly the type that was asked for, a stored element is the
    element that is read back, comparison is three-valued and total, and integer
    arithmetic is exact up to wrapping around. *)

From S2P Require Import Prelude.
From S2P Require Import BigInt.
From S2P Require Import Payloads.
From S2P Require Import Values.
From S2P Require Import SqlValues.
From S2P Require Import SqlArrays.
From Stdlib Require Import Strings.Byte.

#[local] Open Scope Z_scope.

(** ** Well-formed heaps *)

Definition slice_ok (h : heap) (s : gslice) : Prop :=
  exists b, h !! gs_loc s = Some (CBytes b) /\ length b = gs_cap s /\ (gs_len s <= gs_cap s)%nat.

Definition sval_ok (h : heap) (s : sval) : Prop :=
  match s with
  | SvInt (Some z) => is_sint 64 z
  | SvBlob (Some g) => slice_ok h g
  | _ => True
  end.

Definition cell_ok (h : heap) (c : cell) : Prop :=
  match c with
  | CBytes _ => True
  | CArr k _ xs _ => zlen xs < 2 ^ 31 /\ Forall (fun s => of_kind k s = true /\ sval_ok h s) xs
  | CNulls n => 0 <= n < 2 ^ 31
  end.

Definition heap_ok (h : heap) : Prop := forall l c, h !! l = Some c -> cell_ok h c.

Definition is_array_cell (c : cell) : Prop :=
  match c with CBytes _ => False | _ => True end.

Fixpoint val_ok (h : heap) (v : sqlval) : Prop :=
  match v with
  | NullV => True
  | ScalV s => sval_ok h s
  | ArrV l => exists c, h !! l = Some c /\ is_array_cell c
  | RecV fs => (fix go (fs : list (bytes * sqlval)) : Prop :=
      match fs with [] => True | (_, x) :: fs' => val_ok h x /\ go fs' end) fs
  end.

Lemma val_ok_fields h fs : val_ok h (RecV fs) <-> Forall (fun f => val_ok h f.2) fs.
Proof.
  induction fs as [|[n x] fs IH]; [by split; [constructor|]|].
  cbn [val_ok]. rewrite list.Forall_cons. cbn. by rewrite <-IH.
Qed.

(** ** Extension *)

Definition same_shape (c c' : cell) : Prop :=
  match c, c' with
  | CBytes b, CBytes b' => length b = length b'
  | CArr k _ _ _, CArr k' _ _ _ => k = k'
  | CNulls _, CNulls _ => True
  | _, _ => False
  end.

Definition hext (h h' : heap) : Prop :=
  forall l c, h !! l = Some c -> exists c', h' !! l = Some c' /\ same_shape c c'.

#[export] Instance hext_preorder : PreOrder hext.
Proof.
  split.
  - intros h l c E. exists c. split; [done|]. by destruct c.
  - intros h1 h2 h3 H1 H2 l c E. destruct (H1 l c E) as (c2 & E2 & S2).
    destruct (H2 l c2 E2) as (c3 & E3 & S3). exists c3. split; [done|].
    destruct c, c2, c3; cbn in *; congruence || done.
Qed.

Lemma hext_alloc h c : hext h (h ++ [c]).
Proof.
  intros l d E. exists d. split; [|by destruct d].
  by apply lookup_app_l_Some.
Qed.

Lemma hext_store h l c c' : h !! l = Some c -> same_shape c c' -> hext h (<[l:=c']> h).
Proof.
  intros E S l2 d E2. destruct (decide (l = l2)) as [->|Hn].
  - rewrite E in E2. injection E2 as <-. exists c'. split; [|done].
    apply list_lookup_insert_eq. by eapply lookup_lt_Some.
  - exists d. rewrite list_lookup_insert_ne by done. split; [done|by destruct d].
Qed.

Section mono.
Context {h h' : heap} (E : hext h h').

Lemma slice_ok_mono s : slice_ok h s -> slice_ok h' s.
Proof.
  intros (b & Hl & Hb & Hc). destruct (E _ _ Hl) as ([b'|? ? ? ?|?] & Hl' & S); try done.
  exists b'. cbn in S. split_and!; [done|congruence|done].
Qed.

Lemma sval_ok_mono s : sval_ok h s -> sval_ok h' s.
Proof. destruct s as [[]|[]|[]|[]|[]|[]]; cbn; auto using slice_ok_mono. Qed.

Lemma cell_ok_mono c : cell_ok h c -> cell_ok h' c.
Proof.
  destruct c as [b|k v xs cap|n]; cbn; [done| |done].
  intros [Hn H]. split; [done|]. eapply list.Forall_impl; [exact H|]. intros s [? ?]. split; [done|]. by apply sval_ok_mono.
Qed.

Lemma val_ok_mono : forall v, val_ok h v -> val_ok h' v.
Proof.
  fix IH 1. intros [|s|l|fs]; cbn [val_ok].
  - done.
  - apply sval_ok_mono.
  - intros (c & Hl & Hc). destruct (E _ _ Hl) as (c' & Hl' & S). exists c'. split; [done|].
    by destruct c, c'.
  - revert fs. fix IHfs 1. intros [|[n x] fs]; [done|]. intros [Hx Hfs]. split; [by apply IH|by apply IHfs].
Qed.

Lemma Type_of_mono v : val_ok h v -> Type_of h' v = Type_of h v.
Proof.
  destruct v as [|s|l|fs]; try done. cbn. intros (c & Hl & Hc).
  destruct (E _ _ Hl) as (c' & Hl' & S). rewrite Hl, Hl'. destruct c, c'; cbn in *; congruence || done.
Qed.
End mono.

Lemma heap_ok_alloc h c : heap_ok h -> cell_ok h c -> heap_ok (h ++ [c]).
Proof.
  intros Hh Hc l d E. apply (cell_ok_mono (hext_alloc h c)).
  apply lookup_app_Some in E as [E|[_ E]]; [by eapply Hh|].
  destruct (l - length h)%nat; cbn in E; [by injection E as <-|done].
Qed.

Lemma heap_ok_store h l c c' :
  heap_ok h -> h !! l = Some c -> same_shape c c' -> cell_ok h c' -> heap_ok (<[l:=c']> h).
Proof.
  intros Hh E S Hc l2 d E2. apply (cell_ok_mono (hext_store h l c c' E S)).
  apply list_lookup_insert_Some in E2 as [(_ & <- & _)|[_ E2]]; [done|by eapply Hh].
Qed.

(** ** A specification of heap operations *)

(** From a well-formed heap, [m] extends it to a well-formed one, and [Q] holds
    of its result. *)
Definition hspec {A} (m : action heap A) (Q : A -> heap -> Prop) (h : heap) : Prop :=
  hext h (snd (m h)) /\ heap_ok (snd (m h)) /\
  match fst (m h) with Ok a => Q a (snd (m h)) | Err _ => True end.

Section hspec.
Context {A : Type}.

Lemma hspec_ret (a : A) Q h : heap_ok h -> Q a h -> hspec (mret a) Q h.
Proof. intros. split_and!; [reflexivity|done|done]. Qed.

Lemma hspec_fail e (Q : A -> heap -> Prop) h : heap_ok h -> hspec (afail e) Q h.
Proof. intros. by split_and!; [reflexivity| |]. Qed.

Lemma hspec_fun (f : heap -> result A) Q h :
  heap_ok h -> (forall a, f h = Ok a -> Q a h) -> hspec (fun h => (f h, h)) Q h.
Proof. intros Hh H. split_and!; cbn; [reflexivity|done|]. destruct (f h) eqn:E; [by apply H|done]. Qed.

Lemma hspec_mono (m : action heap A) (Q Q' : A -> heap -> Prop) h :
  hspec m Q h -> (forall a h', hext h h' -> heap_ok h' -> Q a h' -> Q' a h') -> hspec m Q' h.
Proof.
  intros (H1 & H2 & H3) HQ. split_and!; [done|done|]. destruct (fst (m h)); [|done]. by apply HQ.
Qed.

Lemma hspec_bind {B} (m : action heap A) (k : A -> action heap B) (Q : A -> heap -> Prop) (Q' : B -> heap -> Prop) h :
  hspec m Q h ->
  (forall a h', hext h h' -> heap_ok h' -> Q a h' -> hspec (k a) Q' h') ->
  hspec (m ≫= k) Q' h.
Proof.
  intros (H1 & H2 & H3) HQ. unfold hspec, mbind, action_bind.
  destruct (m h) as [[a|e] h1] eqn:E; cbn in *; [|by split_and!].
  destruct (HQ a h1 H1 H2 H3) as (H4 & H5 & H6). split_and!; [by transitivity h1|done|done].
Qed.
End hspec.

Lemma hspec_lift {A} (r : result A) (Q : A -> heap -> Prop) h :
  heap_ok h -> (forall a, r = Ok a -> Q a h) -> hspec (alift r) Q h.
Proof. intros Hh HQ. by apply (hspec_fun (fun _ => r)). Qed.

Lemma hspec_gets {A} (f : heap -> A) Q h : heap_ok h -> Q (f h) h -> hspec (gets f) Q h.
Proof. intros Hh HQ. apply (hspec_fun (fun h => Ok (f h))); [done|]. by intros ? [=<-]. Qed.

Lemma hspec_alloc c (Q : nat -> heap -> Prop) h :
  heap_ok h -> cell_ok h c -> Q (length h) (h ++ [c]) -> hspec (alloc c) Q h.
Proof. intros. split_and!; cbn; [apply hext_alloc|by apply heap_ok_alloc|done]. Qed.

Lemma hspec_store l c c' (Q : unit -> heap -> Prop) h :
  heap_ok h -> h !! l = Some c -> same_shape c c' -> cell_ok h c' -> Q tt (<[l:=c']> h) ->
  hspec (store_cell l c') Q h.
Proof. intros. split_and!; cbn; [by eapply hext_store|by eapply heap_ok_store|done]. Qed.

Lemma lookup_alloc (h : heap) c : (h ++ [c]) !! length h = Some c.
Proof. by rewrite lookup_app_r, Nat.sub_diag by done. Qed.

Lemma hspec_alloc_bytes b cap (Q : gslice -> heap -> Prop) h :
  heap_ok h -> (length b <= cap)%nat ->
  (forall s c, slice_ok (h ++ [c]) s -> blob_bytes (h ++ [c]) s = b -> Q s (h ++ [c])) ->
  hspec (alloc_bytes b cap) Q h.
Proof.
  intros Hh Hc HQ. set (c := CBytes (b ++ replicate (cap - length b) x00)).
  change (alloc_bytes b cap) with (alloc c ≫= (fun l => mret (mkGSlice l (length b) cap) : action heap gslice)).
  split_and!; cbn; [apply hext_alloc|by apply heap_ok_alloc|]. apply HQ.
  - eexists. cbn. split_and!; [apply lookup_alloc| |done]. rewrite length_app, length_replicate. lia.
  - unfold blob_bytes. cbn. rewrite lookup_alloc. cbn. rewrite take_app_le by lia. by rewrite take_ge by lia.
Qed.

Create HintDb hspec.

(** One step through the structure of an operation. *)
Ltac hstep :=
  lazymatch goal with
  | |- hspec (mret _) _ _ => apply hspec_ret
  | |- hspec (afail _) _ _ => apply hspec_fail
  | |- hspec (alift _) _ _ => apply hspec_lift
  | |- hspec (gets _) _ _ => apply hspec_gets
  | |- hspec (if ?b then _ else _) _ _ => destruct b eqn:?
  | |- hspec (match ?x with _ => _ end) _ _ => destruct x eqn:?
  end.

Section ops.
Context `{Strings} `{HD : Decimals} `{!DecimalArith} `{GoRuntime}.

(** Only numeric types carry a precision and a scale. *)
Definition type_ok (t : DataType) : Prop := dt_Name t = NumericStr \/ Metadata t = (0, 0).

Lemma kind_named_type t k : type_ok t -> kind_named t = Some k -> elem_type k = scalar_of t.
Proof.
  unfold kind_named, type_ok, scalar_of. intros Ht Hk. destruct t as [n a m]; cbn in *.
  repeat case_bool_decide; subst; simplify_eq/=;
    (destruct Ht as [Ht|Ht]; [try done|by rewrite Ht]); reflexivity.
Qed.

Lemma array_scalar_type t : IsArray t = true -> array_type (scalar_of t) = t.
Proof. destruct t as [n [] m]; done. Qed.

Lemma scalar_scalar_type t : IsArray t = false -> scalar_of t = t.
Proof. destruct t as [n [] m]; done. Qed.

Lemma null_sval_ok h k : sval_ok h (null_sval k).
Proof. by destruct k. Qed.

Lemma null_sval_type k : sval_type (null_sval k) = elem_type k.
Proof. by destruct k. Qed.

(** What [makeNull] and [newZeroValue] give: a value of the type asked for. *)
Definition typed (t : DataType) (v : sqlval) (h : heap) : Prop :=
  val_ok h v /\ (type_ok t -> Type_of h v = t).

Lemma hspec_alloc_arr k valid xs cap (Q : sqlval -> heap -> Prop) h :
  heap_ok h -> cell_ok h (CArr k valid xs cap) ->
  (forall l h', hext h h' -> h' !! l = Some (CArr k valid xs cap) -> (length h <= l)%nat -> Q (ArrV l) h') ->
  hspec (l ← alloc (CArr k valid xs cap); mret (ArrV l)) Q h.
Proof.
  intros Hh Hc HQ.
  eapply (hspec_bind _ _ (fun l h' => h' !! l = Some (CArr k valid xs cap) /\ (length h <= l)%nat)).
  - apply hspec_alloc; [done|done|]. split; [apply lookup_alloc|done].
  - intros l h' He Hh' [Hl Hn]. apply hspec_ret; [done|]. by apply HQ.
Qed.

Lemma makeNull_spec t h :
  heap_ok h -> hspec (makeNull t) (fun v h' => typed t v h' /\ Null h' v = true) h.
Proof.
  intros Hh. unfold makeNull. destruct (kind_named t) as [k|] eqn:Ek.
  - destruct (IsArray t) eqn:Ea.
    + apply hspec_alloc_arr; [done|by split; [|constructor]|]. intros l h' He Hl _. split; [split|].
      * cbn. by eexists.
      * intros Ht. cbn. rewrite Hl. cbn. rewrite (kind_named_type t k Ht Ek). by apply array_scalar_type.
      * cbn. by rewrite Hl.
    + hstep; hstep; [done..|]. split; [split|].
      * apply null_sval_ok.
      * intros Ht. cbn. rewrite null_sval_type, (kind_named_type t k Ht Ek). by apply scalar_scalar_type.
      * by destruct k.
  - hstep; [|by hstep]. case_bool_decide as En; [|done]. hstep; hstep; [done..|].
    split; [split|]; [done| |done]. intros [Ht|Ht]; destruct t as [n a m]; cbn in *; subst; done.
Qed.

Lemma zero_sval_spec k h :
  heap_ok h -> hspec (zero_sval k) (fun s h' => sval_ok h' s /\ sval_type s = elem_type k /\ sval_null s = false) h.
Proof.
  intros Hh. destruct k; cbn [zero_sval].
  1,2,3,5: apply hspec_ret; [done|]; cbn; split_and!; try done; unfold is_sint; lia.
  - eapply hspec_bind.
    + apply (hspec_alloc_bytes [] 0 (fun s h' => slice_ok h' s)); [done|done|]. by intros.
    + intros s h' He Hh' Hs. apply hspec_ret; [done|]. by split_and!.
  - eapply hspec_bind; [by apply (hspec_lift _ (fun _ _ => True))|].
    intros d h' He Hh' _. by apply hspec_ret.
Qed.

Lemma newZeroValue_spec t h :
  heap_ok h -> hspec (newZeroValue t) (fun v h' => typed t v h' /\ Null h' v = false) h.
Proof.
  intros Hh. unfold newZeroValue. destruct (kind_named t) as [k|] eqn:Ek.
  - destruct (IsArray t) eqn:Ea.
    + apply hspec_alloc_arr; [done|by split; [|constructor]|]. intros l h' He Hl _. split; [split|].
      * cbn. by eexists.
      * intros Ht. cbn. rewrite Hl. cbn. rewrite (kind_named_type t k Ht Ek). by apply array_scalar_type.
      * cbn. by rewrite Hl.
    + hstep; [by hstep|]. eapply hspec_bind; [by apply zero_sval_spec|].
      intros s h' He Hh' (Hs & Ht & Hn). apply hspec_ret; [done|]. split; [split|]; [done| |done].
      intros Ho. cbn. rewrite Ht, (kind_named_type t k Ho Ek). by apply scalar_scalar_type.
  - hstep; [|by hstep]. case_bool_decide as En; [|done]. destruct (IsArray t) eqn:Ea; [|by hstep].
    eapply (hspec_bind _ _ (fun l h' => h' !! l = Some (CNulls 0))).
    + apply hspec_alloc; [done|done|apply lookup_alloc].
    + intros l h' He Hh' Hl. apply hspec_ret; [done|]. split; [split|].
      * cbn. by eexists.
      * intros [Ht|Ht]; destruct t as [n a m]; cbn in *; subst; [done|]. by rewrite Hl.
      * cbn. by rewrite Hl.
Qed.

(** ** Casts *)

Lemma makeDecimal_type d p q : Precision d = p /\ Scale d = q -> sval_type (makeDecimal d) = mkDataType NumericStr false (p, q).
Proof. by intros [<- <-]. Qed.

Lemma makeDecimal_ok h d : sval_ok h (makeDecimal d).
Proof. done. Qed.

Lemma cast_res_spec {A} (r : result A) (Q : A -> heap -> Prop) h :
  heap_ok h -> (forall a, r = Ok a -> Q a h) -> hspec (cast_res r) Q h.
Proof. intros Hh HQ. destruct r; [|by apply hspec_fail]. apply hspec_ret; auto. Qed.

Lemma cast_opt_spec {A} (r : option A) (Q : A -> heap -> Prop) h :
  heap_ok h -> (forall a, r = Some a -> Q a h) -> hspec (cast_opt r) Q h.
Proof. intros Hh HQ. destruct r; [|by apply hspec_fail]. apply hspec_ret; auto. Qed.

(** The result of a scalar cast to [t]. *)
Definition cast_post (t : DataType) (s : sval) (h : heap) : Prop :=
  sval_ok h s /\ sval_null s = false /\ sval_type s = t.

Lemma numeric_scalar t : dt_Name t = NumericStr -> IsArray t = false ->
  mkDataType NumericStr false ((Metadata t).1, (Metadata t).2) = t.
Proof. by destruct t as [n [] [p q]]; cbn; intros ->. Qed.

Lemma parse_dec_spec s t h :
  heap_ok h -> dt_Name t = NumericStr -> IsArray t = false -> hspec (parse_dec s t) (cast_post t) h.
Proof.
  intros Hh Hn Ha. unfold parse_dec. eapply hspec_bind.
  - apply (cast_res_spec _ (fun d _ => Precision d = (Metadata t).1 /\ Scale d = (Metadata t).2)); [done|].
    intros d. apply ParseDecimalExplicit_meta.
  - intros d h' _ Hh' Hd. apply hspec_ret; [done|]. split_and!; [done|done|].
    by rewrite (makeDecimal_type _ _ _ Hd), numeric_scalar.
Qed.

Lemma Atoi_range s z : Atoi s = Some z -> is_sint 64 z.
Proof. unfold Atoi. destruct (big_SetString s); [|done]. case_bool_decide; [|done]. by intros [=<-]. Qed.

(** Case analysis on the conditions of an operation. *)
Ltac hcase :=
  repeat match goal with
  | |- hspec (if bool_decide ?P then _ else _) _ _ => case_bool_decide; subst
  | |- hspec (if ?b then _ else _) _ _ => destruct b eqn:?
  end.

Lemma cast_sval_spec s t h :
  heap_ok h -> sval_ok h s -> hspec (cast_sval s t) (cast_post t) h.
Proof.
  intros Hh Hs. unfold cast_sval, cast_int8, cast_text, cast_bool, cast_blob, cast_uuid, cast_decimal, cast_fail.
  assert (forall A (r : result A) (k : A -> action heap sval) Q,
    (forall a, r = Ok a -> hspec (k a) Q h) -> hspec (cast_res r ≫= k) Q h) as Hres.
  { intros A [a|e] k Q Hk; [by apply Hk|by apply hspec_fail]. }
  assert (forall A (r : option A) (k : A -> action heap sval) Q,
    (forall a, r = Some a -> hspec (k a) Q h) -> hspec (cast_opt r ≫= k) Q h) as Hopt.
  { intros A [a|] k Q Hk; [by apply Hk|by apply hspec_fail]. }
  assert (forall b c, (length b <= c)%nat ->
    hspec (g ← alloc_bytes b c; mret (SvBlob (Some g))) (cast_post ByteaType) h) as Hblob.
  { intros b c Hc. eapply hspec_bind; [by apply (hspec_alloc_bytes b c (fun g h' => slice_ok h' g))|].
    intros g h' _ Hh' Hg. by apply hspec_ret. }
  destruct s as [[z|]|[x|]|[b|]|[g|]|[u|]|o meta]; try (by apply hspec_fail).
  - hcase; try (by apply hspec_fail); try (by apply parse_dec_spec); by apply hspec_ret.
  - hcase; try (by apply hspec_fail); try (by apply parse_dec_spec).
    + apply Hopt. intros a Ha. apply hspec_ret; [done|]. split_and!; [by eapply Atoi_range|done|done].
    + by apply hspec_ret.
    + apply Hopt. intros a Ha. by apply hspec_ret.
    + apply Hres. intros a Ha. by apply hspec_ret.
    + apply Hblob, bytes_cap_ge.
  - hcase; try (by apply hspec_fail); apply hspec_ret; try done.
    split_and!; [|done|done]. destruct b; unfold sval_ok, is_sint; lia.
  - eapply hspec_bind; [by apply (hspec_gets _ (fun _ h' => h' = h))|]. intros bts h' _ _ ->.
    hcase; try (by apply hspec_fail).
    + apply Hopt. intros a Ha. apply hspec_ret; [done|]. split_and!; [by eapply Atoi_range|done|done].
    + by apply hspec_ret.
    + by apply hspec_ret.
  - hcase; try (by apply hspec_fail); try (by apply hspec_ret). by apply Hblob.
  - hcase; try (by apply hspec_fail).
    + apply Hres. intros d _. apply Hres. intros d' Hd'. apply hspec_ret; [done|].
      split_and!; [done|done|]. rewrite (makeDecimal_type _ _ _ (SetPrecisionAndScale_meta _ _ _ _ Hd')).
      by apply numeric_scalar.
    + apply Hres. intros d _. apply Hres. intros i Hi. apply hspec_ret; [done|].
      split_and!; [by eapply DecimalInt64_range|done|done].
    + apply Hres. intros d _. by apply hspec_ret.
Qed.

Lemma sval_type_kind k s : sval_type s = elem_type k -> of_kind k (bare s) = true.
Proof. destruct k, s; done. Qed.

Lemma bare_ok h s : sval_ok h s -> sval_ok h (bare s).
Proof. by destruct s as [[]|[]|[]|[]|[]|[]]. Qed.

Lemma cast_elems_spec get k2 xs h :
  heap_ok h -> Forall (sval_ok h) xs ->
  (forall x h', x ∈ xs -> hext h h' -> heap_ok h' -> sval_ok h' x ->
     hspec (get x) (fun s h2 => sval_ok h2 s /\ of_kind k2 (bare s) = true) h') ->
  hspec (cast_elems get k2 xs) (fun ys h' => length ys = length xs /\ Forall (fun s => of_kind k2 (bare s) = true /\ sval_ok h' s) ys) h.
Proof.
  revert h. induction xs as [|x xs IH]; intros h Hh Hxs Hget; cbn [cast_elems].
  { by apply hspec_ret; [|constructor]. }
  apply list.Forall_cons in Hxs as [Hx Hxs].
  apply (hspec_bind _ _ (fun s h2 => sval_ok h2 s /\ of_kind k2 (bare s) = true)).
  { hstep; [apply hspec_ret; [done|]; split; [apply null_sval_ok|by destruct k2]|]. apply Hget; [by left| |done|done]. reflexivity. }
  intros y h1 He Hh1 [Hy1 Hy2]. eapply hspec_bind.
  { apply IH; [done| |].
    - eapply list.Forall_impl; [exact Hxs|]. intros s. by apply sval_ok_mono.
    - intros x' h' Hin He' Hh' Hx'. apply Hget; [by right|by transitivity h1|done|done]. }
  intros ys h2 He2 Hh2 [Hn Hys]. apply hspec_ret; [done|]. split; [cbn; lia|]. constructor; [|done].
  split; [done|by eapply sval_ok_mono].
Qed.

Lemma castArr_spec get k2 xs t h :
  heap_ok h -> zlen xs < 2 ^ 31 -> Forall (sval_ok h) xs -> (type_ok t -> array_type (elem_type k2) = t) ->
  (forall x h', x ∈ xs -> hext h h' -> heap_ok h' -> sval_ok h' x ->
     hspec (get x) (fun s h2 => sval_ok h2 s /\ of_kind k2 (bare s) = true) h') ->
  hspec (castArr get k2 xs) (typed t) h.
Proof.
  intros Hh Hlen Hxs Ht Hget. unfold castArr. eapply hspec_bind; [by apply cast_elems_spec|].
  intros ys h1 He Hh1 [Hn Hys]. apply hspec_alloc_arr; [done| |].
  - cbn. split; [unfold zlen in *; rewrite length_fmap; lia|]. apply Forall_fmap. eapply list.Forall_impl; [exact Hys|]. intros s [? ?]. cbn. split; [done|by apply bare_ok].
  - intros l h' He' Hl _. split; [cbn; by eexists|]. intros Ho. cbn. rewrite Hl. by apply Ht.
Qed.

Lemma elem_scalar_spec k2 t x h :
  elem_type k2 = scalar_of t -> heap_ok h -> sval_ok h x ->
  hspec (cast_sval x (scalar_of t)) (fun s h2 => sval_ok h2 s /\ of_kind k2 (bare s) = true) h.
Proof.
  intros Hk Hh Hx. eapply hspec_mono; [by apply cast_sval_spec|].
  intros s h' _ _ (Hs & _ & Ht). split; [done|]. apply sval_type_kind. congruence.
Qed.

Lemma numeric_array t : dt_Name t = NumericStr -> IsArray t = true ->
  array_type (elem_type (ADec (Some (Metadata t)))) = t.
Proof. by destruct t as [n [] m]; cbn; intros ->. Qed.

Lemma cast_array_spec l k valid xs cap t h :
  heap_ok h -> h !! l = Some (CArr k valid xs cap) -> hspec (cast_array l k xs t) (typed t) h.
Proof.
  intros Hh Hl.
  assert (Forall (sval_ok h) xs) as Hxs.
  { eapply list.Forall_impl; [exact (proj2 (Hh _ _ Hl))|]. by intros ? [? ?]. }
  pose proof (proj1 (Hh _ _ Hl)) as Hlen.
  assert (forall k2, elem_type k2 = scalar_of t -> IsArray t = true ->
    hspec (castArr (cast_elem t) k2 xs) (typed t) h) as Hsc.
  { intros k2 Hk Ha. apply castArr_spec; [done|done|done| |].
    - intros _. rewrite Hk. by apply array_scalar_type.
    - intros x h' _ _ Hh' Hx. by apply elem_scalar_spec. }
  assert (array_type (elem_type k) = t -> hspec (mret (ArrV l)) (typed t) h) as Hsame.
  { intros Ht. apply hspec_ret; [done|]. split; [by exists (CArr k valid xs cap)|]. intros _. cbn. by rewrite Hl. }
  assert (dt_Name t = NumericStr -> elem_type (ADec (Some (Metadata t))) = scalar_of t) as Hnum.
  { by destruct t as [n a m]; cbn; intros ->. }
  unfold cast_array, cast_int8_array, cast_text_array, cast_bool_array, cast_blob_array, cast_uuid_array, cast_decimal_array. destruct k; hcase; try (by apply hspec_fail); try (by apply Hsame);
    try (apply Hsc; [by auto|done]).
  - apply castArr_spec; [done|done|done| |].
    + intros _. by apply numeric_array.
    + intros x h' _ _ Hh' Hx. eapply hspec_bind; [by apply (hspec_lift _ (fun _ _ => True))|].
      intros d h1 _ Hh1 _. eapply hspec_bind; [by apply (hspec_lift _ (fun _ _ => True))|].
      intros d' h2 _ Hh2 _. by apply hspec_ret.
  - apply castArr_spec; [done|done|done|done|]. intros x h' _ _ Hh' Hx.
    apply (hspec_bind _ _ (fun _ _ => True)).
    + unfold raw_dec. destruct x; try (by apply hspec_fail). destruct (dec _ _); [by apply hspec_ret|by apply hspec_fail].
    + intros d h1 _ Hh1 _. by apply hspec_ret.
  - apply castArr_spec; [done|done|done|done|]. intros x h' _ _ Hh' Hx.
    apply (hspec_bind _ _ (fun _ _ => True)).
    + unfold raw_dec. destruct x; try (by apply hspec_fail). destruct (dec _ _); [by apply hspec_ret|by apply hspec_fail].
    + intros d h1 _ Hh1 _. eapply hspec_bind; [by apply (cast_res_spec _ (fun i _ => is_sint 64 i)); [|apply DecimalInt64_range]|].
      intros i h2 _ Hh2 Hi. by apply hspec_ret.
Qed.

Lemma cast_nulls_spec n t h : heap_ok h -> 0 <= n < 2 ^ 31 -> hspec (cast_nulls n t) (typed t) h.
Proof.
  intros Hh Hn. unfold cast_nulls, cast_fail. destruct (negb (IsArray t)) eqn:Ea; [by apply hspec_fail|].
  hstep; [|by apply hspec_fail]. destruct (kind_named t) as [k|] eqn:Ek; [|by apply hspec_fail].
  apply hspec_alloc_arr; [done| |].
  - split; [unfold zlen; rewrite length_replicate; lia|].
    apply Forall_replicate. split; [by destruct k|]. apply bare_ok, null_sval_ok.
  - intros l h' _ Hl _. split; [cbn; by eexists|]. intros Ht. cbn. rewrite Hl. cbn.
    rewrite (kind_named_type t k Ht Ek). apply array_scalar_type. by destruct (IsArray t).
Qed.

Lemma Cast_spec v t h : heap_ok h -> val_ok h v -> hspec (Cast v t) (typed t) h.
Proof.
  intros Hh Hv.
  assert (hspec (makeNull t) (typed t) h) as Hnull.
  { eapply hspec_mono; [by apply makeNull_spec|]. by intros ? ? _ _ [? ?]. }
  destruct v as [|s|l|fs]; cbn [Cast].
  - done.
  - hstep; [done|]. eapply hspec_bind; [by apply cast_sval_spec|]. intros s' h' _ Hh' (Hs & _ & Ht).
    by apply hspec_ret.
  - eapply hspec_bind; [by apply (hspec_gets _ (fun c h' => h' = h /\ c = h !! l))|]. intros c h' _ _ [-> ->].
    destruct Hv as (c & Hl & Hc). rewrite Hl. destruct c as [|k valid xs cap|n]; [done| |].
    + destruct valid; cbn [negb]; [by eapply cast_array_spec|done].
    + apply cast_nulls_spec; [done|]. exact (Hh _ _ Hl).
  - hstep; [done|by apply hspec_fail].
Qed.

(** C29. A cast that succeeds gives a value of exactly the type it names, in a
    heap where every array and every blob that existed before is still there
    with its element type and size; on a failure the heap is well formed as
    well.  The type is any type of a column or parameter: only numeric types
    carry a precision and a scale. *)
Theorem Cast_typed (v : sqlval) (t : DataType) (h : heap) :
  heap_ok h -> val_ok h v -> type_ok t ->
  hext h (snd (Cast v t h)) /\ heap_ok (snd (Cast v t h)) /\
  forall v', fst (Cast v t h) = Ok v' ->
    val_ok (snd (Cast v t h)) v' /\ Type_of (snd (Cast v t h)) v' = t.
Proof.
  intros Hh Hv Ht. destruct (Cast_spec v t h Hh Hv) as (He & Hk & Hq). split_and!; [done|done|].
  intros v' E. rewrite E in Hq. destruct Hq as [? Hty]. auto.
Qed.

(** ** Arithmetic *)

Lemma int_arith_range a b op r : int_arith a b op = Ok r -> is_sint 64 r.
Proof.
  unfold int_arith. destruct op; try destruct (b =? 0); try done; try (intros [=<-]; by apply swrap_range).
  all: destruct (int_pow a b) eqn:E; [|done]; intros [=<-]; by eapply int_pow_range.
Qed.

Lemma blob_bytes_length h s : slice_ok h s -> length (blob_bytes h s) = gs_len s.
Proof. intros (b & Hl & Hb & Hc). unfold blob_bytes. rewrite Hl, length_take. lia. Qed.

Lemma append_bytes_spec a b h :
  heap_ok h -> slice_ok h a ->
  hspec (append_bytes a b)
    (fun r h' => slice_ok h' r /\ blob_bytes h' r = blob_bytes h a ++ b /\ blob_bytes h' a = blob_bytes h a) h.
Proof.
  intros Hh Ha. pose proof Ha as (back & Hl & Hb & Hc). unfold append_bytes, hspec. case_decide as Hn.
  - rewrite Hl. cbn [fst snd].
    set (back' := take (gs_len a) back ++ b ++ drop (gs_len a + length b) back).
    assert (length back' = length back) as Hlen.
    { unfold back'. rewrite !length_app, length_take, length_drop. lia. }
    assert (<[gs_loc a:=CBytes back']> h !! gs_loc a = Some (CBytes back')) as Hl'.
    { apply list_lookup_insert_eq. by eapply lookup_lt_Some. }
    assert (length (take (gs_len a) back) = gs_len a) as Ht by (rewrite length_take; lia).
    split_and!; [by eapply hext_store|by eapply heap_ok_store| | |].
    + exists back'. cbn. split_and!; [done|lia|lia].
    + unfold blob_bytes. cbn [gs_loc gs_len]. rewrite Hl', Hl. unfold back'.
      rewrite take_app_ge by lia. rewrite Ht. f_equal.
      replace (gs_len a + length b - gs_len a)%nat with (length b) by lia. by rewrite take_app_length.
    + unfold blob_bytes. rewrite Hl', Hl. unfold back'. rewrite take_app_le by lia. by rewrite take_ge by lia.
  - assert (length (blob_bytes h a) = gs_len a) as Hbl by by apply blob_bytes_length.
    apply (hspec_alloc_bytes (blob_bytes h a ++ b) _
      (fun r h' => slice_ok h' r /\ blob_bytes h' r = blob_bytes h a ++ b /\ blob_bytes h' a = blob_bytes h a)).
    + done.
    + rewrite length_app, Hbl. apply append_cap_ge.
    + intros s c Hs Hbs. split_and!; [done|done|]. unfold blob_bytes. by rewrite (lookup_app_l_Some _ _ _ _ Hl), Hl.
Qed.

Lemma arith_sval_spec s s2 op h :
  heap_ok h -> sval_ok h s -> sval_ok h s2 -> hspec (arith_sval s s2 op) (fun r h' => sval_ok h' r) h.
Proof.
  intros Hh Hs Hs2. unfold arith_sval, arith_text, arith_blob, arith_decimal.
  destruct s as [[a|]|[a|]|[a|]|[a|]|[a|]|a ma], s2 as [[b|]|[b|]|[b|]|[b|]|[b|]|b mb]; try (by apply hspec_fail).
  - eapply hspec_bind; [apply (hspec_lift _ (fun r _ => is_sint 64 r)); [done|]; intros r; apply int_arith_range|].
    intros r h' _ Hh' Hr. by apply hspec_ret.
  - by destruct op; try (by apply hspec_fail); apply hspec_ret.
  - destruct op; try (by apply hspec_fail).
    eapply hspec_bind; [by apply (hspec_gets _ (fun _ h' => h' = h))|]. intros bts h' _ _ ->.
    eapply hspec_bind; [by apply append_bytes_spec|]. intros r h' _ Hh' (Hr & _). by apply hspec_ret.
  - do 3 (eapply hspec_bind; [by apply (hspec_lift _ (fun _ _ => True))|]; intros ? ? _ ? _). by apply hspec_ret.
Qed.

Lemma Arithmetic_spec v v2 op h :
  heap_ok h -> val_ok h v -> val_ok h v2 -> hspec (Arithmetic v v2 op) (fun r h' => val_ok h' r) h.
Proof.
  intros Hh Hv Hv2. unfold Arithmetic.
  destruct v as [|s| |]; [by apply hspec_ret| |by apply hspec_fail..].
  destruct (no_arith s); [by apply hspec_fail|]. destruct (sval_null s); [by apply hspec_ret|].
  destruct v2 as [|s2| |]; [by apply hspec_ret| |by apply hspec_fail..].
  destruct (sval_null s2); [by apply hspec_ret|].
  eapply hspec_bind; [by apply arith_sval_spec|]. intros r h' _ Hh' Hr. by apply hspec_ret.
Qed.

(** ** Elements *)

Lemma elem_sval_ok h k s : sval_ok h s -> sval_ok h (elem_sval k s).
Proof. by destruct k, s. Qed.

Lemma Get_spec v i h :
  heap_ok h -> val_ok h v -> hspec (Get v i) (fun r h' => val_ok h' r /\ is_scalar r = true) h.
Proof.
  intros Hh Hv. destruct v as [|s|l|fs]; cbn [Get]; [by apply hspec_ret|by apply hspec_fail| |by apply hspec_fail].
  eapply hspec_bind; [by apply (hspec_gets _ (fun c h' => h' = h /\ c = h !! l))|]. intros c h' _ _ [-> ->].
  destruct Hv as (c & Hl & Hc). rewrite Hl. destruct c as [|k valid xs cap|n]; [done| |by apply hspec_ret].
  unfold getArr. destruct (_ || _).
  - eapply hspec_bind; [by apply makeNull_spec|]. intros v h' _ Hh' _. by apply hspec_fail.
  - destruct (xs !! Z.to_nat (i - 1)) as [s|] eqn:Es; [|by apply hspec_fail]. apply hspec_ret; [done|].
    split; [|done]. apply elem_sval_ok.
    pose proof (proj2 (Hh _ _ Hl)) as Hxs. by apply (list.Forall_lookup_1 _ _ _ _ Hxs Es).
Qed.

(** The state of the array cell [l] while it is updated. *)
Definition arr_at (l : nat) (k : akind) (h : heap) : Prop := exists valid xs cap, h !! l = Some (CArr k valid xs cap).

Lemma arr_at_mono l k h h' : hext h h' -> arr_at l k h -> arr_at l k h'.
Proof.
  intros He (valid & xs & cap & Hl). destruct (He _ _ Hl) as ([|k' v' xs' cap'|] & Hl' & S); try done.
  cbn in S. subst k'. by exists v', xs', cap'.
Qed.

Lemma typed_null_spec k h :
  heap_ok h -> hspec (typed_null k) (fun s h' => sval_ok h' s /\ of_kind k (bare s) = true) h.
Proof.
  intros Hh. unfold typed_null. eapply hspec_bind; [by apply makeNull_spec|].
  intros v h' _ Hh' [[Hv Ht] _]. destruct v as [|s| |]; try (by apply hspec_fail).
  assert (type_ok (elem_type k)) as Hk by (destruct k as [| | | | |meta]; [by right..|by left]).
  apply hspec_ret; [done|]. split; [by apply elem_sval_ok|]. specialize (Ht Hk). cbn in Ht.
  apply sval_type_kind in Ht. by destruct k, s.
Qed.

Lemma put_elem_spec l k i s h :
  heap_ok h -> arr_at l k h -> sval_ok h s -> of_kind k s = true -> hspec (put_elem l i s) (fun _ h' => arr_at l k h') h.
Proof.
  intros Hh (valid & xs & cap & Hl) Hs Hk. unfold put_elem.
  eapply hspec_bind; [by apply (hspec_gets _ (fun c h' => h' = h /\ c = h !! l))|]. intros c h' _ _ [-> ->].
  rewrite Hl. eapply hspec_store; [done|done|done| |].
  - destruct (Hh _ _ Hl) as [Hn Hxs]. split; [unfold zlen in *; by rewrite length_insert|]. by apply list.Forall_insert.
  - exists valid, (<[Z.to_nat (i - 1):=s]> xs), cap. apply list_lookup_insert_eq. by eapply lookup_lt_Some.
Qed.

Lemma extendArr_spec l k valid xs cap i h :
  heap_ok h -> i <= maxArrayLen -> h !! l = Some (CArr k valid xs cap) -> hspec (extendArr l k xs cap i) (fun _ h' => arr_at l k h') h.
Proof.
  intros Hh Hi Hl. unfold maxArrayLen in Hi. unfold extendArr. destruct (_ >? _) eqn:Egt; [|apply hspec_ret; [done|]; by exists valid, xs, cap].
  destruct (Hh _ _ Hl) as [Hlen Hxs]. pose proof (lookup_lt_Some _ _ _ Hl) as Hlt. destruct (_ && _) eqn:Efast.
  - eapply hspec_store; [done|done|done| |by eexists _, _, _; apply list_lookup_insert_eq].
    split; [rewrite zlen_app; change (zlen [_]) with 1; lia|].
    apply Forall_app. split; [done|]. constructor; [|done]. split; [by destruct k|]. apply bare_ok, null_sval_ok.
  - eapply hspec_bind; [by apply typed_null_spec|]. intros nn h' He Hh' [Hn Hk].
    destruct (He _ _ Hl) as ([|k' v' xs' cap'|] & Hl' & S); try done. cbn in S. subst k'.
    eapply hspec_store; [done|done|done| |eexists _, _, _; apply list_lookup_insert_eq; by eapply lookup_lt_Some].
    split; [rewrite zlen_app; unfold zlen at 2; rewrite length_replicate; lia|]. apply Forall_app. split.
    + eapply list.Forall_impl; [exact Hxs|]. intros s [? ?]. split; [done|]. by eapply sval_ok_mono.
    + apply Forall_replicate. split; [done|]. by apply bare_ok.
Qed.

Lemma set_cell_spec l i v k h :
  heap_ok h -> arr_at l k h -> val_ok h v -> hspec (set_cell l i v) (fun _ h' => arr_at l k h') h.
Proof.
  intros Hh Hl Hv. unfold set_cell. pose proof Hl as (valid & xs & cap & E).
  eapply hspec_bind; [by apply (hspec_gets _ (fun c h' => h' = h /\ c = h !! l))|]. intros c h' _ _ [-> ->].
  rewrite E. destruct (negb _); [by apply hspec_fail|]. unfold setArr. destruct (_ || _) eqn:Ei; [by apply hspec_fail|].
  eapply hspec_bind; [by eapply extendArr_spec; [|lia|]|]. intros [] h1 He1 Hh1 Ha.
  eapply hspec_bind; [by apply (hspec_gets _ (fun _ h' => h' = h1))|]. intros isNull h' _ _ ->. destruct isNull.
  - eapply hspec_bind; [by apply typed_null_spec|]. intros nn h2 He2 Hh2 [Hn Hk].
    eapply put_elem_spec; [done|by eapply arr_at_mono|by apply bare_ok|done].
  - eapply hspec_bind; [apply Cast_spec; [done|by eapply val_ok_mono]|]. intros sc h2 He2 Hh2 [Hs Ht].
    destruct sc as [|s| |]; try (by apply hspec_fail). destruct (of_kind k s) eqn:Ek; [|by apply hspec_fail].
    eapply put_elem_spec; [done|by eapply arr_at_mono|by apply bare_ok|by destruct k, s].
Qed.

Lemma set_nulls_spec l k n h :
  heap_ok h -> arr_at l k h -> hspec (set_nulls l n) (fun _ h' => arr_at l k h') h.
Proof.
  intros Hh Hl. induction n as [|n IH]; cbn [set_nulls]; [by apply hspec_ret|].
  eapply hspec_bind; [exact IH|]. intros [] h' He Hh' Ha. by apply set_cell_spec.
Qed.

Lemma typed_array t v h : typed (array_type t) v h -> is_array v = true ->
  match v with ArrV l => (exists k, arr_at l k h) \/ (exists n, h !! l = Some (CNulls n)) | _ => True end.
Proof.
  intros [Hv _] _. destruct v as [| |l|]; try done. destruct Hv as (c & Hl & Hc).
  destruct c as [|k valid xs cap|n]; [done|left; by exists k, valid, xs, cap|right; by exists n].
Qed.

Lemma Set_spec arr i v h :
  heap_ok h -> val_ok h arr -> val_ok h v -> is_scalar v = true -> hspec (Set_ arr i v) (fun _ _ => True) h.
Proof.
  intros Hh Ha Hv Hsc. destruct arr as [|s|l|fs]; cbn [Set_]; [by apply hspec_fail..| |by apply hspec_fail].
  eapply hspec_bind; [by apply (hspec_gets _ (fun c h' => h' = h /\ c = h !! l))|]. intros c h' _ _ [-> ->].
  destruct Ha as (c & Hl & Hc). rewrite Hl. destruct c as [|k valid xs cap|n]; [done| |].
  { eapply hspec_mono; [apply (set_cell_spec l i v k); [done|by exists valid, xs, cap|done]|done]. }
  unfold set_arrayOfNulls. destruct (_ || _) eqn:Ei; [by apply hspec_fail|].
  eapply hspec_bind; [by apply (hspec_gets _ (fun _ h' => h' = h))|]. intros isNull h' _ _ ->. destruct isNull.
  - unfold awhen. destruct (i >? n) eqn:Egt; [|by apply hspec_ret]. eapply hspec_store; [done|done|done| |done]. cbn.
    pose proof (Hh _ _ Hl) as Hn. unfold maxArrayLen in Ei. cbn in *. lia.
  - eapply hspec_bind; [by apply (hspec_gets _ (fun t h' => h' = h))|]. intros t h' _ _ ->.
    eapply hspec_bind; [by apply newZeroValue_spec|]. intros nv h1 He1 Hh1 [Hnv _].
    destruct nv as [| |l'|]; try (by apply hspec_fail).
    destruct (typed_array _ _ _ Hnv eq_refl) as [[k Hk]|[m Hm]].
    + eapply hspec_bind; [by eapply set_nulls_spec|]. intros [] h2 He2 Hh2 Ha2.
      eapply hspec_mono; [eapply set_cell_spec; [done|exact Ha2|]|done].
      eapply val_ok_mono; [|exact Hv]. by transitivity h1.
    + apply (hspec_bind _ _ (fun _ h2 => exists m, h2 !! l' = Some (CNulls m))).
      * assert (forall p h2, heap_ok h2 -> h2 !! l' = Some (CNulls m) ->
          set_nulls l' p h2 = (if decide (p = 0%nat) then Ok tt else Err (ErrPanic "invalid memory address"), h2)) as Hsn.
        { induction p as [|p IHp]; intros h2 Hh2 Hm2; [done|]. cbn [set_nulls].
          unfold mbind, action_bind. rewrite IHp by done. destruct (decide (p = 0%nat)); [|done].
          unfold set_cell, mbind, action_bind, gets. by rewrite Hm2. }
        unfold hspec. rewrite Hsn by done. cbn. split_and!; [reflexivity|done|]. case_decide; [by exists m|done].
      * intros [] h2 He2 Hh2 [m2 Hm2]. unfold set_cell.
        eapply hspec_bind; [by apply (hspec_gets _ (fun c h' => h' = h2 /\ c = h2 !! l'))|]. intros c h' _ _ [-> ->].
        rewrite Hm2. by apply hspec_fail.
Qed.

Lemma hspec_null v (k : bool -> action heap sqlval) Q h :
  heap_ok h -> hspec (k (Null h v)) Q h -> hspec (gets (fun h => Null h v) ≫= k) Q h.
Proof. intros Hh Hk. eapply hspec_bind; [by apply (hspec_gets _ (fun a h' => h' = h /\ a = Null h v))|]. by intros a h' _ _ [-> ->]. Qed.

Lemma fill_array_spec arr t i vals h :
  heap_ok h -> val_ok h arr -> Forall (val_ok h) vals -> hspec (fill_array arr t i vals) (fun _ _ => True) h.
Proof.
  revert i h. induction vals as [|v vals IH]; intros i h Hh Ha Hv; cbn [fill_array]; [by apply hspec_ret|].
  apply list.Forall_cons in Hv as [Hv Hvs].
  eapply hspec_bind; [by apply Cast_spec|]. intros c h1 He1 Hh1 [Hc _].
  apply (hspec_bind _ _ (fun _ _ => True)).
  { destruct (is_scalar c) eqn:Es; [|by apply hspec_fail]. apply Set_spec; [done|by eapply val_ok_mono|done|done]. }
  intros [] h2 He2 Hh2 _. apply IH; [done| |].
  - eapply val_ok_mono; [|exact Ha]. by transitivity h1.
  - eapply list.Forall_impl; [exact Hvs|]. intros x Hx. eapply val_ok_mono; [|exact Hx]. by transitivity h1.
Qed.

Lemma makeArray_spec vals t h :
  heap_ok h -> Forall (val_ok h) vals -> hspec (makeArray vals t) (fun v h' => val_ok h' v) h.
Proof.
  intros Hh Hvs.
  assert (hspec (inferred ← gets (fun h => infer_type h vals);
    let expectedType := default (default TextType inferred) t in
    if negb (IsArray expectedType) then afail ErrCast
    else
      zeroArr ← newZeroValue expectedType;
      (if is_array zeroArr then fill_array zeroArr (scalar_of expectedType) 1 vals
       else afail (ErrMsg "unexpected zero array Value"));;
      mret zeroArr) (fun v h' => val_ok h' v) h) as Hm.
  { eapply hspec_bind; [by apply (hspec_gets _ (fun _ h' => h' = h))|]. intros inf h' _ _ ->. cbn zeta.
    destruct (negb _); [by apply hspec_fail|].
    eapply hspec_bind; [by apply newZeroValue_spec|]. intros z h1 He1 Hh1 [[Hz _] _].
    apply (hspec_bind _ _ (fun _ _ => True)).
    - destruct (is_array z); [|by apply hspec_fail]. apply fill_array_spec; [done|done|].
      eapply list.Forall_impl; [exact Hvs|]. intros x. by apply val_ok_mono.
    - intros [] h2 He2 Hh2 _. apply hspec_ret; [done|]. by eapply val_ok_mono. }
  unfold makeArray. destruct vals, t; [exact Hm|by apply hspec_fail|exact Hm|exact Hm].
Qed.

Lemma copy_elems_spec k xs h :
  heap_ok h -> Forall (fun s => of_kind k s = true /\ sval_ok h s) xs ->
  hspec (copy_elems xs) (fun ys h' => length ys = length xs /\ Forall (fun s => of_kind k s = true /\ sval_ok h' s) ys) h.
Proof.
  revert h. induction xs as [|x xs IH]; intros h Hh Hxs; cbn [copy_elems]; [by apply hspec_ret; [|constructor]|].
  apply list.Forall_cons in Hxs as [[Hk Hx] Hxs].
  assert (hspec (ys ← copy_elems xs; mret (x :: ys))
    (fun ys h' => length ys = length (x :: xs) /\ Forall (fun s => of_kind k s = true /\ sval_ok h' s) ys) h) as Hplain.
  { eapply hspec_bind; [by apply IH|]. intros ys h' He Hh' [Hn Hys]. apply hspec_ret; [done|].
    split; [cbn; lia|]. constructor; [|done]. split; [done|by eapply sval_ok_mono]. }
  destruct x as [| | |[b|]| |]; try exact Hplain. clear Hplain.
  eapply hspec_bind; [by apply (hspec_gets _ (fun _ h' => h' = h))|]. intros bts h' _ _ ->.
  eapply hspec_bind; [by apply (hspec_alloc_bytes _ _ (fun s h' => slice_ok h' s))|]. intros b' h1 He1 Hh1 Hb.
  eapply hspec_bind; [apply IH; [done|]|].
  { eapply list.Forall_impl; [exact Hxs|]. intros s [? ?]. split; [done|by eapply sval_ok_mono]. }
  intros ys h2 He2 Hh2 [Hn Hys]. apply hspec_ret; [done|]. split; [cbn; lia|]. constructor; [|done]. split; [done|by eapply slice_ok_mono].
Qed.

Lemma copyArray_spec v h : heap_ok h -> val_ok h v -> hspec (copyArray v) (fun r h' => val_ok h' r) h.
Proof.
  intros Hh Hv. unfold copyArray. apply hspec_null; [done|]. destruct (Null h v).
  - eapply hspec_bind; [by apply (hspec_gets _ (fun _ h' => h' = h))|]. intros t h' _ _ ->.
    eapply hspec_bind; [by apply makeNull_spec|]. intros n h1 He1 Hh1 [[Hn _] _].
    destruct (is_array n); [by apply hspec_ret|by apply hspec_fail].
  - destruct v as [| |l|]; try (by apply hspec_fail). destruct Hv as (c & Hl & Hc).
    eapply hspec_bind; [by apply (hspec_gets _ (fun c h' => h' = h /\ c = h !! l))|]. intros c' h' _ _ [-> ->].
    rewrite Hl. destruct c as [|k valid xs cap|n]; [done| |].
    + eapply hspec_bind; [apply copy_elems_spec; [done|exact (proj2 (Hh _ _ Hl))]|]. intros ys h1 He1 Hh1 [Hn Hys].
      pose proof (proj1 (Hh _ _ Hl)) as Hlen.
      apply hspec_alloc_arr; [done|split; [unfold zlen in *; lia|done]|]. intros l' h2 _ Hl' _. cbn. by eexists.
    + eapply (hspec_bind _ _ (fun l' h' => h' !! l' = Some (CNulls n))).
      * apply hspec_alloc; [done|exact (Hh _ _ Hl)|apply lookup_alloc].
      * intros l' h' He Hh' Hl'. apply hspec_ret; [done|]. cbn. by eexists.
Qed.

Lemma oneLengthArray_spec v h : heap_ok h -> val_ok h v -> hspec (oneLengthArray v) (fun r h' => val_ok h' r) h.
Proof.
  intros Hh Hv. unfold oneLengthArray. destruct (is_scalar v) eqn:Es; [|by apply hspec_fail]. cbn [negb].
  eapply hspec_bind; [by apply (hspec_gets _ (fun _ h' => h' = h))|]. intros t h' _ _ ->.
  eapply hspec_bind; [by apply newZeroValue_spec|]. intros z h1 He1 Hh1 [[Hz _] _].
  eapply hspec_bind; [apply Set_spec; [done|done|by eapply val_ok_mono|done]|].
  intros [] h2 He2 Hh2 _. apply hspec_ret; [done|]. by eapply val_ok_mono.
Qed.

Lemma copy_range_spec src dst off i n h :
  heap_ok h -> val_ok h src -> val_ok h dst -> hspec (copy_range src dst off i n) (fun _ _ => True) h.
Proof.
  revert i h. induction n as [|n IH]; intros i h Hh Hs Hd; cbn [copy_range]; [by apply hspec_ret|].
  eapply hspec_bind; [by apply Get_spec|]. intros x h1 He1 Hh1 [Hx Hsc].
  eapply hspec_bind; [apply Set_spec; [done|by eapply val_ok_mono|done|done]|]. intros [] h2 He2 Hh2 _.
  apply IH; [done| |]; (eapply val_ok_mono; [|eassumption]); by transitivity h1.
Qed.

Lemma remove_range_spec src dst e i n h :
  heap_ok h -> val_ok h src -> val_ok h dst -> hspec (remove_range src dst e i n) (fun _ _ => True) h.
Proof.
  revert i h. induction n as [|n IH]; intros i h Hh Hs Hd; cbn [remove_range]; [by apply hspec_ret|].
  eapply hspec_bind; [by apply Get_spec|]. intros x h1 He1 Hh1 [Hx Hsc].
  eapply (hspec_bind _ _ (fun _ h' => h' = h1)); [by apply (hspec_fun (fun h => Compare h x e EQUAL))|].
  intros isEq h' _ _ ->. apply (hspec_bind _ _ (fun _ _ => True)).
  { assert (hspec (len ← gets (fun h => Len h dst); Set_ dst (len + 1) x) (fun _ _ => True) h1) as Hput.
    { eapply hspec_bind; [by apply (hspec_gets _ (fun _ h' => h' = h1))|]. intros len h' _ _ ->.
      apply Set_spec; [done|by eapply val_ok_mono|done|done]. }
    destruct isEq as [[]|]; [by apply hspec_ret|exact Hput..]. }
  intros [] h2 He2 Hh2 _. apply IH; [done| |]; (eapply val_ok_mono; [|eassumption]); by transitivity h1.
Qed.

Lemma Len_range h v : heap_ok h -> is_sint 64 (Len h v).
Proof.
  intros Hh. unfold Len. destruct v as [| |l|]; [const_range..| |const_range].
  destruct (h !! l) as [[|k valid xs cap|n]|] eqn:Hl; [const_range| | |const_range].
  - pose proof (swrap_range 32 (zlen xs) ltac:(lia)) as Hr. unfold is_sint in *. lia.
  - pose proof (Hh _ _ Hl) as Hn. cbn in Hn. unfold is_sint. lia.
Qed.

(** The array functions keep the heap well formed. *)
Lemma array_functions_spec a b h :
  heap_ok h -> val_ok h a -> val_ok h b ->
  hspec (array_length a) (fun r h' => val_ok h' r) h /\
  hspec (array_append a b) (fun r h' => val_ok h' r) h /\
  hspec (array_prepend a b) (fun r h' => val_ok h' r) h /\
  hspec (array_cat a b) (fun r h' => val_ok h' r) h /\
  hspec (array_remove a b) (fun r h' => val_ok h' r) h.
Proof.
  intros Hh Ha Hb.
  assert (forall (f : heap -> DataType) (k : DataType -> action heap sqlval) Q, hspec (k (f h)) Q h -> hspec (gets f ≫= k) Q h) as Hget.
  { intros f k Q Hk. eapply hspec_bind; [by apply (hspec_gets _ (fun a h' => h' = h /\ a = f h))|]. by intros ? h' _ _ [-> ->]. }
  split_and!.
  - unfold array_length. apply hspec_null; [done|]. destruct (Null h a).
    { eapply hspec_mono; [by apply makeNull_spec|]. by intros v h' _ _ [[? _] _]. }
    destruct (is_array a); [|by apply hspec_fail].
    eapply (hspec_bind _ _ (fun n _ => is_sint 64 n)); [|by intros; apply hspec_ret].
    apply hspec_gets; [done|]. by apply Len_range.
  - unfold array_append. apply hspec_null; [done|]. destruct (Null h a); [by apply oneLengthArray_spec|].
    destruct (is_array a); [|by apply hspec_fail]. destruct (is_scalar b) eqn:Es; [|by apply hspec_fail]. cbn [negb].
    apply Hget. apply hspec_null; [done|].
    eapply (hspec_bind _ _ (fun _ h' => h' = h)); [by apply hspec_gets|]. intros n h' _ _ ->. destruct (_ && _).
    + apply makeArray_spec; [done|]. apply Forall_app. split; [by apply Forall_replicate|by constructor].
    + eapply hspec_bind; [by apply copyArray_spec|]. intros c h1 He1 Hh1 Hc.
      eapply (hspec_bind _ _ (fun _ h' => h' = h1)); [by apply hspec_gets|]. intros n2 h' _ _ ->.
      eapply hspec_bind; [apply Set_spec; [done|done|by eapply val_ok_mono|done]|].
      intros [] h2 He2 Hh2 _. apply hspec_ret; [done|]. by eapply val_ok_mono.
  - unfold array_prepend. apply hspec_null; [done|]. destruct (Null h a); [by apply oneLengthArray_spec|].
    destruct (is_array a); [|by apply hspec_fail]. destruct (is_scalar b) eqn:Es; [|by apply hspec_fail]. cbn [negb].
    apply Hget. eapply hspec_bind; [by apply newZeroValue_spec|]. intros z h1 He1 Hh1 [[Hz _] _].
    eapply hspec_bind; [apply Set_spec; [done|done|by eapply val_ok_mono|done]|]. intros [] h2 He2 Hh2 _.
    eapply (hspec_bind _ _ (fun _ h' => h' = h2)); [by apply hspec_gets|]. intros n h' _ _ ->.
    eapply hspec_bind; [apply copy_range_spec; [done| |by eapply val_ok_mono]|].
    { eapply val_ok_mono; [|exact Ha]. by transitivity h1. }
    intros [] h3 He3 Hh3 _. apply hspec_ret; [done|]. eapply val_ok_mono; [|exact Hz]. by transitivity h2.
  - unfold array_cat. apply hspec_null; [done|]. apply hspec_null; [done|].
    destruct (Null h a); [by apply hspec_ret|]. destruct (Null h b); [by apply hspec_ret|].
    destruct (_ || _); [by apply hspec_fail|].
    apply Hget. eapply hspec_bind; [by apply newZeroValue_spec|]. intros z h1 He1 Hh1 [[Hz _] _].
    eapply (hspec_bind _ _ (fun _ h' => h' = h1)); [by apply hspec_gets|]. intros n h' _ _ ->.
    eapply hspec_bind; [apply copy_range_spec; [done|by eapply val_ok_mono|done]|]. intros [] h2 He2 Hh2 _.
    eapply (hspec_bind _ _ (fun _ h' => h' = h2)); [by apply hspec_gets|]. intros m h' _ _ ->.
    eapply hspec_bind; [apply copy_range_spec; [done| |by eapply val_ok_mono]|].
    { eapply val_ok_mono; [|exact Hb]. by transitivity h1. }
    intros [] h3 He3 Hh3 _. apply hspec_ret; [done|]. eapply val_ok_mono; [|exact Hz]. by transitivity h2.
  - unfold array_remove. apply hspec_null; [done|]. destruct (Null h a); [by apply hspec_ret|].
    destruct (is_array a); [|by apply hspec_fail]. destruct (is_scalar b) eqn:Es; [|by apply hspec_fail]. cbn [negb].
    apply Hget. apply Hget. destruct (negb _); [by apply hspec_fail|].
    eapply hspec_bind; [by apply newZeroValue_spec|]. intros z h1 He1 Hh1 [[Hz _] _].
    eapply (hspec_bind _ _ (fun _ h' => h' = h1)); [by apply hspec_gets|]. intros n h' _ _ ->.
    eapply hspec_bind; [apply remove_range_spec; [done|by eapply val_ok_mono|done]|]. intros [] h2 He2 Hh2 _.
    apply hspec_ret; [done|]. by eapply val_ok_mono.
Qed.
End ops.

(** ** Behaviour of the operations *)

Section behaviour.
Context `{Strings} `{HD : Decimals} `{!DecimalArith} `{GoRuntime}.

(** The kinds whose elements a cast to the element type leaves as they are. *)
Definition plain_kind (k : akind) : bool := match k with ADec _ => false | _ => true end.

Lemma typed_null_run k h : plain_kind k = true -> typed_null k h = (Ok (null_sval k), h).
Proof. by destruct k. Qed.

Lemma Cast_same k s h :
  plain_kind k = true -> of_kind k s = true -> sval_null s = false -> Cast (ScalV s) (elem_type k) h = (Ok (ScalV s), h).
Proof. by destruct k, s as [[]|[]|[]|[]|[]|[]]. Qed.

Lemma extendArr_run l k valid xs cap i h :
  plain_kind k = true -> h !! l = Some (CArr k valid xs cap) ->
  exists cap', extendArr l k xs cap i h =
    (Ok tt, <[l := CArr k (valid || (i >? zlen xs)) (xs ++ replicate (Z.to_nat (i - zlen xs)) (null_sval k)) cap']> h).
Proof.
  intros Hk Hl. unfold extendArr. destruct (i >? zlen xs) eqn:Egt.
  - destruct (_ && _) eqn:Efast.
    + exists cap. rewrite orb_true_r. unfold store_cell, modify. do 4 f_equal.
      replace (Z.to_nat (i - zlen xs)) with 1%nat by lia. by destruct k.
    + eexists. rewrite orb_true_r. unfold mbind, action_bind. rewrite typed_null_run by done. unfold store_cell, modify.
      do 4 f_equal. by destruct k.
  - exists cap. replace (Z.to_nat (i - zlen xs)) with 0%nat by lia. cbn. rewrite app_nil_r, orb_false_r.
    by rewrite list_insert_id.
Qed.

Lemma list_insert_twice {A} (l : list A) i x y : <[i:=x]> (<[i:=y]> l) = <[i:=x]> l.
Proof. apply list_insert_insert_eq. Qed.

(** What [Set_] does to an array of a kind other than numeric. *)
Lemma Set_run l k valid xs cap s i h :
  h !! l = Some (CArr k valid xs cap) -> plain_kind k = true -> of_kind k s = true -> sval_null s = false ->
  1 <= i <= maxArrayLen ->
  exists cap', Set_ (ArrV l) i (ScalV s) h =
    (Ok tt, <[l := CArr k (valid || (i >? zlen xs)) (<[Z.to_nat (i - 1) := s]> (xs ++ replicate (Z.to_nat (i - zlen xs)) (null_sval k))) cap']> h).
Proof.
  intros Hl Hk Hs Hn Hi. pose proof (lookup_lt_Some _ _ _ Hl) as Hlt.
  destruct (extendArr_run l k valid xs cap i h Hk Hl) as (cap' & Eext).
  exists cap'. unfold Set_, set_cell, setArr, mbind, action_bind, gets. rewrite Hl. cbv beta iota. rewrite Hl. cbv beta iota.
  assert (dec_meta_ok k (ScalV s) = true) as -> by by destruct k. cbn [negb].
  assert ((i <? 1) || (i >? maxArrayLen) = false) as -> by lia.
  rewrite Eext. cbn [Null]. rewrite Hn. rewrite Cast_same by done. rewrite Hs.
  unfold put_elem, mbind, action_bind, gets. rewrite list_lookup_insert_eq by done.
  unfold store_cell, modify. rewrite list_insert_twice. do 4 f_equal. by destruct s; destruct k.
Qed.

Lemma Get_run l k valid xs cap i h :
  heap_ok h -> h !! l = Some (CArr k valid xs cap) -> 1 <= i <= zlen xs ->
  exists s, xs !! Z.to_nat (i - 1) = Some s /\ Get (ArrV l) i h = (Ok (ScalV (elem_sval k s)), h).
Proof.
  intros Hh Hl Hi. destruct (Hh _ _ Hl) as [Hlen _].
  destruct (lookup_lt_is_Some_2 xs (Z.to_nat (i - 1))) as [s Hs]; [unfold zlen in *; lia|].
  exists s. split; [done|]. cbn [Get]. unfold mbind, action_bind, gets. rewrite Hl. unfold getArr.
  rewrite swrap_small by (try lia; unfold is_sint, zlen in *; lia).
  assert ((i <? 1) || (i >? zlen xs) = false) as -> by lia. by rewrite Hs.
Qed.

Lemma elem_sval_plain k s : plain_kind k = true -> elem_sval k s = s.
Proof. by destruct k. Qed.

(** C30. An assignment of a value that is not null and has the element type
    itself (no cast) to an element of an integer, text, boolean, bytea or uuid array
    is read back (arrays of numerics and of untyped nulls are not covered): for an
    index from 1 to [maxArrayLen] it succeeds, the array then has the larger of its old length and the index, the element at the index
    is the value assigned, the other old elements are unchanged, and the gap is
    filled with nulls of the element type.  No other cell of the heap
    changes. *)
Theorem set_then_get l k valid xs cap s i h :
  heap_ok h -> h !! l = Some (CArr k valid xs cap) -> plain_kind k = true ->
  of_kind k s = true -> sval_ok h s -> sval_null s = false -> 1 <= i <= maxArrayLen ->
  exists h', Set_ (ArrV l) i (ScalV s) h = (Ok tt, h') /\
    Len h' (ArrV l) = Z.max (zlen xs) i /\
    (forall l', l' <> l -> h' !! l' = h !! l') /\
    forall j, 1 <= j <= Z.max (zlen xs) i ->
      Get (ArrV l) j h' = (Ok (ScalV (if j =? i then s else default (null_sval k) (xs !! Z.to_nat (j - 1)))), h').
Proof.
  intros Hh Hl Hk Hs Hok Hn Hi. pose proof (lookup_lt_Some _ _ _ Hl) as Hlt.
  destruct (Set_run l k valid xs cap s i h Hl Hk Hs Hn Hi) as (cap' & E).
  set (valid' := valid || (i >? zlen xs)) in *.
  destruct (Hh _ _ Hl) as [Hlen Hxs]. unfold maxArrayLen in Hi.
  eexists. split; [exact E|].
  set (ys := xs ++ replicate (Z.to_nat (i - zlen xs)) (null_sval k)).
  assert (zlen ys = Z.max (zlen xs) i) as Hys.
  { unfold ys. rewrite zlen_app. unfold zlen at 2. rewrite length_replicate. lia. }
  assert (zlen (<[Z.to_nat (i - 1):=s]> ys) = Z.max (zlen xs) i) as Hys'.
  { rewrite <- Hys. unfold zlen. by rewrite length_insert. }
  set (h' := <[l:=CArr k valid' (<[Z.to_nat (i - 1):=s]> ys) cap']> h).
  assert (h' !! l = Some (CArr k valid' (<[Z.to_nat (i - 1):=s]> ys) cap')) as Hl' by by apply list_lookup_insert_eq.
  assert (heap_ok h') as Hh'.
  { eapply heap_ok_store; [done|done|done|]. split; [lia|]. apply list.Forall_insert; [|done].
    apply Forall_app. split; [done|]. apply Forall_replicate. split; [by destruct k|apply null_sval_ok]. }
  split_and!.
  - cbn. rewrite Hl'. rewrite swrap_small; [done|lia|]. unfold is_sint. lia.
  - intros l' Hne. by apply list_lookup_insert_ne.
  - intros j Hj. destruct (Get_run l k valid' _ cap' j h' Hh' Hl' ltac:(lia)) as (x & Hx & ->).
    rewrite elem_sval_plain by done. do 3 f_equal. destruct (Z.eqb_spec j i) as [->|Hne].
    + rewrite list_lookup_insert_eq in Hx by (unfold zlen in *; lia). congruence.
    + rewrite list_lookup_insert_ne in Hx by lia. unfold ys in Hx. apply lookup_app_Some in Hx as [Hx|[Hge Hx]].
      * by rewrite Hx.
      * apply lookup_replicate in Hx as [-> _]. by rewrite (lookup_ge_None_2 xs) by lia.
Qed.

(** An index outside the array is an error, although the comment in [getArr]
    says that it gives null. *)
Theorem get_out_of_range_fails l k valid xs cap i h :
  heap_ok h -> h !! l = Some (CArr k valid xs cap) -> i < 1 \/ zlen xs < i ->
  exists e h', Get (ArrV l) i h = (Err e, h').
Proof.
  intros Hh Hl Hi. destruct (Hh _ _ Hl) as [Hlen _]. cbn [Get]. unfold mbind, action_bind, gets. rewrite Hl.
  unfold getArr. rewrite swrap_small by (try lia; unfold is_sint, zlen in *; lia).
  assert ((i <? 1) || (i >? zlen xs) = true) as -> by lia. unfold mbind, action_bind.
  destruct (makeNull _ h) as [[v|e] h']; [by eexists _, h'|by exists e, h'].
Qed.

(** *** Cells that an operation leaves alone *)

(** The first [n] cells are unchanged. *)
Definition frame (n : nat) (h h' : heap) : Prop :=
  (n <= length h)%nat -> (n <= length h')%nat /\ forall l, (l < n)%nat -> h' !! l = h !! l.

#[export] Instance frame_preorder n : PreOrder (frame n).
Proof.
  split; [by intros h ?|]. intros h1 h2 h3 H12 H23 Hn. destruct (H12 Hn) as [Hn2 E12].
  destruct (H23 Hn2) as [Hn3 E23]. split; [done|]. intros l Hl. by rewrite E23, E12.
Qed.

Lemma alloc_frame n c : acts (frame n) (alloc c).
Proof.
  intros h Hn. cbn. rewrite length_app. split; [lia|]. intros l Hl. by rewrite lookup_app_l by lia.
Qed.

Lemma store_frame n l c : (n <= l)%nat -> acts (frame n) (store_cell l c).
Proof.
  intros Hnl h Hn. cbn. rewrite length_insert. split; [done|]. intros l' Hl'. apply list_lookup_insert_ne. lia.
Qed.

#[local] Hint Resolve alloc_frame : acts.

Lemma alloc_bytes_frame n b cap : acts (frame n) (alloc_bytes b cap).
Proof. unfold alloc_bytes. act. Qed.

#[local] Hint Resolve alloc_bytes_frame : acts.

Lemma makeNull_frame n t : acts (frame n) (makeNull t).
Proof. unfold makeNull. act. Qed.

Lemma zero_sval_frame n k : acts (frame n) (zero_sval k).
Proof. unfold zero_sval. act. Qed.

#[local] Hint Resolve makeNull_frame zero_sval_frame : acts.

Lemma newZeroValue_frame n t : acts (frame n) (newZeroValue t).
Proof. unfold newZeroValue. act. Qed.

Lemma cast_sval_frame n s t : acts (frame n) (cast_sval s t).
Proof. unfold cast_sval, cast_int8, cast_text, cast_bool, cast_blob, cast_uuid, cast_decimal, cast_opt, cast_res, cast_fail, parse_dec, cast_res, cast_fail. act. Qed.

#[local] Hint Resolve newZeroValue_frame cast_sval_frame : acts.

Lemma castArr_frame n get k xs :
  (forall s, acts (frame n) (get s)) -> acts (frame n) (castArr get k xs).
Proof.
  intros Hg. unfold castArr. assert (acts (frame n) (cast_elems get k xs)) as Hc by (induction xs; cbn; act; auto).
  act.
Qed.

#[local] Hint Extern 5 (acts _ (castArr _ _ _)) =>
  apply castArr_frame; intros; unfold raw_dec, cast_res, cast_fail; act : acts.

Lemma cast_array_frame n l k xs t : acts (frame n) (cast_array l k xs t).
Proof. unfold cast_array, cast_int8_array, cast_text_array, cast_bool_array, cast_blob_array, cast_uuid_array, cast_decimal_array, cast_elem, cast_fail. destruct k; act. Qed.

#[local] Hint Resolve cast_array_frame : acts.

Lemma Cast_frame n v t : acts (frame n) (Cast v t).
Proof. unfold Cast, cast_nulls, cast_fail. act. Qed.

#[local] Hint Resolve Cast_frame : acts.

Lemma set_cell_frame n l i v : (n <= l)%nat -> acts (frame n) (set_cell l i v).
Proof.
  intros Hl. pose proof (fun c => store_frame n l c Hl) as Hst.
  unfold set_cell, setArr, extendArr, typed_null, put_elem, nil_deref. act.
Qed.

Lemma set_nulls_frame n l m : (n <= l)%nat -> acts (frame n) (set_nulls l m).
Proof. intros Hl. pose proof (fun i v => set_cell_frame n l i v Hl). induction m; cbn; act. Qed.

(** [newZeroValue] of an array type allocates it. *)
Lemma newZeroValue_fresh t h l h' : newZeroValue (array_type t) h = (Ok (ArrV l), h') -> (length h <= l)%nat.
Proof.
  unfold newZeroValue, array_type. cbn [IsArray]. destruct (kind_named _).
  - cbn. intros [= <- _]. lia.
  - destruct (bool_decide _); [|done]. cbn. intros [= <- _]. lia.
Qed.

Lemma acts_run {A} (R : relation heap) (m : action heap A) h r h' : acts R m -> m h = (r, h') -> R h h'.
Proof. intros Hm E. specialize (Hm h). by rewrite E in Hm. Qed.

(** An element that is not null is lost when it is stored into an untyped
    array of nulls: [arrayOfNulls.Set] builds the typed array and drops it, so
    after a successful assignment the array is still the array of nulls, and its
    elements are read as null. *)
Theorem nulls_set_lost l n s i h h' :
  h !! l = Some (CNulls n) -> sval_null s = false ->
  Set_ (ArrV l) i (ScalV s) h = (Ok tt, h') ->
  h' !! l = Some (CNulls n) /\ forall j, Get (ArrV l) j h' = (Ok NullV, h').
Proof.
  intros Hl Hn E. assert (h' !! l = Some (CNulls n)) as Hl'; [|split; [done|]; intros j; cbn; unfold mbind, action_bind, gets; by rewrite Hl'].
  revert E. cbn [Set_]. unfold mbind at 1, action_bind at 1, gets at 1. rewrite Hl.
  unfold set_arrayOfNulls. destruct (_ || _); [done|]. unfold mbind at 1, action_bind at 1, gets at 1. cbn [Null].
  rewrite Hn. unfold mbind at 1, action_bind at 1, gets at 1.
  intros (nv & h1 & Ez & E)%action_bind_inv. pose proof (lookup_lt_Some _ _ _ Hl) as Hlt.
  destruct (acts_run _ _ _ _ _ (newZeroValue_frame (length h) _) Ez ltac:(done)) as [Hn1 E1].
  destruct nv as [| |l'|]; try done. pose proof (newZeroValue_fresh _ _ _ _ Ez) as Hl'.
  apply action_bind_inv in E as ([] & h2 & E2 & E3).
  destruct (acts_run _ _ _ _ _ (set_nulls_frame (length h) l' _ Hl') E2 Hn1) as [Hn2 E2'].
  destruct (acts_run _ _ _ _ _ (set_cell_frame (length h) l' _ _ Hl') E3 Hn2) as [_ E3'].
  by rewrite E3', E2', E1 by done.
Qed.

(** Concatenating blobs overwrites earlier results.  [append] on a blob whose
    slice has spare capacity writes into the backing array of the blob, so when
    two values [b] and [c] of the same length are appended to the same blob, the
    first concatenation, whose content is right when it is made, reads as the
    second one afterwards. *)
Theorem blob_concat_shares a b c h :
  heap_ok h -> slice_ok h a -> slice_ok h b -> slice_ok h c -> gs_len b = gs_len c ->
  (gs_len a + gs_len b <= gs_cap a)%nat -> gs_loc b <> gs_loc a -> gs_loc c <> gs_loc a ->
  exists r1 r2 h1 h2,
    Arithmetic (ScalV (SvBlob (Some a))) (ScalV (SvBlob (Some b))) CONCAT h = (Ok (ScalV (SvBlob (Some r1))), h1) /\
    blob_bytes h1 r1 = blob_bytes h a ++ blob_bytes h b /\
    Arithmetic (ScalV (SvBlob (Some a))) (ScalV (SvBlob (Some c))) CONCAT h1 = (Ok (ScalV (SvBlob (Some r2))), h2) /\
    blob_bytes h2 r1 = blob_bytes h a ++ blob_bytes h c.
Proof.
  intros Hh Ha Hb Hc Hlen Hcap Hnb Hnc.
  assert (forall d h0, heap_ok h0 -> slice_ok h0 a -> slice_ok h0 d -> gs_len d = gs_len b -> exists h',
    Arithmetic (ScalV (SvBlob (Some a))) (ScalV (SvBlob (Some d))) CONCAT h0 =
      (Ok (ScalV (SvBlob (Some (mkGSlice (gs_loc a) (gs_len a + gs_len b) (gs_cap a))))), h') /\
    heap_ok h' /\ slice_ok h' a /\ blob_bytes h' (mkGSlice (gs_loc a) (gs_len a + gs_len b) (gs_cap a)) = blob_bytes h0 a ++ blob_bytes h0 d /\
    blob_bytes h' a = blob_bytes h0 a /\ hext h0 h' /\ forall l, l <> gs_loc a -> h' !! l = h0 !! l) as Hcat.
  { intros d h0 Hh0 Ha0 Hd Hld. pose proof (append_bytes_spec a (blob_bytes h0 d) h0 Hh0 Ha0) as (He & Hok & Hq).
    pose proof (blob_bytes_length h0 d Hd) as Hbl. pose proof Ha0 as (back & Hl & _).
    exists (snd (append_bytes a (blob_bytes h0 d) h0)).
    assert (append_bytes a (blob_bytes h0 d) h0 =
      (Ok (mkGSlice (gs_loc a) (gs_len a + gs_len b) (gs_cap a)), snd (append_bytes a (blob_bytes h0 d) h0))) as Er.
    { unfold append_bytes. rewrite decide_True by lia. rewrite Hl. cbn. repeat f_equal. lia. }
    rewrite Er in Hq. cbn [fst snd] in Hq. destruct Hq as (_ & Hq1 & Hq2). split_and!; try done.
    - cbn -[append_bytes]. unfold mbind, action_bind, gets. by rewrite Er.
    - by eapply slice_ok_mono.
    - intros l Hne. unfold append_bytes. rewrite decide_True by lia. rewrite Hl. cbn. by apply list_lookup_insert_ne. }
  destruct (Hcat b h) as (h1 & E1 & Hh1 & Ha1 & Hr1 & Hba & He1 & Hkeep); [done..|].
  destruct (Hcat c h1) as (h2 & E2 & _ & _ & Hr2 & _); [done|done|by eapply slice_ok_mono|done|].
  do 4 eexists. split_and!; [exact E1|done|exact E2|]. rewrite Hr2, Hba. f_equal.
  unfold blob_bytes. by rewrite Hkeep.
Qed.

(** *** The array functions do not change their arguments *)

Lemma copy_elems_frame n xs : acts (frame n) (copy_elems xs).
Proof. induction xs as [|[| | |[]| |] xs IH]; cbn; act. Qed.

#[local] Hint Resolve copy_elems_frame : acts.

Lemma copyArray_frame n v : acts (frame n) (copyArray v).
Proof. unfold copyArray, nil_deref. act. Qed.

Lemma copyArray_fresh l h v h' : copyArray (ArrV l) h = (Ok v, h') -> Null h (ArrV l) = false ->
  exists l', v = ArrV l' /\ (length h <= l')%nat.
Proof.
  intros E Hn. revert E. unfold copyArray. unfold mbind at 1, action_bind at 1, gets at 1. rewrite Hn.
  unfold mbind at 1, action_bind at 1, gets at 1. destruct (h !! l) as [[|k valid xs cap|n]|]; [done| | |done].
  - intros (ys & h1 & E1 & E)%action_bind_inv. cbn in E. injection E as <- <-. eexists. split; [done|].
    apply (acts_run _ _ _ _ _ (copy_elems_frame (length h) xs) E1). done.
  - cbn. intros [= <- <-]. by eexists.
Qed.

Lemma copy_elems_plain k xs h :
  plain_kind k = true -> k <> ABlob -> Forall (fun s => of_kind k s = true) xs -> copy_elems xs h = (Ok xs, h).
Proof.
  intros Hk Hb. revert h. induction xs as [|x xs IH]; intros h Hxs; [done|]. apply list.Forall_cons in Hxs as [Hx Hxs].
  destruct x as [| | |[]| |]; cbn; try (unfold mbind, action_bind; by rewrite IH). by destruct k.
Qed.

(** [array_append] builds a new array: on an integer, text, boolean or uuid
    array below the length limit it returns a fresh array with the old elements
    and the new one behind them, and no cell that existed before changes, the
    argument included. *)
Theorem array_append_pure l k xs cap s h :
  heap_ok h -> h !! l = Some (CArr k true xs cap) -> plain_kind k = true -> k <> ABlob ->
  of_kind k s = true -> sval_null s = false -> zlen xs < maxArrayLen ->
  exists l' cap' h', array_append (ArrV l) (ScalV s) h = (Ok (ArrV l'), h') /\
    (length h <= l')%nat /\ h' !! l' = Some (CArr k true (xs ++ [s]) cap') /\
    forall l0, (l0 < length h)%nat -> h' !! l0 = h !! l0.
Proof.
  intros Hh Hl Hk Hb Hs Hn Hlen. destruct (Hh _ _ Hl) as [Hlen' Hxs].
  assert (i32 (zlen xs) = zlen xs) as Ei by (apply swrap_small; [lia|unfold is_sint, zlen in *; lia]).
  assert (copyArray (ArrV l) h = (Ok (ArrV (length h)), h ++ [CArr k true xs (zlen xs + 1)])) as Ec.
  { unfold copyArray, mbind, action_bind, gets. cbn [Null]. cbv beta iota. rewrite Hl. cbn [negb]. cbv beta iota. rewrite Hl. cbv beta iota.
    rewrite (copy_elems_plain k); [done|done|done|]. eapply list.Forall_impl; [exact Hxs|]. by intros ? [? ?]. }
  assert (Null h (ArrV l) = false) as En by (cbn; by rewrite Hl).
  assert (bool_decide (Type_of h (ArrV l) = NullArrayType) = false) as Et.
  { apply bool_decide_eq_false_2. cbn. rewrite Hl. intros E%(f_equal dt_Name). by destruct k. }
  set (h1 := h ++ [CArr k true xs (zlen xs + 1)]) in *.
  assert (h1 !! length h = Some (CArr k true xs (zlen xs + 1))) as Hl1 by apply lookup_alloc.
  destruct (Set_run (length h) k true xs (zlen xs + 1) s (zlen xs + 1) h1) as (cap' & Es); [done..|unfold zlen in *; lia|].
  replace (Z.to_nat (zlen xs + 1 - zlen xs)) with 1%nat in Es by lia. cbn [orb replicate] in Es.
  replace (<[Z.to_nat (zlen xs + 1 - 1):=s]> (xs ++ [null_sval k])) with (xs ++ [s]) in Es.
  2: { replace (Z.to_nat (zlen xs + 1 - 1)) with (length xs + 0)%nat by (unfold zlen; lia). by rewrite insert_app_r. }
  exists (length h), cap', (<[length h:=CArr k true (xs ++ [s]) cap']> h1). split_and!.
  - unfold array_append, mbind, action_bind, len_of, gets. cbv beta iota. rewrite En.
    cbn [is_array is_scalar negb]. cbv beta iota. rewrite Et. cbn [andb]. rewrite Ec. cbv beta iota. cbn [Len]. rewrite Hl1, Ei. by rewrite Es.
  - done.
  - apply list_lookup_insert_eq. by eapply lookup_lt_Some.
  - intros l0 Hl0. rewrite list_lookup_insert_ne by lia. unfold h1. by apply lookup_app_l.
Qed.

(** *** Comparison *)

Lemma bytes_lt_irrefl a : bytes_lt a a = false.
Proof. induction a as [|x a IH]; [done|]. cbn. rewrite Z.ltb_irrefl, Z.eqb_refl. by rewrite IH. Qed.

Lemma Z_of_byte_inj' x y : Z_of_byte x = Z_of_byte y -> x = y.
Proof. unfold Z_of_byte. intros E%N2Z.inj. apply (f_equal Byte.of_N) in E. rewrite !Byte.of_to_N in E. congruence. Qed.

Lemma bytes_lt_trichotomy a b :
  (bytes_lt a b = true /\ a <> b /\ bytes_lt b a = false) \/
  (bytes_lt a b = false /\ a = b /\ bytes_lt b a = false) \/
  (bytes_lt a b = false /\ a <> b /\ bytes_lt b a = true).
Proof.
  revert b. induction a as [|x a IH]; intros [|y b]; cbn; [tauto|by left|by right; right|].
  destruct (Z.lt_trichotomy (Z_of_byte x) (Z_of_byte y)) as [Hl|[He|Hg]].
  - left. replace (Z_of_byte x <? Z_of_byte y) with true by lia. replace (Z_of_byte y <? Z_of_byte x) with false by lia.
    replace (Z_of_byte y =? Z_of_byte x) with false by lia. split_and!; [done| |done]. intros [= -> _]. lia.
  - apply Z_of_byte_inj' in He as ->. rewrite Z.ltb_irrefl, Z.eqb_refl. cbn.
    destruct (IH b) as [(? & ? & ?)|[(? & -> & ?)|(? & ? & ?)]]; [left|right; left|right; right]; split_and!; congruence.
  - right; right. replace (Z_of_byte x <? Z_of_byte y) with false by lia. replace (Z_of_byte y <? Z_of_byte x) with true by lia.
    replace (Z_of_byte x =? Z_of_byte y) with false by lia. split_and!; [done| |done]. intros [= -> _]. lia.
Qed.

(** Two values of one of the types that have an order. *)
Definition orderable (s s2 : sval) : bool :=
  match s, s2 with
  | SvInt (Some _), SvInt (Some _) | SvText (Some _), SvText (Some _) | SvBool (Some _), SvBool (Some _) => true
  | _, _ => false
  end.

(** Comparison is three-valued and total.  With an operand that is null, [=],
    [<] and [>] give null while IS and IS DISTINCT FROM give a truth value; on two
    integers, texts or booleans that are not null exactly one of [<], [=] and [>]
    holds, [=] holds exactly on equal values, IS DISTINCT FROM is its negation,
    and [>] is [<] with the operands exchanged. *)
Theorem comparison_total h s s2 :
  (sval_null s || sval_null s2 = true ->
     Compare h (ScalV s) (ScalV s2) EQUAL = Ok None /\
     Compare h (ScalV s) (ScalV s2) LESS_THAN = Ok None /\
     Compare h (ScalV s) (ScalV s2) GREATER_THAN = Ok None /\
     Compare h (ScalV s) (ScalV s2) IS = Ok (Some (sval_null s && sval_null s2)) /\
     Compare h (ScalV s) (ScalV s2) IS_DISTINCT_FROM = Ok (Some (negb (sval_null s && sval_null s2)))) /\
  (orderable s s2 = true -> exists lt eq gt : bool,
     Compare h (ScalV s) (ScalV s2) LESS_THAN = Ok (Some lt) /\
     Compare h (ScalV s) (ScalV s2) EQUAL = Ok (Some eq) /\
     Compare h (ScalV s) (ScalV s2) GREATER_THAN = Ok (Some gt) /\
     Compare h (ScalV s) (ScalV s2) IS_DISTINCT_FROM = Ok (Some (negb eq)) /\
     Compare h (ScalV s2) (ScalV s) LESS_THAN = Ok (Some gt) /\
     (eq = true <-> s = s2) /\
     ((lt, eq, gt) = (true, false, false) \/ (lt, eq, gt) = (false, true, false) \/ (lt, eq, gt) = (false, false, true))).
Proof.
  split.
  - intros Hn. cbn [Compare Null]. unfold nullCmp. by destruct (sval_null s), (sval_null s2).
  - intros Ho. destruct s as [[a|]|[a|]|[a|]| | |], s2 as [[b|]|[b|]|[b|]| | |]; try done; cbn.
    + exists (a <? b), (a =? b), (b <? a). split_and!; try done.
      * rewrite Z.eqb_eq. split; [by intros ->|by intros [= ->]].
      * destruct (Z.lt_trichotomy a b) as [?|[->|?]].
        -- left. replace (a <? b) with true by lia. replace (a =? b) with false by lia. by replace (b <? a) with false by lia.
        -- right; left. by rewrite Z.ltb_irrefl, Z.eqb_refl.
        -- right; right. replace (a <? b) with false by lia. replace (a =? b) with false by lia. by replace (b <? a) with true by lia.
    + exists (bytes_lt a b), (bool_decide (a = b)), (bytes_lt b a). split_and!; try done.
      * rewrite bool_decide_eq_true. split; [by intros ->|by intros [= ->]].
      * destruct (bytes_lt_trichotomy a b) as [(-> & Hne & ->)|[(-> & -> & ->)|(-> & Hne & ->)]].
        -- rewrite bool_decide_eq_false_2 by done. tauto.
        -- rewrite bool_decide_eq_true_2 by done. tauto.
        -- rewrite bool_decide_eq_false_2 by done. tauto.
    + exists (negb a && b), (Bool.eqb a b), (a && negb b). split_and!; try done.
      * by rewrite andb_comm.
      * rewrite eqb_true_iff. split; [by intros ->|by intros [= ->]].
      * destruct a, b; cbn; tauto.
Qed.

(** *** Integers *)

(** Integer arithmetic is exact where the result fits 64 bits and wraps
    around otherwise; division and modulo by zero are the only failures of the
    four operations, and an error, not a panic. *)
Theorem int_arith_exact a b :
  is_sint 64 a -> is_sint 64 b ->
  (forall op f, (op, f) ∈ [(ADD, Z.add); (SUB, Z.sub); (MUL, Z.mul)] ->
     exists r, int_arith a b op = Ok r /\ is_sint 64 r /\ r mod 2 ^ 64 = f a b mod 2 ^ 64 /\
       (is_sint 64 (f a b) -> r = f a b)) /\
  (b <> 0 -> int_arith a b MOD = Ok (Z.rem a b) /\
     (a <> - 2 ^ 63 \/ b <> - 1 -> int_arith a b DIV = Ok (Z.quot a b)) /\
     (a = - 2 ^ 63 -> b = - 1 -> int_arith a b DIV = Ok a)) /\
  (b = 0 -> int_arith a b DIV = Err ErrArithmetic /\ int_arith a b MOD = Err ErrArithmetic).
Proof.
  intros Ha Hb. split_and!.
  - assert (forall z, is_sint 64 (i64 z) /\ i64 z mod 2 ^ 64 = z mod 2 ^ 64 /\ (is_sint 64 z -> i64 z = z)) as Hw.
    { intros z. split_and!; [by apply swrap_range|by apply (uwrap_swrap 64)|by apply swrap_small]. }
    intros op f Hin. destruct (Hw (f a b)) as (? & ? & ?).
    repeat (apply elem_of_cons in Hin as [[= -> ->]|Hin]; [by eexists|]). by apply elem_of_nil in Hin.
  - intros Hb0. unfold int_arith. replace (b =? 0) with false by lia.
    pose proof (Z.rem_bound_abs a b Hb0) as Hrem. pose proof (Z.quot_rem' a b) as Hqr.
    assert (forall z, is_sint 64 z -> i64 z = z) as Hs by (intros; by apply swrap_small).
    split_and!.
    + rewrite Hs; [done|]. unfold is_sint in *. lia.
    + intros Hne. rewrite Hs; [done|]. unfold is_sint in *.
      assert (Z.abs (Z.quot a b) <= Z.abs a) as Hq.
      { rewrite <- Z.quot_abs by done. apply Z.quot_le_upper_bound; nia. }
      destruct (decide (b = 1 \/ b = -1)) as [[->| ->]|Hb1].
      * rewrite Z.quot_1_r. lia.
      * change (-1) with (- (1)). rewrite Z.quot_opp_r, Z.quot_1_r by lia. lia.
      * lia.
    + intros -> ->. reflexivity.
  - intros ->. done.
Qed.

(** *** Casts and back *)

(** The casts that print a value are undone by the casts that parse it: an
    integer or a boolean through text, and a text through bytea, whatever the
    capacity the runtime chooses. *)
Theorem cast_roundtrip h :
  heap_ok h ->
  (forall z, is_sint 64 z -> (v ← Cast (ScalV (SvInt (Some z))) TextType; Cast v IntType) h = (Ok (ScalV (SvInt (Some z))), h)) /\
  (forall b, (v ← Cast (ScalV (SvBool (Some b))) TextType; Cast v BoolType) h = (Ok (ScalV (SvBool (Some b))), h)) /\
  (forall x, fst ((v ← Cast (ScalV (SvText (Some x))) ByteaType; Cast v TextType) h) = Ok (ScalV (SvText (Some x)))).
Proof.
  intros Hh. split_and!.
  - intros z Hz. assert (Cast (ScalV (SvText (Some (big_String z)))) IntType h = (Ok (ScalV (SvInt (Some z))), h)) as E.
    { assert (Atoi (big_String z) = Some z) as Ez by (unfold Atoi; by rewrite SetString_String, bool_decide_eq_true_2).
      cbn -[Atoi big_String]. unfold cast_text. cbn -[Atoi big_String]. unfold mbind, action_bind. by rewrite Ez. }
    exact E.
  - by intros [].
  - intros x.
    pose proof (hspec_alloc_bytes x (bytes_cap (length x)) (fun s h' => blob_bytes h' s = x) h Hh (bytes_cap_ge _) ltac:(done)) as (_ & _ & Hq).
    destruct (alloc_bytes x (bytes_cap (length x)) h) as [[g|e] h'] eqn:E; [|done]. cbn -[blob_bytes] in Hq.
    assert (Cast (ScalV (SvText (Some x))) ByteaType h = (Ok (ScalV (SvBlob (Some g))), h')) as E1.
    { transitivity ((g ← alloc_bytes x (bytes_cap (length x)); mret (ScalV (SvBlob (Some g)))) h); [reflexivity|].
      unfold mbind, action_bind. by rewrite E. }
    rewrite (action_bind_Ok _ _ _ _ _ E1).
    change (fst (Cast (ScalV (SvBlob (Some g))) TextType h')) with (Ok (ScalV (SvText (Some (blob_bytes h' g))))).
    by rewrite Hq.
Qed.
End behaviour.
