(* ===== verification/Roles.v ===== *)
(** * Roles and privileges

    The access controller of src/node/engine/interpreter/roles.go: the roles,
    their privileges and their users in memory, the tables of schema.sql that hold
    them, the operations that change both, and the loading of the first from the
    second when a node starts.

    The tables are identified by what their keys mean: a namespace by its name
    (its rows of role_privileges are deleted with it), a role by its number, since
    a row of user_roles has no foreign key and outlives its role. *)

From S2P Require Import Prelude.
From Stdlib Require Import Strings.Byte.

#[local] Open Scope Z_scope.

Definition ErrBuiltInRole : error := ErrSentinel "invalid operation on built-in role".
Definition ErrCannotBeNamespaced : error := ErrSentinel "the selected object is global-only, and cannot be namespaced".
Definition ErrDoesNotHavePrivilege : error := ErrSentinel "user does not have privilege".

Inductive privilege :=
  | CALL_PRIVILEGE | SELECT_PRIVILEGE | INSERT_PRIVILEGE | UPDATE_PRIVILEGE | DELETE_PRIVILEGE
  | CREATE_PRIVILEGE | DROP_PRIVILEGE | USE_PRIVILEGE | ALTER_PRIVILEGE | ROLES_PRIVILEGE.

#[export] Instance privilege_eq_decision : EqDecision privilege.
Proof. solve_decision. Defined.

Definition privileges : list privilege :=
  [CALL_PRIVILEGE; SELECT_PRIVILEGE; INSERT_PRIVILEGE; UPDATE_PRIVILEGE; DELETE_PRIVILEGE;
   CREATE_PRIVILEGE; DROP_PRIVILEGE; USE_PRIVILEGE; ALTER_PRIVILEGE; ROLES_PRIVILEGE].

#[export] Instance privilege_countable : Countable privilege.
Proof.
  refine (inj_countable (fun p => match list_find (p =.) privileges with Some (i, _) => i | None => O end)
            (fun i => privileges !! i) _).
  by intros [].
Defined.

Definition ownerRole : bytes := str "owner".
Definition defaultRole : bytes := str "default".

Definition isBuiltInRole (role : bytes) : bool := bool_decide (role = ownerRole) || bool_decide (role = defaultRole).

(** ** Permissions of a role *)

Record perms := mkPerms {
  namespacePrivileges : gmap (list byte) (gset privilege);
  globalPrivileges : gset privilege;
  namespaceDenials : gmap (list byte) (gset privilege)
}.

Definition canDo (p : perms) (priv : privilege) (namespace : option bytes) : bool :=
  match namespace with
  | None => bool_decide (priv ∈ globalPrivileges p)
  | Some ns =>
      match namespacePrivileges p !! ns with
      | None => false
      | Some np => bool_decide (priv ∈ np)
      end
  end.

Definition clearDenial (p : perms) (ns : bytes) (priv : privilege) : perms :=
  match namespaceDenials p !! ns with
  | None => p
  | Some denied =>
      let denied := denied ∖ {[priv]} in
      mkPerms (namespacePrivileges p) (globalPrivileges p)
        (if bool_decide (denied = ∅) then delete ns (namespaceDenials p) else <[ns := denied]> (namespaceDenials p))
  end.

Definition deny (p : perms) (ns : bytes) (priv : privilege) : perms :=
  mkPerms (namespacePrivileges p) (globalPrivileges p)
    (<[ns := {[priv]} ∪ default ∅ (namespaceDenials p !! ns)]> (namespaceDenials p)).

Definition set_np (p : perms) (ns : bytes) (np : gset privilege) : perms :=
  mkPerms (<[ns := np]> (namespacePrivileges p)) (globalPrivileges p) (namespaceDenials p).

(** [np] is the map that [namespacePrivileges] holds, changed in place. *)
Fixpoint grant_each (p : perms) (ns : bytes) (np : gset privilege) (privs : list privilege) : perms :=
  match privs with
  | [] => p
  | priv :: privs' =>
      let np := {[priv]} ∪ np in
      grant_each (clearDenial (set_np p ns np) ns priv) ns np privs'
  end.

Definition grant (namespace : option bytes) (privs : list privilege) (p : perms) : result perms :=
  match namespace with
  | None =>
      Ok (mkPerms
        (map_imap (fun ns np => Some (np ∪ (list_to_set privs ∖ default ∅ (namespaceDenials p !! ns)))) (namespacePrivileges p))
        (globalPrivileges p ∪ list_to_set privs)
        (namespaceDenials p))
  | Some ns =>
      match namespacePrivileges p !! ns with
      | None => Err (ErrPanic "unexpected error: namespace does not exist: ")
      | Some np => Ok (grant_each p ns np privs)
      end
  end.

Fixpoint revoke_each (p : perms) (ns : bytes) (np : gset privilege) (privs : list privilege) : perms :=
  match privs with
  | [] => p
  | priv :: privs' =>
      let np := np ∖ {[priv]} in
      revoke_each (deny (set_np p ns np) ns priv) ns np privs'
  end.

Definition revoke (namespace : option bytes) (privs : list privilege) (p : perms) : result perms :=
  match namespace with
  | None =>
      Ok (mkPerms
        ((fun np => np ∖ list_to_set privs) <$> namespacePrivileges p)
        (globalPrivileges p ∖ list_to_set privs)
        (omap (fun denied => let denied := denied ∖ list_to_set privs in
                             if bool_decide (denied = ∅) then None else Some denied) (namespaceDenials p)))
  | Some ns =>
      match namespacePrivileges p !! ns with
      | None => Err (ErrPanic "unexpected error: namespace does not exist")
      | Some np => Ok (revoke_each p ns np privs)
      end
  end.

(** ** The access controller *)

Record accessController := mkAccess {
  roles : gmap (list byte) perms;
  userRoles : gmap (list byte) (list bytes);
  knownNamespaces : gset (list byte)
}.

Definition newPerm (a : accessController) : perms := mkPerms (gset_to_gmap ∅ (knownNamespaces a)) ∅ ∅.

Definition registerNamespace (ns : bytes) (a : accessController) : accessController :=
  mkAccess ((fun p => set_np p ns (globalPrivileges p)) <$> roles a) (userRoles a) ({[ns]} ∪ knownNamespaces a).

Definition unregisterNamespace (ns : bytes) (a : accessController) : accessController :=
  mkAccess ((fun p => mkPerms (delete ns (namespacePrivileges p)) (globalPrivileges p) (delete ns (namespaceDenials p))) <$> roles a)
    (userRoles a) (knownNamespaces a ∖ {[ns]}).

Definition IsOwner (a : accessController) (user : bytes) : bool :=
  match userRoles a !! user with
  | None => false
  | Some rs => bool_decide (ownerRole ∈ rs)
  end.

Fixpoint any_role (a : accessController) (rs : list bytes) (namespace : option bytes) (priv : privilege) : result bool :=
  match rs with
  | [] => Ok false
  | role :: rs' =>
      match roles a !! role with
      | None => Err (ErrPanic "Unexpected cache error: role does not exist. This is a bug.")
      | Some p => if canDo p priv namespace then Ok true else any_role a rs' namespace priv
      end
  end.

Definition HasPrivilege (a : accessController) (user : bytes) (namespace : option bytes) (priv : privilege) : result bool :=
  if IsOwner a user then Ok true
  else match roles a !! defaultRole with
  | None => Err (ErrPanic "invalid memory address")
  | Some p =>
      if canDo p priv namespace then Ok true
      else match userRoles a !! user with
      | None => Ok false
      | Some rs => any_role a rs namespace priv
      end
  end.

(** The users with the role owner, once per occurrence. *)
Definition owners (a : accessController) : list bytes :=
  '(user, rs) ← map_to_list (userRoles a); (fun _ => user) <$> filter (ownerRole =.) rs.

Definition GetOwner (a : accessController) : result (option bytes) :=
  match owners a with
  | [] => Ok None
  | [u] => Ok (Some u)
  | _ => Err (ErrPanic "unexpected error: multiple owners found")
  end.

Definition RoleExists (a : accessController) (role : bytes) : bool := bool_decide (is_Some (roles a !! role)).

(** ** The tables *)

#[warnings="-register-all"]
Inductive namespaceType := TypeUser | TypeSystem | TypeExtension.

#[export] Instance namespaceType_eq_decision : EqDecision namespaceType.
Proof. solve_decision. Defined.

(** A row of role_privileges; [None] is the null namespace of a global row. *)
Record rp_row := mkRP { rp_role : Z; rp_ns : option bytes; rp_priv : privilege; rp_granted : bool }.

(** kwild_engine.namespaces, .roles with the next number of its sequence,
    .role_privileges and .user_roles, and the schemas of the database. *)
Record acl_tables := mkAcl {
  t_schemas : gset (list byte);
  t_namespaces : gmap (list byte) namespaceType;
  t_roles : gmap Z (list byte);
  t_nextRole : Z;
  t_privileges : list rp_row;
  t_userRoles : list (bytes * Z)
}.

Definition set_privileges (l : list rp_row) (t : acl_tables) : acl_tables :=
  mkAcl (t_schemas t) (t_namespaces t) (t_roles t) (t_nextRole t) l (t_userRoles t).

Definition set_userRoles (l : list (bytes * Z)) (t : acl_tables) : acl_tables :=
  mkAcl (t_schemas t) (t_namespaces t) (t_roles t) (t_nextRole t) (t_privileges t) l.

(** SELECT id FROM kwild_engine.roles WHERE name = $1 *)
Definition role_id (t : acl_tables) (name : bytes) : option Z :=
  (fun x => x.2.1) <$> list_find (fun x => x.2 = name) (map_to_list (t_roles t)).

Definition createRole (roleName : bytes) (t : acl_tables) : result acl_tables :=
  match role_id t roleName with
  | Some _ => Err (ErrMsg "duplicate key value violates unique constraint")
  | None =>
      Ok (mkAcl (t_schemas t) (t_namespaces t) (<[t_nextRole t := roleName]> (t_roles t)) (t_nextRole t + 1)
            (t_privileges t) (t_userRoles t))
  end.

(** DELETE FROM kwild_engine.roles WHERE name = $1, with the cascade to
    role_privileges. *)
Definition deleteRole (role : bytes) (t : acl_tables) : acl_tables :=
  match role_id t role with
  | None => t
  | Some id =>
      mkAcl (t_schemas t) (t_namespaces t) (delete id (t_roles t)) (t_nextRole t)
        (filter (fun r => rp_role r <> id) (t_privileges t)) (t_userRoles t)
  end.

(** The key of UNIQUE (privilege_type, namespace_id, role_id); nulls differ. *)
Definition same_key (r r' : rp_row) : bool :=
  match rp_ns r, rp_ns r' with
  | Some a, Some b => bool_decide (rp_role r = rp_role r' /\ a = b /\ rp_priv r = rp_priv r')
  | _, _ => false
  end.

(** INSERT of one row, ON CONFLICT DO UPDATE SET granted. *)
Definition upsert (l : list rp_row) (r : rp_row) : list rp_row :=
  if existsb (same_key r) l then (fun r' => if same_key r r' then r else r') <$> l else l ++ [r].

(** The rows of one INSERT; it may not update a row twice. *)
Definition upsert_all (id : Z) (ns : option bytes) (privs : list privilege) (granted : bool) (t : acl_tables) : result acl_tables :=
  if bool_decide (is_Some ns /\ ~ NoDup privs)
  then Err (ErrMsg "ON CONFLICT DO UPDATE command cannot affect row a second time")
  else Ok (set_privileges (foldl upsert (t_privileges t) ((fun p => mkRP id ns p granted) <$> privs)) t).

Definition grantPrivilegesSQL (roleName : bytes) (privs : list privilege) (namespace : option bytes) (t : acl_tables) : result acl_tables :=
  match role_id t roleName, namespace with
  | None, _ => Ok t
  | Some id, None => Ok (set_privileges (t_privileges t ++ ((fun p => mkRP id None p true) <$> privs)) t)
  | Some id, Some ns =>
      match t_namespaces t !! ns with
      | None => Ok t
      | Some _ => upsert_all id (Some ns) privs true t
      end
  end.

Definition revokePrivilegesSQL (roleName : bytes) (privs : list privilege) (namespace : option bytes) (t : acl_tables) : result acl_tables :=
  match namespace with
  | None =>
      match role_id t roleName with
      | None => Ok t
      | Some id => Ok (set_privileges (filter (fun r => ~ (rp_role r = id /\ rp_priv r ∈ privs)) (t_privileges t)) t)
      end
  | Some ns =>
      match role_id t roleName with
      | None => if bool_decide (privs = []) then Ok t else Err (ErrMsg "null value in column role_id")
      | Some id => upsert_all id (_ ← t_namespaces t !! ns; Some ns) privs false t
      end
  end.

Definition assignRole (roleName user : bytes) (t : acl_tables) : result acl_tables :=
  match role_id t roleName with
  | None => Err (ErrMsg "null value in column role_id")
  | Some id => Ok (set_userRoles (t_userRoles t ++ [(user, id)]) t)
  end.

Definition unassignRole (roleName user : bytes) (t : acl_tables) : result acl_tables :=
  match role_id t roleName with
  | None => Ok t
  | Some id => Ok (set_userRoles (filter (fun x => x <> (user, id)) (t_userRoles t)) t)
  end.

Definition createNamespace (name : bytes) (nsType : namespaceType) (t : acl_tables) : result acl_tables :=
  if bool_decide (name ∈ t_schemas t) then Err (ErrMsg "schema already exists")
  else if bool_decide (is_Some (t_namespaces t !! name)) then Err (ErrMsg "duplicate key value violates unique constraint")
  else Ok (mkAcl ({[name]} ∪ t_schemas t) (<[name := nsType]> (t_namespaces t)) (t_roles t) (t_nextRole t) (t_privileges t) (t_userRoles t)).

Definition dropNamespace (name : bytes) (t : acl_tables) : result acl_tables :=
  if bool_decide (name ∈ t_schemas t) then
    Ok (mkAcl (t_schemas t ∖ {[name]}) (delete name (t_namespaces t)) (t_roles t) (t_nextRole t)
          (filter (fun r => rp_ns r <> Some name) (t_privileges t)) (t_userRoles t))
  else Err (ErrMsg "schema does not exist").

(** The roles of a user that JOIN finds. *)
Definition user_role_names (t : acl_tables) (user : bytes) : list bytes :=
  omap (fun x => if bool_decide (x.1 = user) then t_roles t !! x.2 else None) (t_userRoles t).

(** ** Loading *)

(** The order in which array_agg lists the rows of a role and the roles of a user. *)
Record db_order := mkOrder {
  agg_privileges : acl_tables -> Z -> list rp_row;
  agg_names : acl_tables -> bytes -> list bytes
}.

Fixpoint load_privileges (rows : list rp_row) (perm : perms) : result perms :=
  match rows with
  | [] => Ok perm
  | r :: rows' =>
      perm ← (if rp_granted r then grant (rp_ns r) [rp_priv r] perm else revoke (rp_ns r) [rp_priv r] perm);
      load_privileges rows' perm
  end.

Fixpoint load_roles (o : db_order) (t : acl_tables) (l : list (Z * bytes)) (ac : accessController) : result accessController :=
  match l with
  | [] => Ok ac
  | (id, roleName) :: l' =>
      perm ← load_privileges (agg_privileges o t id) (newPerm ac);
      load_roles o t l' (mkAccess (<[roleName := perm]> (roles ac)) (userRoles ac) (knownNamespaces ac))
  end.

(** The users that have a row of the JOIN. *)
Definition listed_users (t : acl_tables) : list bytes :=
  filter (fun u => user_role_names t u <> []) (remove_dups (t_userRoles t).*1).

Definition newAccessController (o : db_order) (t : acl_tables) : result accessController :=
  let ac := foldr registerNamespace (mkAccess ∅ ∅ ∅) (map_to_list (t_namespaces t)).*1 in
  ac ← load_roles o t (map_to_list (t_roles t)) ac;
  mret (mkAccess (roles ac) (list_to_map ((fun u => (u, agg_names o t u)) <$> listed_users t)) (knownNamespaces ac)).

(** ** Operations *)

(** The memory of the interpreter that the statements change ([namespaces] with
    whether each is an extension, and the access controller), and the tables. *)
Record acl_world := mkWorld {
  w_namespaces : gmap (list byte) bool;
  w_access : accessController;
  w_tables : acl_tables
}.

Definition set_access (a : accessController) (w : acl_world) : acl_world := mkWorld (w_namespaces w) a (w_tables w).
Definition set_tables (t : acl_tables) (w : acl_world) : acl_world := mkWorld (w_namespaces w) (w_access w) t.

#[local] Abbreviation A := (action acl_world).

Definition sql_execute (f : acl_tables -> result acl_tables) : A unit := fun w =>
  match f (w_tables w) with
  | Ok t => (Ok tt, set_tables t w)
  | Err e => (Err e, w)
  end.

Definition put_role (role : bytes) (p : perms) (a : accessController) : accessController :=
  mkAccess (<[role := p]> (roles a)) (userRoles a) (knownNamespaces a).

Definition put_user (user : bytes) (rs : list bytes) (a : accessController) : accessController :=
  mkAccess (roles a) (<[user := rs]> (userRoles a)) (knownNamespaces a).

(** [append(roles[:i], roles[i+1:]...)] for the first [i] with the role. *)
Fixpoint remove_first (role : bytes) (rs : list bytes) : list bytes :=
  match rs with
  | [] => []
  | r :: rs' => if bool_decide (r = role) then rs' else r :: remove_first role rs'
  end.

Definition CreateRole (role : bytes) : A unit :=
  if isBuiltInRole role then afail ErrBuiltInRole
  else
    a ← gets w_access;
    match roles a !! role with
    | Some _ => afail (ErrMsg "role already exists")
    | None => sql_execute (createRole role);; modify (set_access (put_role role (newPerm a) a))
    end.

Definition DeleteRole (role : bytes) : A unit :=
  if isBuiltInRole role then afail ErrBuiltInRole
  else
    a ← gets w_access;
    match roles a !! role with
    | None => afail (ErrMsg "role does not exist")
    | Some _ =>
        sql_execute (fun t => Ok (deleteRole role t));;
        modify (set_access (mkAccess (delete role (roles a)) (remove_first role <$> userRoles a) (knownNamespaces a)))
    end.

(** The loop of GrantPrivileges: both branches append. *)
Fixpoint ungranted (p : perms) (privs : list privilege) (namespace : option bytes) (ifNotGranted : bool) : result (list privilege) :=
  match privs with
  | [] => Ok []
  | priv :: privs' =>
      if canDo p priv namespace then
        if ifNotGranted then l ← ungranted p privs' namespace ifNotGranted; Ok (priv :: l)
        else Err (ErrMsg "role already has some or all of the specified privileges")
      else l ← ungranted p privs' namespace ifNotGranted; Ok (priv :: l)
  end.

(** The deferred update of a role in memory. *)
Definition update_role (role : bytes) (f : perms -> result perms) : A unit :=
  a ← gets w_access;
  match roles a !! role with
  | None => afail (ErrPanic "invalid memory address")
  | Some p => p ← alift (f p); modify (set_access (put_role role p a))
  end.

Definition GrantPrivileges (role : bytes) (privs : list privilege) (namespace : option bytes) (ifNotGranted : bool) : A unit :=
  if bool_decide (role = ownerRole) then afail (ErrMsg "owner role already has all privileges")
  else
    a ← gets w_access;
    match roles a !! role with
    | None => afail (ErrMsg "role does not exist")
    | Some p =>
        ungrantedPrivs ← alift (ungranted p privs namespace ifNotGranted);
        sql_execute (grantPrivilegesSQL role ungrantedPrivs namespace);;
        update_role role (grant namespace ungrantedPrivs)
    end.

Definition RevokePrivileges (role : bytes) (privs : list privilege) (namespace : option bytes) (ifGranted : bool) : A unit :=
  if bool_decide (role = ownerRole) then afail (ErrMsg "owner role cannot have privileges revoked")
  else
    a ← gets w_access;
    match roles a !! role with
    | None => afail (ErrMsg "role does not exist")
    | Some p =>
        if existsb (fun priv => negb (canDo p priv namespace) && negb ifGranted) privs
        then afail (ErrMsg "role does not have some or all of the specified privileges")
        else
          sql_execute (revokePrivilegesSQL role privs namespace);;
          update_role role (revoke namespace privs)
    end.

Definition AssignRole (role user : bytes) (ifNotGranted : bool) : A unit :=
  a ← gets w_access;
  match roles a !! role with
  | None => afail (ErrMsg "role does not exist")
  | Some _ =>
      let rs := default [] (userRoles a !! user) in
      modify (set_access (put_user user rs a));;
      if bool_decide (role ∈ rs) then
        if ifNotGranted then mret tt else afail (ErrMsg "user already has role")
      else
        sql_execute (assignRole role user);;
        modify (set_access (put_user user (rs ++ [role]) a))
  end.

Definition UnassignRole (role user : bytes) (ifGranted : bool) : A unit :=
  a ← gets w_access;
  match roles a !! role with
  | None => afail (ErrMsg "role does not exist")
  | Some _ =>
      match userRoles a !! user with
      | None => afail (ErrMsg "user does not exist")
      | Some rs =>
          if bool_decide (role ∈ rs) then
            modify (set_access (put_user user (remove_first role rs) a));;
            sql_execute (unassignRole role user)
          else if ifGranted then mret tt else afail (ErrMsg "user does not have role")
      end
  end.
