(* ===== verification/RolesFacts.v ===== *)
(** * The access controller and its tables

    The memory of the access controller says what the tables say ([access_ok]):
    every operation that succeeds keeps this, loading the tables establishes it in
    whatever order they list their rows, and it determines what the access
    controller decides. *)

From S2P Require Import Prelude.
From S2P Require Import Roles.
From Stdlib Require Import Strings.Byte.

#[local] Open Scope Z_scope.

(** ** What the rows of a role say *)

(** There is a row for the namespace (or a global one), the privilege and the flag. *)
Abbreviation says := (option bytes -> privilege -> bool -> Prop).

Definition has_row (id : Z) (rows : list rp_row) : says := fun ns p b => mkRP id ns p b ∈ rows.

(** The privilege holds in the namespace: it is granted there, or globally and not
    denied there. *)
Definition effective (S : says) (ns : bytes) (p : privilege) : Prop :=
  S (Some ns) p true \/ (S None p true /\ ~ S (Some ns) p false).

Record perms_ok (known : gset (list byte)) (S : says) (pm : perms) : Prop := mkPermsOk {
  pk_dom : dom (namespacePrivileges pm) = known;
  pk_global : forall p, p ∈ globalPrivileges pm <-> S None p true;
  pk_effective : forall ns np, namespacePrivileges pm !! ns = Some np -> forall p, p ∈ np <-> effective S ns p;
  pk_denied : forall ns p, p ∈ default ∅ (namespaceDenials pm !! ns) <-> S (Some ns) p false
}.

(** A namespace does not grant and deny a privilege. *)
Definition consistent (S : says) : Prop := forall ns p, S (Some ns) p true -> S (Some ns) p false -> False.

Lemma perms_ok_iff known (S S' : says) pm :
  (forall ns p b, S ns p b <-> S' ns p b) -> perms_ok known S pm -> perms_ok known S' pm.
Proof.
  intros E [Hd Hg He Hn]. split; [done|..].
  - intros p. by rewrite Hg, E.
  - intros ns np El p. rewrite (He ns np El). unfold effective. by rewrite !E.
  - intros ns p. by rewrite Hn, E.
Qed.

(** The statement says [b] about the privilege in the namespace. *)
Definition upd (S : says) (ns : bytes) (p : privilege) (b : bool) : says := fun n q c =>
  (n = Some ns /\ q = p /\ c = b) \/ (~ (n = Some ns /\ q = p) /\ S n q c).

Lemma upd_consistent S ns p b : consistent S -> consistent (upd S ns p b).
Proof. intros H n q. unfold upd. intros [(? & ? & <-)|[? H1]] [(? & ? & ?)|[? H2]]; [done|tauto|tauto|]. by eapply H. Qed.

Lemma upd_effective S ns p b n q :
  (n = ns /\ q = p -> (effective (upd S ns p b) n q <-> b = true)) /\
  (~ (n = ns /\ q = p) -> (effective (upd S ns p b) n q <-> effective S n q)).
Proof.
  unfold effective, upd. split.
  - intros [-> ->]. destruct b; intuition congruence.
  - intros Hne. assert (Some n = Some ns /\ q = p <-> n = ns /\ q = p) as E by (intuition congruence).
    intuition congruence.
Qed.

Lemma newPerm_ok a : perms_ok (knownNamespaces a) (fun _ _ _ => False) (newPerm a).
Proof.
  unfold newPerm. split; cbn.
  - apply dom_gset_to_gmap.
  - set_solver.
  - intros ns np [_ <-]%lookup_gset_to_gmap_Some p. rewrite elem_of_empty. unfold effective. tauto.
  - intros ns p. by rewrite lookup_empty.
Qed.

Lemma grant_global_ok known S pm privs :
  perms_ok known S pm ->
  exists pm', grant None privs pm = Ok pm' /\
    perms_ok known (fun n p b => S n p b \/ (n = None /\ p ∈ privs /\ b = true)) pm'.
Proof.
  intros [Hd Hg He Hn]. eexists. split; [done|]. split; cbn.
  - rewrite <- Hd. apply set_eq. intros ns. rewrite !elem_of_dom, map_lookup_imap.
    destruct (namespacePrivileges pm !! ns); cbn; [split; eauto|done].
  - intros p. rewrite elem_of_union, elem_of_list_to_set, Hg. naive_solver.
  - intros ns np. rewrite map_lookup_imap. destruct (namespacePrivileges pm !! ns) as [s|] eqn:El; [|done].
    intros [= <-] p. rewrite elem_of_union, elem_of_difference, elem_of_list_to_set, (He ns s El), Hn.
    unfold effective. naive_solver.
  - intros ns p. rewrite Hn. naive_solver.
Qed.

Lemma revoke_global_ok known S pm privs :
  perms_ok known S pm ->
  exists pm', revoke None privs pm = Ok pm' /\ perms_ok known (fun n p b => S n p b /\ p ∉ privs) pm'.
Proof.
  intros [Hd Hg He Hn]. eexists. split; [done|]. split; cbn.
  - by rewrite dom_fmap_L.
  - intros p. rewrite elem_of_difference, elem_of_list_to_set, Hg. done.
  - intros ns np. rewrite lookup_fmap. destruct (namespacePrivileges pm !! ns) as [s|] eqn:El; [|done].
    intros [= <-] p. rewrite elem_of_difference, elem_of_list_to_set, (He ns s El). unfold effective. naive_solver.
  - intros ns p. rewrite lookup_omap, <- Hn. destruct (namespaceDenials pm !! ns) as [d|]; cbn; [|set_solver].
    case_bool_decide as E; cbn; rewrite <- (elem_of_list_to_set (C := gset privilege)); set_solver.
Qed.

(** One privilege of a namespace, granted or revoked. *)
Lemma set_np_ok (known : gset (list byte)) (S : says) (pm : perms) (ns : bytes) (s s' : gset privilege) (p : privilege) (b : bool) (den : gmap (list byte) (gset privilege)) :
  perms_ok known S pm -> namespacePrivileges pm !! ns = Some s ->
  (forall q : privilege, q ∈ s' <-> if b then q = p \/ q ∈ s else q ∈ s /\ q <> p) ->
  (forall (n : bytes) (q : privilege), q ∈ default ∅ (den !! n) <-> upd S ns p b (Some n) q false) ->
  perms_ok known (upd S ns p b) (mkPerms (<[ns := s']> (namespacePrivileges pm)) (globalPrivileges pm) den).
Proof.
  intros [Hd Hg He Hn] El Hs Hden. split; cbn; [| |intros n np|done].
  - rewrite dom_insert_L, Hd. assert (ns ∈ known) by (rewrite <- Hd; by eapply elem_of_dom_2). set_solver.
  - intros q. rewrite Hg. unfold upd. naive_solver.
  - intros En q. destruct (upd_effective S ns p b n q) as [E1 E2].
    destruct (decide (n = ns /\ q = p)) as [[-> ->]|Hne].
    + rewrite lookup_insert_eq in En. injection En as <-. rewrite Hs, E1 by done. destruct b; naive_solver.
    + rewrite (E2 Hne). destruct (decide (n = ns)) as [->|Hns].
      * rewrite lookup_insert_eq in En. injection En as <-. rewrite Hs, <- (He ns s El). destruct b; naive_solver.
      * rewrite lookup_insert_ne in En by done. by apply He.
Qed.

Lemma grant_step_ok (known : gset (list byte)) (S : says) (pm : perms) (ns : bytes) (s : gset privilege) (p : privilege) :
  perms_ok known S pm -> namespacePrivileges pm !! ns = Some s ->
  perms_ok known (upd S ns p true) (clearDenial (set_np pm ns ({[p]} ∪ s)) ns p).
Proof.
  intros H El. pose proof (pk_denied _ _ _ H) as Hn.
  assert (clearDenial (set_np pm ns ({[p]} ∪ s)) ns p =
    mkPerms (<[ns := {[p]} ∪ s]> (namespacePrivileges pm)) (globalPrivileges pm)
      (namespaceDenials (clearDenial (set_np pm ns ({[p]} ∪ s)) ns p))) as ->.
  { unfold clearDenial; cbn. by destruct (namespaceDenials pm !! ns). }
  eapply set_np_ok; [done..|set_solver|].
  intros n q. unfold clearDenial; cbn. specialize (Hn n q). unfold upd.
  destruct (namespaceDenials pm !! ns) as [d|] eqn:Ed; cbn.
  - destruct (decide (n = ns)) as [->|Hne].
    + rewrite Ed in Hn; cbn in Hn. case_bool_decide as E; rewrite ?lookup_delete_eq, ?lookup_insert_eq; cbn.
      * assert (q ∈ d ∖ {[p]} <-> q ∈ (∅ : gset privilege)) as Eq by (by rewrite E). set_solver.
      * rewrite elem_of_difference, elem_of_singleton, Hn. naive_solver.
    + case_bool_decide; rewrite ?lookup_delete_ne, ?lookup_insert_ne by done; rewrite Hn; naive_solver.
  - rewrite Hn. destruct (decide (n = ns)) as [->|Hne]; [|naive_solver].
    rewrite Ed in Hn; cbn in Hn. rewrite <- Hn. set_solver.
Qed.

Lemma revoke_step_ok (known : gset (list byte)) (S : says) (pm : perms) (ns : bytes) (s : gset privilege) (p : privilege) :
  perms_ok known S pm -> namespacePrivileges pm !! ns = Some s ->
  perms_ok known (upd S ns p false) (deny (set_np pm ns (s ∖ {[p]})) ns p).
Proof.
  intros H El. pose proof (pk_denied _ _ _ H) as Hn. unfold deny; cbn.
  eapply set_np_ok; [done..|set_solver|].
  intros n q. specialize (Hn n q). unfold upd. destruct (decide (n = ns)) as [->|Hne].
  - rewrite lookup_insert_eq; cbn. rewrite elem_of_union, elem_of_singleton, Hn. destruct (decide (q = p)); naive_solver.
  - rewrite lookup_insert_ne by done. rewrite Hn. naive_solver.
Qed.

(** ** Rows *)

Lemma same_key_spec id ns p b r : same_key (mkRP id (Some ns) p b) r = true <-> exists c, r = mkRP id (Some ns) p c.
Proof.
  destruct r as [id' [ns'|] p' b']; cbn; [|naive_solver]. rewrite bool_decide_eq_true. naive_solver.
Qed.

Lemma upsert_elem l id ns p b r :
  r ∈ upsert l (mkRP id (Some ns) p b) <-> r = mkRP id (Some ns) p b \/ (r ∈ l /\ same_key (mkRP id (Some ns) p b) r = false).
Proof.
  unfold upsert. set (k := mkRP id (Some ns) p b). destruct (existsb (same_key k) l) eqn:E.
  - apply existsb_exists in E as (r0 & H0%list_elem_of_In & E0). rewrite list_elem_of_fmap. split.
    + intros (r' & -> & H'). destruct (same_key k r') eqn:E'; auto.
    + intros [->|[H' E']]; [exists r0|exists r]; by rewrite ?E0, ?E'.
  - rewrite elem_of_app, list_elem_of_singleton.
    assert (r ∈ l -> same_key k r = false); [|naive_solver].
    intros H%list_elem_of_In. apply not_true_is_false. intros E'. apply (not_true_iff_false (existsb (same_key k) l)); [done|].
    apply existsb_exists. eauto.
Qed.

Lemma has_row_upsert id l ns p b n q c :
  has_row id (upsert l (mkRP id (Some ns) p b)) n q c <-> upd (has_row id l) ns p b n q c.
Proof.
  unfold has_row, upd. rewrite upsert_elem, <- not_true_iff_false, same_key_spec. naive_solver.
Qed.

Lemma has_row_upsert_ne id id' l ns p b n q c :
  id <> id' -> has_row id' (upsert l (mkRP id (Some ns) p b)) n q c <-> has_row id' l n q c.
Proof. intros. unfold has_row. rewrite upsert_elem, <- not_true_iff_false, same_key_spec. naive_solver. Qed.

Abbreviation put_rows id ns b privs rows := (foldl upsert rows ((fun p => mkRP id (Some ns) p b) <$> privs)).

Lemma has_row_put_ne id id' ns b privs rows n q c :
  id <> id' -> has_row id' (put_rows id ns b privs rows) n q c <-> has_row id' rows n q c.
Proof.
  intros Hne. revert rows. induction privs as [|p privs IH]; intros rows; [done|]. cbn. by rewrite IH, has_row_upsert_ne.
Qed.

Lemma put_rows_elem id ns b privs rows r :
  r ∈ put_rows id ns b privs rows -> r ∈ rows \/ exists p, r = mkRP id (Some ns) p b.
Proof.
  revert rows. induction privs as [|p privs IH]; intros rows; cbn; [auto|].
  intros [H|H]%IH; [|auto]. apply upsert_elem in H as [->|[]]; eauto.
Qed.

Lemma put_rows_consistent id ns b privs rows id' :
  consistent (has_row id' rows) -> consistent (has_row id' (put_rows id ns b privs rows)).
Proof.
  revert rows. induction privs as [|p privs IH]; intros rows H; [done|]. apply IH. intros n q.
  destruct (decide (id = id')) as [->|Hne]; [rewrite !has_row_upsert; by apply upd_consistent|].
  rewrite !has_row_upsert_ne by done. apply H.
Qed.

Lemma grant_each_ok known id ns privs rows pm (s : gset privilege) :
  perms_ok known (has_row id rows) pm -> namespacePrivileges pm !! ns = Some s ->
  perms_ok known (has_row id (put_rows id ns true privs rows)) (grant_each pm ns s privs).
Proof.
  revert rows pm s. induction privs as [|p privs IH]; intros rows pm s H El; [done|]. cbn. apply IH.
  - eapply perms_ok_iff; [|by apply grant_step_ok]. intros. by rewrite has_row_upsert.
  - unfold clearDenial. cbn. destruct (namespaceDenials pm !! ns); cbn; by rewrite lookup_insert_eq.
Qed.

Lemma revoke_each_ok known id ns privs rows pm (s : gset privilege) :
  perms_ok known (has_row id rows) pm -> namespacePrivileges pm !! ns = Some s ->
  perms_ok known (has_row id (put_rows id ns false privs rows)) (revoke_each pm ns s privs).
Proof.
  revert rows pm s. induction privs as [|p privs IH]; intros rows pm s H El; [done|]. cbn. apply IH.
  - eapply perms_ok_iff; [|by apply revoke_step_ok]. intros. by rewrite has_row_upsert.
  - cbn. by rewrite lookup_insert_eq.
Qed.

(** Loading a row. *)
Lemma load_privileges_ok known id rows seen pm :
  perms_ok known (has_row id seen) pm ->
  (forall r, r ∈ rows -> rp_role r = id /\ (forall ns, rp_ns r = Some ns -> ns ∈ known) /\ (rp_ns r = None -> rp_granted r = true)) ->
  consistent (has_row id (seen ++ rows)) ->
  exists pm', load_privileges rows pm = Ok pm' /\ perms_ok known (has_row id (seen ++ rows)) pm'.
Proof.
  revert seen pm. induction rows as [|r rows IH]; intros seen pm H Hr Hc; [rewrite app_nil_r; eauto|].
  destruct (Hr r) as (Hid & Hns & Hg); [left|]. destruct r as [id' [ns|] p b]; cbn in Hid; subst id'.
  - assert (exists s, namespacePrivileges pm !! ns = Some s) as [s El].
    { apply elem_of_dom. rewrite (pk_dom _ _ _ H). by apply Hns. }
    set (r := mkRP id (Some ns) p b).
    destruct (IH (seen ++ [r]) (if b then grant_each pm ns s [p] else revoke_each pm ns s [p])) as (pm' & E & Hpm').
    + eapply perms_ok_iff; [|destruct b; [by apply grant_step_ok|by apply revoke_step_ok]].
      intros n q c. unfold has_row, upd. rewrite elem_of_app, list_elem_of_singleton. unfold r.
      assert (n = Some ns -> q = p -> mkRP id n q c ∈ seen -> c = b) as Hsame.
      { intros -> -> Hin. specialize (Hc ns p). unfold has_row in Hc. rewrite !elem_of_app in Hc.
        destruct b, c; [done| | |done]; exfalso; apply Hc; first [by left|right; left]. }
      destruct (decide (n = Some ns /\ q = p)) as [[-> ->]|]; naive_solver.
    + intros r' Hr'. apply Hr. by right.
    + by rewrite <- app_assoc.
    + exists pm'. rewrite <- app_assoc in Hpm'. split; [|done]. rewrite <- E. cbn. by destruct b; cbn; rewrite El.
  - assert (b = true) as -> by (by apply Hg). destruct (grant_global_ok known _ pm [p] H) as (pm1 & E1 & H1).
    destruct (IH (seen ++ [mkRP id None p true]) pm1) as (pm' & E & Hpm').
    + eapply perms_ok_iff; [|done]. intros n q c. unfold has_row. rewrite elem_of_app, !list_elem_of_singleton. naive_solver.
    + intros r' Hr'. apply Hr. by right.
    + by rewrite <- app_assoc.
    + exists pm'. rewrite <- app_assoc in Hpm'. split; [|done]. rewrite <- E. cbn [load_privileges rp_granted rp_ns rp_priv].
      by rewrite E1.
Qed.

(** ** The invariant *)

(** Tables: names of roles are unique, numbers are not used again, rows refer to
    roles and namespaces that exist, a user has a role once, at most one user is
    the owner, and the built-in roles are there. *)
Record twf (t : acl_tables) : Prop := mkTwf {
  tw_inj : forall i j n, t_roles t !! i = Some n -> t_roles t !! j = Some n -> i = j;
  tw_next : forall i, is_Some (t_roles t !! i) -> i < t_nextRole t;
  tw_users : forall u i, (u, i) ∈ t_userRoles t -> i < t_nextRole t;
  tw_rows : forall r, r ∈ t_privileges t ->
    is_Some (t_roles t !! rp_role r) /\ (forall ns, rp_ns r = Some ns -> ns ∈ dom (t_namespaces t)) /\
    (rp_ns r = None -> rp_granted r = true);
  tw_consistent : forall id, consistent (has_row id (t_privileges t));
  tw_names : forall u, NoDup (user_role_names t u);
  tw_owner : forall u v, ownerRole ∈ user_role_names t u -> ownerRole ∈ user_role_names t v -> u = v;
  tw_builtin : forall n, isBuiltInRole n = true -> exists id, t_roles t !! id = Some n
}.

(** The access controller says what the tables say. *)
Record access_ok (t : acl_tables) (a : accessController) : Prop := mkAccessOk {
  ao_known : knownNamespaces a = dom (t_namespaces t);
  ao_roles : forall id name, t_roles t !! id = Some name ->
    exists pm, roles a !! name = Some pm /\ perms_ok (dom (t_namespaces t)) (has_row id (t_privileges t)) pm;
  ao_only : forall name, is_Some (roles a !! name) -> exists id, t_roles t !! id = Some name;
  ao_users : forall u, default [] (userRoles a !! u) ≡ₚ user_role_names t u
}.

Lemma role_id_Some t n id : twf t -> role_id t n = Some id <-> t_roles t !! id = Some n.
Proof.
  intros H. unfold role_id. rewrite fmap_Some. split.
  - intros ([k [i m]] & (Hk & Hm & _)%list_find_Some & ->). cbn in *. subst m.
    apply elem_of_map_to_list. by eapply list_elem_of_lookup_2.
  - intros E. destruct (list_find_elem_of (fun x => x.2 = n) (map_to_list (t_roles t)) (id, n)) as [[k [i m]] Ek]; [by apply elem_of_map_to_list|done|].
    exists (k, (i, m)). split; [done|]. cbn. apply list_find_Some in Ek as (Hk & Hm & _). cbn in Hm. subst m.
    eapply (tw_inj t H); [done|]. apply elem_of_map_to_list. by eapply list_elem_of_lookup_2.
Qed.

(** The same roles, users and namespaces, other privileges. *)
Lemma set_privileges_twf t rows :
  twf t ->
  (forall r, r ∈ rows -> r ∈ t_privileges t \/
    (is_Some (t_roles t !! rp_role r) /\ (forall ns, rp_ns r = Some ns -> ns ∈ dom (t_namespaces t)) /\
     (rp_ns r = None -> rp_granted r = true))) ->
  (forall id, consistent (has_row id rows)) ->
  twf (set_privileges rows t).
Proof. intros [] Hr Hc. split; try done. cbn. intros r [?|?]%Hr; auto. Qed.

Lemma set_privileges_access t rows a id role pm :
  twf t -> access_ok t a -> t_roles t !! id = Some role ->
  (forall id' n p b, id' <> id -> has_row id' rows n p b <-> has_row id' (t_privileges t) n p b) ->
  perms_ok (dom (t_namespaces t)) (has_row id rows) pm ->
  access_ok (set_privileges rows t) (put_role role pm a).
Proof.
  intros Ht [Hk Hr Ho Hu] Eid Hrows Hpm. split; cbn; [done| |intros name|done].
  - intros id' name' E'. destruct (decide (id' = id)) as [->|Hne].
    + simplify_eq. exists pm. by rewrite lookup_insert_eq.
    + destruct (Hr id' name' E') as (pm' & Epm' & Hpm'). exists pm'. rewrite lookup_insert_ne.
      * split; [done|]. eapply perms_ok_iff; [|done]. intros. by rewrite Hrows.
      * intros ->. by apply Hne, (tw_inj t Ht _ _ name').
  - destruct (decide (name = role)) as [->|]; [eauto|]. rewrite lookup_insert_ne by done. apply Ho.
Qed.

(** ** Roles and users *)

Lemma names_elem t u n : n ∈ user_role_names t u <-> exists i, (u, i) ∈ t_userRoles t /\ t_roles t !! i = Some n.
Proof.
  unfold user_role_names. rewrite list_elem_of_omap. split.
  - intros ([u' i] & H & E). cbn in E. case_bool_decide; [|done]. subst. eauto.
  - intros (i & H & E). exists (u, i). cbn. by rewrite bool_decide_eq_true_2.
Qed.

Lemma omap_NoDup_sub {A B} (f g : A -> option B) (l : list A) :
  (forall x y, g x = Some y -> f x = Some y) -> NoDup (omap f l) -> NoDup (omap g l).
Proof.
  intros Hfg. induction l as [|x l IH]; [done|]. cbn. intros H.
  assert (NoDup (omap g l)) as HN by (apply IH; destruct (f x); [by apply list.NoDup_cons in H as []|done]).
  destruct (g x) as [y|] eqn:Eg; [|done]. rewrite (Hfg _ _ Eg) in H. apply list.NoDup_cons in H as [Hy _].
  apply list.NoDup_cons. split; [|done]. contradict Hy. apply list_elem_of_omap in Hy as (z & Hz & Ez).
  apply list_elem_of_omap. eauto.
Qed.

Lemma omap_ext_elem {A B} (f g : A -> option B) (l : list A) :
  (forall x, x ∈ l -> f x = g x) -> omap f l = omap g l.
Proof.
  induction l as [|x l IH]; [done|]. intros H. cbn. rewrite (H x) by left. rewrite IH; [done|]. intros y Hy. apply H. by right.
Qed.

Lemma omap_filter {A B} (f : A -> option B) (P : A -> Prop) `{forall x, Decision (P x)} (l : list A) :
  omap f (filter P l) = omap (fun x => if bool_decide (P x) then f x else None) l.
Proof.
  induction l as [|x l IH]; [done|]. rewrite filter_cons. cbn.
  case_bool_decide; case_decide; try done; cbn; by rewrite IH.
Qed.

Lemma remove_first_spec role rs : NoDup rs -> NoDup (remove_first role rs) /\ forall n, n ∈ remove_first role rs <-> n ∈ rs /\ n <> role.
Proof.
  induction rs as [|r rs IH]; cbn; [split; [apply base.NoDup_nil_2|set_solver]|]. intros [Hr HN]%list.NoDup_cons. destruct (IH HN) as [H1 H2].
  case_bool_decide as E.
  - subst. split; [done|]. set_solver.
  - split; [|set_solver]. apply list.NoDup_cons. rewrite H2. split; [tauto|done].
Qed.

Lemma remove_first_perm role rs rs' names :
  rs ≡ₚ names -> NoDup names -> NoDup rs' -> (forall n, n ∈ rs' <-> n ∈ names /\ n <> role) -> remove_first role rs ≡ₚ rs'.
Proof.
  intros Hp HN HN' He. destruct (remove_first_spec role rs) as [H1 H2]; [by rewrite Hp|].
  apply list.NoDup_Permutation; [done..|]. intros n. by rewrite H2, He, Hp.
Qed.

Lemma createRole_ok t a role t' :
  twf t -> access_ok t a -> createRole role t = Ok t' -> twf t' /\ access_ok t' (put_role role (newPerm a) a).
Proof.
  intros Ht Ha E. unfold createRole in E. destruct (role_id t role) eqn:Er; [done|]. injection E as <-.
  assert (forall i, t_roles t !! i <> Some role) as Hfresh by (intros i Ei%(role_id_Some t role i Ht); congruence).
  assert (t_roles t !! t_nextRole t = None) as Hnext.
  { apply eq_None_not_Some. intros Hs%(tw_next t Ht). lia. }
  set (t' := mkAcl _ _ _ _ _ _).
  assert (forall u, user_role_names t' u = user_role_names t u) as Hnames.
  { intros u. unfold user_role_names. apply omap_ext_elem. intros [u' i] H1%(tw_users t Ht). cbn in *.
    case_bool_decide; [|done]. rewrite lookup_insert_ne; [done|lia]. }
  split.
  - destruct Ht as [Hi Hn Hu Hr Hc HN Ho Hb]. split; cbn.
    + intros i j n. rewrite !lookup_insert_Some. naive_solver.
    + intros i. destruct (decide (i = t_nextRole t)) as [->|]; [lia|]. rewrite lookup_insert_ne by done. intros ?%Hn. lia.
    + intros u i ?%Hu. lia.
    + intros r Hin. destruct (Hr r Hin) as [Hs ?]. split; [|done]. rewrite lookup_insert_ne; [done|]. intros E. rewrite <- E, Hnext in Hs. by destruct Hs.
    + done.
    + intros u. pose proof (HN u) as H. rewrite <- Hnames in H. exact H.
    + intros u v. pose proof (Ho u v) as H. rewrite <- !Hnames in H. exact H.
    + intros n Hbn. destruct (Hb n Hbn) as [id E]. exists id. rewrite lookup_insert_ne; [done|]. intros <-. congruence.
  - destruct Ha as [Hk Hr Ho Hu]. split; cbn.
    + done.
    + intros id name. rewrite lookup_insert_Some. intros [[<- <-]|[Hne E]].
      * exists (newPerm a). rewrite lookup_insert_eq. split; [done|]. eapply perms_ok_iff; [|rewrite <- Hk; apply newPerm_ok].
        intros ns p b. unfold has_row. split; [done|]. intros H. apply (tw_rows t Ht) in H as [Hs _]. cbn in Hs. rewrite Hnext in Hs. by destruct Hs.
      * destruct (Hr id name E) as (pm & Epm & Hpm). exists pm. rewrite lookup_insert_ne; [done|]. intros ->. by apply (Hfresh id).
    + intros name. destruct (decide (name = role)) as [->|].
      * intros _. exists (t_nextRole t). by rewrite lookup_insert_eq.
      * rewrite lookup_insert_ne by done. intros [id E]%Ho. exists id. rewrite lookup_insert_ne; [done|]. intros <-. congruence.
    + intros u. pose proof (Hu u) as H. rewrite <- Hnames in H. exact H.
Qed.

Lemma deleteRole_ok t a role :
  twf t -> access_ok t a -> isBuiltInRole role = false -> is_Some (roles a !! role) ->
  twf (deleteRole role t) /\
  access_ok (deleteRole role t) (mkAccess (delete role (roles a)) (remove_first role <$> userRoles a) (knownNamespaces a)).
Proof.
  intros Ht Ha Hb (id & Eid)%(ao_only t a Ha). unfold deleteRole. rewrite (proj2 (role_id_Some t role id Ht) Eid).
  set (t' := mkAcl _ _ _ _ _ _).
  assert (forall i n, t_roles t' !! i = Some n <-> t_roles t !! i = Some n /\ n <> role) as Hroles.
  { intros i n. cbn. rewrite lookup_delete_Some. split; [|naive_solver]. intros [Hne E]. split; [done|]. intros ->. by apply Hne, (tw_inj t Ht _ _ role). }
  assert (forall u n, n ∈ user_role_names t' u <-> n ∈ user_role_names t u /\ n <> role) as Hnames.
  { intros u n. rewrite !names_elem. setoid_rewrite Hroles. naive_solver. }
  assert (forall u, NoDup (user_role_names t' u)) as HN.
  { intros u. eapply omap_NoDup_sub, (tw_names t Ht u). intros [u' i] n. cbn. case_bool_decide; [|done]. intros [? _]%Hroles. done. }
  assert (forall i n p b, i <> id -> has_row i (t_privileges t') n p b <-> has_row i (t_privileges t) n p b) as Hrows.
  { intros i n p b Hi. unfold has_row. cbn. rewrite list_elem_of_filter. naive_solver. }
  assert (forall i n, t_roles t' !! i = Some n -> i <> id) as Hne by (intros i n [E ?]%Hroles ->; congruence).
  split.
  - pose proof Ht as [Hi Hx Hu Hr Hc _ Ho Hbi]. split; [| |done| | |done| |].
    + intros i j n [E1 _]%Hroles [E2 _]%Hroles. by eapply Hi.
    + intros i [n [E _]%Hroles]. by apply Hx.
    + intros r [Hrid Hin]%list_elem_of_filter. destruct (Hr r Hin) as [[n E] ?]. split; [|done].
      exists n. apply Hroles. split; [done|]. intros ->. by apply Hrid, (Hi _ _ role).
    + intros i ns p [_ H1]%list_elem_of_filter [_ H2]%list_elem_of_filter. by eapply Hc.
    + intros u v [H1 _]%Hnames [H2 _]%Hnames. by apply Ho.
    + intros n Hbn. destruct (Hbi n Hbn) as [i E]. exists i. apply Hroles. split; [done|]. congruence.
  - pose proof Ha as [Hk Hr Ho Hu]. split; [done|..].
    + intros i n E. pose proof (Hne i n E) as Hi. apply Hroles in E as [E Hn]. destruct (Hr i n E) as (pm & Epm & Hpm).
      exists pm. cbn. rewrite lookup_delete_ne by done. split; [done|]. eapply perms_ok_iff; [|done]. intros. by rewrite <- Hrows.
    + intros n. cbn. intros [pm [Hn E]%lookup_delete_Some]. destruct (Ho n) as [i Ei]; [by eexists|]. exists i. by apply Hroles.
    + intros u. cbn. rewrite lookup_fmap. replace (default [] _) with (remove_first role (default [] (userRoles a !! u))) by (by destruct (userRoles a !! u)).
      apply (remove_first_perm role _ _ (user_role_names t u)); [apply Hu|apply (tw_names t Ht)|apply HN|apply Hnames].
Qed.

(** Another list of roles for one user. *)
Lemma set_userRoles_ok t a l user rs :
  twf t -> access_ok t a ->
  (forall u i, (u, i) ∈ l -> i < t_nextRole t) ->
  (forall u, u <> user -> user_role_names (set_userRoles l t) u = user_role_names t u) ->
  rs ≡ₚ user_role_names (set_userRoles l t) user -> NoDup rs ->
  (forall v, ownerRole ∈ rs -> ownerRole ∈ user_role_names t v -> v = user) ->
  twf (set_userRoles l t) /\ access_ok (set_userRoles l t) (put_user user rs a).
Proof.
  intros [Hi Hx Hu Hr Hc HN Ho Hb] [Hk Har Hao Hau] Hl Hother Hrs Hnd Hown. split.
  - split; try done.
    + intros u. destruct (decide (u = user)) as [->|Hne]; [by rewrite <- Hrs|]. rewrite Hother by done. apply HN.
    + intros u v. destruct (decide (u = user)) as [->|Hu1], (decide (v = user)) as [->|Hv1];
        intros H1 H2; rewrite ?(Hother u), <- ?Hrs in H1 by done; rewrite ?(Hother v), <- ?Hrs in H2 by done.
      * done.
      * symmetry. by apply Hown.
      * by apply Hown.
      * by apply Ho.
  - split; try done. intros u. cbn. destruct (decide (u = user)) as [->|Hne].
    + by rewrite lookup_insert_eq.
    + rewrite lookup_insert_ne by done. pose proof (Hau u) as H. by rewrite <- (Hother u Hne) in H.
Qed.

Lemma assignRole_ok t a role user rs t' :
  twf t -> access_ok t a -> rs = default [] (userRoles a !! user) -> role ∉ rs ->
  (role = ownerRole -> forall u, ownerRole ∉ user_role_names t u) ->
  assignRole role user t = Ok t' -> twf t' /\ access_ok t' (put_user user (rs ++ [role]) a).
Proof.
  intros Ht Ha -> Hnot Hown E. unfold assignRole in E. destruct (role_id t role) as [id|] eqn:Er; [|done]. injection E as <-.
  apply role_id_Some in Er; [|done]. pose proof (ao_users t a Ha user) as Hu.
  assert (forall u, user_role_names (set_userRoles (t_userRoles t ++ [(user, id)]) t) u =
    user_role_names t u ++ (if bool_decide (user = u) then [role] else [])) as Hnames.
  { intros u. unfold user_role_names. cbn. rewrite omap_app. f_equal. cbn. case_bool_decide; [by rewrite Er|done]. }
  apply set_userRoles_ok; try done.
  - intros u i [H|[= -> ->]%list_elem_of_singleton]%elem_of_app; [by eapply tw_users|]. by apply (tw_next t Ht).
  - intros u Hne. rewrite Hnames, bool_decide_eq_false_2, app_nil_r; [done|congruence].
  - by rewrite Hnames, bool_decide_eq_true_2, Hu.
  - apply list.NoDup_app. split_and!; [rewrite Hu; apply (tw_names t Ht)|set_solver|apply list.NoDup_singleton].
  - intros v [H|H%list_elem_of_singleton]%elem_of_app Hv.
    + rewrite Hu in H. by apply (tw_owner t Ht).
    + by destruct (Hown (eq_sym H) v).
Qed.

Lemma unassignRole_ok t a role user rs t' :
  twf t -> access_ok t a -> userRoles a !! user = Some rs -> is_Some (roles a !! role) ->
  unassignRole role user t = Ok t' -> twf t' /\ access_ok t' (put_user user (remove_first role rs) a).
Proof.
  intros Ht Ha Eu (id & Eid)%(ao_only t a Ha) E. unfold unassignRole in E.
  rewrite (proj2 (role_id_Some t role id Ht) Eid) in E. injection E as <-.
  set (l := filter _ _). pose proof (ao_users t a Ha user) as Hu. rewrite Eu in Hu. cbn in Hu.
  assert (forall u i, (u, i) ∈ l <-> (u, i) ∈ t_userRoles t /\ (u, i) <> (user, id)) as Hl.
  { intros u i. unfold l. rewrite list_elem_of_filter. tauto. }
  assert (forall n, n ∈ user_role_names (set_userRoles l t) user <-> n ∈ user_role_names t user /\ n <> role) as Hnames.
  { intros n. rewrite !names_elem. cbn. setoid_rewrite Hl. split.
    - intros (i & [H1 H2] & E). split; [eauto|]. intros ->. apply H2. f_equal. by apply (tw_inj t Ht _ _ role).
    - intros [(i & H1 & E) Hn]. exists i. split_and!; [done| |done]. congruence. }
  assert (NoDup (user_role_names (set_userRoles l t) user)) as HN.
  { unfold user_role_names, l. cbn. rewrite omap_filter. eapply omap_NoDup_sub, (tw_names t Ht user).
    intros [u i] n. cbn. by case_bool_decide. }
  assert (remove_first role rs ≡ₚ user_role_names (set_userRoles l t) user) as Hp
    by (apply (remove_first_perm role _ _ (user_role_names t user)); [done|apply (tw_names t Ht)|done|done]).
  apply set_userRoles_ok; try done.
  - intros u i [H _]%Hl. by eapply tw_users.
  - intros u Hne. unfold user_role_names, l. cbn. rewrite omap_filter. apply omap_ext_elem. intros [u' i] _. cbn.
    repeat case_bool_decide; try done. naive_solver.
  - by rewrite Hp.
  - intros v. rewrite Hp, Hnames. intros [H _] Hv. by apply (tw_owner t Ht).
Qed.

(** ** Privileges *)

Lemma upsert_all_Ok id ns privs b t t' :
  upsert_all id (Some ns) privs b t = Ok t' -> t' = set_privileges (put_rows id ns b privs (t_privileges t)) t.
Proof. unfold upsert_all. case_bool_decide; congruence. Qed.

Lemma put_rows_twf t id ns b privs role :
  twf t -> t_roles t !! id = Some role -> ns ∈ dom (t_namespaces t) -> twf (set_privileges (put_rows id ns b privs (t_privileges t)) t).
Proof.
  intros Ht Eid Hns. apply set_privileges_twf; [done| |].
  - intros r [Hr|[p ->]]%put_rows_elem; [by left|]. right. cbn. split_and!; [by eexists|congruence|done].
  - intros i. apply put_rows_consistent, (tw_consistent t Ht).
Qed.

Lemma role_perms t a role pm :
  twf t -> access_ok t a -> roles a !! role = Some pm ->
  exists id, role_id t role = Some id /\ t_roles t !! id = Some role /\
    perms_ok (dom (t_namespaces t)) (has_row id (t_privileges t)) pm.
Proof.
  intros Ht Ha Epm. destruct (ao_only t a Ha role) as [id Eid]; [by eexists|].
  destruct (ao_roles t a Ha id role Eid) as (pm0 & E0 & Hpm). exists id. rewrite role_id_Some by done. by simplify_eq.
Qed.

Lemma grant_ok t a role pm pm' privs ns t' :
  twf t -> access_ok t a -> roles a !! role = Some pm ->
  grantPrivilegesSQL role privs ns t = Ok t' -> grant ns privs pm = Ok pm' -> twf t' /\ access_ok t' (put_role role pm' a).
Proof.
  intros Ht Ha Epm E Eg. destruct (role_perms t a role pm Ht Ha Epm) as (id & Er & Eid & Hpm).
  unfold grantPrivilegesSQL in E. rewrite Er in E. destruct ns as [ns|].
  - cbn in Eg. destruct (namespacePrivileges pm !! ns) as [s|] eqn:Es; [|done]. injection Eg as <-.
    assert (ns ∈ dom (t_namespaces t)) as Hns by (rewrite <- (pk_dom _ _ _ Hpm); by eapply elem_of_dom_2).
    pose proof Hns as [ty Ety]%elem_of_dom. rewrite Ety in E. apply upsert_all_Ok in E as ->.
    split; [by eapply put_rows_twf|]. apply (set_privileges_access t _ a id role); try done.
    + intros. by apply has_row_put_ne.
    + by apply grant_each_ok.
  - injection E as <-. destruct (grant_global_ok _ _ pm privs Hpm) as (pm1 & E1 & H1). rewrite Eg in E1. injection E1 as <-.
    set (rows := _ ++ _).
    assert (forall i n p b, has_row i rows n p b <-> has_row i (t_privileges t) n p b \/ (i = id /\ n = None /\ p ∈ privs /\ b = true)) as Hrows.
    { intros. unfold has_row, rows. rewrite elem_of_app, list_elem_of_fmap. naive_solver. }
    split.
    + apply set_privileges_twf; [done| |].
      * intros r [Hr|(p & -> & _)%list_elem_of_fmap]%elem_of_app; [by left|]. right. cbn. split_and!; [by eexists|done|done].
      * intros i n p [H1'|?]%Hrows [H2'|?]%Hrows; [by eapply (tw_consistent t Ht)|naive_solver..].
    + apply (set_privileges_access t _ a id role); try done.
      * intros i n p b Hne. rewrite Hrows. naive_solver.
      * eapply perms_ok_iff; [|done]. intros n p b. rewrite Hrows. naive_solver.
Qed.

Lemma revoke_ok t a role pm pm' privs ns t' :
  twf t -> access_ok t a -> roles a !! role = Some pm ->
  revokePrivilegesSQL role privs ns t = Ok t' -> revoke ns privs pm = Ok pm' -> twf t' /\ access_ok t' (put_role role pm' a).
Proof.
  intros Ht Ha Epm E Eg. destruct (role_perms t a role pm Ht Ha Epm) as (id & Er & Eid & Hpm).
  unfold revokePrivilegesSQL in E. rewrite Er in E. destruct ns as [ns|].
  - cbn in Eg. destruct (namespacePrivileges pm !! ns) as [s|] eqn:Es; [|done]. injection Eg as <-.
    assert (ns ∈ dom (t_namespaces t)) as Hns by (rewrite <- (pk_dom _ _ _ Hpm); by eapply elem_of_dom_2).
    pose proof Hns as [ty Ety]%elem_of_dom. rewrite Ety in E. apply upsert_all_Ok in E as ->.
    split; [by eapply put_rows_twf|]. apply (set_privileges_access t _ a id role); try done.
    + intros. by apply has_row_put_ne.
    + by apply revoke_each_ok.
  - injection E as <-. destruct (revoke_global_ok _ _ pm privs Hpm) as (pm1 & E1 & H1). rewrite Eg in E1. injection E1 as <-.
    set (rows := filter _ _).
    assert (forall i n p b, has_row i rows n p b <-> has_row i (t_privileges t) n p b /\ ~ (i = id /\ p ∈ privs)) as Hrows.
    { intros. unfold has_row, rows. rewrite list_elem_of_filter. cbn. tauto. }
    split.
    + apply set_privileges_twf; [done| |].
      * intros r [_ Hr]%list_elem_of_filter. by left.
      * intros i n p [H1' _]%Hrows [H2' _]%Hrows. by eapply (tw_consistent t Ht).
    + apply (set_privileges_access t _ a id role); try done.
      * intros i n p b Hne. rewrite Hrows. tauto.
      * eapply perms_ok_iff; [|done]. intros n p b. rewrite Hrows. tauto.
Qed.

(** ** Namespaces *)

Lemma createNamespace_ok t a ns ty t' :
  twf t -> access_ok t a -> createNamespace ns ty t = Ok t' -> twf t' /\ access_ok t' (registerNamespace ns a).
Proof.
  intros Ht Ha E. unfold createNamespace in E. case_bool_decide; [done|]. case_bool_decide as Hns; [done|]. injection E as <-.
  assert (forall id p b, ~ has_row id (t_privileges t) (Some ns) p b) as Hnone.
  { intros id p b Hin. apply Hns. apply (tw_rows t Ht) in Hin as (_ & Hin & _). by apply elem_of_dom, Hin. }
  split.
  - destruct Ht as [Hi Hx Hu Hr Hc HN Ho Hb]. split; try done. cbn. intros r Hin. destruct (Hr r Hin) as (? & H1 & ?).
    split_and!; [done| |done]. intros n En. rewrite dom_insert. apply elem_of_union_r. by apply H1.
  - destruct Ha as [Hk Hr Ho Hu]. split; cbn.
    + by rewrite Hk, dom_insert_L.
    + intros id name E. destruct (Hr id name E) as (pm & Epm & Hpm). rewrite lookup_fmap, Epm. eexists. split; [done|].
      destruct Hpm as [Hd Hg He Hn]. split; cbn; [|done| |done].
      * by rewrite !dom_insert_L, Hd.
      * intros n np [[<- <-]|[Hne En]]%lookup_insert_Some p; [|by apply He]. rewrite Hg. unfold effective.
        split; [|by intros [[]%Hnone|[]]]. intros. right. split; [done|apply Hnone].
    + intros name. rewrite lookup_fmap, fmap_is_Some. apply Ho.
    + done.
Qed.

Lemma dropNamespace_ok t a ns t' :
  twf t -> access_ok t a -> dropNamespace ns t = Ok t' -> twf t' /\ access_ok t' (unregisterNamespace ns a).
Proof.
  intros Ht Ha E. unfold dropNamespace in E. case_bool_decide; [|done]. injection E as <-.
  assert (forall id n p b, has_row id (filter (fun r => rp_ns r <> Some ns) (t_privileges t)) n p b <->
    has_row id (t_privileges t) n p b /\ n <> Some ns) as Hrows.
  { intros. unfold has_row. rewrite list_elem_of_filter. cbn. tauto. }
  split.
  - destruct Ht as [Hi Hx Hu Hr Hc HN Ho Hb]. split; try done; cbn.
    + intros r [Hne Hin]%list_elem_of_filter. destruct (Hr r Hin) as (? & H1 & ?). split_and!; [done| |done].
      intros n En. rewrite dom_delete, elem_of_difference, elem_of_singleton. split; [by apply H1|congruence].
    + intros id n p [H1 _]%Hrows [H2 _]%Hrows. by eapply Hc.
  - destruct Ha as [Hk Hr Ho Hu]. split; cbn.
    + by rewrite Hk, dom_delete_L.
    + intros id name E. destruct (Hr id name E) as (pm & Epm & Hpm). rewrite lookup_fmap, Epm. eexists. split; [done|].
      destruct Hpm as [Hd Hg He Hn]. split; cbn.
      * by rewrite !dom_delete_L, Hd.
      * intros p. rewrite Hrows, Hg. naive_solver.
      * intros n np [Hne En]%lookup_delete_Some p. rewrite (He n np En). unfold effective. rewrite !Hrows.
        assert (Some n <> Some ns) by congruence. assert (None <> Some ns) by done. tauto.
      * intros n p. rewrite Hrows. destruct (decide (n = ns)) as [->|Hne].
        -- rewrite lookup_delete_eq. cbn. rewrite elem_of_empty. naive_solver.
        -- rewrite lookup_delete_ne by done. rewrite Hn. naive_solver.
    + intros name. rewrite lookup_fmap, fmap_is_Some. apply Ho.
    + done.
Qed.

(** ** Loading *)

(** array_agg lists the rows, in any order. *)
Record order_ok (o : db_order) : Prop := mkOrderOk {
  oo_rows : forall t id, agg_privileges o t id ≡ₚ filter (fun r => rp_role r = id) (t_privileges t);
  oo_names : forall t u, agg_names o t u ≡ₚ user_role_names t u
}.

Lemma load_role_ok o t id ac :
  twf t -> order_ok o -> knownNamespaces ac = dom (t_namespaces t) ->
  exists pm, load_privileges (agg_privileges o t id) (newPerm ac) = Ok pm /\
    perms_ok (dom (t_namespaces t)) (has_row id (t_privileges t)) pm.
Proof.
  intros Ht Ho Hk. pose proof (oo_rows o Ho t id) as Hp.
  assert (forall r, r ∈ agg_privileges o t id <-> rp_role r = id /\ r ∈ t_privileges t) as Hin.
  { intros r. by rewrite Hp, list_elem_of_filter. }
  assert (forall n p b, has_row id (agg_privileges o t id) n p b <-> has_row id (t_privileges t) n p b) as Hrows.
  { intros. unfold has_row. rewrite Hin. naive_solver. }
  destruct (load_privileges_ok (dom (t_namespaces t)) id (agg_privileges o t id) [] (newPerm ac)) as (pm & E & Hpm).
  - rewrite <- Hk. eapply perms_ok_iff; [|apply newPerm_ok]. intros. unfold has_row. by rewrite elem_of_nil.
  - intros r [Hr Hr']%Hin. split; [done|]. by apply (tw_rows t Ht).
  - intros ns p. cbn. rewrite !Hrows. apply (tw_consistent t Ht).
  - exists pm. split; [done|]. eapply perms_ok_iff; [|done]. intros. by rewrite <- Hrows.
Qed.

Lemma load_roles_ok o t l ac :
  twf t -> order_ok o -> (forall id n, (id, n) ∈ l -> t_roles t !! id = Some n) -> NoDup l ->
  knownNamespaces ac = dom (t_namespaces t) ->
  exists ac', load_roles o t l ac = Ok ac' /\ knownNamespaces ac' = dom (t_namespaces t) /\
    (forall id n, (id, n) ∈ l -> exists pm, roles ac' !! n = Some pm /\
      perms_ok (dom (t_namespaces t)) (has_row id (t_privileges t)) pm) /\
    (forall n, n ∉ l.*2 -> roles ac' !! n = roles ac !! n).
Proof.
  intros Ht Ho. revert ac. induction l as [|[id n] l IH]; intros ac Hl HN Hk.
  { exists ac. split_and!; [done|done| |done]. intros ?? []%elem_of_nil. }
  apply list.NoDup_cons in HN as [Hnew HN]. destruct (load_role_ok o t id ac Ht Ho Hk) as (pm & E & Hpm).
  destruct (IH (mkAccess (<[n := pm]> (roles ac)) (userRoles ac) (knownNamespaces ac))) as (ac' & E' & Hk' & Hin & Hout);
    [intros; apply Hl; by right|done|done|].
  exists ac'. split_and!; [|done| |].
  - cbn. rewrite E. apply E'.
  - intros id' n' [[= -> ->]|H]%elem_of_cons; [|by apply Hin].
    exists pm. rewrite Hout; [by cbn; rewrite lookup_insert_eq|].
    intros ([id' n'] & En & H)%list_elem_of_fmap. cbn in En. subst n'. apply Hnew.
    replace id with id'; [done|]. eapply (tw_inj t Ht); apply Hl; [by right|by left].
  - intros n' [Hne Hn']%not_elem_of_cons. rewrite Hout by done. cbn. cbn in Hne. by rewrite lookup_insert_ne.
Qed.

Lemma register_all l : foldr registerNamespace (mkAccess ∅ ∅ ∅) l = mkAccess ∅ ∅ (list_to_set l).
Proof. induction l as [|ns l IH]; [done|]. cbn. rewrite IH. unfold registerNamespace. cbn. by rewrite fmap_empty. Qed.

Lemma load_ok o t : twf t -> order_ok o -> exists a, newAccessController o t = Ok a /\ access_ok t a.
Proof.
  intros Ht Ho. unfold newAccessController. rewrite register_all.
  destruct (load_roles_ok o t (map_to_list (t_roles t)) (mkAccess ∅ ∅ (list_to_set (map_to_list (t_namespaces t)).*1)))
    as (ac & E & Hk & Hin & Hout); [done|done|by intros ?? ?%elem_of_map_to_list|apply NoDup_map_to_list| |].
  { cbn. apply set_eq. intros ns. rewrite elem_of_list_to_set, list_elem_of_fmap, elem_of_dom. split.
    - intros ([n ty] & -> & H%elem_of_map_to_list). by eexists.
    - intros [ty H]. exists (ns, ty). by rewrite elem_of_map_to_list. }
  rewrite E. eexists. split; [done|]. split; cbn; [done| | |].
  - intros id name H. by apply Hin, elem_of_map_to_list.
  - intros name [pm H]. destruct (decide (name ∈ (map_to_list (t_roles t)).*2)) as [Hn|Hn].
    + apply list_elem_of_fmap in Hn as ([id n] & -> & ?%elem_of_map_to_list). by exists id.
    + rewrite Hout in H by done. done.
  - intros u. set (l := _ <$> _).
    assert (NoDup l.*1) as HN.
    { unfold l. rewrite <- list_fmap_compose. cbn. rewrite list_fmap_id. apply list.NoDup_filter, NoDup_remove_dups. }
    destruct (decide (u ∈ listed_users t)) as [Hu|Hu].
    + rewrite (elem_of_list_to_map_1 l u (agg_names o t u)); [by apply (oo_names o Ho)|done|].
      apply list_elem_of_fmap. eauto.
    + rewrite (proj1 (not_elem_of_list_to_map l u)).
      * cbn. unfold listed_users in Hu. rewrite list_elem_of_filter, elem_of_remove_dups in Hu.
        destruct (user_role_names t u) as [|n ns] eqn:En; [done|]. exfalso. apply Hu. split; [done|].
        destruct (proj1 (names_elem t u n)) as (i & Hi & _); [rewrite En; left|]. apply list_elem_of_fmap. by exists (u, i).
      * unfold l. rewrite <- list_fmap_compose. cbn. by rewrite list_fmap_id.
Qed.

(** ** Decisions *)

(** What a role allows, from the tables. *)
Definition role_allows (t : acl_tables) (role : bytes) (ns : option bytes) (p : privilege) : Prop :=
  exists id, t_roles t !! id = Some role /\
    match ns with
    | None => has_row id (t_privileges t) None p true
    | Some n => n ∈ dom (t_namespaces t) /\ effective (has_row id (t_privileges t)) n p
    end.

Definition user_may (t : acl_tables) (u : bytes) (ns : option bytes) (p : privilege) : Prop :=
  ownerRole ∈ user_role_names t u \/ role_allows t defaultRole ns p \/
  exists role, role ∈ user_role_names t u /\ role_allows t role ns p.

Lemma canDo_spec t a id role pm ns p :
  twf t -> access_ok t a -> t_roles t !! id = Some role -> roles a !! role = Some pm ->
  canDo pm p ns = true <-> role_allows t role ns p.
Proof.
  intros Ht Ha Eid Epm. destruct (ao_roles t a Ha id role Eid) as (pm' & E' & Hpm). rewrite Epm in E'. injection E' as <-.
  assert (forall i, t_roles t !! i = Some role -> i = id) as Huniq by (intros i Hi; by apply (tw_inj t Ht _ _ role)).
  unfold canDo, role_allows. destruct ns as [n|].
  - rewrite <- (pk_dom _ _ _ Hpm). destruct (namespacePrivileges pm !! n) as [s|] eqn:Es.
    + rewrite bool_decide_eq_true, (pk_effective _ _ _ Hpm n s Es). split.
      * intros. exists id. split_and!; [done|by eapply elem_of_dom_2|done].
      * by intros (i & ->%Huniq & _ & ?).
    + split; [done|]. intros (i & _ & H & _). apply not_elem_of_dom in Es. done.
  - rewrite bool_decide_eq_true, (pk_global _ _ _ Hpm). split; [by exists id|]. by intros (i & ->%Huniq & ?).
Qed.

Lemma IsOwner_spec t a u : access_ok t a -> IsOwner a u = true <-> ownerRole ∈ user_role_names t u.
Proof.
  intros Ha. rewrite <- (ao_users t a Ha u). unfold IsOwner. destruct (userRoles a !! u); cbn.
  - apply bool_decide_eq_true.
  - split; [done|]. by intros []%elem_of_nil.
Qed.

Lemma any_role_spec t a rs ns p :
  twf t -> access_ok t a -> (forall r, r ∈ rs -> exists id, t_roles t !! id = Some r) ->
  exists b, any_role a rs ns p = Ok b /\ (b = true <-> exists role, role ∈ rs /\ role_allows t role ns p).
Proof.
  intros Ht Ha. induction rs as [|r rs IH]; intros Hrs.
  { exists false. split; [done|]. split; [done|]. by intros (? & []%elem_of_nil & _). }
  destruct (Hrs r) as [id Eid]; [left|]. destruct (ao_roles t a Ha id r Eid) as (pm & Epm & _).
  pose proof (canDo_spec t a id r pm ns p Ht Ha Eid Epm) as Hc. cbn. rewrite Epm. destruct (canDo pm p ns).
  - exists true. split; [done|]. split; [|done]. intros _. exists r. split; [left|by apply Hc].
  - destruct IH as (b & E & Hb); [intros; apply Hrs; by right|]. exists b. split; [done|]. rewrite Hb. split.
    + intros (role & ? & ?). exists role. split; [by right|done].
    + intros (role & [->|H]%elem_of_cons & Hr); [by apply Hc in Hr|eauto].
Qed.

Lemma HasPrivilege_spec t a u ns p :
  twf t -> access_ok t a -> exists b, HasPrivilege a u ns p = Ok b /\ (b = true <-> user_may t u ns p).
Proof.
  intros Ht Ha. unfold HasPrivilege, user_may. pose proof (IsOwner_spec t a u Ha) as Hown.
  destruct (IsOwner a u); [exists true; naive_solver|]. destruct (tw_builtin t Ht defaultRole) as [id Eid]; [done|].
  destruct (ao_roles t a Ha id _ Eid) as (pm & Epm & _). rewrite Epm.
  pose proof (canDo_spec t a id _ pm ns p Ht Ha Eid Epm) as Hc. destruct (canDo pm p ns); [exists true; naive_solver|].
  pose proof (ao_users t a Ha u) as Hu.
  destruct (any_role_spec t a (default [] (userRoles a !! u)) ns p Ht Ha) as (b & E & Hb).
  { intros r. rewrite Hu, names_elem. intros (i & _ & Hi). by exists i. }
  exists b. split; [by destruct (userRoles a !! u)|]. rewrite Hb. setoid_rewrite Hu. naive_solver.
Qed.

Lemma owner_filter (rs : list bytes) : NoDup rs -> NoDup (filter (ownerRole =.) rs) /\ (length (filter (ownerRole =.) rs) <= 1)%nat.
Proof.
  intros HN. pose proof (list.NoDup_filter (ownerRole =.) rs HN) as HF. split; [done|].
  assert (forall r, r ∈ filter (ownerRole =.) rs -> r = ownerRole) as Heq by (by intros r [-> _]%list_elem_of_filter).
  destruct (filter _ rs) as [|x [|y l]]; cbn; [lia..|]. apply list.NoDup_cons in HF as [Hx _].
  destruct Hx. rewrite (Heq x), (Heq y) by set_solver. left.
Qed.

Lemma owners_elem a u : u ∈ owners a <-> IsOwner a u = true.
Proof.
  unfold owners, IsOwner. rewrite list_elem_of_bind. split.
  - intros ([v rs] & (x & -> & [<- Hx]%list_elem_of_filter)%list_elem_of_fmap & H%elem_of_map_to_list). rewrite H.
    by apply bool_decide_eq_true.
  - destruct (userRoles a !! u) as [rs|] eqn:E; [|done]. intros H%bool_decide_eq_true. exists (u, rs). split.
    + apply list_elem_of_fmap. exists ownerRole. split; [done|]. by apply list_elem_of_filter.
    + by apply elem_of_map_to_list.
Qed.

Lemma owners_NoDup t a : twf t -> access_ok t a -> NoDup (owners a).
Proof.
  intros Ht Ha. unfold owners. apply list.NoDup_bind.
  - intros [u1 r1] [u2 r2] y H1%elem_of_map_to_list H2%elem_of_map_to_list.
    intros (? & -> & _)%list_elem_of_fmap (? & <- & _)%list_elem_of_fmap. congruence.
  - intros [u rs] H%elem_of_map_to_list. pose proof (ao_users t a Ha u) as Hu. rewrite H in Hu. cbn in Hu.
    destruct (owner_filter rs) as [HN Hl]; [rewrite Hu; apply (tw_names t Ht)|].
    destruct (filter _ rs) as [|x [|y l]]; cbn in *; [apply base.NoDup_nil_2|apply list.NoDup_singleton|lia].
  - apply NoDup_map_to_list.
Qed.

Lemma GetOwner_spec t a : twf t -> access_ok t a ->
  exists o, GetOwner a = Ok o /\ forall u, o = Some u <-> ownerRole ∈ user_role_names t u.
Proof.
  intros Ht Ha. unfold GetOwner. pose proof (owners_NoDup t a Ht Ha) as HN.
  assert (forall u, u ∈ owners a <-> ownerRole ∈ user_role_names t u) as He.
  { intros u. by rewrite owners_elem, (IsOwner_spec t). }
  destruct (owners a) as [|x [|y l]].
  - exists None. split; [done|]. intros u. rewrite <- He. split; [done|]. by intros []%elem_of_nil.
  - exists (Some x). split; [done|]. intros u. rewrite <- He, list_elem_of_singleton. naive_solver.
  - apply list.NoDup_cons in HN as [Hx _]. destruct Hx. rewrite (tw_owner t Ht x y); [left|apply He; set_solver..].
Qed.
