(* ===== verification/Interp.v ===== *)
(** * The interpreter of actions

    src/node/engine/interpreter: execution contexts and scopes (context.go), the
    statements and expressions of the action language (planner.go), calls of
    actions and of the built-in functions (planner.go, interpreter.go), queries
    with the statement cache and savepoints (context.go), and access to actions.

    A statement or a call passes its rows to a function while it is still
    running, so the body of a loop over an action runs inside that action: the
    model keeps these callbacks.  The recursion of the interpreter on expressions,
    statements and calls is tied by a number of steps ([run]); the proofs show
    that the outcome does not depend on it.  The planner, the SQL generator and
    the database behind a query are the class [Database], and built-in functions
    that are evaluated by the database are one of its operations. *)

From S2P Require Import Prelude.
From S2P Require Import BigInt.
From S2P Require Import Ident.
From S2P Require Import Payloads.
From S2P Require Import Values.
From S2P Require Import SqlValues.
From S2P Require Import SqlArrays.
From S2P Require Import Roles.
From S2P Require Import Cache.
From Stdlib Require Import Strings.Byte.

#[local] Open Scope Z_scope.

(** ** Errors *)

Definition ErrUnknownAction : error := ErrSentinel "unknown action".
Definition ErrNamespaceNotFound : error := ErrSentinel "namespace not found".
Definition ErrCannotMutateState : error := ErrSentinel "connection is read-only and cannot mutate state".
Definition ErrQueryActive : error := ErrSentinel "a query is currently active. nested queries are not allowed".
Definition ErrCannotMutateExtension : error := ErrSentinel "cannot mutate an extension's schema or data directly".
Definition ErrCannotMutateInfoNamespace : error := ErrSentinel "cannot mutate the info namespace directly".
Definition ErrInvalidTxCtx : error := ErrSentinel "invalid transaction context".
Definition ErrActionOwnerOnly : error := ErrSentinel "action is owner-only".
Definition ErrActionPrivate : error := ErrSentinel "action is private".
Definition ErrActionSystemOnly : error := ErrSentinel "action is system-only".
(** [userDefinedErr], what the function error() raises. *)
Definition ErrUserDefined : error := ErrSentinel "user defined error".
Definition ErrActionInvocation : error := ErrSentinel "action invocation error".

(** The control flow of planner.go. *)
Definition errBreak : error := ErrSentinel "break".
Definition errContinue : error := ErrSentinel "continue".
Definition errReturn : error := ErrSentinel "return".

(** The number of steps is used up. *)
Definition out_of_steps : error := ErrSentinel "out of steps".

(** ** Syntax of src/node/engine/parse/ast.go *)

Section syntax.
Context `{HD : Decimals}.

(** [ExpressionLiteral.Value]; a blob is a slice that the parser made once, by
    its number. *)
Inductive literal :=
  | LNull
  | LInt (z : Z)
  | LText (s : bytes)
  | LBool (b : bool)
  | LBlob (n : nat)
  | LDec (d : Decimal).

(** The expressions that actions use; [cast] is the type cast. *)
#[warnings="-register-all"]
Inductive expr :=
  | ELiteral (l : literal) (cast : option DataType)
  | EFunctionCall (ns name : bytes) (args : list expr) (cast : option DataType)
  | EVariable (name : bytes) (cast : option DataType)
  | EArrayAccess (arr : expr) (index : expr) (cast : option DataType)
  | EArraySlice (arr : expr) (from to : option expr) (cast : option DataType)
  | EMakeArray (vals : list expr) (cast : option DataType)
  | EFieldAccess (rec : expr) (field : bytes) (cast : option DataType)
  | EParenthesized (inner : expr) (cast : option DataType)
  | EComparison (op : ComparisonOperator) (left right : expr)
  | ELogical (and : bool) (left right : expr)
  | EArithmetic (op : arithmeticOp) (left right : expr)
  | EUnary (op : unaryOp) (e : expr)
  | EIs (left right : expr) (not distinct : bool).

Inductive sql_kind := SqlInsert | SqlUpdate | SqlDelete | SqlSelect.

(** A SQL statement: its text, its kind and its namespace prefix. *)
Record SQLStatement := mkSQL { sql_raw : bytes; sql_stmt : sql_kind; sql_prefix : bytes }.

Inductive assignable :=
  | AsVariable (name : bytes)
  | AsElement (arr index : expr)
  | AsSlice (arr : expr) (from to : option expr).

Inductive loopTerm :=
  | LoopRange (start stop : expr)
  | LoopExpression (e : expr) (array : bool)
  | LoopSQL (s : SQLStatement).

#[warnings="-register-all"]
Inductive stmt :=
  | StDeclaration (name : bytes) (t : DataType)
  | StAssign (v : assignable) (t : option DataType) (value : expr)
  | StCall (receivers : list (option bytes)) (ns name : bytes) (args : list expr)
  | StFor (receiver : bytes) (term : loopTerm) (body : list stmt)
  | StIf (branches : list (expr * list stmt)) (otherwise : option (list stmt))
  | StSQL (s : SQLStatement)
  | StBreak
  | StContinue
  | StReturn (values : list expr)
  | StReturnSQL (s : SQLStatement)
  | StReturnNext (values : list expr).

Inductive Modifier := PUBLIC | PRIVATE | SYSTEM | VIEW | OWNER.

Record NamedType := mkNamed { nt_Name : bytes; nt_Type : DataType; nt_Default : option literal }.

Record action_def := mkAction {
  act_Name : bytes;
  act_Parameters : list NamedType;
  act_Modifiers : list Modifier;
  act_Body : list stmt;
  act_Returns : option (list (bytes * DataType))
}.

(** [executable]: an action of a namespace, or a built-in function. *)
Inductive executable :=
  | ExAction (namespace : bytes) (act : action_def)
  | ExFunction (name : bytes).

Record namespace_def := mkNamespace {
  availableFunctions : gmap (list byte) executable;
  isExtension : bool
}.
End syntax.

#[export] Instance Modifier_eq_decision : EqDecision Modifier.
Proof. solve_decision. Defined.

(** ** The database *)

(** A value as it is sent to or received from the database. *)
#[warnings="-register-all"]
Inductive dbval :=
  | DNull
  | DInt (z : Z)
  | DText (s : bytes)
  | DBool (b : bool)
  | DBlob (b : bytes)
  | DUUID (u : bytes)
  | DDec (n : numeric)
  | DArr (l : list dbval).

(** [compile ns sql types objects ordered] is [CreateLogicalPlan] followed by
    [GenerateSQL] for the statement in a namespace: it reads the types of the
    variables and of the fields of records, and [ordered] is the argument
    [applyDefaultOrdering].  [Query] is
    the SQL that results, with its columns, its parameters and the namespaces of
    the tables that it reads.  [exec_query] runs it, and [run_function] evaluates
    a built-in function: the type of its result, then its value; [sqlstate_user] is
    the regular expression on the SQLSTATE of an error. *)
Class Database := {
  DBState : Type;
  Query : Type;
  compile : bytes -> bytes -> (bytes -> result DataType) -> (bytes -> result (list (bytes * DataType))) -> bool -> result Query;
  q_fields : Query -> list (bytes * DataType);
  q_params : Query -> list bytes;
  q_namespaces : Query -> list bytes;
  exec_query : Query -> list dbval -> DBState -> result (list (list dbval)) * DBState;
  function_type : bytes -> list DataType -> result DataType;
  run_function : bytes -> list dbval -> DBState -> result dbval;
  sqlstate_user : error -> bool
}.

(** [preparedStatement]. *)
Record preparedStatement `{Database} := mkPrepared { deterministicSQL : Query; nonDeterministicSQL : Query }.

(** The map of [statementCache], a third-party LRU map from the namespace and the
    text of a statement. *)
Class StatementCache `{Database} := {
  StmtCache : Type;
  #[global] stmt_cache :: Cache (list byte * list byte) preparedStatement StmtCache
}.

(** ** State *)

(** [scopeContext] without its parent. *)
Record scopeContext := mkScope {
  sc_variables : gmap (list byte) sqlval;
  sc_namespace : bytes;
  sc_isTopLevel : bool
}.

(** [executionContext]: the current scope, the parents of the scope from the
    nearest on, and whether a query is active. *)
Record executionContext := mkExec {
  ec_scope : scopeContext;
  ec_parents : list scopeContext;
  ec_queryActive : bool;
  ec_inAction : bool
}.

(** [EngineContext] with its transaction and block. *)
Record EngineContext := mkEngineCtx {
  Caller : bytes;
  TxID : bytes;
  Signer : option gslice;
  Height : Z;
  Timestamp : Z;
  Authenticator : bytes;
  Proposer : option bytes;
  LeaderSender : result (option bytes);
  InvalidTxCtx : bool;
  OverrideAuthz : bool
}.

Definition InfoNamespace : bytes := str "info".

(** A [row]. *)
Record row := mkRow { row_columns : list bytes; row_Values : list sqlval }.

Definition unknownColName : bytes := str "?column?".

Section interp.
Context `{Strings} `{HD : Decimals} `{!DecimalArith} `{GoRuntime} `{HDB : Database} `{HC : !StatementCache}.

(** What is shared by all contexts of one execution: [baseInterpreter] with the
    blob literals of its actions, [engineCtx] and [canMutateState]. *)
Record interpreter := mkInterpreter {
  namespaces : gmap (list byte) namespace_def;
  blob_literals : list gslice;
  access : accessController;
  engineCtx : EngineContext;
  canMutateState : bool
}.

(** The values, the contexts by the order of their creation, the transaction of
    the database, the statement cache, the logs, and the local variables that a
    callback shares with the call that made it: how many rows it received and
    the value it kept. *)
Record istate := mkIState {
  is_heap : heap;
  is_ctxs : list executionContext;
  is_db : DBState;
  is_cache : StmtCache;
  is_logs : list bytes;
  is_rets : list (nat * option sqlval)
}.

Abbreviation M := (action istate).
Abbreviation resultFunc := (row -> M unit).

Definition set_heap (h : heap) (st : istate) : istate :=
  mkIState h (is_ctxs st) (is_db st) (is_cache st) (is_logs st) (is_rets st).
Definition set_ctxs (cs : list executionContext) (st : istate) : istate :=
  mkIState (is_heap st) cs (is_db st) (is_cache st) (is_logs st) (is_rets st).
Definition set_db (d : DBState) (st : istate) : istate :=
  mkIState (is_heap st) (is_ctxs st) d (is_cache st) (is_logs st) (is_rets st).
Definition set_cache (c : StmtCache) (st : istate) : istate :=
  mkIState (is_heap st) (is_ctxs st) (is_db st) c (is_logs st) (is_rets st).
Definition add_log (l : bytes) (st : istate) : istate :=
  mkIState (is_heap st) (is_ctxs st) (is_db st) (is_cache st) (is_logs st ++ [l]) (is_rets st).
Definition set_rets (r : list (nat * option sqlval)) (st : istate) : istate :=
  mkIState (is_heap st) (is_ctxs st) (is_db st) (is_cache st) (is_logs st) r.

(** An operation on values. *)
Definition on_heap {A} (m : action heap A) : M A := fun st =>
  let '(r, h) := m (is_heap st) in (r, set_heap h st).

(** A computation that only reads the state. *)
Definition reads {A} (f : istate -> result A) : M A := fun st => (f st, st).

Definition hgets {A} (f : heap -> A) : M A := gets (fun st => f (is_heap st)).

(** The context [c]; contexts are never removed. *)
Definition get_ctx (c : nat) : M executionContext := fun st =>
  match is_ctxs st !! c with
  | Some e => (Ok e, st)
  | None => (Err (ErrPanic "invalid memory address"), st)
  end.

Definition upd_ctx (c : nat) (f : executionContext -> executionContext) : M unit :=
  modify (fun st => set_ctxs (alter f c (is_ctxs st)) st).

(** [iters := 0; var val Value] *)
Definition new_ret : M nat := fun st => (Ok (length (is_rets st)), set_rets (is_rets st ++ [(O, None)]) st).
Definition upd_ret (k : nat) (f : nat * option sqlval -> nat * option sqlval) : M unit :=
  modify (fun st => set_rets (alter f k (is_rets st)) st).
Definition get_ret (k : nat) : M (nat * option sqlval) := gets (fun st => default (O, None) (is_rets st !! k)).

Section steps.
Context (I : interpreter).

(** *** Contexts and scopes *)

Definition newScope (ns : bytes) : scopeContext := mkScope ∅ ns false.

(** [scopeContext.child] and [popScope]. *)
Definition child (e : executionContext) : executionContext :=
  mkExec (mkScope ∅ (sc_namespace (ec_scope e)) (sc_isTopLevel (ec_scope e)))
    (mkScope (sc_variables (ec_scope e)) (sc_namespace (ec_scope e)) false :: ec_parents e)
    (ec_queryActive e) (ec_inAction e).

Definition popScope (e : executionContext) : executionContext :=
  match ec_parents e with
  | p :: ps => mkExec p ps (ec_queryActive e) (ec_inAction e)
  | [] => e
  end.

(** [exec.scope.child(); defer exec.scope.popScope(); m] *)
Definition in_child {A} (c : nat) (m : M A) : M A :=
  _ ← get_ctx c;
  upd_ctx c child;;
  r ← atry m;
  upd_ctx c popScope;;
  alift r.

(** [subscope]: a new context; the result is its number. *)
Definition subscope (ns : bytes) : M nat := fun st =>
  (Ok (length (is_ctxs st)), set_ctxs (is_ctxs st ++ [mkExec (newScope ns) [] false true]) st).

Definition set_namespace (ns : bytes) (e : executionContext) : executionContext :=
  mkExec (mkScope (sc_variables (ec_scope e)) ns (sc_isTopLevel (ec_scope e))) (ec_parents e)
    (ec_queryActive e) (ec_inAction e).

Definition set_queryActive (b : bool) (e : executionContext) : executionContext :=
  mkExec (ec_scope e) (ec_parents e) b (ec_inAction e).

Definition getNamespace (c : nat) (ns : bytes) : M namespace_def :=
  e ← get_ctx c;
  match namespaces I !! (if bool_decide (ns = []) then sc_namespace (ec_scope e) else ns) with
  | Some n => mret n
  | None => afail ErrNamespaceNotFound
  end.

(** *** Access *)

Definition checkPrivilegeOnNamespace (c : nat) (p : privilege) (ns : bytes) : M unit :=
  e ← get_ctx c;
  if OverrideAuthz (engineCtx I) then mret tt
  else if ec_inAction e then mret tt
  else
    ok ← alift (HasPrivilege (access I) (Caller (engineCtx I)) (Some ns) p);
    if negb (ok : bool) then afail ErrDoesNotHavePrivilege else mret tt.

Definition checkPrivilege (c : nat) (p : privilege) : M unit :=
  e ← get_ctx c; checkPrivilegeOnNamespace c p (sc_namespace (ec_scope e)).

Definition checkNamespaceMutability (c : nat) : M unit :=
  e ← get_ctx c;
  if bool_decide (sc_namespace (ec_scope e) = InfoNamespace) then afail ErrCannotMutateInfoNamespace
  else
    ns ← getNamespace c (sc_namespace (ec_scope e));
    if isExtension ns && negb (OverrideAuthz (engineCtx I)) then afail ErrCannotMutateExtension
    else mret tt.

Definition has (m : Modifier) (l : list Modifier) : bool := bool_decide (m ∈ l).

Definition canExecute (c : nat) (newNamespace : bytes) (modifiers : list Modifier) : M unit :=
  e ← get_ctx c;
  if negb (has VIEW modifiers) && negb (canMutateState I) then afail ErrCannotMutateState
  else if OverrideAuthz (engineCtx I) && sc_isTopLevel (ec_scope e) then mret tt
  else if has PRIVATE modifiers &&
          (negb (bool_decide (sc_namespace (ec_scope e) = newNamespace)) || sc_isTopLevel (ec_scope e))
  then afail ErrActionPrivate
  else if has SYSTEM modifiers && sc_isTopLevel (ec_scope e) then afail ErrActionSystemOnly
  else if has OWNER modifiers && negb (IsOwner (access I) (Caller (engineCtx I))) then afail ErrActionOwnerOnly
  else checkPrivilege c CALL_PRIVILEGE.

(** *** Variables *)

(** [getVarFromScope]: the value and the depth of the scope it was found in. *)
Fixpoint var_in (name : bytes) (scopes : list scopeContext) : option (sqlval * nat) :=
  match scopes with
  | [] => None
  | s :: rest =>
      match sc_variables s !! name with
      | Some v => Some (v, O)
      | None => (fun '(v, d) => (v, S d)) <$> var_in name rest
      end
  end.

Definition getVarFromScope (name : bytes) (e : executionContext) : option (sqlval * nat) :=
  var_in name (ec_scope e :: ec_parents e).

Definition put_var (name : bytes) (v : sqlval) (s : scopeContext) : scopeContext :=
  mkScope (<[name := v]> (sc_variables s)) (sc_namespace s) (sc_isTopLevel s).

(** [foundScope.variables[name] = v] *)
Definition put_at (name : bytes) (v : sqlval) (d : nat) (e : executionContext) : executionContext :=
  match d with
  | O => mkExec (put_var name v (ec_scope e)) (ec_parents e) (ec_queryActive e) (ec_inAction e)
  | S d => mkExec (ec_scope e) (alter (put_var name v) d (ec_parents e)) (ec_queryActive e) (ec_inAction e)
  end.

Definition allocateVariable (c : nat) (name : bytes) (v : sqlval) : M unit :=
  e ← get_ctx c;
  match sc_variables (ec_scope e) !! name with
  | Some _ => afail (ErrMsg "variable already exists")
  | None => upd_ctx c (put_at name v 0)
  end.

Definition setVariable (c : nat) (name : bytes) (v : sqlval) : M unit :=
  if bool_decide (take 1 name = str "@") then afail ErrInvalidVariable
  else
    e ← get_ctx c;
    match getVarFromScope name e with
    | None => allocateVariable c name v
    | Some (oldVal, d) =>
        isNull ← hgets (fun h => Null h v);
        oldType ← hgets (fun h => Type_of h oldVal);
        newType ← hgets (fun h => Type_of h v);
        match isNull with
        | true => newVal ← on_heap (makeNull oldType); upd_ctx c (put_at name newVal d)
        | false =>
            if EqualsStrict oldType newType then upd_ctx c (put_at name v d)
            else afail ErrType
        end
    end.

Definition text (s : bytes) : sqlval := ScalV (SvText (Some s)).
Definition int8 (z : Z) : sqlval := ScalV (SvInt (Some z)).

(** The variables that start with [@]. *)
Definition contextual (e : executionContext) (name : bytes) : M sqlval :=
  let ec := engineCtx I in
  let valid (m : M sqlval) : M sqlval := if InvalidTxCtx ec then afail ErrInvalidTxCtx else m in
  if bool_decide (name = str "caller") then valid (mret (text (Caller ec)))
  else if bool_decide (name = str "txid") then valid (mret (text (TxID ec)))
  else if bool_decide (name = str "signer") then valid (mret (ScalV (SvBlob (Signer ec))))
  else if bool_decide (name = str "height") then valid (mret (int8 (i64 (Height ec))))
  else if bool_decide (name = str "foreign_caller") then
    mret (text (match ec_parents e with p :: _ => sc_namespace p | [] => [] end))
  else if bool_decide (name = str "block_timestamp") then valid (mret (int8 (i64 (Timestamp ec))))
  else if bool_decide (name = str "authenticator") then valid (mret (text (Authenticator ec)))
  else if bool_decide (name = str "leader") then
    valid (mret (text (match Proposer ec with None => [] | Some p => hex_encode p end)))
  else if bool_decide (name = str "leader_sender") then
    valid (b ← alift (LeaderSender ec);
           match b with
           | None => mret (ScalV (SvBlob None))
           | Some b => s ← on_heap (alloc_bytes b (length b)); mret (ScalV (SvBlob (Some s)))
           end)
  else afail ErrInvalidVariable.

Definition getVariable (c : nat) (name : bytes) : M sqlval :=
  match name with
  | x24 :: _ =>
      e ← get_ctx c;
      match getVarFromScope name e with
      | Some (v, _) => mret v
      | None => afail ErrUnknownVariable
      end
  | x40 :: name' => e ← get_ctx c; contextual e name'
  | _ => afail ErrInvalidVariable
  end.

(** [getVariableType]; a record has no type here. *)
Definition getVariableType (c : nat) (st : istate) (name : bytes) : result DataType :=
  v ← fst (getVariable c name st);
  match v with
  | RecV _ => Err ErrUnknownVariable
  | _ => Ok (Type_of (is_heap st) v)
  end.

(** The fields of a record, for [makePlan]. *)
Definition getObject (c : nat) (st : istate) (name : bytes) : result (list (bytes * DataType)) :=
  v ← fst (getVariable c name st);
  match v with
  | RecV fs => Ok ((fun '(x, v) => (x, Type_of (is_heap st) v)) <$> fs)
  | _ => Err ErrUnknownVariable
  end.

(** *** Queries *)

(** [map] with an action. *)
Fixpoint amap {A B} (f : A -> M B) (l : list A) : M (list B) :=
  match l with
  | [] => mret []
  | x :: l' => y ← f x; ys ← amap f l'; mret (y :: ys)
  end.

Fixpoint aiter {A} (f : A -> M unit) (l : list A) : M unit :=
  match l with
  | [] => mret tt
  | x :: l' => f x;; aiter f l'
  end.

(** A value as an argument of a query. *)
Definition sval_db (h : heap) (s : sval) : dbval :=
  match s with
  | SvInt (Some z) => DInt z
  | SvText (Some x) => DText x
  | SvBool (Some b) => DBool b
  | SvBlob (Some g) => DBlob (blob_bytes h g)
  | SvUUID (Some u) => DUUID u
  | SvDec (Some n) _ => DDec n
  | _ => DNull
  end.

Definition to_db (h : heap) (v : sqlval) : result dbval :=
  if Null h v then Ok DNull
  else match v with
  | ScalV s => Ok (sval_db h s)
  | ArrV l =>
      match h !! l with
      | Some (CArr _ _ xs _) => Ok (DArr (sval_db h <$> xs))
      | Some (CNulls n) => Ok (DArr (replicate (Z.to_nat n) DNull))
      | _ => Err (ErrPanic "invalid memory address")
      end
  | _ => Err (ErrMsg "unsupported type")
  end.

(** A scalar that the database returned, scanned into a value of type [t] and
    copied by [copyValue]. *)
Definition scan_scalar (t : DataType) (d : dbval) : action heap sqlval :=
  match kind_named t, d with
  | _, DNull => makeNull t
  | Some AInt, DInt z => mret (ScalV (SvInt (Some (i64 z))))
  | Some AText, DText x => mret (ScalV (SvText (Some x)))
  | Some ABool, DBool b => mret (ScalV (SvBool (Some b)))
  | Some ABlob, DBlob b => s ← alloc_bytes b (length b); mret (ScalV (SvBlob (Some s)))
  | Some AUUID, DUUID u => mret (ScalV (SvUUID (Some u)))
  | Some (ADec meta), DDec n =>
      match dec (Some n) meta with
      | Ok d => mret (ScalV (makeDecimal d))
      | Err _ => afail (ErrPanic "RawValue")
      end
  | _, _ => afail (ErrMsg "cannot scan")
  end.

Fixpoint scan_elems (t : DataType) (l : list dbval) : action heap (list sqlval) :=
  match l with
  | [] => mret []
  | d :: l' => v ← scan_scalar t d; vs ← scan_elems t l'; mret (v :: vs)
  end.

Definition scan_value (t : DataType) (d : dbval) : action heap sqlval :=
  if IsArray t then
    match d with
    | DNull => makeNull t
    | DArr l => vs ← scan_elems (scalar_of t) l; makeArray vs (Some t)
    | _ => afail (ErrMsg "cannot scan")
    end
  else scan_scalar t d.

Definition getValues (c : nat) (names : list bytes) : M (list sqlval) := amap (getVariable c) names.

(** [preparedStatements.get] and [preparedStatements.set]. *)
Definition cache_get (key : list byte * list byte) : M (option preparedStatement) := fun st =>
  let '(p, c) := c_get (is_cache st) key in (Ok p, set_cache c st).
Definition cache_set (key : list byte * list byte) (p : preparedStatement) : M unit :=
  modify (fun st => set_cache (c_put (is_cache st) key p) st).

(** [prepareQuery]: the generated SQL and the values of its parameters.  Both
    forms of a statement are planned with [canMutateState] of the context that
    meets the statement first. *)
Definition prepareQuery (c : nat) (sql : bytes) : M (Query * list sqlval) :=
  e ← get_ctx c;
  let key := (sc_namespace (ec_scope e), sql) in
  cached ← cache_get key;
  p ← match cached with
      | Some p => mret p
      | None =>
          deterministic ← reads (fun st =>
            compile (sc_namespace (ec_scope e)) sql (getVariableType c st) (getObject c st) (canMutateState I));
          nonDeterministic ← reads (fun st =>
            compile (sc_namespace (ec_scope e)) sql (getVariableType c st) (getObject c st) (canMutateState I));
          cache_set key (mkPrepared _ deterministic nonDeterministic);;
          mret (mkPrepared _ deterministic nonDeterministic)
      end;
  let q := if canMutateState I then deterministicSQL p else nonDeterministicSQL p in
  values ← getValues c (q_params q);
  mret (q, values).

Definition run_query (q : Query) (params : list dbval) : M (list (list dbval)) := fun st =>
  let '(r, d) := exec_query q params (is_db st) in (r, set_db d st).

(** The rows of a query, read to the end before the first one is handed on. *)
Definition buffer_rows (q : Query) (args : list sqlval) : M (list row) :=
  params ← amap (fun v => reads (fun st => to_db (is_heap st) v)) args;
  rows ← run_query q params;
  amap (fun vals => vs ← amap (fun '(t, d) => on_heap (scan_value t d)) (zip (snd <$> q_fields q) vals);
                    mret (mkRow (fst <$> q_fields q) vs)) rows.

(** [nestedQuery]: SAVEPOINT, and ROLLBACK TO it on any error of the query or of
    the function that receives the rows; a panic only releases it. *)
Definition nestedQuery (c : nat) (sql : bytes) (fn : resultFunc) : M unit :=
  savepoint ← gets is_db;
  r ← atry (q ← prepareQuery c sql; rows ← buffer_rows q.1 q.2; aiter fn rows);
  match r with
  | Ok _ => mret tt
  | Err e => awhen (negb (is_panic e)) (modify (set_db savepoint));; afail e
  end.

(** [checkReferencedSelectPrivileges] *)
Definition checkReferencedSelects (c : nat) (q : Query) (exemptStatementNamespace : bool) : M unit :=
  e ← get_ctx c;
  aiter (fun ns => if exemptStatementNamespace && bool_decide (ns = sc_namespace (ec_scope e)) then mret tt
                   else checkPrivilegeOnNamespace c SELECT_PRIVILEGE ns) (q_namespaces q).

Definition queryInternal (c : nat) (sql : bytes) (fn : resultFunc) (checkSelects exempt : bool) : M unit :=
  e ← get_ctx c;
  if ec_queryActive e then nestedQuery c sql fn
  else
    upd_ctx c (set_queryActive true);;
    r ← atry (q ← prepareQuery c sql;
              awhen checkSelects (checkReferencedSelects c q.1 exempt);;
              rows ← buffer_rows q.1 q.2;
              aiter fn rows);
    upd_ctx c (set_queryActive false);;
    alift r.

Definition query (c : nat) (sql : bytes) (fn : resultFunc) : M unit := queryInternal c sql fn false false.

(** [VisitSQLStatement] with [handleNamespaced]. *)
Definition exec_sql (c : nat) (s : SQLStatement) (fn : resultFunc) : M unit :=
  e ← get_ctx c;
  let '(mutatesState, p) := match sql_stmt s with
    | SqlInsert => (true, INSERT_PRIVILEGE)
    | SqlUpdate => (true, UPDATE_PRIVILEGE)
    | SqlDelete => (true, DELETE_PRIVILEGE)
    | SqlSelect => (false, SELECT_PRIVILEGE)
    end in
  let body : M unit :=
    awhen mutatesState (checkNamespaceMutability c);;
    checkPrivilege c p;;
    (if mutatesState && negb (canMutateState I) then afail ErrCannotMutateState
     else queryInternal c (sql_raw s) fn true mutatesState) in
  if bool_decide (sql_prefix s = []) then body
  else
    _ ← getNamespace c (sql_prefix s);
    upd_ctx c (set_namespace (sql_prefix s));;
    r ← atry body;
    upd_ctx c (set_namespace (sc_namespace (ec_scope e)));;
    alift r.

(** *** Rows *)

(** [row.Columns]. *)
Definition Columns (r : row) : M (list bytes) :=
  match row_columns r with
  | [] => mret (replicate (length (row_Values r)) unknownColName)
  | cs => if bool_decide (length cs = length (row_Values r)) then mret cs
          else afail (ErrPanic "columns and values do not match")
  end.

(** [row.record] with [AddValue]. *)
Fixpoint add_fields (cs : list bytes) (vs : list sqlval) (acc : list (bytes * sqlval)) : result sqlval :=
  match cs, vs with
  | name :: cs', v :: vs' =>
      if bool_decide (name = unknownColName) then add_fields cs' vs' acc
      else if bool_decide (name ∈ acc.*1) then Err (ErrMsg "record already has field")
      else add_fields cs' vs' (acc ++ [(name, v)])
  | _, _ => Ok (RecV acc)
  end.

Definition record (r : row) : M sqlval := cs ← Columns r; alift (add_fields cs (row_Values r) []).

Definition fillUnnamed (r : row) : M row :=
  cs ← Columns r;
  mret (mkRow ((fun c => if bool_decide (c = []) then unknownColName else c) <$> cs) (row_Values r)).

(** *** One step of the interpreter *)

(** What the interpreter calls recursively: the evaluation of an expression, the
    execution of a statement and the call of an executable. *)
Record steps := mkSteps {
  st_loops : nat;
  st_eval : nat -> expr -> M sqlval;
  st_exec : nat -> stmt -> resultFunc -> M unit;
  st_call : nat -> executable -> list sqlval -> resultFunc -> M unit
}.

Section step.
Context (R : steps).

(** *** Expressions *)

Definition cast_to (t : option DataType) (m : M sqlval) : M sqlval :=
  match t with
  | None => m
  | Some t => v ← m; on_heap (Cast v t)
  end.

(** [NewValue] of a literal. *)
Definition new_literal (l : literal) : M sqlval :=
  match l with
  | LNull => mret NullV
  | LInt z => mret (int8 (i64 z))
  | LText s => mret (text s)
  | LBool b => mret (ScalV (SvBool (Some b)))
  | LBlob n =>
      match blob_literals I !! n with
      | Some b => mret (ScalV (SvBlob (Some b)))
      | None => afail (ErrPanic "invalid memory address")
      end
  | LDec d => mret (ScalV (makeDecimal d))
  end.

(** The executable that a call names. *)
Definition lookup_function (c : nat) (ns name : bytes) : M executable :=
  n ← getNamespace c ns;
  match availableFunctions n !! name with
  | Some f => mret f
  | None => afail (ErrMsg "unknown function")
  end.

(** [VisitExpressionFunctionCall]: exactly one row with one value. *)
Definition eval_call (c : nat) (ns name : bytes) (args : list expr) : M sqlval :=
  f ← lookup_function c ns name;
  vals ← amap (st_eval R c) args;
  k ← new_ret;
  st_call R c f vals (fun received =>
    upd_ret k (fun '(iters, val) => (S iters, val));;
    match row_Values received with
    | [v] => upd_ret k (fun '(iters, _) => (iters, Some v))
    | _ => afail ErrReturnShape
    end);;
  ret ← get_ret k;
  match ret with
  | (1%nat, Some v) => mret v
  | _ => afail ErrReturnShape
  end.

(** [checkArrIdx] and [narrowArrIndex]. *)
Definition narrowArrIndex (v : sqlval) : M Z :=
  t ← hgets (fun h => Type_of h v);
  if negb (EqualsStrict t IntType) then afail (ErrMsg "array index must be integer")
  else match v with
  | ScalV (SvInt (Some i)) =>
      if (i >? 2 ^ 31 - 1) || (i <? - 2 ^ 31) then afail ErrIndexOutOfBounds else mret i
  | _ => afail (ErrPanic "interface conversion")
  end.

(** The array of [VisitExpressionArrayAccess]; [k] goes on with an array that is
    not null. *)
Definition with_array (c : nat) (arr : expr) (k : sqlval -> M sqlval) : M sqlval :=
  arrVal ← st_eval R c arr;
  isNull ← hgets (fun h => Null h arrVal);
  t ← hgets (fun h => Type_of h arrVal);
  if isNull : bool then
    if EqualsStrict t NullType then afail ErrInvalidNull
    else on_heap (makeNull (scalar_of t))
  else if negb (is_array arrVal) then afail ErrType
  else k arrVal.

Definition eval_index (c : nat) (arr index : expr) : M sqlval :=
  with_array c arr (fun a =>
    i ← st_eval R c index;
    isNull ← hgets (fun h => Null h i);
    t ← hgets (fun h => Type_of h a);
    if isNull : bool then on_heap (makeNull (scalar_of t))
    else idx ← narrowArrIndex i; on_heap (Get a idx)).

(** A bound of a slice: [None] when it is null. *)
Definition slice_bound (c : nat) (e : option expr) (default : Z) : M (option Z) :=
  match e with
  | None => mret (Some default)
  | Some e =>
      v ← st_eval R c e;
      isNull ← hgets (fun h => Null h v);
      if isNull : bool then mret None else i ← narrowArrIndex v; mret (Some i)
  end.

Definition eval_slice (c : nat) (arr : expr) (from to : option expr) : M sqlval :=
  with_array c arr (fun a =>
    len ← hgets (fun h => Len h a);
    t ← hgets (fun h => Type_of h a);
    start ← slice_bound c from 1;
    match start with
    | None => on_heap (makeNull t)
    | Some start =>
        stop ← slice_bound c to len;
        match stop with
        | None => on_heap (makeNull t)
        | Some stop =>
            if start >? stop then on_heap (newZeroValue t)
            else
              len ← hgets (fun h => Len h a);
              let start := Z.max start 1 in
              let stop := Z.min stop len in
              zv ← on_heap (newZeroValue t);
              (if is_array zv
               then on_heap (copy_range a zv (1 - start) start (Z.to_nat (stop - start + 1)))
               else afail ErrType);;
              mret zv
        end
    end).

Definition eval_field (c : nat) (rec : expr) (field : bytes) : M sqlval :=
  obj ← st_eval R c rec;
  match obj with
  | RecV fs =>
      match snd <$> list_find (fun f => f.1 = field) fs with
      | Some (_, v) => mret v
      | None => afail (ErrMsg "field not found in object")
      end
  | _ => afail ErrType
  end.

Definition boolv (o : option bool) : sqlval := ScalV (SvBool o).

(** [makeComparisonFunc], [makeLogicalFunc] and [makeUnaryFunc]. *)
Definition comparison (left right : M sqlval) (op : comparisonOp) : M sqlval :=
  l ← left;
  r ← right;
  res ← reads (fun st => Compare (is_heap st) l r op);
  mret (boolv res).

Definition logical (left right : M sqlval) (and : bool) : M sqlval :=
  l ← left;
  r ← right;
  lNull ← hgets (fun h => Null h l);
  rNull ← hgets (fun h => Null h r);
  if (lNull || rNull)%bool then mret (boolv None)
  else match l, r with
  | ScalV (SvBool (Some a)), ScalV (SvBool (Some b)) => mret (boolv (Some (if and then a && b else a || b)))
  | _, _ => afail ErrType
  end.

Definition unary (m : M sqlval) (op : unaryOp) : M sqlval :=
  v ← m;
  if is_scalar v then alift (Unary v op) else afail ErrType.

(** [VisitExpressionComparison]: the operands are evaluated once per operator. *)
Definition eval_comparison (c : nat) (op : ComparisonOperator) (left right : expr) : M sqlval :=
  let '(first, rest, negate) := convertComparisonOps op in
  let cmp o := comparison (st_eval R c left) (st_eval R c right) o in
  let retFn := foldl (fun m o => logical m (cmp o) false) (cmp first) rest in
  if negate then unary retFn NOT else retFn.

Definition eval_arithmetic (c : nat) (op : arithmeticOp) (left right : expr) : M sqlval :=
  l ← st_eval R c left;
  r ← st_eval R c right;
  if negb (is_scalar l) || negb (is_scalar r) then afail ErrType
  else on_heap (Arithmetic l r op).

Definition eval_is (c : nat) (left right : expr) (not distinct : bool) : M sqlval :=
  let retFn := comparison (st_eval R c left) (st_eval R c right) (if distinct then IS_DISTINCT_FROM else IS) in
  if not then unary retFn NOT else retFn.

Definition eval_makeArray (c : nat) (vals : list expr) (t : option DataType) : M sqlval :=
  vs ← amap (fun e => v ← st_eval R c e; if is_scalar v then mret v else afail ErrType) vals;
  on_heap (makeArray vs t).

Definition eval_expr (c : nat) (e : expr) : M sqlval :=
  match e with
  | ELiteral l t => cast_to t (new_literal l)
  | EFunctionCall ns name args t => cast_to t (eval_call c ns name args)
  | EVariable name t => cast_to t (getVariable c name)
  | EArrayAccess arr index t => cast_to t (eval_index c arr index)
  | EArraySlice arr from to t => cast_to t (eval_slice c arr from to)
  | EMakeArray vals t => cast_to t (eval_makeArray c vals t)
  | EFieldAccess rec field t => cast_to t (eval_field c rec field)
  | EParenthesized inner t => cast_to t (st_eval R c inner)
  | EComparison op l r => eval_comparison c op l r
  | ELogical and l r => logical (st_eval R c l) (st_eval R c r) and
  | EArithmetic op l r => eval_arithmetic c op l r
  | EUnary op e => unary (st_eval R c e) op
  | EIs l r not distinct => eval_is c l r not distinct
  end.

(** *** Statements *)

(** [VisitActionStmtAssignment] to a variable, after the value [val]. *)
Definition assign_variable (c : nat) (name : bytes) (t : option DataType) (val : sqlval) : M unit :=
  match t with
  | None => mret tt
  | Some t =>
      r ← atry (getVariable c name);
      match r with
      | Ok v => vt ← hgets (fun h => Type_of h v);
                if EqualsStrict vt t then mret tt else afail ErrType
      | Err e => if errors_is e ErrUnknownVariable
                 then nv ← on_heap (makeNull t); allocateVariable c name nv
                 else afail e
      end
  end;;
  setVariable c name val.

Definition assign_element (c : nat) (arr index : expr) (val : sqlval) : M unit :=
  arrVal ← st_eval R c arr;
  if negb (is_array arrVal) then afail ErrType
  else if negb (is_scalar val) then afail ErrType
  else
    i ← st_eval R c index;
    isNull ← hgets (fun h => Null h i);
    if isNull : bool then afail ErrInvalidNull
    else idx ← narrowArrIndex i; on_heap (Set_ arrVal idx val).

(** [evaluateSliceIdx] *)
Definition assign_bound (c : nat) (e : option expr) (default : Z) : M Z :=
  b ← slice_bound c e default;
  match b with Some b => mret b | None => afail ErrInvalidNull end.

(** The value is evaluated a second time. *)
Definition assign_slice (c : nat) (arr : expr) (from to : option expr) (value : expr) : M unit :=
  arrVal ← st_eval R c arr;
  if negb (is_array arrVal) then afail ErrType
  else
    start ← assign_bound c from 1;
    len ← hgets (fun h => Len h arrVal);
    stop ← assign_bound c to len;
    if start <? 1 then afail ErrIndexOutOfBounds
    else if stop <? start then afail ErrIndexOutOfBounds
    else
      newArr ← st_eval R c value;
      if negb (is_array newArr) then afail ErrType
      else
        newLen ← hgets (fun h => Len h newArr);
        if stop - start + 1 >? newLen then afail ErrArrayTooSmall
        else on_heap (copy_range newArr arrVal (start - 1) 1 (Z.to_nat (stop - start + 1))).

Definition exec_assign (c : nat) (v : assignable) (t : option DataType) (value : expr) : M unit :=
  val ← st_eval R c value;
  match v with
  | AsVariable name => assign_variable c name t val
  | AsElement arr index => match t with Some _ => afail ErrType | None => assign_element c arr index val end
  | AsSlice arr from to => match t with Some _ => afail ErrType | None => assign_slice c arr from to value end
  end.

(** [VisitActionStmtCall]. *)
Definition exec_call (c : nat) (receivers : list (option bytes)) (ns name : bytes) (args : list expr) : M unit :=
  f ← lookup_function c ns name;
  vals ← amap (st_eval R c) args;
  k ← new_ret;
  st_call R c f vals (fun r =>
    ret ← get_ret k;
    if bool_decide (0 < ret.1)%nat && bool_decide (0 < length receivers)%nat then afail ErrReturnShape
    else
      upd_ret k (fun '(iter, v) => (S iter, v));;
      if bool_decide (length (row_Values r) < length receivers)%nat then afail ErrReturnShape
      else aiter (fun '(receiver, v) => match receiver with
                                        | Some x => setVariable c x v
                                        | None => mret tt
                                        end) (zip receivers (row_Values r)));;
  ret ← get_ret k;
  if bool_decide (0 < length receivers)%nat && bool_decide (ret.1 = 0)%nat then afail ErrReturnShape
  else mret tt.

(** [executeBlock]. *)
Definition executeBlock (c : nat) (stmts : list stmt) (fn : resultFunc) : M unit :=
  in_child c (aiter (fun s => st_exec R c s fn) stmts).

Fixpoint exec_if (c : nat) (branches : list (expr * list stmt)) (otherwise : option (list stmt)) (fn : resultFunc) : M unit :=
  match branches with
  | [] => match otherwise with Some b => executeBlock c b fn | None => mret tt end
  | (cond, then_) :: rest =>
      v ← st_eval R c cond;
      isNull ← hgets (fun h => Null h v);
      if isNull : bool then exec_if c rest otherwise fn
      else match v with
      | ScalV (SvBool (Some true)) => executeBlock c then_ fn
      | ScalV (SvBool _) => exec_if c rest otherwise fn
      | _ => afail ErrType
      end
  end.

(** [handleLoopTermErr] *)
Definition handleLoopTermErr (m : M unit) : M unit :=
  r ← atry m;
  match r with
  | Ok _ => mret tt
  | Err e => if errors_is e errContinue then mret tt else afail e
  end.

(** [for i := start; i <= end; i++]; the counter is an int64. *)
Fixpoint range_loop (n : nat) (i stop : Z) (fn : sqlval -> M unit) : M unit :=
  if i <=? stop then
    match n with
    | O => afail out_of_steps
    | S n => handleLoopTermErr (fn (int8 i));; range_loop n (i64 (i + 1)) stop fn
    end
  else mret tt.

Definition loop_range (c : nat) (start stop : expr) (fn : sqlval -> M unit) : M unit :=
  s ← st_eval R c start;
  e ← st_eval R c stop;
  sNull ← hgets (fun h => Null h s);
  eNull ← hgets (fun h => Null h e);
  if (sNull || eNull)%bool then mret tt
  else match s, e with
  | ScalV (SvInt (Some i)), ScalV (SvInt (Some j)) => range_loop (st_loops R) i j fn
  | _, _ => afail ErrType
  end.

(** [for i := range arr.Len()], from [i] on. *)
Fixpoint array_loop (arr : sqlval) (i : Z) (n : nat) (fn : sqlval -> M unit) : M unit :=
  match n with
  | O => mret tt
  | S n => v ← on_heap (Get arr i); handleLoopTermErr (fn v);; array_loop arr (i + 1) n fn
  end.

(** A row as the loop variable. *)
Definition each_record (fn : sqlval -> M unit) (r : row) : M unit :=
  rec ← record r; handleLoopTermErr (fn rec).

Definition loop_call (c : nat) (ns name : bytes) (args : list expr) (fn : sqlval -> M unit) : M unit :=
  f ← lookup_function c ns name;
  vals ← amap (st_eval R c) args;
  st_call R c f vals (each_record fn).

Definition loop_array (c : nat) (e : expr) (fn : sqlval -> M unit) : M unit :=
  val ← st_eval R c e;
  isNull ← hgets (fun h => Null h val);
  if isNull : bool then mret tt
  else if negb (is_array val) then afail ErrType
  else n ← hgets (fun h => Len h val); array_loop val 1 (Z.to_nat n) fn.

Definition loop_over (c : nat) (t : loopTerm) (fn : sqlval -> M unit) : M unit :=
  match t with
  | LoopRange start stop => loop_range c start stop fn
  | LoopExpression (EFunctionCall ns name args _) false => loop_call c ns name args fn
  | LoopExpression _ false => afail ErrLoop
  | LoopExpression e true => loop_array c e fn
  | LoopSQL s => query c (sql_raw s) (each_record fn)
  end.

Definition exec_for (c : nat) (receiver : bytes) (t : loopTerm) (body : list stmt) (fn : resultFunc) : M unit :=
  r ← atry (loop_over c t (fun term =>
    in_child c (allocateVariable c receiver term;; aiter (fun s => st_exec R c s fn) body)));
  match r with
  | Ok _ => mret tt
  | Err e => if errors_is e errBreak then mret tt else afail e
  end.

Definition exec_stmt (c : nat) (s : stmt) (fn : resultFunc) : M unit :=
  match s with
  | StDeclaration name t => nv ← on_heap (makeNull t); allocateVariable c name nv
  | StAssign v t value => exec_assign c v t value
  | StCall receivers ns name args => exec_call c receivers ns name args
  | StFor receiver t body => exec_for c receiver t body fn
  | StIf branches otherwise => exec_if c branches otherwise fn
  | StSQL s => query c (sql_raw s) (fun _ => mret tt)
  | StBreak => afail errBreak
  | StContinue => afail errContinue
  | StReturn [] => afail errReturn
  | StReturn values => vals ← amap (st_eval R c) values; fn (mkRow [] vals);; afail errReturn
  | StReturnSQL s => exec_sql c s (fun r => r' ← fillUnnamed r; fn r');; afail errReturn
  | StReturnNext values => vals ← amap (st_eval R c) values; fn (mkRow [] vals)
  end.

(** *** Calls *)

(** [createValueFromLiteral]: the value of the literal, whatever the type of the
    parameter. *)
Definition default_value (l : literal) (t : DataType) : M sqlval :=
  match l with
  | LNull => on_heap (makeNull t)
  | LBool _ | LInt _ | LText _ => new_literal l
  | _ => afail (ErrMsg "unsupported literal type")
  end.

(** [validateArgs]. *)
Fixpoint validateArgs (params : list NamedType) (args : list sqlval) : M (list sqlval) :=
  match params, args with
  | [], [] => mret []
  | [], _ :: _ => afail (ErrMsg "expected at most")
  | p :: params', a :: args' =>
      t ← hgets (fun h => Type_of h a);
      if negb (DataType_Equals (nt_Type p) t) then afail ErrType
      else
        v ← on_heap (Cast a (nt_Type p));
        vs ← validateArgs params' args';
        mret (v :: vs)
  | p :: params', [] =>
      match nt_Default p with
      | None => afail (ErrMsg "missing required argument")
      | Some l =>
          v ← default_value l (nt_Type p);
          vs ← validateArgs params' [];
          mret (v :: vs)
      end
  end.

(** The check and the cast of one row that an action returns. *)
Fixpoint cast_row (types : list DataType) (vals : list sqlval) : M (list sqlval) :=
  match types, vals with
  | t :: types', v :: vals' =>
      vt ← hgets (fun h => Type_of h v);
      if negb (DataType_Equals vt t) then afail ErrType
      else
        v' ← on_heap (Cast v t);
        vs ← cast_row types' vals';
        mret (v' :: vs)
  | _, _ => mret []
  end.

Definition return_row (returns : option (list (bytes * DataType))) (fn : resultFunc) (r : row) : M unit :=
  let fields := default [] returns in
  if negb (bool_decide (length (row_Values r) = length fields)) then afail ErrReturnShape
  else
    vs ← cast_row (snd <$> fields) (row_Values r);
    fn (mkRow ((fun f => if bool_decide (f.1 = []) then unknownColName else f.1) <$> fields) vs).

(** The statements of an action: [errReturn] itself ends them. *)
Fixpoint run_body (c : nat) (stmts : list stmt) (fn : resultFunc) : M unit :=
  match stmts with
  | [] => mret tt
  | s :: rest =>
      r ← atry (st_exec R c s fn);
      match r with
      | Ok _ => run_body c rest fn
      | Err e => if bool_decide (e = errReturn) then mret tt else afail e
      end
  end.

(** The executable of [makeActionToExecutable]. *)
Definition call_action (c : nat) (ns : bytes) (act : action_def) (args : list sqlval) (fn : resultFunc) : M unit :=
  canExecute c ns (act_Modifiers act);;
  (if bool_decide (length (act_Parameters act) < length args)%nat then afail (ErrMsg "expected at most") else mret tt);;
  vals ← validateArgs (act_Parameters act) args;
  c2 ← subscope ns;
  aiter (fun '(p, v) => allocateVariable c2 (nt_Name p) v) (zip (act_Parameters act) vals);;
  run_body c2 (act_Body act) (return_row (act_Returns act) fn).

(** [builtInScalarFuncs] *)
Definition array_function (name : bytes) : option (list sqlval -> action heap sqlval) :=
  let unary f := fun args => match args with a :: _ => f a | _ => afail (ErrPanic "index out of range") end in
  let binary f := fun args => match args with a :: b :: _ => f a b | _ => afail (ErrPanic "index out of range") end in
  if bool_decide (name = str "array_length") then Some (unary array_length)
  else if bool_decide (name = str "array_append") then Some (binary array_append)
  else if bool_decide (name = str "array_prepend") then Some (binary array_prepend)
  else if bool_decide (name = str "array_cat") then Some (binary array_cat)
  else if bool_decide (name = str "array_remove") then Some (binary array_remove)
  else None.

(** The text of the first argument, empty when it is null. *)
Definition message (args : list sqlval) : M bytes :=
  match args with
  | ScalV (SvText (Some s)) :: _ => mret s
  | v :: _ => isNull ← hgets (fun h => Null h v);
              if isNull : bool then mret [] else afail (ErrPanic "interface conversion")
  | [] => afail (ErrPanic "index out of range")
  end.

(** The executable of [funcDefToExecutable]. *)
Definition call_function (c : nat) (name : bytes) (args : list sqlval) (fn : resultFunc) : M unit :=
  types ← hgets (fun h => Type_of h <$> args);
  retTyp ← alift (function_type name types);
  if bool_decide (name = str "notice") then m ← message args; modify (add_log m)
  else if bool_decide (name = str "error") then _ ← message args; afail ErrUserDefined
  else match array_function name with
  | Some f => res ← on_heap (f args); fn (mkRow [name] [res])
  | None =>
      e ← get_ctx c;
      if ec_queryActive e then afail ErrQueryActive
      else
        params ← amap (fun v => reads (fun st => to_db (is_heap st) v)) args;
        d ← reads (fun st => run_function name params (is_db st));
        res ← on_heap (scan_value retTyp d);
        fn (mkRow [name] [res])
  end.

Definition call_executable (c : nat) (f : executable) (args : list sqlval) (fn : resultFunc) : M unit :=
  match f with
  | ExAction ns act => call_action c ns act args fn
  | ExFunction name => call_function c name args fn
  end.
End step.

(** The interpreter with [n] nested evaluations and at most [n] iterations of a
    range loop. *)
Fixpoint run (n : nat) : steps :=
  match n with
  | O => mkSteps O (fun _ _ => afail out_of_steps) (fun _ _ _ => afail out_of_steps)
           (fun _ _ _ _ => afail out_of_steps)
  | S n => let R := run n in mkSteps (S n) (eval_expr R) (exec_stmt R) (call_executable R)
  end.

(** *** Entry point *)

(** The arguments of [call] against the parameters of the action. *)
Fixpoint soft_cast_args (args : list sqlval) (expect : list NamedType) : M (list sqlval) :=
  match args, expect with
  | [], _ => mret []
  | a :: args', p :: expect' =>
      r ← on_heap (soft_cast a (nt_Type p));
      if snd r : bool then vs ← soft_cast_args args' expect'; mret (fst r :: vs) else afail ErrType
  | _ :: _, [] => afail ErrActionInvocation
  end.

(** [newExecCtx] *)
Definition newExecCtx (ns : bytes) (toplevel : bool) : M nat := fun st =>
  (Ok (length (is_ctxs st)), set_ctxs (is_ctxs st ++ [mkExec (mkScope ∅ ns toplevel) [] false false]) st).

Definition DefaultNamespace : bytes := str "main".

(** [baseInterpreter.call]: [Ok None] is a result without an error, [Ok (Some e)]
    one with the error of the user's code in it. *)
Definition call (n : nat) (namespace action : bytes) (args : list sqlval) (resultFn : resultFunc) (toplevel : bool) :
    M (option error) :=
  let ns := ToLower (if bool_decide (namespace = []) then DefaultNamespace else namespace) in
  c ← newExecCtx ns toplevel;
  match namespaces I !! ns with
  | None => afail (ErrMsg "namespace does not exist")
  | Some nd =>
      match availableFunctions nd !! ToLower action with
      | None => afail ErrUnknownAction
      | Some (ExFunction _) => afail (ErrMsg "built-in function cannot be called directly")
      | Some (ExAction ns' act) =>
          vals ← (if bool_decide (length (act_Parameters act) < length args)%nat then afail ErrActionInvocation
                  else soft_cast_args args (act_Parameters act));
          r ← acatch (st_call (run n) c (ExAction ns' act) vals resultFn);
          match r with
          | Ok _ => mret None
          | Err e => if errors_is e ErrUserDefined || sqlstate_user e then mret (Some e) else afail e
          end
      end
  end.
End steps.
End interp.
