(* ===== verification/InterpSound.v ===== *)
(** * Soundness of the interpreter of actions

    An execution keeps the values well formed, and every variable that exists
    keeps its type, in every context and scope; a block leaves no variable
    behind, and what an action returns has the types it declares.  [ispec] is the
    specification of a step; a lemma per function of Interp.v, and an induction
    over the number of steps, carry it to whole executions. *)

From S2P Require Import Prelude.
From S2P Require Import BigInt.
From S2P Require Import Ident.
From S2P Require Import Payloads.
From S2P Require Import Values.
From S2P Require Import SqlValues.
From S2P Require Import SqlArrays.
From S2P Require Import Roles.
From S2P Require Import Cache.
From S2P Require Import SqlFacts.
From S2P Require Import Interp.
From Stdlib Require Import Strings.Byte.

#[local] Open Scope Z_scope.

(** ** Types of values *)

Definition canonical_names : list bytes :=
  [intStr; textStr; boolStr; byteaStr; uuidStr; NumericStr; nullStr; str "record"].

Definition canonical (t : DataType) : Prop := bool_decide (dt_Name t ∈ canonical_names) = true.

Lemma Type_of_canonical h v : canonical (Type_of h v) /\ type_ok (Type_of h v).
Proof.
  destruct v as [|s|l|fs]; cbn [Type_of]; [by split; [|right]| | |by split; [|right]].
  - destruct s; [by split; [|right]..|by split; [|left]].
  - destruct (h !! l) as [[|k valid xs cap|n]|]; cbn [cell_type]; try (by split; [|right]).
    destruct k; [by split; [|right]..|by split; [|left]].
Qed.

Lemma canonical_ascii t : canonical t -> forallb is_ascii (dt_Name t) = true /\ map lower_byte (dt_Name t) = dt_Name t.
Proof.
  unfold canonical. rewrite bool_decide_eq_true. generalize (dt_Name t). intros n Hin. unfold canonical_names in Hin.
  repeat (apply elem_of_cons in Hin as [->|Hin]; [by split|]). by apply elem_of_nil in Hin.
Qed.

Section types.
Context `{Strings}.

Lemma EqualsStrict_eq a b : canonical a -> canonical b -> EqualsStrict a b = true -> a = b.
Proof.
  intros [A1 L1]%canonical_ascii [A2 L2]%canonical_ascii. unfold EqualsStrict.
  destruct a as [n1 a1 [p1 q1]], b as [n2 a2 [p2 q2]]. cbn [IsArray Metadata dt_Name fst snd] in *.
  destruct (Bool.eqb_spec a1 a2) as [->|]; [|done]. cbn [negb].
  destruct (Z.eqb_spec p1 p2) as [->|]; [|done]. destruct (Z.eqb_spec q1 q2) as [->|]; [|done]. cbn [negb orb].
  rewrite EqualFold_ascii by done. rewrite L1, L2. by case_bool_decide as E; [intros _; rewrite E|].
Qed.

Lemma EqualsStrict_refl a : canonical a -> EqualsStrict a a = true.
Proof.
  intros [A1 L1]%canonical_ascii. unfold EqualsStrict. rewrite eqb_reflx, !Z.eqb_refl. cbn [negb orb].
  rewrite EqualFold_ascii by done. by apply bool_decide_eq_true.
Qed.
End types.

(** ** Well-formed states *)

Section facts.
Context `{HS : Strings} `{HD : Decimals} `{HA : !DecimalArith} `{HG : GoRuntime} `{HDB : Database} `{HC : !StatementCache}.
Context (I : interpreter).

Definition scope_ok (h : heap) (s : scopeContext) : Prop := map_Forall (fun _ v => val_ok h v) (sc_variables s).

Definition ctx_ok (h : heap) (e : executionContext) : Prop :=
  scope_ok h (ec_scope e) /\ Forall (scope_ok h) (ec_parents e).

Definition ret_ok (h : heap) (r : nat * option sqlval) : Prop :=
  match r.2 with Some v => val_ok h v | None => True end.

Record state_ok (st : istate) : Prop := mkStateOk {
  so_heap : heap_ok (is_heap st);
  so_ctxs : Forall (ctx_ok (is_heap st)) (is_ctxs st);
  so_rets : Forall (ret_ok (is_heap st)) (is_rets st);
  so_signer : forall g, Signer (engineCtx I) = Some g -> slice_ok (is_heap st) g;
  so_literals : Forall (slice_ok (is_heap st)) (blob_literals I)
}.

(** ** What an execution keeps *)

(** Every variable of the scope is still there with its type; [closed] scopes
    have no new variable. *)
Record scope_keeps (closed : bool) (h h' : heap) (s s' : scopeContext) : Prop := mkScopeKeeps {
  sk_namespace : sc_namespace s' = sc_namespace s;
  sk_types : forall x v, sc_variables s !! x = Some v ->
    exists v', sc_variables s' !! x = Some v' /\ Type_of h' v' = Type_of h v;
  sk_closed : closed = true -> forall x, sc_variables s !! x = None -> sc_variables s' !! x = None
}.

(** The current scope may get new variables, its parents may not. *)
Record ctx_keeps (h h' : heap) (e e' : executionContext) : Prop := mkCtxKeeps {
  ck_scope : scope_keeps false h h' (ec_scope e) (ec_scope e');
  ck_parents : Forall2 (scope_keeps true h h') (ec_parents e) (ec_parents e');
  ck_inAction : ec_inAction e' = ec_inAction e
}.

Record keeps (st st' : istate) : Prop := mkKeeps {
  ks_heap : hext (is_heap st) (is_heap st');
  ks_ctxs : forall c e, is_ctxs st !! c = Some e ->
    exists e', is_ctxs st' !! c = Some e' /\ ctx_keeps (is_heap st) (is_heap st') e e'
}.

Lemma scope_keeps_refl b h h' s : hext h h' -> scope_ok h s -> scope_keeps b h h' s s.
Proof.
  intros He Hs. split; [done| |done]. intros x v Hx. exists v. split; [done|].
  apply Type_of_mono; [done|]. by apply (Hs x).
Qed.

Lemma scope_keeps_trans b h1 h2 h3 s1 s2 s3 :
  scope_keeps b h1 h2 s1 s2 -> scope_keeps b h2 h3 s2 s3 -> scope_keeps b h1 h3 s1 s3.
Proof.
  intros [N1 T1 C1] [N2 T2 C2]. split; [congruence| |auto]. intros x v Hx.
  destruct (T1 x v Hx) as (v2 & Hx2 & E2). destruct (T2 x v2 Hx2) as (v3 & Hx3 & E3). exists v3. split; [done|congruence].
Qed.

Lemma scope_keeps_weaken h h' s s' : scope_keeps true h h' s s' -> scope_keeps false h h' s s'.
Proof. by intros [? ? ?]. Qed.

Lemma ctx_keeps_refl h h' e : hext h h' -> ctx_ok h e -> ctx_keeps h h' e e.
Proof.
  intros He [Hs Hp]. split; [by apply scope_keeps_refl| |done].
  apply Forall_Forall2_diag. eapply list.Forall_impl; [exact Hp|]. intros s. by apply scope_keeps_refl.
Qed.

Lemma ctx_keeps_trans h1 h2 h3 e1 e2 e3 :
  ctx_keeps h1 h2 e1 e2 -> ctx_keeps h2 h3 e2 e3 -> ctx_keeps h1 h3 e1 e3.
Proof.
  intros [S1 P1 A1] [S2 P2 A2]. split; [by eapply scope_keeps_trans| |congruence].
  clear -P1 P2. revert P2. generalize (ec_parents e3). induction P1; intros l3 P2; inversion P2; subst; constructor; auto.
  by eapply scope_keeps_trans.
Qed.

Lemma keeps_refl st : state_ok st -> keeps st st.
Proof.
  intros Hst. split; [reflexivity|]. intros c e He. exists e. split; [done|]. apply ctx_keeps_refl; [reflexivity|].
  by apply (list.Forall_lookup_1 _ _ _ _ (so_ctxs _ Hst) He).
Qed.

Lemma keeps_trans st1 st2 st3 : keeps st1 st2 -> keeps st2 st3 -> keeps st1 st3.
Proof.
  intros [H1 C1] [H2 C2]. split; [by transitivity (is_heap st2)|]. intros c e He.
  destruct (C1 c e He) as (e2 & He2 & K2). destruct (C2 c e2 He2) as (e3 & He3 & K3).
  exists e3. split; [done|by eapply ctx_keeps_trans].
Qed.

Lemma ctx_ok_mono h h' e : hext h h' -> ctx_ok h e -> ctx_ok h' e.
Proof.
  intros He [Hs Hp]. assert (forall s, scope_ok h s -> scope_ok h' s) as Hm.
  { intros s Hs' x v Hx. eapply val_ok_mono; [done|]. by apply (Hs' x). }
  split; [auto|]. eapply list.Forall_impl; [exact Hp|]. auto.
Qed.

(** A state whose heap was extended. *)
Lemma state_ok_heap st h : state_ok st -> hext (is_heap st) h -> heap_ok h -> state_ok (set_heap h st).
Proof.
  intros [Hh Hc Hr Hs Hl] He Hk. split; cbn.
  - done.
  - eapply list.Forall_impl; [exact Hc|]. intros e. by apply ctx_ok_mono.
  - eapply list.Forall_impl; [exact Hr|]. intros [n [v|]]; [|done]. by apply val_ok_mono.
  - intros g Hg. eapply slice_ok_mono; eauto.
  - eapply list.Forall_impl; [exact Hl|]. intros g. by apply slice_ok_mono.
Qed.

Lemma keeps_heap st h : state_ok st -> hext (is_heap st) h -> keeps st (set_heap h st).
Proof.
  intros Hst He. split; cbn; [done|]. intros c e Hc. exists e. split; [done|]. apply ctx_keeps_refl; [done|].
  by apply (list.Forall_lookup_1 _ _ _ _ (so_ctxs _ Hst) Hc).
Qed.

(** ** Specifications of steps *)

(** From a well-formed state, [m] leads to a well-formed one that keeps the
    variables, and [Q] holds of its result. *)
Definition ispec {A} (m : action istate A) (Q : A -> istate -> Prop) (st : istate) : Prop :=
  state_ok st ->
  state_ok (snd (m st)) /\ keeps st (snd (m st)) /\
  match fst (m st) with Ok a => Q a (snd (m st)) | Err _ => True end.

Definition vok (v : sqlval) (st : istate) : Prop := val_ok (is_heap st) v.
Definition voks (vs : list sqlval) (st : istate) : Prop := Forall (fun v => vok v st) vs.
Definition anything {A} (_ : A) (_ : istate) : Prop := True.

Lemma vok_mono v st st' : keeps st st' -> vok v st -> vok v st'.
Proof. intros K. apply val_ok_mono, K. Qed.

Lemma voks_mono vs st st' : keeps st st' -> voks vs st -> voks vs st'.
Proof. intros K Hv. eapply list.Forall_impl; [exact Hv|]. intros v. by apply vok_mono. Qed.

Lemma ispec_ret {A} (a : A) (Q : A -> istate -> Prop) st : Q a st -> ispec (mret a) Q st.
Proof. intros HQ Hst. split_and!; [done|by apply keeps_refl|done]. Qed.

Lemma ispec_fail {A} e (Q : A -> istate -> Prop) st : ispec (afail e) Q st.
Proof. intros Hst. by split_and!; [|apply keeps_refl|]. Qed.

Lemma ispec_reads {A} (f : istate -> result A) (Q : A -> istate -> Prop) st :
  (forall a, state_ok st -> f st = Ok a -> Q a st) -> ispec (reads f) Q st.
Proof. intros HQ Hst. split_and!; cbn; [done|by apply keeps_refl|]. destruct (f st) eqn:E; [by apply HQ|done]. Qed.

Lemma ispec_lift {A} (r : result A) (Q : A -> istate -> Prop) st :
  (forall a, r = Ok a -> Q a st) -> ispec (alift r) Q st.
Proof. intros HQ. apply (ispec_reads (fun _ => r)). auto. Qed.

Lemma ispec_gets {A} (f : istate -> A) (Q : A -> istate -> Prop) st :
  (state_ok st -> Q (f st) st) -> ispec (gets f) Q st.
Proof. intros HQ. apply (ispec_reads (fun st => Ok (f st))). intros a Hst [=<-]. auto. Qed.

Lemma ispec_mono {A} (m : action istate A) (Q Q' : A -> istate -> Prop) st :
  ispec m Q st -> (forall a st', keeps st st' -> state_ok st' -> Q a st' -> Q' a st') -> ispec m Q' st.
Proof.
  intros Hm HQ Hst. destruct (Hm Hst) as (H1 & H2 & H3). split_and!; [done|done|].
  destruct (fst (m st)); [by apply HQ|done].
Qed.

Lemma ispec_bind {A B} (m : action istate A) (k : A -> action istate B) Q (Q' : B -> istate -> Prop) st :
  ispec m Q st -> (forall a st', keeps st st' -> state_ok st' -> Q a st' -> ispec (k a) Q' st') ->
  ispec (m ≫= k) Q' st.
Proof.
  intros Hm HQ Hst. destruct (Hm Hst) as (H1 & H2 & H3). unfold mbind, action_bind.
  destruct (m st) as [[a|e] st1] eqn:E; cbn in *; [|by split_and!].
  destruct (HQ a st1 H2 H1 H3 H1) as (H4 & H5 & H6). split_and!; [done|by eapply keeps_trans|done].
Qed.

Lemma ispec_try {A} (m : action istate A) (Q : A -> istate -> Prop) st :
  ispec m Q st -> ispec (atry m) (fun r st' => match r with Ok a => Q a st' | Err _ => True end) st.
Proof. intros Hm Hst. destruct (Hm Hst) as (H1 & H2 & H3). unfold atry. by destruct (m st). Qed.

Lemma ispec_catch {A} (m : action istate A) (Q : A -> istate -> Prop) st :
  ispec m Q st -> ispec (acatch m) (fun r st' => match r with Ok a => Q a st' | Err _ => True end) st.
Proof.
  intros Hm Hst. destruct (Hm Hst) as (H1 & H2 & H3). unfold acatch. destruct (m st) as [[a|e] st1]; [done|].
  cbn in *. by destruct (is_panic e).
Qed.

Lemma ispec_heap {A} (m : action heap A) (Q : A -> heap -> Prop) (Q' : A -> istate -> Prop) st :
  (heap_ok (is_heap st) -> hspec m Q (is_heap st)) ->
  (forall a st', keeps st st' -> is_ctxs st' = is_ctxs st -> Q a (is_heap st') -> Q' a st') -> ispec (on_heap m) Q' st.
Proof.
  intros Hm HQ Hst. destruct (Hm (so_heap _ Hst)) as (H1 & H2 & H3). unfold on_heap.
  destruct (m (is_heap st)) as [r h] eqn:E. cbn in *.
  assert (state_ok (set_heap h st)) as Hok by by apply state_ok_heap.
  assert (keeps st (set_heap h st)) as Hk by by apply keeps_heap.
  split_and!; [done|done|]. destruct r; [by apply HQ|done].
Qed.

(** Steps that change neither values nor contexts. *)
Lemma ispec_modify (f : istate -> istate) (Q : unit -> istate -> Prop) st :
  is_heap (f st) = is_heap st -> is_ctxs (f st) = is_ctxs st -> is_rets (f st) = is_rets st -> Q tt (f st) ->
  ispec (modify f) Q st.
Proof.
  intros E1 E2 E3 HQ Hst. destruct Hst as [Hh Hc Hr Hs Hl] eqn:EH. split_and!; cbn.
  - split; rewrite ?E1, ?E2, ?E3; auto.
  - split; rewrite E1; [reflexivity|]. rewrite E2. intros c e He. exists e. split; [done|].
    apply ctx_keeps_refl; [reflexivity|]. by apply (list.Forall_lookup_1 _ _ _ _ Hc He).
  - done.
Qed.

(** *** Contexts *)

Lemma ispec_get_ctx c (Q : executionContext -> istate -> Prop) st :
  (forall e, is_ctxs st !! c = Some e -> ctx_ok (is_heap st) e -> Q e st) -> ispec (get_ctx c) Q st.
Proof.
  intros HQ Hst. unfold get_ctx. destruct (is_ctxs st !! c) as [e|] eqn:E; cbn; (split_and!; [done|by apply keeps_refl|]); [|done].
  apply HQ; [done|]. by apply (list.Forall_lookup_1 _ _ _ _ (so_ctxs _ Hst) E).
Qed.

Lemma state_ok_ctxs st c f e :
  state_ok st -> is_ctxs st !! c = Some e -> ctx_ok (is_heap st) (f e) -> state_ok (set_ctxs (alter f c (is_ctxs st)) st).
Proof.
  intros [Hh Hc Hr Hs Hl] E Hf. split; cbn; try done. apply list.Forall_lookup_2. intros i e' Hi.
  destruct (decide (i = c)) as [->|Hne].
  - rewrite list_lookup_alter_eq, E in Hi. by simplify_eq/=.
  - rewrite list_lookup_alter_ne in Hi by done. by apply (list.Forall_lookup_1 _ _ _ _ Hc Hi).
Qed.

Lemma keeps_ctxs st c f e :
  state_ok st -> is_ctxs st !! c = Some e -> ctx_keeps (is_heap st) (is_heap st) e (f e) ->
  keeps st (set_ctxs (alter f c (is_ctxs st)) st).
Proof.
  intros Hst E Hf. split; cbn; [reflexivity|]. intros i e' Hi. destruct (decide (i = c)) as [->|Hne].
  - rewrite list_lookup_alter_eq, E. cbn. rewrite E in Hi. injection Hi as <-. by eexists.
  - rewrite list_lookup_alter_ne by done. exists e'. split; [done|]. apply ctx_keeps_refl; [reflexivity|].
    by apply (list.Forall_lookup_1 _ _ _ _ (so_ctxs _ Hst) Hi).
Qed.

Lemma ispec_upd_ctx c f (Q : unit -> istate -> Prop) st e :
  is_ctxs st !! c = Some e ->
  (ctx_ok (is_heap st) e -> ctx_ok (is_heap st) (f e) /\ ctx_keeps (is_heap st) (is_heap st) e (f e)) ->
  (forall st', is_ctxs st' !! c = Some (f e) -> is_heap st' = is_heap st -> Q tt st') ->
  ispec (upd_ctx c f) Q st.
Proof.
  intros E Hf HQ Hst. destruct Hf as [Hf1 Hf2]; [by apply (list.Forall_lookup_1 _ _ _ _ (so_ctxs _ Hst) E)|].
  split_and!; [by eapply state_ok_ctxs|by eapply keeps_ctxs|]. apply HQ; [|done]. cbn. by rewrite list_lookup_alter_eq, E.
Qed.

(** Steps that only read go on in the same state. *)
Lemma ispec_bind_gets {A B} (f : istate -> A) (k : A -> action istate B) Q st :
  ispec (k (f st)) Q st -> ispec (gets f ≫= k) Q st.
Proof. done. Qed.

Lemma ispec_bind_hgets {A B} (f : heap -> A) (k : A -> action istate B) Q st :
  ispec (k (f (is_heap st))) Q st -> ispec (hgets f ≫= k) Q st.
Proof. done. Qed.

Lemma ispec_bind_reads {A B} (f : istate -> result A) (k : A -> action istate B) Q st :
  (forall a, f st = Ok a -> ispec (k a) Q st) -> ispec (reads f ≫= k) Q st.
Proof.
  intros Hk Hst. unfold mbind, action_bind, reads. destruct (f st) as [a|e] eqn:E; [by apply Hk|].
  by split_and!; [|apply keeps_refl|].
Qed.

Lemma ispec_bind_lift {A B} (r : result A) (k : A -> action istate B) Q st :
  (forall a, r = Ok a -> ispec (k a) Q st) -> ispec (alift r ≫= k) Q st.
Proof. apply (ispec_bind_reads (fun _ => r)). Qed.

Lemma ispec_bind_get_ctx {B} c (k : executionContext -> action istate B) Q st :
  (forall e, is_ctxs st !! c = Some e -> ctx_ok (is_heap st) e -> ispec (k e) Q st) -> ispec (get_ctx c ≫= k) Q st.
Proof.
  intros Hk. eapply ispec_bind; [apply (ispec_get_ctx c (fun e st' => st' = st /\ is_ctxs st !! c = Some e /\ ctx_ok (is_heap st) e)); by auto|].
  intros e st' _ _ (-> & E & Hc). by apply Hk.
Qed.


(** [exec.scope.child(); defer exec.scope.popScope()]: no variable of the block
    is left. *)
Lemma ispec_in_child {A} c (m : action istate A) st :
  (forall st', is_heap st' = is_heap st -> ispec m anything st') -> ispec (in_child c m) anything st.
Proof.
  intros Hm Hst. unfold in_child, mbind, action_bind, get_ctx.
  destruct (is_ctxs st !! c) as [e|] eqn:E; [|split_and!; [done|by apply keeps_refl|done]].
  pose proof (list.Forall_lookup_1 _ _ _ _ (so_ctxs _ Hst) E) as [Hes Hep]. cbn [upd_ctx modify].
  set (st1 := set_ctxs (alter child c (is_ctxs st)) st).
  assert (state_ok st1) as Hok1 by (eapply state_ok_ctxs; [done|done|]; split; [done|by constructor]).
  assert (is_ctxs st1 !! c = Some (child e)) as E1 by (cbn; by rewrite list_lookup_alter_eq, E).
  destruct (Hm st1 eq_refl Hok1) as (Hok2 & K12 & _). unfold atry. destruct (m st1) as [r st2]. cbn [fst snd] in *.
  destruct (ks_ctxs _ _ K12 c _ E1) as (e2 & E2 & [Ks Kp Ka]).
  pose proof (list.Forall_lookup_1 _ _ _ _ (so_ctxs _ Hok2) E2) as [_ Hep2].
  cbn in Kp. inversion Kp as [|p0 p0' ps ps' Kp0 Kps Ep0 Ep]; subst. rewrite <- Ep in Hep2.
  apply list.Forall_cons in Hep2 as [Hp0 Hps].
  assert (popScope e2 = mkExec p0' ps' (ec_queryActive e2) (ec_inAction e2)) as Epop by (unfold popScope; by rewrite <- Ep).
  split_and!; [|split; cbn|by destruct r].
  - cbn. eapply state_ok_ctxs; [done|done|]. by rewrite Epop.
  - apply K12.
  - intros i e' Hi. destruct (decide (i = c)) as [->|Hne].
    + rewrite E in Hi. injection Hi as <-. exists (popScope e2). rewrite list_lookup_alter_eq, E2. split; [done|].
      rewrite Epop. split; cbn; [|done|done]. apply scope_keeps_weaken. destruct Kp0. by split.
    + rewrite list_lookup_alter_ne by done. apply (ks_ctxs _ _ K12). cbn. by rewrite list_lookup_alter_ne.
Qed.

(** *** Variables *)

Lemma var_in_lookup name ss v d : var_in name ss = Some (v, d) -> exists s, ss !! d = Some s /\ sc_variables s !! name = Some v.
Proof.
  revert d. induction ss as [|s ss IH]; intros d; cbn; [done|]. destruct (sc_variables s !! name) as [w|] eqn:Es.
  - intros [= -> <-]. by exists s.
  - destruct (var_in name ss) as [[w d']|]; [|done]. cbn. intros [= -> <-]. cbn. by apply IH.
Qed.

Lemma scope_ok_put h name v s : scope_ok h s -> val_ok h v -> scope_ok h (put_var name v s).
Proof. intros Hs Hv. by apply map_Forall_insert_2. Qed.

Lemma scope_keeps_put b h name v v0 s :
  scope_ok h s -> sc_variables s !! name = Some v0 -> Type_of h v = Type_of h v0 -> scope_keeps b h h s (put_var name v s).
Proof.
  intros Hs E0 Et. split; cbn; [done| |].
  - intros x w Hx. destruct (decide (x = name)) as [->|Hne].
    + exists v. rewrite lookup_insert_eq. split; [done|congruence].
    + exists w. by rewrite lookup_insert_ne.
  - intros _ x Hx. rewrite lookup_insert_ne; [done|congruence].
Qed.

(** An assignment to an existing variable with a value of its type. *)
Lemma put_at_keeps h name v v0 d e s :
  ctx_ok h e -> val_ok h v -> (ec_scope e :: ec_parents e) !! d = Some s -> sc_variables s !! name = Some v0 ->
  Type_of h v = Type_of h v0 -> ctx_ok h (put_at name v d e) /\ ctx_keeps h h e (put_at name v d e).
Proof.
  intros [Hs Hp] Hv Hd E0 Et. destruct d as [|d]; simpl in Hd; cbn [put_at].
  - injection Hd as <-. split; [by split; [apply scope_ok_put|]|]. split; cbn; [by eapply scope_keeps_put| |done].
    apply Forall_Forall2_diag. eapply list.Forall_impl; [exact Hp|]. intros ? ?. by apply scope_keeps_refl.
  - split; [split; [done|]|split; cbn; [by apply scope_keeps_refl| |done]].
    + cbn. apply list.Forall_alter; [done|]. intros s' Hs' E'. by apply scope_ok_put.
    + apply Forall2_same_length_lookup_2; [by rewrite length_alter|]. intros i s1 s2 H1 H2.
      pose proof (list.Forall_lookup_1 _ _ _ _ Hp H1) as Hs1. destruct (decide (i = d)) as [->|Hne].
      * rewrite list_lookup_alter_eq, H1 in H2. cbn in H2. injection H2 as <-. rewrite Hd in H1. injection H1 as ->.
        by eapply scope_keeps_put.
      * rewrite list_lookup_alter_ne, H1 in H2 by done. injection H2 as <-. by apply scope_keeps_refl.
Qed.

Lemma allocateVariable_spec c name v st : vok v st -> ispec (allocateVariable c name v) anything st.
Proof.
  intros Hv. unfold allocateVariable.
  apply ispec_bind_get_ctx. intros e E Hc. destruct (sc_variables (ec_scope e) !! name) as [w|] eqn:En; [apply ispec_fail|].
  eapply ispec_upd_ctx; [done| |done]. intros [Hs Hp]. split; [split; [by apply scope_ok_put|done]|]. split; cbn.
  - split; cbn; [done| |done]. intros x w Hx. exists w. rewrite lookup_insert_ne by congruence. by split.
  - apply Forall_Forall2_diag. eapply list.Forall_impl; [exact Hp|]. intros ? ?. by apply scope_keeps_refl.
  - done.
Qed.

Lemma setVariable_spec c name v st : vok v st -> ispec (setVariable c name v) anything st.
Proof.
  intros Hv. unfold setVariable. destruct (bool_decide _); [apply ispec_fail|].
  apply ispec_bind_get_ctx. intros e E Hc. destruct (getVarFromScope name e) as [[v0 d]|] eqn:Ev; [|by apply allocateVariable_spec].
  apply var_in_lookup in Ev as (s & Hd & E0).
  assert (val_ok (is_heap st) v0) as Hv0.
  { destruct Hc as [Hs Hp]. assert (scope_ok (is_heap st) s) as Hs'; [|by apply (Hs' name)].
    destruct d; cbn in Hd; [by injection Hd as <-|]. by apply (list.Forall_lookup_1 _ _ _ _ Hp Hd). }
  do 3 apply ispec_bind_hgets.
  destruct (Null (is_heap st) v).
  - eapply ispec_bind.
    + apply (ispec_heap _ (typed (Type_of (is_heap st) v0))
        (fun nv st' => is_ctxs st' = is_ctxs st /\ typed (Type_of (is_heap st) v0) nv (is_heap st'))); [|by auto].
      intros Hh. eapply hspec_mono; [by apply makeNull_spec|]. by intros ? ? _ _ [? _].
    + intros nv st' K Hok [Ec [Hnv Ht]]. rewrite <- Ec in E. eapply ispec_upd_ctx; [done| |done]. intros Hc'.
      eapply put_at_keeps; [done|done|done|done|]. rewrite Ht by apply Type_of_canonical. symmetry. apply Type_of_mono; [apply K|done].
  - destruct (EqualsStrict _ _) eqn:Eq; [|apply ispec_fail].
    apply EqualsStrict_eq in Eq; [|by apply Type_of_canonical..].
    eapply ispec_upd_ctx; [done| |done]. intros _. by eapply put_at_keeps.
Qed.

(** *** Reading variables *)

Lemma ispec_assume {A} (m : action istate A) Q st : (state_ok st -> ispec m Q st) -> ispec m Q st.
Proof. intros Hm Hst. by apply Hm. Qed.

Lemma int8_ok z st : vok (int8 (i64 z)) st.
Proof. apply (swrap_range 64). lia. Qed.

(** A value made by an operation on the heap. *)
Lemma ispec_value (m : action heap sqlval) st :
  (heap_ok (is_heap st) -> hspec m (fun v h => val_ok h v) (is_heap st)) -> ispec (on_heap m) vok st.
Proof. intros Hm. by eapply ispec_heap. Qed.

Lemma makeNull_value t h : heap_ok h -> hspec (makeNull t) (fun v h => val_ok h v) h.
Proof. intros Hh. eapply hspec_mono; [by apply makeNull_spec|]. by intros ? ? _ _ [[? _] _]. Qed.

Lemma newZeroValue_value t h : heap_ok h -> hspec (newZeroValue t) (fun v h => val_ok h v) h.
Proof. intros Hh. eapply hspec_mono; [by apply newZeroValue_spec|]. by intros ? ? _ _ [[? _] _]. Qed.

Lemma Cast_value v t h : heap_ok h -> val_ok h v -> hspec (Cast v t) (fun v h => val_ok h v) h.
Proof. intros Hh Hv. eapply hspec_mono; [by apply Cast_spec|]. by intros ? ? _ _ [? _]. Qed.

Lemma var_ok name e v d st : ctx_ok (is_heap st) e -> getVarFromScope name e = Some (v, d) -> vok v st.
Proof.
  intros [Hs Hp] Ev. apply var_in_lookup in Ev as (s & Hd & E0).
  assert (scope_ok (is_heap st) s) as Hs'; [|by apply (Hs' name)].
  destruct d; simpl in Hd; [by injection Hd as <-|]. by apply (list.Forall_lookup_1 _ _ _ _ Hp Hd).
Qed.

Lemma contextual_spec e name st : ispec (contextual I e name) vok st.
Proof.
  unfold contextual. apply ispec_assume. intros Hst.
  repeat match goal with
  | |- ispec (if InvalidTxCtx _ then _ else _) _ _ => destruct (InvalidTxCtx _); [apply ispec_fail|]
  | |- ispec (if bool_decide (?a = str ?b) then _ else _) _ _ => destruct (bool_decide (a = str b))
  end; try (apply ispec_ret; done); try (apply ispec_ret; apply int8_ok); try apply ispec_fail.
  - apply ispec_ret. cbn. destruct (Signer (engineCtx I)) as [g|] eqn:E; [by apply (so_signer _ Hst)|done].
  - apply ispec_bind_lift. intros [b|] _; [|by apply ispec_ret].
    apply (ispec_bind _ _ (fun s st' => slice_ok (is_heap st') s)).
    + eapply (ispec_heap _ (fun s h => slice_ok h s)); [|by auto]. intros Hh. by apply hspec_alloc_bytes.
    + intros s st' _ _ Hs. by apply ispec_ret.
Qed.

Lemma getVariable_spec c name st : ispec (getVariable I c name) vok st.
Proof.
  unfold getVariable. destruct name as [|b name]; [apply ispec_fail|].
  assert (ispec (e ← get_ctx c; match getVarFromScope (b :: name) e with
    | Some (v, _) => mret v | None => afail ErrUnknownVariable end) vok st) as Hd.
  { apply ispec_bind_get_ctx. intros e E Hc. destruct (getVarFromScope _ e) as [[v d]|] eqn:Ev; [|apply ispec_fail].
    apply ispec_ret. by eapply var_ok. }
  destruct b; try (apply ispec_fail); [exact Hd|].
  apply ispec_bind_get_ctx. intros e _ _. apply contextual_spec.
Qed.

(** *** Sequences *)

Lemma amap_spec {A} (f : A -> action istate sqlval) l st :
  (forall x st', x ∈ l -> keeps st st' -> ispec (f x) vok st') -> ispec (amap f l) voks st.
Proof.
  revert st. induction l as [|x l IH]; intros st Hf; cbn [amap]; [by apply ispec_ret; constructor|].
  apply ispec_assume. intros Hst.
  eapply ispec_bind; [by apply Hf; [left|apply keeps_refl]|]. intros v st1 K1 Hok1 Hv.
  eapply ispec_bind.
  { apply IH. intros y st' Hy K'. apply Hf; [by right|by eapply keeps_trans]. }
  intros vs st2 K2 Hok2 Hvs. apply ispec_ret. constructor; [by eapply vok_mono|done].
Qed.

Lemma aiter_spec {A} (f : A -> action istate unit) l st :
  (forall x st', x ∈ l -> keeps st st' -> ispec (f x) anything st') -> ispec (aiter f l) anything st.
Proof.
  revert st. induction l as [|x l IH]; intros st Hf; cbn [aiter]; [by apply ispec_ret|].
  apply ispec_assume. intros Hst.
  eapply ispec_bind; [by apply Hf; [left|apply keeps_refl]|]. intros [] st1 K1 Hok1 _.
  apply IH. intros y st' Hy K'. apply Hf; [by right|by eapply keeps_trans].
Qed.

Lemma elem_voks v vs st : voks vs st -> v ∈ vs -> vok v st.
Proof. intros Hv. by apply (proj1 (list.Forall_forall _ _) Hv). Qed.

(** *** Rows and queries *)

Definition row_ok (r : row) (st : istate) : Prop := voks (row_Values r) st.

Definition rows_ok (rs : list row) (st : istate) : Prop := Forall (fun r => row_ok r st) rs.

(** A function that receives rows that satisfy [P]. *)
Definition takes (P : row -> istate -> Prop) (fn : row -> action istate unit) : Prop :=
  forall r st, P r st -> ispec (fn r) anything st.

Lemma scan_scalar_spec t d h : heap_ok h -> hspec (scan_scalar t d) (fun v h => val_ok h v) h.
Proof.
  intros Hh. unfold scan_scalar. destruct (kind_named t) as [[| | | | |meta]|], d; try (by apply makeNull_value);
    try (by apply hspec_fail); try (apply hspec_ret; [done|done]).
  - apply hspec_ret; [done|]. apply (swrap_range 64). lia.
  - eapply hspec_bind; [by apply (hspec_alloc_bytes _ _ (fun s h => slice_ok h s))|].
    intros s h' _ Hh' Hs. by apply hspec_ret.
  - destruct (dec _ _); [by apply hspec_ret|by apply hspec_fail].
Qed.

Lemma scan_elems_spec t l h : heap_ok h -> hspec (scan_elems t l) (fun vs h => Forall (val_ok h) vs) h.
Proof.
  revert h. induction l as [|d l IH]; intros h Hh; cbn [scan_elems]; [by apply hspec_ret; [|constructor]|].
  eapply hspec_bind; [by apply scan_scalar_spec|]. intros v h1 _ Hh1 Hv.
  eapply hspec_bind; [by apply IH|]. intros vs h2 He Hh2 Hvs. apply hspec_ret; [done|].
  constructor; [by eapply val_ok_mono|done].
Qed.

Lemma scan_value_spec t d h : heap_ok h -> hspec (scan_value t d) (fun v h => val_ok h v) h.
Proof.
  intros Hh. unfold scan_value. destruct (IsArray t); [|by apply scan_scalar_spec].
  destruct d; try (by apply makeNull_value); try (by apply hspec_fail).
  eapply hspec_bind; [by apply scan_elems_spec|]. intros vs h' _ Hh' Hvs. by apply makeArray_spec.
Qed.

Lemma cache_get_spec key st : ispec (cache_get key) anything st.
Proof.
  unfold cache_get. intros Hst. destruct (c_get (is_cache st) key) as [p ch].
  destruct (ispec_modify (set_cache ch) anything st ltac:(done) ltac:(done) ltac:(done) ltac:(done) Hst) as (H1 & H2 & _).
  by split_and!.
Qed.

Lemma prepareQuery_spec c sql st : ispec (prepareQuery I c sql) (fun q st' => voks q.2 st') st.
Proof.
  unfold prepareQuery. apply ispec_bind_get_ctx. intros e E Hc.
  assert (forall p st', ispec (values ← getValues I c (q_params (if canMutateState I then deterministicSQL p else nonDeterministicSQL p));
      mret (if canMutateState I then deterministicSQL p else nonDeterministicSQL p, values)) (fun q st' => voks q.2 st') st') as Hv.
  { intros p st'. eapply ispec_bind; [apply amap_spec; intros; apply getVariable_spec|].
    intros vs st1 _ _ Hvs. by apply ispec_ret. }
  eapply ispec_bind; [apply cache_get_spec|]. intros [p|] st1 _ _ _; [apply Hv|]. eapply (ispec_bind _ _ anything).
  - apply ispec_bind_reads. intros d _. apply ispec_bind_reads. intros d2 _.
    eapply ispec_bind; [by apply (ispec_modify _ anything)|]. intros. by apply ispec_ret.
  - intros p st' _ _ _. apply Hv.
Qed.

Lemma run_query_spec q params st : ispec (run_query q params) anything st.
Proof.
  unfold run_query. intros Hst. destruct (exec_query q params (is_db st)) as [r d].
  destruct (ispec_modify (set_db d) anything st ltac:(done) ltac:(done) ltac:(done) ltac:(done) Hst) as (H1 & H2 & _).
  split_and!; [done|done|by destruct r].
Qed.

Lemma ispec_params args st : ispec (amap (fun v => reads (fun st => to_db (is_heap st) v)) args) anything st.
Proof.
  revert st. induction args as [|v args IH]; intros st; cbn [amap]; [by apply ispec_ret|].
  apply ispec_bind_reads. intros d _. eapply ispec_bind; [apply IH|]. intros. by apply ispec_ret.
Qed.

Lemma buffer_rows_spec q args st : ispec (buffer_rows q args) rows_ok st.
Proof.
  unfold buffer_rows. eapply ispec_bind; [apply ispec_params|]. intros params st1 _ _ _.
  eapply ispec_bind; [apply run_query_spec|]. intros rows st2 _ _ _. clear.
  revert st2. induction rows as [|vals rows IH]; intros st; cbn [amap]; [by apply ispec_ret; constructor|].
  eapply (ispec_bind _ _ row_ok).
  - eapply ispec_bind; [|by intros vs st' _ _ Hvs; apply ispec_ret].
    apply amap_spec. intros [t d] st' _ _. apply ispec_value. by apply scan_value_spec.
  - intros r st1 _ _ Hr. eapply ispec_bind; [apply IH|]. intros rs st2 K _ Hrs. apply ispec_ret.
    constructor; [by eapply voks_mono|done].
Qed.

(** A query: plan, rows, and the function on each of them. *)
Lemma query_rows_spec fn rows st : takes row_ok fn -> rows_ok rows st -> ispec (aiter fn rows) anything st.
Proof.
  intros Hfn Hr. apply aiter_spec. intros r st' Hin K. apply Hfn. eapply voks_mono; [done|].
  by apply (proj1 (list.Forall_forall _ _) Hr).
Qed.

Lemma nestedQuery_spec c sql fn st : takes row_ok fn -> ispec (nestedQuery I c sql fn) anything st.
Proof.
  intros Hfn. unfold nestedQuery. apply ispec_bind_gets. eapply ispec_bind.
  - apply ispec_try. eapply ispec_bind; [apply prepareQuery_spec|]. intros q st1 _ _ _.
    eapply ispec_bind; [apply buffer_rows_spec|]. intros rows st2 _ _ Hr. by apply query_rows_spec.
  - intros [[]|e] st' _ _ _; [by apply ispec_ret|].
    eapply (ispec_bind _ _ anything); [|intros; apply ispec_fail].
    unfold awhen. destruct (negb _); [by apply ispec_modify|by apply ispec_ret].
Qed.

(** Checks read the contexts only. *)
Lemma checkPrivilegeOnNamespace_spec c p ns st : ispec (checkPrivilegeOnNamespace I c p ns) anything st.
Proof.
  unfold checkPrivilegeOnNamespace. apply ispec_bind_get_ctx. intros e _ _.
  do 2 (case_match; [by apply ispec_ret|]).
  destruct (HasPrivilege _ _ _ _) as [[]|x]; [by apply (ispec_ret tt)|by apply (ispec_fail ErrDoesNotHavePrivilege)|by apply (ispec_fail x)].
Qed.

Lemma checkPrivilege_spec c p st : ispec (checkPrivilege I c p) anything st.
Proof. unfold checkPrivilege. apply ispec_bind_get_ctx. intros e _ _. apply checkPrivilegeOnNamespace_spec. Qed.

Lemma getNamespace_spec c ns st : ispec (getNamespace I c ns) (fun _ st' => st' = st) st.
Proof.
  unfold getNamespace. apply ispec_bind_get_ctx. intros e _ _. destruct (_ !! _); [by apply ispec_ret|apply ispec_fail].
Qed.

Lemma checkNamespaceMutability_spec c st : ispec (checkNamespaceMutability I c) anything st.
Proof.
  unfold checkNamespaceMutability. apply ispec_bind_get_ctx. intros e _ _. case_match; [apply ispec_fail|].
  eapply ispec_bind; [apply getNamespace_spec|]. intros n st' _ _ _. case_match; [apply ispec_fail|by apply ispec_ret].
Qed.

Lemma canExecute_spec c ns ms st : ispec (canExecute I c ns ms) anything st.
Proof.
  unfold canExecute. apply ispec_bind_get_ctx. intros e _ _.
  repeat case_match; try (first [by apply ispec_ret|by apply ispec_fail]). apply checkPrivilege_spec.
Qed.

Lemma ispec_set_active b c st :
  (exists e, is_ctxs st !! c = Some e) -> ispec (upd_ctx c (set_queryActive b)) (fun _ st' => exists e, is_ctxs st' !! c = Some e) st.
Proof.
  intros [e E]. eapply ispec_upd_ctx; [done| |by eauto]. intros [Hs Hp]. split; [done|]. split; cbn.
  - by apply scope_keeps_refl.
  - apply Forall_Forall2_diag. eapply list.Forall_impl; [exact Hp|]. intros ? ?. by apply scope_keeps_refl.
  - done.
Qed.

Lemma keeps_live st st' c : keeps st st' -> (exists e, is_ctxs st !! c = Some e) -> exists e, is_ctxs st' !! c = Some e.
Proof. intros K [e E]. destruct (ks_ctxs _ _ K c e E) as (e' & E' & _). by exists e'. Qed.

Lemma queryInternal_spec c sql fn check exempt st : takes row_ok fn -> ispec (queryInternal I c sql fn check exempt) anything st.
Proof.
  intros Hfn. unfold queryInternal. apply ispec_bind_get_ctx. intros e E Hc.
  destruct (ec_queryActive e); [by apply nestedQuery_spec|].
  eapply ispec_bind; [apply ispec_set_active; by eauto|]. intros [] st1 _ _ Hl1. eapply ispec_bind.
  - apply ispec_try. eapply ispec_bind; [apply prepareQuery_spec|]. intros q st2 _ _ _.
    eapply (ispec_bind _ _ anything).
    { unfold awhen. destruct check; [|by apply ispec_ret]. unfold checkReferencedSelects. apply ispec_bind_get_ctx. intros e' _ _.
      apply aiter_spec. intros ns st' _ _. case_match; [by apply ispec_ret|apply checkPrivilegeOnNamespace_spec]. }
    intros [] st3 _ _ _. eapply ispec_bind; [apply buffer_rows_spec|]. intros rows st4 _ _ Hr. by apply query_rows_spec.
  - intros r st2 K2 _ _. eapply ispec_bind; [apply ispec_set_active; by eapply keeps_live|].
    intros [] st3 _ _ _. by apply ispec_lift.
Qed.

(** The namespace of a context for the time of a statement. *)
Lemma ispec_in_namespace c ns e (m : action istate unit) st :
  is_ctxs st !! c = Some e -> (forall st', ispec m anything st') ->
  ispec (upd_ctx c (set_namespace ns);;
         r ← atry m;
         upd_ctx c (set_namespace (sc_namespace (ec_scope e)));; alift r) anything st.
Proof.
  intros E Hm Hst. pose proof (list.Forall_lookup_1 _ _ _ _ (so_ctxs _ Hst) E) as [Hes Hep].
  unfold mbind, action_bind. cbn [upd_ctx modify].
  set (st1 := set_ctxs (alter (set_namespace ns) c (is_ctxs st)) st).
  assert (state_ok st1) as Hok1 by (eapply state_ok_ctxs; [done|done|]; by split).
  assert (is_ctxs st1 !! c = Some (set_namespace ns e)) as E1 by (cbn; by rewrite list_lookup_alter_eq, E).
  destruct (Hm st1 Hok1) as (Hok2 & K12 & _). unfold atry. destruct (m st1) as [r st2]. cbn [fst snd] in *.
  destruct (ks_ctxs _ _ K12 c _ E1) as (e2 & E2 & [Ks Kp Ka]).
  pose proof (list.Forall_lookup_1 _ _ _ _ (so_ctxs _ Hok2) E2) as [Hs2 Hp2].
  split_and!; [|split; cbn|by destruct r].
  - cbn. eapply state_ok_ctxs; [done|done|]. by split.
  - apply K12.
  - intros i e' Hi. destruct (decide (i = c)) as [->|Hne].
    + rewrite E in Hi. injection Hi as <-. eexists. rewrite list_lookup_alter_eq, E2. split; [done|].
      split; cbn; [|done|done]. destruct Ks as [N T C]. by split.
    + rewrite list_lookup_alter_ne by done. apply (ks_ctxs _ _ K12). cbn. by rewrite list_lookup_alter_ne.
Qed.

Lemma exec_sql_spec c s fn st : takes row_ok fn -> ispec (exec_sql I c s fn) anything st.
Proof.
  intros Hfn. unfold exec_sql. apply ispec_bind_get_ctx. intros e E Hc.
  destruct (match sql_stmt s with SqlInsert => _ | _ => _ end) as [mutates p].
  match goal with |- ispec (if _ then ?b else _) _ _ => assert (forall st', ispec b anything st') as Hb end.
  { intros st'. eapply (ispec_bind _ _ anything).
    { unfold awhen. destruct mutates; [apply checkNamespaceMutability_spec|by apply ispec_ret]. }
    intros [] st1 _ _ _. eapply ispec_bind; [apply checkPrivilege_spec|]. intros [] st2 _ _ _.
    destruct (_ && _); [apply ispec_fail|by apply queryInternal_spec]. }
  case_bool_decide; [apply Hb|].
  eapply ispec_bind; [apply getNamespace_spec|]. intros n st' _ _ ->. by apply ispec_in_namespace.
Qed.

(** *** Records *)

Lemma val_ok_record h fs : val_ok h (RecV fs) <-> Forall (fun f => val_ok h f.2) fs.
Proof.
  induction fs as [|[x v] fs IH]; [by split; [constructor|]|].
  rewrite list.Forall_cons. change (val_ok h (RecV ((x, v) :: fs))) with (val_ok h v /\ val_ok h (RecV fs)). by rewrite IH.
Qed.

Lemma add_fields_ok h cs vs acc v :
  Forall (val_ok h) vs -> Forall (fun f => val_ok h f.2) acc -> add_fields cs vs acc = Ok v -> val_ok h v.
Proof.
  revert vs acc. induction cs as [|c cs IH]; intros vs acc Hvs Hacc; cbn [add_fields]; [intros [=<-]; by apply val_ok_record|].
  destruct vs as [|w vs]; [intros [=<-]; by apply val_ok_record|]. apply list.Forall_cons in Hvs as [Hw Hvs].
  case_bool_decide; [by apply IH|]. case_bool_decide; [done|]. apply IH; [done|].
  apply list.Forall_app. by split; [|constructor].
Qed.

Lemma ispec_Columns r st : ispec (Columns r) (fun _ st' => st' = st) st.
Proof.
  unfold Columns. destruct (row_columns r); [by apply ispec_ret|]. case_bool_decide; [by apply ispec_ret|apply ispec_fail].
Qed.

Lemma record_spec r st : row_ok r st -> ispec (record r) vok st.
Proof.
  intros Hr. unfold record. eapply ispec_bind; [apply ispec_Columns|]. intros cs st' _ _ ->.
  apply ispec_lift. intros v. by apply add_fields_ok; [|constructor].
Qed.

(** *** Values kept for a callback *)

Lemma new_ret_spec st : ispec new_ret anything st.
Proof.
  intros [Hh Hc Hr Hs Hl]. unfold new_ret. split_and!; cbn; [|split; cbn; [reflexivity|]|done].
  - split; cbn; try done. apply list.Forall_app. by repeat constructor.
  - intros c e He. exists e. split; [done|]. apply ctx_keeps_refl; [reflexivity|]. by apply (list.Forall_lookup_1 _ _ _ _ Hc He).
Qed.

Lemma upd_ret_spec k f st :
  (forall r, ret_ok (is_heap st) r -> ret_ok (is_heap st) (f r)) -> ispec (upd_ret k f) anything st.
Proof.
  intros Hf [Hh Hc Hr Hs Hl]. split_and!; cbn; [|split; cbn; [reflexivity|]|done].
  - split; cbn; try done. apply list.Forall_alter; [done|]. auto.
  - intros c e He. exists e. split; [done|]. apply ctx_keeps_refl; [reflexivity|]. by apply (list.Forall_lookup_1 _ _ _ _ Hc He).
Qed.

Lemma get_ret_spec k st : ispec (get_ret k) (fun r st' => ret_ok (is_heap st') r) st.
Proof.
  apply ispec_gets. intros Hst. destruct (is_rets st !! k) as [r|] eqn:E; [|done].
  by apply (list.Forall_lookup_1 _ _ _ _ (so_rets _ Hst) E).
Qed.

Lemma subscope_spec ns st : ispec (subscope ns) anything st.
Proof.
  intros [Hh Hc Hr Hs Hl]. unfold subscope. split_and!; cbn; [|split; cbn; [reflexivity|]|done].
  - split; cbn; try done. apply list.Forall_app. split; [done|]. constructor; [|constructor]. by split; [intros ? ?|constructor].
  - intros c e He. exists e. split; [by apply lookup_app_l_Some|]. apply ctx_keeps_refl; [reflexivity|].
    by apply (list.Forall_lookup_1 _ _ _ _ Hc He).
Qed.

(** ** One step *)

(** What a call hands on: the rows of an action have the types it declares. *)
Definition returned (f : executable) (r : row) (st : istate) : Prop :=
  row_ok r st /\
  match f with
  | ExAction _ act =>
      Forall (fun c => type_ok c.2) (default [] (act_Returns act)) ->
      Type_of (is_heap st) <$> row_Values r = snd <$> default [] (act_Returns act)
  | ExFunction _ => True
  end.

Record steps_ok (R : steps) : Prop := mkStepsOk {
  ok_eval : forall c e st, ispec (st_eval R c e) vok st;
  ok_exec : forall c s fn st, takes row_ok fn -> ispec (st_exec R c s fn) anything st;
  ok_call : forall c f args fn st, voks args st -> takes (returned f) fn -> ispec (st_call R c f args fn) anything st
}.

Section step.
Context (R : steps) (HR : steps_ok R).

Ltac evals := eapply ispec_bind; [apply (ok_eval R HR)|].

Lemma cast_to_spec t m st : ispec m vok st -> ispec (cast_to t m) vok st.
Proof.
  intros Hm. destruct t as [t|]; [|done]. eapply ispec_bind; [exact Hm|]. intros v st' _ _ Hv.
  apply ispec_value. intros Hh. by apply Cast_value.
Qed.

Lemma new_literal_spec l st : ispec (new_literal I l) vok st.
Proof.
  apply ispec_assume. intros Hst. destruct l; cbn [new_literal]; try (by apply ispec_ret).
  - apply ispec_ret, int8_ok.
  - destruct (blob_literals I !! n) as [b|] eqn:E; [|apply ispec_fail]. apply ispec_ret.
    by apply (list.Forall_lookup_1 _ _ _ _ (so_literals _ Hst) E).
Qed.

Lemma lookup_function_spec c ns name st : ispec (lookup_function I c ns name) (fun _ st' => st' = st) st.
Proof.
  unfold lookup_function. eapply ispec_bind; [apply getNamespace_spec|]. intros n st' _ _ ->.
  destruct (_ !! _); [by apply ispec_ret|apply ispec_fail].
Qed.

Lemma args_spec c args st : ispec (amap (st_eval R c) args) voks st.
Proof. apply amap_spec. intros. apply (ok_eval R HR). Qed.

Lemma takes_any f fn : takes row_ok fn -> takes (returned f) fn.
Proof. intros Hfn r st [Hr _]. by apply Hfn. Qed.

Lemma eval_call_spec c ns name args st : ispec (eval_call I R c ns name args) vok st.
Proof.
  unfold eval_call. eapply ispec_bind; [apply lookup_function_spec|]. intros f st0 _ _ ->.
  eapply ispec_bind; [apply args_spec|]. intros vals st1 _ _ Hvals.
  eapply ispec_bind; [apply new_ret_spec|]. intros k st2 K2 _ _.
  eapply ispec_bind.
  { apply (ok_call R HR); [by eapply voks_mono|]. apply takes_any. intros r st3 Hr.
    eapply ispec_bind; [apply upd_ret_spec; by intros [? ?]|]. intros [] st4 K4 _ _.
    destruct r as [cs [|v [|? ?]]]; cbn [row_Values]; try apply ispec_fail. apply upd_ret_spec. intros [? ?] _.
    apply list.Forall_cons in Hr as [Hv _]. by eapply val_ok_mono; [apply K4|]. }
  intros [] st3 _ _ _. eapply ispec_bind; [apply get_ret_spec|]. intros [[|[|n]] [v|]] st4 _ _ Hv; try apply ispec_fail.
  by apply ispec_ret.
Qed.

Lemma narrowArrIndex_spec v st : ispec (narrowArrIndex v) (fun _ st' => st' = st) st.
Proof.
  unfold narrowArrIndex. apply ispec_bind_hgets. destruct (negb _); [apply ispec_fail|].
  destruct v as [|[[i|]| | | | |]| |]; try apply ispec_fail. destruct (_ || _); [apply ispec_fail|by apply ispec_ret].
Qed.

Lemma with_array_spec c arr k st :
  (forall a st', vok a st' -> ispec (k a) vok st') -> ispec (with_array R c arr k) vok st.
Proof.
  intros Hk. unfold with_array. evals. intros a st' _ _ Ha. do 2 apply ispec_bind_hgets.
  destruct (Null _ _); [destruct (EqualsStrict _ _); [apply ispec_fail|apply ispec_value, makeNull_value]|].
  destruct (negb _); [apply ispec_fail|by apply Hk].
Qed.

Lemma eval_index_spec c arr index st : ispec (eval_index R c arr index) vok st.
Proof.
  apply with_array_spec. intros a st1 Ha. evals. intros i st2 K2 _ Hi. do 2 apply ispec_bind_hgets.
  destruct (Null _ _); [apply ispec_value, makeNull_value|].
  eapply ispec_bind; [apply narrowArrIndex_spec|]. intros idx st3 _ _ ->. apply ispec_value. intros Hh.
  eapply hspec_mono; [apply Get_spec; [done|by eapply vok_mono]|]. by intros ? ? _ _ [? _].
Qed.

Lemma slice_bound_spec c e d st : ispec (slice_bound R c e d) anything st.
Proof.
  destruct e as [e|]; cbn [slice_bound]; [|by apply ispec_ret]. evals. intros v st' _ _ _. apply ispec_bind_hgets.
  destruct (Null _ _); [by apply ispec_ret|]. eapply ispec_bind; [apply narrowArrIndex_spec|]. intros. by apply ispec_ret.
Qed.

Lemma eval_slice_spec c arr from to st : ispec (eval_slice R c arr from to) vok st.
Proof.
  apply with_array_spec. intros a st1 Ha. do 2 apply ispec_bind_hgets.
  eapply ispec_bind; [apply slice_bound_spec|]. intros [start|] st2 K2 _ _; [|apply ispec_value, makeNull_value].
  eapply ispec_bind; [apply slice_bound_spec|]. intros [stop|] st3 K3 _ _; [|apply ispec_value, makeNull_value].
  destruct (_ >? _); [apply ispec_value, newZeroValue_value|]. apply ispec_bind_hgets.
  eapply ispec_bind; [apply ispec_value, newZeroValue_value|]. intros zv st4 K4 _ Hz.
  eapply (ispec_bind _ _ anything); [|intros [] st5 K5 _ _; apply ispec_ret; by eapply vok_mono].
  destruct (is_array zv); [|apply ispec_fail]. eapply ispec_heap; [|by auto]. intros Hh. apply copy_range_spec; [done| |done].
  do 3 (eapply vok_mono; [eassumption|]). done.
Qed.

Lemma eval_field_spec c rec field st : ispec (eval_field R c rec field) vok st.
Proof.
  unfold eval_field. evals. intros v st' _ _ Hv. destruct v as [| | |fs]; try apply ispec_fail.
  destruct (list_find _ fs) as [[i [x v]]|] eqn:E; cbn; [|apply ispec_fail]. apply ispec_ret.
  apply list_find_Some in E as (Hl & _). apply val_ok_record in Hv. by apply (list.Forall_lookup_1 _ _ _ _ Hv Hl).
Qed.

Lemma comparison_spec l r op st :
  (forall st', ispec l vok st') -> (forall st', ispec r vok st') -> ispec (comparison l r op) vok st.
Proof.
  intros Hl Hr. eapply ispec_bind; [apply Hl|]. intros a st1 _ _ _. eapply ispec_bind; [apply Hr|]. intros b st2 _ _ _.
  apply ispec_bind_reads. intros res _. by apply ispec_ret.
Qed.

Lemma logical_spec l r and st :
  (forall st', ispec l vok st') -> (forall st', ispec r vok st') -> ispec (logical l r and) vok st.
Proof.
  intros Hl Hr. eapply ispec_bind; [apply Hl|]. intros a st1 _ _ _. eapply ispec_bind; [apply Hr|]. intros b st2 _ _ _.
  do 2 apply ispec_bind_hgets. destruct (_ || _); [by apply ispec_ret|].
  repeat case_match; first [apply ispec_fail|by apply ispec_ret].
Qed.

Lemma Unary_ok h v op w : val_ok h v -> Unary v op = Ok w -> val_ok h w.
Proof.
  intros Hv. unfold Unary, unary_int8, unary_bool, unary_dec. intros E. repeat case_match; simplify_eq/=; try done.
  - apply (swrap_range 64). lia.
  - apply result_bind_Ok in E as (d & _ & (d' & _ & [= <-])%result_bind_Ok). done.
Qed.

Lemma unary_spec m op st : ispec m vok st -> ispec (unary m op) vok st.
Proof.
  intros Hm. eapply ispec_bind; [exact Hm|]. intros v st' _ _ Hv. destruct (is_scalar v); [|apply ispec_fail].
  apply ispec_lift. intros w. by apply Unary_ok.
Qed.

Lemma eval_comparison_spec c op l r st : ispec (eval_comparison R c op l r) vok st.
Proof.
  unfold eval_comparison. destruct (convertComparisonOps op) as [[first rest] negate].
  assert (forall o st', ispec (comparison (st_eval R c l) (st_eval R c r) o) vok st') as Hc.
  { intros. apply comparison_spec; intros; apply (ok_eval R HR). }
  assert (forall m, (forall st', ispec m vok st') -> forall st',
    ispec (foldl (fun m o => logical m (comparison (st_eval R c l) (st_eval R c r) o) false) m rest) vok st') as Hf.
  { induction rest as [|o rest IH]; intros m Hm st'; cbn [foldl]; [done|]. apply IH. intros. by apply logical_spec. }
  destruct negate; [apply unary_spec|]; by apply Hf.
Qed.

Lemma eval_expr_spec c e st : ispec (eval_expr I R c e) vok st.
Proof.
  destruct e; cbn [eval_expr]; try apply cast_to_spec.
  - apply new_literal_spec.
  - apply eval_call_spec.
  - apply getVariable_spec.
  - apply eval_index_spec.
  - apply eval_slice_spec.
  - eapply (ispec_bind _ _ voks).
    + apply amap_spec. intros x st' _ _. evals. intros v st1 _ _ Hv. destruct (is_scalar v); [by apply ispec_ret|apply ispec_fail].
    + intros vs st' _ _ Hvs. apply ispec_value. intros Hh. by apply makeArray_spec.
  - apply eval_field_spec.
  - apply (ok_eval R HR).
  - apply eval_comparison_spec.
  - apply logical_spec; intros; apply (ok_eval R HR).
  - evals. intros l' st1 _ _ Hl. evals. intros r' st2 K _ Hr. destruct (_ || _); [apply ispec_fail|].
    apply ispec_value. intros Hh. apply Arithmetic_spec; [done|by eapply vok_mono|done].
  - apply unary_spec, (ok_eval R HR).
  - unfold eval_is. destruct not; [apply unary_spec|]; apply comparison_spec; intros; apply (ok_eval R HR).
Qed.

(** *** Statements *)

Lemma assign_variable_spec c name t val st : vok val st -> ispec (assign_variable I c name t val) anything st.
Proof.
  intros Hv. unfold assign_variable. eapply (ispec_bind _ _ anything).
  - destruct t as [t|]; [|by apply ispec_ret]. eapply ispec_bind; [apply ispec_try, getVariable_spec|].
    intros [v|e] st1 _ _ _.
    + apply ispec_bind_hgets. destruct (EqualsStrict _ _); [by apply ispec_ret|apply ispec_fail].
    + destruct (errors_is _ _); [|apply ispec_fail]. eapply ispec_bind; [apply ispec_value, makeNull_value|].
      intros nv st2 _ _ Hn. by apply allocateVariable_spec.
  - intros [] st1 K _ _. apply setVariable_spec. by eapply vok_mono.
Qed.

Lemma assign_element_spec c arr index val st : vok val st -> ispec (assign_element R c arr index val) anything st.
Proof.
  intros Hv. unfold assign_element. evals. intros a st1 K1 _ Ha. destruct (negb _); [apply ispec_fail|].
  destruct (is_scalar val) eqn:Es; [|apply ispec_fail]. cbn [negb]. evals. intros i st2 K2 _ _. apply ispec_bind_hgets.
  destruct (Null _ _); [apply ispec_fail|]. eapply ispec_bind; [apply narrowArrIndex_spec|]. intros idx st3 _ _ ->.
  eapply ispec_heap; [|by auto]. intros Hh. apply Set_spec; [done| | |done].
  - by eapply vok_mono.
  - do 2 (eapply vok_mono; [eassumption|]). done.
Qed.

Lemma assign_bound_spec c e d st : ispec (assign_bound R c e d) anything st.
Proof.
  eapply ispec_bind; [apply slice_bound_spec|]. intros [b|] st1 _ _ _; [by apply ispec_ret|apply ispec_fail].
Qed.

Lemma assign_slice_spec c arr from to value st : ispec (assign_slice R c arr from to value) anything st.
Proof.
  unfold assign_slice. evals. intros a st1 _ _ Ha. destruct (negb _); [apply ispec_fail|].
  eapply ispec_bind; [apply assign_bound_spec|]. intros start st2 K2 _ _. apply ispec_bind_hgets.
  eapply ispec_bind; [apply assign_bound_spec|]. intros stop st3 K3 _ _.
  destruct (_ <? _); [apply ispec_fail|]. destruct (_ <? _); [apply ispec_fail|].
  evals. intros v st4 K4 _ Hv. destruct (negb _); [apply ispec_fail|]. apply ispec_bind_hgets.
  destruct (_ >? _); [apply ispec_fail|]. eapply ispec_heap; [|by auto]. intros Hh. apply copy_range_spec; [done|done|].
  do 3 (eapply vok_mono; [eassumption|]). done.
Qed.

Lemma exec_assign_spec c v t value st : ispec (exec_assign I R c v t value) anything st.
Proof.
  unfold exec_assign. evals. intros val st1 _ _ Hv. destruct v, t; try apply ispec_fail.
  1,2: by apply assign_variable_spec.
  - by apply assign_element_spec.
  - apply assign_slice_spec.
Qed.

Lemma exec_call_spec c receivers ns name args st : ispec (exec_call I R c receivers ns name args) anything st.
Proof.
  unfold exec_call. eapply ispec_bind; [apply lookup_function_spec|]. intros f st0 _ _ ->.
  eapply ispec_bind; [apply args_spec|]. intros vals st1 _ _ Hvals.
  eapply ispec_bind; [apply new_ret_spec|]. intros k st2 K2 _ _. eapply ispec_bind.
  { apply (ok_call R HR); [by eapply voks_mono|]. apply takes_any. intros r st3 Hr.
    eapply ispec_bind; [apply get_ret_spec|]. intros [n v] st4 K4 _ _. destruct (_ && _); [apply ispec_fail|].
    eapply ispec_bind; [apply upd_ret_spec; by intros [? ?]|]. intros [] st5 K5 _ _.
    case_bool_decide; [apply ispec_fail|]. apply aiter_spec. intros [x w] st6 Hin K6.
    destruct x as [x|]; [|by apply ispec_ret]. apply setVariable_spec. apply elem_of_zip_r in Hin.
    eapply elem_voks; [|done]. do 3 (eapply voks_mono; [eassumption|]). done. }
  intros [] st3 _ _ _. eapply ispec_bind; [apply get_ret_spec|]. intros ret st4 _ _ _.
  destruct (_ && _); [apply ispec_fail|by apply ispec_ret].
Qed.

Lemma block_spec c stmts fn st : takes row_ok fn -> ispec (aiter (fun s => st_exec R c s fn) stmts) anything st.
Proof. intros Hfn. apply aiter_spec. intros s st' _ _. by apply (ok_exec R HR). Qed.

Lemma exec_block_spec c stmts fn st : takes row_ok fn -> ispec (executeBlock R c stmts fn) anything st.
Proof. intros Hfn. apply ispec_in_child. intros st' _. by apply block_spec. Qed.

Lemma exec_if_spec c branches otherwise fn st : takes row_ok fn -> ispec (exec_if R c branches otherwise fn) anything st.
Proof.
  intros Hfn. revert st. induction branches as [|[cond body] rest IH]; intros st; cbn [exec_if].
  - destruct otherwise; [by apply exec_block_spec|by apply ispec_ret].
  - evals. intros v st1 _ _ _. apply ispec_bind_hgets. destruct (Null _ _); [apply IH|].
    destruct v as [|[| |[[]|]| | |]| |]; try apply ispec_fail; try apply IH. by apply exec_block_spec.
Qed.

Lemma handleLoopTermErr_spec m st : ispec m anything st -> ispec (handleLoopTermErr m) anything st.
Proof.
  intros Hm. eapply ispec_bind; [by apply ispec_try|]. intros [[]|e] st1 _ _ _; [by apply ispec_ret|].
  destruct (errors_is _ _); [by apply ispec_ret|apply ispec_fail].
Qed.

(** The body of a loop. *)
Definition takes_value (fn : sqlval -> action istate unit) : Prop :=
  forall v st, vok v st -> ispec (fn v) anything st.

Lemma range_loop_spec n i stop fn st :
  takes_value fn -> is_sint 64 i -> ispec (range_loop n i stop fn) anything st.
Proof.
  intros Hfn. revert i st. induction n as [|n IH]; intros i st Hi; cbn [range_loop];
    (destruct (i <=? stop); [|by apply ispec_ret]); [apply ispec_fail|].
  eapply ispec_bind; [by apply handleLoopTermErr_spec, Hfn|]. intros [] st1 _ _ _. apply IH, (swrap_range 64). lia.
Qed.

Lemma array_loop_spec arr i n fn st : takes_value fn -> vok arr st -> ispec (array_loop arr i n fn) anything st.
Proof.
  intros Hfn. revert i st. induction n as [|n IH]; intros i st Ha; cbn [array_loop]; [by apply ispec_ret|].
  eapply (ispec_bind _ _ vok).
  { apply ispec_value. intros Hh. eapply hspec_mono; [by apply Get_spec|]. by intros ? ? _ _ [? _]. }
  intros v st1 K1 _ Hv. eapply ispec_bind; [by apply handleLoopTermErr_spec, Hfn|]. intros [] st2 K2 _ _.
  apply IH. do 2 (eapply vok_mono; [eassumption|]). done.
Qed.

Lemma each_record_spec fn : takes_value fn -> takes row_ok (each_record fn).
Proof.
  intros Hfn r st Hr. eapply ispec_bind; [by apply record_spec|]. intros v st1 _ _ Hv.
  by apply handleLoopTermErr_spec, Hfn.
Qed.

Lemma loop_over_spec c t fn st : takes_value fn -> ispec (loop_over I R c t fn) anything st.
Proof.
  intros Hfn. destruct t as [start stop|e array|s]; cbn [loop_over].
  - unfold loop_range. evals. intros a st1 _ _ Ha. evals. intros b st2 K _ Hb. do 2 apply ispec_bind_hgets.
    destruct (_ || _); [by apply ispec_ret|].
    destruct a as [|[[i|]| | | | |]| |]; try apply ispec_fail. destruct b as [|[[j|]| | | | |]| |]; try apply ispec_fail.
    by apply range_loop_spec.
  - destruct array.
    + unfold loop_array. replace (match e with EFunctionCall _ _ _ _ | _ => _ end) with (loop_array R c e fn) by by destruct e.
      unfold loop_array. evals. intros v st1 _ _ Hv. apply ispec_bind_hgets. destruct (Null _ _); [by apply ispec_ret|].
      destruct (negb _); [apply ispec_fail|]. apply ispec_bind_hgets. by apply array_loop_spec.
    + destruct e; try apply ispec_fail. unfold loop_call.
      eapply ispec_bind; [apply lookup_function_spec|]. intros f st0 _ _ ->.
      eapply ispec_bind; [apply args_spec|]. intros vals st1 _ _ Hvals.
      apply (ok_call R HR); [done|]. by apply takes_any, each_record_spec.
  - by apply queryInternal_spec, each_record_spec.
Qed.

Lemma exec_for_spec c receiver t body fn st : takes row_ok fn -> ispec (exec_for I R c receiver t body fn) anything st.
Proof.
  intros Hfn. eapply ispec_bind.
  - apply ispec_try, loop_over_spec. intros v st1 Hv. apply ispec_in_child. intros st2 Eh.
    eapply ispec_bind; [apply allocateVariable_spec; unfold vok; by rewrite Eh|]. intros [] st3 _ _ _. by apply block_spec.
  - intros [[]|e] st1 _ _ _; [by apply ispec_ret|]. destruct (errors_is _ _); [by apply ispec_ret|apply ispec_fail].
Qed.

Lemma fillUnnamed_spec fn : takes row_ok fn -> takes row_ok (fun r => r' ← fillUnnamed r; fn r').
Proof.
  intros Hfn r st Hr. eapply (ispec_bind _ _ row_ok).
  - eapply ispec_bind; [apply ispec_Columns|]. intros cs st' _ _ ->. by apply ispec_ret.
  - intros r' st' _ _ Hr'. by apply Hfn.
Qed.

Lemma exec_stmt_spec c s fn st : takes row_ok fn -> ispec (exec_stmt I R c s fn) anything st.
Proof.
  intros Hfn. destruct s; cbn [exec_stmt].
  - eapply ispec_bind; [apply ispec_value, makeNull_value|]. intros nv st1 _ _ Hn. by apply allocateVariable_spec.
  - apply exec_assign_spec.
  - apply exec_call_spec.
  - by apply exec_for_spec.
  - by apply exec_if_spec.
  - apply queryInternal_spec. intros r st' _. by apply ispec_ret.
  - apply ispec_fail.
  - apply ispec_fail.
  - destruct values; [apply ispec_fail|]. eapply ispec_bind; [apply args_spec|]. intros vals st1 _ _ Hv.
    eapply ispec_bind; [by apply Hfn|]. intros. apply ispec_fail.
  - eapply ispec_bind; [by apply exec_sql_spec, fillUnnamed_spec|]. intros. apply ispec_fail.
  - eapply ispec_bind; [apply args_spec|]. intros vals st1 _ _ Hv. by apply Hfn.
Qed.

(** *** Calls *)

Lemma default_value_spec l t st : ispec (default_value I l t) vok st.
Proof.
  destruct l; cbn [default_value]; try apply ispec_fail; try apply new_literal_spec.
  apply ispec_value, makeNull_value.
Qed.

(** The value of a parameter for which an argument was given has its type. *)
Definition bound (params : list NamedType) (n : nat) (vs : list sqlval) (st : istate) : Prop :=
  voks vs st /\ (length vs = length params)%nat /\
  forall i p, (i < n)%nat -> params !! i = Some p -> type_ok (nt_Type p) ->
    exists v, vs !! i = Some v /\ Type_of (is_heap st) v = nt_Type p.

Lemma bound_nil st : bound [] 0 [] st.
Proof. split_and!; [constructor|done|]. intros i p Hi. lia. Qed.

Lemma bound_cons p params n v vs st st' :
  keeps st st' -> typed (nt_Type p) v (is_heap st) -> bound params n vs st' -> bound (p :: params) (S n) (v :: vs) st'.
Proof.
  intros K [Hv Ht] (Hvs & Hl & Hb). split_and!; [constructor; [by eapply vok_mono|done]|cbn; congruence|].
  intros [|i] q Hi Hq Hok; simpl in Hq.
  - injection Hq as ->. exists v. split; [done|]. rewrite <- Ht by done. apply Type_of_mono; [apply K|done].
  - apply (Hb i q); [lia|done|done].
Qed.

Lemma ispec_cast v t st : vok v st -> ispec (on_heap (Cast v t)) (fun v' st' => typed t v' (is_heap st')) st.
Proof. intros Hv. eapply ispec_heap; [|by auto]. intros Hh. by apply Cast_spec. Qed.

Lemma validateArgs_spec params args st :
  voks args st -> ispec (validateArgs I params args) (bound params (length args)) st.
Proof.
  revert args st. induction params as [|p params IH]; intros args st Hargs; destruct args as [|a args]; cbn [validateArgs].
  - apply ispec_ret, bound_nil.
  - apply ispec_fail.
  - destruct (nt_Default p) as [l|]; [|apply ispec_fail].
    eapply ispec_bind; [apply default_value_spec|]. intros v st1 _ _ Hv.
    eapply ispec_bind; [apply (IH []); constructor|]. intros vs st2 K _ (Hvs & Hl & _). apply ispec_ret.
    split_and!; [constructor; [by eapply vok_mono|done]|cbn; congruence|cbn; lia].
  - apply list.Forall_cons in Hargs as [Ha Hargs]. apply ispec_bind_hgets. destruct (negb _); [apply ispec_fail|].
    eapply ispec_bind; [by apply ispec_cast|]. intros v st1 K1 _ Hv.
    eapply ispec_bind; [apply IH; by eapply voks_mono|]. intros vs st2 K2 _ Hvs. apply ispec_ret. by eapply bound_cons.
Qed.

Lemma cast_row_spec types vals st :
  (length vals = length types)%nat -> voks vals st ->
  ispec (cast_row types vals) (fun vs st' => voks vs st' /\ (Forall type_ok types -> Type_of (is_heap st') <$> vs = types)) st.
Proof.
  revert vals st. induction types as [|t types IH]; intros vals st Hl Hv; destruct vals as [|v vals]; try done; cbn [cast_row].
  - apply ispec_ret. by split; [constructor|].
  - apply list.Forall_cons in Hv as [Hv Hvs]. apply ispec_bind_hgets. destruct (negb _); [apply ispec_fail|].
    eapply ispec_bind; [by apply ispec_cast|]. intros v' st1 K1 _ [Hv' Ht].
    eapply ispec_bind; [apply IH; [by injection Hl|by eapply voks_mono]|]. intros vs st2 K2 _ [Hvs' Hts]. apply ispec_ret.
    split; [constructor; [by eapply vok_mono|done]|]. intros [Ho Hos]%list.Forall_cons. rewrite fmap_cons. f_equal; [|auto].
    rewrite <- Ht by done. apply Type_of_mono; [apply K2|done].
Qed.

Lemma return_row_spec ns act fn :
  takes (returned (ExAction ns act)) fn -> takes row_ok (return_row (act_Returns act) fn).
Proof.
  intros Hfn r st Hr. unfold return_row. case_bool_decide as El; [|apply ispec_fail].
  eapply ispec_bind; [apply cast_row_spec; [by rewrite length_fmap|done]|]. intros vs st1 _ _ [Hvs Ht].
  apply Hfn. split; [done|]. intros Ho. apply Ht, Forall_fmap, Ho.
Qed.

Lemma run_body_spec c stmts fn st : takes row_ok fn -> ispec (run_body R c stmts fn) anything st.
Proof.
  intros Hfn. revert st. induction stmts as [|s rest IH]; intros st; cbn [run_body]; [by apply ispec_ret|].
  eapply ispec_bind; [by apply ispec_try, (ok_exec R HR)|]. intros [[]|e] st1 _ _ _; [apply IH|].
  case_bool_decide; [by apply ispec_ret|apply ispec_fail].
Qed.

Lemma call_action_spec c ns act args fn st :
  voks args st -> takes (returned (ExAction ns act)) fn -> ispec (call_action I R c ns act args fn) anything st.
Proof.
  intros Hargs Hfn. unfold call_action. eapply ispec_bind; [apply canExecute_spec|]. intros [] st1 K1 _ _.
  eapply (ispec_bind _ _ anything); [case_bool_decide; [apply ispec_fail|by apply ispec_ret]|]. intros [] st2 K2 _ _.
  eapply ispec_bind; [apply validateArgs_spec; by do 2 (eapply voks_mono; [eassumption|])|]. intros vals st3 K3 _ (Hv & _).
  eapply ispec_bind; [apply subscope_spec|]. intros c2 st4 K4 _ _. eapply (ispec_bind _ _ anything).
  - apply aiter_spec. intros [p v] st5 Hin K5. apply allocateVariable_spec. apply elem_of_zip_r in Hin.
    eapply elem_voks; [|done]. by do 2 (eapply voks_mono; [eassumption|]).
  - intros [] st5 _ _ _. by eapply run_body_spec, return_row_spec.
Qed.

Lemma array_function_spec name f args h :
  array_function name = Some f -> heap_ok h -> Forall (val_ok h) args -> hspec (f args) (fun v h => val_ok h v) h.
Proof.
  intros Ef Hh Hargs. unfold array_function in Ef.
  destruct args as [|a args]; [repeat (case_bool_decide; [simplify_eq; by apply hspec_fail|]); done|].
  apply list.Forall_cons in Hargs as [Ha Hargs].
  case_bool_decide; [simplify_eq; by apply (array_functions_spec a a h)|].
  destruct args as [|b args]; [repeat (case_bool_decide; [simplify_eq; by apply hspec_fail|]); done|].
  apply list.Forall_cons in Hargs as [Hb _].
  destruct (array_functions_spec a b h Hh Ha Hb) as (_ & H2 & H3 & H4 & H5).
  repeat (case_bool_decide; [by simplify_eq|]). done.
Qed.

Lemma message_spec args st : ispec (message args) anything st.
Proof.
  unfold message. repeat case_match; try apply ispec_fail; try (by apply ispec_ret).
  all: apply ispec_bind_hgets; case_match; [by apply ispec_ret|apply ispec_fail].
Qed.

Lemma call_function_spec c name args fn st :
  voks args st -> takes row_ok fn -> ispec (call_function c name args fn) anything st.
Proof.
  intros Hargs Hfn. unfold call_function. apply ispec_bind_hgets, ispec_bind_lift. intros t _.
  case_bool_decide; [eapply ispec_bind; [apply message_spec|]; intros; by apply ispec_modify|].
  case_bool_decide; [eapply ispec_bind; [apply message_spec|]; intros; by apply ispec_fail|].
  destruct (array_function name) as [f|] eqn:Ef.
  - eapply ispec_bind; [apply ispec_value; intros Hh; by eapply array_function_spec|]. intros v st1 _ _ Hv.
    apply Hfn. by constructor.
  - apply ispec_bind_get_ctx. intros e _ _. destruct (ec_queryActive e); [apply ispec_fail|].
    eapply ispec_bind; [apply ispec_params|]. intros ps st1 _ _ _. apply ispec_bind_reads. intros d _.
    eapply ispec_bind; [by apply ispec_value, scan_value_spec|]. intros v st2 _ _ Hv. apply Hfn. by constructor.
Qed.

Lemma call_executable_spec c f args fn st :
  voks args st -> takes (returned f) fn -> ispec (call_executable I R c f args fn) anything st.
Proof.
  intros Hargs Hfn. destruct f as [ns act|name]; [by apply call_action_spec|].
  apply call_function_spec; [done|]. intros r st' Hr. by apply Hfn.
Qed.
End step.

(** ** Every execution *)

Lemma run_ok n : steps_ok (run I n).
Proof.
  induction n as [|n IH]; cbn [run]; split; cbn; intros; try apply ispec_fail.
  - by apply eval_expr_spec.
  - by apply exec_stmt_spec.
  - by apply call_executable_spec.
Qed.

Lemma soft_cast_value v t h : heap_ok h -> val_ok h v -> hspec (soft_cast v t) (fun r h => val_ok h r.1) h.
Proof.
  intros Hh Hv. unfold soft_cast.
  eapply hspec_bind; [by apply (hspec_gets _ (fun a h' => h' = h))|]. intros b h0 _ _ ->.
  eapply (hspec_bind _ _ (fun v h => val_ok h v)).
  { destruct b; [by apply Cast_value|by apply hspec_ret]. }
  intros v1 h1 _ Hh1 Hv1. do 2 (eapply hspec_bind; [by apply (hspec_gets _ (fun a h' => h' = h1))|]; intros ? ? _ _ ->).
  destruct (_ && _); [|by apply hspec_ret]. destruct (_ || _); [by apply hspec_ret|].
  eapply hspec_bind; [by apply Cast_value|]. intros v2 h2 _ Hh2 Hv2.
  eapply hspec_bind; [by apply (hspec_gets _ (fun a h' => h' = h2))|]. intros ? ? _ _ ->. by apply hspec_ret.
Qed.

Lemma soft_cast_args_spec args expect st : voks args st -> ispec (soft_cast_args args expect) voks st.
Proof.
  revert expect st. induction args as [|a args IH]; intros expect st Hargs; cbn [soft_cast_args]; [by apply ispec_ret; constructor|].
  destruct expect as [|p expect]; [apply ispec_fail|]. apply list.Forall_cons in Hargs as [Ha Hargs].
  eapply (ispec_bind _ _ (fun r st' => vok r.1 st')).
  { eapply ispec_heap; [intros Hh; by apply soft_cast_value|]. by auto. }
  intros [v b] st1 K1 _ Hv. cbn [fst snd] in *. destruct b; [|apply ispec_fail].
  eapply ispec_bind; [apply IH; by eapply voks_mono|]. intros vs st2 K2 _ Hvs. apply ispec_ret.
  constructor; [by eapply vok_mono|done].
Qed.

Lemma newExecCtx_spec ns top st : ispec (newExecCtx ns top) anything st.
Proof.
  intros [Hh Hc Hr Hs Hl]. unfold newExecCtx. split_and!; cbn; [|split; cbn; [reflexivity|]|done].
  - split; cbn; try done. apply list.Forall_app. split; [done|]. constructor; [|constructor]. by split; [intros ? ?|constructor].
  - intros c e He. exists e. split; [by apply lookup_app_l_Some|]. apply ctx_keeps_refl; [reflexivity|].
    by apply (list.Forall_lookup_1 _ _ _ _ Hc He).
Qed.

Lemma call_spec n ns name args fn top st :
  voks args st -> takes row_ok fn -> ispec (call I n ns name args fn top) anything st.
Proof.
  intros Hargs Hfn. unfold call. eapply ispec_bind; [apply newExecCtx_spec|]. intros c st1 K1 _ _.
  destruct (namespaces I !! _) as [nd|]; [|apply ispec_fail].
  destruct (availableFunctions nd !! _) as [[ns' act|?]|]; try apply ispec_fail.
  eapply (ispec_bind _ _ voks).
  { case_bool_decide; [apply ispec_fail|]. apply soft_cast_args_spec. by eapply voks_mono. }
  intros vals st2 K2 _ Hvals. eapply ispec_bind.
  { apply ispec_catch, (ok_call _ (run_ok n)); [done|]. by apply takes_any. }
  intros [[]|e] st3 _ _ _; [by apply ispec_ret|]. case_match; [by apply ispec_ret|apply ispec_fail].
Qed.

(** C12. Whatever an action does, on success and on every error, the values stay
    well formed and every variable keeps its type: after a call, each context
    that existed before has the variables it had, of the type they had, no block
    leaves a variable in an enclosing scope, namespaces are restored, and arrays
    and blobs keep their element type and size.  [n] bounds the depth of the
    evaluation. *)
Theorem call_keeps_types n ns name args fn top st :
  state_ok st -> voks args st -> takes row_ok fn ->
  state_ok (snd (call I n ns name args fn top st)) /\ keeps st (snd (call I n ns name args fn top st)).
Proof. intros Hst Hargs Hfn. destruct (call_spec n ns name args fn top st Hargs Hfn Hst) as (H1 & H2 & _). done. Qed.

(** C13. The rows of an action have the types that it declares: a function that
    receives them may rely on every row having exactly the declared column types
    (and on well-formed values), whatever the action and the actions it calls do,
    and the execution around it stays well formed.  A parameter for which an
    argument was given likewise has exactly its declared type. *)
Theorem action_typed n c ns act args fn st :
  state_ok st -> voks args st -> Forall (fun t => type_ok t.2) (default [] (act_Returns act)) ->
  (forall r st', state_ok st' -> row_ok r st' ->
     Type_of (is_heap st') <$> row_Values r = snd <$> default [] (act_Returns act) ->
     state_ok (snd (fn r st')) /\ keeps st' (snd (fn r st'))) ->
  let '(r, st') := st_call (run I n) c (ExAction ns act) args fn st in
  let '(v, st1) := validateArgs I (act_Parameters act) args st in
  state_ok st' /\ keeps st st' /\
  match v with Ok vs => bound (act_Parameters act) (length args) vs st1 | Err _ => True end.
Proof.
  intros Hst Hargs Ht Hfn.
  assert (takes (returned (ExAction ns act)) fn) as Hfn'.
  { intros r st' [Hr Hty] Hst'. destruct (Hfn r st' Hst' Hr (Hty Ht)) as [? ?]. split_and!; [done|done|by case_match]. }
  pose proof (ok_call _ (run_ok n) c (ExAction ns act) args fn st Hargs Hfn' Hst) as (H1 & H2 & _).
  pose proof (validateArgs_spec (act_Parameters act) args st Hargs Hst) as (_ & _ & H3).
  destruct (st_call _ _ _ _ _ _) as [r st'], (validateArgs _ _ _ _) as [v st1]. done.
Qed.
End facts.
