(* ===== verification/InterpFacts.v ===== *)
(** * Facts about the interpreter of actions

    The outcome of an execution does not depend on the number of steps that the
    model is given.  Range loops run once per number, unless the bound is the
    largest integer.  Access to actions is exactly what the modifiers say.
    Nested queries are all or nothing. *)

From S2P Require Import Prelude.
From S2P Require Import BigInt.
From S2P Require Import Ident.
From S2P Require Import Payloads.
From S2P Require Import Values.
From S2P Require Import SqlValues.
From S2P Require Import SqlArrays.
From S2P Require Import Roles.
From S2P Require Import Interp.
From Stdlib Require Import Strings.Byte.

#[local] Open Scope Z_scope.

(** ** Programs *)

Section programs.
Context `{HD : Decimals}.

(** The immediate parts of an expression and a statement: expressions satisfy
    [Pe], statements [Ps], the executables that a name may stand for [Pf], and
    the bounds of range loops [Pr]. *)
Definition expr_ok (Pe : expr -> Prop) (Pc : bytes -> Prop) (e : expr) : Prop :=
  match e with
  | ELiteral _ _ | EVariable _ _ => True
  | EFunctionCall _ name args _ => Pc name /\ Forall Pe args
  | EArrayAccess a b _ => Pe a /\ Pe b
  | EComparison _ a b | ELogical _ a b | EArithmetic _ a b | EIs a b _ _ => Pe a /\ Pe b
  | EArraySlice a from to _ => Pe a /\ from_option Pe True from /\ from_option Pe True to
  | EMakeArray l _ => Forall Pe l
  | EFieldAccess a _ _ | EParenthesized a _ | EUnary _ a => Pe a
  end.

Definition loop_ok (Pe : expr -> Prop) (Pc : bytes -> Prop) (Pr : expr -> expr -> Prop) (t : loopTerm) : Prop :=
  match t with
  | LoopRange a b => Pr a b
  | LoopExpression (EFunctionCall _ name args _) false => Pc name /\ Forall Pe args
  | LoopExpression _ false => True
  | LoopExpression e true => Pe e
  | LoopSQL _ => True
  end.

Definition assignable_ok (Pe : expr -> Prop) (v : assignable) : Prop :=
  match v with
  | AsVariable _ => True
  | AsElement a b => Pe a /\ Pe b
  | AsSlice a from to => Pe a /\ from_option Pe True from /\ from_option Pe True to
  end.

Definition stmt_ok (Pe : expr -> Prop) (Ps : stmt -> Prop) (Pc : bytes -> Prop) (Pr : expr -> expr -> Prop) (s : stmt) : Prop :=
  match s with
  | StDeclaration _ _ | StSQL _ | StBreak | StContinue | StReturnSQL _ => True
  | StAssign v _ value => assignable_ok Pe v /\ Pe value
  | StCall _ _ name args => Pc name /\ Forall Pe args
  | StFor _ t body => loop_ok Pe Pc Pr t /\ Forall Ps body
  | StIf branches otherwise =>
      Forall (fun b => Pe b.1 /\ Forall Ps b.2) branches /\ from_option (Forall Ps) True otherwise
  | StReturn values | StReturnNext values => Forall Pe values
  end.
End programs.

Section approx.
Context `{HS : Strings} `{HD : Decimals} `{HA : !DecimalArith} `{HG : GoRuntime} `{HDB : Database} `{HC : !StatementCache}.
Context (I : interpreter).

(** ** Approximation *)

(** [m1] does what [m2] does; where [short] is allowed, [m1] may instead run out of
    steps. *)
Context (short : Prop).

Definition upto {A} (m1 m2 : action istate A) : Prop :=
  forall st, short /\ fst (m1 st) = Err out_of_steps \/ m1 st = m2 st.

Definition upto_fn {A} (f1 f2 : A -> action istate unit) : Prop := forall x, upto (f1 x) (f2 x).

Lemma upto_refl {A} (m : action istate A) : upto m m.
Proof. intros st. by right. Qed.

Lemma upto_bind_ok {A B} (m1 m2 : action istate A) (k1 k2 : A -> action istate B) :
  upto m1 m2 -> (forall a st st', m1 st = (Ok a, st') -> upto (k1 a) (k2 a)) -> upto (m1 ≫= k1) (m2 ≫= k2).
Proof.
  intros Hm Hk st. unfold mbind, action_bind. destruct (Hm st) as [[Hs E]|E].
  - left. split; [done|]. destruct (m1 st) as [[a|e] st1]; cbn in E; [done|]. by injection E as ->.
  - rewrite <- E. destruct (m1 st) as [[a|e] st1] eqn:E1; [by eapply Hk|by right].
Qed.

Lemma upto_bind {A B} (m1 m2 : action istate A) (k1 k2 : A -> action istate B) :
  upto m1 m2 -> (forall a, upto (k1 a) (k2 a)) -> upto (m1 ≫= k1) (m2 ≫= k2).
Proof. intros Hm Hk. by apply upto_bind_ok. Qed.

(** A handler that passes the missing steps on. *)
Lemma upto_try {A B} (m1 m2 : action istate A) (k1 k2 : result A -> action istate B) :
  upto m1 m2 -> (forall r, upto (k1 r) (k2 r)) -> (forall st, fst (k1 (Err out_of_steps) st) = Err out_of_steps) ->
  upto (atry m1 ≫= k1) (atry m2 ≫= k2).
Proof.
  intros Hm Hk Ho st. unfold mbind, action_bind, atry. destruct (Hm st) as [[Hs E]|E].
  - left. split; [done|]. destruct (m1 st) as [r st1]. cbn in E. subst r. apply Ho.
  - rewrite E. destruct (m2 st) as [r st1]. apply Hk.
Qed.

Lemma upto_amap {A B} (P : A -> Prop) (f1 f2 : A -> action istate B) l :
  (forall x, P x -> upto (f1 x) (f2 x)) -> Forall P l -> upto (amap f1 l) (amap f2 l).
Proof.
  intros Hf. induction 1 as [|x l Hx _ IH]; cbn [amap]; [apply upto_refl|].
  apply upto_bind; [by apply Hf|]. intros y. apply upto_bind; [exact IH|]. intros. apply upto_refl.
Qed.

Lemma upto_aiter {A} (P : A -> Prop) (f1 f2 : A -> action istate unit) l :
  (forall x, P x -> upto (f1 x) (f2 x)) -> Forall P l -> upto (aiter f1 l) (aiter f2 l).
Proof.
  intros Hf. induction 1 as [|x l Hx _ IH]; cbn [aiter]; [apply upto_refl|]. apply upto_bind; [by apply Hf|]. auto.
Qed.

Lemma upto_rows (fn1 fn2 : row -> action istate unit) rows : upto_fn fn1 fn2 -> upto (aiter fn1 rows) (aiter fn2 rows).
Proof. intros Hf. apply (upto_aiter (fun _ => True)); [auto|]. by apply list.Forall_true. Qed.

Lemma upto_in_child {A} c (m1 m2 : action istate A) : upto m1 m2 -> upto (in_child c m1) (in_child c m2).
Proof.
  intros Hm. unfold in_child. apply upto_bind; [apply upto_refl|]. intros _. apply upto_bind; [apply upto_refl|]. intros _.
  apply upto_try; [done|intros; apply upto_refl|done].
Qed.

Lemma upto_query c sql fn1 fn2 check exempt :
  upto_fn fn1 fn2 -> upto (queryInternal I c sql fn1 check exempt) (queryInternal I c sql fn2 check exempt).
Proof.
  intros Hfn. unfold queryInternal. apply upto_bind; [apply upto_refl|]. intros e. destruct (ec_queryActive e).
  - unfold nestedQuery. apply upto_bind; [apply upto_refl|]. intros d. apply upto_try.
    + do 2 (apply upto_bind; [apply upto_refl|]; intros). by apply upto_rows.
    + intros. apply upto_refl.
    + done.
  - apply upto_bind; [apply upto_refl|]. intros _. apply upto_try.
    + do 3 (apply upto_bind; [apply upto_refl|]; intros). by apply upto_rows.
    + intros. apply upto_refl.
    + done.
Qed.

Lemma upto_sql c s fn1 fn2 : upto_fn fn1 fn2 -> upto (exec_sql I c s fn1) (exec_sql I c s fn2).
Proof.
  intros Hfn. unfold exec_sql. apply upto_bind; [apply upto_refl|]. intros e.
  destruct (match sql_stmt s with SqlInsert => _ | _ => _ end) as [mutates p].
  match goal with |- upto (if _ then ?b1 else _) (if _ then ?b2 else _) => assert (upto b1 b2) as Hb end.
  { do 2 (apply upto_bind; [apply upto_refl|]; intros). destruct (_ && _); [apply upto_refl|by apply upto_query]. }
  case_bool_decide; [done|]. do 2 (apply upto_bind; [apply upto_refl|]; intros).
  apply upto_try; [done|intros; apply upto_refl|done].
Qed.

Lemma upto_function c name args fn1 fn2 :
  upto_fn fn1 fn2 -> upto (call_function c name args fn1) (call_function c name args fn2).
Proof.
  intros Hfn. unfold call_function. do 2 (apply upto_bind; [apply upto_refl|intros]).
  case_match; [apply upto_refl|]. case_match; [apply upto_refl|].
  case_match; [apply upto_bind; [apply upto_refl|]; intros; apply Hfn|]. apply upto_bind; [apply upto_refl|intros].
  case_match; [apply upto_refl|]. do 3 (apply upto_bind; [apply upto_refl|intros]). apply Hfn.
Qed.

(** ** Steps *)

Context (Pe : expr -> Prop) (Ps : stmt -> Prop) (Pf : executable -> Prop) (Pr : expr -> expr -> Prop).

(** The executables that a name may stand for. *)
Definition callable (P : executable -> Prop) (name : bytes) : Prop :=
  forall ns nd f, namespaces I !! ns = Some nd -> availableFunctions nd !! name = Some f -> P f.

Record steps_upto (R1 R2 : steps) : Prop := mkStepsUpto {
  up_eval : forall c e, Pe e -> upto (st_eval R1 c e) (st_eval R2 c e);
  up_exec : forall c s fn1 fn2, Ps s -> upto_fn fn1 fn2 -> upto (st_exec R1 c s fn1) (st_exec R2 c s fn2);
  up_call : forall c f args fn1 fn2, Pf f -> upto_fn fn1 fn2 -> upto (st_call R1 c f args fn1) (st_call R2 c f args fn2);
  up_range : forall c a b fn1 fn2, Pr a b -> upto_fn fn1 fn2 -> upto (loop_range R1 c a b fn1) (loop_range R2 c a b fn2)
}.

Section step.
Context (R1 R2 : steps) (HR : steps_upto R1 R2).

Ltac ev := apply upto_bind; [by apply (up_eval _ _ HR)|intros].
Ltac same := apply upto_bind; [apply upto_refl|intros].

Lemma upto_args c args : Forall Pe args -> upto (amap (st_eval R1 c) args) (amap (st_eval R2 c) args).
Proof. apply upto_amap. intros. by apply (up_eval _ _ HR). Qed.

Lemma lookup_callable c ns name f st st' : callable Pf name -> lookup_function I c ns name st = (Ok f, st') -> Pf f.
Proof.
  intros Hc E. unfold lookup_function in E. apply action_bind_inv in E as (nd & st1 & En & E).
  unfold getNamespace in En. apply action_bind_inv in En as (e & st2 & _ & En).
  destruct (namespaces I !! _) as [nd'|] eqn:Ens; [|done]. injection En as -> ->.
  destruct (availableFunctions nd !! name) as [f'|] eqn:Ef; [|done]. injection E as -> ->. by eapply Hc.
Qed.

(** A call that an expression or a statement makes. *)
Lemma upto_lookup {A} c ns name (k1 k2 : executable -> action istate A) :
  callable Pf name -> (forall f, Pf f -> upto (k1 f) (k2 f)) ->
  upto (lookup_function I c ns name ≫= k1) (lookup_function I c ns name ≫= k2).
Proof. intros Hc Hk. apply upto_bind_ok; [apply upto_refl|]. intros f st st' E. apply Hk. by eapply lookup_callable. Qed.

Lemma upto_cast t m1 m2 : upto m1 m2 -> upto (cast_to t m1) (cast_to t m2).
Proof. intros Hm. destruct t; [|done]. apply upto_bind; [done|]. intros. apply upto_refl. Qed.

Lemma upto_with_array c arr k1 k2 :
  Pe arr -> (forall a, upto (k1 a) (k2 a)) -> upto (with_array R1 c arr k1) (with_array R2 c arr k2).
Proof.
  intros He Hk. unfold with_array. ev. same. same. case_match; [apply upto_refl|]. case_match; [apply upto_refl|done].
Qed.

Lemma upto_bound c e d : from_option Pe True e -> upto (slice_bound R1 c e d) (slice_bound R2 c e d).
Proof. destruct e; cbn [slice_bound from_option]; [|intros; apply upto_refl]. intros He. ev. apply upto_refl. Qed.

Lemma upto_comparison l1 l2 r1 r2 op : upto l1 l2 -> upto r1 r2 -> upto (comparison l1 r1 op) (comparison l2 r2 op).
Proof. intros Hl Hr. do 2 (apply upto_bind; [done|intros]). apply upto_refl. Qed.

Lemma upto_logical l1 l2 r1 r2 and : upto l1 l2 -> upto r1 r2 -> upto (logical l1 r1 and) (logical l2 r2 and).
Proof. intros Hl Hr. do 2 (apply upto_bind; [done|intros]). apply upto_refl. Qed.

Lemma upto_unary m1 m2 op : upto m1 m2 -> upto (unary m1 op) (unary m2 op).
Proof. intros Hm. apply upto_bind; [done|intros]. apply upto_refl. Qed.

Lemma upto_eval c e : expr_ok Pe (callable Pf) e -> upto (eval_expr I R1 c e) (eval_expr I R2 c e).
Proof.
  pose proof (up_eval _ _ HR) as He.
  destruct e as [l t|ns name args t|name t|arr index t|arr from to t|vals t|rec field t|inner t|op a b|and a b|op a b|op a|a b not distinct];
    cbn [eval_expr expr_ok]; intros Ho; destruct_and?; try apply upto_cast; try apply upto_refl; try (by apply He).
  - apply upto_lookup; [done|]. intros f Hf. apply upto_bind; [by apply upto_args|intros]. same.
    apply upto_bind; [by apply (up_call _ _ HR); [|intros r; apply upto_refl]|intros]. apply upto_refl.
  - apply upto_with_array; [done|]. intros x. ev. apply upto_refl.
  - apply upto_with_array; [done|]. intros x. same. same. apply upto_bind; [by apply upto_bound|].
    intros [start|]; [|apply upto_refl]. apply upto_bind; [by apply upto_bound|]. intros. apply upto_refl.
  - apply upto_bind; [|intros; apply upto_refl]. apply (upto_amap Pe); [|done]. intros x Hx. ev. apply upto_refl.
  - ev. apply upto_refl.
  - unfold eval_comparison. destruct (convertComparisonOps op) as [[first rest] negate].
    assert (forall o, upto (comparison (st_eval R1 c a) (st_eval R1 c b) o) (comparison (st_eval R2 c a) (st_eval R2 c b) o)) as Hcmp.
    { intros o. by apply upto_comparison; apply He. }
    assert (forall m1 m2, upto m1 m2 ->
      upto (foldl (fun m o => logical m (comparison (st_eval R1 c a) (st_eval R1 c b) o) false) m1 rest)
           (foldl (fun m o => logical m (comparison (st_eval R2 c a) (st_eval R2 c b) o) false) m2 rest)) as Hf.
    { induction rest as [|o rest IH]; intros m1 m2 Hm; cbn [foldl]; [done|]. by apply IH, upto_logical. }
    destruct negate; [apply upto_unary|]; by apply Hf.
  - by apply upto_logical; apply He.
  - ev. ev. apply upto_refl.
  - by apply upto_unary, He.
  - unfold eval_is. destruct not; [apply upto_unary|]; by apply upto_comparison; apply He.
Qed.

Lemma upto_loop_err m1 m2 : upto m1 m2 -> upto (handleLoopTermErr m1) (handleLoopTermErr m2).
Proof. intros Hm. apply upto_try; [done|intros; apply upto_refl|done]. Qed.

Lemma upto_array arr i n fn1 fn2 : upto_fn fn1 fn2 -> upto (array_loop arr i n fn1) (array_loop arr i n fn2).
Proof.
  intros Hfn. revert i. induction n as [|n IH]; intros i; cbn [array_loop]; [apply upto_refl|].
  same. apply upto_bind; [apply upto_loop_err, Hfn|]. auto.
Qed.

Lemma upto_records fn1 fn2 : upto_fn fn1 fn2 -> upto_fn (each_record fn1) (each_record fn2).
Proof. intros Hfn r. unfold each_record. same. apply upto_loop_err, Hfn. Qed.

Lemma upto_loop c t fn1 fn2 :
  loop_ok Pe (callable Pf) Pr t -> upto_fn fn1 fn2 -> upto (loop_over I R1 c t fn1) (loop_over I R2 c t fn2).
Proof.
  intros Ht Hfn. destruct t as [start stop|e array|s]; cbn [loop_over].
  - by apply (up_range _ _ HR).
  - assert (Pe e -> upto (loop_array R1 c e fn1) (loop_array R2 c e fn2)) as Ha.
    { intros He. unfold loop_array. ev. same. case_match; [apply upto_refl|]. case_match; [apply upto_refl|]. same. by apply upto_array. }
    destruct array; [by destruct e; apply Ha|]. destruct e; try apply upto_refl. destruct Ht as [Hc Hargs].
    apply upto_lookup; [done|]. intros f Hf. apply upto_bind; [by apply upto_args|intros].
    by apply (up_call _ _ HR), upto_records.
  - by apply upto_query, upto_records.
Qed.

Lemma upto_stmts c fn1 fn2 stmts :
  Forall Ps stmts -> upto_fn fn1 fn2 -> upto (aiter (fun s => st_exec R1 c s fn1) stmts) (aiter (fun s => st_exec R2 c s fn2) stmts).
Proof. intros Hs Hfn. apply (upto_aiter Ps); [|done]. intros s Hs'. by apply (up_exec _ _ HR). Qed.

Lemma upto_assign c v t value : assignable_ok Pe v -> Pe value -> upto (exec_assign I R1 c v t value) (exec_assign I R2 c v t value).
Proof.
  intros Hv He. unfold exec_assign. ev. destruct v as [name|arr index|arr from to]; cbn in Hv; destruct_and?.
  - apply upto_refl.
  - destruct t; [apply upto_refl|]. unfold assign_element. ev. case_match; [apply upto_refl|]. case_match; [apply upto_refl|].
    ev. apply upto_refl.
  - destruct t; [apply upto_refl|]. unfold assign_slice. ev. case_match; [apply upto_refl|].
    apply upto_bind; [apply upto_bind; [by apply upto_bound|intros; apply upto_refl]|intros]. same.
    apply upto_bind; [apply upto_bind; [by apply upto_bound|intros; apply upto_refl]|intros].
    case_match; [apply upto_refl|]. case_match; [apply upto_refl|]. ev. apply upto_refl.
Qed.

Lemma upto_if c branches otherwise fn1 fn2 :
  Forall (fun b => Pe b.1 /\ Forall Ps b.2) branches -> from_option (Forall Ps) True otherwise ->
  upto_fn fn1 fn2 -> upto (exec_if R1 c branches otherwise fn1) (exec_if R2 c branches otherwise fn2).
Proof.
  intros Hb Ho Hfn. induction Hb as [|[cond body] rest [Hc Hbody] _ IH]; cbn [exec_if fst snd] in *.
  - destruct otherwise; [|apply upto_refl]. by apply upto_in_child, upto_stmts.
  - ev. same. case_match; [exact IH|]. repeat (case_match; try apply upto_refl; try exact IH).
    by apply upto_in_child, upto_stmts.
Qed.

Lemma upto_exec c s fn1 fn2 :
  stmt_ok Pe Ps (callable Pf) Pr s -> upto_fn fn1 fn2 -> upto (exec_stmt I R1 c s fn1) (exec_stmt I R2 c s fn2).
Proof.
  intros Hs Hfn. destruct s; cbn [exec_stmt stmt_ok] in *; destruct_and?; try apply upto_refl.
  - by apply upto_assign.
  - apply upto_lookup; [done|]. intros f Hf. apply upto_bind; [by apply upto_args|intros]. same.
    apply upto_bind; [by apply (up_call _ _ HR); [|intros r; apply upto_refl]|intros]. apply upto_refl.
  - apply upto_try; [|intros; apply upto_refl|done]. apply upto_loop; [done|]. intros x. apply upto_in_child. same. by apply upto_stmts.
  - by apply upto_if.
  - destruct values; [apply upto_refl|]. apply upto_bind; [by apply upto_args|intros].
    apply upto_bind; [apply Hfn|intros; apply upto_refl].
  - apply upto_bind; [|intros; apply upto_refl]. apply upto_sql. intros r. same. apply Hfn.
  - apply upto_bind; [by apply upto_args|intros]. apply Hfn.
Qed.

Lemma upto_body c stmts fn1 fn2 :
  Forall Ps stmts -> upto_fn fn1 fn2 -> upto (run_body R1 c stmts fn1) (run_body R2 c stmts fn2).
Proof.
  intros Hs Hfn. induction Hs as [|s rest Hs _ IH]; cbn [run_body]; [apply upto_refl|].
  apply upto_try; [by apply (up_exec _ _ HR)| |done]. intros [[]|e]; [exact IH|apply upto_refl].
Qed.

Lemma upto_call c f args fn1 fn2 :
  match f with ExAction _ act => Forall Ps (act_Body act) | ExFunction _ => True end ->
  upto_fn fn1 fn2 -> upto (call_executable I R1 c f args fn1) (call_executable I R2 c f args fn2).
Proof.
  intros Hf Hfn. destruct f as [ns act|name]; cbn [call_executable].
  - unfold call_action. same. same. same. same. same. apply upto_body; [done|]. intros r. unfold return_row.
    case_match; [apply upto_refl|]. same. apply Hfn.
  - by apply upto_function.
Qed.
End step.
End approx.

Section fuel.
Context `{HS : Strings} `{HD : Decimals} `{HA : !DecimalArith} `{HG : GoRuntime} `{HDB : Database} `{HC : !StatementCache}.
Context (I : interpreter).

(** ** The number of steps *)

Abbreviation short_of := (upto True).
Abbreviation all_steps R1 R2 := (steps_upto True (fun _ => True) (fun _ => True) (fun _ => True) (fun _ _ => True) R1 R2).

Lemma short_out {A} (m : action istate A) : short_of (afail out_of_steps) m.
Proof. intros st. by left. Qed.

Lemma short_range n1 n2 i stop fn1 fn2 :
  (n1 <= n2)%nat -> upto_fn True fn1 fn2 -> short_of (range_loop n1 i stop fn1) (range_loop n2 i stop fn2).
Proof.
  intros Hn Hfn. revert n2 i Hn. induction n1 as [|n1 IH]; intros n2 i Hn.
  - destruct n2 as [|n2]; cbn [range_loop]; [apply upto_refl|]. destruct (i <=? stop); [apply short_out|apply upto_refl].
  - destruct n2 as [|n2]; [lia|]. cbn [range_loop]. destruct (i <=? stop); [|apply upto_refl].
    apply upto_bind; [apply upto_loop_err, Hfn|]. intros _. apply IH. lia.
Qed.

Lemma short_loop_range R1 R2 c a b fn1 fn2 :
  (st_loops R1 <= st_loops R2)%nat -> (forall c e, short_of (st_eval R1 c e) (st_eval R2 c e)) -> upto_fn True fn1 fn2 ->
  short_of (loop_range R1 c a b fn1) (loop_range R2 c a b fn2).
Proof.
  intros Hl He Hfn. unfold loop_range. do 2 (apply upto_bind; [apply He|intros]). do 2 (apply upto_bind; [apply upto_refl|intros]).
  destruct (_ || _); [apply upto_refl|]. repeat (case_match; try apply upto_refl). by apply short_range.
Qed.

Lemma expr_ok_any e : expr_ok (fun _ => True) (callable I (fun _ => True)) e.
Proof.
  assert (forall l : list expr, Forall (fun _ => True) l) as Hl by (intros; by apply list.Forall_true).
  destruct e; cbn; repeat split; try done; by match goal with |- from_option _ _ ?o => destruct o end.
Qed.

Lemma stmt_ok_any s : stmt_ok (fun _ => True) (fun _ => True) (callable I (fun _ => True)) (fun _ _ => True) s.
Proof.
  assert (forall A (l : list A), Forall (fun _ => True) l) as Hl by (intros; by apply list.Forall_true).
  destruct s; cbn; repeat split; try done.
  - destruct v; cbn; repeat split; by try match goal with |- from_option _ _ ?o => destruct o end.
  - destruct term as [|[] []|]; cbn; by repeat split.
  - apply list.Forall_true. intros [cond body]. by split.
  - by destruct otherwise; cbn.
Qed.

Lemma run_upto n m : (n <= m)%nat -> all_steps (run I n) (run I m).
Proof.
  revert m. induction n as [|n IH]; intros m Hm.
  - split; cbn; intros; apply short_out.
  - destruct m as [|m]; [lia|]. assert (all_steps (run I n) (run I m)) as H1 by (apply IH; lia).
    assert (forall c e, short_of (eval_expr I (run I n) c e) (eval_expr I (run I m) c e)) as He.
    { intros. eapply upto_eval; [exact H1|]. apply expr_ok_any. }
    split; intros; cbn [run st_eval st_exec st_call].
    + apply He.
    + eapply upto_exec; [exact H1|apply stmt_ok_any|done].
    + eapply upto_call; [exact H1| |done]. destruct f; [|done]. by apply list.Forall_true.
    + apply short_loop_range; [cbn; lia|exact He|done].
Qed.

(** The number of steps does not matter: an execution that ends within [n]
    steps ends with the same outcome and the same state within any other number
    of steps that suffices, so that a call has at most one outcome. *)
Theorem outcome_of_call n m c f args fn st :
  fst (st_call (run I n) c f args fn st) <> Err out_of_steps ->
  fst (st_call (run I m) c f args fn st) <> Err out_of_steps ->
  st_call (run I n) c f args fn st = st_call (run I m) c f args fn st.
Proof.
  assert (forall n m, (n <= m)%nat -> fst (st_call (run I n) c f args fn st) <> Err out_of_steps ->
    st_call (run I n) c f args fn st = st_call (run I m) c f args fn st) as Hle.
  { intros n' m' Hnm Hn. by destruct (up_call _ _ _ _ _ _ _ (run_upto n' m' Hnm) c f args fn fn ltac:(done) (fun r => upto_refl True (fn r)) st) as [[_ E]|E]. }
  intros Hn Hm. destruct (decide (n <= m)%nat); [by apply Hle|]. symmetry. apply Hle; [lia|done].
Qed.
End fuel.

(** ** Range loops *)

Section loops.
Context `{HS : Strings} `{HD : Decimals} `{HA : !DecimalArith} `{HG : GoRuntime} `{HDB : Database} `{HC : !StatementCache}.

(** The numbers from [i] to [stop]. *)
Definition range (i stop : Z) : list Z := seqZ i (stop - i + 1).

Lemma range_nil i stop : stop < i -> range i stop = [].
Proof. intros H. unfold range. by rewrite seqZ_nil by lia. Qed.

Lemma range_cons i stop : i <= stop -> range i stop = i :: range (i + 1) stop.
Proof.
  intros H. unfold range. rewrite seqZ_cons by lia. f_equal. f_equal; unfold Z.succ, Z.pred; lia.
Qed.

Lemma range_loop_iter n i stop (fn : sqlval -> action istate unit) st :
  is_sint 64 i -> stop < 2 ^ 63 - 1 -> stop - i + 1 <= Z.of_nat n ->
  range_loop n i stop fn st = aiter (fun j => handleLoopTermErr (fn (int8 j))) (range i stop) st.
Proof.
  intros Hi Hs. revert i Hi st. induction n as [|n IH]; intros i Hi st Hn; cbn [range_loop].
  - destruct (Z.leb_spec i stop); [lia|]. by rewrite range_nil.
  - destruct (Z.leb_spec i stop); [|by rewrite range_nil]. rewrite range_cons by done. cbn [aiter].
    assert (i64 (i + 1) = i + 1) as -> by (apply swrap_small; [lia|unfold is_sint in *; lia]).
    unfold mbind, action_bind. destruct (handleLoopTermErr _ _) as [[[]|e] st1]; [|done].
    apply IH; [unfold is_sint in *; lia|lia].
Qed.

(** C32. A range loop runs its body once for each number from the start to the
    end, both included, in order, a CONTINUE going on with the next number; with
    the end below the start it does not run at all.  This needs an end below the
    largest 64-bit integer: the counter is increased after the last iteration. *)
Theorem range_loop_runs n i stop (fn : sqlval -> action istate unit) st :
  is_sint 64 i -> stop < 2 ^ 63 - 1 -> stop - i + 1 <= Z.of_nat n ->
  range_loop n i stop fn st = aiter (fun j => handleLoopTermErr (fn (int8 j))) (range i stop) st.
Proof. apply range_loop_iter. Qed.

(** A range loop up to the largest 64-bit integer does not end by itself: the
    counter wraps around.  Whatever the number of iterations allowed, the loop is
    not over when its body does not stop it. *)
Theorem range_loop_to_max n i (fn : sqlval -> action istate unit) st :
  is_sint 64 i -> (forall v st', fst (fn v st') = Ok tt) ->
  fst (range_loop n i (2 ^ 63 - 1) fn st) = Err out_of_steps.
Proof.
  intros Hi Hfn. revert i Hi st. induction n as [|n IH]; intros i Hi st; cbn [range_loop];
    (destruct (Z.leb_spec i (2 ^ 63 - 1)); [|unfold is_sint in Hi; lia]); [done|].
  unfold mbind, action_bind, handleLoopTermErr, mbind, action_bind, atry.
  pose proof (Hfn (int8 i) st) as E. destruct (fn (int8 i) st) as [r st1]. cbn in E. subst r.
  apply IH, (swrap_range 64). lia.
Qed.
End loops.

(** ** Termination *)

Section termination.
Context `{HS : Strings} `{HD : Decimals} `{HA : !DecimalArith} `{HG : GoRuntime} `{HDB : Database} `{HC : !StatementCache}.
Context (I : interpreter).

(** A range loop with constant bounds and at most [n] iterations. *)
Definition range_fits (n : nat) (a b : expr) : Prop :=
  exists i j, a = ELiteral (LInt i) None /\ b = ELiteral (LInt j) None /\
    is_sint 64 i /\ is_sint 64 j /\ j < 2 ^ 63 - 1 /\ j - i + 1 <= Z.of_nat n /\ (0 < n)%nat.

(** Expressions and statements nested at most [n] deep that call executables in
    [Pf] only. *)
Fixpoint fits_e (Pf : executable -> Prop) (n : nat) (e : expr) : Prop :=
  match n with
  | O => False
  | S n => expr_ok (fits_e Pf n) (callable I Pf) e
  end.

Fixpoint fits_s (Pf : executable -> Prop) (n : nat) (s : stmt) : Prop :=
  match n with
  | O => False
  | S n => stmt_ok (fits_e Pf n) (fits_s Pf n) (callable I Pf) (range_fits n) s
  end.

(** The executables of all namespaces. *)
Definition program (f : executable) : Prop :=
  exists ns nd name, namespaces I !! ns = Some nd /\ availableFunctions nd !! name = Some f.

(** No action calls itself, directly or through others: calls go down in [rank].
    Bodies are nested at most [D] deep and have range loops with constant bounds. *)
Definition ranked (rank : executable -> nat) (D : nat) : Prop :=
  forall ns act, program (ExAction ns act) ->
    Forall (fits_s (fun g => program g /\ (rank g < rank (ExAction ns act))%nat) D) (act_Body act).

(** The interpreter with [R] in place of the steps that are missing. *)
Fixpoint run_on (R : steps) (n : nat) : steps :=
  match n with
  | O => R
  | S n => let R' := run_on R n in mkSteps (S n) (eval_expr I R') (exec_stmt I R') (call_executable I R')
  end.

Lemma run_is_run_on n : run I n = run_on (run I O) n.
Proof. induction n as [|n IH]; [done|]. cbn [run run_on]. by rewrite IH. Qed.

Abbreviation agree := (upto False).

Lemma agree_range R1 R2 n m1 m2 c a b fn1 fn2 :
  (n <= m1)%nat -> (n <= m2)%nat -> range_fits n a b -> upto_fn False fn1 fn2 ->
  agree (loop_range (run_on R1 m1) c a b fn1) (loop_range (run_on R2 m2) c a b fn2).
Proof.
  intros Hn1 Hn2 (i & j & -> & -> & Hi & Hj & Hmax & Hn & Hpos) Hfn.
  assert (i64 i = i /\ i64 j = j) as [Ei Ej] by (split; apply swrap_small; done || lia).
  assert (forall R m fn st, (n <= m)%nat -> loop_range (run_on R m) c (ELiteral (LInt i) None) (ELiteral (LInt j) None) fn st =
    aiter (fun j => handleLoopTermErr (fn (int8 j))) (range i j) st) as Hl.
  { intros R m fn st Hm. destruct m as [|m]; [lia|].
    unfold loop_range. cbn [run_on st_eval eval_expr cast_to new_literal st_loops]. rewrite Ei, Ej.
    rewrite <- (range_loop_iter (S m)); [done|done|done|lia]. }
  intros st. rewrite !Hl by done. revert st. apply (upto_aiter _ (fun _ => True)); [|by apply list.Forall_true].
  intros k _. apply upto_loop_err, Hfn.
Qed.

(** Calls of executables in [Pf] need [K] steps; what is nested [n] deep needs [n]
    more. *)
Lemma fits_agree (Pf : executable -> Prop) K R1 R2 :
  (forall f m1 m2 c args fn1 fn2, Pf f -> (K <= m1)%nat -> (K <= m2)%nat -> upto_fn False fn1 fn2 ->
     agree (st_call (run_on R1 m1) c f args fn1) (st_call (run_on R2 m2) c f args fn2)) ->
  forall n m1 m2, (K + n <= m1)%nat -> (K + n <= m2)%nat ->
  steps_upto False (fits_e Pf n) (fits_s Pf n) Pf (range_fits n) (run_on R1 m1) (run_on R2 m2).
Proof.
  intros Hcall n. induction n as [|n IH]; intros m1 m2 Hm1 Hm2.
  - split; try done; intros; [apply Hcall; [done|lia|lia|done]|]. by apply (agree_range R1 R2 0); [lia|lia|..].
  - destruct m1 as [|m1], m2 as [|m2]; try lia. assert (K + n <= m1 /\ K + n <= m2)%nat as [Hm1' Hm2'] by lia.
    specialize (IH m1 m2 Hm1' Hm2'). split; intros; cbn [run_on st_eval st_exec st_call].
    + by eapply upto_eval; [exact IH|].
    + by eapply upto_exec; [exact IH|..].
    + apply (Hcall f (S m1) (S m2)); [done|lia|lia|done].
    + by apply (agree_range R1 R2 (S n) (S m1) (S m2)); [lia|lia|..].
Qed.

Lemma ranked_agree rank D R1 R2 : ranked rank D ->
  forall r f n1 n2 c args fn1 fn2, (rank f < r)%nat -> program f -> (r * (D + 1) <= n1)%nat -> (r * (D + 1) <= n2)%nat ->
  upto_fn False fn1 fn2 -> agree (st_call (run_on R1 n1) c f args fn1) (st_call (run_on R2 n2) c f args fn2).
Proof.
  intros HP r. induction r as [|r IH]; intros f n1 n2 c args fn1 fn2 Hr Hf Hn1 Hn2 Hfn; [lia|].
  destruct n1 as [|n1], n2 as [|n2]; try lia. cbn [run_on st_call]. destruct f as [ns act|name]; [|by apply upto_function].
  set (Pf g := program g /\ (rank g < rank (ExAction ns act))%nat).
  assert (steps_upto False (fits_e Pf D) (fits_s Pf D) Pf (range_fits D) (run_on R1 n1) (run_on R2 n2)) as HR.
  { apply (fits_agree _ (r * (D + 1))); [|lia|lia]. intros g m1 m2 c' args' g1 g2 [Hg Hgr] Hm1 Hm2 Hfn'. apply IH; [lia|done..]. }
  eapply upto_call; [exact HR| |done]. by apply HP.
Qed.

(** C14. A program without recursion ends.  When no action calls itself, directly
    or through others, when expressions, statements and blocks are nested at most
    [D] deep and range loops have constant bounds with at most [D] iterations
    below the largest integer, a call of an action of rank [r] needs at most
    [(r + 1) * (D + 1)] steps: with that many or more, its outcome and its state
    are always the same, whatever [R] is put in place of the steps that are
    missing. *)
Theorem nonrecursive_ends rank D R n m c f args fn st :
  ranked rank D -> program f -> ((rank f + 1) * (D + 1) <= n)%nat -> (n <= m)%nat ->
  st_call (run I n) c f args fn st = st_call (run_on R m) c f args fn st.
Proof.
  intros HP Hf Hn Hm. rewrite run_is_run_on.
  by destruct (ranked_agree rank D (run I 0) R HP (rank f + 1) f n m c args fn fn ltac:(lia) Hf Hn ltac:(lia) (fun r => upto_refl False (fn r)) st) as [[[] _]|].
Qed.
End termination.

(** ** Access *)

Section access.
Context `{HS : Strings} `{HD : Decimals} `{HA : !DecimalArith} `{HG : GoRuntime} `{HDB : Database} `{HC : !StatementCache}.
Context (I : interpreter).

(** Who may call an action of the namespace [ns] with the modifiers [ms] from the
    context [e]. *)
Definition may_call (e : executionContext) (ns : bytes) (ms : list Modifier) : Prop :=
  let top := sc_isTopLevel (ec_scope e) = true in
  let override := OverrideAuthz (engineCtx I) = true in
  (has VIEW ms = true \/ canMutateState I = true) /\
  (override /\ top \/
   (has PRIVATE ms = true -> sc_namespace (ec_scope e) = ns /\ ~ top) /\
   (has SYSTEM ms = true -> ~ top) /\
   (has OWNER ms = true -> IsOwner (access I) (Caller (engineCtx I)) = true) /\
   (override \/ ec_inAction e = true \/
    HasPrivilege (access I) (Caller (engineCtx I)) (Some (sc_namespace (ec_scope e))) CALL_PRIVILEGE = Ok true)).

Lemma checkPrivilege_run c p st e :
  is_ctxs st !! c = Some e ->
  checkPrivilege I c p st =
    (if OverrideAuthz (engineCtx I) || ec_inAction e then Ok tt
     else match HasPrivilege (access I) (Caller (engineCtx I)) (Some (sc_namespace (ec_scope e))) p with
          | Ok true => Ok tt
          | Ok false => Err ErrDoesNotHavePrivilege
          | Err x => Err x
          end, st).
Proof.
  intros E. unfold checkPrivilege, checkPrivilegeOnNamespace, mbind, action_bind, get_ctx. rewrite E. cbv beta iota. rewrite E.
  unfold alift. by destruct (OverrideAuthz _), (ec_inAction e), (HasPrivilege _ _ _ _) as [[]|].
Qed.

(** C16. An action may be called exactly by those that its modifiers and the
    privileges name: a context that may not change the state calls VIEW actions
    only, PRIVATE actions are called from their own namespace and never from
    outside, SYSTEM actions never from outside, OWNER actions by the owner, and
    the caller from outside needs the privilege CALL; the override of
    authorization lifts these at the top level.  A refusal changes nothing. *)
Theorem canExecute_iff c ns ms st e :
  is_ctxs st !! c = Some e ->
  snd (canExecute I c ns ms st) = st /\
  (fst (canExecute I c ns ms st) = Ok tt <-> may_call e ns ms).
Proof.
  intros E. unfold canExecute, may_call. unfold mbind at 1 2, action_bind at 1 2, get_ctx. rewrite E. cbv beta iota.
  pose proof (checkPrivilege_run c CALL_PRIVILEGE st e E) as Ep. revert Ep. generalize (checkPrivilege I c CALL_PRIVILEGE). intros chk.
  pose proof (bool_decide_eq_true (sc_namespace (ec_scope e) = ns)) as Hns. revert Hns. clear E.
  generalize (has VIEW ms), (has PRIVATE ms), (has SYSTEM ms), (has OWNER ms),
    (bool_decide (sc_namespace (ec_scope e) = ns)), (canMutateState I), (OverrideAuthz (engineCtx I)), (sc_isTopLevel (ec_scope e)),
    (IsOwner (access I) (Caller (engineCtx I))), (ec_inAction e), (HasPrivilege (access I) (Caller (engineCtx I)) (Some (sc_namespace (ec_scope e))) CALL_PRIVILEGE).
  intros view private system owner same mutate override top isOwner inAction hasCall Hns Ep.
  destruct view, mutate; cbn; try (split; [done|]; by intuition congruence).
  all: destruct override, top; cbn; try (split; [done|]; by intuition congruence).
  all: destruct private, same; cbn; try (split; [done|]; by intuition congruence).
  all: destruct system; cbn; try (split; [done|]; by intuition congruence).
  all: destruct owner, isOwner; cbn; try (split; [done|]; by intuition congruence).
  all: rewrite ?Ep; destruct inAction, hasCall as [[]|]; cbn; (split; [done|]; by intuition congruence).
Qed.

(** ** Nested queries *)

(** C20. A query inside of the rows of another one is all or nothing: when it ends
    with any error that is not a panic, the database is what it was before the
    query, whatever the function that received the rows had done to it.  BREAK and
    RETURN in a loop over such a query are errors of that function, so leaving the
    loop early undoes the changes that its body made. *)
Theorem nested_query_undone c sql fn st e :
  fst (nestedQuery I c sql fn st) = Err e -> is_panic e = false ->
  is_db (snd (nestedQuery I c sql fn st)) = is_db st.
Proof.
  unfold nestedQuery. unfold mbind at 1 5, action_bind at 1 5, gets. unfold atry.
  set (m := prepareQuery I c sql ≫= _). unfold mbind, action_bind.
  destruct (m st) as [[[]|e'] st1]; [done|]. unfold awhen. destruct (negb (is_panic e')) eqn:En; cbn; [done|].
  intros [= ->] Hp. by rewrite Hp in En.
Qed.
End access.
