(* ===== verification/InterpCache.v ===== *)
(** * The statement cache

    The interpreter uses [statementCache] (src/node/engine/interpreter/context.go)
    by look-ups and by adding statements that were not found ([call_uses_cache]);
    so the first context that runs a statement decides with which ordering all
    contexts run it, for as long as the entry stays. *)

From S2P Require Import Prelude.
From S2P Require Import BigInt.
From S2P Require Import Ident.
From S2P Require Import Payloads.
From S2P Require Import Values.
From S2P Require Import SqlValues.
From S2P Require Import SqlArrays.
From S2P Require Import Roles.
From S2P Require Import Cache.
From S2P Require Import Interp.
From Stdlib Require Import Strings.Byte.

Section cache.
Context `{HS : Strings} `{HD : Decimals} `{HA : !DecimalArith} `{HG : GoRuntime} `{HDB : Database} `{HC : !StatementCache}.
Context (I : interpreter).

(** What the interpreter does to the cache: it looks a statement up, and adds a
    statement that was not found. *)
Inductive cache_access : relation StmtCache :=
  | access_get ch key : cache_access ch (snd (c_get ch key))
  | access_add ch key p : c_peek ch key = None -> cache_access ch (c_put ch key p).

(** Accesses that leave an entry for [key] in the cache. *)
Definition keeps_entry (key : list byte * list byte) : relation StmtCache :=
  rtc (fun ch ch' => cache_access ch ch' /\ is_Some (c_peek ch' key)).

(** An entry that stays is not replaced. *)
Lemma keeps_entry_peek key ch ch' p :
  c_peek ch key = Some p -> keeps_entry key ch ch' -> c_peek ch' key = Some p.
Proof.
  intros Hp. induction 1 as [|ch ch1 ch2 [Ha [p1 Hp1]] _ IH]; [done|]. apply IH. revert Hp1.
  destruct Ha as [ch k|ch k p' Hk].
  - unfold c_peek. by rewrite c_get_pure.
  - intros H1. pose proof H1 as H2. apply c_peek_put in H2 as [[-> _]|[_ H2]]; congruence.
Qed.

Definition uses_cache (st st' : istate) : Prop := rtc cache_access (is_cache st) (is_cache st').

#[local] Instance uses_cache_preorder : PreOrder uses_cache.
Proof. split; [intros st; apply rtc_refl|]. intros a b c Hab Hbc. unfold uses_cache in *. by etrans. Qed.

Abbreviation acc := (acts uses_cache).
Definition acc_fn {A} (fn : A -> action istate unit) : Prop := forall x, acc (fn x).

Lemma acc_same {A} (m : action istate A) : (forall st, is_cache (snd (m st)) = is_cache st) -> acc m.
Proof. intros Hm st. unfold uses_cache. by rewrite Hm. Qed.
Lemma acc_get_ctx c : acc (get_ctx c).
Proof. apply acc_same. intros st. unfold get_ctx. by destruct (_ !! _). Qed.
Lemma acc_on_heap {A} (m : action heap A) : acc (on_heap m).
Proof. apply acc_same. intros st. unfold on_heap. by destruct (m _). Qed.
Lemma acc_reads {A} (f : istate -> result A) : acc (reads f).
Proof. by apply acc_same. Qed.
Lemma acc_upd_ctx c f : acc (upd_ctx c f).
Proof. by apply acc_same. Qed.
Lemma acc_new_ret : acc new_ret.
Proof. by apply acc_same. Qed.
Lemma acc_upd_ret k f : acc (upd_ret k f).
Proof. by apply acc_same. Qed.
Lemma acc_subscope ns : acc (subscope ns).
Proof. by apply acc_same. Qed.
Lemma acc_newExecCtx ns top : acc (newExecCtx ns top).
Proof. by apply acc_same. Qed.
Lemma acc_run_query q params : acc (run_query q params).
Proof. apply acc_same. intros st. unfold run_query. by destruct (exec_query _ _ _). Qed.
#[local] Hint Resolve acc_get_ctx acc_on_heap acc_reads acc_upd_ctx acc_new_ret acc_upd_ret acc_subscope
  acc_newExecCtx acc_run_query : acts.

Lemma acc_amap {A B} (f : A -> action istate B) l : (forall x, acc (f x)) -> acc (amap f l).
Proof. intros Hf. induction l; cbn [amap]; act; auto. Qed.
Lemma acc_aiter {A} (f : A -> action istate unit) l : (forall x, acc (f x)) -> acc (aiter f l).
Proof. intros Hf. induction l; cbn [aiter]; act; auto. Qed.
Lemma acc_when b m : acc m -> acc (awhen b m).
Proof. unfold awhen. destruct b; act. Qed.
Lemma acc_in_child {A} c (m : action istate A) : acc m -> acc (in_child c m).
Proof. intros Hm. unfold in_child. act. Qed.
#[local] Hint Resolve acc_amap acc_aiter acc_when acc_in_child : acts.

Lemma acc_getVariable c name : acc (getVariable I c name).
Proof. unfold getVariable. destruct name as [|[] name]; unfold contextual; act. Qed.
Lemma acc_getNamespace c ns : acc (getNamespace I c ns).
Proof. unfold getNamespace. act. Qed.
#[local] Hint Resolve acc_getVariable acc_getNamespace : acts.
Lemma acc_checkPrivilegeOnNamespace c p ns : acc (checkPrivilegeOnNamespace I c p ns).
Proof. unfold checkPrivilegeOnNamespace. act. Qed.
#[local] Hint Resolve acc_checkPrivilegeOnNamespace : acts.
Lemma acc_checkPrivilege c p : acc (checkPrivilege I c p).
Proof. unfold checkPrivilege. act. Qed.
Lemma acc_allocateVariable c name v : acc (allocateVariable c name v).
Proof. unfold allocateVariable. act. Qed.
#[local] Hint Resolve acc_checkPrivilege acc_allocateVariable : acts.
Lemma acc_setVariable c name v : acc (setVariable c name v).
Proof. unfold setVariable, hgets. act. Qed.
#[local] Hint Resolve acc_setVariable : acts.

(** The one place where the cache is used. *)
Lemma acc_prepareQuery c sql : acc (prepareQuery I c sql).
Proof.
  unfold prepareQuery. apply acts_bind; [apply _|act|intros e]. set (key := (_, sql)).
  assert (forall p, acc (values ← getValues I c (q_params (if canMutateState I then deterministicSQL p else nonDeterministicSQL p));
      mret (if canMutateState I then deterministicSQL p else nonDeterministicSQL p, values))) as Hv.
  { intros p. unfold getValues. act. }
  intros st. unfold mbind at 1, action_bind at 1, cache_get. destruct (c_get (is_cache st) key) as [p ch] eqn:Eg.
  assert (uses_cache st (set_cache ch st)) as Hg.
  { apply rtc_once. replace (is_cache (set_cache ch st)) with (snd (c_get (is_cache st) key)) by by rewrite Eg. constructor. }
  transitivity (set_cache ch st); [done|]. clear Hg. destruct p as [p|]; [apply Hv|].
  assert (c_peek ch key = None) as Hm.
  { pose proof (c_get_pure (is_cache st) key key) as Hp. rewrite Eg in Hp. done. }
  unfold mbind, action_bind, reads, cache_set, modify. cbv beta iota.
  destruct (compile _ _ _ _ _) as [d|]; [|done]. cbv beta iota.
  transitivity (set_cache (c_put ch key (mkPrepared _ d d)) (set_cache ch st)); [|apply (Hv (mkPrepared _ d d))].
  apply rtc_once. by constructor.
Qed.

Lemma acc_buffer_rows q args : acc (buffer_rows q args).
Proof.
  unfold buffer_rows. act. apply acc_amap. intros. act. apply acc_amap. intros []. act.
Qed.
#[local] Hint Resolve acc_prepareQuery acc_buffer_rows : acts.

Lemma acc_queryInternal c sql fn check exempt : acc_fn fn -> acc (queryInternal I c sql fn check exempt).
Proof.
  intros Hfn. assert (forall rows, acc (aiter fn rows)) by auto with acts.
  assert (forall d, acc (modify (set_db d))) by (intros; by apply acc_same).
  unfold queryInternal, nestedQuery, checkReferencedSelects. act; apply acc_when; act.
  apply acc_aiter. intros. act.
Qed.
#[local] Hint Resolve acc_queryInternal : acts.

Lemma acc_exec_sql c s fn : acc_fn fn -> acc (exec_sql I c s fn).
Proof.
  intros Hfn. unfold exec_sql, checkNamespaceMutability. act; apply acc_when; act.
Qed.
#[local] Hint Resolve acc_exec_sql : acts.

Lemma acc_Columns r : acc (Columns r).
Proof. unfold Columns. act. Qed.
#[local] Hint Resolve acc_Columns : acts.

(** *** Steps *)

Record steps_acc (R : steps) : Prop := mkStepsAcc {
  acc_st_eval : forall c e, acc (st_eval R c e);
  acc_st_exec : forall c s fn, acc_fn fn -> acc (st_exec R c s fn);
  acc_st_call : forall c f args fn, acc_fn fn -> acc (st_call R c f args fn)
}.

Section step.
Context (R : steps) (HR : steps_acc R).
#[local] Hint Extern 1 (acts uses_cache (st_eval R _ _)) => apply (acc_st_eval R HR) : acts.
#[local] Hint Extern 1 (acts uses_cache (st_exec R _ _ _)) => apply (acc_st_exec R HR) : acts.
#[local] Hint Extern 1 (acts uses_cache (st_call R _ _ _ _)) => apply (acc_st_call R HR) : acts.

Lemma acc_cast_to t m : acc m -> acc (cast_to t m).
Proof. intros Hm. unfold cast_to. act. Qed.
Lemma acc_lookup_function c ns name : acc (lookup_function I c ns name).
Proof. unfold lookup_function. act. Qed.
Lemma acc_narrow v : acc (narrowArrIndex v).
Proof. unfold narrowArrIndex, hgets. act. Qed.
#[local] Hint Resolve acc_lookup_function acc_narrow : acts.
Lemma acc_slice_bound c e d : acc (slice_bound R c e d).
Proof. unfold slice_bound, hgets. act. Qed.
Lemma acc_comparison l r op : acc l -> acc r -> acc (comparison l r op).
Proof. intros Hl Hr. unfold comparison. act. Qed.
Lemma acc_logical l r and : acc l -> acc r -> acc (logical l r and).
Proof. intros Hl Hr. unfold logical, hgets. act. Qed.
Lemma acc_unary m op : acc m -> acc (unary m op).
Proof. intros Hm. unfold unary. act. Qed.
#[local] Hint Resolve acc_slice_bound acc_comparison acc_logical acc_unary : acts.

Lemma acc_eval_expr c e : acc (eval_expr I R c e).
Proof.
  destruct e; cbn [eval_expr]; try apply acc_cast_to; auto with acts.
  - unfold new_literal. act.
  - unfold eval_call, get_ret. act. apply (acc_st_call R HR). intros r. act.
  - unfold eval_index, with_array, hgets. act.
  - unfold eval_slice, with_array, hgets. act.
  - unfold eval_makeArray. act. apply acc_amap. intros. act.
  - unfold eval_field. act.
  - unfold eval_comparison. destruct (convertComparisonOps _) as [[first rest] negate].
    assert (forall m, acc m -> acc (foldl (fun m o => logical m (comparison (st_eval R c e1) (st_eval R c e2) o) false) m rest)) as Hf.
    { induction rest as [|o rest IH]; intros m Hm; cbn [foldl]; [done|]. apply IH. auto 10 with acts. }
    destruct negate; [apply acc_unary|]; apply Hf; auto with acts.
  - unfold eval_arithmetic. act.
  - unfold eval_is. destruct not; auto with acts.
Qed.

Lemma acc_loop_err m : acc m -> acc (handleLoopTermErr m).
Proof. intros Hm. unfold handleLoopTermErr. act. Qed.
#[local] Hint Resolve acc_loop_err : acts.

Lemma acc_each_record fn : acc_fn fn -> acc_fn (each_record fn).
Proof. intros Hfn r. unfold each_record, record. act. Qed.

Lemma acc_loop_over c t fn : acc_fn fn -> acc (loop_over I R c t fn).
Proof.
  intros Hfn. assert (forall x, acc (handleLoopTermErr (fn x))) as Hl by (intros; apply acc_loop_err, Hfn).
  assert (forall n i stop, acc (range_loop n i stop fn)) as Hr.
  { induction n; intros i stop; cbn [range_loop]; act. }
  assert (forall arr n i, acc (array_loop arr i n fn)) as Ha.
  { intros arr. induction n; intros i; cbn [array_loop]; act. }
  pose proof (acc_each_record fn Hfn) as He.
  unfold loop_over, loop_range, loop_array, loop_call, query, hgets. act.
Qed.
#[local] Hint Resolve acc_loop_over : acts.

Lemma acc_exec_assign c v t value : acc (exec_assign I R c v t value).
Proof.
  unfold exec_assign, assign_variable, assign_element, assign_slice, assign_bound, hgets. act.
Qed.

Lemma acc_exec_if c branches otherwise fn : acc_fn fn -> acc (exec_if R c branches otherwise fn).
Proof.
  intros Hfn. assert (forall l, acc (executeBlock R c l fn)) as Hb.
  { intros l. unfold executeBlock. apply acc_in_child, acc_aiter. auto with acts. }
  induction branches as [|[] rest IH]; cbn [exec_if]; unfold hgets; act.
Qed.

Lemma acc_exec_stmt c s fn : acc_fn fn -> acc (exec_stmt I R c s fn).
Proof.
  intros Hfn. destruct s; cbn [exec_stmt]; auto using acc_exec_assign, acc_exec_if.
  - act.
  - unfold exec_call, get_ret. act. apply (acc_st_call R HR). intros r. act. apply acc_aiter. intros [[]]; act.
  - unfold exec_for. act. apply acc_loop_over. intros x. apply acc_in_child. act.
  - apply acc_queryInternal. intros r. act.
  - act.
  - act.
  - act.
  - apply acts_bind; [apply _| |act]. apply acc_exec_sql. intros r. unfold fillUnnamed. act.
  - act.
Qed.

Lemma acc_run_body c stmts fn : acc_fn fn -> acc (run_body R c stmts fn).
Proof. intros Hfn. induction stmts; cbn [run_body]; act. Qed.

Lemma acc_validateArgs params args : acc (validateArgs I params args).
Proof.
  revert args. induction params as [|p params IH]; intros [|a args]; cbn [validateArgs];
    unfold default_value, new_literal, hgets; act.
Qed.

Lemma acc_cast_row types vals : acc (cast_row types vals).
Proof. revert vals. induction types as [|t types IH]; intros [|v vals]; cbn [cast_row]; unfold hgets; act. Qed.
#[local] Hint Resolve acc_run_body acc_validateArgs acc_cast_row : acts.

Lemma acc_call_executable c f args fn : acc_fn fn -> acc (call_executable I R c f args fn).
Proof.
  intros Hfn. destruct f as [ns a|name]; cbn [call_executable].
  - assert (acc_fn (return_row (act_Returns a) fn)) as Hr by (intros r; unfold return_row; act).
    unfold call_action, canExecute. act. apply acc_aiter. intros []. act.
  - assert (forall m, acc (modify (add_log m))) by (intros; by apply acc_same).
    unfold call_function, message, hgets. act.
Qed.
End step.

Lemma run_acc n : steps_acc (run I n).
Proof.
  induction n as [|n IH]; constructor; intros; cbn [run st_eval st_exec st_call]; act.
  - by apply acc_eval_expr.
  - by apply acc_exec_stmt.
  - by apply acc_call_executable.
Qed.

(** Whatever a call does, it uses the cache by look-ups and by adding statements
    that were not found, if the function that receives the results does so. *)
Theorem call_uses_cache n ns action args fn top :
  acc_fn fn -> acc (call I n ns action args fn top).
Proof.
  intros Hfn. assert (forall c f vals, acc (st_call (run I n) c f vals fn)) as Hc.
  { intros. by apply (acc_st_call _ (run_acc n)). }
  assert (forall vals params, acc (soft_cast_args vals params)) as Hs.
  { induction vals as [|a vals IH]; intros [|p params]; cbn [soft_cast_args]; act. }
  unfold call. act.
Qed.
End cache.

Section plans.
Context `{HS : Strings} `{HD : Decimals} `{HA : !DecimalArith} `{HG : GoRuntime} `{HDB : Database} `{HC : !StatementCache}.

(** Reading variables leaves the cache alone. *)
Lemma getVariable_cache J c name st : is_cache (snd (getVariable J c name st)) = is_cache st.
Proof.
  set (same (st st' : istate) := is_cache st' = is_cache st).
  assert (PreOrder same) by (split; [done|]; unfold same; intros a b d -> ->; done).
  assert (forall c, acts same (get_ctx c)) by (intros c' st'; unfold get_ctx; by destruct (_ !! _)).
  assert (forall A (m : action heap A), acts same (on_heap m)) by (intros A m st'; unfold on_heap; by destruct (m _)).
  assert (acts same (getVariable J c name)) as Ha; [|apply Ha].
  unfold getVariable. destruct name as [|[] name]; unfold contextual; act; auto.
Qed.

Lemma getValues_cache J c names st : is_cache (snd (getValues J c names st)) = is_cache st.
Proof.
  unfold getValues. revert st. induction names as [|x l IH]; intros st; [done|]. cbn [amap].
  unfold mbind, action_bind. pose proof (getVariable_cache J c x st) as Hx.
  destruct (getVariable J c x st) as [[v|] st1]; [|done]. specialize (IH st1).
  destruct (amap _ l st1) as [[vs|] st2]; cbn in *; congruence.
Qed.

(** C15. Both forms of a statement in the cache are planned for the context that
    ran it first.  When a context does not find a statement in the cache and runs
    the plan [q], made with the default ordering exactly when that context may
    change the state, then every context of the namespace, whether or not it may
    change the state, runs [q] for this statement, for as long as the entry stays
    in the cache: across any look-ups and additions of other statements, until the
    entry is evicted or the cache is cleared by a change of the schema. *)
Theorem first_use_decides_plan I c e sql st q vs st1 :
  is_ctxs st !! c = Some e ->
  let key := (sc_namespace (ec_scope e), sql) in
  c_peek (is_cache st) key = None ->
  prepareQuery I c sql st = (Ok (q, vs), st1) ->
  (exists types objects, compile (sc_namespace (ec_scope e)) sql types objects (canMutateState I) = Ok q) /\
  (forall J c2 e2 st2,
     is_ctxs st2 !! c2 = Some e2 -> sc_namespace (ec_scope e2) = sc_namespace (ec_scope e) ->
     keeps_entry key (is_cache st1) (is_cache st2) ->
     fst <$> fst (prepareQuery J c2 sql st2) =
       (fun _ => q) <$> fst (getValues J c2 (q_params q) (snd (cache_get key st2)))).
Proof.
  intros E key Hmiss Hrun.
  assert ((exists types objects, compile (sc_namespace (ec_scope e)) sql types objects (canMutateState I) = Ok q) /\
          c_peek (is_cache st1) key = Some (mkPrepared _ q q)) as [Hplan Hent].
  { revert Hrun. unfold prepareQuery. unfold mbind, action_bind at 1, get_ctx. rewrite E. cbv beta iota. fold key.
    unfold action_bind, cache_get, reads, cache_set, modify, c_peek in *.
    destruct (c_get (is_cache st) key) as [p ch]. cbn in Hmiss. subst p. cbv beta iota.
    destruct (compile _ _ _ _ _) as [d|] eqn:Ed; [|done]. cbn [deterministicSQL nonDeterministicSQL mret action_ret].
    assert ((if canMutateState I then d else d) = d) as -> by by destruct (canMutateState I).
    set (st0 := set_cache _ _). pose proof (getValues_cache I c (q_params d) st0) as Hg.
    destruct (getValues I c (q_params d) st0) as [[vs'|] st']; [|done]. intros [= <- <- <-]. split; [by eauto|].
    cbn in Hg. rewrite Hg. apply c_put_eq. }
  split; [done|]. intros J c2 e2 st2 E2 En Hk. apply (keeps_entry_peek key _ _ _ Hent) in Hk.
  unfold prepareQuery. unfold mbind, action_bind at 1, get_ctx. rewrite E2, En. cbv beta iota. fold key.
  unfold action_bind, cache_get, c_peek in *. destruct (c_get (is_cache st2) key) as [p ch]. cbn in Hk. subst p.
  cbn [deterministicSQL nonDeterministicSQL mret action_ret snd].
  assert ((if canMutateState J then q else q) = q) as -> by by destruct (canMutateState J).
  by destruct (getValues J c2 (q_params q) _) as [[vs2|err] st'].
Qed.
End plans.
