(* ===== verification/InterpSamples.v ===== *)
(** * Concrete programs

    Instances of the parameters of SqlValues.v and Interp.v, the inputs at which
    the theorems of SqlFacts.v, InterpSound.v and InterpFacts.v apply, and whole
    programs that are run: what loops over queries, arguments that are arrays, and
    nested queries do. *)

From stdpp Require Import sorting.
From S2P Require Import Prelude.
From S2P Require Import BigInt.
From S2P Require Import Ident.
From S2P Require Import Payloads.
From S2P Require Import Values.
From S2P Require Import SqlValues.
From S2P Require Import SqlArrays.
From S2P Require Import Roles.
From S2P Require Import SqlFacts.
From S2P Require Import Interp.
From S2P Require Import InterpSound.
From S2P Require Import InterpFacts.
From S2P Require Import Cache.
From S2P Require Import InterpCache.
From Stdlib Require Import Strings.Byte.

#[local] Open Scope Z_scope.

(** ** Parameters *)

#[local] Instance ascii_strings : Strings := {
  ToLower := map lower_byte;
  EqualFold s t := bool_decide (map lower_byte s = map lower_byte t);
  TrimSpace s := s;
  ToLower_ascii _ _ := eq_refl;
  EqualFold_ascii _ _ _ _ := eq_refl;
  TrimSpace_ascii _ _ _ := eq_refl
}.

(** Integers with a precision and a scale. *)
#[local] Instance integer_decimals : Decimals := {
  Decimal := Z * (Z * Z);
  Precision d := d.2.1;
  Scale d := d.2.2;
  Decimal_String d := big_String d.1;
  ParseDecimalExplicit s p q :=
    match big_SetString s with Some z => Ok (z, (p, q)) | None => Err (ErrMsg "invalid decimal") end
}.

Definition int64 (z : Z) : result Z := if (- 2 ^ 63 <=? z) && (z <? 2 ^ 63) then Ok z else Err (ErrMsg "out of range").

#[local] Instance integer_arith : DecimalArith.
Proof.
  refine {|
    NaN _ := false;
    BigInt d := d.1;
    IsNegative d := d.1 <? 0;
    Exp _ := 0;
    NewDecimalFromBigInt i _ := Ok (i, (1000, 0));
    SetPrecisionAndScale d p q := Ok (d.1, (p, q));
    ParseDecimal s := match big_SetString s with Some z => Ok (z, (1000, 0)) | None => Err (ErrMsg "invalid decimal") end;
    DecimalCmp a b := Ok (match a.1 ?= b.1 with Lt => -1 | Eq => 0 | Gt => 1 end);
    DecimalAdd a b := Ok (a.1 + b.1, a.2);
    DecimalSub a b := Ok (a.1 - b.1, a.2);
    DecimalMul a b := Ok (a.1 * b.1, a.2);
    DecimalDiv a b := if b.1 =? 0 then Err ErrArithmetic else Ok (Z.quot a.1 b.1, a.2);
    DecimalPow a b := Ok (a.1 ^ b.1, a.2);
    DecimalMod a b := if b.1 =? 0 then Err ErrArithmetic else Ok (Z.rem a.1 b.1, a.2);
    DecimalNeg a := Ok (- a.1, a.2);
    DecimalInt64 d := int64 d.1
  |}.
  - intros d z. unfold int64. destruct (_ && _) eqn:E; [|done]. intros [=<-]. unfold is_sint. lia.
  - intros s p q d. cbn. by destruct (big_SetString s); intros [=<-].
  - by intros d p q d' [=<-].
Defined.

(** Slices grow to the double of their capacity. *)
#[local] Instance doubling_runtime : GoRuntime.
Proof.
  refine {|
    UUID_String u := u;
    ParseUUID s := Ok s;
    int_pow x y := match int64 (x ^ y) with Ok z => Some z | Err _ => None end;
    bytes_cap n := n;
    append_cap c n := Nat.max n (2 * c)
  |}.
  - done.
  - intros. lia.
  - intros x y r. unfold int64. destruct (_ && _) eqn:E; [|done]. intros [=<-]. unfold is_sint. lia.
Defined.

(** A database with one table of numbers.  A SELECT without the default ordering
    returns the rows as they are stored. *)
Inductive statement := Insert | Select (ordered : bool).

Definition insert_sql : bytes := str "INSERT INTO t VALUES ($x)".
Definition select_sql : bytes := str "SELECT v FROM t".

#[local] Instance number_table : Database := {
  DBState := list Z;
  Query := statement;
  compile ns sql types objects ordered :=
    if bool_decide (sql = insert_sql) then Ok Insert
    else if bool_decide (sql = select_sql) then Ok (Select ordered)
    else Err (ErrMsg "syntax error");
  q_fields q := match q with Insert => [] | Select _ => [(str "v", IntType)] end;
  q_params q := match q with Insert => [str "$x"] | Select _ => [] end;
  q_namespaces _ := [];
  exec_query q params db :=
    match q, params with
    | Insert, [DInt z] => (Ok [], db ++ [z])
    | Insert, _ => (Err (ErrMsg "invalid input"), db)
    | Select ordered, _ => (Ok ((fun z => [DInt z]) <$> (if ordered then merge_sort Z.le db else db)), db)
    end;
  function_type name types := if bool_decide (name = str "array_append") then Ok (default IntType (head types)) else Ok TextType;
  run_function name params db := Err (ErrMsg "unknown function");
  sqlstate_user _ := false
}.

(** The least recently used of a thousand statements. *)
#[local] Instance recent_statements : StatementCache := {| stmt_cache := lru_cache 999 |}.

(** ** Programs *)

Definition lit (z : Z) : expr := ELiteral (LInt z) None.
Definition var (x : string) : expr := EVariable (str x) None.
Definition sql_of (s : bytes) (k : sql_kind) : SQLStatement := mkSQL s k [].
Definition insert (e : expr) : list stmt := [StAssign (AsVariable (str "$x")) None e; StSQL (sql_of insert_sql SqlInsert)].
Definition int_array : DataType := mkDataType intStr true (0, 0).

Definition action_of (name : string) (params : list NamedType) (ms : list Modifier) (body : list stmt) (ret : option (list (bytes * DataType))) : action_def :=
  mkAction (str name) params ms body ret.

(** CREATE ACTION pick() PUBLIC: the first row of the table is inserted again. *)
Definition pick : action_def :=
  action_of "pick" [] [PUBLIC]
    [StFor (str "$r") (LoopSQL (sql_of select_sql SqlSelect)) (insert (EFieldAccess (var "$r") (str "v") None) ++ [StBreak])] None.

(** CREATE ACTION numbers() PUBLIC VIEW RETURNS TABLE (v INT8): 1 and 2. *)
Definition numbers : action_def :=
  action_of "numbers" [] [PUBLIC; VIEW] [StReturnNext [lit 1]; StReturnNext [lit 2]] (Some [(str "v", IntType)]).

(** CREATE ACTION first() PUBLIC VIEW RETURNS (v INT8): return inside of a loop over
    an action, and 0 behind the loop. *)
Definition first : action_def :=
  action_of "first" [] [PUBLIC; VIEW]
    [StFor (str "$r") (LoopExpression (EFunctionCall [] (str "numbers") [] None) false)
       [StReturn [EFieldAccess (var "$r") (str "v") None]];
     StReturn [lit 0]] (Some [(str "v", IntType)]).

(** CREATE ACTION clobber($a INT8[]) PRIVATE and its caller. *)
Definition clobber : action_def :=
  action_of "clobber" [mkNamed (str "$a") int_array None] [PRIVATE; VIEW]
    [StAssign (AsElement (var "$a") (lit 1)) None (lit 99)] None.
Definition keep : action_def :=
  action_of "keep" [] [PUBLIC; VIEW]
    [StAssign (AsVariable (str "$l")) None (EMakeArray [lit 1; lit 2] None);
     StCall [] [] (str "clobber") [var "$l"];
     StReturn [EArrayAccess (var "$l") (lit 1) None]] (Some [(str "v", IntType)]).

(** CREATE ACTION nested() PUBLIC: an insert in a loop over a query that runs inside
    of another query, and BREAK after it. *)
Definition nested : action_def :=
  action_of "nested" [] [PUBLIC]
    [StFor (str "$r") (LoopSQL (sql_of select_sql SqlSelect))
       [StFor (str "$s") (LoopSQL (sql_of select_sql SqlSelect)) (insert (lit 50) ++ [StBreak])]] None.

(** CREATE ACTION sum() PUBLIC VIEW RETURNS (v INT8): the numbers 1 to 4. *)
Definition total : action_def :=
  action_of "total" [] [PUBLIC; VIEW]
    [StAssign (AsVariable (str "$n")) None (lit 0);
     StFor (str "$i") (LoopRange (lit 1) (lit 4))
       [StAssign (AsVariable (str "$n")) None (EArithmetic ADD (var "$n") (var "$i"))];
     StReturn [var "$n"]] (Some [(str "v", IntType)]).

Definition main : bytes := DefaultNamespace.

Definition functions (l : list action_def) : gmap (list byte) executable :=
  list_to_map ((fun a => (act_Name a, ExAction main a)) <$> l).

Definition user : EngineContext := mkEngineCtx (str "0xuser") (str "tx") None 10 0 [] None (Ok None) false false.

(** The default role has every privilege on main. *)
Definition everyone : accessController :=
  mkAccess {[ defaultRole := mkPerms {[ main := list_to_set privileges ]} ∅ ∅ ]} ∅ {[ main ]}.

Definition interp_of (l : list action_def) (mutate : bool) : interpreter :=
  mkInterpreter {[ main := mkNamespace (functions l) false ]} [] everyone user mutate.

Definition interp : bool -> interpreter := interp_of [pick; numbers; first; clobber; keep; nested; total].

Definition start (db : list Z) : istate := mkIState [] [] db c_empty [] [].

(** Rows are written to the log. *)
Definition log_value (v : sqlval) : action istate unit :=
  match v with ScalV (SvInt (Some z)) => modify (add_log (big_String z)) | _ => mret tt end.

Definition log_row (r : row) : action istate unit := aiter log_value (row_Values r).

Definition invoke (mutate : bool) (name : string) (st : istate) : result (option error) * istate :=
  call (interp mutate) 40 main (str name) [] log_row true st.

(** ** What the programs do *)

(** An array that is passed to an action is the caller's array: the assignment of
    [clobber] to its parameter changes the variable of [keep].  A BREAK in a loop
    over a query inside of another query undoes the insertion before it, which
    without the outer query stays. *)
Theorem sharing_and_nesting :
  is_logs (snd (invoke true "keep" (start []))) = [str "99"] /\
  is_db (snd (invoke true "nested" (start [1]))) = [1] /\
  is_db (snd (invoke true "pick" (start [1]))) = [1; 1] /\
  is_logs (snd (invoke true "total" (start []))) = [str "10"].
Proof. vm_compute. by split_and!. Qed.

(** ** Inputs of the theorems *)

Lemma start_ok l mutate db : state_ok (interp_of l mutate) (start db).
Proof. split; cbn; [by intros ? ? ?|constructor|constructor|done|constructor]. Qed.

Lemma log_row_takes l mutate : takes (interp_of l mutate) row_ok log_row.
Proof.
  intros r st _. apply aiter_spec. intros v st' _ _. destruct v as [|[[z|]| | | | |]| |]; try (by apply ispec_ret).
  by apply ispec_modify.
Qed.

Lemma call_keeps_types_witness :
  keeps (start [3; 1; 2]) (snd (call (interp true) 40 main (str "pick") [] log_row true (start [3; 1; 2]))).
Proof.
  refine (proj2 (call_keeps_types (interp true) 40 main (str "pick") [] log_row true (start [3; 1; 2]) _ _ _)).
  - apply start_ok.
  - constructor.
  - apply log_row_takes.
Defined.

(** A context of a transaction at the top level. *)
Definition at_top (db : list Z) : istate := mkIState [] [mkExec (mkScope ∅ main true) [] false false] db c_empty [] [].

Lemma at_top_ok l mutate db : state_ok (interp_of l mutate) (at_top db).
Proof.
  split; cbn; [by intros ? ? ?| |constructor|done|constructor].
  constructor; [|constructor]. split; [by intros ? ?|constructor].
Qed.

Lemma action_typed_witness :
  state_ok (interp true) (snd (st_call (run (interp true) 40) 0 (ExAction main total) [] log_row (at_top []))).
Proof.
  assert (Hfn : forall r st', state_ok (interp true) st' -> row_ok r st' ->
    Type_of (is_heap st') <$> row_Values r = snd <$> default [] (act_Returns total) ->
    state_ok (interp true) (snd (log_row r st')) /\ keeps st' (snd (log_row r st'))).
  { intros r st' Hst' Hr _. by destruct (log_row_takes _ true r st' Hr Hst') as (? & ? & _). }
  pose proof (action_typed (interp true) 40 0 main total [] log_row (at_top []) (at_top_ok _ true [])
    (List.Forall_nil _) ltac:(by repeat constructor; right) Hfn) as H.
  destruct (st_call (run (interp true) 40) 0 (ExAction main total) [] log_row (at_top [])) as [r st'].
  destruct (validateArgs _ _ _ _) as [v st1]. exact (proj1 H).
Defined.

(** Programs whose calls go down. *)
Definition small : interpreter := interp_of [numbers; first; total] true.

Definition small_rank (f : executable) : nat :=
  match f with ExAction _ act => if bool_decide (act_Name act = str "first") then 1 else 0 | ExFunction _ => 0 end.

Lemma small_lookup ns nd name f :
  namespaces small !! ns = Some nd -> availableFunctions nd !! name = Some f ->
  exists act, f = ExAction main act /\ act_Name act = name /\ act ∈ [numbers; first; total].
Proof.
  cbn [small interp_of namespaces]. intros [<- <-]%lookup_singleton_Some Hf. cbn [availableFunctions] in Hf. apply elem_of_list_to_map_2 in Hf.
  apply list_elem_of_fmap in Hf as (act & [= -> ->] & Hin). by exists act.
Qed.

Lemma small_callable rank :
  (0 < rank)%nat -> callable small (fun g => program small g /\ (small_rank g < rank)%nat) (str "numbers").
Proof.
  intros Hr ns nd f Hn Hf. split; [by exists ns, nd, (str "numbers")|].
  destruct (small_lookup _ _ _ _ Hn Hf) as (act & -> & En & _). cbn. by rewrite En.
Qed.

Lemma small_ranked : ranked small small_rank 8.
Proof.
  intros ns act (ns' & nd & name & Hn & Hf). destruct (small_lookup _ _ _ _ Hn Hf) as (act' & [= -> ->] & _ & Hin).
  clear Hn Hf. repeat (apply elem_of_cons in Hin as [->|Hin]); [| | |by apply elem_of_nil in Hin].
  - repeat first [done | constructor].
  - assert (callable small (fun g => program small g /\ (small_rank g < 1)%nat) (str "numbers")) as Hc by (apply small_callable; lia).
    cbn [act_Body first action_of]. constructor; [|by repeat constructor].
    split; [by split; [exact Hc|constructor]|]. by repeat constructor.
  - cbn [act_Body total action_of]. constructor; [by split|]. constructor; [|by repeat constructor].
    split; [|by repeat constructor]. exists 1, 4. split_and!; try done; unfold is_sint; lia.
Qed.

(** Steps that panic. *)
Definition panics : steps :=
  mkSteps 0 (fun _ _ => afail (ErrPanic "step")) (fun _ _ _ => afail (ErrPanic "step")) (fun _ _ _ _ => afail (ErrPanic "step")).

Lemma nonrecursive_ends_witness :
  st_call (run small 18) 0 (ExAction main first) [] log_row (at_top []) =
  st_call (run_on small panics 100) 0 (ExAction main first) [] log_row (at_top []).
Proof.
  refine (nonrecursive_ends small small_rank 8 panics 18 100 0 (ExAction main first) [] log_row (at_top []) small_ranked _ _ _).
  - exists main, (mkNamespace (functions [numbers; first; total]) false), (str "first").
    split; [apply lookup_singleton_Some; by split|reflexivity].
  - apply Nat.le_refl.
  - lia.
Defined.

Lemma outcome_of_call_witness :
  st_call (run small 18) 0 (ExAction main first) [] log_row (at_top []) =
  st_call (run small 30) 0 (ExAction main first) [] log_row (at_top []).
Proof. refine (outcome_of_call small 18 30 0 (ExAction main first) [] log_row (at_top []) _ _); by vm_compute. Defined.

Lemma range_loop_runs_witness :
  is_logs (snd (range_loop 5 1 4 log_value (start []))) = [str "1"; str "2"; str "3"; str "4"].
Proof.
  rewrite (range_loop_runs 5 1 4 log_value (start [])); [reflexivity| | |]; unfold is_sint; lia.
Defined.

Lemma range_loop_to_max_witness :
  fst (range_loop 6 (2 ^ 63 - 2) (2 ^ 63 - 1) log_value (start [])) = Err out_of_steps.
Proof.
  refine (range_loop_to_max 6 (2 ^ 63 - 2) log_value (start []) _ _).
  - unfold is_sint. lia.
  - intros v st. by destruct v as [|[[z|]| | | | |]| |].
Defined.

Lemma canExecute_iff_witness :
  fst (canExecute (interp true) 0 main [PRIVATE; VIEW] (at_top [])) <> Ok tt /\
  fst (canExecute (interp false) 0 main [PUBLIC; VIEW] (at_top [])) = Ok tt.
Proof.
  split.
  - intros E. apply (canExecute_iff (interp true) 0 main [PRIVATE; VIEW] (at_top []) _ eq_refl) in E as [_ H].
    destruct H as [[H _]|[H _]]; [done|]. by destruct (H eq_refl) as [_ []].
  - apply (canExecute_iff (interp false) 0 main [PUBLIC; VIEW] (at_top []) _ eq_refl). split; [by left|].
    right. split_and!; try done. by right; right.
Defined.

(** A reader of a statement, another statement, and a writer of the first one. *)
Lemma first_use_decides_plan_witness :
  let st1 := snd (prepareQuery (interp false) 0 select_sql (at_top [3; 1; 2])) in
  let ch := c_put (snd (c_get (is_cache st1) (main, insert_sql))) (main, insert_sql) (mkPrepared _ Insert Insert) in
  fst <$> fst (prepareQuery (interp true) 0 select_sql (set_cache ch (at_top [3; 1; 2]))) = Ok (Select false).
Proof.
  intros st1 ch.
  refine (proj2 (first_use_decides_plan (interp false) 0%nat (mkExec (mkScope ∅ main true) [] false false) select_sql
    (at_top [3; 1; 2]) (Select false) [] st1 eq_refl _ _) (interp true) 0%nat (mkExec (mkScope ∅ main true) [] false false)
    (set_cache ch (at_top [3; 1; 2])) eq_refl eq_refl _).
  - reflexivity.
  - reflexivity.
  - eapply rtc_l; [split; [apply (access_get _ (main, insert_sql))|by eexists]|].
    apply rtc_once. split; [by apply access_add|by eexists].
Defined.

(** A loop over the table that inserts and breaks. *)
Definition insert_and_break (r : row) : action istate unit :=
  modify (fun st => set_db (is_db st ++ [7]) st);; afail errBreak.

Lemma nested_query_undone_witness :
  is_db (snd (nestedQuery (interp true) 0 select_sql insert_and_break (at_top [3; 1; 2]))) = [3; 1; 2].
Proof. refine (nested_query_undone (interp true) 0 select_sql insert_and_break (at_top [3; 1; 2]) errBreak _ _); by vm_compute. Defined.

(** ** Values *)

(** An array of one integer, a blob of one byte with room for three more, and two
    blobs of two bytes. *)
Definition cells : heap :=
  [CArr AInt true [SvInt (Some 1)] 1; CBytes [x01; x00; x00; x00]; CBytes [x02; x03]; CBytes [x04; x05]; CNulls 2].

Lemma cells_ok : heap_ok cells.
Proof.
  assert (Forall (cell_ok cells) cells) as Hc; [|by intros l c; apply list.Forall_lookup_1].
  constructor; [|constructor; [done|]; constructor; [done|]; constructor; [done|]; by constructor].
  split; [done|]. constructor; [|constructor]. split; [done|]. unfold sval_ok, is_sint. lia.
Qed.

Lemma Cast_typed_witness :
  fst (Cast (ScalV (SvInt (Some 5))) TextType cells) = Ok (text (str "5")) /\
  Type_of (snd (Cast (ScalV (SvInt (Some 5))) TextType cells)) (text (str "5")) = TextType.
Proof.
  split; [reflexivity|]. refine (proj2 (proj2 (proj2 (Cast_typed (ScalV (SvInt (Some 5))) TextType cells cells_ok _ _)) _ eq_refl)).
  - vm_compute. split; congruence.
  - by right.
Defined.

Lemma set_then_get_witness :
  exists h', Set_ (ArrV 0) 3 (ScalV (SvInt (Some 7))) cells = (Ok tt, h') /\ Len h' (ArrV 0) = 3.
Proof.
  destruct (set_then_get 0 AInt true [SvInt (Some 1)] 1 (SvInt (Some 7)) 3 cells cells_ok) as (h' & E & En & _);
    try reflexivity; [unfold sval_ok, is_sint; lia|split; [lia|vm_compute; congruence]|].
  exists h'. by split.
Defined.

Lemma blob_concat_shares_witness :
  exists r1 r2 h1 h2,
    Arithmetic (ScalV (SvBlob (Some (mkGSlice 1 1 4)))) (ScalV (SvBlob (Some (mkGSlice 2 2 2)))) CONCAT cells = (Ok (ScalV (SvBlob (Some r1))), h1) /\
    blob_bytes h1 r1 = [x01; x02; x03] /\
    Arithmetic (ScalV (SvBlob (Some (mkGSlice 1 1 4)))) (ScalV (SvBlob (Some (mkGSlice 3 2 2)))) CONCAT h1 = (Ok (ScalV (SvBlob (Some r2))), h2) /\
    blob_bytes h2 r1 = [x01; x04; x05].
Proof.
  refine (blob_concat_shares (mkGSlice 1 1 4) (mkGSlice 2 2 2) (mkGSlice 3 2 2) cells cells_ok _ _ _ eq_refl _ _ _);
    try (eexists; split; [reflexivity|]; split; [reflexivity|cbn; lia]); [cbn; lia|done|done].
Defined.

Lemma nulls_set_lost_witness :
  cells !! 4%nat = Some (CNulls 2) /\ forall j, Get (ArrV 4) j (snd (Set_ (ArrV 4) 1 (ScalV (SvInt (Some 7))) cells)) =
    (Ok NullV, snd (Set_ (ArrV 4) 1 (ScalV (SvInt (Some 7))) cells)).
Proof.
  split; [reflexivity|].
  refine (proj2 (nulls_set_lost 4 2 (SvInt (Some 7)) 1 cells _ _ _ _)); reflexivity.
Defined.

Lemma int_arith_exact_witness : int_arith 7 (-2) DIV = Ok (-3) /\ int_arith 7 0 MOD = Err ErrArithmetic.
Proof.
  split.
  - refine (proj1 (proj2 (proj1 (proj2 (int_arith_exact 7 (-2) _ _)) _)) _); [unfold is_sint; lia..|by left].
  - refine (proj2 (proj2 (proj2 (int_arith_exact 7 0 _ _)) eq_refl)); unfold is_sint; lia.
Defined.

Lemma cast_roundtrip_witness :
  (v ← Cast (ScalV (SvInt (Some (-12)))) TextType; Cast v IntType) cells = (Ok (ScalV (SvInt (Some (-12)))), cells).
Proof. refine (proj1 (cast_roundtrip cells cells_ok) (-12) _). unfold is_sint. lia. Defined.

Lemma array_append_pure_witness :
  exists l' cap' h', array_append (ArrV 0) (ScalV (SvInt (Some 7))) cells = (Ok (ArrV l'), h') /\
    h' !! l' = Some (CArr AInt true [SvInt (Some 1); SvInt (Some 7)] cap').
Proof.
  destruct (array_append_pure 0 AInt [SvInt (Some 1)] 1 (SvInt (Some 7)) cells cells_ok) as (l' & cap' & h' & E & _ & El & _);
    try reflexivity; [done|]. exists l', cap', h'. by split.
Defined.
