(* ===== verification/Grants.v ===== *)
(** * Statements on roles and namespaces

    The statements of src/node/engine/interpreter/planner.go that change the
    access controller (GRANT, REVOKE, TRANSFER OWNERSHIP, CREATE and DROP of roles
    and of namespaces, SET CURRENT NAMESPACE) and [execute] of interpreter.go, which
    runs a list of them and restores the memory of the interpreter when one fails.
    The statements run outside of actions.  The names of privileges are those that
    validatePrivileges accepts, and a variable is passed with its value. *)

From S2P Require Import Prelude.
From S2P Require Import Roles.
From S2P Require Import Interp.
From Stdlib Require Import Strings.Byte.

Definition ErrNamespaceExists : error := ErrSentinel "namespace already exists".
Definition ErrCannotDropBuiltinNamespace : error := ErrSentinel "cannot drop a built-in namespace".
Definition ErrReservedNamespacePrefix : error := ErrSentinel "namespace prefix is reserved".

Definition ReservedKwilNamespacePrefix : bytes := str "kwil_".
Definition ReservedPGNamespacePrefix : bytes := str "pg_".

(** The value of a variable: text or null, or of another type. *)
#[warnings="-register-all"]
Inductive variable_value := VarText (s : option bytes) | VarOther.

(** [ToUser] or [ToVariable]; the latter may fail to evaluate. *)
#[warnings="-register-all"]
Inductive grantee := ToUser (user : bytes) | ToVariable (v : result variable_value).

(** [GrantOrRevokeStatement] in its two forms that the parser makes. *)
#[warnings="-register-all"]
Inductive grant_target :=
  | OnRole (Privileges : list privilege) (ToRole : bytes)
  | OnUser (GrantRole : bytes) (to : grantee).

#[warnings="-register-all"]
Inductive statement :=
  | GrantOrRevokeStatement (If IsGrant : bool) (Namespace : option bytes) (target : grant_target)
  | TransferOwnershipStatement (to : grantee)
  | CreateRoleStatement (Role : bytes) (IfNotExists : bool)
  | DropRoleStatement (Role : bytes) (IfExists : bool)
  | CreateNamespaceStatement (Namespace : bytes) (IfNotExists : bool)
  | DropNamespaceStatement (Namespace : bytes) (IfExists : bool)
  | SetCurrentNamespaceStatement (Namespace : bytes).

#[local] Abbreviation A := (action acl_world).

Section statements.
Context (engineCtx : EngineContext).

(** [exec.checkPrivilege] outside of an action, in the scope of the namespace. *)
Definition check_privilege (namespace : bytes) (priv : privilege) : A unit :=
  if OverrideAuthz engineCtx then mret tt
  else
    a ← gets w_access;
    ok ← alift (HasPrivilege a (Caller engineCtx) (Some namespace) priv);
    if negb (ok : bool) then afail ErrDoesNotHavePrivilege else mret tt.

Definition canBeNamespaced (ps : list privilege) : result unit :=
  if existsb (fun p => bool_decide (p = ROLES_PRIVILEGE) || bool_decide (p = USE_PRIVILEGE)) ps
  then Err ErrCannotBeNamespaced else Ok tt.

Definition grantee_name (to : grantee) : result bytes :=
  match to with
  | ToUser u => Ok u
  | ToVariable (Err e) => Err e
  | ToVariable (Ok VarOther) => Err SqlValues.ErrType
  | ToVariable (Ok (VarText None)) => Err (ErrMsg "null user")
  | ToVariable (Ok (VarText (Some u))) => Ok u
  end.

Definition VisitGrantOrRevokeStatement (scope : bytes) (If IsGrant : bool) (Namespace : option bytes) (target : grant_target) : A unit :=
  check_privilege scope ROLES_PRIVILEGE;;
  match target with
  | OnRole privs role =>
      if bool_decide (privs = []) || bool_decide (role = []) then afail (ErrMsg "invalid grant/revoke statement")
      else
        (match Namespace with Some _ => alift (canBeNamespaced privs) | None => mret tt end);;
        if IsGrant then GrantPrivileges role privs Namespace If else RevokePrivileges role privs Namespace If
  | OnUser role to =>
      if bool_decide (role = defaultRole) then afail ErrBuiltInRole
      else if bool_decide (role = ownerRole) then afail (ErrMsg "cannot grant or revoke the owner role, use TRANSFER OWNERSHIP instead")
      else if bool_decide (role = []) || match to with ToUser [] => true | _ => false end then afail (ErrMsg "invalid grant/revoke statement")
      else if bool_decide (is_Some Namespace) then afail (ErrMsg "role assignment is global and cannot be namespaced")
      else
        user ← alift (grantee_name to);
        if IsGrant then AssignRole role user If else UnassignRole role user If
  end.

Definition VisitTransferOwnershipStatement (scope : bytes) (to : grantee) : A unit :=
  (if OverrideAuthz engineCtx then mret tt
   else
     check_privilege scope ROLES_PRIVILEGE;;
     a ← gets w_access;
     if negb (IsOwner a (Caller engineCtx)) then afail ErrDoesNotHavePrivilege else mret tt);;
  a ← gets w_access;
  owner ← alift (GetOwner a);
  (match owner with Some u => UnassignRole ownerRole u false | None => mret tt end);;
  toUser ← alift (grantee_name to);
  AssignRole ownerRole toUser false.

Definition VisitCreateRoleStatement (scope Role : bytes) (IfNotExists : bool) : A unit :=
  check_privilege scope ROLES_PRIVILEGE;;
  a ← gets w_access;
  if IfNotExists && RoleExists a Role then mret tt else CreateRole Role.

Definition VisitDropRoleStatement (scope Role : bytes) (IfExists : bool) : A unit :=
  check_privilege scope ROLES_PRIVILEGE;;
  a ← gets w_access;
  if IfExists && negb (RoleExists a Role) then mret tt else DeleteRole Role.

Definition HasPrefix (s prefix : bytes) : bool := bool_decide (take (length prefix) s = prefix).

Definition VisitCreateNamespaceStatement (scope Namespace : bytes) (IfNotExists : bool) : A unit :=
  check_privilege scope CREATE_PRIVILEGE;;
  if HasPrefix Namespace ReservedKwilNamespacePrefix && negb (OverrideAuthz engineCtx) then afail ErrReservedNamespacePrefix
  else if HasPrefix Namespace ReservedPGNamespacePrefix then afail ErrReservedNamespacePrefix
  else
    nss ← gets w_namespaces;
    match nss !! Namespace with
    | Some _ => if IfNotExists then mret tt else afail ErrNamespaceExists
    | None =>
        sql_execute (createNamespace Namespace (if OverrideAuthz engineCtx then TypeSystem else TypeUser));;
        modify (fun w => mkWorld (<[Namespace := false]> (w_namespaces w)) (registerNamespace Namespace (w_access w)) (w_tables w))
    end.

Definition VisitDropNamespaceStatement (scope Namespace : bytes) (IfExists : bool) : A unit :=
  check_privilege scope DROP_PRIVILEGE;;
  nss ← gets w_namespaces;
  match nss !! Namespace with
  | None => if IfExists then mret tt else afail ErrNamespaceNotFound
  | Some extension =>
      if bool_decide (Namespace = DefaultNamespace) || bool_decide (Namespace = InfoNamespace) then afail ErrCannotDropBuiltinNamespace
      else if extension : bool then afail ErrCannotMutateExtension
      else
        sql_execute (dropNamespace Namespace);;
        modify (fun w => mkWorld (delete Namespace (w_namespaces w)) (unregisterNamespace Namespace (w_access w)) (w_tables w))
  end.

Definition VisitSetCurrentNamespaceStatement (scope Namespace : bytes) : A bytes :=
  check_privilege scope USE_PRIVILEGE;;
  nss ← gets w_namespaces;
  match nss !! Namespace with
  | None => afail ErrNamespaceNotFound
  | Some _ => mret Namespace
  end.

(** A statement in the scope of a namespace, and the scope after it. *)
Definition visit (scope : bytes) (s : statement) : A bytes :=
  let keep (m : A unit) := m;; mret scope in
  match s with
  | GrantOrRevokeStatement If IsGrant Namespace target => keep (VisitGrantOrRevokeStatement scope If IsGrant Namespace target)
  | TransferOwnershipStatement to => keep (VisitTransferOwnershipStatement scope to)
  | CreateRoleStatement Role b => keep (VisitCreateRoleStatement scope Role b)
  | DropRoleStatement Role b => keep (VisitDropRoleStatement scope Role b)
  | CreateNamespaceStatement ns b => keep (VisitCreateNamespaceStatement scope ns b)
  | DropNamespaceStatement ns b => keep (VisitDropNamespaceStatement scope ns b)
  | SetCurrentNamespaceStatement ns => VisitSetCurrentNamespaceStatement scope ns
  end.

Fixpoint visit_all (scope : bytes) (ast : list statement) : A unit :=
  match ast with
  | [] => mret tt
  | s :: ast' => scope ← visit scope s; visit_all scope ast'
  end.

(** [copy] before, [apply] after an error or a panic: the tables keep what was
    written to the transaction. *)
Definition execute (ast : list statement) : A unit := fun w =>
  let body : A unit :=
    if InvalidTxCtx engineCtx && negb (OverrideAuthz engineCtx) then afail (ErrMsg "invalid transaction context")
    else match ast with
    | [] => afail (ErrMsg "no valid statements provided")
    | _ => visit_all DefaultNamespace ast
    end in
  match body w with
  | (Ok _, w') => (Ok tt, w')
  | (Err e, w') => (Err e, mkWorld (w_namespaces w) (w_access w) (w_tables w'))
  end.

(** The transaction of the block around a statement is rolled back to its
    savepoint when the statement fails. *)
Definition transaction (ast : list statement) : acl_world -> result unit * acl_world := fun w =>
  match execute ast w with
  | (Ok _, w') => (Ok tt, w')
  | (Err e, w') => (Err e, set_tables (w_tables w) w')
  end.
End statements.

(** [NewInterpreter]: the namespaces and the access controller that a node loads
    from its tables. *)
Definition NewInterpreter (o : db_order) (t : acl_tables) : result acl_world :=
  a ← newAccessController o t;
  mret (mkWorld ((fun ty => bool_decide (ty = TypeExtension)) <$> t_namespaces t) a t).

(** What schema.sql creates. *)
Definition initial_tables : acl_tables :=
  mkAcl (list_to_set [InfoNamespace; DefaultNamespace; str "kwild_engine"])
    (<[InfoNamespace := TypeSystem]> {[ DefaultNamespace := TypeSystem ]})
    (<[1 := defaultRole]> {[ 2 := ownerRole ]}) 3
    (((fun p => mkRP 1 None p true) <$> [SELECT_PRIVILEGE; CALL_PRIVILEGE]) ++
     ((fun p => mkRP 2 None p true) <$>
        [SELECT_PRIVILEGE; INSERT_PRIVILEGE; UPDATE_PRIVILEGE; DELETE_PRIVILEGE; CREATE_PRIVILEGE; DROP_PRIVILEGE;
         ALTER_PRIVILEGE; CALL_PRIVILEGE; ROLES_PRIVILEGE; USE_PRIVILEGE]))
    [].

(** The states of a node: it starts on the tables of schema.sql, runs transactions,
    and starts again on the tables it has, listed in any order. *)
Inductive reachable (ok : db_order -> Prop) : acl_world -> Prop :=
  | reach_start o w : ok o -> NewInterpreter o initial_tables = Ok w -> reachable ok w
  | reach_transaction ctx ast w : reachable ok w -> reachable ok (snd (transaction ctx ast w))
  | reach_restart o w w' : reachable ok w -> ok o -> NewInterpreter o (w_tables w) = Ok w' -> reachable ok w'.
