(* ===== verification/GrantsFacts.v ===== *)
(** * Statements on roles, restarts and rollbacks

    A statement that succeeds keeps the memory of the interpreter and its tables
    alike, and a failed one changes neither ([coherent]), so a node that was
    restarted decides every request like one that was not.  The last part shows the one
    thing in which memory and tables part nevertheless. *)

From S2P Require Import Prelude.
From S2P Require Import Roles.
From S2P Require Import RolesFacts.
From S2P Require Import Interp.
From S2P Require Import Grants.
From Stdlib Require Import Strings.Byte.

#[local] Open Scope Z_scope.

Definition memory_of (t : acl_tables) : gmap (list byte) bool := (fun ty => bool_decide (ty = TypeExtension)) <$> t_namespaces t.

Record coherent (w : acl_world) : Prop := mkCoherent {
  co_tables : twf (w_tables w);
  co_access : access_ok (w_tables w) (w_access w);
  co_namespaces : w_namespaces w = memory_of (w_tables w)
}.

(** ** Statements *)

Definition keeps {X} (m : action acl_world X) : Prop := forall w x w', coherent w -> m w = (Ok x, w') -> coherent w'.

Lemma keeps_bind {X Y} (m : action acl_world X) (k : X -> action acl_world Y) :
  keeps m -> (forall x, keeps (k x)) -> keeps (m ≫= k).
Proof. intros Hm Hk w y w' Hw (x & w1 & E1 & E2)%action_bind_inv. eapply Hk; [|done]. by eapply Hm. Qed.

Lemma keeps_same {X} (m : action acl_world X) : (forall w, snd (m w) = w) -> keeps m.
Proof. intros H w x w' Hw E. specialize (H w). rewrite E in H. by subst. Qed.

Ltac unstep E := unfold mbind, action_bind, gets, modify, alift, afail, mret, action_ret, sql_execute in E; cbn in E.

Lemma CreateRole_keeps role : keeps (CreateRole role).
Proof.
  intros [nss a t] x w' [Ht Ha Hn] E. cbn in *. unfold CreateRole in E. destruct (isBuiltInRole role); [done|]. unstep E.
  destruct (roles a !! role); [done|]. cbn in E. destruct (createRole role t) as [t'|] eqn:Et; [|done]. injection E as _ <-.
  destruct (createRole_ok t a role t') as [H1 H2]; [done..|]. split; [done..|]. cbn. rewrite Hn.
  unfold createRole in Et. by destruct (role_id t role); simplify_eq.
Qed.

Lemma DeleteRole_keeps role : keeps (DeleteRole role).
Proof.
  intros [nss a t] x w' [Ht Ha Hn] E. cbn in *. unfold DeleteRole in E. destruct (isBuiltInRole role) eqn:Eb; [done|]. unstep E.
  destruct (roles a !! role) eqn:Er; [|done]. injection E as _ <-.
  destruct (deleteRole_ok t a role) as [H1 H2]; [done|done|done|by eexists|]. split; [done..|]. cbn. rewrite Hn.
  unfold deleteRole. by destruct (role_id t role).
Qed.

Lemma upsert_all_namespaces id ns privs b t t' : upsert_all id ns privs b t = Ok t' -> t_namespaces t' = t_namespaces t.
Proof. unfold upsert_all. case_bool_decide; [done|]. by intros [= <-]. Qed.

Lemma grantSQL_namespaces role privs ns t t' : grantPrivilegesSQL role privs ns t = Ok t' -> t_namespaces t' = t_namespaces t.
Proof. unfold grantPrivilegesSQL. repeat case_match; first [by intros [= <-]|apply upsert_all_namespaces]. Qed.

Lemma revokeSQL_namespaces role privs ns t t' : revokePrivilegesSQL role privs ns t = Ok t' -> t_namespaces t' = t_namespaces t.
Proof. unfold revokePrivilegesSQL. repeat case_match; first [done|by intros [= <-]|apply upsert_all_namespaces]. Qed.

Lemma GrantPrivileges_keeps role privs ns b : keeps (GrantPrivileges role privs ns b).
Proof.
  intros [nss a t] x w' [Ht Ha Hn] E. cbn in *. unfold GrantPrivileges in E. case_bool_decide; [done|]. unstep E.
  destruct (roles a !! role) as [pm|] eqn:Er; [|done]. destruct (ungranted pm privs ns b) as [l|]; [|done].
  cbn in E. destruct (grantPrivilegesSQL role l ns t) as [t'|] eqn:Et; [|done]. unfold update_role in E. unstep E. rewrite Er in E.
  destruct (grant ns l pm) as [pm'|] eqn:Eg; [|done]. injection E as _ <-.
  destruct (grant_ok t a role pm pm' l ns t') as [H1 H2]; [done..|]. split; [done..|]. cbn.
  by rewrite Hn; unfold memory_of; rewrite (grantSQL_namespaces _ _ _ _ _ Et).
Qed.

Lemma RevokePrivileges_keeps role privs ns b : keeps (RevokePrivileges role privs ns b).
Proof.
  intros [nss a t] x w' [Ht Ha Hn] E. cbn in *. unfold RevokePrivileges in E. case_bool_decide; [done|]. unstep E.
  destruct (roles a !! role) as [pm|] eqn:Er; [|done]. destruct (existsb _ privs); [done|].
  cbn in E. destruct (revokePrivilegesSQL role privs ns t) as [t'|] eqn:Et; [|done]. unfold update_role in E. unstep E. rewrite Er in E.
  destruct (revoke ns privs pm) as [pm'|] eqn:Eg; [|done]. injection E as _ <-.
  destruct (revoke_ok t a role pm pm' privs ns t') as [H1 H2]; [done..|]. split; [done..|]. cbn.
  by rewrite Hn; unfold memory_of; rewrite (revokeSQL_namespaces _ _ _ _ _ Et).
Qed.

Lemma put_user_same t a u : access_ok t a -> access_ok t (put_user u (default [] (userRoles a !! u)) a).
Proof.
  intros [Hk Hr Ho Hu]. split; try done. intros v. cbn. destruct (decide (u = v)) as [->|].
  - rewrite lookup_insert_eq. apply Hu.
  - rewrite lookup_insert_ne by done. apply Hu.
Qed.

(** The role of the owner is assigned when nobody has it. *)
Lemma AssignRole_step role user b w x w' :
  coherent w -> (role = ownerRole -> forall u, ownerRole ∉ user_role_names (w_tables w) u) ->
  AssignRole role user b w = (Ok x, w') -> coherent w'.
Proof.
  destruct w as [nss a t]. intros [Ht Ha Hn] Hown E. cbn in *. unfold AssignRole in E. unstep E.
  destruct (roles a !! role); [|done]. case_bool_decide as Hin.
  - destruct b; [|done]. injection E as _ <-. split; [done|by apply put_user_same|done].
  - cbn in E. destruct (assignRole role user t) as [t'|] eqn:Et; [|done]. injection E as _ <-.
    destruct (assignRole_ok t a role user _ t' Ht Ha eq_refl Hin Hown Et) as [H1 H2]. split; [done..|]. cbn. rewrite Hn.
    unfold assignRole in Et. by destruct (role_id t role); simplify_eq.
Qed.

Lemma UnassignRole_keeps role user b : keeps (UnassignRole role user b).
Proof.
  intros [nss a t] x w' [Ht Ha Hn] E. cbn in *. unfold UnassignRole in E. unstep E.
  destruct (roles a !! role) eqn:Er; [|done]. destruct (userRoles a !! user) as [rs|] eqn:Eu; [|done].
  case_bool_decide as Hin; [|by destruct b; simplify_eq; split]. cbn in E.
  cbn in E. destruct (unassignRole role user t) as [t'|] eqn:Et; [|done]. injection E as _ <-.
  destruct (unassignRole_ok t a role user rs t') as [H1 H2]; [done|done|done|by eexists|done|]. split; [done..|]. cbn. rewrite Hn.
  unfold unassignRole in Et. by destruct (role_id t role); simplify_eq.
Qed.

Lemma check_privilege_same ctx scope p w : snd (check_privilege ctx scope p w) = w.
Proof.
  unfold check_privilege. case_match; [done|]. unfold mbind, action_bind, gets, alift. destruct (HasPrivilege _ _ _ _) as [[]|]; done.
Qed.

Lemma check_privilege_keeps ctx scope p : keeps (check_privilege ctx scope p).
Proof. apply keeps_same, check_privilege_same. Qed.

Lemma CreateNamespace_keeps ctx scope ns b : keeps (VisitCreateNamespaceStatement ctx scope ns b).
Proof.
  apply keeps_bind; [apply check_privilege_keeps|]. intros []. repeat (case_match; [by apply keeps_same|]).
  intros [nss a t] x w' [Ht Ha Hn] E. cbn in *. unstep E. destruct (nss !! ns); [by destruct b; simplify_eq|]. cbn in E.
  destruct (createNamespace ns _ t) as [t'|] eqn:Et; [|done]. injection E as _ <-.
  destruct (createNamespace_ok t a ns _ t' Ht Ha Et) as [H1 H2]. split; [done..|]. cbn. rewrite Hn.
  unfold createNamespace in Et. repeat (case_bool_decide; [done|]). injection Et as <-. unfold memory_of. cbn.
  rewrite fmap_insert. by destruct (OverrideAuthz ctx).
Qed.

Lemma DropNamespace_keeps ctx scope ns b : keeps (VisitDropNamespaceStatement ctx scope ns b).
Proof.
  apply keeps_bind; [apply check_privilege_keeps|]. intros [].
  intros [nss a t] x w' [Ht Ha Hn] E. cbn in *. unstep E. destruct (nss !! ns) as [ext|]; [|by destruct b; simplify_eq].
  case_match; [done|]. destruct ext; [done|]. cbn in E.
  destruct (dropNamespace ns t) as [t'|] eqn:Et; [|done]. injection E as _ <-.
  destruct (dropNamespace_ok t a ns t' Ht Ha Et) as [H1 H2]. split; [done..|]. cbn. rewrite Hn.
  unfold dropNamespace in Et. case_bool_decide; [|done]. injection Et as <-. unfold memory_of. cbn. by rewrite fmap_delete.
Qed.

(** ** Ownership *)

Definition no_owner (t : acl_tables) : Prop := forall u, ownerRole ∉ user_role_names t u.

Lemma owner_id t : twf t -> exists id, t_roles t !! id = Some ownerRole /\ role_id t ownerRole = Some id.
Proof. intros Ht. destruct (tw_builtin t Ht ownerRole) as [id E]; [done|]. exists id. by rewrite role_id_Some. Qed.

Lemma owner_role t a : twf t -> access_ok t a -> exists pm, roles a !! ownerRole = Some pm.
Proof. intros Ht Ha. destruct (owner_id t Ht) as (id & E & _). destruct (ao_roles t a Ha id _ E) as (pm & ? & _). eauto. Qed.

Lemma unassign_owner u w :
  coherent w -> ownerRole ∈ user_role_names (w_tables w) u ->
  exists w', UnassignRole ownerRole u false w = (Ok tt, w') /\ coherent w' /\ no_owner (w_tables w').
Proof.
  intros Hw Hu. pose proof Hw as [Ht Ha _]. destruct (owner_id _ Ht) as (id & Eid & Er), (owner_role _ _ Ht Ha) as [pm Epm].
  pose proof (ao_users _ _ Ha u) as Hp.
  assert (exists rs, userRoles (w_access w) !! u = Some rs /\ ownerRole ∈ rs) as (rs & Ers & Hin).
  { rewrite <- Hp in Hu. destruct (userRoles (w_access w) !! u); [eauto|]. by apply elem_of_nil in Hu. }
  set (w' := mkWorld (w_namespaces w) (put_user u (remove_first ownerRole rs) (w_access w))
               (set_userRoles (filter (fun x => x <> (u, id)) (t_userRoles (w_tables w))) (w_tables w))).
  exists w'. assert (UnassignRole ownerRole u false w = (Ok tt, w')) as E.
  { unfold UnassignRole. unfold mbind, action_bind, gets. rewrite Epm, Ers, bool_decide_eq_true_2 by done.
    unfold modify, sql_execute, unassignRole, set_access. cbn [w_tables]. rewrite Er. reflexivity. }
  split; [exact E|]. split; [by apply (UnassignRole_keeps _ _ _ _ _ _ Hw E)|].
  intros v (i & [Hne H]%list_elem_of_filter & Ei)%names_elem. cbn in Ei, H.
  assert (i = id) as -> by (by apply (tw_inj _ Ht _ _ ownerRole)). apply Hne. f_equal.
  apply (tw_owner _ Ht); [|done]. apply names_elem. eauto.
Qed.

Lemma assign_owner u w :
  coherent w -> no_owner (w_tables w) ->
  exists w', AssignRole ownerRole u false w = (Ok tt, w') /\ coherent w' /\
    forall v, ownerRole ∈ user_role_names (w_tables w') v <-> v = u.
Proof.
  intros Hw Hno. pose proof Hw as [Ht Ha _]. destruct (owner_id _ Ht) as (id & Eid & Er), (owner_role _ _ Ht Ha) as [pm Epm].
  assert (ownerRole ∉ default [] (userRoles (w_access w) !! u)) as Hnot by (rewrite (ao_users _ _ Ha u); apply Hno).
  set (w' := mkWorld (w_namespaces w) (put_user u (default [] (userRoles (w_access w) !! u) ++ [ownerRole]) (w_access w))
               (set_userRoles (t_userRoles (w_tables w) ++ [(u, id)]) (w_tables w))).
  exists w'. assert (AssignRole ownerRole u false w = (Ok tt, w')) as E.
  { unfold AssignRole. unfold mbind, action_bind, gets. rewrite Epm. cbv zeta. rewrite bool_decide_eq_false_2 by done.
    unfold modify, sql_execute, assignRole, set_access. cbn [w_tables]. rewrite Er. reflexivity. }
  split; [exact E|]. split; [by apply (AssignRole_step _ _ _ _ _ _ Hw (fun _ => Hno) E)|].
  intros v. rewrite names_elem. cbn. setoid_rewrite elem_of_app. setoid_rewrite list_elem_of_singleton. split.
  - intros (i & [H|[= -> ->]] & Ei); [|done]. destruct (Hno v). apply names_elem. eauto.
  - intros ->. exists id. auto.
Qed.

(** The old owner, if any, loses the role. *)
Lemma remove_owner w :
  coherent w -> exists o w', GetOwner (w_access w) = Ok o /\
    (match o with Some u => UnassignRole ownerRole u false | None => mret tt end) w = (Ok tt, w') /\
    coherent w' /\ no_owner (w_tables w').
Proof.
  intros Hw. destruct (GetOwner_spec _ _ (co_tables w Hw) (co_access w Hw)) as (o & Eo & Ho). exists o. destruct o as [u|].
  - destruct (unassign_owner u w) as (w' & E & ? & ?); [done|by apply Ho|]. by exists w'.
  - exists w. split_and!; [done|done|done|]. intros u H%Ho. done.
Qed.

Lemma Transfer_keeps ctx scope to : keeps (VisitTransferOwnershipStatement ctx scope to).
Proof.
  apply keeps_bind.
  { case_match; [by apply keeps_same|]. apply keeps_bind; [apply check_privilege_keeps|]. intros []. apply keeps_same.
    intros w. unfold mbind, action_bind, gets. by case_match. }
  intros []. intros w x w' Hw E. destruct (remove_owner w Hw) as (o & w1 & Eo & E1 & Hw1 & Hno).
  unfold mbind at 1, action_bind at 1, gets in E. unfold mbind at 1, action_bind at 1, alift in E. rewrite Eo in E.
  rewrite (action_bind_Ok _ _ _ _ _ E1) in E. apply action_bind_inv in E as (u & w2 & [= _ <-] & E).
  by apply (AssignRole_step _ _ _ _ _ _ Hw1 (fun _ => Hno) E).
Qed.

(** ** Transactions and restarts *)

Lemma GrantOrRevoke_keeps ctx scope b grant ns target : keeps (VisitGrantOrRevokeStatement ctx scope b grant ns target).
Proof.
  apply keeps_bind; [apply check_privilege_keeps|]. intros [].
  destruct target as [privs role|role to].
  - case_match; [by apply keeps_same|]. apply keeps_bind; [by destruct ns; apply keeps_same|]. intros [].
    destruct grant; [apply GrantPrivileges_keeps|apply RevokePrivileges_keeps].
  - case_bool_decide; [by apply keeps_same|]. case_bool_decide as Ho; [by apply keeps_same|].
    destruct (_ || _); [by apply keeps_same|]. case_bool_decide; [by apply keeps_same|]. apply keeps_bind; [by apply keeps_same|]. intros user.
    destruct grant; [|apply UnassignRole_keeps]. intros w x w' Hw. by apply AssignRole_step.
Qed.

Lemma if_keeps {X} (f : accessController -> bool) (m m' : action acl_world X) :
  keeps m -> keeps m' -> keeps (a ← gets w_access; if f a then m else m').
Proof. intros Hm Hm'. apply keeps_bind; [by apply keeps_same|]. intros a. by destruct (f a). Qed.

Lemma visit_keeps ctx scope s : keeps (visit ctx scope s).
Proof.
  destruct s; cbn; try (apply keeps_bind; [|intros; by apply keeps_same]).
  - apply GrantOrRevoke_keeps.
  - apply Transfer_keeps.
  - apply keeps_bind; [apply check_privilege_keeps|]. intros []. apply if_keeps; [by apply keeps_same|apply CreateRole_keeps].
  - apply keeps_bind; [apply check_privilege_keeps|]. intros []. apply if_keeps; [by apply keeps_same|apply DeleteRole_keeps].
  - apply CreateNamespace_keeps.
  - apply DropNamespace_keeps.
  - apply keeps_bind; [apply check_privilege_keeps|]. intros []. apply keeps_same. intros w. unfold mbind, action_bind, gets.
    by destruct (w_namespaces w !! _).
Qed.

Lemma visit_all_keeps ctx scope ast : keeps (visit_all ctx scope ast).
Proof.
  revert scope. induction ast as [|s ast IH]; intros scope; [by apply keeps_same|]. apply keeps_bind; [apply visit_keeps|]. intros. apply IH.
Qed.

Lemma transaction_coherent ctx ast w : coherent w -> coherent (snd (transaction ctx ast w)).
Proof.
  intros Hw. unfold transaction, execute. cbv zeta.
  match goal with |- context [match ?body w with _ => _ end] => destruct (body w) as [[x|e] w'] eqn:E end; cbn.
  - destruct (InvalidTxCtx ctx && _); [done|]. destruct ast; [done|]. by eapply visit_all_keeps.
  - by destruct w.
Qed.

Lemma restart_coherent o w w' : coherent w -> order_ok o -> NewInterpreter o (w_tables w) = Ok w' -> coherent w' /\ w_tables w' = w_tables w.
Proof.
  intros [Ht _ _] Ho E. destruct (load_ok o _ Ht Ho) as (a & Ea & Ha). unfold NewInterpreter in E. rewrite Ea in E.
  injection E as <-. done.
Qed.

Lemma initial_roles id n : t_roles initial_tables !! id = Some n <-> (id = 1 /\ n = defaultRole) \/ (id = 2 /\ n = ownerRole).
Proof. cbn. rewrite lookup_insert_Some, lookup_singleton_Some. naive_solver lia. Qed.

Lemma initial_rows r : r ∈ t_privileges initial_tables -> (rp_role r = 1 \/ rp_role r = 2) /\ rp_ns r = None /\ rp_granted r = true.
Proof. intros [(p & -> & _)%list_elem_of_fmap|(p & -> & _)%list_elem_of_fmap]%elem_of_app; cbn; auto. Qed.

Lemma initial_twf : twf initial_tables.
Proof.
  split.
  - intros i j n [[-> ->]|[-> ->]]%initial_roles [[-> E]|[-> E]]%initial_roles; done.
  - intros i [n [[-> _]|[-> _]]%initial_roles]; cbn; lia.
  - intros u i []%elem_of_nil.
  - intros r (Hid & Hn & Hg)%initial_rows. split_and!; [|congruence|done].
    destruct Hid as [->| ->]; [exists defaultRole|exists ownerRole]; apply initial_roles; auto.
  - intros id ns p (_ & H & _)%initial_rows. done.
  - intros u. apply base.NoDup_nil_2.
  - intros u v []%elem_of_nil.
  - intros n [->%bool_decide_eq_true| ->%bool_decide_eq_true]%orb_true_iff; [exists 2|exists 1]; apply initial_roles; auto.
Qed.

Lemma start_coherent o w : order_ok o -> NewInterpreter o initial_tables = Ok w -> coherent w.
Proof.
  intros Ho E. destruct (load_ok o _ initial_twf Ho) as (a & Ea & Ha). unfold NewInterpreter in E. rewrite Ea in E.
  injection E as <-. split; [apply initial_twf|done|done].
Qed.

Lemma reachable_coherent w : reachable order_ok w -> coherent w.
Proof.
  induction 1 as [o w Ho E|ctx ast w _ IH|o w w' _ IH Ho E].
  - by eapply start_coherent.
  - by apply transaction_coherent.
  - by eapply restart_coherent.
Qed.

(** C18. The tables decide: on every node the access controller answers every
    request for a privilege, without the panic for a role that is missing, with
    yes exactly for the owner and for the users whose roles, or the default role,
    have it by the rows of role_privileges, where a row of the namespace goes before
    the global one. *)
Theorem privilege_from_tables w u ns p :
  reachable order_ok w ->
  exists b, HasPrivilege (w_access w) u ns p = Ok b /\ (b = true <-> user_may (w_tables w) u ns p).
Proof. intros [Ht Ha _]%reachable_coherent. by apply HasPrivilege_spec. Qed.

Lemma access_agree t a a' : twf t -> access_ok t a -> access_ok t a' ->
  (forall u ns p, HasPrivilege a' u ns p = HasPrivilege a u ns p) /\
  (forall u, IsOwner a' u = IsOwner a u) /\ GetOwner a' = GetOwner a /\ (forall r, RoleExists a' r = RoleExists a r).
Proof.
  intros Ht Ha Ha'. split_and!.
  - intros u ns p. destruct (HasPrivilege_spec t a u ns p Ht Ha) as (b & -> & Hb), (HasPrivilege_spec t a' u ns p Ht Ha') as (b' & -> & Hb').
    f_equal. apply Bool.eq_iff_eq_true. tauto.
  - intros u. apply Bool.eq_iff_eq_true. by rewrite !(IsOwner_spec t).
  - destruct (GetOwner_spec t a Ht Ha) as (o & -> & Ho), (GetOwner_spec t a' Ht Ha') as (o' & -> & Ho'). f_equal.
    apply option_eq. intros u. by rewrite Ho, Ho'.
  - assert (forall a r, access_ok t a -> RoleExists a r = true <-> exists id, t_roles t !! id = Some r) as He.
    { intros b r Hb. unfold RoleExists. rewrite bool_decide_eq_true. split; [apply (ao_only t b Hb)|].
      intros [id E]. destruct (ao_roles t b Hb id r E) as (pm & -> & _). by eexists. }
    intros r. apply Bool.eq_iff_eq_true. by rewrite !He.
Qed.

(** C17. A restart does not change access: whatever statements a node ran and in
    whatever order its database lists the rows, loading the tables succeeds and
    gives the same namespaces and an access controller with the same answers on
    privileges, on the owner and on the existence of roles, so a node that was
    restarted admits the same requests as one that kept its memory. *)
Theorem restart_keeps_access w o :
  reachable order_ok w -> order_ok o ->
  exists w', NewInterpreter o (w_tables w) = Ok w' /\ w_namespaces w' = w_namespaces w /\
    (forall u ns p, HasPrivilege (w_access w') u ns p = HasPrivilege (w_access w) u ns p) /\
    (forall u, IsOwner (w_access w') u = IsOwner (w_access w) u) /\
    GetOwner (w_access w') = GetOwner (w_access w) /\
    (forall r, RoleExists (w_access w') r = RoleExists (w_access w) r).
Proof.
  intros [Ht Ha Hn]%reachable_coherent Ho. destruct (load_ok o _ Ht Ho) as (a & Ea & Ha').
  exists (mkWorld (memory_of (w_tables w)) a (w_tables w)). split; [by unfold NewInterpreter; rewrite Ea|].
  split; [done|]. by apply (access_agree (w_tables w)).
Qed.

(** C31. TRANSFER OWNERSHIP, by the owner or by the application, succeeds and makes
    the user the only owner, whoever was the owner before. *)
Theorem transfer_sets_owner ctx scope to user w :
  reachable order_ok w -> OverrideAuthz ctx = true \/ IsOwner (w_access w) (Caller ctx) = true -> grantee_name to = Ok user ->
  exists w', VisitTransferOwnershipStatement ctx scope to w = (Ok tt, w') /\ GetOwner (w_access w') = Ok (Some user) /\
    forall u, IsOwner (w_access w') u = bool_decide (u = user).
Proof.
  intros Hw%reachable_coherent Hauth Hto. destruct (remove_owner w Hw) as (o & w1 & Eo & E1 & Hw1 & Hno).
  destruct (assign_owner user w1 Hw1 Hno) as (w2 & E2 & [Ht2 Ha2 _] & Hown). exists w2. split_and!.
  - unfold VisitTransferOwnershipStatement. rewrite (action_bind_Ok _ _ _ tt w).
    + unfold mbind at 1, action_bind at 1, gets. unfold mbind at 1, action_bind at 1, alift at 1. rewrite Eo.
      rewrite (action_bind_Ok _ _ _ _ _ E1). unfold mbind, action_bind, alift. by rewrite Hto.
    + destruct (OverrideAuthz ctx) eqn:Eov; [done|]. destruct Hauth as [|Hauth]; [done|].
      unfold check_privilege, mbind, action_bind, gets, alift. rewrite Eov. unfold HasPrivilege. by rewrite Hauth; cbn; rewrite Hauth.
  - destruct (GetOwner_spec _ _ Ht2 Ha2) as (o' & -> & Ho'). f_equal. apply Ho', Hown. done.
  - intros u. apply Bool.eq_iff_eq_true. rewrite (IsOwner_spec (w_tables w2)), bool_decide_eq_true by done. apply Hown.
Qed.

(** ** Revoking the last role of a user *)

(** A transaction of the application, or of the owner. *)
Definition authorized (ctx : EngineContext) (w : acl_world) : Prop :=
  OverrideAuthz ctx = true \/ InvalidTxCtx ctx = false /\ IsOwner (w_access w) (Caller ctx) = true.

Definition revoke_statement (role user : bytes) (IfGranted : bool) : list statement :=
  [GrantOrRevokeStatement IfGranted false None (OnUser role (ToUser user))].

Lemma check_authorized ctx w p : authorized ctx w -> check_privilege ctx DefaultNamespace p w = (Ok tt, w).
Proof.
  intros H. unfold check_privilege. destruct (OverrideAuthz ctx) eqn:Eo; [done|]. destruct H as [|[_ H]]; [congruence|].
  unfold mbind, action_bind, gets, alift, HasPrivilege. by rewrite H.
Qed.

Lemma revoke_transaction ctx role user b w :
  authorized ctx w -> isBuiltInRole role = false -> role <> [] -> user <> [] ->
  transaction ctx (revoke_statement role user b) w =
    match UnassignRole role user b w with
    | (Ok _, w') => (Ok tt, w')
    | (Err e, w') => (Err e, w)
    end.
Proof.
  intros Ha [Ho Hd]%orb_false_iff Hr Hu. unfold transaction, execute, revoke_statement.
  assert (InvalidTxCtx ctx && negb (OverrideAuthz ctx) = false) as ->.
  { destruct Ha as [->|[-> _]]; [apply andb_false_r|done]. }
  cbn [visit_all visit]. unfold VisitGrantOrRevokeStatement.
  unfold mbind, action_bind at 1 2 3. rewrite (check_authorized ctx w _ Ha). rewrite Hd, Ho.
  rewrite (bool_decide_eq_false_2 (role = [])) by done. destruct user; [done|]. cbn [orb]. rewrite bool_decide_eq_false_2 by by intros [].
  unfold action_bind, alift. cbn [grantee_name]. destruct (UnassignRole _ _ _ _) as [[[]|e] w']; [done|]. by destruct w.
Qed.

(** The role that a user has alone, in memory and in the tables. *)
Lemma only_role w user role :
  coherent w -> user_role_names (w_tables w) user = [role] ->
  userRoles (w_access w) !! user = Some [role] /\ is_Some (roles (w_access w) !! role) /\
  exists id, t_roles (w_tables w) !! id = Some role /\ role_id (w_tables w) role = Some id.
Proof.
  intros [Ht Ha _] Hu. split; [|].
  - pose proof (ao_users _ _ Ha user) as Hp. rewrite Hu in Hp. destruct (userRoles _ !! user) as [rs|]; cbn in Hp.
    + apply Permutation_sym, Permutation_length_1_inv in Hp. by subst.
    + by apply Permutation_nil_cons in Hp.
  - assert (role ∈ user_role_names (w_tables w) user) as (id & _ & E)%names_elem by (rewrite Hu; set_solver).
    destruct (ao_roles _ _ Ha id role E) as (pm & Epm & _). split; [by eexists|]. exists id. split; [done|].
    by apply role_id_Some.
Qed.

(** What REVOKE of the only role of a user leaves: an empty list in memory and no
    row in the tables. *)
Lemma unassign_only w user role b :
  coherent w -> user_role_names (w_tables w) user = [role] ->
  exists w1, UnassignRole role user b w = (Ok tt, w1) /\ coherent w1 /\
    w_access w1 = put_user user [] (w_access w) /\ t_roles (w_tables w1) = t_roles (w_tables w) /\
    user_role_names (w_tables w1) user = [].
Proof.
  intros Hw Hu. destruct (only_role w user role Hw Hu) as (Eu & [pm Epm] & id & Eid & Er).
  set (w1 := mkWorld (w_namespaces w) (put_user user [] (w_access w))
               (set_userRoles (filter (fun x => x <> (user, id)) (t_userRoles (w_tables w))) (w_tables w))).
  assert (UnassignRole role user b w = (Ok tt, w1)) as E.
  { unfold UnassignRole. unfold mbind, action_bind, gets. rewrite Epm, Eu, bool_decide_eq_true_2 by set_solver.
    unfold modify, sql_execute, unassignRole, set_access. cbn [w_tables remove_first]. rewrite Er, bool_decide_eq_true_2 by done. done. }
  exists w1. split_and!; [done|by apply (UnassignRole_keeps _ _ _ _ _ _ Hw E)|done|done|].
  destruct (user_role_names (w_tables w1) user) as [|n l] eqn:En; [done|].
  assert (n ∈ user_role_names (w_tables w1) user) as (i & [Hne H]%list_elem_of_filter & Ei)%names_elem by (rewrite En; set_solver).
  cbn in Ei, H. assert (n ∈ user_role_names (w_tables w) user) as Hn by (apply names_elem; eauto).
  rewrite Hu in Hn. apply list_elem_of_singleton in Hn as ->. destruct Hne. f_equal.
  by apply (tw_inj _ (co_tables _ Hw) _ _ role).
Qed.

(** A user without a row is not in the memory of a node that loads the tables. *)
Lemma restart_forgets o t w2 user :
  NewInterpreter o t = Ok w2 -> user_role_names t user = [] -> userRoles (w_access w2) !! user = None.
Proof.
  unfold NewInterpreter, newAccessController. intros (a & (ac & _ & [= <-])%result_bind_Ok & [= <-])%result_bind_Ok Hn. cbn.
  apply not_elem_of_list_to_map_1. rewrite list_elem_of_fmap. intros (x & -> & (u & -> & Hu)%list_elem_of_fmap).
  unfold listed_users in Hu. by apply list_elem_of_filter in Hu as [Hu _].
Qed.

(** C19. Memory and tables differ in one thing that a statement can see: a user
    whose last role was revoked keeps an empty list in memory and has no row in the
    tables.  On every node and for every user with one role, which is not built in:
    REVOKE of the role by the application or by the owner succeeds, and then REVOKE
    IF GRANTED of it succeeds on the node that kept its memory and fails on a node
    that was restarted on the same tables, so the two nodes record different results
    for the same transaction. *)
Theorem revoke_splits_restarted_node ctx w o role user :
  reachable order_ok w -> order_ok o -> authorized ctx w ->
  isBuiltInRole role = false -> role <> [] -> user <> [] -> user_role_names (w_tables w) user = [role] ->
  exists w1 w2,
    transaction ctx (revoke_statement role user false) w = (Ok tt, w1) /\
    NewInterpreter o (w_tables w1) = Ok w2 /\ w_tables w2 = w_tables w1 /\
    fst (transaction ctx (revoke_statement role user true) w1) = Ok tt /\
    fst (transaction ctx (revoke_statement role user true) w2) = Err (ErrMsg "user does not exist").
Proof.
  intros Hw%reachable_coherent Ho Ha Hb Hr Hu Hnames.
  destruct (only_role w user role Hw Hnames) as (Eu & [pm Epm] & id & Eid & _).
  destruct (unassign_only w user role false Hw Hnames) as (w1 & E1 & Hw1 & Ea1 & Et1 & Hn1).
  destruct (load_ok o _ (co_tables _ Hw1) Ho) as (a2 & Ea2 & Ha2).
  set (w2 := mkWorld (memory_of (w_tables w1)) a2 (w_tables w1)).
  assert (NewInterpreter o (w_tables w1) = Ok w2) as E2 by by (unfold NewInterpreter; rewrite Ea2).
  assert (authorized ctx w1) as Ha1.
  { destruct Ha as [?|[? Hown]]; [by left|right]. split; [done|]. rewrite Ea1. unfold IsOwner in *. cbn.
    rewrite lookup_insert_ne; [done|]. intros Ec. rewrite <- Ec, Eu in Hown. apply bool_decide_eq_true in Hown.
    apply list_elem_of_singleton in Hown as <-. by vm_compute in Hb. }
  assert (authorized ctx w2) as Haw2.
  { destruct Ha1 as [?|[? Hown]]; [by left|right]. split; [done|]. rewrite <- Hown. cbn.
    by apply (access_agree _ _ _ (co_tables _ Hw1) (co_access _ Hw1) Ha2). }
  exists w1, w2. rewrite !revoke_transaction by done. rewrite E1. split_and!; [done|done|done|..].
  - unfold UnassignRole. unfold mbind, action_bind, gets. rewrite Ea1. cbn [put_user roles userRoles].
    by rewrite Epm, lookup_insert_eq.
  - rewrite <- Et1 in Eid. destruct (ao_roles _ _ Ha2 id role Eid) as (pm2 & Epm2 & _).
    pose proof (restart_forgets o _ w2 user E2 Hn1) as Ef. unfold UnassignRole. unfold mbind, action_bind, gets.
    cbn in Ef |- *. by rewrite Epm2, Ef.
Qed.

(** ** A network *)

Definition table_order : db_order :=
  mkOrder (fun t id => filter (fun r => rp_role r = id) (t_privileges t)) user_role_names.

Lemma table_order_ok : order_ok table_order.
Proof. by split. Qed.

Definition application : EngineContext := mkEngineCtx [] [] None 1 0 [] None (Ok None) false true.
Definition alice : bytes := str "0xa11ce".
Definition bob : bytes := str "0xb0b".
Definition writer : bytes := str "writer".

Definition from_result (r : result acl_world) : acl_world :=
  match r with Ok w => w | Err _ => mkWorld ∅ (mkAccess ∅ ∅ ∅) initial_tables end.

Definition genesis : acl_world := from_result (NewInterpreter table_order initial_tables).

Lemma genesis_loaded : NewInterpreter table_order initial_tables = Ok genesis.
Proof.
  assert (is_ok (NewInterpreter table_order initial_tables) = true) as H by by vm_compute.
  unfold genesis. by destruct (NewInterpreter _ _).
Qed.

Definition create_writer : list statement :=
  [CreateRoleStatement writer false;
   GrantOrRevokeStatement false true None (OnRole [INSERT_PRIVILEGE] writer);
   GrantOrRevokeStatement false false (Some DefaultNamespace) (OnRole [INSERT_PRIVILEGE] writer);
   GrantOrRevokeStatement false true None (OnUser writer (ToUser alice));
   TransferOwnershipStatement (ToUser bob)].

Definition node : acl_world := snd (transaction application create_writer genesis).

Lemma node_reachable : reachable order_ok node.
Proof. apply reach_transaction, (reach_start order_ok table_order); [apply table_order_ok|apply genesis_loaded]. Qed.

Lemma privilege_from_tables_witness :
  exists b, HasPrivilege (w_access node) alice None INSERT_PRIVILEGE = Ok b /\
    (b = true <-> user_may (w_tables node) alice None INSERT_PRIVILEGE).
Proof. apply (privilege_from_tables node), node_reachable. Defined.

Lemma restart_keeps_access_witness :
  exists w', NewInterpreter table_order (w_tables node) = Ok w' /\
    HasPrivilege (w_access w') alice (Some DefaultNamespace) INSERT_PRIVILEGE = Ok false /\
    HasPrivilege (w_access w') alice (Some InfoNamespace) INSERT_PRIVILEGE = Ok true.
Proof.
  destruct (restart_keeps_access node table_order node_reachable table_order_ok) as (w' & E & _ & H & _).
  exists w'. rewrite !H. split; [exact E|]. vm_compute. split; reflexivity.
Defined.

Lemma transfer_sets_owner_witness :
  exists w', VisitTransferOwnershipStatement application DefaultNamespace (ToUser alice) node = (Ok tt, w') /\
    GetOwner (w_access w') = Ok (Some alice) /\ forall u, IsOwner (w_access w') u = bool_decide (u = alice).
Proof.
  apply (transfer_sets_owner application DefaultNamespace (ToUser alice) alice node); [apply node_reachable|left; reflexivity|reflexivity].
Defined.

Lemma revoke_splits_restarted_node_witness :
  exists w1 w2,
    transaction application (revoke_statement writer alice false) node = (Ok tt, w1) /\
    NewInterpreter table_order (w_tables w1) = Ok w2 /\ w_tables w2 = w_tables w1 /\
    fst (transaction application (revoke_statement writer alice true) w1) = Ok tt /\
    fst (transaction application (revoke_statement writer alice true) w2) = Err (ErrMsg "user does not exist").
Proof.
  apply (revoke_splits_restarted_node application node table_order writer alice);
    [apply node_reachable|apply table_order_ok|left; reflexivity|reflexivity|done|done|vm_compute; reflexivity].
Defined.
